(* ===== verification/_CoqProject ===== *)
-Q . S2P
Prelude.v
GoStrings.v
GoTime.v
TimeText.v
Model.v
GoFloat.v
GoDuration.v
GoJson.v
JsonText.v
JsonValue.v
JsonStruct.v
Value.v
Ast.v
Lexer.v
Parser.v
Grammar.v
Prune.v
SegFormat.v
SegWriter.v
RecordJson.v
SegLayout.v
SegRefine.v
SegReader.v
SegToy.v
SegTorn.v
Merge.v
Planner.v
PlannerOk.v
Hub.v
Cache.v
Blobs.v
Catalog.v
MetaJson.v
SegGo.v
StoreToy.v
Store.v
S3.v
StoreOk.v
Recovery.v
Spool.v
Coherent.v
SpoolSafe.v
Client.v
Checkpoint.v
Enrich.v
Tailer.v
Discover.v
TailRun.v
Server.v
Delivery.v
Integrity.v
Session.v
Http.v
Manager.v
Durable.v
EndToEnd.v
Whole.v
Logs.v
Found.v
Cmd.v
