(* ===== verification/Prelude.v ===== *)
(** * simplelog, verified: root of the development

    simplelog collects container logs: an agent on each node tails log files and sends
    records to a manager, which keeps the newest in an open buffer (the spool), seals the
    buffer into segment files held in an object store, and answers queries over both.
    This library models both programs as executable definitions, one file per component,
    each definition named after the Go function it translates, and proves what makes
    them correct together.

    ** The files, and the code they model

    - [Prelude]: results, the state-and-error monad, boolean filters, fixed-width integers
      ([width]).
    - [GoStrings], [GoTime], [GoFloat], [GoDuration], [GoJson]: what the code uses of Go's
      strings, times (nanoseconds since 1970, with the zero time), float64, printed
      durations and encoding/json.
    - [TimeText], [JsonText], [JsonValue], [JsonStruct]: the texts of times and of
      encoding/json: what is printed for strings, numbers, maps and structs, how the
      decoder reads it into a target, and that compacting keeps a value's meaning.
    - [Model] (internal/model/model.go): records, sources and segment metadata.
      [RecordJson] and [MetaJson] are their JSON forms, which the struct tags of
      model.go, of writer.go's summary and of catalog.go's entry determine, with
      sidecar.go.
    - [Value], [Ast], [Lexer], [Parser], [Prune] (internal/query/value.go, ast.go,
      lexer.go, parser.go, prune.go): the query language.  [Grammar] is its
      specification: the grammar of ast.go's package comment as inductive relations, and
      what its sentences mean, which says more than the comment does: not every operator
      takes every value.
    - [SegFormat], [SegWriter], [SegReader] (internal/segment/format.go, writer.go,
      reader.go): the segment file, byte by byte.  [SegLayout] says what a segment file
      is, [SegRefine] that the writer produces it, [SegTorn] what a full disk leaves.
      [SegGo] shows that records which arrived over the wire meet the conditions of
      these theorems.  [SegToy] has a concrete zstd for evaluation.
    - [Merge], [Planner], [PlannerOk] (internal/query/iter.go, planner.go): the cursors
      and the k-way merge of [Executor.Run], and its specification.
    - [Hub] (internal/query/hub.go): live-tail subscriptions.
    - [Cache], [Blobs], [Catalog], [Store] (internal/store/cache.go, blobs.go,
      catalog.go with sidecar.go, store.go): the durable layer.  [StoreOk] has its
      theorems and [StoreToy] concrete instances of its interfaces; [Recovery] is the
      invariant that ties the catalogue, its snapshots and the object store together.  [S3]
      (internal/store/s3.go) is the object store over an S3 client.  [Coherent]: no code of
      its own; what the cache has under a segment's path is the segment's body.
    - [Spool], [SpoolSafe] (internal/manager/spool.go): the open segment; the second file
      interleaves its critical sections with seals that fail and with restarts.
    - [Client], [Server] (internal/ingest/client.go, server.go): the agent's window of
      unacknowledged records, and the manager's side of a stream.  [Session]: the
      goroutines of both as threads, [run_thread] for [Run] with its sessions,
      [stream_thread] and [ack_thread] for [Stream], and the agent's process.
    - [Checkpoint], [Tailer], [Discover] (internal/tailer/checkpoint.go, parse.go,
      tailer.go): committed offsets, the reading of one file, and which files are read.
      [TailRun] is the goroutine of a tail, [tail_thread], step by step.
    - [Enrich] (internal/enrich/enrich.go): pod metadata.
    - [Delivery]: no code of its own; agent and manager as one system whose connections
      break and whose two sides restart.  [Integrity]: what it holds comes from the files.
    - [Http] (internal/manager/http.go): queries, following, histograms, suggestions.
    - [Manager] (internal/manager/manager.go): construction, the seal loop, shutdown, and
      the publication of accepted records.
    - [Durable] (cmd/manager/main.go, from the store to the manager): a whole deployment,
      with crashes, lost disks and starts, over the object store.  [EndToEnd] puts it in
      the place of the manager of [Delivery], [Whole] the threads of [Session] in the
      place of the agents and connections, and [Logs] the threads of [TailRun], on the
      bytes of the log files, in the place of tails that go from record to record.
      [Found]: the query endpoint over the store of such a manager.
    - [Cmd] (cmd/agent/main.go, cmd/manager/main.go, internal/buildinfo/buildinfo.go):
      what is computed from the environment.

    ** How the parts interact

    [Discover] opens a tail per file generation at the offset [Checkpoint.Get] returns;
    [Tailer.pump] turns complete lines into records, [Enrich] adds metadata, and
    [Client.Enqueue] puts them into the window or makes the tail wait.  [Client.flush]
    sends the window in batches, all of it again after [reconnect].  [Server] hands each
    record to [Spool.Accept], which drops what is at or below the source's received
    offset, and answers with the committed offsets of the sources it has seen;
    [Client.applyAck] releases those records and advances the checkpoint.

    [Spool.SpoolSeal] takes the buffer ([seal_begin]), writes it with [SegWriter]
    ([write_batch]) and hands the file to [Store.Seal], which uploads the body and then
    the sidecar, catalogues the segment and admits it to the cache; then the committed
    offsets advance ([seal_commit]), or the batch goes back to the buffer ([requeue]).
    [Store.Recover] rebuilds the catalogue from the sidecars.  [Planner.Run] asks the
    store for overlapping segments and opens them through [SegmentStore], whose laws
    [PlannerOk] assumes; [Http] runs it over the store and the spool's snapshot, and
    follows it with what [Hub] delivers.

    Interfaces are type classes with their laws: [Regexp], [UnicodeTables], [Zstd],
    [JsonCodec], [MetaCodec], [Bolt], [Blobs] with [BlobsLaws], [S3Client] with [S3Laws],
    [SortSlice], [Receiver], [Tails] with [TailsLaws].  They stand for the regular-expression engine, the Unicode
    tables, the zstd encoder, the JSON forms of records and of metadata, the bbolt bucket,
    the object store, the S3 client, [sort.Slice], the server's view of the spool, and what
    the rest of the agent asks of its tails.  The
    two JSON interfaces are discharged by the code's own forms, [go_json] of [RecordJson]
    and [go_meta] of [MetaJson]; the others are each instantiated in a witness, so no
    theorem rests on laws that cannot hold together.

    ** What the theorems show

    - End to end ([Logs]): files grow, all threads interleave, connections break, both
      sides die and start again, seals fail and disks get lost.  A record that ends at or
      below its file's checkpoint is in a readable file of the object store, word for word,
      or was given up ([checkpointed_is_stored]); nothing else is ever stored
      ([stored_is_written]); a running agent forgets nothing it has read
      ([read_is_stored_or_held]); when its sender rests, the manager has everything or it
      is on its way ([at_rest_all_sent]).  And while no batch is sealed, every segment fits
      the cache, nothing evicts a file between its download and its open and the object
      store answers, what the checkpoint has passed is in the answer of every query without
      a limit that selects it ([Found.checkpointed_is_found]).  Each step of a tail is a step of [Whole] or none
      ([byte_places], [whole_refines]), each thread's step is some steps of [EndToEnd]
      ([whole_sim]), and each of these of [Delivery] ([tied_step]), whose invariants
      ([sys_inv], and [honest] of [Integrity]) this rests on.
    - The threads ([Session]): no signal to the sender is lost ([no_lost_wakeup]); alone,
      the sender sends the batches a reference cuts beforehand ([flush_thread]), and the
      others do what [Stream_batch] and [poll] say ([stream_thread_batch], [poll_thread]);
      an agent told to end under backpressure hangs ([shutdown_hangs]).
    - The agent: tailing is incremental, resumes exactly and ships the whole file across a
      rotation; the window is sent in order, bounded by the caps, and released exactly by
      what is committed; checkpoints only grow; the agent's own logs are never tailed.
    - Durability of a deployment ([Durable]): every run of the manager's own handlers, with
      crashes in the middle of seals, lost disks and starts that fail or succeed, refines
      the steps of [SpoolSafe], with the durable records being those in readable files of
      the object store.  So an acknowledged record stays in the object store for ever
      ([acked_forever]); an accepted one is at every moment in the buffer, in a catalogued
      file or in the batch being sealed, and only there hidden from queries
      ([accepted_visible]); a restart drops on redelivery exactly what is stored
      ([restart_exact]); [SpoolSeal_refines] ties the whole [Seal] method to the steps, with
      the object store as the durable records before and after; and a shutdown whose seal
      succeeds leaves nothing to redeliver ([shutdown_clean]).
    - Acknowledgement safety ([SpoolSafe]): in every interleaving with one seal at a time
      what is committed is durable, nothing accepted is lost while the manager runs, and a
      restart drops exactly the durable records, where the durable records are bookkeeping
      that [Durable] ties to the object store; [concurrent_seals_unsafe] shows that the
      condition on seals is needed.
    - Durability ([StoreOk], [Spool]): a successful seal leaves a readable file and its
      sidecar, at no point does a sidecar lack its body, and recovery catalogues every
      segment that has a sidecar.  The S3 store keeps the assumed contract as long as
      messages with a 404 mean a missing key; [recover_skips_on_404] shows what happens
      otherwise.
    - JSON: a record survives the wire with its texts made valid UTF-8 and its body
      compacted, and does not change any more after that ([wire_roundtrip]); whatever a
      sidecar is decoded from, JSON carries the metadata unchanged from then on
      ([metadata_settles]); segments of received records read back exactly
      ([received_segment_roundtrip]).
    - The segment format: round trip of whole files, refinement of the writer to the
      layout, block ranges, truncated files and write errors.
    - The query language: the parser accepts exactly the sentences of the documented
      grammar whose comparisons make sense, builds what they mean, and always terminates, evaluation never fails on a parsed tree, pruning is sound.
    - Queries: [Run] returns exactly the matching records, ordered and limited; the query
      endpoint streams them, histograms count each once, following is gapless when the
      times of a source do not decrease and no seal is in progress; [follow_skips] and
      [sealing_hides] show that both conditions are needed.
    - The hub never panics and delivers without gaps until it drops a subscriber, and what
      it delivers is what the spool accepts.
    - Queries of a deployment ([Found]): over the manager's own store, while records
      arrive, batches are sealed and segments are downloaded, cached and evicted, also
      between a query's download of a segment and its open, the answer is exact for the
      segments listed at its start and the buffer at its snapshot, or the query fails before
      it has sent anything ([deployed_query]); [seal_during_query_hides] shows what a seal
      between the two does, [eviction_races_open] how a query fails.  It rests on
      [Coherent]: every operation keeps what is cached equal to what is stored, and what
      [ensureLocal] has made local keeps its body until it is evicted ([run_has_body]).
    - The cache's bookkeeping, its capacity and LRU order; the catalogue's overlap scan; a
      record gets what the informer last said of its pod.

    ** Fuel

    [Parse] uses fuel linear in the length of the expression; [Parse_terminates] shows
    that it never runs out.  [Tailer.pump] has a step per byte of the file and one more,
    enough since every line has a byte.  [Client.flush] has a step per record of the
    window and one more.  The merge loop's fuel is the number of buffered records and the
    eviction loop's the length of the list; the theorems about them are about the results,
    so a loop that stopped early would falsify them.

    ** What is not modelled

    The generated protocol code, the Kubernetes client, the parsing of the command line and
    the web UI only call libraries.  Go's memory model is
    replaced by atomic steps where the code holds a mutex.  Of the node's disk, writes of
    the scratch file and the rename may fail; the download into the cache directory does
    not.  [ensureLocal] is one step: that two downloads of one segment can write the same
    file at once is not modelled.  Connections deliver what they deliver in order, and may lose a suffix.  In
    [Delivery] the seals are the abstract steps of [SpoolSafe]; [EndToEnd] ties them to
    the code.  A tail opens the generation of the file that [discover] has found, a seek in
    it does not fail, and a read finds a first part of what is ever written to it; in
    [Session] and [Logs] there is one agent, and one that is told to end may still start
    tails.  A time is an instant: the zone a log line was written in, which
    the JSON of its record prints, is not kept, and the model prints UTC.  The instants are
    the same, the texts are not where nodes log in another zone, and the encoder's refusal
    of zones of a day or more is missing.  In JSON texts a nil list is printed as an empty one,
    and a list decoded into a longer one does not keep its stale tail; numbers the code does
    not decode are scanned but not valued.  In [Durable] a process dies between calls or
    in the middle of a seal, not in the middle of [Recover], and one seal runs at a time; a
    whole call of [Seal] is one step, whose inner states are those of [dies] and [observed]. *)

From Stdlib Require Export ZArith Lia Permutation.
From stdpp Require Export base gmap sets list strings sorting pretty.

(** ** The error monad: Go's [(T, error)] results

    A Go function returning [(T, error)] is a function into [result E T], where
    [E] is the type of the errors it can return.  stdpp's [x ← c; k] notation
    sequences results the way [if err != nil { return err }] does. *)

Inductive result (E A : Type) : Type :=
| Ok (a : A)
| Err (e : E).
Arguments Ok {E A} a.
Arguments Err {E A} e.

#[export] Instance result_ret {E} : MRet (result E) := fun A a => Ok a.
#[export] Instance result_bind {E} : MBind (result E) :=
  fun A B f r => match r with Ok a => f a | Err e => Err e end.

Definition is_ok {E A} (r : result E A) : bool :=
  match r with Ok _ => true | Err _ => false end.

Lemma bind_ok {E A B} (f : A -> result E B) (r : result E A) b :
  (r ≫= f) = Ok b <-> exists a, r = Ok a /\ f a = Ok b.
Proof. destruct r; cbn; split; intros; destruct_and?; destruct_or?; simplify_eq; eauto;
  repeat match goal with H : exists _, _ |- _ => destruct H end; destruct_and?; by simplify_eq. Qed.

Lemma bind_err {E A B} (f : A -> result E B) (r : result E A) e :
  (r ≫= f) = Err e <-> r = Err e \/ exists a, r = Ok a /\ f a = Err e.
Proof. destruct r; cbn; split; intros; destruct_and?; destruct_or?; simplify_eq; eauto;
  repeat match goal with H : exists _, _ |- _ => destruct H end; destruct_and?; by simplify_eq. Qed.

(** ** State and errors

    A Go method with a pointer receiver that returns [(T, error)] is a function from
    the receiver's state to its new state and a result: the state keeps the changes
    made before an error. *)

Definition stM (S E A : Type) : Type := S -> S * result E A.

#[export] Instance stM_ret {S E} : MRet (stM S E) := fun A a s => (s, Ok a).
#[export] Instance stM_bind {S E} : MBind (stM S E) :=
  fun A B f m s => match m s with
                   | (s', Ok a) => f a s'
                   | (s', Err e) => (s', Err e)
                   end.

Definition get_st {S E} : stM S E S := fun s => (s, Ok s).
Definition modify_st {S E} (f : S -> S) : stM S E unit := fun s => (f s, Ok tt).
Definition fail_st {S E A} (e : E) : stM S E A := fun s => (s, Err e).
Definition lift_st {S E A} (r : result E A) : stM S E A := fun s => (s, r).

(** A [for range] loop whose body may return an error. *)
Fixpoint for_st {S E A} (f : A -> stM S E unit) (l : list A) : stM S E unit :=
  match l with
  | [] => mret tt
  | a :: l' => f a ;; for_st f l'
  end.

Lemma bind_step {S E A B} (m : stM S E A) (f : A -> stM S E B) s s' a :
  m s = (s', Ok a) -> (m ≫= f) s = f a s'.
Proof. intros H. unfold mbind, stM_bind. by rewrite H. Qed.
Lemma bind_fail {S E A B} (m : stM S E A) (f : A -> stM S E B) s s' e :
  m s = (s', Err e) -> (m ≫= f) s = (s', Err e).
Proof. intros H. unfold mbind, stM_bind. by rewrite H. Qed.

Lemma for_st_app {S E A} (f : A -> stM S E unit) l k s s' :
  for_st f l s = (s', Ok tt) -> for_st f (l ++ k) s = for_st f k s'.
Proof.
  revert s; induction l as [|a l IH]; intros s; cbn; [by intros [= ->]|].
  unfold mbind, stM_bind. destruct (f a s) as [s1 [u|e]]; [apply IH|done].
Qed.

(** ** Boolean filters *)

Lemma filter_perm {A} (P : A -> bool) l l' : l ≡ₚ l' -> List.filter P l ≡ₚ List.filter P l'.
Proof.
  induction 1 as [|x l1 l2 _ IH|x y l1|l1 l2 l3 _ IH1 _ IH2]; cbn; [done| | |by etrans].
  - destruct (P x); [by apply perm_skip|done].
  - destruct (P x), (P y); try done. apply perm_swap.
Qed.
Lemma filter_filter {A} (P Q : A -> bool) l :
  (forall a, P a = true -> Q a = true) -> List.filter P (List.filter Q l) = List.filter P l.
Proof.
  intros HPQ. induction l as [|a l IH]; cbn; [done|]. destruct (Q a) eqn:EQ; cbn; [by rewrite IH|].
  destruct (P a) eqn:EP; [|done]. by rewrite HPQ in EQ.
Qed.
Lemma elem_of_filter_b {A} (P : A -> bool) l a : a ∈ List.filter P l <-> P a = true /\ a ∈ l.
Proof. rewrite !list_elem_of_In, List.filter_In. tauto. Qed.

(** ** Fixed-width integers

    A Go integer of width [w] is a [Z] with its wrap-around written out where the
    code converts or computes. *)

Definition wrap_u (w z : Z) : Z := z mod 2 ^ w.
Definition wrap_s (w z : Z) : Z := (z + 2 ^ (w - 1)) mod 2 ^ w - 2 ^ (w - 1).

Definition uint64 (z : Z) : Z := wrap_u 64 z.
Definition uint32 (z : Z) : Z := wrap_u 32 z.
Definition int64 (z : Z) : Z := wrap_s 64 z.
Definition int32 (z : Z) : Z := wrap_s 32 z.

Definition in_int64 (z : Z) : Prop := (- 2 ^ 63 <= z < 2 ^ 63)%Z.
Definition in_int32 (z : Z) : Prop := (- 2 ^ 31 <= z < 2 ^ 31)%Z.
Definition in_uint64 (z : Z) : Prop := (0 <= z < 2 ^ 64)%Z.
#[export] Instance in_int64_dec z : Decision (in_int64 z).
Proof. unfold in_int64. apply _. Defined.
#[export] Instance in_int32_dec z : Decision (in_int32 z).
Proof. unfold in_int32. apply _. Defined.
#[export] Instance in_uint64_dec z : Decision (in_uint64 z).
Proof. unfold in_uint64. apply _. Defined.

(** Arithmetic at a width: unfold the wrap-arounds, compute the powers and let
    [lia] see the divisions. *)
Ltac width :=
  unfold int64, int32, uint64, uint32, in_int64, in_int32, in_uint64,
    wrap_u, wrap_s in *;
  change (64 - 1)%Z with 63%Z in *; change (32 - 1)%Z with 31%Z in *;
  change (2 ^ 63)%Z with 9223372036854775808%Z in *;
  change (2 ^ 64)%Z with 18446744073709551616%Z in *;
  change (2 ^ 31)%Z with 2147483648%Z in *;
  change (2 ^ 32)%Z with 4294967296%Z in *;
  Z.div_mod_to_equations; lia.

Lemma int64_id z : in_int64 z -> int64 z = z.
Proof. intros; width. Qed.
Lemma int64_range z : in_int64 (int64 z).
Proof. width. Qed.
Lemma int64_uint64 z : in_int64 z -> int64 (uint64 z) = z.
Proof. intros; width. Qed.
Lemma int32_uint32 z : in_int32 z -> int32 (uint32 z) = z.
Proof. intros; width. Qed.
Lemma uint64_range z : (0 <= uint64 z < 2 ^ 64)%Z.
Proof. width. Qed.
Lemma uint32_range z : (0 <= uint32 z < 2 ^ 32)%Z.
Proof. width. Qed.
Lemma uint32_id z : (0 <= z < 2 ^ 32)%Z -> uint32 z = z.
Proof. intros; width. Qed.
Lemma uint64_id z : (0 <= z < 2 ^ 64)%Z -> uint64 z = z.
Proof. intros; width. Qed.

Create HintDb width discriminated.
#[export] Hint Resolve int64_id int64_range int64_uint64 int32_uint32
  uint64_range uint32_range uint32_id uint64_id : width.
