(* ===== verification/GoStrings.v ===== *)
(** The part of Go's [strings], [strconv] (integers), [path/filepath], [unicode]
    and [unicode/utf8] packages that simplelog calls.  A Go string is a byte
    sequence: Rocq's [string], one [ascii] per byte. *)

From S2P Require Import Prelude.
From Stdlib Require Import Ascii String.

Local Open Scope string_scope.

(** ** Bytes and slices *)

Definition byte_of (n : N) : ascii := ascii_of_N n.
Definition code (c : ascii) : N := N_of_ascii c.

Definition QUOTE : ascii := "034".
Definition APOSTROPHE : ascii := "039".
Definition BACKSLASH : ascii := "092".

(** [s] with each apostrophe replaced by a double quote: a way to write texts that
    hold double quotes. *)
Fixpoint dq (s : string) : string :=
  match s with
  | EmptyString => EmptyString
  | String c s' => String (if Ascii.eqb c APOSTROPHE then QUOTE else c) (dq s')
  end.

(** [s[n:]] and [s[:n]], for [n <= len(s)]. *)
Fixpoint sdrop (n : nat) (s : string) : string :=
  match n, s with
  | O, _ => s
  | S n', EmptyString => EmptyString
  | S n', String _ s' => sdrop n' s'
  end.

Fixpoint stake (n : nat) (s : string) : string :=
  match n, s with
  | O, _ => EmptyString
  | S n', EmptyString => EmptyString
  | S n', String c s' => String c (stake n' s')
  end.

Definition slen (s : string) : nat := String.length s.
#[global] Arguments slen : simpl never.

(** ** strings *)

Definition HasPrefix (s p : string) : bool := String.prefix p s.

Definition HasSuffix (s p : string) : bool :=
  (slen p <=? slen s)%nat && String.eqb (sdrop (slen s - slen p) s) p.

Definition TrimSuffix (s p : string) : string :=
  if HasSuffix s p then stake (slen s - slen p) s else s.

Fixpoint Contains (haystack needle : string) : bool :=
  String.prefix needle haystack ||
  match haystack with
  | EmptyString => false
  | String _ h => Contains h needle
  end.

(** The string before and after the first occurrence of [sep]. *)
Fixpoint cut (sep : ascii) (s : string) : option (string * string) :=
  match s with
  | EmptyString => None
  | String c s' =>
      if Ascii.eqb c sep then Some (EmptyString, s')
      else match cut sep s' with
           | Some (a, b) => Some (String c a, b)
           | None => None
           end
  end.

(** [strings.SplitN(s, sep, n)] for a one-byte separator and [n > 0]. *)
Fixpoint SplitN (sep : ascii) (n : nat) (s : string) : list string :=
  match n with
  | O => []
  | S O => [s]
  | S n' =>
      match cut sep s with
      | Some (a, b) => a :: SplitN sep n' b
      | None => [s]
      end
  end.

(** [strings.Split(s, sep)] for a one-byte separator. *)
Fixpoint Split (sep : ascii) (s : string) : list string :=
  match s with
  | EmptyString => [EmptyString]
  | String c s' =>
      if Ascii.eqb c sep then EmptyString :: Split sep s'
      else match Split sep s' with
           | p :: ps => String c p :: ps
           | [] => [String c EmptyString]
           end
  end.

Fixpoint Join (parts : list string) (sep : string) : string :=
  match parts with
  | [] => EmptyString
  | [p] => p
  | p :: ps => p +:+ sep +:+ Join ps sep
  end.

(** [strings.LastIndexByte]: the suffix after the last [c], if there is one. *)
Fixpoint after_last (c : ascii) (s : string) : option string :=
  match s with
  | EmptyString => None
  | String d s' =>
      match after_last c s' with
      | Some r => Some r
      | None => if Ascii.eqb d c then Some s' else None
      end
  end.

(** ASCII lower case.  [strings.ToLower] also maps non-ASCII letters, but no
    non-ASCII rune has a lower case among the letters of simplelog's keywords, so
    comparing with a keyword gives the same answer. *)
Definition lower (c : ascii) : ascii :=
  let n := code c in
  if ((65 <=? n) && (n <=? 90))%N then byte_of (n + 32) else c.
Fixpoint ToLower (s : string) : string :=
  match s with
  | EmptyString => EmptyString
  | String c s' => String (lower c) (ToLower s')
  end.

(** [strings.TrimRight(s, cutset)] for a cutset of one byte. *)
Fixpoint TrimRight (cutset : ascii) (s : string) : string :=
  match s with
  | EmptyString => EmptyString
  | String c s' =>
      match TrimRight cutset s' with
      | EmptyString => if Ascii.eqb c cutset then EmptyString else String c EmptyString
      | t => String c t
      end
  end.

(** [filepath.Base] on a Unix system. *)
Fixpoint trim_slashes (s : string) : string :=
  match s with
  | EmptyString => EmptyString
  | String c s' =>
      match trim_slashes s' with
      | EmptyString => if Ascii.eqb c "/" then EmptyString else String c EmptyString
      | t => String c t
      end
  end.
Definition Base (path : string) : string :=
  match path with
  | EmptyString => "."
  | _ =>
      let p := trim_slashes path in
      match after_last "/" p with
      | Some b => b
      | None => match p with EmptyString => "/" | _ => p end
      end
  end.

(** ** unicode/utf8 *)

Definition RuneError : N := 65533.

Definition is_cont (n : N) : bool := (128 <=? n)%N && (n <=? 191)%N.
Definition in_range (lo hi n : N) : bool := (lo <=? n)%N && (n <=? hi)%N.

(** [utf8.DecodeRuneInString]: the first rune and its width in bytes; an invalid
    encoding gives [(RuneError, 1)], the empty string [(RuneError, 0)]. *)
Definition DecodeRune (s : string) : N * nat :=
  match s with
  | EmptyString => (RuneError, 0%nat)
  | String c0 s1 =>
      let b0 := code c0 in
      if (b0 <? 128)%N then (b0, 1%nat) else
      match s1 with
      | EmptyString => (RuneError, 1%nat)
      | String c1 s2 =>
          let b1 := code c1 in
          if in_range 194 223 b0 then
            if is_cont b1 then (N.land b0 31 * 64 + N.land b1 63, 2%nat)%N
            else (RuneError, 1%nat)
          else
          match s2 with
          | EmptyString => (RuneError, 1%nat)
          | String c2 s3 =>
              let b2 := code c2 in
              if in_range 224 239 b0 then
                let lo := if (b0 =? 224)%N then 160%N else 128%N in
                let hi := if (b0 =? 237)%N then 159%N else 191%N in
                if in_range lo hi b1 && is_cont b2
                then (N.land b0 15 * 4096 + N.land b1 63 * 64 + N.land b2 63, 3%nat)%N
                else (RuneError, 1%nat)
              else
              match s3 with
              | EmptyString => (RuneError, 1%nat)
              | String c3 _ =>
                  let b3 := code c3 in
                  if in_range 240 244 b0 then
                    let lo := if (b0 =? 240)%N then 144%N else 128%N in
                    let hi := if (b0 =? 244)%N then 143%N else 191%N in
                    if in_range lo hi b1 && is_cont b2 && is_cont b3
                    then (N.land b0 7 * 262144 + N.land b1 63 * 4096
                          + N.land b2 63 * 64 + N.land b3 63, 4%nat)%N
                    else (RuneError, 1%nat)
                  else (RuneError, 1%nat)
              end
          end
      end
  end.

(** [utf8.DecodeLastRuneInString]: the rune a valid encoding of which ends [s]. *)
Definition DecodeLastRune (s : string) : N * nat :=
  let try (k : nat) (other : N * nat) :=
    if (k <=? slen s)%nat then
      match DecodeRune (sdrop (slen s - k) s) with
      | (r, w) =>
          if (w =? k)%nat && ((1 <? k)%nat || (r <? 128)%N) then (r, w) else other
      end
    else other in
  match s with
  | EmptyString => (RuneError, 0%nat)
  | _ => try 1%nat (try 2%nat (try 3%nat (try 4%nat (RuneError, 1%nat))))
  end.

(** ** unicode *)

(** [unicode.IsSpace]: the White_Space property. *)
Definition IsSpace (r : N) : bool :=
  in_range 9 13 r || (r =? 32)%N || (r =? 133)%N || (r =? 160)%N
  || (r =? 5760)%N || in_range 8192 8202 r || (r =? 8232)%N || (r =? 8233)%N
  || (r =? 8239)%N || (r =? 8287)%N || (r =? 12288)%N.

(** The letter and decimal-digit tables.  Latin-1 is written out; the tables
    beyond it are data of the Unicode version Go was built with, so they are
    arguments of the model. *)
Class UnicodeTables := {
  letter_beyond_latin1 : N -> bool;
  digit_beyond_latin1 : N -> bool
}.

Definition IsLetter `{UnicodeTables} (r : N) : bool :=
  if (r <? 256)%N then
    in_range 65 90 r || in_range 97 122 r || (r =? 170)%N || (r =? 181)%N
    || (r =? 186)%N || in_range 192 214 r || in_range 216 246 r
    || in_range 248 255 r
  else letter_beyond_latin1 r.

Definition IsDigit `{UnicodeTables} (r : N) : bool :=
  if (r <? 256)%N then in_range 48 57 r else digit_beyond_latin1 r.

(** Tables without any letter or digit beyond Latin-1, to evaluate examples. *)
Definition latin1_tables : UnicodeTables :=
  {| letter_beyond_latin1 := fun _ => false; digit_beyond_latin1 := fun _ => false |}.

(** ** strings.TrimSpace *)

Fixpoint trim_left (fuel : nat) (s : string) : string :=
  match fuel with
  | O => s
  | S fuel' =>
      let (r, sz) := DecodeRune s in
      if (0 <? sz)%nat && IsSpace r then trim_left fuel' (sdrop sz s) else s
  end.

Fixpoint trim_right (fuel : nat) (s : string) : string :=
  match fuel with
  | O => s
  | S fuel' =>
      let (r, sz) := DecodeLastRune s in
      if (0 <? sz)%nat && IsSpace r then trim_right fuel' (stake (slen s - sz) s)
      else s
  end.

Definition TrimSpace (s : string) : string :=
  let t := trim_left (slen s) s in trim_right (slen t) t.

(** ** strconv: decimal integers *)

Definition FormatInt (z : Z) : string := pretty z.
Definition FormatUint (n : Z) : string := pretty (Z.to_N n).
Definition FormatBool (b : bool) : string := if b then "true" else "false".

Definition is_digit (c : ascii) : bool := in_range 48 57 (code c).

Fixpoint digits_value (acc : Z) (s : string) : option Z :=
  match s with
  | EmptyString => Some acc
  | String c s' =>
      if is_digit c then digits_value (acc * 10 + Z.of_N (code c - 48)) s' else None
  end.

(** [strconv.ParseInt(s, 10, 64)]: an optional sign and at least one digit, within
    the int64 range. *)
Definition ParseInt (s : string) : option Z :=
  let parse (t : string) (k : Z -> Z) :=
    match t with
    | EmptyString => None
    | _ => match digits_value 0 t with
           | Some v => if decide (in_int64 (k v)) then Some (k v) else None
           | None => None
           end
    end in
  match s with
  | String "-" t => parse t Z.opp
  | String "+" t => parse t (fun v => v)
  | _ => parse s (fun v => v)
  end.

(** The value of [strconv.Atoi(s)] when its error is ignored: 0 for a malformed number,
    the nearest [int] for one out of range, which is noticed before what follows it. *)
Inductive uint_result := Uint (v : Z) | UintRange | UintSyntax.
Fixpoint uint_loop (acc : Z) (s : string) : uint_result :=
  match s with
  | EmptyString => Uint acc
  | String c s' =>
      if is_digit c then
        let acc := acc * 10 + Z.of_N (code c - 48) in
        if 2 ^ 64 <=? acc then UintRange else uint_loop acc s'
      else UintSyntax
  end%Z.
Definition Atoi (s : string) : Z :=
  let unsigned (neg : bool) (t : string) :=
    let lo := (- 2 ^ 63)%Z in let hi := (2 ^ 63 - 1)%Z in
    match t with
    | EmptyString => 0
    | _ => match uint_loop 0 t with
           | Uint v => if neg : bool then Z.max lo (- v) else Z.min hi v
           | UintRange => if neg then lo else hi
           | UintSyntax => 0
           end
    end%Z in
  match s with
  | String "-" t => unsigned true t
  | String "+" t => unsigned false t
  | _ => unsigned false s
  end.
Example Atoi_values :
  map Atoi ["42"; "-7"; "+5"; ""; "-"; "4x"; "9223372036854775807"; "9223372036854775808";
    "-9223372036854775809"; "99999999999999999999x"; "9999999999x"] =
  [42; -7; 5; 0; 0; 0; 2 ^ 63 - 1; 2 ^ 63 - 1; - 2 ^ 63; 2 ^ 63 - 1; 0]%Z.
Proof. reflexivity. Qed.

(** [fmt]'s [%0wd]. *)
Fixpoint zeros (n : nat) : string :=
  match n with O => EmptyString | S n' => String "0" (zeros n') end.
Definition pad_int (w : nat) (z : Z) : string :=
  if (z <? 0)%Z
  then let d := FormatInt (- z) in "-" +:+ zeros (w - 1 - slen d) +:+ d
  else let d := FormatInt z in zeros (w - slen d) +:+ d.

(** ** Lemmas *)

Lemma str_app_nil (t : string) : "" +:+ t = t.
Proof. reflexivity. Qed.
Lemma str_app_cons c (s t : string) : String c s +:+ t = String c (s +:+ t).
Proof. reflexivity. Qed.
Lemma str_app_nil_r (s : string) : s +:+ "" = s.
Proof. induction s as [|c s IH]; [done|]. by rewrite str_app_cons, IH. Qed.
Lemma str_app_assoc (s t u : string) : (s +:+ t) +:+ u = s +:+ (t +:+ u).
Proof. induction s as [|c s IH]; [done|]. by rewrite !str_app_cons, IH. Qed.
Create Rewrite HintDb gostr.
#[export] Hint Rewrite str_app_nil str_app_cons str_app_nil_r str_app_assoc : gostr.

Lemma slen_cons c s : slen (String c s) = S (slen s).
Proof. reflexivity. Qed.
Lemma slen_app s t : slen (s +:+ t) = (slen s + slen t)%nat.
Proof.
  induction s as [|c s IH]; [done|]. by rewrite str_app_cons, !slen_cons, IH.
Qed.
#[export] Hint Rewrite slen_cons slen_app : gostr.

Lemma sdrop_app s t : sdrop (slen s) (s +:+ t) = t.
Proof. by induction s. Qed.
Lemma stake_app s t : stake (slen s) (s +:+ t) = s.
Proof.
  induction s as [|c s IH]; [by destruct t|].
  rewrite slen_cons, str_app_cons. simpl. by rewrite IH.
Qed.
Lemma sdrop_add n m s : sdrop n (sdrop m s) = sdrop (m + n) s.
Proof.
  revert s; induction m as [|m IH]; intros s; [done|].
  destruct s; cbn; [by destruct n|apply IH].
Qed.
Lemma slen_sdrop n s : slen (sdrop n s) = (slen s - n)%nat.
Proof.
  revert s; induction n as [|n IH]; intros [|c s]; try done. cbn [sdrop].
  by rewrite IH, slen_cons.
Qed.

Lemma stake_sdrop n s : stake n s +:+ sdrop n s = s.
Proof.
  revert s; induction n as [|n IH]; intros [|c s]; try done.
  cbn [stake sdrop]. by rewrite str_app_cons, IH.
Qed.
Lemma slen_stake n s : slen (stake n s) = Nat.min n (slen s).
Proof.
  revert s; induction n as [|n IH]; intros [|c s]; try done.
  cbn [stake]. by rewrite !slen_cons, IH.
Qed.

(** The bytes of a string. *)
Fixpoint bytes_of (s : string) : list ascii :=
  match s with EmptyString => [] | String c s' => c :: bytes_of s' end.

Lemma bytes_of_app s t : bytes_of (s +:+ t) = (bytes_of s ++ bytes_of t)%list.
Proof. induction s as [|c s IH]; [done|]. rewrite str_app_cons. cbn. by rewrite IH. Qed.
Lemma bytes_of_inj s t : bytes_of s = bytes_of t -> s = t.
Proof. revert t; induction s; intros [|d t]; cbn; naive_solver. Qed.

Lemma suffix_inj s t u : s +:+ u = t +:+ u -> s = t.
Proof.
  intros E. apply (f_equal bytes_of) in E. rewrite !bytes_of_app in E.
  apply app_inv_tail in E. by apply bytes_of_inj.
Qed.
Lemma after_last_app c p b :
  c ∉ bytes_of b -> after_last c (p +:+ String c b) = Some b.
Proof.
  intros Hb. assert (N : after_last c b = None).
  { clear p. induction b as [|d b IH]; [done|]. cbn in Hb |- *.
    apply not_elem_of_cons in Hb as [Hd Hb]. rewrite IH by done.
    destruct (Ascii.eqb_spec d c); [by subst|done]. }
  induction p as [|d p IH]; [|by rewrite str_app_cons; cbn; rewrite IH].
  rewrite str_app_nil. cbn. by rewrite N, Ascii.eqb_refl.
Qed.

Lemma HasPrefix_app p s : HasPrefix (p +:+ s) p = true.
Proof.
  unfold HasPrefix. induction p as [|c p IH]; [by destruct s|]. rewrite str_app_cons. cbn.
  by destruct (ascii_dec c c).
Qed.
Lemma HasSuffix_app s p : HasSuffix (s +:+ p) p = true.
Proof.
  unfold HasSuffix. rewrite slen_app.
  replace (slen s + slen p - slen p)%nat with (slen s) by lia.
  rewrite sdrop_app, String.eqb_refl.
  by rewrite (proj2 (Nat.leb_le _ _)) by lia.
Qed.
Lemma TrimSuffix_app s p : TrimSuffix (s +:+ p) p = s.
Proof.
  unfold TrimSuffix. rewrite HasSuffix_app, slen_app.
  replace (slen s + slen p - slen p)%nat with (slen s) by lia. apply stake_app.
Qed.

(** A separator that does not occur in the heads makes concatenation injective. *)
Lemma sep_app_inj sep a b s t :
  sep ∉ bytes_of a -> sep ∉ bytes_of b ->
  a +:+ String sep s = b +:+ String sep t -> a = b /\ s = t.
Proof.
  revert b; induction a as [|c a IHa]; intros [|d b] Ha Hb; cbn in Ha, Hb;
    rewrite ?str_app_nil, ?str_app_cons; intros E; injection E; clear E; intros; subst.
  - done.
  - exfalso. set_solver.
  - exfalso. clear IHa. set_solver.
  - rewrite not_elem_of_cons in Ha, Hb. destruct (IHa b) as [-> ->]; tauto.
Qed.

Lemma pretty_N_char_digit n : (n < 10)%N -> is_digit (pretty_N_char n) = true.
Proof.
  intros H. destruct n as [|p]; [done|]. by do 4 (destruct p as [p|p|]; try done; try lia).
Qed.

Lemma pretty_N_go_digits n s :
  Forall (fun c => is_digit c = true) (bytes_of s) ->
  Forall (fun c => is_digit c = true) (bytes_of (pretty_N_go n s)).
Proof.
  revert s. induction (N.lt_wf_0 n) as [n _ IH]. intros s Hs.
  destruct (decide (0 < n)%N) as [Hn|Hn].
  - rewrite pretty_N_go_step by done. apply IH; [apply N.div_lt; lia|].
    cbn. constructor; [|done]. apply pretty_N_char_digit, N.mod_lt. lia.
  - replace n with 0%N by lia. by rewrite pretty_N_go_0.
Qed.

Lemma FormatUint_digits z :
  Forall (fun c => is_digit c = true) (bytes_of (FormatUint z)).
Proof.
  unfold FormatUint, pretty, pretty_N. case_decide; cbn.
  - repeat constructor.
  - apply pretty_N_go_digits. constructor.
Qed.

Lemma code_byte_of n : (n < 256)%N -> code (byte_of n) = n.
Proof. apply N_ascii_embedding. Qed.
