(* ===== verification/GoTime.v ===== *)
(** Go's [time.Time], as far as simplelog uses it.  An instant is the [Z] count of
    nanoseconds since the Unix epoch; the zero [Time] is 1 January of year 1.  The
    location of a [Time] only matters for printing and is not modelled: simplelog compares
    instants and converts to UTC before it formats, except that the JSON of a record prints
    the zone its log line was written in. *)

From S2P Require Import Prelude GoStrings.
From Stdlib Require Import Ascii.
Local Open Scope string_scope.
Local Open Scope list_scope.
Local Open Scope Z_scope.

Abbreviation Time := Z (only parsing).
Abbreviation Duration := Z (only parsing).

Definition Millisecond : Duration := 1000000.
Definition Second : Duration := 1000000000.
Definition Minute : Duration := 60 * Second.
Definition Hour : Duration := 60 * Minute.

(** [time.Time{}] *)
Definition zeroTime : Time := -62135596800 * Second.
Definition IsZero (t : Time) : bool := t =? zeroTime.
Definition Before (t u : Time) : bool := t <? u.
Definition After (t u : Time) : bool := u <? t.

(** [t.UnixNano()]: an [int64], wrapping outside 1678..2262. *)
Definition UnixNano (t : Time) : Z := int64 t.
Definition UnixMilli (t : Time) : Z := int64 (t / 1000000).
(** [time.Unix(sec, nsec)] for the two ways it is called: the seconds are counted from
    year 1 in an int64, which wraps. *)
Definition Unix_nsec (nsec : Z) : Time := nsec.
Definition Unix_sec (sec : Z) : Time := (int64 (sec + 62135596800) - 62135596800) * Second.

(** [t.Sub(u)] saturates at the ends of the [Duration] range. *)
Definition Sub (t u : Time) : Duration :=
  Z.max (- 2 ^ 63) (Z.min (2 ^ 63 - 1) (t - u)).
Definition Add (t : Time) (d : Duration) : Time := t + d.

(** ** The proleptic Gregorian calendar *)

(** Year, month and day of a UTC instant. *)
Definition civil (t : Time) : Z * Z * Z :=
  let z := t / (86400 * Second) + 719468 in
  let era := z / 146097 in
  let doe := z - era * 146097 in
  let yoe := (doe - doe / 1460 + doe / 36524 - doe / 146096) / 365 in
  let doy := doe - (365 * yoe + yoe / 4 - yoe / 100) in
  let mp := (5 * doy + 2) / 153 in
  let d := doy - (153 * mp + 2) / 5 + 1 in
  let m := if mp <? 10 then mp + 3 else mp - 9 in
  let y := yoe + era * 400 + (if m <=? 2 then 1 else 0) in
  (y, m, d).

(** Days from the epoch to a civil date. *)
Definition days_of_civil (y m d : Z) : Z :=
  let y' := if m <=? 2 then y - 1 else y in
  let era := y' / 400 in
  let yoe := y' - era * 400 in
  let doy := (153 * (if 2 <? m then m - 3 else m + 9) + 2) / 5 + d - 1 in
  let doe := yoe * 365 + yoe / 4 - yoe / 100 + doy in
  era * 146097 + doe - 719468.

Definition Date (y m d hh mm ss nsec : Z) : Time :=
  (days_of_civil y m d * 86400 + hh * 3600 + mm * 60 + ss) * Second + nsec.

(** ** [time.Parse(time.RFC3339Nano, s)]

    Go's general parser on the layout 2006-01-02T15:04:05.999999999Z07:00 (the fast path
    for this layout accepts fewer strings, with the same results): the hour may have one
    digit, the fraction any number of digits, of which nine count. *)

Definition digit_at (s : string) (i : nat) : option Z :=
  match String.get i s with
  | Some c => if is_digit c then Some (Z.of_N (code c) - 48) else None
  | None => None
  end.
Fixpoint all_digits (n : nat) (s : string) (acc : Z) : option (Z * string) :=
  match n with
  | O => Some (acc, s)
  | S n => d ← digit_at s 0; all_digits n (sdrop 1 s) (acc * 10 + d)
  end.

(** [getnum]: one or two digits; exactly two when [fixed]. *)
Definition getnum (fixed : bool) (s : string) : option (Z * string) :=
  d ← digit_at s 0;
  match digit_at s 1 with
  | Some e => Some (d * 10 + e, sdrop 2 s)
  | None => if fixed then None else Some (d, sdrop 1 s)
  end.
Definition in_bounds (lo hi z : Z) : option unit :=
  if (lo <=? z) && (z <=? hi) then Some tt else None.
Definition lit (p s : string) : option string :=
  if HasPrefix s p then Some (sdrop (slen p) s) else None.

(** The digits after the decimal separator: nanoseconds, the tenth digit and those after
    it ignored. *)
Fixpoint fraction (left : nat) (s : string) (acc : Z) : Z * string :=
  match s with
  | String c s' =>
      if is_digit c
      then match left with
           | O => fraction O s' acc
           | S n => fraction n s' (acc + (Z.of_N (code c) - 48) * 10 ^ Z.of_nat n)
           end
      else (acc, s)
  | EmptyString => (acc, s)
  end.
Definition opt_fraction (s : string) : Z * string :=
  match s with
  | String c s' =>
      if (Ascii.eqb c "." || Ascii.eqb c ",") && bool_decide (is_Some (digit_at s' 0))
      then fraction 9 s' 0 else (0, s)
  | EmptyString => (0, s)
  end.

(** The zone offset in seconds. *)
Definition zone (s : string) : option (Z * string) :=
  match s with
  | String "Z" s' => Some (0, s')
  | String c s' =>
      sign ← (if Ascii.eqb c "+" then Some 1 else if Ascii.eqb c "-" then Some (-1) else None);
      '(hr, s1) ← getnum true s';
      s2 ← lit ":" s1;
      '(mm, s3) ← getnum true s2;
      in_bounds 0 24 hr ;;
      in_bounds 0 60 mm ;;
      Some (sign * ((hr * 60 + mm) * 60), s3)
  | EmptyString => None
  end.

Definition is_leap (y : Z) : bool :=
  (y mod 4 =? 0) && (negb (y mod 100 =? 0) || (y mod 400 =? 0)).
Definition daysIn (m y : Z) : Z :=
  if m =? 2 then (if is_leap y then 29 else 28)
  else if existsb (Z.eqb m) [4; 6; 9; 11] then 30 else 31.

Definition ParseRFC3339Nano (s : string) : option Time :=
  '(year, s) ← all_digits 4 s 0;
  s ← lit "-" s;
  '(month, s) ← getnum true s;
  in_bounds 1 12 month ;;
  s ← lit "-" s;
  '(day, s) ← getnum true s;
  s ← lit "T" s;
  '(hour, s) ← getnum false s;
  in_bounds 0 23 hour ;;
  s ← lit ":" s;
  '(min, s) ← getnum true s;
  in_bounds 0 59 min ;;
  s ← lit ":" s;
  '(sec, s) ← getnum true s;
  in_bounds 0 59 sec ;;
  let '(nsec, s) := opt_fraction s in
  '(offset, s) ← zone s;
  if negb (String.eqb s "") then None else
  in_bounds 1 (daysIn month year) day ;;
  Some (Date year month day hour min sec nsec - offset * Second).

Example parse_utc :
  ParseRFC3339Nano "2026-05-30T12:00:00.5Z" = Some (Date 2026 5 30 12 0 0 500000000).
Proof. reflexivity. Qed.
Example parse_zone :
  ParseRFC3339Nano "2026-05-30T12:00:00,1234567891+02:30" = Some (Date 2026 5 30 9 30 0 123456789).
Proof. reflexivity. Qed.
Example parse_time_bad :
  map ParseRFC3339Nano ["2026-02-29T00:00:00Z"; "2026-05-30 12:00:00Z"; "2026-05-30T12:00:00";
    "2026-05-30T24:00:00Z"; "2026-05-30T12:00:00.Z"; "2026-5-30T12:00:00Z"; "2026-05-30T12:00:00Zx"]
  = [None; None; None; None; None; None; None].
Proof. reflexivity. Qed.
Example parse_short_hour :
  ParseRFC3339Nano "2024-02-29T7:00:00-01:00" = Some (Date 2024 2 29 8 0 0 0).
Proof. reflexivity. Qed.

Example civil_epoch : civil 0 = (1970, 1, 1). Proof. reflexivity. Qed.
Example civil_2026 : civil (Date 2026 5 30 12 0 0 0) = (2026, 5, 30).
Proof. reflexivity. Qed.
Example zero_time_date : Date 1 1 1 0 0 0 0 = zeroTime. Proof. reflexivity. Qed.
Example civil_leap : civil (Date 2024 2 29 23 59 59 999999999) = (2024, 2, 29).
Proof. reflexivity. Qed.

(** ** Lemmas *)

Lemma UnixNano_id t : in_int64 t -> UnixNano t = t.
Proof. apply int64_id. Qed.

Lemma Sub_bounds t u : in_int64 (Sub t u).
Proof. unfold Sub, in_int64. lia. Qed.

Ltac times := unfold Before, After, IsZero in *; rewrite ?Z.ltb_lt, ?Z.ltb_ge,
  ?Z.eqb_eq, ?Z.eqb_neq in *.
