(* ===== verification/TimeText.v ===== *)
(** RFC 3339 texts: [Time.Format] and the JSON form of a [time.Time], and that parsing a
    formatted instant gives the instant back. *)

From S2P Require Import Prelude GoStrings GoTime.
From Stdlib Require Import Ascii String.
Local Open Scope string_scope.
Local Open Scope list_scope.
Local Open Scope Z_scope.

(** ** [t.UTC().Format(time.RFC3339Nano)] *)

Definition digit_char (d : Z) : ascii := byte_of (Z.to_N (48 + d)).
(** The last [w] decimal digits of [n]. *)
Fixpoint digits (w : nat) (n : Z) : string :=
  match w with
  | O => ""
  | S w' => String (digit_char (n / 10 ^ Z.of_nat w' mod 10)) (digits w' n)
  end.

(** The fraction of a second, its trailing zeros left out. *)
Definition nano_text (nsec : Z) : string :=
  match TrimRight "0" (digits 9 nsec) with "" => "" | t => String "." t end.

Definition day_nanos : Z := 86400 * Second.
Definition FormatRFC3339Nano (t : Time) : string :=
  let '(y, m, d) := civil t in
  let s := (t mod day_nanos) / Second in
  digits 4 y +:+ "-" +:+ digits 2 m +:+ "-" +:+ digits 2 d +:+ "T" +:+
  digits 2 (s / 3600) +:+ ":" +:+ digits 2 (s / 60 mod 60) +:+ ":" +:+ digits 2 (s mod 60) +:+
  nano_text (t mod Second) +:+ "Z".

(** ** [Time.MarshalJSON], which refuses years of other than four digits *)

Definition year (t : Time) : Z := let '(y, _, _) := civil t in y.
Definition year_ok (t : Time) : bool := (0 <=? year t) && (year t <=? 9999).
Definition MarshalTime (t : Time) : option string :=
  if year_ok t then Some (String QUOTE (FormatRFC3339Nano t +:+ String QUOTE "")) else None.

Example format_zero : FormatRFC3339Nano zeroTime = "0001-01-01T00:00:00Z".
Proof. reflexivity. Qed.
Example format_nanos :
  FormatRFC3339Nano (Date 2026 5 30 12 3 4 50600000) = "2026-05-30T12:03:04.0506Z".
Proof. reflexivity. Qed.

(** ** The calendar *)

(** [civil] in terms of the day's number within its 400-year era. *)
Definition yoe_of (doe : Z) : Z := (doe - doe / 1460 + doe / 36524 - doe / 146096) / 365.

Lemma yoe_range doe : 0 <= doe <= 146096 ->
  0 <= yoe_of doe <= 399 /\
  0 <= doe - (365 * yoe_of doe + yoe_of doe / 4 - yoe_of doe / 100) <= 365.
Proof.
  unfold yoe_of. intros H.
  assert (doe = 146096 \/ doe < 146096) as [->|L] by lia; [cbv; intuition discriminate|].
  rewrite (Z.div_small doe 146096) by lia. Z.to_euclidean_division_equations; lia.
Qed.

(** Only a leap year has a day 365 counted from its first of March. *)
Lemma yoe_leap doe : 0 <= doe <= 146096 ->
  doe - (365 * yoe_of doe + yoe_of doe / 4 - yoe_of doe / 100) = 365 ->
  yoe_of doe mod 4 = 3 /\ (yoe_of doe mod 100 = 99 -> yoe_of doe mod 400 = 399).
Proof.
  unfold yoe_of. intros H.
  assert (doe = 146096 \/ doe < 146096) as [->|L] by lia; [done|].
  rewrite (Z.div_small doe 146096) by lia. Z.to_euclidean_division_equations; lia.
Qed.

(** The month [mp], counted from March, and the day of the month of day [doy]. *)
Lemma month_of_doy doy : 0 <= doy <= 365 ->
  let mp := (5 * doy + 2) / 153 in
  let m := if mp <? 10 then mp + 3 else mp - 9 in
  let d := doy - (153 * mp + 2) / 5 + 1 in
  0 <= mp <= 11 /\ 1 <= m <= 12 /\ (if 2 <? m then m - 3 else m + 9) = mp /\
  (m <=? 2) = (10 <=? mp) /\ 1 <= d /\
  (m = 2 -> d <= 29) /\ (m = 2 -> d = 29 -> doy = 365) /\
  (m <> 2 -> forall y, d <= daysIn m y).
Proof.
  intros H mp m d. assert (Hmp : 0 <= mp <= 11) by (unfold mp; Z.to_euclidean_division_equations; lia).
  assert (Hd : 153 * mp <= 5 * doy + 2 < 153 * mp + 153)
    by (unfold mp; Z.to_euclidean_division_equations; lia).
  clearbody mp. subst m d. unfold daysIn.
  assert (C : mp = 0 \/ mp = 1 \/ mp = 2 \/ mp = 3 \/ mp = 4 \/ mp = 5 \/ mp = 6 \/ mp = 7 \/
              mp = 8 \/ mp = 9 \/ mp = 10 \/ mp = 11) by lia.
  clear Hmp. repeat destruct C as [->|C]; try subst mp; cbn;
    repeat match goal with |- context [(153 * ?k + 2) / 5] =>
      let v := eval vm_compute in ((153 * k + 2) / 5) in change ((153 * k + 2) / 5) with v end;
    split_and!; try done; try lia; intros; cbv [existsb orb]; repeat case_match; lia.
Qed.

Lemma civil_spec t : let '(y, m, d) := civil t in
  1 <= m <= 12 /\ 1 <= d <= daysIn m y /\ days_of_civil y m d = t / day_nanos.
Proof.
  unfold civil. change (86400 * Second) with day_nanos.
  set (z := t / day_nanos + 719468). set (era := z / 146097).
  assert (Hd : 0 <= z - era * 146097 <= 146096) by (unfold era; Z.to_euclidean_division_equations; lia).
  set (doe := z - era * 146097) in *. fold (yoe_of doe). cbn zeta.
  destruct (yoe_range doe Hd) as [Hy Hr]. pose proof (yoe_leap doe Hd) as Hl.
  set (yo := yoe_of doe) in *. set (doy := doe - (365 * yo + yo / 4 - yo / 100)) in *.
  destruct (month_of_doy doy Hr) as (Hmp & Hm & Em & Eb & Hd1 & H29 & H366 & Hother).
  set (mp := (5 * doy + 2) / 153) in *. set (m := if mp <? 10 then mp + 3 else mp - 9) in *.
  set (d := doy - (153 * mp + 2) / 5 + 1) in *.
  split; [done|]. split; [split; [done|]|].
  - destruct (Z.eq_dec m 2) as [E|E]; [|by apply Hother]. specialize (H29 E). specialize (H366 E).
    rewrite E in *. cbn [Z.leb Z.compare Pos.compare Pos.compare_cont].
    unfold daysIn. cbn [Z.eqb Pos.eqb]. unfold is_leap.
    destruct (Z.eq_dec d 29) as [Ed|Ed]; [|destruct (_ && _); lia].
    destruct (Hl (H366 Ed)) as [H4 H100]. rewrite Ed.
    replace ((yo + era * 400 + 1) mod 4 =? 0) with true
      by (symmetry; apply Z.eqb_eq; Z.to_euclidean_division_equations; lia).
    destruct (Z.eqb_spec ((yo + era * 400 + 1) mod 100) 0) as [E1|E1]; cbn [negb orb andb]; [|lia].
    replace ((yo + era * 400 + 1) mod 400 =? 0) with true; [lia|].
    symmetry; apply Z.eqb_eq. Z.to_euclidean_division_equations; lia.
  - unfold days_of_civil. rewrite Em. set (b := if m <=? 2 then 1 else 0).
    replace (if m <=? 2 then yo + era * 400 + b - 1 else yo + era * 400 + b)
      with (yo + era * 400) by (unfold b; destruct (m <=? 2); lia).
    replace ((yo + era * 400) / 400) with era by (Z.to_euclidean_division_equations; lia).
    replace (yo + era * 400 - era * 400) with yo by lia. unfold d, doy, doe, z. lia.
Qed.

(** ** Parsing a formatted instant *)

Lemma digit_char_spec d : 0 <= d < 10 ->
  is_digit (digit_char d) = true /\ Z.of_N (code (digit_char d)) - 48 = d.
Proof.
  intros H. assert (C : d = 0 \/ d = 1 \/ d = 2 \/ d = 3 \/ d = 4 \/ d = 5 \/ d = 6 \/ d = 7 \/
    d = 8 \/ d = 9) by lia.
  clear H. repeat destruct C as [->|C]; try subst d; done.
Qed.
Lemma mod10 n : 0 <= n mod 10 < 10.
Proof. apply Z.mod_pos_bound. lia. Qed.

Lemma digit_at_0 d s : 0 <= d < 10 -> digit_at (String (digit_char d) s) 0 = Some d.
Proof.
  intros H. destruct (digit_char_spec d H) as [E1 E2]. unfold digit_at. cbn. by rewrite E1, E2.
Qed.

Lemma mod_pow10_S n w : 0 <= n ->
  n mod 10 ^ Z.of_nat (S w) = n / 10 ^ Z.of_nat w mod 10 * 10 ^ Z.of_nat w + n mod 10 ^ Z.of_nat w.
Proof.
  intros H. rewrite Nat2Z.inj_succ, Z.pow_succ_r by lia.
  set (p := 10 ^ Z.of_nat w). assert (0 < p) by (unfold p; lia).
  rewrite (Z.mul_comm 10 p), Z.rem_mul_r by lia. lia.
Qed.

Lemma all_digits_digits w n s acc : 0 <= n ->
  all_digits w (digits w n +:+ s) acc = Some (acc * 10 ^ Z.of_nat w + n mod 10 ^ Z.of_nat w, s).
Proof.
  intros Hn. revert acc. induction w as [|w IH]; intros acc.
  - cbn. rewrite Z.mod_1_r. do 2 f_equal. lia.
  - cbn [digits all_digits]. rewrite str_app_cons, digit_at_0 by apply mod10. cbn [mbind option_bind sdrop].
    rewrite IH, mod_pow10_S by done. rewrite Nat2Z.inj_succ, Z.pow_succ_r by lia. do 2 f_equal. ring.
Qed.

Lemma getnum_digits b n s : 0 <= n < 100 -> getnum b (digits 2 n +:+ s) = Some (n, s).
Proof.
  intros H. cbn [digits]. rewrite !str_app_cons. unfold getnum. rewrite digit_at_0 by apply mod10.
  cbn [mbind option_bind]. change (digit_at (String ?a (String ?b ?r)) 1) with (digit_at (String b r) 0).
  rewrite digit_at_0 by apply mod10. cbn [sdrop]. rewrite str_app_nil. do 2 f_equal.
  change (10 ^ Z.of_nat 1) with 10. change (10 ^ Z.of_nat 0) with 1.
  Z.to_euclidean_division_equations; lia.
Qed.

Lemma fraction_stop n acc : fraction n "Z" acc = (acc, "Z").
Proof. by destruct n. Qed.

Lemma fraction_digit n d s acc : 0 <= d < 10 ->
  fraction (S n) (String (digit_char d) s) acc = fraction n s (acc + d * 10 ^ Z.of_nat n).
Proof. intros H. destruct (digit_char_spec d H) as [E1 E2]. cbn [fraction]. by rewrite E1, E2. Qed.

Lemma fraction_digits n v acc : 0 <= v ->
  fraction n (TrimRight "0" (digits n v) +:+ "Z") acc = (acc + v mod 10 ^ Z.of_nat n, "Z").
Proof.
  intros Hv. revert acc. induction n as [|n IH]; intros acc.
  - change (10 ^ Z.of_nat 0) with 1. by rewrite Z.mod_1_r, Z.add_0_r.
  - rewrite mod_pow10_S by done. set (d := v / 10 ^ Z.of_nat n mod 10).
    destruct (digit_char_spec d (mod10 _)) as [E1 E2]. cbn [digits TrimRight]. fold d.
    assert (Hz : Ascii.eqb (digit_char d) "0" = true -> d = 0).
    { intros Ez%Ascii.eqb_eq. rewrite Ez in E2. cbn in E2. lia. }
    destruct (TrimRight "0" (digits n v)) as [|c t] eqn:Et.
    + specialize (IH 0). rewrite str_app_nil, fraction_stop in IH. injection IH as IH.
      destruct (Ascii.eqb (digit_char d) "0").
      * rewrite str_app_nil, fraction_stop. f_equal. rewrite Hz by done. lia.
      * rewrite str_app_cons, str_app_nil, fraction_digit, fraction_stop by apply mod10. f_equal. lia.
    + rewrite str_app_cons, fraction_digit, IH by apply mod10. f_equal. lia.
Qed.

Lemma TrimRight_digits w n :
  Forall (fun c => is_digit c = true) (bytes_of (TrimRight "0" (digits w n))).
Proof.
  induction w as [|w IH]; cbn [digits TrimRight]; [by constructor|].
  destruct (digit_char_spec (n / 10 ^ Z.of_nat w mod 10) (mod10 _)) as [Hd _].
  destruct (TrimRight _ (digits w n)); [destruct (Ascii.eqb _ _)|]; cbn in *; auto using Forall_cons_2.
Qed.

Lemma opt_fraction_nano n : 0 <= n < Second -> opt_fraction (nano_text n +:+ "Z") = (n, "Z").
Proof.
  intros H. pose proof (fraction_digits 9 n 0 (proj1 H)) as F. unfold nano_text.
  destruct (TrimRight "0" (digits 9 n)) as [|c t] eqn:E.
  - rewrite str_app_nil, fraction_stop in F. injection F as F.
    rewrite Z.mod_small in F by (unfold Second in H; lia).
    rewrite Z.add_0_l in F. by subst n.
  - rewrite str_app_cons. unfold opt_fraction. cbn [Ascii.eqb orb Bool.eqb andb].
    pose proof (TrimRight_digits 9 n) as Hc. rewrite E in Hc. apply Forall_cons in Hc as [Hc _].
    unfold digit_at. cbn [String.get String.append]. rewrite str_app_cons. cbn [String.get].
    rewrite Hc, bool_decide_eq_true_2 by done. rewrite <- str_app_cons, F.
    by rewrite Z.mod_small by (unfold Second in H; lia).
Qed.

Lemma lit_app p s : lit p (p +:+ s) = Some s.
Proof. unfold lit. by rewrite HasPrefix_app, sdrop_app. Qed.
Lemma in_bounds_ok lo hi z : lo <= z <= hi -> in_bounds lo hi z = Some tt.
Proof. intros H. unfold in_bounds. by rewrite !(proj2 (Z.leb_le _ _)) by lia. Qed.

(** Formatting loses nothing: the text of an instant of a four-digit year parses to the
    instant, to the nanosecond. *)
Lemma Parse_Format t : year_ok t = true -> ParseRFC3339Nano (FormatRFC3339Nano t) = Some t.
Proof.
  unfold year_ok, year, FormatRFC3339Nano. intros Hy. pose proof (civil_spec t) as C.
  destruct (civil t) as [[y m] d]. apply andb_true_iff in Hy as [Hy1%Z.leb_le Hy2%Z.leb_le].
  destruct C as (Hm & Hd & Ed). assert (Hd31 : daysIn m y <= 31) by (unfold daysIn; repeat case_match; lia).
  set (s := t mod day_nanos / Second).
  assert (Hs : 0 <= s < 86400) by (unfold s, day_nanos, Second; Z.to_euclidean_division_equations; lia).
  assert (Hn : 0 <= t mod Second < Second) by (apply Z.mod_pos_bound; done).
  unfold ParseRFC3339Nano. rewrite all_digits_digits by done. cbn [mbind option_bind].
  rewrite Z.mod_small by (change (10 ^ Z.of_nat 4) with 10000; lia). rewrite Z.mul_0_l, Z.add_0_l.
  assert (Hh : 0 <= s / 3600 <= 23) by (Z.to_euclidean_division_equations; lia).
  assert (Hmi : 0 <= s / 60 mod 60 <= 59) by (Z.to_euclidean_division_equations; lia).
  assert (Hse : 0 <= s mod 60 <= 59) by (Z.to_euclidean_division_equations; lia).
  repeat first [rewrite lit_app | rewrite getnum_digits by lia | rewrite in_bounds_ok by lia
               | progress cbn [mbind option_bind]].
  rewrite opt_fraction_nano by done. cbn [mbind option_bind zone].
  cbn [negb String.eqb]. f_equal.
  unfold Date. rewrite Ed. unfold s, day_nanos, Second in *. Z.to_euclidean_division_equations; lia.
Qed.

(** [Time.UnmarshalJSON]: the bytes between the quotes, without unescaping. *)
Definition UnmarshalTime (raw : string) (cur : Time) : option Time :=
  if String.eqb raw "null" then Some cur else
  match raw with
  | String q t =>
      if Ascii.eqb q QUOTE && HasSuffix t (String QUOTE "")
      then ParseRFC3339Nano (stake (slen t - 1) t) else None
  | EmptyString => None
  end.

Lemma Unmarshal_MarshalTime t raw cur : MarshalTime t = Some raw -> UnmarshalTime raw cur = Some t.
Proof.
  unfold MarshalTime. destruct (year_ok t) eqn:E; [|done]. intros [= <-].
  unfold UnmarshalTime. cbn [String.eqb Ascii.eqb]. rewrite HasSuffix_app, slen_app.
  replace (slen _ + slen _ - 1)%nat with (slen (FormatRFC3339Nano t))
    by (change (slen (String QUOTE "")) with 1%nat; lia).
  rewrite stake_app. cbn. by apply Parse_Format.
Qed.
