(* ===== verification/Model.v ===== *)
(** internal/model: the record and segment-metadata types shared by the agent and
    the manager, the per-generation source key, and the time-overlap tests. *)

From S2P Require Import Prelude GoStrings GoTime.
From Stdlib Require Import Ascii String.
Local Open Scope Z_scope.

(** Stream names. *)
Definition StreamStdout : string := "stdout".
Definition StreamStderr : string := "stderr".

(** A JSON value in its raw byte form ([json.RawMessage]). *)
Abbreviation RawMessage := string (only parsing).

(** [model.Source] *)
Record Source := mkSource {
  src_Node : string;
  src_Path : string;
  src_Device : Z;            (* uint64 *)
  src_Inode : Z;             (* uint64 *)
  src_CreatedUnixNano : Z    (* int64 *)
}.

Definition NUL : ascii := "000".

(** [Source.Key]: the five fields joined by NUL bytes. *)
Definition Key (s : Source) : string :=
  src_Node s +:+ String NUL (src_Path s +:+ String NUL
    (FormatUint (src_Device s) +:+ String NUL
      (FormatUint (src_Inode s) +:+ String NUL
        (FormatInt (src_CreatedUnixNano s))))).

(** [model.Record].  A nil map and an empty one behave alike everywhere in the
    program, so both are the empty map. *)
Record LogRecord := mkRecord {
  rec_Source : Source;
  rec_Offset : Z;            (* int64 *)
  rec_Timestamp : Time;
  rec_Namespace : string;
  rec_Pod : string;
  rec_Container : string;
  rec_Node : string;
  rec_Image : string;
  rec_Stream : string;
  rec_Labels : gmap string string;
  rec_Annotations : gmap string string;
  rec_Message : string;
  rec_Body : gmap string RawMessage
}.

(** [model.BlockMeta] *)
Record BlockMeta := mkBlockMeta {
  bm_FileOffset : Z;         (* int64 *)
  bm_CompLen : Z;            (* int64 *)
  bm_UncompLen : Z;          (* int64 *)
  bm_MinTS : Time;
  bm_MaxTS : Time;
  bm_RecordCount : Z         (* int32 *)
}.

(** [model.SegmentMeta] *)
Record SegmentMeta := mkSegmentMeta {
  sm_ID : string;
  sm_S3Key : string;
  sm_MinTS : Time;
  sm_MaxTS : Time;
  sm_Namespaces : list string;
  sm_Pods : list string;
  sm_Nodes : list string;
  sm_Containers : list string;
  sm_LabelKeys : list string;
  sm_FieldKeys : list string;
  sm_Blocks : list BlockMeta;
  sm_SizeBytes : Z;          (* int64 *)
  sm_RecordCount : Z;        (* int64 *)
  sm_HasLate : bool;
  sm_SourceOffsets : gmap string Z;
  sm_LocalPath : string
}.

(** The interval test both [Overlaps] methods make; a zero bound is unbounded. *)
Definition overlaps (lo hi start end_ : Time) : bool :=
  if negb (IsZero start) && Before hi start then false
  else if negb (IsZero end_) && After lo end_ then false
  else true.

(** [BlockMeta.Overlaps] and [SegmentMeta.Overlaps] *)
Definition BlockOverlaps (b : BlockMeta) (start end_ : Time) : bool :=
  overlaps (bm_MinTS b) (bm_MaxTS b) start end_.
Definition SegmentOverlaps (m : SegmentMeta) (start end_ : Time) : bool :=
  overlaps (sm_MinTS m) (sm_MaxTS m) start end_.

#[export] Instance Source_eq_dec : EqDecision Source.
Proof. solve_decision. Defined.
#[export] Instance LogRecord_eq_dec : EqDecision LogRecord.
Proof. solve_decision. Defined.
#[export] Instance BlockMeta_eq_dec : EqDecision BlockMeta.
Proof. solve_decision. Defined.
#[export] Instance SegmentMeta_eq_dec : EqDecision SegmentMeta.
Proof. solve_decision. Defined.

#[export] Program Instance Source_countable : Countable Source :=
  inj_countable'
    (fun s => (src_Node s, src_Path s, src_Device s, src_Inode s, src_CreatedUnixNano s))
    (fun '(n, p, d, i, c) => mkSource n p d i c) _.
Next Obligation. by intros []. Qed.

#[export] Program Instance LogRecord_countable : Countable LogRecord :=
  inj_countable'
    (fun r => (rec_Source r, rec_Offset r, rec_Timestamp r,
               (rec_Namespace r, rec_Pod r, rec_Container r, rec_Node r, rec_Image r),
               (rec_Stream r, rec_Labels r, rec_Annotations r, rec_Message r, rec_Body r)))
    (fun '(s, o, t, (ns, p, c, n, i), (st, l, a, m, b)) =>
       mkRecord s o t ns p c n i st l a m b) _.
Next Obligation. by intros []. Qed.

(** ** The test an instant passes to be inside a query's time range *)

Definition in_window (start end_ t : Time) : bool :=
  (IsZero start || negb (Before t start)) && (IsZero end_ || negb (After t end_)).

Lemma in_window_spec start end_ t :
  in_window start end_ t = true <->
  (start = zeroTime \/ start <= t) /\ (end_ = zeroTime \/ t <= end_).
Proof.
  unfold in_window, IsZero, Before, After.
  rewrite andb_true_iff, !orb_true_iff, !negb_true_iff, !Z.eqb_eq, !Z.ltb_ge. done.
Qed.

Lemma overlaps_spec lo hi start end_ :
  overlaps lo hi start end_ = true <->
  (start = zeroTime \/ start <= hi) /\ (end_ = zeroTime \/ lo <= end_).
Proof.
  unfold overlaps, IsZero, Before, After.
  destruct (Z.eqb_spec start zeroTime), (Z.ltb_spec hi start),
    (Z.eqb_spec end_ zeroTime), (Z.ltb_spec end_ lo); cbn; split; intros; try done;
    try lia; intuition lia.
Qed.

(** Pruning by time is sound: a span holding an instant of the window overlaps it. *)
Lemma overlaps_sound lo hi start end_ t :
  lo <= t <= hi -> in_window start end_ t = true -> overlaps lo hi start end_ = true.
Proof. rewrite in_window_spec, overlaps_spec. lia. Qed.

(** ** Source keys *)

Definition source_ok (s : Source) : Prop :=
  (NUL ∉ bytes_of (src_Node s)) /\ (NUL ∉ bytes_of (src_Path s)) /\
  in_uint64 (src_Device s) /\ in_uint64 (src_Inode s).
#[export] Instance source_ok_dec s : Decision (source_ok s).
Proof. unfold source_ok. apply _. Defined.

Lemma digits_no_NUL s :
  Forall (fun c => is_digit c = true) (bytes_of s) -> NUL ∉ bytes_of s.
Proof. rewrite Forall_forall. intros H HN. by specialize (H _ HN). Qed.

Lemma FormatUint_inj x y : 0 <= x -> 0 <= y -> FormatUint x = FormatUint y -> x = y.
Proof. unfold FormatUint. intros ?? E%(inj pretty). lia. Qed.

(** The source key identifies the file generation.  Node names and paths hold
    no NUL byte, so two sources with the same [Key] are the same node, path,
    device, inode and birth time: the dedup watermark and the checkpoint of one
    generation are never used for another. *)
Theorem Key_injective s1 s2 :
  source_ok s1 -> source_ok s2 -> Key s1 = Key s2 -> s1 = s2.
Proof.
  destruct s1 as [n1 p1 d1 i1 c1], s2 as [n2 p2 d2 i2 c2].
  intros (Hn1 & Hp1 & Hd1 & Hi1) (Hn2 & Hp2 & Hd2 & Hi2) E.
  unfold Key, in_uint64 in *; cbn in *.
  apply sep_app_inj in E as [-> E]; [|done..].
  apply sep_app_inj in E as [-> E]; [|done..].
  apply sep_app_inj in E as [Ed E]; [|apply digits_no_NUL, FormatUint_digits..].
  apply sep_app_inj in E as [Ei E]; [|apply digits_no_NUL, FormatUint_digits..].
  apply FormatUint_inj in Ed; [|lia..]. apply FormatUint_inj in Ei; [|lia..].
  apply (inj pretty) in E. by subst.
Qed.

Lemma Key_injective_witness :
  let s := mkSource "n1" "/var/log/pods/a_b_c/d/0.log" 66306 42 1780142400000000000 in
  Key s = Key s /\ s = s.
Proof.
  intros s. split; [reflexivity|].
  apply (Key_injective s s); [| |reflexivity]; apply (bool_decide_unpack _); vm_compute; exact I.
Defined.
