(* ===== verification/GoFloat.v ===== *)
(** Go's [float64] and the part of [strconv] simplelog uses on it.  A [float64] is
    a binary64 number of the Standard Library's executable IEEE 754 specification;
    [ParseFloat] rounds the exact decimal (or hexadecimal) value to nearest even,
    and [FormatFloat(f, 'f', -1, 64)] prints the shortest decimal that parses back
    to [f]. *)

From S2P Require Import Prelude GoStrings.
From Stdlib Require Import Ascii String SpecFloat.
Local Open Scope Z_scope.

Abbreviation float64 := spec_float (only parsing).

(** Comparisons: false on NaN, [-0 = +0]. *)
Definition feq (a b : float64) : bool := SFeqb a b.
Definition flt (a b : float64) : bool := SFltb a b.
Definition fle (a b : float64) : bool := SFleb a b.

(** The binary64 number nearest to [m * 2^e] and to [num / den]. *)
Definition round_binary (neg : bool) (m : Z) (e : Z) : float64 :=
  binary_normalize 53 1024 (if neg then - m else m) e neg.
Definition round_ratio (neg : bool) (num den : Z) : float64 :=
  match num, den with
  | Zpos n, Zpos d => SFdiv 53 1024 (S754_finite neg n 0) (S754_finite false d 0)
  | _, _ => S754_zero neg
  end.
(** The binary64 number nearest to [m * 10^e]. *)
Definition round_decimal (neg : bool) (m e : Z) : float64 :=
  if 0 <=? e then round_binary neg (m * 10 ^ e) 0
  else round_ratio neg m (10 ^ (- e)).

(** [float64(n)] for an integer [n]. *)
Definition float_of_int (n : Z) : float64 :=
  round_binary (n <? 0) (Z.abs n) 0.

(** ** ParseFloat *)

Definition hex_digit (c : ascii) : option Z :=
  let n := code (lower c) in
  if in_range 48 57 n then Some (Z.of_N n - 48)
  else if in_range 97 102 n then Some (Z.of_N n - 87)
  else None.

(** A scanned mantissa: its digits as an integer, the digits after the dot, and
    whether a dot, a digit and an underscore were seen. *)
Record mantissa := { mt_val : Z; mt_frac : Z; mt_dot : bool; mt_digits : bool; mt_under : bool }.

Fixpoint scan_mantissa (hex : bool) (m : mantissa) (s : string) : mantissa * string :=
  match s with
  | EmptyString => (m, s)
  | String c s' =>
      if Ascii.eqb c "_" then
        scan_mantissa hex {| mt_val := mt_val m; mt_frac := mt_frac m; mt_dot := mt_dot m;
                             mt_digits := mt_digits m; mt_under := true |} s'
      else if Ascii.eqb c "." then
        if mt_dot m then (m, s)
        else scan_mantissa hex {| mt_val := mt_val m; mt_frac := mt_frac m; mt_dot := true;
                                  mt_digits := mt_digits m; mt_under := mt_under m |} s'
      else
        match (if hex then hex_digit c
               else if is_digit c then hex_digit c else None) with
        | Some d =>
            scan_mantissa hex
              {| mt_val := mt_val m * (if hex then 16 else 10) + d;
                 mt_frac := mt_frac m + (if mt_dot m then 1 else 0);
                 mt_dot := mt_dot m; mt_digits := true; mt_under := mt_under m |} s'
        | None => (m, s)
        end
  end.

(** Exponent digits, saturating at 10000 as the code does. *)
Fixpoint scan_exponent (e : Z) (under : bool) (s : string) : Z * bool * string :=
  match s with
  | EmptyString => (e, under, s)
  | String c s' =>
      if Ascii.eqb c "_" then scan_exponent e true s'
      else match (if is_digit c then hex_digit c else None) with
           | Some d => scan_exponent (if e <? 10000 then e * 10 + d else e) under s'
           | None => (e, under, s)
           end
  end.

(** [underscoreOK]: underscores only between digits or after a base prefix. *)
Fixpoint underscores_ok (hex : bool) (last : ascii) (s : string) : bool :=
  match s with
  | EmptyString => negb (Ascii.eqb last "_")
  | String c s' =>
      if is_digit c || (hex && match hex_digit c with Some _ => true | None => false end)
      then underscores_ok hex "0" s'
      else if Ascii.eqb c "_" then
        Ascii.eqb last "0" && underscores_ok hex "_" s'
      else negb (Ascii.eqb last "_") && underscores_ok hex "!" s'
  end.

Definition starts_hex (s : string) : bool :=
  match s with
  | String "0" (String x (String _ _)) => Ascii.eqb (lower x) "x"
  | _ => false
  end.

(** The number after the sign.  [None] is a syntax error. *)
Definition parse_unsigned (neg : bool) (s : string) : option float64 :=
  let hex := starts_hex s in
  let body := if hex then sdrop 2 s else s in
  let m0 := {| mt_val := 0; mt_frac := 0; mt_dot := false; mt_digits := false;
               mt_under := false |} in
  let (m, rest) := scan_mantissa hex m0 body in
  if negb (mt_digits m) then None else
  let finish (e : Z) (under : bool) : option float64 :=
    if under && negb (if hex then underscores_ok true "0" body
                      else underscores_ok false "^" body) then None
    else Some (if hex then
                 let p := e - 4 * mt_frac m in
                 if mt_val m =? 0 then S754_zero neg else round_binary neg (mt_val m) p
               else if mt_val m =? 0 then S754_zero neg
               else round_decimal neg (mt_val m) (e - mt_frac m)) in
  match rest with
  | EmptyString => if hex then None else finish 0 (mt_under m)
  | String c rest' =>
      if Ascii.eqb (lower c) (if hex then "p" else "e") then
        let '(sgn, digits) :=
          match rest' with
          | String "+" d => (1, d)
          | String "-" d => (-1, d)
          | _ => (1, rest')
          end in
        match digits with
        | String d _ =>
            if is_digit d then
              match scan_exponent 0 (mt_under m) digits with
              | (e, under, EmptyString) => finish (sgn * e) under
              | _ => None
              end
            else None
        | EmptyString => None
        end
      else None
  end.

Definition is_infinity (f : float64) : bool :=
  match f with S754_infinity _ => true | _ => false end.

(** [strconv.ParseFloat(s, 64)]: [None] for a non-nil error (bad syntax, or a
    finite literal that overflows). *)
Definition ParseFloat (s : string) : option float64 :=
  let low := ToLower s in
  let '(neg, rest) :=
    match s with
    | String "-" t => (true, t)
    | String "+" t => (false, t)
    | _ => (false, s)
    end in
  let lrest := ToLower rest in
  if String.eqb low "nan" then Some S754_nan
  else if (lrest =? "inf")%string || (lrest =? "infinity")%string
  then Some (S754_infinity neg)
  else match parse_unsigned neg rest with
       | Some f => if is_infinity f then None else Some f
       | None => None
       end.

(** ** FormatFloat(f, 'f', -1, 64) *)

(** The number of integer digits of [num / den >= 1]. *)
Fixpoint int_digits (fuel : nat) (num den : Z) : Z :=
  match fuel with
  | O => 0
  | S f => if num <? den then 0 else 1 + int_digits f num (den * 10)
  end.
(** The number of zeros after the decimal point of [num / den < 1]. *)
Fixpoint lead_zeros (fuel : nat) (num den : Z) : Z :=
  match fuel with
  | O => 0
  | S f => if num * 10 <? den then 1 + lead_zeros f (num * 10) den else 0
  end.
(** [dp] with [10^(dp-1) <= num/den < 10^dp]. *)
Definition decimal_point (num den : Z) : Z :=
  if num <? den then - lead_zeros 400 num den else int_digits 400 num den.

(** The shortest digit string, tried from [n] digits on: the truncation to [n]
    digits or its successor, whichever reads back as [f] and is nearer. *)
Fixpoint shortest (fuel : nat) (f : float64) (num den dp n : Z) : Z * Z :=
  let scale := n - dp in
  let sn := if 0 <=? scale then num * 10 ^ scale else num in
  let sd := if 0 <=? scale then den else den * 10 ^ (- scale) in
  let down := sn / sd in
  let okdown := feq (round_decimal false down (- scale)) f in
  let okup := feq (round_decimal false (down + 1) (- scale)) f in
  match fuel with
  | O => (down, - scale)
  | S fuel' =>
      if okdown && okup then
        let rem := 2 * (sn - down * sd) in
        ((if rem <? sd then down else if sd <? rem then down + 1
          else if Z.even down then down else down + 1), - scale)
      else if okdown then (down, - scale)
      else if okup then (down + 1, - scale)
      else shortest fuel' f num den dp (n + 1)
  end.

Definition str_repeat0 (n : Z) : string := zeros (Z.to_nat n).

(** [d * 10^e] in positional notation. *)
Definition positional (d e : Z) : string :=
  if 0 <=? e then FormatInt d +:+ str_repeat0 e
  else
    let p := 10 ^ (- e) in
    let frac := FormatInt (d mod p) in
    FormatInt (d / p) +:+ "." +:+ str_repeat0 (- e - Z.of_nat (slen frac)) +:+ frac.

Definition FormatFloat (f : float64) : string :=
  match f with
  | S754_nan => "NaN"
  | S754_infinity s => if s then "-Inf" else "+Inf"
  | S754_zero s => if s then "-0" else "0"
  | S754_finite s m e =>
      let num := if 0 <=? e then Zpos m * 2 ^ e else Zpos m in
      let den := if 0 <=? e then 1 else 2 ^ (- e) in
      let (d, k) := shortest 17 (S754_finite false m e) num den (decimal_point num den) 1 in
      (if s then "-" else "") +:+ positional d k
  end.

(** Checks on literals. *)
Example parse_500 : ParseFloat "500" = Some (float_of_int 500). Proof. reflexivity. Qed.
Example parse_hex : ParseFloat "0x1p-2" = ParseFloat "0.25". Proof. reflexivity. Qed.
Example parse_range : ParseFloat "1e309" = None. Proof. vm_compute. reflexivity. Qed.
Example parse_bad : ParseFloat "1e5-3" = None. Proof. reflexivity. Qed.
Example parse_under : ParseFloat "1_000" = ParseFloat "1000". Proof. reflexivity. Qed.
Example parse_inf : ParseFloat "-Inf" = Some (S754_infinity true). Proof. reflexivity. Qed.
Example format_tenth : option_map FormatFloat (ParseFloat "0.1") = Some "0.1".
Proof. vm_compute. reflexivity. Qed.
Example format_big : option_map FormatFloat (ParseFloat "1e21") = Some "1000000000000000000000".
Proof. vm_compute. reflexivity. Qed.
Example format_neg : option_map FormatFloat (ParseFloat "-12.5e-1") = Some "-1.25".
Proof. vm_compute. reflexivity. Qed.
Example format_min : option_map FormatFloat (ParseFloat "123456789.125") = Some "123456789.125".
Proof. vm_compute. reflexivity. Qed.
