(* ===== verification/GoDuration.v ===== *)
(** Go's [time.ParseDuration]: a sequence of decimal numbers with units, whose fractions
    are computed in float64. *)

From S2P Require Import Prelude GoStrings GoTime GoFloat.
From Stdlib Require Import Ascii SpecFloat.
Local Open Scope string_scope.
Local Open Scope list_scope.
Local Open Scope Z_scope.

(** [leadingInt]; [None] is an overflow. *)
Fixpoint leadingInt (x : Z) (s : string) : option (Z * string) :=
  match s with
  | String c s' =>
      if is_digit c then
        if 2 ^ 63 / 10 <? x then None else
        let x := x * 10 + Z.of_N (code c - 48) in
        if 2 ^ 63 <? x then None else leadingInt x s'
      else Some (x, s)
  | EmptyString => Some (x, s)
  end.

(** [leadingFraction]: digits beyond the precision are skipped. *)
Fixpoint leadingFraction (x : Z) (scale : float64) (overflow : bool) (s : string) : Z * float64 * string :=
  match s with
  | String c s' =>
      if is_digit c then
        if overflow then leadingFraction x scale true s' else
        if (2 ^ 63 - 1) / 10 <? x then leadingFraction x scale true s' else
        let y := x * 10 + Z.of_N (code c - 48) in
        if 2 ^ 63 <? y then leadingFraction x scale true s'
        else leadingFraction y (SFmul 53 1024 scale (float_of_int 10)) false s'
      else (x, scale, s)
  | EmptyString => (x, scale, s)
  end.

(** [unitMap]; the two micro signs are U+00B5 and U+03BC. *)
Definition micro (hi lo : N) : string := String (ascii_of_N hi) (String (ascii_of_N lo) "s").
Definition unit_of (u : string) : option Z :=
  if String.eqb u "ns" then Some 1
  else if String.eqb u "us" || String.eqb u (micro 194 181) || String.eqb u (micro 206 188) then Some 1000
  else if String.eqb u "ms" then Some Millisecond
  else if String.eqb u "s" then Some Second
  else if String.eqb u "m" then Some Minute
  else if String.eqb u "h" then Some Hour
  else None.

(** [uint64(f)] of a non-negative number: its integer part. *)
Definition truncate (f : float64) : Z :=
  match f with S754_finite false m e => if 0 <=? e then Zpos m * 2 ^ e else Zpos m / 2 ^ (- e) | _ => 0 end.

(** The characters of a unit: up to the next number. *)
Fixpoint unit_span (s : string) : string * string :=
  match s with
  | String c s' =>
      if Ascii.eqb c "." || is_digit c then ("", s)
      else let '(u, r) := unit_span s' in (String c u, r)
  | EmptyString => ("", "")
  end.

(** One turn of the loop: the nanoseconds of a number with its unit, and the rest. *)
Definition one_part (s : string) : option (Z * string) :=
  if negb (match s with String c _ => Ascii.eqb c "." || is_digit c | EmptyString => false end) then None else
  '(v, s1) ← leadingInt 0 s;
  let pre := negb (slen s1 =? slen s)%nat in
  let '(f, scale, post, s2) :=
    match s1 with
    | String "." t => let '(f, scale, r) := leadingFraction 0 (float_of_int 1) false t in
                      (f, scale, negb (slen r =? slen t)%nat, r)
    | _ => (0, float_of_int 1, false, s1)
    end in
  if negb pre && negb post then None else
  let '(u, s3) := unit_span s2 in
  if String.eqb u "" then None else
  unit ← unit_of u;
  if 2 ^ 63 / unit <? v then None else
  let v := v * unit in
  let v := if 0 <? f
           then v + truncate (SFmul 53 1024 (float_of_int f) (SFdiv 53 1024 (float_of_int unit) scale))
           else v in
  if (0 <? f) && (2 ^ 63 <? v) then None else Some (v, s3).
Fixpoint parts (fuel : nat) (d : Z) (s : string) : option Z :=
  if String.eqb s "" then Some d else
  match fuel with
  | O => None
  | S fuel =>
      '(v, s) ← one_part s;
      let d := uint64 (d + v) in
      if 2 ^ 63 <? d then None else parts fuel d s
  end.

(** [time.ParseDuration] *)
Definition ParseDuration (s : string) : option Duration :=
  let '(neg, s) := match s with
                   | String "-" t => (true, t) | String "+" t => (false, t) | _ => (false, s) end in
  if String.eqb s "0" then Some 0 else
  if String.eqb s "" then None else
  d ← parts (slen s) 0 s;
  if neg then Some (int64 (- d)) else if 2 ^ 63 - 1 <? d then None else Some d.

Example ParseDuration_values :
  map ParseDuration ["5m"; "30s"; "1h15m30.918s"; "-1.5h"; "0"; "+.5s"; "100ns"; "1.000000000000000000001s"; "2562047h47m16.854775807s"] =
  [Some 300000000000; Some 30000000000; Some 4530918000000; Some (-5400000000000); Some 0; Some 500000000;
   Some 100; Some 1000000000; Some (2 ^ 63 - 1)].
Proof. vm_compute. reflexivity. Qed.
Example ParseDuration_errors :
  map ParseDuration [""; "5"; "m"; "."; ".s"; "5 m"; "1x"; "-"; "2562047h47m16.854775808s"; "9223372036854775809ns"] =
  [None; None; None; None; None; None; None; None; None; None].
Proof. vm_compute. reflexivity. Qed.
