(* ===== verification/GoJson.v ===== *)
(** The part of Go's [encoding/json] simplelog relies on to look inside log bodies:
    the RFC 8259 syntax check of [Unmarshal], the raw members of an object
    ([map[string]json.string]), the three scalar targets [string], [bool] and
    [float64], and [Marshal] of a string. *)

From S2P Require Import Prelude GoStrings GoFloat.
From Stdlib Require Import Ascii String.
Local Open Scope Z_scope.
Local Open Scope string_scope.

(** ** Scanning *)

Definition is_ws (c : ascii) : bool :=
  let n := code c in (n =? 32)%N || (n =? 9)%N || (n =? 10)%N || (n =? 13)%N.

Fixpoint skip_ws (s : string) : string :=
  match s with
  | String c s' => if is_ws c then skip_ws s' else s
  | EmptyString => s
  end.

Definition is_hex (c : ascii) : bool :=
  match hex_digit c with Some _ => true | None => false end.


(** The rest after a string whose opening quote has been read. *)
Fixpoint skip_string (s : string) : option string :=
  match s with
  | EmptyString => None
  | String c s' =>
      if Ascii.eqb c QUOTE then Some s'
      else if (code c <? 32)%N then None
      else if Ascii.eqb c BACKSLASH then
        match s' with
        | String e s2 =>
            if Ascii.eqb e "u" then
              match s2 with
              | String a (String b (String d (String g s3))) =>
                  if is_hex a && is_hex b && is_hex d && is_hex g
                  then skip_string s3 else None
              | _ => None
              end
            else if existsb (Ascii.eqb e) [QUOTE; BACKSLASH; "/"; "b"; "f"; "n"; "r"; "t"]%char
            then skip_string s2 else None
        | EmptyString => None
        end
      else skip_string s'
  end.

Fixpoint skip_digits (s : string) : string :=
  match s with
  | String c s' => if is_digit c then skip_digits s' else s
  | EmptyString => s
  end.

Definition some_digits (s : string) : option string :=
  match s with
  | String c s' => if is_digit c then Some (skip_digits s') else None
  | EmptyString => None
  end.

Definition skip_exponent (s : string) : option string :=
  match s with
  | String c s' =>
      if Ascii.eqb (lower c) "e" then
        match s' with
        | String g s2 =>
            if Ascii.eqb g "+" || Ascii.eqb g "-" then some_digits s2 else some_digits s'
        | EmptyString => None
        end
      else Some s
  | EmptyString => Some s
  end.

Definition skip_fraction (s : string) : option string :=
  match s with
  | String "." s' => match some_digits s' with Some r => skip_exponent r | None => None end
  | _ => skip_exponent s
  end.

Definition skip_number (s : string) : option string :=
  let t := match s with String "-" s' => s' | _ => s end in
  match t with
  | String "0" r => skip_fraction r
  | _ => match some_digits t with Some r => skip_fraction r | None => None end
  end.

Definition literal (w s : string) : option string :=
  if HasPrefix s w then Some (sdrop (slen w) s) else None.

Definition maxNestingDepth : N := 10000.

(** The rest after one value.  Every call consumes a byte first, so a fuel of the
    text's length plus one never runs out. *)
Fixpoint skip_value (fuel : nat) (depth : N) (s : string) : option string :=
  match fuel with
  | O => None
  | S f =>
      match skip_ws s with
      | EmptyString => None
      | String c t =>
          if Ascii.eqb c "{" then
            if (maxNestingDepth <=? depth)%N then None else
            match skip_ws t with
            | String "}" r => Some r
            | _ => skip_members f (depth + 1) t
            end
          else if Ascii.eqb c "[" then
            if (maxNestingDepth <=? depth)%N then None else
            match skip_ws t with
            | String "]" r => Some r
            | _ => skip_elements f (depth + 1) t
            end
          else if Ascii.eqb c QUOTE then skip_string t
          else if Ascii.eqb c "t" then literal "rue" t
          else if Ascii.eqb c "f" then literal "alse" t
          else if Ascii.eqb c "n" then literal "ull" t
          else skip_number (String c t)
      end
  end
with skip_members (fuel : nat) (depth : N) (s : string) : option string :=
  match fuel with
  | O => None
  | S f =>
      match skip_ws s with
      | String c t =>
          if Ascii.eqb c QUOTE then
            match skip_string t with
            | Some r =>
                match skip_ws r with
                | String ":" r2 =>
                    match skip_value f depth r2 with
                    | Some r3 =>
                        match skip_ws r3 with
                        | String "}" r4 => Some r4
                        | String "," r4 => skip_members f depth r4
                        | _ => None
                        end
                    | None => None
                    end
                | _ => None
                end
            | None => None
            end
          else None
      | EmptyString => None
      end
  end
with skip_elements (fuel : nat) (depth : N) (s : string) : option string :=
  match fuel with
  | O => None
  | S f =>
      match skip_value f depth s with
      | Some r =>
          match skip_ws r with
          | String "]" r2 => Some r2
          | String "," r2 => skip_elements f depth r2
          | _ => None
          end
      | None => None
      end
  end.

(** [checkValid]: one value with only white space around it. *)
Definition json_valid (s : string) : bool :=
  match skip_value (S (slen s)) 0 s with
  | Some r => String.eqb (skip_ws r) ""
  | None => false
  end.

(** ** Strings *)

Definition EncodeRune (r : N) : string :=
  let r := if ((1114111 <? r) || in_range 55296 57343 r)%N then RuneError else r in
  if (r <? 128)%N then String (byte_of r) ""
  else if (r <? 2048)%N then
    String (byte_of (192 + r / 64)) (String (byte_of (128 + r mod 64)) "")
  else if (r <? 65536)%N then
    String (byte_of (224 + r / 4096))
      (String (byte_of (128 + (r / 64) mod 64)) (String (byte_of (128 + r mod 64)) ""))
  else
    String (byte_of (240 + r / 262144))
      (String (byte_of (128 + (r / 4096) mod 64))
        (String (byte_of (128 + (r / 64) mod 64)) (String (byte_of (128 + r mod 64)) ""))).

(** [getu4]: the code unit of a [\uXXXX] escape at the head of [s]. *)
Definition getu4 (s : string) : option (N * string) :=
  match s with
  | String b (String u (String a (String c (String d (String e r))))) =>
      if Ascii.eqb b BACKSLASH && Ascii.eqb u "u" then
        match hex_digit a, hex_digit c, hex_digit d, hex_digit e with
        | Some a, Some c, Some d, Some e => Some (Z.to_N (((a * 16 + c) * 16 + d) * 16 + e), r)
        | _, _, _, _ => None
        end
      else None
  | _ => None
  end.

Definition is_surrogate (r : N) : bool := in_range 55296 57343 r.
Definition surrogate_pair (r1 r2 : N) : option N :=
  if in_range 55296 56319 r1 && in_range 56320 57343 r2
  then Some ((r1 - 55296) * 1024 + (r2 - 56320) + 65536)%N else None.

Definition simple_escape (e : ascii) : ascii :=
  if Ascii.eqb e "b" then byte_of 8 else if Ascii.eqb e "f" then byte_of 12
  else if Ascii.eqb e "n" then byte_of 10 else if Ascii.eqb e "r" then byte_of 13
  else if Ascii.eqb e "t" then byte_of 9 else e.

(** [unquote] of the text after an opening quote, up to the closing one; invalid
    UTF-8 and lone surrogates become U+FFFD.  Valid text escapes ASCII characters only. *)
Fixpoint unquote (fuel : nat) (s : string) : string :=
  match fuel, s with
  | S f, String c s' =>
      if Ascii.eqb c QUOTE then ""
      else if Ascii.eqb c BACKSLASH then
        match getu4 s with
        | Some (r, rest) =>
            if is_surrogate r then
              match getu4 rest with
              | Some (r2, rest2) =>
                  match surrogate_pair r r2 with
                  | Some p => EncodeRune p +:+ unquote f rest2
                  | None => EncodeRune RuneError +:+ unquote f rest
                  end
              | None => EncodeRune RuneError +:+ unquote f rest
              end
            else EncodeRune r +:+ unquote f rest
        | None =>
            match s' with
            | String e rest =>
                if (code e <? 128)%N then String (simple_escape e) (unquote f rest) else ""
            | EmptyString => ""
            end
        end
      else if (code c <? 128)%N then String c (unquote f s')
      else let (r, sz) := DecodeRune s in EncodeRune r +:+ unquote f (sdrop sz s)
  | _, _ => ""
  end.

Definition hex_char (n : N) : ascii := if (n <? 10)%N then byte_of (48 + n) else byte_of (87 + n).
Definition u00 (n : N) : string :=
  "\u00" +:+ String (hex_char (n / 16)) (String (hex_char (n mod 16)) "").

(** The body of [json.Marshal] of a string (HTML escaping on). *)
Fixpoint quote_body (fuel : nat) (s : string) : string :=
  match fuel, s with
  | S f, String c s' =>
      let n := code c in
      if (n <? 128)%N then
        (if Ascii.eqb c QUOTE || Ascii.eqb c BACKSLASH then String BACKSLASH (String c "")
         else if (n =? 8)%N then "\b" else if (n =? 12)%N then "\f"
         else if (n =? 10)%N then "\n" else if (n =? 13)%N then "\r"
         else if (n =? 9)%N then "\t"
         else if (n <? 32)%N || (n =? 60)%N || (n =? 62)%N || (n =? 38)%N then u00 n
         else String c "") +:+ quote_body f s'
      else
        let (r, sz) := DecodeRune s in
        (if (sz =? 1)%nat then "\ufffd"
         else if (r =? 8232)%N then "\u2028" else if (r =? 8233)%N then "\u2029"
         else stake sz s) +:+ quote_body f (sdrop sz s)
  | _, _ => ""
  end.
Definition MarshalString (s : string) : string :=
  String QUOTE (quote_body (slen s) s +:+ String QUOTE "").

(** ** Unmarshal targets *)

(** Into [*string]; [null] leaves the target unchanged, here [""]. *)
Definition UnmarshalString (raw : string) : option string :=
  if json_valid raw then
    match skip_ws raw with
    | String c t => if Ascii.eqb c QUOTE then Some (unquote (slen t) t)
                    else if Ascii.eqb c "n" then Some "" else None
    | EmptyString => None
    end
  else None.

Definition UnmarshalBool (raw : string) : option bool :=
  if json_valid raw then
    match skip_ws raw with
    | String "t" _ => Some true
    | String "f" _ | String "n" _ => Some false
    | _ => None
    end
  else None.

(** The text of the value [raw] holds, without the white space around it. *)
Definition value_text (fuel : nat) (depth : N) (s : string) : option (string * string) :=
  let t := skip_ws s in
  match skip_value fuel depth t with
  | Some r => Some (stake (slen t - slen r) t, r)
  | None => None
  end.

Definition UnmarshalFloat (raw : string) : option float64 :=
  if json_valid raw then
    match skip_ws raw with
    | String c _ =>
        if is_digit c || Ascii.eqb c "-" then
          match value_text (S (slen raw)) 0 raw with
          | Some (t, _) => ParseFloat t
          | None => None
          end
        else if Ascii.eqb c "n" then Some (float_of_int 0) else None
    | EmptyString => None
    end
  else None.

(** The members of an object text after its opening brace, in order. *)
Fixpoint members (fuel : nat) (s : string) : list (string * string) :=
  match fuel with
  | O => []
  | S f =>
      match skip_ws s with
      | String c t =>
          if Ascii.eqb c QUOTE then
            match skip_string t with
            | Some r =>
                match skip_ws r with
                | String ":" r2 =>
                    match value_text (S (slen r2)) 1 r2 with
                    | Some (v, r3) =>
                        (unquote (slen t) t, v) ::
                        match skip_ws r3 with
                        | String "," r4 => members f r4
                        | _ => []
                        end
                    | None => []
                    end
                | _ => []
                end
            | None => []
            end
          else []
      | EmptyString => []
      end
  end.

(** Into [*map[string]json.string]: a repeated key keeps its last value; [null]
    gives the nil map. *)
Definition UnmarshalObject (raw : string) : option (gmap string string) :=
  if json_valid raw then
    match skip_ws raw with
    | String "{" t =>
        Some (fold_left (fun m kv => <[kv.1 := kv.2]> m) (members (slen t) t) ∅)
    | String "n" _ => Some ∅
    | _ => None
    end
  else None.

Example object_members :
  UnmarshalObject (dq "{'a' : 1.50 , 'b':{'c':[1,2,{}]},'a':'x'}")
  = Some (<["a" := dq "'x'"]> (<["b" := dq "{'c':[1,2,{}]}"]> ∅)).
Proof. vm_compute. reflexivity. Qed.
Example bad_objects :
  map UnmarshalObject
    [dq "{a:1}"; dq "{'a':01}"; dq "{'a':1,}"; "[1]"; "{}x"; dq "{'a':1"]
  = [None; None; None; None; None; None].
Proof. vm_compute. reflexivity. Qed.
Example quote_unquote :
  let s := dq "a<b> 'q' \ é" in UnmarshalString (MarshalString s) = Some s.
Proof. vm_compute. reflexivity. Qed.
Example unquote_escapes :
  UnmarshalString (dq "'\u0041\n\ud83d\ude00\ud800x'")
  = Some ("A" +:+ String (byte_of 10) (EncodeRune 128512 +:+ EncodeRune RuneError +:+ "x")).
Proof. vm_compute. reflexivity. Qed.
