(* ===== verification/JsonText.v ===== *)
(** JSON texts: what quoting makes of a string, what compaction makes of a raw value,
    and how the scanner of GoJson reads the results back inside a larger text. *)

From S2P Require Import Prelude GoStrings GoFloat GoJson.
From Stdlib Require Import Ascii String.
Local Open Scope string_scope.
Local Open Scope list_scope.
Local Open Scope Z_scope.

(** ** Strings *)

(** A string as JSON carries it: every byte that is not part of a valid UTF-8 encoding
    becomes U+FFFD. *)
Fixpoint sane (fuel : nat) (s : string) : string :=
  match fuel, s with
  | S f, String _ _ => let (r, sz) := DecodeRune s in EncodeRune r +:+ sane f (sdrop sz s)
  | _, _ => ""
  end.
Definition sanitize (s : string) : string := sane (slen s) s.

Example sanitize_bad : sanitize (String (byte_of 255) "é") = EncodeRune RuneError +:+ "é".
Proof. vm_compute. reflexivity. Qed.

(** *** Runes of more than one byte *)

Inductive wide : string -> N -> Prop :=
  | wide2 c0 c1 :
      in_range 194 223 (code c0) = true -> is_cont (code c1) = true ->
      wide (String c0 (String c1 "")) ((code c0 - 192) * 64 + (code c1 - 128))
  | wide3 c0 c1 c2 :
      in_range 224 239 (code c0) = true ->
      in_range (if (code c0 =? 224)%N then 160 else 128) (if (code c0 =? 237)%N then 159 else 191)
        (code c1) = true ->
      is_cont (code c2) = true ->
      wide (String c0 (String c1 (String c2 "")))
        ((code c0 - 224) * 4096 + (code c1 - 128) * 64 + (code c2 - 128))
  | wide4 c0 c1 c2 c3 :
      in_range 240 244 (code c0) = true ->
      in_range (if (code c0 =? 240)%N then 144 else 128) (if (code c0 =? 244)%N then 143 else 191)
        (code c1) = true ->
      is_cont (code c2) = true -> is_cont (code c3) = true ->
      wide (String c0 (String c1 (String c2 (String c3 ""))))
        ((code c0 - 240) * 262144 + (code c1 - 128) * 4096 + (code c2 - 128) * 64 + (code c3 - 128)).

Lemma in_range_iff lo hi n : in_range lo hi n = true <-> (lo <= n <= hi)%N.
Proof. unfold in_range. rewrite andb_true_iff, !N.leb_le. done. Qed.
Lemma in_range_out lo hi n : (n < lo \/ hi < n)%N -> in_range lo hi n = false.
Proof. intros H. apply not_true_iff_false. rewrite in_range_iff. lia. Qed.
Ltac ranges := change is_cont with (in_range 128 191) in *; rewrite ?in_range_iff in *.

Lemma land_low n m k b v : m = N.ones k -> v = (b * 2 ^ k)%N -> (v <= n < v + 2 ^ k)%N ->
  N.land n m = (n - v)%N.
Proof.
  intros -> -> H. rewrite N.land_ones. symmetry. apply (N.mod_unique _ _ b); lia.
Qed.
Lemma land_cont n : (128 <= n <= 191)%N -> N.land n 63 = (n - 128)%N.
Proof. intros H. apply (land_low n 63 6 2); [done|done|cbn; lia]. Qed.

Lemma wide_decode b r x : wide b r -> DecodeRune (b +:+ x) = (r, slen b).
Proof.
  intros [c0 c1 H0 H1|c0 c1 c2 H0 H1 H2|c0 c1 c2 c3 H0 H1 H2 H3];
    rewrite ?str_app_cons; unfold DecodeRune; pose proof H0 as R0; rewrite in_range_iff in R0;
    rewrite (proj2 (N.ltb_ge _ _)) by lia.
  - rewrite H0, H1. ranges. rewrite (land_low _ 31 5 6 192), land_cont by (done || cbn; lia). done.
  - rewrite in_range_out, H0, H1, H2 by lia. cbn [andb].
    assert (R1 : (128 <= code c1 <= 191)%N) by (revert H1; ranges; repeat case_match; lia).
    ranges. rewrite (land_low _ 15 4 14 224), !land_cont by (done || cbn; lia). done.
  - rewrite !in_range_out, H0, H1, H2, H3 by lia. cbn [andb].
    assert (R1 : (128 <= code c1 <= 191)%N) by (revert H1; ranges; repeat case_match; lia).
    ranges. rewrite (land_low _ 7 3 30 240), !land_cont by (done || cbn; lia). done.
Qed.

Lemma decode_wide c s : (128 <= code c)%N ->
  DecodeRune (String c s) = (RuneError, 1%nat) \/
  exists b r x, String c s = b +:+ x /\ wide b r.
Proof.
  intros H. unfold DecodeRune. rewrite (proj2 (N.ltb_ge _ _)) by lia.
  destruct s as [|c1 s]; [by left|]. destruct (in_range 194 223 (code c)) eqn:R2.
  { destruct (is_cont (code c1)) eqn:C1; [|by left]. right. exists (String c (String c1 "")); eexists _, s. split; [done|by apply wide2]. }
  destruct s as [|c2 s]; [by left|]. destruct (in_range 224 239 (code c)) eqn:R3.
  { destruct (in_range _ _ (code c1) && _) eqn:C; [|by left]. apply andb_true_iff in C as [C1 C2].
    right. exists (String c (String c1 (String c2 ""))); eexists _, s. split; [done|by apply wide3]. }
  destruct s as [|c3 s]; [by left|]. destruct (in_range 240 244 (code c)) eqn:R4; [|by left].
  destruct (in_range _ _ (code c1) && _ && _) eqn:C; [|by left]. rewrite !andb_true_iff in C.
  destruct C as [[C1 C2] C3]. right. exists (String c (String c1 (String c2 (String c3 "")))); eexists _, s.
  split; [done|by apply wide4].
Qed.

Lemma byte_of_code c n : n = code c -> byte_of n = c.
Proof. intros ->. apply ascii_N_embedding. Qed.

Lemma wide_encode b r : wide b r -> EncodeRune r = b.
Proof.
  intros [c0 c1 H0 H1|c0 c1 c2 H0 H1 H2|c0 c1 c2 c3 H0 H1 H2 H3]; unfold EncodeRune;
    change is_cont with (in_range 128 191) in *.
  - ranges. rewrite in_range_out, (proj2 (N.ltb_ge 1114111 _)) by lia. cbn [orb].
    rewrite (proj2 (N.ltb_ge _ 128)), (proj2 (N.ltb_lt _ 2048)) by lia.
    repeat f_equal; apply byte_of_code; zify; Z.to_euclidean_division_equations; lia.
  - assert (R1 : (128 <= code c1 <= 191)%N /\ (code c0 = 224 -> 160 <= code c1)%N /\
                 (code c0 = 237 -> code c1 <= 159)%N)
      by (revert H1; rewrite in_range_iff;
          destruct (N.eqb_spec (code c0) 224), (N.eqb_spec (code c0) 237); lia).
    clear H1. ranges. rewrite in_range_out, (proj2 (N.ltb_ge 1114111 _)) by lia. cbn [orb].
    rewrite (proj2 (N.ltb_ge _ 128)), (proj2 (N.ltb_ge _ 2048)), (proj2 (N.ltb_lt _ 65536)) by lia.
    repeat f_equal; apply byte_of_code; zify; Z.to_euclidean_division_equations; lia.
  - assert (R1 : (128 <= code c1 <= 191)%N /\ (code c0 = 240 -> 144 <= code c1)%N /\
                 (code c0 = 244 -> code c1 <= 143)%N)
      by (revert H1; rewrite in_range_iff;
          destruct (N.eqb_spec (code c0) 240), (N.eqb_spec (code c0) 244); lia).
    clear H1. ranges. rewrite in_range_out, (proj2 (N.ltb_ge 1114111 _)) by lia. cbn [orb].
    rewrite (proj2 (N.ltb_ge _ 128)), (proj2 (N.ltb_ge _ 2048)), (proj2 (N.ltb_ge _ 65536)) by lia.
    repeat f_equal; apply byte_of_code; zify; Z.to_euclidean_division_equations; lia.
Qed.

(** *** Induction by runes *)

Lemma wide_head b r : wide b r -> exists c b', b = String c b' /\ (128 <= code c)%N.
Proof. intros []; ranges; eexists _, _; (split; [done|lia]). Qed.

Definition high (c : ascii) : Prop := (128 <= code c)%N.
Lemma wide_high b r : wide b r -> Forall high (bytes_of b).
Proof.
  unfold high. intros []; ranges; cbn; repeat apply Forall_cons_2; try apply Forall_nil_2; try lia;
    repeat case_match; lia.
Qed.

Lemma rune_ind (P : string -> Prop) :
  P "" ->
  (forall c s, (code c < 128)%N -> P s -> P (String c s)) ->
  (forall b r s, wide b r -> P s -> P (b +:+ s)) ->
  (forall c s, (128 <= code c)%N -> DecodeRune (String c s) = (RuneError, 1%nat) -> P s ->
     P (String c s)) ->
  forall s, P s.
Proof.
  intros H0 H1 H2 H3 s. remember (slen s) as n eqn:E.
  revert s E. induction (Nat.lt_wf_0 n) as [n _ IH]. intros [|c s] ->; [done|].
  assert (Hs : P s) by (apply (IH (slen s)); rewrite ?slen_cons; lia).
  destruct (N.lt_ge_cases (code c) 128) as [L|L]; [by apply H1|].
  destruct (decode_wide c s L) as [D|(b & r & x & E & W)]; [by apply H3|].
  rewrite E. apply (H2 b r); [done|]. apply (IH (slen x)); [|done]. rewrite E, slen_app.
  destruct (wide_head b r W) as (c' & b' & -> & _). rewrite slen_cons. lia.
Qed.

Lemma slen_le_cons c s n : (slen (String c s) <= n)%nat -> exists m, n = S m /\ (slen s <= m)%nat.
Proof. rewrite slen_cons. destruct n as [|m]; [lia|]. exists m. split; lia. Qed.
Lemma wide_slen b r : wide b r -> (1 < slen b)%nat.
Proof. intros []; rewrite !slen_cons; lia. Qed.
Lemma DecodeRune_ascii c s : (code c < 128)%N -> DecodeRune (String c s) = (code c, 1%nat).
Proof. intros H. unfold DecodeRune. by rewrite (proj2 (N.ltb_lt _ _)) by lia. Qed.
Lemma EncodeRune_ascii c : (code c < 128)%N -> EncodeRune (code c) = String c "".
Proof.
  intros H. unfold EncodeRune. rewrite in_range_out, (proj2 (N.ltb_ge 1114111 _)) by lia. cbn [orb].
  rewrite (proj2 (N.ltb_lt _ _)) by lia. by rewrite (byte_of_code c).
Qed.

(** One rune of a loop that consumes a rune per step. *)
Lemma sane_ascii n c s : (code c < 128)%N -> sane (S n) (String c s) = String c (sane n s).
Proof. intros H. cbn [sane]. rewrite DecodeRune_ascii by done. cbn beta iota. by rewrite EncodeRune_ascii. Qed.
Lemma sane_wide n b r s : wide b r -> sane (S n) (b +:+ s) = b +:+ sane n s.
Proof.
  intros W. pose proof (wide_decode b r s W) as D. pose proof (wide_encode b r W) as E.
  destruct (wide_head b r W) as (c & b' & -> & _). rewrite str_app_cons in D |- *. cbn [sane].
  rewrite D. cbn beta iota. rewrite E. by rewrite <- str_app_cons, sdrop_app.
Qed.
Lemma sane_bad n c s : DecodeRune (String c s) = (RuneError, 1%nat) ->
  sane (S n) (String c s) = EncodeRune RuneError +:+ sane n s.
Proof. intros D. cbn [sane]. by rewrite D. Qed.
Lemma sane_fuel s : forall n, (slen s <= n)%nat -> sane n s = sanitize s.
Proof.
  unfold sanitize. induction s as [|c s H IH|b r s W IH|c s H D IH] using rune_ind; intros n L.
  - by destruct n.
  - apply slen_le_cons in L as (m & -> & L). rewrite slen_cons, !sane_ascii by done. by rewrite !IH by lia.
  - rewrite slen_app in *. pose proof (wide_slen b r W). destruct n as [|n]; [lia|].
    destruct (slen b + slen s)%nat as [|k] eqn:E; [lia|].
    rewrite !(sane_wide _ b r) by done. by rewrite (IH n), (IH k) by lia.
  - apply slen_le_cons in L as (m & -> & L). rewrite slen_cons, !sane_bad by done. by rewrite !IH by lia.
Qed.
Lemma sanitize_ascii c s : (code c < 128)%N -> sanitize (String c s) = String c (sanitize s).
Proof. apply sane_ascii. Qed.
Lemma sanitize_wide b r s : wide b r -> sanitize (b +:+ s) = b +:+ sanitize s.
Proof.
  intros W. unfold sanitize at 1. rewrite slen_app. pose proof (wide_slen b r W).
  destruct (slen b + slen s)%nat as [|k] eqn:E; [lia|]. rewrite (sane_wide k b r), sane_fuel by (done || lia).
  done.
Qed.
Lemma sanitize_bad_byte c s : DecodeRune (String c s) = (RuneError, 1%nat) ->
  sanitize (String c s) = EncodeRune RuneError +:+ sanitize s.
Proof. apply sane_bad. Qed.

Lemma wide_error : wide (EncodeRune RuneError) RuneError.
Proof. apply wide3; reflexivity. Qed.

(** Text that JSON has carried once is carried faithfully from then on. *)
Lemma sanitize_idem s : sanitize (sanitize s) = sanitize s.
Proof.
  induction s as [|c s H IH|b r s W IH|c s H D IH] using rune_ind; [done|..].
  - by rewrite !sanitize_ascii, IH by done.
  - by rewrite !(sanitize_wide b r), IH by done.
  - rewrite sanitize_bad_byte by done. by rewrite (sanitize_wide _ RuneError), IH by apply wide_error.
Qed.

(** *** Quoting *)

Definition quote (s : string) : string := quote_body (slen s) s.
Definition quote_char (c : ascii) : string :=
  let n := code c in
  if Ascii.eqb c QUOTE || Ascii.eqb c BACKSLASH then String BACKSLASH (String c "")
  else if (n =? 8)%N then "\b" else if (n =? 12)%N then "\f"
  else if (n =? 10)%N then "\n" else if (n =? 13)%N then "\r"
  else if (n =? 9)%N then "\t"
  else if (n <? 32)%N || (n =? 60)%N || (n =? 62)%N || (n =? 38)%N then u00 n
  else String c "".
Definition quote_wide (b : string) (r : N) : string :=
  if (r =? 8232)%N then "\u2028" else if (r =? 8233)%N then "\u2029" else b.

Lemma quote_body_ascii n c s : (code c < 128)%N ->
  quote_body (S n) (String c s) = quote_char c +:+ quote_body n s.
Proof. intros H. cbn [quote_body]. by rewrite (proj2 (N.ltb_lt _ _)) by lia. Qed.
Lemma quote_body_wide n b r s : wide b r ->
  quote_body (S n) (b +:+ s) = quote_wide b r +:+ quote_body n s.
Proof.
  intros W. pose proof (wide_decode b r s W) as D. pose proof (wide_slen b r W) as L.
  destruct (wide_head b r W) as (c & b' & -> & Hc). rewrite str_app_cons in D |- *. cbn [quote_body].
  rewrite (proj2 (N.ltb_ge _ _)), D by lia. rewrite <- str_app_cons, sdrop_app, stake_app.
  destruct (Nat.eqb_spec (slen (String c b')) 1) as [E|E]; [lia|done].
Qed.
Lemma quote_body_bad n c s : (128 <= code c)%N -> DecodeRune (String c s) = (RuneError, 1%nat) ->
  quote_body (S n) (String c s) = "\ufffd" +:+ quote_body n s.
Proof. intros H D. cbn [quote_body]. by rewrite (proj2 (N.ltb_ge _ _)), D by lia. Qed.
Lemma quote_fuel s : forall n, (slen s <= n)%nat -> quote_body n s = quote s.
Proof.
  unfold quote. induction s as [|c s H IH|b r s W IH|c s H D IH] using rune_ind; intros n L.
  - by destruct n.
  - apply slen_le_cons in L as (m & -> & L). rewrite slen_cons, !quote_body_ascii by done.
    by rewrite !IH by lia.
  - rewrite slen_app in *. pose proof (wide_slen b r W). destruct n as [|n]; [lia|].
    destruct (slen b + slen s)%nat as [|k] eqn:E; [lia|].
    rewrite !(quote_body_wide _ b r) by done. by rewrite (IH n), (IH k) by lia.
  - apply slen_le_cons in L as (m & -> & L). rewrite slen_cons, !quote_body_bad by done.
    by rewrite !IH by lia.
Qed.
Lemma quote_ascii c s : (code c < 128)%N -> quote (String c s) = quote_char c +:+ quote s.
Proof. apply quote_body_ascii. Qed.
Lemma quote_app_wide b r s : wide b r -> quote (b +:+ s) = quote_wide b r +:+ quote s.
Proof.
  intros W. unfold quote at 1. rewrite slen_app. pose proof (wide_slen b r W).
  destruct (slen b + slen s)%nat as [|k] eqn:E; [lia|].
  rewrite (quote_body_wide k b r), quote_fuel by (done || lia). done.
Qed.
Lemma quote_bad c s : (128 <= code c)%N -> DecodeRune (String c s) = (RuneError, 1%nat) ->
  quote (String c s) = "\ufffd" +:+ quote s.
Proof. apply quote_body_bad. Qed.

(** *** Reading a quoted string back *)

Ltac ascii_cases c := destruct c as [[] [] [] [] [] [] [] []].

Lemma getu4_simple b e t : Ascii.eqb e "u" = false -> getu4 (String b (String e t)) = None.
Proof.
  intros H. unfold getu4. by do 4 (destruct t as [|? t]; [done|]); rewrite H, andb_false_r.
Qed.
Lemma unquote_escape n e t : Ascii.eqb e "u" = false -> (code e < 128)%N ->
  unquote (S n) (String BACKSLASH (String e t)) = String (simple_escape e) (unquote n t).
Proof. intros H L. cbn [unquote]. by rewrite getu4_simple, (proj2 (N.ltb_lt _ _)) by done. Qed.

Lemma unquote_char n c t : (code c < 128)%N ->
  unquote (S n) (quote_char c +:+ t) = String c (unquote n t).
Proof.
  intros H. ascii_cases c;
    first [done | exfalso; by vm_compute in H | etransitivity; [by apply unquote_escape|done]].
Qed.
Lemma skip_char c t : (code c < 128)%N -> skip_string (quote_char c +:+ t) = skip_string t.
Proof. intros H. ascii_cases c; first [done | exfalso; by vm_compute in H]. Qed.

Lemma eqb_high c d : (128 <= code c)%N -> (code d < 128)%N -> Ascii.eqb c d = false.
Proof. intros H L. apply Ascii.eqb_neq. intros ->. lia. Qed.
Lemma unquote_wide n b r t : wide b r -> unquote (S n) (quote_wide b r +:+ t) = b +:+ unquote n t.
Proof.
  intros W. pose proof (wide_encode b r W) as E. unfold quote_wide.
  destruct (N.eqb_spec r 8232) as [->|_]; [by rewrite <- E|].
  destruct (N.eqb_spec r 8233) as [->|_]; [by rewrite <- E|].
  pose proof (wide_decode b r t W) as D. destruct (wide_head b r W) as (c & b' & -> & Hc).
  rewrite str_app_cons in D |- *. cbn [unquote].
  rewrite !eqb_high, (proj2 (N.ltb_ge _ _)), D by (done || lia). cbn beta iota. rewrite E.
  by rewrite <- str_app_cons, sdrop_app.
Qed.

(** Unquoting what [quote] wrote gives the sanitised string. *)
Lemma unquote_quote s rest : forall n, (slen (quote s) <= n)%nat ->
  unquote n (quote s +:+ String QUOTE rest) = sanitize s.
Proof.
  induction s as [|c s H IH|b r s W IH|c s H D IH] using rune_ind; intros n L.
  - by destruct n.
  - rewrite quote_ascii, slen_app in * by done. rewrite sanitize_ascii, str_app_assoc by done.
    assert (1 <= slen (quote_char c))%nat by (ascii_cases c; by apply Nat.leb_le).
    destruct n as [|n]; [lia|]. rewrite unquote_char, IH by (done || lia). done.
  - rewrite (quote_app_wide b r), slen_app in * by done. rewrite (sanitize_wide b r), str_app_assoc by done.
    assert (1 <= slen (quote_wide b r))%nat.
    { pose proof (wide_slen b r W). unfold quote_wide. repeat case_match; [by apply Nat.leb_le..|lia]. }
    destruct n as [|n]; [lia|]. rewrite (unquote_wide n b r), IH by (done || lia). done.
  - rewrite quote_bad, slen_app in * by done. rewrite sanitize_bad_byte, str_app_assoc by done.
    change (slen "\ufffd") with 6%nat in L. destruct n as [|n]; [lia|].
    change (unquote (S n) ("\ufffd" +:+ ?t)) with (EncodeRune RuneError +:+ unquote n t).
    by rewrite IH by lia.
Qed.

Lemma skip_high c t : (128 <= code c)%N -> skip_string (String c t) = skip_string t.
Proof. intros H. cbn [skip_string]. by rewrite !eqb_high, (proj2 (N.ltb_ge _ _)) by (done || lia). Qed.
Lemma skip_wide b r t : wide b r -> skip_string (b +:+ t) = skip_string t.
Proof.
  intros W%wide_high. induction b as [|c b IH]; [done|]. cbn in W. apply Forall_cons in W as [Hc W].
  by rewrite str_app_cons, skip_high, IH.
Qed.
Lemma skip_quote s rest : skip_string (quote s +:+ String QUOTE rest) = Some rest.
Proof.
  induction s as [|c s H IH|b r s W IH|c s H D IH] using rune_ind.
  - done.
  - by rewrite quote_ascii, str_app_assoc, skip_char by done.
  - rewrite (quote_app_wide b r), str_app_assoc by done. unfold quote_wide.
    repeat case_match; [exact IH..|]. by rewrite (skip_wide b r).
  - rewrite quote_bad, str_app_assoc by done. exact IH.
Qed.

(** *** Decoded strings are valid UTF-8 *)

Lemma in_range_false lo hi n : in_range lo hi n = false -> (n < lo \/ hi < n)%N.
Proof. intros H. destruct (N.lt_ge_cases n lo), (N.lt_ge_cases hi n); try lia.
  rewrite (proj2 (in_range_iff lo hi n)) in H by lia. done.
Qed.
Lemma EncodeRune_spec r : (exists c, EncodeRune r = String c "" /\ (code c < 128)%N) \/
  exists r', wide (EncodeRune r) r'.
Proof.
  unfold EncodeRune.
  set (r' := if _ || _ then RuneError else r).
  assert (Hr : (r' < 55296 \/ 57343 < r')%N /\ (r' <= 1114111)%N).
  { unfold r'. destruct (1114111 <? r)%N eqn:E1; [cbn [orb]; unfold RuneError; lia|]. apply N.ltb_ge in E1.
    destruct (in_range _ _ r) eqn:E2; [cbn [orb]; unfold RuneError; lia|]. apply in_range_false in E2. cbn [orb]. lia. }
  clearbody r'. destruct (N.ltb_spec r' 128) as [L1|L1].
  { left. eexists. split; [done|]. rewrite code_byte_of by lia. done. }
  right. destruct (N.ltb_spec r' 2048) as [L2|L2]; [|destruct (N.ltb_spec r' 65536) as [L3|L3]]; eexists.
  - apply wide2; ranges; rewrite !code_byte_of by (zify; Z.to_euclidean_division_equations; lia);
      zify; Z.to_euclidean_division_equations; lia.
  - apply wide3; ranges; rewrite !code_byte_of by (zify; Z.to_euclidean_division_equations; lia);
      [| |zify; Z.to_euclidean_division_equations; lia].
    + zify; Z.to_euclidean_division_equations; lia.
    + destruct (N.eqb_spec (224 + r' / 4096) 224), (N.eqb_spec (224 + r' / 4096) 237);
        zify; Z.to_euclidean_division_equations; lia.
  - apply wide4; ranges; rewrite !code_byte_of by (zify; Z.to_euclidean_division_equations; lia);
      [| |zify; Z.to_euclidean_division_equations; lia..].
    + zify; Z.to_euclidean_division_equations; lia.
    + destruct (N.eqb_spec (240 + r' / 262144) 240), (N.eqb_spec (240 + r' / 262144) 244);
        zify; Z.to_euclidean_division_equations; lia.
Qed.
Lemma sanitize_rune r s : sanitize (EncodeRune r +:+ s) = EncodeRune r +:+ sanitize s.
Proof.
  destruct (EncodeRune_spec r) as [(c & -> & Hc)|[r' W]]; [|by apply (sanitize_wide _ r')].
  rewrite !str_app_cons, !str_app_nil. by apply sanitize_ascii.
Qed.
Lemma simple_escape_ascii e : (code e < 128)%N -> (code (simple_escape e) < 128)%N.
Proof. intros H. ascii_cases e; first [by vm_compute | exfalso; by vm_compute in H]. Qed.
(** Whatever text a string is decoded from, decoding it gives valid UTF-8. *)
Lemma sanitize_unquote n : forall s, sanitize (unquote n s) = unquote n s.
Proof.
  induction n as [|n IH]; intros [|c s]; [done..|]. cbn [unquote].
  destruct (Ascii.eqb c QUOTE); [done|]. destruct (Ascii.eqb c BACKSLASH).
  - destruct (getu4 (String c s)) as [[r rest]|].
    + destruct (is_surrogate r); [|by rewrite sanitize_rune, IH].
      destruct (getu4 rest) as [[r2 rest2]|]; [|by rewrite sanitize_rune, IH].
      destruct (surrogate_pair r r2); by rewrite sanitize_rune, IH.
    + destruct s as [|e s]; [done|]. destruct (N.ltb_spec (code e) 128) as [L|]; [|done].
      by rewrite sanitize_ascii, IH by by apply simple_escape_ascii.
  - destruct (N.ltb_spec (code c) 128) as [L|]; [by rewrite sanitize_ascii, IH|].
    destruct (DecodeRune _) as [r sz]. by rewrite sanitize_rune, IH.
Qed.

(** ** Compaction

    [json.Marshal] of a [json.RawMessage]: the white space outside strings removed and
    the characters special to HTML and JavaScript escaped ([appendCompact]). *)

Inductive cstate := Out | Str | Esc.
Definition cnext (st : cstate) (c : ascii) : cstate :=
  match st with
  | Out => if Ascii.eqb c QUOTE then Str else Out
  | Str => if Ascii.eqb c QUOTE then Out else if Ascii.eqb c BACKSLASH then Esc else Str
  | Esc => Str
  end.
Definition is_html (c : ascii) : bool :=
  let n := code c in (n =? 60)%N || (n =? 62)%N || (n =? 38)%N.
(** A control character is never part of a valid string, so in valid text it is white
    space wherever it stands. *)
Definition dropped (st : cstate) (c : ascii) : bool :=
  is_ws c && match st with Out => true | _ => negb (Ascii.eqb c " ") end.
Definition is_sep (c d e : ascii) : bool :=
  (code c =? 226)%N && (code d =? 128)%N && ((code e =? 168)%N || (code e =? 169)%N).

Fixpoint compact (st : cstate) (s : string) : string :=
  match s with
  | EmptyString => ""
  | String c s' =>
      let st' := cnext st c in
      if dropped st c then compact st s'
      else if is_html c then u00 (code c) +:+ compact st' s'
      else match s' with
           | String d (String e s2) =>
               if is_sep c d e
               then (if (code e =? 168)%N then "\u2028" else "\u2029") +:+ compact st' s2
               else String c (compact st' s')
           | _ => String c (compact st' s')
           end
  end.
(** [RawMessage.MarshalJSON] followed by the compaction: invalid text is an error. *)
Definition MarshalRaw (raw : string) : option string :=
  if json_valid raw then Some (compact Out raw) else None.

Example compact_raw :
  MarshalRaw (dq " {'a' : [ 1, '<b> \' c', true ] } ") = Some (dq "{'a':[1,'\u003cb\u003e \' c',true]}").
Proof. vm_compute. reflexivity. Qed.

(** [t] passes compaction unchanged, between two states. *)
Definition stable (st st' : cstate) (t : string) : Prop :=
  forall x, compact st (t +:+ x) = t +:+ compact st' x.

Lemma stable_app st1 st2 st3 t u : stable st1 st2 t -> stable st2 st3 u -> stable st1 st3 (t +:+ u).
Proof. intros H1 H2 x. by rewrite !str_app_assoc, H1, H2. Qed.
Lemma stable_nil st : stable st st "".
Proof. done. Qed.

Definition plain (st : cstate) (c : ascii) : bool :=
  negb (dropped st c) && negb (is_html c) && negb (code c =? 226)%N.
Lemma compact_plain st c s : plain st c = true -> compact st (String c s) = String c (compact (cnext st c) s).
Proof.
  unfold plain. rewrite !andb_true_iff, !negb_true_iff. intros [[H1 H2] H3].
  cbn [compact]. rewrite H1, H2. destruct s as [|d [|e s]]; [done..|].
  unfold is_sep. by rewrite H3.
Qed.
Lemma stable_plain st c : plain st c = true -> stable st (cnext st c) (String c "").
Proof. intros H x. by apply compact_plain. Qed.
Lemma stable_plains st t :
  Forall (fun c => plain st c = true /\ cnext st c = st) (bytes_of t) -> stable st st t.
Proof.
  induction t as [|c t IH]; cbn; [done|]. intros [[Hp Hn] Ht]%Forall_cons x.
  by rewrite str_app_cons, compact_plain, Hn, (IH Ht) by done.
Qed.

Lemma compact_skip_ws s : compact Out (skip_ws s) = compact Out s.
Proof.
  induction s as [|c s IH]; [done|]. cbn [skip_ws]. destruct (is_ws c) eqn:E; [|done].
  rewrite IH. cbn [compact]. unfold dropped. by rewrite E.
Qed.

(** *** Strings *)

(** The multi-byte characters [t] starts with, [s] starts with too: compaction never
    brings a line separator about. *)
Definition lead (s t : string) : Prop := forall x,
  (forall c u, t +:+ x = String c u -> high c -> exists s1, s = String c s1) /\
  (forall c d u, t +:+ x = String c (String d u) -> high c -> high d ->
     exists s2, s = String c (String d s2)).

Lemma lead_low s c t : ~ high c -> lead s (String c t).
Proof. intros H x. rewrite str_app_cons. split; [intros ? ? [= <- _]|intros ? ? ? [= <- _]]; done. Qed.
Lemma lead_cons c s t : lead s t -> lead (String c s) (String c t).
Proof.
  intros H x. destruct (H x) as [H1 _]. rewrite str_app_cons.
  split; [intros ? ? [= <- _] _; by eexists|].
  intros c' d u [= <- E] _ Hd. destruct (H1 d u E Hd) as [s1 ->]. by eexists.
Qed.

(** What compaction makes of the rest [s] of a string that ends at [r]. *)
Definition str_done (s r t : string) : Prop :=
  compact Str s = t +:+ compact Out r /\ t <> "" /\ stable Str Out t /\
  (forall x, skip_string (t +:+ x) = Some x) /\ lead s t.

Lemma str_chunk k s0 s r t :
  compact Str s0 = k +:+ compact Str s -> stable Str Str k ->
  (forall x, skip_string (k +:+ x) = skip_string x) -> lead s0 (k +:+ t) ->
  str_done s r t -> str_done s0 r (k +:+ t).
Proof.
  intros E0 Hk Hskip Hl (E & Hne & Hs & Hx & _). split_and!; [| | | |done].
  - by rewrite E0, E, str_app_assoc.
  - destruct k; [done|by rewrite str_app_cons].
  - by eapply stable_app.
  - intros x. by rewrite str_app_assoc, Hskip.
Qed.

Ltac stable_text :=
  let x := fresh "x" in intros x;
  match goal with |- compact _ (?k +:+ _) = _ =>
    let v := eval vm_compute in k in change k with v end;
  rewrite ?str_app_cons, ?str_app_nil; repeat rewrite compact_plain by done; done.

Lemma u00_chunk c : is_html c = true ->
  stable Str Str (u00 (code c)) /\ (forall x, skip_string (u00 (code c) +:+ x) = skip_string x) /\
  exists k, u00 (code c) = String BACKSLASH k.
Proof.
  intros H. ascii_cases c; try done; (split; [stable_text|split; [done|by eexists]]).
Qed.

(** A character that stands for itself in a string. *)
Definition literal_char (c : ascii) : bool :=
  (32 <=? code c)%N && negb (Ascii.eqb c QUOTE) && negb (Ascii.eqb c BACKSLASH).
Lemma literal_next c : literal_char c = true -> cnext Str c = Str /\ dropped Str c = false.
Proof. intros H. ascii_cases c; done. Qed.
Lemma literal_skip c x : literal_char c = true -> skip_string (String c x) = skip_string x.
Proof.
  unfold literal_char. rewrite !andb_true_iff, !negb_true_iff, N.leb_le. intros [[H1 H2] H3].
  cbn [skip_string]. by rewrite H2, H3, (proj2 (N.ltb_ge _ _)) by lia.
Qed.

Lemma low_backslash : ~ high BACKSLASH.
Proof. intros H. vm_compute in H. by apply H. Qed.
Lemma low_quote : ~ high QUOTE.
Proof. intros H. vm_compute in H. by apply H. Qed.

Definition shorter_done (n : nat) : Prop :=
  forall s r, (slen s <= n)%nat -> skip_string s = Some r -> exists t, str_done s r t.

Lemma is_sep_high c d e : is_sep c d e = true -> high d /\ high e.
Proof.
  unfold is_sep, high. rewrite !andb_true_iff, orb_true_iff, !N.eqb_eq. lia.
Qed.

Lemma str_self c s r t : literal_char c = true -> is_html c = false ->
  (forall d e s1, s = String d (String e s1) -> is_sep c d e = false) ->
  str_done s r t -> str_done (String c s) r (String c t).
Proof.
  intros Hc Hh Hsep (E & Hne & Hs & Hx & Hl). destruct (literal_next c Hc) as [Hn Hd].
  assert (Step : forall u, (forall d e s1, u = String d (String e s1) -> is_sep c d e = false) ->
    compact Str (String c u) = String c (compact Str u)).
  { intros u Hu. cbn [compact]. rewrite Hd, Hh, Hn. destruct u as [|d [|e u]]; [done..|].
    by rewrite (Hu d e u). }
  split_and!; [| | | |by apply lead_cons].
  - by rewrite Step, E.
  - done.
  - intros x. rewrite str_app_cons, Step, Hs; [done|].
    intros d e s1 Et. apply not_true_iff_false. intros Hsep'.
    destruct (is_sep_high c d e Hsep') as [Hd' He'].
    destruct (Hl x) as [_ H2]. destruct (H2 d e s1 Et Hd' He') as [s2 ->].
    by rewrite (Hsep d e s2) in Hsep'.
  - intros x. by rewrite str_app_cons, literal_skip.
Qed.

Lemma str_literal n c s r : literal_char c = true -> shorter_done n -> (slen s <= n)%nat ->
  skip_string s = Some r -> exists t, str_done (String c s) r t.
Proof.
  intros Hc IH L Hr. destruct (literal_next c Hc) as [Hn Hd].
  destruct (is_html c) eqn:Hh.
  { destruct (IH s r) as [t' Ht]; [lia|done|]. destruct (u00_chunk c Hh) as (Hk & Hs & k & Ek).
    eexists. eapply str_chunk; [|exact Hk|exact Hs| |exact Ht].
    - cbn [compact]. by rewrite Hd, Hh, Hn.
    - rewrite Ek. apply lead_low, low_backslash. }
  assert (Self : (forall d e s1, s = String d (String e s1) -> is_sep c d e = false) ->
    exists t, str_done (String c s) r t).
  { intros Hsep. destruct (IH s r) as [t' Ht]; [done|done|]. eexists. by apply (str_self c s r t'). }
  destruct s as [|d [|e s]]; [by apply Self..|]. destruct (is_sep c d e) eqn:Hs.
  2: { apply Self. by intros ? ? ? [= <- <- <-]. }
  destruct (is_sep_high c d e Hs) as [H1 H2]. rewrite !skip_high in Hr by done.
  rewrite !slen_cons in L. destruct (IH s r) as [t' Ht]; [lia|done|].
  set (k := if (code e =? 168)%N then "\u2028" else "\u2029").
  exists (k +:+ t'). apply str_chunk with (s := s); [| | | |done].
  - cbn [compact]. by rewrite Hd, Hh, Hn, Hs.
  - unfold k. destruct (code e =? 168)%N; stable_text.
  - intros x. unfold k. by destruct (code e =? 168)%N.
  - unfold k. destruct (code e =? 168)%N; apply lead_low, low_backslash.
Qed.

(** The escapes that are one letter, and the ones of four hexadecimal digits. *)
Lemma str_escape n e s r :
  shorter_done n -> (slen s <= n)%nat ->
  existsb (Ascii.eqb e) [QUOTE; BACKSLASH; "/"; "b"; "f"; "n"; "r"; "t"]%char = true ->
  skip_string s = Some r -> exists t, str_done (String BACKSLASH (String e s)) r t.
Proof.
  intros IH L He Hr. destruct (IH s r L Hr) as [t Ht].
  exists (String BACKSLASH (String e "") +:+ t).
  apply existsb_exists in He as (e' & He & ->%Ascii.eqb_eq).
  cbn in He. apply str_chunk with (s := s); [..|exact Ht];
    repeat destruct He as [<-|He]; try done; try stable_text; try (apply lead_low, low_backslash);
    repeat rewrite compact_plain by done; done.
Qed.

Lemma hex_plain c : is_hex c = true -> literal_char c = true /\ plain Str c = true /\ plain Esc c = true.
Proof. intros H. ascii_cases c; try done. Qed.
Lemma str_unicode n a b d g s r :
  shorter_done n -> (slen s <= n)%nat -> is_hex a && is_hex b && is_hex d && is_hex g = true ->
  skip_string s = Some r ->
  exists t, str_done (String BACKSLASH (String "u" (String a (String b (String d (String g s)))))) r t.
Proof.
  intros IH L He Hr. destruct (IH s r L Hr) as [t Ht]. pose proof He as He'. rewrite !andb_true_iff in He.
  destruct He as [[[Ha Hb] Hd] Hg].
  destruct (hex_plain a Ha) as (La & Pa & _), (hex_plain b Hb) as (Lb & Pb & _),
    (hex_plain d Hd) as (Ld & Pd & _), (hex_plain g Hg) as (Lg & Pg & _).
  assert (St : stable Str Str (String BACKSLASH (String "u" (String a (String b (String d (String g ""))))))).
  { intros x. rewrite !str_app_cons, str_app_nil. do 2 (rewrite compact_plain by done).
    change (cnext (cnext Str BACKSLASH) "u") with Str.
    rewrite compact_plain, (proj1 (literal_next a La)) by done.
    rewrite compact_plain, (proj1 (literal_next b Lb)) by done.
    rewrite compact_plain, (proj1 (literal_next d Ld)) by done.
    by rewrite compact_plain, (proj1 (literal_next g Lg)) by done. }
  eexists. eapply str_chunk; [|exact St| |apply lead_low, low_backslash|exact Ht].
  - apply (St s).
  - intros x. rewrite !str_app_cons, str_app_nil. cbn [skip_string Ascii.eqb Bool.eqb]. 
    change (Ascii.eqb BACKSLASH QUOTE) with false. change (code BACKSLASH <? 32)%N with false.
    cbn. by rewrite He'.
Qed.

(** What compaction makes of a string, scanned again, ends where the string ended, and is
    not changed by compaction. *)
Lemma skip_string_compact : forall n s r, (slen s <= n)%nat -> skip_string s = Some r ->
  exists t, str_done s r t.
Proof.
  induction n as [|n IH]; intros [|c s] r L Hr; rewrite ?slen_cons in L; try done; [lia|].
  assert (IH' : shorter_done n) by exact IH. cbn [skip_string] in Hr.
  destruct (Ascii.eqb c QUOTE) eqn:Eq.
  { apply Ascii.eqb_eq in Eq as ->. injection Hr as ->. exists (String QUOTE "").
    split_and!; [by rewrite compact_plain|done|stable_text|done|apply lead_low, low_quote]. }
  destruct (code c <? 32)%N eqn:E32; [done|].
  destruct (Ascii.eqb c BACKSLASH) eqn:Eb.
  - apply Ascii.eqb_eq in Eb as ->. destruct s as [|e s]; [done|]. rewrite slen_cons in L.
    destruct (Ascii.eqb e "u") eqn:Eu.
    + apply Ascii.eqb_eq in Eu as ->. destruct s as [|a [|b [|d [|g s]]]]; try done.
      rewrite !slen_cons in L. destruct (_ && _) eqn:Eh; [|done].
      apply (str_unicode n); [done|lia|done|done].
    + destruct (existsb _ _) eqn:Ee; [|done]. apply (str_escape n); [done|lia|done|done].
  - apply (str_literal n); [|done|lia|done]. unfold literal_char.
    apply N.ltb_ge in E32. by rewrite Eq, Eb, (proj2 (N.leb_le _ _)).
Qed.

(** *** Numbers *)

Definition num_char (c : ascii) : bool :=
  is_digit c || existsb (Ascii.eqb c) ["-"; "+"; "."; "e"; "E"]%char.
(** What may follow a value inside a text. *)
Definition stop (x : string) : Prop :=
  match x with "" => True | String c _ => c ∈ [","; "}"; "]"; "010"]%char end.

Lemma num_plain c : num_char c = true -> plain Out c = true /\ cnext Out c = Out.
Proof. intros H. ascii_cases c; done. Qed.
Lemma num_stable p : Forall (fun c => num_char c = true) (bytes_of p) -> stable Out Out p.
Proof. intros H. apply stable_plains. eapply Forall_impl; [exact H|]. apply num_plain. Qed.

Definition nodigit (x : string) : Prop := match x with "" => True | String c _ => is_digit c = false end.

(** [f] reads the digits, signs and letters [p] off the head of [s], and off the head of
    any text that goes on as [P] says. *)
Definition scans (P : string -> Prop) (f : string -> option string) (s r p : string) : Prop :=
  s = p +:+ r /\ Forall (fun c => num_char c = true) (bytes_of p) /\
  forall x, P x -> f (p +:+ x) = Some x.

Lemma stop_not c x : stop (String c x) -> num_char c = false.
Proof.
  cbn. rewrite !elem_of_cons. intros [->|[->|[->|[->|H]]]]; [done..|]. by apply elem_of_nil in H.
Qed.
Lemma digit_num c : is_digit c = true -> num_char c = true.
Proof. unfold num_char. by intros ->. Qed.
Lemma stop_nodigit x : stop x -> nodigit x.
Proof.
  destruct x as [|c x]; [done|]. intros H%stop_not. unfold num_char in H. cbn. by destruct (is_digit c).
Qed.
Lemma scans_nil (P : string -> Prop) f s : (forall x, P x -> f x = Some x) -> scans P f s s "".
Proof. intros H. split_and!; [done|constructor|]. intros x Hx. rewrite str_app_nil. auto. Qed.
Lemma scans_cons P f g c s r p : num_char c = true ->
  (forall x, P x -> f (String c (p +:+ x)) = g (p +:+ x)) ->
  scans P g s r p -> scans P f (String c s) r (String c p).
Proof.
  intros Hc Hf (-> & Hp & Hx). split_and!; [done| |].
  - cbn. by apply Forall_cons.
  - intros x Sx. rewrite str_app_cons, Hf by done. by apply Hx.
Qed.
Lemma scans_app P Q f g h s r1 r p1 p2 :
  scans P f s r1 p1 -> scans Q g r1 r p2 ->
  (forall x y, f x = Some y -> h x = g y) -> (forall x, Q x -> P (p2 +:+ x)) ->
  scans Q h s r (p1 +:+ p2).
Proof.
  intros (-> & Hp1 & Hx1) (-> & Hp2 & Hx2) Hh HP. split_and!.
  - by rewrite str_app_assoc.
  - rewrite bytes_of_app. by apply Forall_app.
  - intros x Qx. rewrite str_app_assoc, (Hh _ (p2 +:+ x)); auto.
Qed.

Lemma skip_digits_stop x : nodigit x -> skip_digits x = x.
Proof. destruct x as [|c x]; [done|]. cbn. by intros ->. Qed.
Lemma skip_digits_end s : nodigit (skip_digits s).
Proof. induction s as [|c s IH]; [done|]. cbn [skip_digits]. by destruct (is_digit c) eqn:D. Qed.
Lemma skip_digits_scans s :
  exists p, scans nodigit (fun s => Some (skip_digits s)) s (skip_digits s) p.
Proof.
  induction s as [|c s [p IH]]; cbn [skip_digits].
  - exists "". apply scans_nil. intros x Hx. by rewrite skip_digits_stop.
  - destruct (is_digit c) eqn:D.
    + exists (String c p). eapply scans_cons; [by apply digit_num| |exact IH].
      intros x _. cbn. by rewrite D.
    + exists "". apply scans_nil. intros x Hx. by rewrite skip_digits_stop.
Qed.
Lemma some_digits_scans s r : some_digits s = Some r ->
  nodigit r /\ exists c p, is_digit c = true /\ scans nodigit some_digits s r (String c p).
Proof.
  destruct s as [|c s]; [done|]. cbn. destruct (is_digit c) eqn:D; [|done]. intros [= <-].
  split; [apply skip_digits_end|].
  destruct (skip_digits_scans s) as (p & Hs). exists c, p. split; [done|].
  eapply scans_cons; [by apply digit_num| |exact Hs]. intros x _. cbn. by rewrite D.
Qed.
(** What follows some digits, read on its own or with more behind it. *)
Lemma nodigit_app f s r p x : scans stop f s r p -> nodigit s -> stop x -> nodigit (p +:+ x).
Proof.
  intros (-> & _) Hs Hx. destruct p as [|c p]; [by apply stop_nodigit|exact Hs].
Qed.
Lemma scans_weaken f s r p : scans nodigit f s r p -> scans stop f s r p.
Proof. intros (E & Hp & Hx). split_and!; [done..|]. intros x Sx. by apply Hx, stop_nodigit. Qed.

Lemma skip_exponent_stop x : stop x -> skip_exponent x = Some x.
Proof.
  intros H. destruct x as [|c x]; [done|]. cbn. pose proof (stop_not c x H) as N.
  destruct (Ascii.eqb (lower c) "e") eqn:E; [|done]. exfalso. clear H. ascii_cases c; done.
Qed.
Lemma skip_exponent_scans s r : skip_exponent s = Some r -> exists p, scans stop skip_exponent s r p.
Proof.
  intros H. assert (Nil : s = r -> exists p, scans stop skip_exponent s r p).
  { intros ->. exists "". apply scans_nil, skip_exponent_stop. }
  destruct s as [|c s]; [apply Nil; by injection H|]. cbn in H.
  destruct (Ascii.eqb (lower c) "e") eqn:E; [|apply Nil; by injection H].
  assert (Hc : num_char c = true) by (clear -E; ascii_cases c; done).
  destruct s as [|g s]; [done|]. destruct (Ascii.eqb g "+" || Ascii.eqb g "-") eqn:G;
    destruct (some_digits_scans _ _ H) as (_ & d & p & Hd & Hs%scans_weaken).
  - exists (String c (String g (String d p))).
    apply scans_cons with (g := fun s => some_digits (sdrop 1 s)); [done| |].
    + intros x _. rewrite !str_app_cons. cbn. by rewrite E, G.
    + apply scans_cons with (g := some_digits); [clear -G; ascii_cases g; done|done|done].
  - exists (String c (String d p)). apply scans_cons with (g := some_digits); [done| |done].
    intros x _. rewrite !str_app_cons. cbn. rewrite E.
    replace (Ascii.eqb d "+" || Ascii.eqb d "-") with false; [done|]. clear -Hd. ascii_cases d; done.
Qed.

Lemma skip_fraction_dot t r1 : some_digits t = Some r1 -> skip_fraction (String "." t) = skip_exponent r1.
Proof. intros E. cbn [skip_fraction]. by rewrite E. Qed.
Lemma skip_fraction_other s : (forall t, s <> String "." t) -> skip_fraction s = skip_exponent s.
Proof.
  intros H. destruct s as [|c s]; [done|]. specialize (H s). ascii_cases c; done.
Qed.
Lemma stop_dot x t : stop x -> x <> String "." t.
Proof. intros H ->. by apply stop_not in H. Qed.
Lemma skip_fraction_stop x : stop x -> skip_fraction x = Some x.
Proof.
  intros H. rewrite skip_fraction_other; [by apply skip_exponent_stop|]. intros t. by apply stop_dot.
Qed.
Lemma skip_fraction_scans s r : skip_fraction s = Some r -> exists p, scans stop skip_fraction s r p.
Proof.
  intros H. assert (D : (exists t, s = String "." t) \/ forall t, s <> String "." t).
  { destruct s as [|c s]; [by right|]. destruct (ascii_dec c "."); [left|right]; naive_solver. }
  destruct D as [[t ->]|Hn].
  - cbn [skip_fraction] in H. destruct (some_digits t) as [r1|] eqn:E1; [|done].
    destruct (some_digits_scans _ _ E1) as (N & d & p1 & Hd & Hs1).
    destruct (skip_exponent_scans _ _ H) as (p2 & Hs2). exists (String "." (String d p1 +:+ p2)).
    apply scans_cons with (g := fun s => y ← some_digits s; skip_exponent y); [done| |].
    + intros x Sx. rewrite str_app_assoc. cbn [skip_fraction]. by destruct (some_digits _).
    + eapply scans_app; [exact Hs1|exact Hs2| |].
      * by intros x y ->.
      * intros x Sx. by eapply nodigit_app.
  - rewrite skip_fraction_other in H by done. destruct (skip_exponent_scans _ _ H) as (p & E & Hp & Hx).
    exists p. split_and!; [done..|]. intros x Sx. rewrite <- (Hx x Sx). apply skip_fraction_other. intros t Et.
    destruct p as [|c p]; [by apply (stop_dot x t)|]. rewrite str_app_cons in Et. injection Et as -> _.
    by apply (Hn (p +:+ r)).
Qed.

Definition num_start (c : ascii) : bool := is_digit c || Ascii.eqb c "-".
(** The digits of a number before its fraction. *)
Definition skip_int (s : string) : option string :=
  match s with String "0" r => Some r | _ => some_digits s end.
Lemma skip_number_int c t :
  skip_number (String c t) =
  (if Ascii.eqb c "-" then skip_int t else skip_int (String c t)) ≫= skip_fraction.
Proof.
  unfold skip_number, skip_int. destruct (Ascii.eqb_spec c "-") as [->|N].
  - destruct t as [|c t]; [done|]. ascii_cases c; reflexivity || by destruct (some_digits _).
  - ascii_cases c; reflexivity || (by destruct (some_digits _)) || done.
Qed.
Lemma skip_int_scans s r : skip_int s = Some r ->
  exists P c p, is_digit c = true /\ scans P skip_int s r (String c p) /\
    forall f r' p2 x, scans stop f r r' p2 -> stop x -> P (p2 +:+ x).
Proof.
  intros H. destruct s as [|c s]; [done|]. destruct (ascii_dec c "0") as [->|N].
  - injection H as <-. exists (fun _ => True), "0"%char, "". split_and!; [done| |done].
    split_and!; [done|by repeat constructor|done].
  - assert (E : forall t, skip_int (String c t) = some_digits (String c t)).
    { intros t. unfold skip_int. ascii_cases c; done. }
    rewrite E in H. destruct (some_digits_scans _ _ H) as (Nr & d & p & Hd & E0 & Hp & Hx).
    pose proof E0 as E1. rewrite str_app_cons in E1. injection E1 as <- _.
    exists nodigit, c, p. split_and!; [done| |].
    + split_and!; [done..|]. intros x Nx. rewrite str_app_cons, E, <- str_app_cons. by apply Hx.
    + intros f r' p2 x Hs Sx. by eapply nodigit_app.
Qed.
Lemma int_fraction_scans s r : skip_int s ≫= skip_fraction = Some r ->
  exists c p, is_digit c = true /\ scans stop (fun x => skip_int x ≫= skip_fraction) s r (String c p).
Proof.
  intros H. destruct (skip_int s) as [r1|] eqn:E1; [|done]. cbn in H.
  destruct (skip_int_scans _ _ E1) as (P & c & p & Hc & Hs1 & HP).
  destruct (skip_fraction_scans _ _ H) as (p2 & Hs2). exists c, (p +:+ p2). split; [done|].
  rewrite <- str_app_cons. eapply scans_app; [exact Hs1|exact Hs2| |].
  - by intros x y ->.
  - intros x Sx. by eapply HP.
Qed.
Lemma skip_number_scans s r : skip_number s = Some r ->
  exists c p, num_start c = true /\ scans stop skip_number s r (String c p).
Proof.
  destruct s as [|c s]; [done|]. rewrite skip_number_int. unfold num_start.
  destruct (Ascii.eqb_spec c "-") as [->|N]; intros H;
    destruct (int_fraction_scans _ _ H) as (d & p & Hd & Hs).
  - exists "-"%char, (String d p). split; [done|].
    eapply scans_cons; [done| |exact Hs]. intros x _. by rewrite skip_number_int.
  - exists d, p. split; [by rewrite Hd|]. destruct Hs as (E & Hp & Hx). split_and!; [done..|].
    intros x Sx. rewrite <- (Hx x Sx). rewrite !str_app_cons, skip_number_int.
    destruct (Ascii.eqb_spec d "-") as [->|_]; [done|done].
Qed.
