(* ===== verification/JsonValue.v ===== *)
(** JSON values inside a text: what the scanner needs to read one off the head of a text,
    how objects and arrays are put together, and that a compacted raw value is a value
    compaction leaves alone. *)

From S2P Require Import Prelude GoStrings GoFloat GoJson JsonText.
From Stdlib Require Import Ascii String.
Local Open Scope string_scope.
Local Open Scope list_scope.
Local Open Scope Z_scope.

(** ** Values *)

(** The text [t] is one value that may stand in [d] enclosing objects and arrays. *)
Record vtext (d : N) (t : string) : Prop := {
  vt_head : exists c t', t = String c t' /\ is_ws c = false;
  vt_skip f d' x : (slen t <= f)%nat -> (d' <= d)%N -> stop x -> skip_value f d' (t +:+ x) = Some x
}.

Lemma vtext_not_bracket d t : vtext d t -> forall t', t <> String "]" t'.
Proof.
  intros [_ H] t' ->. specialize (H (slen (String "]" t')) 0%N "" (le_n _) (N.le_0_l _) I).
  by rewrite str_app_nil_r in H.
Qed.
Lemma skip_ws_head c t : is_ws c = false -> skip_ws (String c t) = String c t.
Proof. intros H. cbn. by rewrite H. Qed.

Lemma vtext_string d s : 
  (forall x, skip_string (s +:+ x) = Some x) -> vtext d (String QUOTE s).
Proof.
  intros H. split; [by eexists _, _|]. intros f d' x L _ _. rewrite slen_cons in L.
  destruct f as [|f]; [lia|]. rewrite str_app_cons. cbn. apply H.
Qed.
Lemma vtext_quoted d s : vtext d (String QUOTE (quote s +:+ String QUOTE "")).
Proof. apply vtext_string. intros x. rewrite str_app_assoc, str_app_cons, str_app_nil. apply skip_quote. Qed.

Lemma skip_number_value f d c t : num_start c = true -> skip_value (S f) d (String c t) = skip_number (String c t).
Proof. intros H. cbn [skip_value]. ascii_cases c; done. Qed.
Lemma vtext_number d c p : num_start c = true ->
  (forall x, stop x -> skip_number (String c p +:+ x) = Some x) -> vtext d (String c p).
Proof.
  intros Hc H. split; [exists c, p; split; [done|]; clear -Hc; ascii_cases c; done|].
  intros f d' x L _ Sx. rewrite slen_cons in L. destruct f as [|f]; [lia|].
  rewrite str_app_cons, skip_number_value by done. by apply H.
Qed.
Lemma literal_app w s r : literal w s = Some r -> s = w +:+ r.
Proof.
  unfold literal, HasPrefix. destruct (String.prefix w s) eqn:E; [|done]. intros [= <-].
  revert s E. induction w as [|c w IH]; intros [|d s] E; try done.
  cbn in E. destruct (ascii_dec c d) as [->|]; [|done]. rewrite str_app_cons, slen_cons. cbn [sdrop].
  f_equal. by apply IH.
Qed.
Lemma literal_self w x : literal w (w +:+ x) = Some x.
Proof. unfold literal. by rewrite HasPrefix_app, sdrop_app. Qed.
Definition is_literal (t : string) : Prop := t = "true" \/ t = "false" \/ t = "null".
Lemma vtext_literal d t : is_literal t -> vtext d t.
Proof.
  intros H. split; [destruct H as [->|[->| ->]]; eexists _, _; done|].
  intros f d' x L _ _.
  destruct f as [|f]; [destruct H as [->|[->| ->]]; cbv in L; lia|].
  destruct H as [->|[->| ->]];
    [exact (literal_self "rue" x)|exact (literal_self "alse" x)|exact (literal_self "ull" x)].
Qed.

(** ** Objects and arrays *)

Definition ws_only (w : string) : Prop := Forall (fun c => is_ws c = true) (bytes_of w).
(** The white space before a comma or a closing bracket. *)
Definition gap (w : string) : Prop := ws_only w /\ (w = "" \/ exists w', w = String "010" w').
Lemma gap_nil : gap "".
Proof. split; [constructor|by left]. Qed.
Lemma skip_ws_app w x : ws_only w -> skip_ws (w +:+ x) = skip_ws x.
Proof.
  unfold ws_only. induction w as [|c w IH]; cbn; [done|]. intros [Hc Hw]%Forall_cons.
  rewrite str_app_cons. cbn. by rewrite Hc, IH.
Qed.
Lemma gap_stop w c x : gap w -> c ∈ [","; "}"; "]"]%char -> stop (w +:+ String c x).
Proof.
  intros [_ [->|[w' ->]]] Hc; cbn; [|set_solver]. rewrite !elem_of_cons in Hc. set_solver.
Qed.
Lemma skip_value_ws f d w x : ws_only w -> skip_value f d (w +:+ x) = skip_value f d x.
Proof. intros H. destruct f as [|f]; [done|]. cbn [skip_value]. by rewrite skip_ws_app. Qed.

(** The members of an object after its brace, up to and with the closing one; the
    elements of an array likewise. *)
Definition mtext (d : N) (t : string) : Prop :=
  (forall x, exists u, skip_ws (t +:+ x) = String QUOTE u) /\
  forall f d' x, (slen t <= f)%nat -> (d' <= d)%N -> skip_members f d' (t +:+ x) = Some x.
Definition etext (d : N) (t : string) : Prop :=
  (forall x, exists c u, skip_ws (t +:+ x) = String c u /\ c <> "]"%char) /\
  forall f d' x, (slen t <= f)%nat -> (d' <= d)%N -> skip_elements f d' (t +:+ x) = Some x.

Lemma vtext_object d t : (d < maxNestingDepth)%N -> mtext (d + 1) t -> vtext d (String "{" t).
Proof.
  intros L [Hh Ht]. split; [by eexists _, _|]. intros f d' x Lf Ld Sx. rewrite slen_cons in Lf.
  destruct f as [|f]; [lia|]. rewrite str_app_cons. destruct (Hh x) as [u Eu].
  cbn [skip_value]. change (skip_ws (String "{" ?s)) with (String "{" s). cbn [Ascii.eqb Bool.eqb].
  rewrite (proj2 (N.leb_gt _ _)) by lia. rewrite Eu. cbn. apply Ht; lia.
Qed.
Lemma vtext_array d t : (d < maxNestingDepth)%N -> etext (d + 1) t -> vtext d (String "[" t).
Proof.
  intros L [Hh Ht]. split; [by eexists _, _|]. intros f d' x Lf Ld Sx. rewrite slen_cons in Lf.
  destruct f as [|f]; [lia|]. rewrite str_app_cons. destruct (Hh x) as (c & u & Eu & Hc).
  cbn [skip_value]. change (skip_ws (String "[" ?s)) with (String "[" s). cbn [Ascii.eqb Bool.eqb].
  rewrite (proj2 (N.leb_gt _ _)) by lia. rewrite Eu.
  assert (E : skip_elements f (d' + 1) (t +:+ x) = Some x) by (apply Ht; lia).
  ascii_cases c; done.
Qed.
Lemma vtext_empty d : (d < maxNestingDepth)%N -> vtext d "{}" /\ vtext d "[]".
Proof.
  intros L. split; (split; [by eexists _, _|]); intros f d' x Lf Ld Sx;
    (destruct f as [|f]; [cbv in Lf; lia|]); rewrite !str_app_cons; cbn [skip_value];
    [change (skip_ws (String "{" ?s)) with (String "{" s)|change (skip_ws (String "[" ?s)) with (String "[" s)];
    cbn [Ascii.eqb Bool.eqb]; rewrite (proj2 (N.leb_gt _ _)) by lia; done.
Qed.

Definition key_text (k : string) : Prop := forall x, skip_string (k +:+ x) = Some x.
Definition member (w0 k w1 v w2 : string) (c : ascii) : string :=
  w0 +:+ String QUOTE (k +:+ String ":" (w1 +:+ v +:+ w2 +:+ String c "")).
Definition element (w0 v w2 : string) (c : ascii) : string := w0 +:+ v +:+ w2 +:+ String c "".

Lemma skip_ws_vtext d v x : vtext d v -> skip_ws (v +:+ x) = v +:+ x.
Proof. intros [(c & t & -> & Hc) _]. by rewrite str_app_cons, skip_ws_head. Qed.
Lemma skip_ws_gap w c x : gap w -> is_ws c = false -> skip_ws (w +:+ String c x) = String c x.
Proof. intros [Hw _] Hc. by rewrite skip_ws_app, skip_ws_head. Qed.

Lemma skip_member f d d' w0 k w1 v w2 c x :
  ws_only w0 -> key_text k -> ws_only w1 -> vtext d v -> gap w2 -> c = ","%char \/ c = "}"%char ->
  (slen v <= f)%nat -> (d' <= d)%N ->
  skip_members (S f) d' (member w0 k w1 v w2 c +:+ x) =
  if Ascii.eqb c "," then skip_members f d' x else Some x.
Proof.
  intros H0 Hk H1 Hv H2 Hc Lf Ld. unfold member.
  rewrite !str_app_assoc, !str_app_cons, !str_app_assoc, !str_app_cons, !str_app_assoc, str_app_cons, str_app_nil.
  cbn [skip_members]. rewrite skip_ws_app by done. rewrite skip_ws_head by done.
  cbn [Ascii.eqb QUOTE Bool.eqb]. rewrite Hk. rewrite skip_ws_head by done.
  rewrite skip_value_ws by done.
  rewrite (vt_skip _ _ Hv) by first [done | apply gap_stop; [done|destruct Hc as [->| ->]; set_solver]].
  rewrite skip_ws_gap by first [done | by destruct Hc as [->| ->]].
  by destruct Hc as [->| ->].
Qed.

Lemma skip_element f d d' w0 v w2 c x :
  ws_only w0 -> vtext d v -> gap w2 -> c = ","%char \/ c = "]"%char ->
  (slen v <= f)%nat -> (d' <= d)%N ->
  skip_elements (S f) d' (element w0 v w2 c +:+ x) =
  if Ascii.eqb c "," then skip_elements f d' x else Some x.
Proof.
  intros H0 Hv H2 Hc Lf Ld. unfold element.
  rewrite !str_app_assoc, str_app_cons, str_app_nil.
  cbn [skip_elements]. rewrite skip_value_ws by done.
  rewrite (vt_skip _ _ Hv) by first [done | apply gap_stop; [done|destruct Hc as [->| ->]; set_solver]].
  rewrite skip_ws_gap by first [done | by destruct Hc as [->| ->]].
  by destruct Hc as [->| ->].
Qed.

Lemma member_length w0 k w1 v w2 c : (slen v < slen (member w0 k w1 v w2 c))%nat.
Proof. unfold member. repeat rewrite ?slen_app, ?slen_cons. lia. Qed.
Lemma element_length w0 v w2 c : (slen v < slen (element w0 v w2 c))%nat.
Proof. unfold element. repeat rewrite ?slen_app, ?slen_cons. lia. Qed.
Lemma member_head w0 k w1 v w2 c x : ws_only w0 ->
  exists u, skip_ws (member w0 k w1 v w2 c +:+ x) = String QUOTE u.
Proof.
  intros H. unfold member. rewrite str_app_assoc, str_app_cons, skip_ws_app by done.
  by eexists.
Qed.
Lemma element_head d w0 v w2 c x : ws_only w0 -> vtext d v ->
  exists b u, skip_ws (element w0 v w2 c +:+ x) = String b u /\ b <> "]"%char.
Proof.
  intros H Hv. unfold element. rewrite !str_app_assoc, skip_ws_app by done.
  rewrite (skip_ws_vtext d) by done. destruct (vt_head _ _ Hv) as (b & t & -> & _).
  rewrite str_app_cons. eexists _, _. split; [done|]. intros ->. by apply (vtext_not_bracket _ _ Hv t).
Qed.

Lemma mtext_last d w0 k w1 v w2 : ws_only w0 -> key_text k -> ws_only w1 -> vtext d v -> gap w2 ->
  mtext d (member w0 k w1 v w2 "}").
Proof.
  intros H0 Hk H1 Hv H2. split; [intros x; by apply member_head|]. intros f d' x Lf Ld.
  pose proof (member_length w0 k w1 v w2 "}"). destruct f as [|f]; [lia|].
  rewrite (skip_member f d) by first [done | lia | by right]. done.
Qed.
Lemma mtext_cons d w0 k w1 v w2 t : ws_only w0 -> key_text k -> ws_only w1 -> vtext d v -> gap w2 ->
  mtext d t -> mtext d (member w0 k w1 v w2 "," +:+ t).
Proof.
  intros H0 Hk H1 Hv H2 [_ Ht]. split; [intros x; rewrite str_app_assoc; by apply member_head|].
  intros f d' x Lf Ld. pose proof (member_length w0 k w1 v w2 ","). rewrite slen_app in Lf.
  destruct f as [|f]; [lia|]. rewrite str_app_assoc, (skip_member f d) by first [done | lia | by left].
  apply Ht; lia.
Qed.
Lemma etext_last d w0 v w2 : ws_only w0 -> vtext d v -> gap w2 -> etext d (element w0 v w2 "]").
Proof.
  intros H0 Hv H2. split; [intros x; by eapply element_head|]. intros f d' x Lf Ld.
  pose proof (element_length w0 v w2 "]"). destruct f as [|f]; [lia|].
  rewrite (skip_element f d) by first [done | lia | by right]. done.
Qed.
Lemma etext_cons d w0 v w2 t : ws_only w0 -> vtext d v -> gap w2 ->
  etext d t -> etext d (element w0 v w2 "," +:+ t).
Proof.
  intros H0 Hv H2 [_ Ht]. split; [intros x; rewrite str_app_assoc; by eapply element_head|].
  intros f d' x Lf Ld. pose proof (element_length w0 v w2 ","). rewrite slen_app in Lf.
  destruct f as [|f]; [lia|]. rewrite str_app_assoc, (skip_element f d) by first [done | lia | by left].
  apply Ht; lia.
Qed.

(** ** Compaction of a raw value *)

Definition compacts (s r t : string) : Prop :=
  compact Out s = t +:+ compact Out r /\ stable Out Out t.

Lemma compacts_ws s r t : compacts (skip_ws s) r t -> compacts s r t.
Proof. intros [E Hs]. split; [by rewrite <- compact_skip_ws|done]. Qed.
Lemma compacts_skip s r t u : skip_ws r = u -> compacts s r t -> compact Out s = t +:+ compact Out u.
Proof. intros <- [E _]. by rewrite compact_skip_ws. Qed.
Lemma compacts_literal w s r : Forall (fun c => plain Out c = true /\ cnext Out c = Out) (bytes_of w) ->
  s = w +:+ r -> compacts s r w.
Proof. intros H%stable_plains ->. split; [apply H|done]. Qed.

Definition value_ok (f : nat) : Prop := forall d s r, skip_value f d s = Some r ->
  exists t, compacts s r t /\ vtext d t.
Definition members_ok (f : nat) : Prop := forall d s r, skip_members f d s = Some r ->
  exists t, compacts s r t /\ mtext d t.
Definition elements_ok (f : nat) : Prop := forall d s r, skip_elements f d s = Some r ->
  exists t, compacts s r t /\ etext d t.

(** A punctuation mark between two compacted pieces. *)
Definition mark (c : ascii) : Prop := plain Out c = true /\ cnext Out c = Out.
Lemma compacts_mark c s r t : mark c -> compacts s r t -> compacts (String c s) r (String c t).
Proof.
  intros [Hp Hn] [E Hs]. split.
  - by rewrite compact_plain, Hn, E by done.
  - intros x. by rewrite str_app_cons, compact_plain, Hn, Hs by done.
Qed.
Lemma compacts_end c r : mark c -> compacts (String c r) r (String c "").
Proof. intros H. apply compacts_mark; [done|split; [done|apply stable_nil]]. Qed.
Lemma compacts_app s m r t u : compacts s m t -> compacts m r u -> compacts s r (t +:+ u).
Proof.
  intros [E1 H1] [E2 H2]. split; [by rewrite E1, E2, str_app_assoc|by eapply stable_app].
Qed.
Lemma compacts_string s r : skip_string s = Some r ->
  exists t, compacts (String QUOTE s) r (String QUOTE t) /\ key_text t.
Proof.
  intros H. destruct (skip_string_compact (slen s) s r (le_n _) H) as (t & E & _ & Hs & Hx & _).
  exists t. split; [|done]. split.
  - rewrite compact_plain by done. by rewrite str_app_cons, <- E.
  - intros x. rewrite !str_app_cons, compact_plain by done. by rewrite <- Hs.
Qed.

Lemma member_nil k v c :
  member "" k "" v "" c = (String QUOTE k +:+ String ":" v) +:+ String c "".
Proof. unfold member. by autorewrite with gostr. Qed.

Lemma members_ok_S f : value_ok f -> members_ok f -> members_ok (S f).
Proof.
  intros IHv IHm d s r H. cbn [skip_members] in H.
  destruct (skip_ws s) as [|c t0] eqn:Es; [done|]. destruct (Ascii.eqb_spec c QUOTE) as [->|]; [|done].
  destruct (skip_string t0) as [r1|] eqn:E1; [|done].
  destruct (compacts_string _ _ E1) as (k & C1 & Hk).
  destruct (skip_ws r1) as [|c1 r2] eqn:E2; [done|].
  assert (c1 = ":"%char) as -> by (ascii_cases c1; done). cbn in H.
  destruct (skip_value f d r2) as [r3|] eqn:E3; [|done]. destruct (IHv _ _ _ E3) as (v & C3 & Hv).
  destruct (skip_ws r3) as [|c3 r4] eqn:E4; [done|].
  assert (C : compacts s (String c3 r4) (String QUOTE k +:+ String ":" v)).
  { apply compacts_ws. rewrite Es. eapply compacts_app; [exact C1|]. apply compacts_ws. rewrite E2.
    apply compacts_mark; [done|]. destruct C3 as [C3 S3]. split; [|done].
    by rewrite C3, <- (compact_skip_ws r3), E4. }
  destruct (ascii_dec c3 "}") as [->|N].
  - injection H as ->. exists (member "" k "" v "" "}"). split.
    + rewrite member_nil. eapply compacts_app; [exact C|by apply compacts_end].
    + apply mtext_last; [constructor|done|constructor|done|apply gap_nil].
  - assert (c3 = ","%char) as -> by (ascii_cases c3; done). cbn in H.
    destruct (IHm _ _ _ H) as (m & Cm & Hm). exists (member "" k "" v "" "," +:+ m). split.
    + rewrite member_nil, (str_app_assoc (_ +:+ _)).
      eapply compacts_app; [exact C|by apply compacts_mark].
    + apply mtext_cons; [constructor|done|constructor|done|apply gap_nil|done].
Qed.

Lemma elements_ok_S f : value_ok f -> elements_ok f -> elements_ok (S f).
Proof.
  intros IHv IHe d s r H. cbn [skip_elements] in H.
  destruct (skip_value f d s) as [r1|] eqn:E1; [|done]. destruct (IHv _ _ _ E1) as (v & [Cv Sv] & Hv).
  destruct (skip_ws r1) as [|c r2] eqn:E2; [done|].
  assert (C : compacts s (String c r2) v) by (split; [by rewrite Cv, <- (compact_skip_ws r1), E2|done]).
  destruct (ascii_dec c "]") as [->|N].
  - injection H as ->. exists (element "" v "" "]"). split.
    + unfold element. rewrite !str_app_nil. eapply compacts_app; [exact C|by apply compacts_end].
    + apply etext_last; [constructor|done|apply gap_nil].
  - assert (c = ","%char) as -> by (ascii_cases c; done). cbn in H.
    destruct (IHe _ _ _ H) as (m & Cm & Hm). exists (element "" v "" "," +:+ m). split.
    + unfold element. rewrite !str_app_nil, str_app_assoc.
      eapply compacts_app; [exact C|by apply compacts_mark].
    + apply etext_cons; [constructor|done|apply gap_nil|done].
Qed.

Lemma starts_with (c : ascii) u : (exists t, u = String c t) \/ (forall t, u <> String c t).
Proof.
  destruct u as [|d u]; [by right|]. destruct (ascii_dec d c) as [->|N]; [left; by eexists|right].
  intros t [= E _]. done.
Qed.

(** An opening bracket: either the closing one follows, or the contents do. *)
Lemma object_ok f d t r : members_ok f ->
  (if (maxNestingDepth <=? d)%N then None else
   match skip_ws t with String "}" r => Some r | _ => skip_members f (d + 1) t end) = Some r ->
  exists u, compacts (String "{" t) r u /\ vtext d u.
Proof.
  intros IHm H. destruct (N.leb_spec maxNestingDepth d) as [|Ed]; [done|].
  destruct (starts_with "}" (skip_ws t)) as [[t1 Et]|Et].
  - rewrite Et in H. injection H as ->. exists "{}". split; [|by apply vtext_empty].
    apply compacts_mark; [done|]. apply compacts_ws. rewrite Et. by apply compacts_end.
  - assert (H' : skip_members f (d + 1) t = Some r).
    { destruct (skip_ws t) as [|c t1]; [done|]. specialize (Et t1). clear -H Et. ascii_cases c; done. }
    destruct (IHm _ _ _ H') as (m & Cm & Hm). exists (String "{" m).
    split; [by apply compacts_mark|by apply vtext_object].
Qed.
Lemma array_ok f d t r : elements_ok f ->
  (if (maxNestingDepth <=? d)%N then None else
   match skip_ws t with String "]" r => Some r | _ => skip_elements f (d + 1) t end) = Some r ->
  exists u, compacts (String "[" t) r u /\ vtext d u.
Proof.
  intros IHm H. destruct (N.leb_spec maxNestingDepth d) as [|Ed]; [done|].
  destruct (starts_with "]" (skip_ws t)) as [[t1 Et]|Et].
  - rewrite Et in H. injection H as ->. exists "[]". split; [|by apply vtext_empty].
    apply compacts_mark; [done|]. apply compacts_ws. rewrite Et. by apply compacts_end.
  - assert (H' : skip_elements f (d + 1) t = Some r).
    { destruct (skip_ws t) as [|c t1]; [done|]. specialize (Et t1). clear -H Et. ascii_cases c; done. }
    destruct (IHm _ _ _ H') as (m & Cm & Hm). exists (String "[" m).
    split; [by apply compacts_mark|by apply vtext_array].
Qed.

Lemma literal_ok w c t d r : is_literal (String c w) -> literal w t = Some r ->
  exists u, compacts (String c t) r u /\ vtext d u.
Proof.
  intros Hl ->%literal_app. exists (String c w). split; [|by apply vtext_literal].
  apply compacts_literal; [|done]. destruct Hl as [E|[E|E]]; injection E as -> ->; by repeat constructor.
Qed.
Lemma number_ok d s r : skip_number s = Some r -> exists u, compacts s r u /\ vtext d u.
Proof.
  intros H. destruct (skip_number_scans s r H) as (c & p & Hc & E & Hp & Hx). exists (String c p). split.
  - split; [|by apply num_stable]. rewrite E. by apply num_stable.
  - by apply vtext_number.
Qed.

Lemma value_ok_S f : members_ok f -> elements_ok f -> value_ok (S f).
Proof.
  intros IHm IHe d s r H. cbn [skip_value] in H.
  cut (exists t, compacts (skip_ws s) r t /\ vtext d t).
  { intros (t & C & V). exists t. split; [by apply compacts_ws|done]. }
  destruct (skip_ws s) as [|c t]; [done|].
  destruct (Ascii.eqb_spec c "{") as [->|_]; [by apply (object_ok f)|].
  destruct (Ascii.eqb_spec c "[") as [->|_]; [by apply (array_ok f)|].
  destruct (Ascii.eqb_spec c QUOTE) as [->|_].
  { destruct (compacts_string _ _ H) as (k & C & Hk). exists (String QUOTE k).
    split; [done|by apply vtext_string]. }
  destruct (Ascii.eqb_spec c "t") as [->|_]; [apply (literal_ok "rue"); [by left|done]|].
  destruct (Ascii.eqb_spec c "f") as [->|_]; [apply (literal_ok "alse"); [by right; left|done]|].
  destruct (Ascii.eqb_spec c "n") as [->|_]; [apply (literal_ok "ull"); [by right; right|done]|].
  by apply number_ok.
Qed.

Lemma scan_ok f : value_ok f /\ members_ok f /\ elements_ok f.
Proof.
  induction f as [|f (IHv & IHm & IHe)]; [by repeat split; intros d s r|].
  split_and!; [by apply value_ok_S|by apply members_ok_S|by apply elements_ok_S].
Qed.

Lemma skip_ws_end s : skip_ws s = "" -> compact Out s = "".
Proof. intros E. by rewrite <- compact_skip_ws, E. Qed.

(** Compaction keeps valid text valid, to the same depth, and compacting again changes
    nothing. *)
Lemma compact_valid f d raw r : skip_value f d raw = Some r -> skip_ws r = "" ->
  vtext d (compact Out raw) /\ compact Out (compact Out raw) = compact Out raw.
Proof.
  intros H Hr. destruct (scan_ok f) as [Hv _]. destruct (Hv _ _ _ H) as (t & [E S] & V).
  rewrite (skip_ws_end r Hr), str_app_nil_r in E. rewrite E. split; [done|].
  rewrite <- (str_app_nil_r t) at 1. by rewrite S, str_app_nil_r.
Qed.
