(* ===== verification/JsonStruct.v ===== *)
(** [json.Marshal], [json.MarshalIndent] and [json.Unmarshal] on structs, slices and maps:
    the texts they build, the fields and elements they read into, and that what was
    written reads back. *)

From S2P Require Import Prelude GoStrings GoTime TimeText GoFloat GoJson JsonText JsonValue.
From Stdlib Require Import Ascii String.
Local Open Scope string_scope.
Local Open Scope list_scope.
Local Open Scope Z_scope.

(** ** Encoding *)

(** The text of a value: compact ([None]), or indented by two spaces per level from the
    given level on. *)
Definition Json := option nat -> string.

Fixpoint spaces (n : nat) : string :=
  match n with O => "" | S n => String " " (String " " (spaces n)) end.
Definition newline (ind : option nat) : string :=
  match ind with None => "" | Some n => String "010" (spaces n) end.
Definition after_colon (ind : option nat) : string :=
  match ind with None => "" | Some _ => " " end.
Definition deeper (ind : option nat) : option nat := S <$> ind.

Definition json_lit (t : string) : Json := fun _ => t.
Definition json_key (k : string) : string := quote k +:+ String QUOTE "".
Definition json_string (s : string) : Json := json_lit (String QUOTE (json_key s)).
Definition json_int (z : Z) : Json := json_lit (FormatInt z).
Definition json_uint (z : Z) : Json := json_lit (FormatUint z).
Definition json_bool (b : bool) : Json := json_lit (FormatBool b).

Fixpoint obj_body (ind : option nat) (l : list (string * Json)) : string :=
  match l with
  | [] => ""
  | [(k, v)] => member (newline (deeper ind)) (json_key k) (after_colon ind) (v (deeper ind))
                  (newline ind) "}"
  | (k, v) :: l => member (newline (deeper ind)) (json_key k) (after_colon ind) (v (deeper ind))
                     "" "," +:+ obj_body ind l
  end.
Definition json_obj (l : list (string * Json)) : Json := fun ind =>
  match l with [] => "{}" | _ => String "{" (obj_body ind l) end.
Fixpoint arr_body (ind : option nat) (l : list Json) : string :=
  match l with
  | [] => ""
  | [v] => element (newline (deeper ind)) (v (deeper ind)) (newline ind) "]"
  | v :: l => element (newline (deeper ind)) (v (deeper ind)) "" "," +:+ arr_body ind l
  end.
Definition json_arr (l : list Json) : Json := fun ind =>
  match l with [] => "[]" | _ => String "[" (arr_body ind l) end.

(** A field with [omitempty]. *)
Definition omitempty (empty : bool) (k : string) (v : Json) : list (string * Json) :=
  if empty then [] else [(k, v)].

(** The entries of a map, by key. *)
Definition by_key {A} (a b : string * A) : Prop := String.leb a.1 b.1.
#[export] Instance by_key_dec {A} (a b : string * A) : Decision (by_key a b).
Proof. unfold by_key. apply _. Defined.
Definition sorted_entries {A} (m : gmap string A) : list (string * A) :=
  merge_sort by_key (map_to_list m).
Definition json_map {A} (enc : A -> Json) (m : gmap string A) : Json :=
  json_obj (prod_map id enc <$> sorted_entries m).
Definition json_strings (l : list string) : Json := json_arr (json_string <$> l).

Definition Marshal (v : Json) : string := v None.
Definition MarshalIndent (v : Json) : string := v (Some O).

(** ** Decoding *)

(** A decoder is given the text of a value and what its target holds. *)
Definition Dec (A : Type) := string -> A -> option A.

Definition is_null (raw : string) : bool := String.eqb raw "null".

(** The elements of an array text after its opening bracket. *)
Fixpoint elements_of (fuel : nat) (s : string) : list string :=
  match fuel with
  | O => []
  | S f =>
      match value_text (S (slen s)) 1 s with
      | Some (v, r) =>
          v :: match skip_ws r with String "," r2 => elements_of f r2 | _ => [] end
      | None => []
      end
  end.
Definition array_elements (t : string) : list string :=
  match skip_ws t with String "]" _ => [] | _ => elements_of (slen t) t end.

Definition dec_string : Dec string := fun raw cur =>
  match raw with
  | String c t => if Ascii.eqb c QUOTE then Some (unquote (slen t) t)
                  else if is_null raw then Some cur else None
  | EmptyString => None
  end.
Definition dec_bool : Dec bool := fun raw cur =>
  if String.eqb raw "true" then Some true else if String.eqb raw "false" then Some false
  else if is_null raw then Some cur else None.
(** A JSON number into an integer of the given range. *)
Definition dec_int (lo hi : Z) : Dec Z := fun raw cur =>
  if is_null raw then Some cur else
  match raw with
  | String c _ =>
      if num_start c then
        z ← ParseInt raw; if (lo <=? z) && (z <=? hi) then Some z else None
      else None
  | EmptyString => None
  end.
Definition dec_int64 : Dec Z := dec_int (- 2 ^ 63) (2 ^ 63 - 1).
Definition dec_int32 : Dec Z := dec_int (- 2 ^ 31) (2 ^ 31 - 1).
Definition dec_uint64 : Dec Z := fun raw cur =>
  if is_null raw then Some cur else
  match raw with
  | String c _ =>
      if is_digit c then
        z ← digits_value 0 raw; if z <? 2 ^ 64 then Some z else None
      else None
  | EmptyString => None
  end.
Definition dec_raw : Dec string := fun raw _ => Some raw.
Definition dec_time : Dec Time := UnmarshalTime.

(** A slice: the elements already there are decoded into, [null] empties it. *)
Fixpoint dec_elems {A} (dec : Dec A) (zero : A) (es : list string) (cur : list A) : option (list A) :=
  match es with
  | [] => Some []
  | e :: es => x ← dec e (default zero (head cur)); xs ← dec_elems dec zero es (tail cur); Some (x :: xs)
  end.
Definition dec_list {A} (dec : Dec A) (zero : A) : Dec (list A) := fun raw cur =>
  match raw with
  | String "[" t => dec_elems dec zero (array_elements t) cur
  | _ => if is_null raw then Some [] else None
  end.

(** A map: every member is decoded into a fresh element and stored under its key. *)
Definition dec_entries {A} (dec : Dec A) (zero : A) (kvs : list (string * string))
    (cur : gmap string A) : option (gmap string A) :=
  fold_left (fun acc kv => m ← acc; x ← dec kv.2 zero; Some (<[kv.1 := x]> m)) kvs (Some cur).
Definition dec_map {A} (dec : Dec A) (zero : A) : Dec (gmap string A) := fun raw cur =>
  match raw with
  | String "{" t => dec_entries dec zero (members (slen t) t) cur
  | _ => if is_null raw then Some ∅ else None
  end.

(** [foldName], for comparing with a name in ASCII: letters lose their case, and the long
    s and the Kelvin sign become the letters they fold to. *)
Fixpoint fold_name (s : string) : string :=
  match s with
  | String c s' =>
      match s' with
      | String d s2 =>
          if (code c =? 197)%N && (code d =? 191)%N then String "s" (fold_name s2)
          else match s2 with
               | String e s3 =>
                   if (code c =? 226)%N && (code d =? 132)%N && (code e =? 170)%N
                   then String "k" (fold_name s3) else String (lower c) (fold_name s')
               | EmptyString => String (lower c) (fold_name s')
               end
      | EmptyString => String (lower c) ""
      end
  | EmptyString => ""
  end.

Section Struct.
Context {A : Type}.

(** The field a key names: by its exact name, or else the first by its folded one. *)
Definition find_field (fields : list (string * Dec A)) (key : string) : option (Dec A) :=
  match List.find (fun f => String.eqb f.1 key) fields with
  | Some f => Some f.2
  | None => snd <$> List.find (fun f => String.eqb (fold_name f.1) (fold_name key)) fields
  end.
Definition dec_field (fields : list (string * Dec A)) (acc : option A) (kv : string * string) : option A :=
  a ← acc;
  match find_field fields kv.1 with Some dec => dec kv.2 a | None => Some a end.
Definition dec_members (fields : list (string * Dec A)) (kvs : list (string * string)) (cur : A) : option A :=
  fold_left (dec_field fields) kvs (Some cur).
Definition dec_struct (fields : list (string * Dec A)) : Dec A := fun raw cur =>
  match raw with
  | String "{" t => dec_members fields (members (slen t) t) cur
  | _ => if is_null raw then Some cur else None
  end.
End Struct.

(** A field seen through its reader and writer. *)
Definition field {A B} (get : A -> B) (set : B -> A -> A) (dec : Dec B) : Dec A := fun raw a =>
  b ← dec raw (get a); Some (set b a).

(** [json.Unmarshal] into a variable that holds [zero]. *)
Definition trim_ws (s : string) : string :=
  match value_text (S (slen s)) 0 s with Some (v, _) => v | None => "" end.
Definition Unmarshal {A} (dec : Dec A) (zero : A) (s : string) : option A :=
  if json_valid s then dec (trim_ws s) zero else None.

Example unmarshal_fields :
  let fs := [("a", field fst (fun x p => (x, p.2)) dec_int64);
             ("b", field snd (fun y p => (p.1, y)) (dec_list dec_string ""))] in
  map (Unmarshal (dec_struct fs) (7, ["z"]))
    [dq "{'B':['x',null], 'q':{}, 'a':5}"; dq "{'b':null,'a':null}"; dq "{'a':1.5}"; "null"; "[]";
     dq "{'b':[null,'y']} x"; dq "{'b':[null,'y']}"]
  = [Some (5, ["x"; ""]); Some (7, []); None; Some (7, ["z"]); None; None; Some (7, ["z"; "y"])].
Proof. vm_compute. reflexivity. Qed.
Example marshal_indent :
  MarshalIndent (json_obj [("a", json_strings ["x"; "<"]); ("b", json_strings [])])
  = dq "{" +:+ String "010" (dq "  'a': [" +:+ String "010" (dq "    'x'," +:+ String "010"
      (dq "    '\u003c'" +:+ String "010" (dq "  ]," +:+ String "010" (dq "  'b': []" +:+ String "010" "}"))))).
Proof. vm_compute. reflexivity. Qed.

(** ** What is written is valid JSON *)

(** [v] is one value, however it is laid out, for up to [d] enclosing brackets. *)
Definition jval (d : N) (v : Json) : Prop := forall ind, vtext d (v ind).

Create HintDb json.

Lemma ws_spaces n : ws_only (spaces n).
Proof. unfold ws_only. induction n as [|n IH]; cbn; repeat constructor; done. Qed.
Lemma gap_newline ind : gap (newline ind).
Proof.
  destruct ind as [n|]; [|apply gap_nil]. split; [constructor; [done|apply ws_spaces]|].
  right. by eexists.
Qed.
Lemma ws_newline ind : ws_only (newline ind).
Proof. apply gap_newline. Qed.
Lemma ws_after_colon ind : ws_only (after_colon ind).
Proof. destruct ind; repeat constructor. Qed.
#[export] Hint Resolve gap_newline ws_newline ws_after_colon gap_nil : json.
Lemma key_text_json k : key_text (json_key k).
Proof. intros x. unfold json_key. rewrite str_app_assoc. apply skip_quote. Qed.
#[export] Hint Resolve key_text_json : json.

Lemma jval_string d s : jval d (json_string s).
Proof. intros ind. apply vtext_quoted. Qed.
Lemma jval_lit d t : vtext d t -> jval d (json_lit t).
Proof. intros H ind. exact H. Qed.
Lemma jval_bool d b : jval d (json_bool b).
Proof. apply jval_lit, vtext_literal. destruct b; [by left|by right; left]. Qed.

Lemma mtext_body d ind l : l <> [] -> Forall (fun kv => jval d kv.2) l -> mtext d (obj_body ind l).
Proof.
  induction l as [|[k v] l IH]; [done|]. intros _ [Hv Hl]%Forall_cons. cbn in Hv.
  destruct l as [|kv l]; [apply mtext_last; auto with json|].
  apply mtext_cons; auto with json.
Qed.
Lemma etext_body d ind l : l <> [] -> Forall (jval d) l -> etext d (arr_body ind l).
Proof.
  induction l as [|v l IH]; [done|]. intros _ [Hv Hl]%Forall_cons.
  destruct l as [|v' l]; [apply etext_last; auto with json|].
  apply etext_cons; auto with json.
Qed.
Lemma jval_obj d l : (d < maxNestingDepth)%N -> Forall (fun kv => jval (d + 1) kv.2) l -> jval d (json_obj l).
Proof.
  intros L H ind. unfold json_obj. destruct l as [|kv l]; [by apply vtext_empty|].
  apply vtext_object; [done|]. by apply mtext_body.
Qed.
Lemma jval_arr d l : (d < maxNestingDepth)%N -> Forall (jval (d + 1)) l -> jval d (json_arr l).
Proof.
  intros L H ind. unfold json_arr. destruct l as [|v l]; [by apply vtext_empty|].
  apply vtext_array; [done|]. by apply etext_body.
Qed.

(** Decimal numbers. *)
Lemma digits_scan s x : Forall (fun c => is_digit c = true) (bytes_of s) -> stop x ->
  skip_digits (s +:+ x) = x.
Proof.
  intros H Sx. induction s as [|c s IH]; [by apply skip_digits_stop, stop_nodigit|].
  cbn in H. apply Forall_cons in H as [Hc H]. rewrite str_app_cons. cbn. rewrite Hc. by apply IH.
Qed.
(** No leading zero: a zero stands alone. *)
Definition decimal (s : string) : Prop :=
  exists c t, s = String c t /\ is_digit c = true /\ Forall (fun c => is_digit c = true) (bytes_of t) /\
    (c = "0"%char -> t = "").
Lemma decimal_int s x : decimal s -> stop x -> skip_int (s +:+ x) ≫= skip_fraction = Some x.
Proof.
  intros (c & t & -> & Hc & Ht & H0) Sx. rewrite str_app_cons. unfold skip_int.
  destruct (ascii_dec c "0") as [->|N].
  - rewrite H0 by done. cbn. by apply skip_fraction_stop.
  - assert (E : some_digits (String c (t +:+ x)) = Some x) by (cbn; rewrite Hc; f_equal; by apply digits_scan).
    rewrite E. ascii_cases c; try done; cbn; by apply skip_fraction_stop.
Qed.
Lemma jval_decimal d s : decimal s -> jval d (json_lit s).
Proof.
  intros H. apply jval_lit. pose proof H as (c & t & -> & Hc & _).
  apply vtext_number; [by unfold num_start; rewrite Hc|]. intros x Sx.
  rewrite str_app_cons, skip_number_int, <- str_app_cons.
  destruct (Ascii.eqb_spec c "-") as [->|_]; [done|]. by apply decimal_int.
Qed.
Lemma jval_negative d s : decimal s -> jval d (json_lit (String "-" s)).
Proof.
  intros H. apply jval_lit, vtext_number; [done|]. intros x Sx.
  rewrite str_app_cons, skip_number_int. by apply decimal_int.
Qed.

Lemma pretty_char n : (n < 10)%N -> Z.of_N (code (pretty_N_char n) - 48) = Z.of_N n.
Proof. intros H. destruct n as [|p]; [done|]. by do 4 (destruct p as [p|p|]; try done; try lia). Qed.

Lemma pretty_go_value x s : digits_value 0 (pretty_N_go x s) = digits_value (Z.of_N x) s.
Proof.
  revert s. induction (N.lt_wf_0 x) as [x _ IH]. intros s.
  destruct (N.eq_0_gt_0_cases x) as [->|L]; [by rewrite pretty_N_go_0|].
  rewrite pretty_N_go_step, IH by (done || by apply N.div_lt). cbn [digits_value].
  assert (x mod 10 < 10)%N by (by apply N.mod_lt).
  rewrite pretty_N_char_digit, pretty_char by done. f_equal.
  zify; Z.to_euclidean_division_equations; lia.
Qed.
Lemma pretty_go_head x s : (0 < x)%N -> exists c t, pretty_N_go x s = String c t /\ c <> "0"%char.
Proof.
  revert s. induction (N.lt_wf_0 x) as [x _ IH]. intros s L. rewrite pretty_N_go_step by done.
  destruct (N.eq_0_gt_0_cases (x / 10)) as [E|L']; [|apply IH; [by apply N.div_lt|done]].
  rewrite E, pretty_N_go_0. eexists _, _. split; [done|].
  assert (Hx : (0 < x < 10)%N) by (zify; Z.to_euclidean_division_equations; lia).
  rewrite N.mod_small by lia. clear -Hx. destruct x as [|p]; [lia|].
  by do 4 (destruct p as [p|p|]; try done; try lia).
Qed.
Lemma pretty_decimal (n : N) : decimal (pretty n) /\ digits_value 0 (pretty n) = Some (Z.of_N n).
Proof.
  pose proof (FormatUint_digits (Z.of_N n)) as D. unfold FormatUint in D. rewrite N2Z.id in D.
  unfold pretty, pretty_N in *. case_decide as E; [subst n; split; [|done]; by exists "0"%char, ""|].
  split; [|by rewrite pretty_go_value].
  destruct (pretty_go_head n "") as (c & t & Ep & Hc); [lia|]. rewrite Ep in D |- *. cbn in D.
  apply Forall_cons in D as [Dc Dt]. by exists c, t.
Qed.
Lemma FormatUint_decimal z : decimal (FormatUint z).
Proof. apply pretty_decimal. Qed.

Lemma FormatInt_cases z :
  (0 <= z /\ FormatInt z = FormatUint z) \/ (z < 0 /\ FormatInt z = String "-" (FormatUint (- z))).
Proof.
  unfold FormatInt, FormatUint. destruct z as [|p|p]; [left; split; [lia|done]..|].
  right. split; [lia|done].
Qed.

Lemma jval_int d z : jval d (json_int z).
Proof.
  unfold json_int. destruct (FormatInt_cases z) as [[_ ->]|[_ ->]].
  - apply jval_decimal, FormatUint_decimal.
  - apply jval_negative, FormatUint_decimal.
Qed.
Lemma jval_uint d z : jval d (json_uint z).
Proof. apply jval_decimal, FormatUint_decimal. Qed.

(** ** Reading back what was written *)

Lemma value_text_v d d' v x f : vtext d v -> (d' <= d)%N -> stop x -> (slen v <= f)%nat ->
  value_text f d' (v +:+ x) = Some (v, x).
Proof.
  intros H L Sx Lf. unfold value_text. rewrite (skip_ws_vtext d) by done.
  rewrite (vt_skip _ _ H) by done. rewrite slen_app.
  replace (slen v + slen x - slen x)%nat with (slen v) by lia. by rewrite stake_app.
Qed.
Lemma value_text_gap d v w x f : vtext d v -> (1 <= d)%N -> ws_only w -> stop x -> (slen v <= f)%nat ->
  value_text f 1 (w +:+ v +:+ x) = Some (v, x).
Proof.
  intros H L Hw Sx Lf. unfold value_text. rewrite skip_ws_app by done.
  by apply (value_text_v d).
Qed.

Lemma unquote_key k x : unquote (slen (json_key k +:+ x)) (json_key k +:+ x) = sanitize k.
Proof.
  unfold json_key. rewrite str_app_assoc. apply unquote_quote. rewrite slen_app. lia.
Qed.

Lemma members_member f w0 k w1 v w2 c x :
  ws_only w0 -> ws_only w1 -> vtext 1 v -> gap w2 -> c = ","%char \/ c = "}"%char ->
  members (S f) (member w0 (json_key k) w1 v w2 c +:+ x) =
  (sanitize k, v) :: if Ascii.eqb c "," then members f x else [].
Proof.
  intros H0 H1 Hv H2 Hc. unfold member. autorewrite with gostr. cbn [members].
  rewrite skip_ws_app, skip_ws_head by done. cbn [Ascii.eqb QUOTE Bool.eqb].
  rewrite key_text_json, skip_ws_head by done.
  rewrite (value_text_gap 1 v w1 (w2 +:+ String c x)); [|done|done|done| |repeat rewrite slen_app; lia].
  2: { apply gap_stop; [done|]. destruct Hc as [->| ->]; set_solver. }
  rewrite unquote_key. rewrite skip_ws_gap by first [done | by destruct Hc as [->| ->]].
  by destruct Hc as [->| ->].
Qed.
Lemma members_body ind l x : Forall (fun kv => jval 1 kv.2) l ->
  forall f, (List.length l <= f)%nat ->
  members f (obj_body ind l +:+ x) = match l with [] => members f x | _ =>
    (fun kv => (sanitize kv.1, kv.2 (deeper ind))) <$> l end.
Proof.
  induction l as [|[k v] l IH]; intros H f L; [done|]. apply Forall_cons in H as [Hv Hl]. cbn in Hv, L.
  destruct f as [|f]; [lia|]. destruct l as [|kv l].
  - cbn [obj_body]. by rewrite members_member by auto with json.
  - change (obj_body ind ((k, v) :: kv :: l)) with
      (member (newline (deeper ind)) (json_key k) (after_colon ind) (v (deeper ind)) "" ","
       +:+ obj_body ind (kv :: l)).
    rewrite str_app_assoc, members_member by auto with json. cbn [Ascii.eqb Bool.eqb].
    rewrite IH by (done || cbn in *; lia). done.
Qed.

Lemma obj_body_length ind l : (List.length l <= slen (obj_body ind l))%nat.
Proof.
  induction l as [|[k v] l IH]; [cbn; lia|]. destruct l as [|kv l].
  - cbn [obj_body List.length]. unfold member. repeat rewrite ?slen_app, ?slen_cons. lia.
  - change (obj_body ind ((k, v) :: kv :: l)) with
      (member (newline (deeper ind)) (json_key k) (after_colon ind) (v (deeper ind)) "" ","
       +:+ obj_body ind (kv :: l)).
    unfold member. repeat rewrite ?slen_app, ?slen_cons. cbn [List.length] in IH |- *. lia.
Qed.
Lemma json_obj_members l ind : Forall (fun kv => jval 1 kv.2) l ->
  exists t, json_obj l ind = String "{" t /\
    members (slen t) t = (fun kv => (sanitize kv.1, kv.2 (deeper ind))) <$> l.
Proof.
  intros H. unfold json_obj. destruct l as [|kv l]; [by exists "}"|]. eexists. split; [done|].
  rewrite <- (str_app_nil_r (obj_body ind (kv :: l))) at 2.
  rewrite members_body by (done || apply obj_body_length). done.
Qed.

Lemma elements_element f w0 v w2 c x :
  ws_only w0 -> vtext 1 v -> gap w2 -> c = ","%char \/ c = "]"%char ->
  elements_of (S f) (element w0 v w2 c +:+ x) = v :: if Ascii.eqb c "," then elements_of f x else [].
Proof.
  intros H0 Hv H2 Hc. unfold element. autorewrite with gostr. cbn [elements_of].
  rewrite (value_text_gap 1 v w0 (w2 +:+ String c x)); [|done|done|done| |repeat rewrite slen_app; lia].
  2: { apply gap_stop; [done|]. destruct Hc as [->| ->]; set_solver. }
  rewrite skip_ws_gap by first [done | by destruct Hc as [->| ->]].
  by destruct Hc as [->| ->].
Qed.
Lemma elements_body ind l x : Forall (jval 1) l -> l <> [] ->
  forall f, (List.length l <= f)%nat ->
  elements_of f (arr_body ind l +:+ x) = (fun v => v (deeper ind)) <$> l.
Proof.
  induction l as [|v l IH]; intros H N f L; [done|]. apply Forall_cons in H as [Hv Hl]. cbn in L.
  destruct f as [|f]; [lia|]. destruct l as [|v' l].
  - cbn [arr_body]. by rewrite elements_element by auto with json.
  - change (arr_body ind (v :: v' :: l)) with
      (element (newline (deeper ind)) (v (deeper ind)) "" "," +:+ arr_body ind (v' :: l)).
    rewrite str_app_assoc, elements_element by auto with json. cbn [Ascii.eqb Bool.eqb].
    rewrite IH by (done || cbn in *; lia). done.
Qed.
Lemma arr_body_length ind l : (List.length l <= slen (arr_body ind l))%nat.
Proof.
  induction l as [|v l IH]; [cbn; lia|]. destruct l as [|v' l].
  - cbn [arr_body List.length]. unfold element. repeat rewrite ?slen_app, ?slen_cons. lia.
  - change (arr_body ind (v :: v' :: l)) with
      (element (newline (deeper ind)) (v (deeper ind)) "" "," +:+ arr_body ind (v' :: l)).
    unfold element. repeat rewrite ?slen_app, ?slen_cons. cbn [List.length] in IH |- *. lia.
Qed.
Lemma json_arr_elements l ind : Forall (jval 1) l ->
  exists t, json_arr l ind = String "[" t /\ array_elements t = (fun v => v (deeper ind)) <$> l.
Proof.
  intros H. unfold json_arr. destruct l as [|v l]; [by exists "]"|]. eexists. split; [done|].
  unfold array_elements. destruct (etext_body 1 ind (v :: l)) as [Hh _]; [done|done|].
  destruct (Hh "") as (c & u & Eu & Hc). rewrite str_app_nil_r in Eu. rewrite Eu.
  assert (E : elements_of (slen (arr_body ind (v :: l))) (arr_body ind (v :: l)) =
              (fun v => v (deeper ind)) <$> (v :: l)).
  { rewrite <- (str_app_nil_r (arr_body ind (v :: l))) at 2.
    apply elements_body; [done|done|apply arr_body_length]. }
  rewrite E. ascii_cases c; done.
Qed.

(** ** Decoders undo encoders *)

(** Decoding [v], however laid out, into a target that holds [cur] gives [a]. *)
Definition decodes {A} (v : Json) (dec : Dec A) (cur a : A) : Prop :=
  forall ind, dec (v ind) cur = Some a.

Lemma decodes_string s cur : decodes (json_string s) dec_string cur (sanitize s).
Proof.
  intros ind. unfold json_string, json_lit, dec_string. cbn [Ascii.eqb QUOTE Bool.eqb].
  by rewrite <- (str_app_nil_r (json_key s)), unquote_key.
Qed.
Lemma decodes_raw t cur : decodes (json_lit t) dec_raw cur t.
Proof. done. Qed.
Lemma decodes_time t ts cur : MarshalTime t = Some ts -> decodes (json_lit ts) dec_time cur t.
Proof. intros H ind. by apply Unmarshal_MarshalTime. Qed.
Lemma decodes_bool b cur : decodes (json_bool b) dec_bool cur b.
Proof. intros ind. by destruct b. Qed.

Lemma decimal_not_null s : decimal s -> is_null s = false.
Proof.
  intros (c & t & -> & Hc & _). unfold is_null. apply String.eqb_neq. intros [= -> _]. done.
Qed.
Lemma ParseInt_Format z : in_int64 z -> ParseInt (FormatInt z) = Some z.
Proof.
  intros H. destruct (FormatInt_cases z) as [[L ->]|[L ->]]; unfold FormatUint.
  - destruct (pretty_decimal (Z.to_N z)) as [(c & t & E & Hc & _) V]. unfold ParseInt.
    rewrite E in V |- *. rewrite V, Z2N.id by lia.
    destruct (decide (in_int64 z)); [|done]. clear -Hc. ascii_cases c; done.
  - destruct (pretty_decimal (Z.to_N (- z))) as [(c & t & E & Hc & _) V]. unfold ParseInt.
    rewrite E in V |- *. rewrite V, Z2N.id by lia.
    destruct (decide _) as [_|N]; [by rewrite Z.opp_involutive|]. by rewrite Z.opp_involutive in N.
Qed.
Lemma decodes_int lo hi z cur : - 2 ^ 63 <= lo -> hi <= 2 ^ 63 - 1 -> lo <= z <= hi ->
  decodes (json_int z) (dec_int lo hi) cur z.
Proof.
  intros Hlo Hhi H ind. unfold dec_int, json_int, json_lit.
  assert (Hh : is_null (FormatInt z) = false /\ exists c t, FormatInt z = String c t /\ num_start c = true).
  { destruct (FormatInt_cases z) as [[_ ->]|[_ ->]]; [|by eauto].
    pose proof (FormatUint_decimal z) as D. split; [by apply decimal_not_null|].
    destruct D as (c & t & -> & Hc & _). exists c, t. unfold num_start. by rewrite Hc. }
  destruct Hh as (-> & c & t & E & Hc). rewrite E, Hc, <- E, ParseInt_Format by (unfold in_int64; lia).
  cbn. by rewrite !(proj2 (Z.leb_le _ _)) by lia.
Qed.
Lemma decodes_int64 z cur : in_int64 z -> decodes (json_int z) dec_int64 cur z.
Proof. unfold in_int64. intros H. apply decodes_int; lia. Qed.
Lemma decodes_int32 z cur : in_int32 z -> decodes (json_int z) dec_int32 cur z.
Proof. unfold in_int32. intros H. apply decodes_int; lia. Qed.
Lemma decodes_uint64 z cur : in_uint64 z -> decodes (json_uint z) dec_uint64 cur z.
Proof.
  unfold in_uint64. intros H ind. unfold dec_uint64, json_uint, json_lit, FormatUint.
  destruct (pretty_decimal (Z.to_N z)) as [D V]. rewrite decimal_not_null by done.
  destruct D as (c & t & E & Hc & _). rewrite E in V |- *. rewrite Hc, V, Z2N.id by lia. cbn.
  by rewrite (proj2 (Z.ltb_lt _ _)) by lia.
Qed.

(** *** Times *)

Definition time_char (c : ascii) : bool := is_digit c || existsb (Ascii.eqb c) ["-"; ":"; "T"; "."; "Z"]%char.
Lemma time_text t : Forall (fun c => time_char c = true) (bytes_of (FormatRFC3339Nano t)).
Proof.
  assert (D : forall w n, Forall (fun c => time_char c = true) (bytes_of (digits w n))).
  { intros w n. induction w as [|w IH]; [constructor|]. cbn. apply Forall_cons_2; [|done].
    unfold time_char. by rewrite (proj1 (digit_char_spec _ (mod10 _))). }
  assert (N : forall n, Forall (fun c => time_char c = true) (bytes_of (nano_text n))).
  { intros n. unfold nano_text. pose proof (TrimRight_digits 9 n) as T.
    destruct (TrimRight "0" (digits 9 n)); [constructor|]. apply Forall_cons_2; [done|].
    eapply Forall_impl; [exact T|]. unfold time_char. by intros c ->. }
  unfold FormatRFC3339Nano. destruct (civil t) as [[y m] d]. rewrite !bytes_of_app.
  repeat (apply Forall_app_2; [first [apply D | apply N | by repeat constructor]|]). by repeat constructor.
Qed.
Lemma skip_literal s x : Forall (fun c => literal_char c = true) (bytes_of s) ->
  skip_string (s +:+ String QUOTE x) = Some x.
Proof.
  induction s as [|c s IH]; [done|]. cbn [bytes_of]. intros [Hc Hs]%Forall_cons.
  rewrite str_app_cons, literal_skip by done. by apply IH.
Qed.
Lemma jval_time d t ts : MarshalTime t = Some ts -> jval d (json_lit ts).
Proof.
  unfold MarshalTime. destruct (year_ok t); [|done]. intros [= <-]. apply jval_lit, vtext_string.
  intros x. rewrite str_app_assoc. apply skip_literal. eapply Forall_impl; [apply time_text|].
  intros c H. ascii_cases c; done.
Qed.

(** *** Slices *)

Lemma decodes_list {A} (enc : A -> Json) (dec : Dec A) zero (g : A -> A) l cur :
  Forall (fun x => jval 1 (enc x) /\ forall cur, decodes (enc x) dec cur (g x)) l ->
  decodes (json_arr (enc <$> l)) (dec_list dec zero) cur (g <$> l).
Proof.
  intros H ind. destruct (json_arr_elements (enc <$> l) ind) as (t & -> & Et).
  { rewrite Forall_fmap. eapply Forall_impl; [exact H|]. by intros x [? _]. }
  unfold dec_list. rewrite Et. clear Et. revert cur. induction l as [|x l IH]; intros cur; [done|].
  apply Forall_cons in H as [[_ Hx] Hl]. cbn. rewrite (Hx _ (deeper ind)). cbn. by rewrite IH.
Qed.
Lemma jval_list {A} (enc : A -> Json) l d : (d < maxNestingDepth)%N ->
  Forall (fun x => jval (d + 1) (enc x)) l -> jval d (json_arr (enc <$> l)).
Proof. intros L H. apply jval_arr; [done|]. by rewrite Forall_fmap. Qed.
Lemma decodes_strings l cur : decodes (json_strings l) (dec_list dec_string "") cur (sanitize <$> l).
Proof.
  apply decodes_list, Forall_forall. intros s _. split; [apply jval_string|].
  intros c. apply decodes_string.
Qed.
Lemma jval_strings d l : (d < maxNestingDepth)%N -> jval d (json_strings l).
Proof. intros L. apply jval_list; [done|]. apply Forall_forall. intros s _. apply jval_string. Qed.

(** *** Maps *)

(** A map as JSON carries it: its keys sanitised, in key order, so that the last of the
    keys that become equal wins. *)
Definition carry_map {A} (g : A -> A) (m : gmap string A) : gmap string A :=
  fold_left (fun acc kv => <[sanitize kv.1 := g kv.2]> acc) (sorted_entries m) ∅.

Lemma sorted_entries_perm {A} (m : gmap string A) : sorted_entries m ≡ₚ map_to_list m.
Proof. apply merge_sort_Permutation. Qed.
Lemma elem_of_sorted_entries {A} (m : gmap string A) k x :
  (k, x) ∈ sorted_entries m <-> m !! k = Some x.
Proof. by rewrite sorted_entries_perm, elem_of_map_to_list. Qed.

Lemma decodes_map {A} (enc : A -> Json) (dec : Dec A) zero (g : A -> A) m :
  (forall k x, m !! k = Some x -> jval 1 (enc x) /\ decodes (enc x) dec zero (g x)) ->
  decodes (json_map enc m) (dec_map dec zero) ∅ (carry_map g m).
Proof.
  intros H ind. destruct (json_obj_members (prod_map id enc <$> sorted_entries m) ind) as (t & Eo & Et).
  { rewrite Forall_fmap, Forall_forall. intros [k x] Hx%elem_of_sorted_entries. cbn. by apply (H k). }
  unfold json_map. rewrite Eo. unfold dec_map. rewrite Et.
  assert (Hl : Forall (fun kv => decodes (enc kv.2) dec zero (g kv.2)) (sorted_entries m)).
  { rewrite Forall_forall. intros [k x] Hx%elem_of_sorted_entries. cbn. by apply (H k). }
  unfold dec_entries, carry_map. clear Eo Et H t. revert Hl. generalize (∅ : gmap string A).
  induction (sorted_entries m) as [|[k x] l IH]; intros acc Hl; [done|].
  apply Forall_cons in Hl as [Hx Hl]. cbn in *. rewrite (Hx (deeper ind)). cbn. by apply IH.
Qed.
Lemma jval_map {A} (enc : A -> Json) m d : (d < maxNestingDepth)%N ->
  (forall k x, m !! k = Some x -> jval (d + 1) (enc x)) -> jval d (json_map enc m).
Proof.
  intros L H. apply jval_obj; [done|]. rewrite Forall_fmap, Forall_forall.
  intros [k x] Hx%elem_of_sorted_entries. cbn. by apply (H k).
Qed.

(** When no key changes, neither does the domain. *)
Lemma carry_map_sane {A} (g : A -> A) m :
  (forall k x, m !! k = Some x -> sanitize k = k) -> carry_map g m = g <$> m.
Proof.
  intros H. unfold carry_map.
  assert (F : forall l acc, Forall (fun kv : string * A => sanitize kv.1 = kv.1) l ->
    NoDup l.*1 -> (forall k, k ∈ l.*1 -> acc !! k = None) ->
    fold_left (fun acc kv => <[sanitize kv.1 := g kv.2]> acc) l acc
    = (list_to_map (prod_map id g <$> l) : gmap string A) ∪ acc).
  { induction l as [|[k x] l IH]; intros acc Hl Hn Ha; cbn.
    - by rewrite map_empty_union.
    - apply Forall_cons in Hl as [Ek Hl]. cbn in Ek, Hn. apply NoDup_cons in Hn as [Hk Hn].
      rewrite Ek, IH; [|done|done|].
      + rewrite <- insert_union_l, insert_union_r; [done|].
        apply not_elem_of_list_to_map. rewrite <- list_fmap_compose. exact Hk.
      + intros k' Hk'. rewrite lookup_insert_ne by (intros ->; done). apply Ha. by right. }
  assert (P : sorted_entries m ≡ₚ map_to_list m) by apply sorted_entries_perm.
  rewrite F.
  - rewrite map_union_empty.
    rewrite (list_to_map_proper _ (prod_map id g <$> map_to_list m)); [| |by rewrite P].
    + by rewrite list_to_map_fmap, list_to_map_to_list.
    + rewrite <- list_fmap_compose. change (fst ∘ prod_map id g) with (@fst string A).
      rewrite P. apply NoDup_fst_map_to_list.
  - rewrite Forall_forall. intros [k x] Hx%elem_of_sorted_entries. by apply (H k x).
  - rewrite P. apply NoDup_fst_map_to_list.
  - done.
Qed.

(** *** Structs *)

Lemma decodes_field {A B} (get : A -> B) (set : B -> A -> A) dec v cur b :
  decodes v dec (get cur) b -> decodes v (field get set dec) cur (set b cur).
Proof. intros H ind. unfold field. by rewrite H. Qed.

Section Fields.
Context {A : Type} (fields : list (string * Dec A)).

(** Reading the members [l], however laid out, takes a struct from [cur] to [a]. *)
Definition reads (l : list (string * Json)) (cur a : A) : Prop :=
  forall ind, dec_members fields ((fun kv => (sanitize kv.1, kv.2 ind)) <$> l) cur = Some a.

Lemma reads_eq l cur a a' : reads l cur a' -> a' = a -> reads l cur a.
Proof. by intros H <-. Qed.
Lemma reads_nil cur : reads [] cur cur.
Proof. done. Qed.
Lemma reads_cons k v l dec cur a1 a :
  sanitize k = k -> find_field fields k = Some dec -> decodes v dec cur a1 -> reads l a1 a ->
  reads ((k, v) :: l) cur a.
Proof.
  intros Hk Hf Hv Hl ind. specialize (Hl ind). unfold dec_members in *. cbn. rewrite Hk, Hf.
  by rewrite (Hv ind).
Qed.
Lemma reads_app l1 l2 cur a1 a : reads l1 cur a1 -> reads l2 a1 a -> reads (l1 ++ l2) cur a.
Proof.
  intros H1 H2 ind. specialize (H1 ind). specialize (H2 ind). unfold dec_members in *.
  by rewrite fmap_app, fold_left_app, H1.
Qed.
(** A member whose name finds a field of type [B], there or left out. *)
Lemma reads_field {B} k v l (get : A -> B) set dec cur b a :
  sanitize k = k -> find_field fields k = Some (field get set dec) -> decodes v dec (get cur) b ->
  reads l (set b cur) a -> reads ((k, v) :: l) cur a.
Proof. intros Hk Hf Hv. eapply reads_cons; [done|exact Hf|by apply decodes_field]. Qed.
Lemma reads_omitempty {B} e k v (get : A -> B) set dec cur b :
  sanitize k = k -> find_field fields k = Some (field get set dec) -> decodes v dec (get cur) b ->
  (e = true -> set b cur = cur) -> reads (omitempty e k v) cur (set b cur).
Proof.
  intros Hk Hf Hv He. destruct e; cbn; [rewrite He by done; apply reads_nil|].
  eapply reads_field; [done|done|done|apply reads_nil].
Qed.
Lemma decodes_struct l cur a : Forall (fun kv => jval 1 kv.2) l -> reads l cur a ->
  decodes (json_obj l) (dec_struct fields) cur a.
Proof.
  intros Hj Hl ind. destruct (json_obj_members l ind Hj) as (t & -> & Et).
  unfold dec_struct. rewrite Et. apply Hl.
Qed.
End Fields.

(** The next member of a struct's text, and the field its name finds. *)
Ltac read_member := eapply reads_field; [vm_compute; reflexivity|reflexivity| |].

Ltac read_optional := eapply reads_omitempty; [vm_compute; reflexivity|reflexivity| |].

Lemma Forall_omitempty (P : string * Json -> Prop) e k v : P (k, v) -> Forall P (omitempty e k v).
Proof. intros H. destruct e; repeat constructor. exact H. Qed.

(** *** The whole text *)

Lemma vtext_whole d t : vtext d t -> skip_value (S (slen t)) d t = Some "".
Proof.
  intros V. rewrite <- (str_app_nil_r t) at 2. apply (vt_skip _ _ V); [lia|lia|done].
Qed.
Lemma Unmarshal_text {A} (dec : Dec A) zero t : vtext 0 t -> Unmarshal dec zero t = dec t zero.
Proof.
  intros V. unfold Unmarshal, json_valid, trim_ws. rewrite (vtext_whole 0) by done. cbn [skip_ws String.eqb].
  assert (E : value_text (S (slen t)) 0 (t +:+ "") = Some (t, ""))
    by (apply (value_text_v 0); (done || lia)).
  rewrite str_app_nil_r in E. by rewrite E.
Qed.
(** Unmarshalling undoes [Marshal], and [MarshalIndent] as well. *)
Lemma Unmarshal_Json {A} (v : Json) (dec : Dec A) zero a ind :
  jval 0 v -> decodes v dec zero a -> Unmarshal dec zero (v ind) = Some a.
Proof. intros Hj Hd. rewrite Unmarshal_text by apply Hj. apply Hd. Qed.

(** ** One line *)

(** No line ends inside: neither a newline nor a carriage return. *)
Definition is_nl (c : ascii) : bool := (code c =? 10)%N || (code c =? 13)%N.
Definition nonl (s : string) : Prop := Forall (fun c => is_nl c = false) (bytes_of s).

Lemma nonl_app s t : nonl s -> nonl t -> nonl (s +:+ t).
Proof. unfold nonl. rewrite bytes_of_app. apply Forall_app_2. Qed.
Lemma nonl_cons c s : is_nl c = false -> nonl s -> nonl (String c s).
Proof. intros H1 H2. by constructor. Qed.
Lemma nonl_nil : nonl "".
Proof. constructor. Qed.
#[export] Hint Resolve nonl_app nonl_cons nonl_nil : json.

Lemma nonl_weaken (P : ascii -> bool) s : (forall c, P c = true -> is_nl c = false) ->
  Forall (fun c => P c = true) (bytes_of s) -> nonl s.
Proof. intros H F. eapply Forall_impl; [exact F|]. exact H. Qed.
Lemma nonl_digits s : Forall (fun c => is_digit c = true) (bytes_of s) -> nonl s.
Proof. apply nonl_weaken. intros c H. ascii_cases c; done. Qed.
Lemma nonl_high s : Forall high (bytes_of s) -> nonl s.
Proof.
  intros H. eapply Forall_impl; [exact H|]. unfold high, is_nl. intros c Hc.
  by rewrite !(proj2 (N.eqb_neq _ _)) by lia.
Qed.

Lemma nonl_quote s : nonl (quote s).
Proof.
  induction s as [|c s H IH|b r s W IH|c s H D IH] using rune_ind.
  - constructor.
  - rewrite quote_ascii by done. apply nonl_app; [|done].
    clear -H. ascii_cases c; first [by repeat constructor | exfalso; by vm_compute in H].
  - rewrite (quote_app_wide b r) by done. apply nonl_app; [|done]. unfold quote_wide.
    repeat case_match; [by repeat constructor..|]. by eapply nonl_high, wide_high.
  - rewrite quote_bad by done. apply nonl_app; [by repeat constructor|done].
Qed.
Lemma nonl_compact s : forall st, nonl (compact st s).
Proof.
  remember (slen s) as n eqn:E. revert s E. induction (Nat.lt_wf_0 n) as [n _ IH].
  intros [|c s] ->; intros st; [constructor|]. cbn [compact].
  assert (Hs : forall st, nonl (compact st s)) by (apply (IH (slen s)); [rewrite slen_cons; lia|done]).
  destruct (dropped st c) eqn:Hd; [done|].
  assert (Hc : is_nl c = false) by (clear -Hd; destruct st; ascii_cases c; done).
  destruct (is_html c) eqn:Hh.
  { apply nonl_app; [|done]. clear -Hh. ascii_cases c; try done; by repeat constructor. }
  destruct s as [|d [|e s2]]; [by apply nonl_cons..|].
  destruct (is_sep c d e); [|by apply nonl_cons].
  apply nonl_app; [destruct (code e =? 168)%N; by repeat constructor|].
  apply (IH (slen s2)); [rewrite !slen_cons; lia|done].
Qed.
Lemma nonl_json_key k : nonl (json_key k).
Proof. apply nonl_app; [apply nonl_quote|by repeat constructor]. Qed.
#[export] Hint Resolve nonl_quote nonl_compact nonl_json_key : json.

Lemma nonl_member k v c : nonl v -> is_nl c = false -> nonl (member "" (json_key k) "" v "" c).
Proof. intros Hv Hc. rewrite member_nil. auto 10 with json. Qed.
Lemma nonl_obj l : Forall (fun kv => nonl (kv.2 None)) l -> nonl (json_obj l None).
Proof.
  intros H. destruct l as [|kv l]; [by repeat constructor|]. apply nonl_cons; [done|].
  induction H as [|[k v] l' Hv Hl IH]; [constructor|]. cbn in Hv.
  destruct l' as [|kv' l']; [by apply nonl_member|].
  apply nonl_app; [by apply nonl_member|done].
Qed.
Lemma nonl_int z : nonl (FormatInt z).
Proof.
  destruct (FormatInt_cases z) as [[_ ->]|[_ ->]]; [|apply nonl_cons; [done|]];
    apply nonl_digits, FormatUint_digits.
Qed.

Lemma nonl_time t ts : MarshalTime t = Some ts -> nonl ts.
Proof.
  unfold MarshalTime. destruct (year_ok t); [|done]. intros [= <-]. apply nonl_cons; [done|].
  apply nonl_app; [|by repeat constructor]. eapply nonl_weaken; [|apply time_text].
  intros c H. ascii_cases c; done.
Qed.

(** ** Carrying a map twice *)

Lemma carry_map_lookup {A} (g : A -> A) m k y :
  carry_map g m !! k = Some y -> sanitize k = k /\ exists k' x, m !! k' = Some x /\ y = g x.
Proof.
  intros H. unfold carry_map in H.
  assert (Hl : forall k' x, (k', x) ∈ sorted_entries m -> m !! k' = Some x)
    by (intros ? ?; apply elem_of_sorted_entries).
  revert H Hl. induction (sorted_entries m) as [|[k1 x1] l IH] using rev_ind; [done|].
  rewrite fold_left_app. cbn. intros H Hl. destruct (decide (sanitize k1 = k)) as [E|E].
  - subst k. rewrite lookup_insert_eq in H. injection H as <-. split; [apply sanitize_idem|].
    exists k1, x1. split; [|done]. apply Hl. rewrite elem_of_app. right. by left.
  - rewrite lookup_insert_ne in H by done. apply IH; [done|]. intros k' x Hx. apply Hl.
    rewrite elem_of_app. by left.
Qed.
Lemma carry_map_idem {A} (g : A -> A) m :
  (forall k x, m !! k = Some x -> g (g x) = g x) -> carry_map g (carry_map g m) = carry_map g m.
Proof.
  intros H. rewrite carry_map_sane by (intros k x Hx; by apply carry_map_lookup in Hx as [? _]).
  apply map_eq. intros k. rewrite lookup_fmap.
  destruct (carry_map g m !! k) as [y|] eqn:E; [|done]. cbn.
  apply carry_map_lookup in E as (_ & k' & x & Hx & ->). by rewrite (H k' x).
Qed.
Lemma carry_map_empty {A} (g : A -> A) m : m = ∅ -> carry_map g m = ∅.
Proof. by intros ->. Qed.

(** ** What decoding can produce

    A decoder keeps a property of its target whatever text it is given. *)

Definition keeps {A} (P : A -> Prop) (dec : Dec A) : Prop :=
  forall raw cur a, P cur -> dec raw cur = Some a -> P a.
Definition sane_text (s : string) : Prop := sanitize s = s.
#[export] Instance sane_text_dec s : Decision (sane_text s).
Proof. unfold sane_text. apply _. Defined.

Lemma keeps_string : keeps sane_text dec_string.
Proof.
  intros [|c t] cur a Hc; [done|]. unfold dec_string. destruct (Ascii.eqb c QUOTE).
  - intros [= <-]. apply sanitize_unquote.
  - destruct (is_null _); [|done]. by intros [= <-].
Qed.
Lemma keeps_int lo hi : keeps (fun z => lo <= z <= hi) (dec_int lo hi).
Proof.
  intros raw cur a Hc. unfold dec_int. destruct (is_null raw); [by intros [= <-]|].
  destruct raw as [|c t]; [done|]. destruct (num_start c); [|done].
  destruct (ParseInt _) as [z|]; [|done]. cbn. destruct (_ && _) eqn:E; [|done]. intros [= <-]. lia.
Qed.
Lemma keeps_int64 : keeps in_int64 dec_int64.
Proof.
  intros raw cur a Hc Hd. unfold in_int64 in *.
  assert (L : - 2 ^ 63 <= cur <= 2 ^ 63 - 1) by lia.
  pose proof (keeps_int _ _ raw cur a L Hd) as K. cbn beta in K. lia.
Qed.
Lemma keeps_int32 : keeps in_int32 dec_int32.
Proof.
  intros raw cur a Hc Hd. unfold in_int32 in *.
  assert (L : - 2 ^ 31 <= cur <= 2 ^ 31 - 1) by lia.
  pose proof (keeps_int _ _ raw cur a L Hd) as K. cbn beta in K. lia.
Qed.
Lemma keeps_any {A} (dec : Dec A) : keeps (fun _ => True) dec.
Proof. done. Qed.

Lemma keeps_list {A} (P : A -> Prop) dec zero : keeps P dec -> P zero ->
  keeps (Forall P) (dec_list dec zero).
Proof.
  intros Hd Hz raw cur a Hc H.
  assert (E : forall es cur a, Forall P cur -> dec_elems dec zero es cur = Some a -> Forall P a).
  { clear -Hd Hz. induction es as [|e es IH]; intros cur a Hc; cbn; [by intros [= <-]|].
    assert (Hh : P (default zero (head cur))) by (destruct Hc; done).
    assert (Ht : Forall P (tail cur)) by (destruct Hc; done).
    destruct (dec e _) as [x|] eqn:Ex; [|done]. cbn.
    destruct (dec_elems dec zero es (tail cur)) as [xs|] eqn:Exs; [|done]. intros [= <-].
    constructor; [by eapply Hd|by eapply IH]. }
  unfold dec_list in H. destruct (starts_with "[" raw) as [[t ->]|N]; [by eapply E|].
  assert (Hn : (if is_null raw then Some [] else None) = Some a).
  { destruct raw as [|c t]; [done|]. specialize (N t). clear -H N. ascii_cases c; done. }
  destruct (is_null raw); [|done]. injection Hn as <-. constructor.
Qed.

Lemma members_keys f : forall s, Forall (fun kv => sane_text kv.1) (members f s).
Proof.
  induction f as [|f IH]; intros s; [constructor|]. cbn [members].
  destruct (skip_ws s) as [|c t]; [constructor|]. destruct (Ascii.eqb c QUOTE); [|constructor].
  destruct (skip_string t) as [r|]; [|constructor].
  destruct (starts_with ":" (skip_ws r)) as [[r2 Er]|N].
  - rewrite Er. destruct (value_text _ _ r2) as [[v r3]|]; [|constructor].
    constructor; [apply sanitize_unquote|].
    destruct (starts_with "," (skip_ws r3)) as [[r4 Er3]|N]; [rewrite Er3; apply IH|].
    destruct (skip_ws r3) as [|d u]; [constructor|]. specialize (N u).
    clear -N. ascii_cases d; solve [constructor | done].
  - destruct (skip_ws r) as [|d u]; [constructor|]. specialize (N u).
    clear -N. ascii_cases d; solve [constructor | done].
Qed.

Lemma keeps_map {A} (P : A -> Prop) dec zero : keeps P dec -> P zero ->
  keeps (map_Forall (fun k x => sane_text k /\ P x)) (dec_map dec zero).
Proof.
  intros Hd Hz raw cur a Hc H.
  assert (E : forall kvs cur, Forall (fun kv => sane_text kv.1) kvs ->
    map_Forall (fun k x => sane_text k /\ P x) cur ->
    dec_entries dec zero kvs cur = Some a -> map_Forall (fun k x => sane_text k /\ P x) a).
  { clear -Hd Hz. unfold dec_entries.
    induction kvs as [|[k v] kvs IH]; intros cur Hk Hc; cbn; [by intros [= <-]|].
    apply Forall_cons in Hk as [Hk Hks]. cbn in Hk.
    destruct (dec v zero) as [x|] eqn:Ex; cbn.
    - apply IH; [done|]. apply map_Forall_insert_2; [|done]. split; [done|]. by eapply Hd.
    - clear. induction kvs as [|kv kvs IH]; [done|exact IH]. }
  unfold dec_map in H. destruct (starts_with "{" raw) as [[t ->]|N].
  { eapply E; [apply members_keys|exact Hc|exact H]. }
  assert (Hn : (if is_null raw then Some ∅ else None) = Some a).
  { destruct raw as [|c t]; [done|]. specialize (N t). clear -H N. ascii_cases c; done. }
  destruct (is_null raw); [|done]. injection Hn as <-. apply map_Forall_empty.
Qed.

Lemma keeps_field {A B} (P : A -> Prop) (Q : B -> Prop) get set dec :
  keeps Q dec -> (forall a, P a -> Q (get a)) -> (forall a b, P a -> Q b -> P (set b a)) ->
  keeps P (field get set dec).
Proof.
  intros Hd Hg Hs raw cur a Hc. unfold field. destruct (dec raw (get cur)) as [b|] eqn:E; [|done].
  intros [= <-]. apply Hs; [done|]. eapply Hd; [|exact E]. by apply Hg.
Qed.
Lemma keeps_struct {A} (P : A -> Prop) fields : Forall (fun f => keeps P f.2) fields ->
  keeps P (dec_struct fields).
Proof.
  intros Hf raw cur a Hc H.
  assert (Hfind : forall k dec, find_field fields k = Some dec -> keeps P dec).
  { intros k dec. unfold find_field. rewrite Forall_forall in Hf.
    destruct (List.find _ fields) as [f|] eqn:E1.
    - intros [= <-]. apply List.find_some in E1 as [E1 _]. by apply Hf, list_elem_of_In.
    - clear E1. destruct (List.find _ fields) as [f|] eqn:E2; cbn; [|done]. intros [= <-].
      apply List.find_some in E2 as [E2 _]. exact (Hf f (proj2 (list_elem_of_In _ _) E2)). }
  assert (E : forall kvs cur, P cur -> dec_members fields kvs cur = Some a -> P a).
  { clear -Hfind. unfold dec_members. induction kvs as [|[k v] kvs IH]; intros cur Hc; cbn; [by intros [= <-]|].
    destruct (find_field fields k) as [dec|] eqn:Ef; [|by apply IH].
    destruct (dec v cur) as [x|] eqn:Ex; [apply IH; by eapply (Hfind k dec Ef)|].
    clear. induction kvs as [|kv kvs IH]; [done|exact IH]. }
  unfold dec_struct in H. destruct (starts_with "{" raw) as [[t ->]|N]; [by eapply E|].
  assert (Hn : (if is_null raw then Some cur else None) = Some a).
  { destruct raw as [|c t]; [done|]. specialize (N t). clear -H N. ascii_cases c; done. }
  destruct (is_null raw); [|done]. by injection Hn as <-.
Qed.
Lemma keeps_Unmarshal {A} (P : A -> Prop) dec zero s a : keeps P dec -> P zero ->
  Unmarshal dec zero s = Some a -> P a.
Proof. intros Hd Hz. unfold Unmarshal. destruct (json_valid s); [|done]. by apply Hd. Qed.
