(* ===== verification/Value.v ===== *)
(** internal/query/value.go: field values, their coercions, field resolution into
    the record envelope and body, and the two comparison families. *)

From S2P Require Import Prelude GoStrings GoTime GoFloat GoJson Model.
From Stdlib Require Import Ascii String.
Local Open Scope Z_scope.
Local Open Scope string_scope.

Inductive valueKind := kindNull | kindString | kindNumber | kindBool.

(** [query.value]: a tagged struct whose unused fields hold their zero value. *)
Record value := mkValue { v_Kind : valueKind; v_S : string; v_N : float64; v_B : bool }.

Definition zeroFloat : float64 := float_of_int 0.
Definition nullValue : value := mkValue kindNull "" zeroFloat false.
Definition stringValue (s : string) : value := mkValue kindString s zeroFloat false.
Definition numberValue (n : float64) : value := mkValue kindNumber "" n false.
Definition boolValue (b : bool) : value := mkValue kindBool "" zeroFloat b.

(** [value.str] *)
Definition str (v : value) : string :=
  match v_Kind v with
  | kindString => v_S v
  | kindNumber => FormatFloat (v_N v)
  | kindBool => FormatBool (v_B v)
  | kindNull => ""
  end.

(** [value.numeric] *)
Definition numeric (v : value) : option float64 :=
  match v_Kind v with
  | kindNumber => Some (v_N v)
  | kindString => ParseFloat (TrimSpace (v_S v))
  | _ => None
  end.

Inductive fieldKind := fEnvelope | fLabel | fAnnotation | fBody.
#[export] Instance fieldKind_eq_dec : EqDecision fieldKind.
Proof. solve_decision. Defined.

(** [query.FieldRef] *)
Record FieldRef := mkField { f_Kind : fieldKind; f_Name : string; f_Path : list string }.
#[export] Instance FieldRef_eq_dec : EqDecision FieldRef.
Proof. solve_decision. Defined.

(** A [(value, bool)] result is [Some] when the flag is set; no caller looks at the
    value otherwise. *)
Definition present (v : value) (ok : bool) : option value := if ok then Some v else None.
Definition nonempty (s : string) : bool := negb (String.eqb s "").

(** [resolveEnvelope] *)
Definition resolveEnvelope (r : LogRecord) (name : string) : option value :=
  if String.eqb name "_namespace" then
    present (stringValue (rec_Namespace r)) (nonempty (rec_Namespace r))
  else if String.eqb name "_pod" then present (stringValue (rec_Pod r)) (nonempty (rec_Pod r))
  else if String.eqb name "_container" then
    present (stringValue (rec_Container r)) (nonempty (rec_Container r))
  else if String.eqb name "_node" then present (stringValue (rec_Node r)) (nonempty (rec_Node r))
  else if String.eqb name "_image" then
    present (stringValue (rec_Image r)) (nonempty (rec_Image r))
  else if String.eqb name "_stream" then
    present (stringValue (rec_Stream r)) (nonempty (rec_Stream r))
  else if String.eqb name "_message" then Some (stringValue (rec_Message r))
  else if String.eqb name "_ts" then
    present (numberValue (float_of_int (UnixNano (rec_Timestamp r))))
      (negb (IsZero (rec_Timestamp r)))
  else None.

(** [decodeJSON]: the leaf value a raw JSON text denotes. *)
Definition decodeJSON (raw : string) : option value :=
  let trimmed := TrimSpace raw in
  if String.eqb trimmed "" || String.eqb trimmed "null" then Some nullValue
  else
    match trimmed with
    | EmptyString => Some nullValue
    | String c _ =>
        if Ascii.eqb c QUOTE then stringValue <$> UnmarshalString raw
        else if Ascii.eqb c "t" || Ascii.eqb c "f" then
          match UnmarshalBool raw with
          | Some b => Some (boolValue b)
          | None => Some (stringValue trimmed)
          end
        else if Ascii.eqb c "{" || Ascii.eqb c "[" then Some (stringValue trimmed)
        else
          match UnmarshalFloat raw with
          | Some n => Some (numberValue n)
          | None => Some (stringValue trimmed)
          end
    end.

(** The walk of [resolveBody] below the first key. *)
Fixpoint walk (raw : string) (path : list string) : option string :=
  match path with
  | [] => Some raw
  | key :: path' =>
      match UnmarshalObject raw with
      | Some obj => match obj !! key with Some raw' => walk raw' path' | None => None end
      | None => None
      end
  end.

(** [resolveBody] *)
Definition resolveBody (r : LogRecord) (path : list string) : option value :=
  match path with
  | [] => None
  | head :: rest =>
      match rec_Body r !! head with
      | Some raw => match walk raw rest with Some leaf => decodeJSON leaf | None => None end
      | None => None
      end
  end.

(** [FieldRef.resolve] *)
Definition resolve (f : FieldRef) (r : LogRecord) : option value :=
  match f_Kind f with
  | fEnvelope => resolveEnvelope r (f_Name f)
  | fLabel => stringValue <$> rec_Labels r !! f_Name f
  | fAnnotation => stringValue <$> rec_Annotations r !! f_Name f
  | fBody => resolveBody r (f_Path f)
  end.

(** [query.Op] *)
Inductive Op := OpEq | OpNe | OpRe | OpNre | OpLt | OpLe | OpGt | OpGe | OpContains.
#[export] Instance Op_eq_dec : EqDecision Op.
Proof. solve_decision. Defined.

(** [cmpEq]: the literal's kind drives the coercion. *)
Definition cmpEq (v lit : value) : bool :=
  match v_Kind lit with
  | kindNumber => match numeric v with Some fv => feq fv (v_N lit) | None => false end
  | kindBool =>
      match v_Kind v with
      | kindBool => Bool.eqb (v_B v) (v_B lit)
      | kindString => String.eqb (v_S v) (FormatBool (v_B lit))
      | _ => false
      end
  | _ => String.eqb (str v) (v_S lit)
  end.

Definition orderFloat (a b : float64) (op : Op) : bool :=
  match op with
  | OpLt => flt a b
  | OpLe => fle a b
  | OpGt => flt b a
  | OpGe => fle b a
  | _ => false
  end.

(** Go compares strings byte by byte. *)
Definition orderString (a b : string) (op : Op) : bool :=
  match op with
  | OpLt => String.ltb a b
  | OpLe => String.leb a b
  | OpGt => String.ltb b a
  | OpGe => String.leb b a
  | _ => false
  end.

(** [cmpOrder] *)
Definition cmpOrder (v lit : value) (op : Op) : bool :=
  match v_Kind lit with
  | kindNumber =>
      match numeric v with Some fv => orderFloat fv (v_N lit) op | None => false end
  | _ => orderString (str v) (v_S lit) op
  end.

Definition containsStr (haystack needle : string) : bool := Contains haystack needle.

(** ** Lemmas *)

Lemma resolveEnvelope_string r name v :
  resolveEnvelope r name = Some v -> name <> "_ts" -> exists s, v = stringValue s.
Proof.
  unfold resolveEnvelope, present. intros E Hts.
  repeat case_match; simplify_eq; eauto.
  by match goal with H : (name =? "_ts")%string = true |- _ =>
       apply String.eqb_eq in H end.
Qed.
