(* ===== verification/Ast.v ===== *)
(** internal/query/ast.go: the expression tree and its evaluation on a record. *)

From S2P Require Import Prelude GoStrings Model Value.
From Stdlib Require Import String.

(** Go's regular-expression engine: any type of compiled expressions with its
    compiler and matcher.  Nothing is assumed of it. *)
Class Regexp := {
  regexp : Type;
  regexp_Compile : string -> option regexp;
  regexp_MatchString : regexp -> string -> bool
}.

Section Ast.
Context `{Regexp}.

(** The [Node] interface and its implementations; [CmpNode.Re] is a pointer that
    is nil unless the operator is [=~] or [!~]. *)
Inductive Node :=
| matchAll
| AndNode (L R : Node)
| OrNode (L R : Node)
| NotNode (X : Node)
| ExistsNode (Field : FieldRef)
| CmpNode (Field : FieldRef) (Op : Op) (Lit : value) (Re : option regexp).

(** [ExistsNode.Match] *)
Definition MatchExists (f : FieldRef) (r : LogRecord) : bool :=
  match resolve f r with
  | None => false
  | Some v =>
      match v_Kind v with
      | kindString => nonempty (v_S v)
      | kindNull => false
      | _ => true
      end
  end.

(** [CmpNode.Match]; [None] is the panic of a method call on a nil [Re]. *)
Definition MatchCmp (f : FieldRef) (op : Op) (lit : value) (re : option regexp)
    (r : LogRecord) : option bool :=
  match resolve f r with
  | None => Some (match op with OpNe | OpNre => true | _ => false end)
  | Some v =>
      match op with
      | OpEq => Some (cmpEq v lit)
      | OpNe => Some (negb (cmpEq v lit))
      | OpRe => option_map (fun e => regexp_MatchString e (str v)) re
      | OpNre => option_map (fun e => negb (regexp_MatchString e (str v))) re
      | OpContains => Some (containsStr (str v) (v_S lit))
      | OpLt | OpLe | OpGt | OpGe => Some (cmpOrder v lit op)
      end
  end.

(** [Node.Match], with Go's short-circuit evaluation. *)
Fixpoint Match (n : Node) (r : LogRecord) : option bool :=
  match n with
  | matchAll => Some true
  | AndNode l x =>
      match Match l r with
      | Some true => Match x r
      | o => o
      end
  | OrNode l x =>
      match Match l r with
      | Some false => Match x r
      | o => o
      end
  | NotNode x => negb <$> Match x r
  | ExistsNode f => Some (MatchExists f r)
  | CmpNode f op lit re => MatchCmp f op lit re r
  end.

(** Every regular-expression comparison carries its compiled expression. *)
Fixpoint node_ok (n : Node) : bool :=
  match n with
  | AndNode l r | OrNode l r => node_ok l && node_ok r
  | NotNode x => node_ok x
  | CmpNode _ (OpRe | OpNre) _ None => false
  | _ => true
  end.

(** The truth value of a node that does not panic. *)
Definition sat (n : Node) (r : LogRecord) : bool := default false (Match n r).

Lemma Match_total n r : node_ok n = true -> Match n r = Some (sat n r).
Proof.
  unfold sat. induction n as [|l IHl x IHx|l IHl x IHx|x IHx|f|f op lit re]; cbn;
    rewrite ?andb_true_iff; intros Hok; try done.
  - destruct Hok as [Hl Hx]. rewrite (IHl Hl). by destruct (default false _); cbn; auto.
  - destruct Hok as [Hl Hx]. rewrite (IHl Hl). by destruct (default false _); cbn; auto.
  - by rewrite (IHx Hok).
  - unfold MatchCmp. destruct (resolve f r), op, re; done.
Qed.

Lemma sat_and l x r : node_ok l = true -> sat (AndNode l x) r = sat l r && sat x r.
Proof. intros Hl. unfold sat. cbn. rewrite (Match_total l r Hl). by destruct (sat l r). Qed.
Lemma sat_or l x r : node_ok l = true -> sat (OrNode l x) r = sat l r || sat x r.
Proof. intros Hl. unfold sat. cbn. rewrite (Match_total l r Hl). by destruct (sat l r). Qed.

(** [!=] and [!~] are the exact complements of [=] and [=~] on every record,
    a missing field included: a record matches one of the two operators and not
    the other. *)
Theorem negated_operators_complement f lit re r :
  sat (CmpNode f OpNe lit None) r = negb (sat (CmpNode f OpEq lit None) r) /\
  sat (CmpNode f OpNre lit (Some re)) r = negb (sat (CmpNode f OpRe lit (Some re)) r).
Proof. unfold sat; cbn. unfold MatchCmp. by destruct (resolve f r). Qed.

End Ast.

(** An engine whose expressions are literal strings, to evaluate examples. *)
Definition literal_regexp : Regexp :=
  {| regexp := string; regexp_Compile := Some;
     regexp_MatchString := fun re s => Contains s re |}.
