(* ===== verification/Lexer.v ===== *)
(** internal/query/lexer.go: the tokens of the query language.  A [lexer] keeps
    [src] and a position; here it keeps the part of [src] from the position on,
    and the position itself, which only error messages use. *)

From S2P Require Import Prelude GoStrings Value.
From Stdlib Require Import Ascii String.
Local Open Scope string_scope.

Inductive tokKind :=
| tEOF | tIdent | tString | tNumber | tBool | tRegex | tAnd | tOr | tNot
| tLParen | tRParen | tDot | tLBrack | tRBrack | tOp.
#[export] Instance tokKind_eq_dec : EqDecision tokKind.
Proof. solve_decision. Defined.

(** [query.token]; [t_op] is meaningful for [tOp] only, and zero ([OpEq]) otherwise. *)
Record token := mkToken { t_kind : tokKind; t_text : string; t_op : Op; t_pos : nat }.

Definition tok (k : tokKind) (pos : nat) : token := mkToken k "" OpEq pos.
Definition tokText (k : tokKind) (s : string) (pos : nat) : token := mkToken k s OpEq pos.
Definition tokOp (op : Op) (pos : nat) : token := mkToken tOp "" op pos.

(** The errors of the lexer and the parser, with the position each message prints.
    [OutOfFuel] is the model's own: no run of [Parse] ends in it. *)
Inductive queryError :=
| UnexpectedBang (pos : nat)
| UnexpectedCharacter (c : ascii) (pos : nat)
| UnterminatedString (pos : nat)
| UnterminatedRegex (pos : nat)
| UnexpectedToken (pos : nat)
| ExpectedRParen (pos : nat)
| ExpectedField (pos : nat)
| ExpectedIdentifier (pos : nat)
| ExpectedStringKey (pos : nat)
| ExpectedRBrack (pos : nat)
| RequiresRegex (pos : nat)
| BadRegex (pos : nat)
| BadNumber (text : string) (pos : nat)
| RegexLiteral (pos : nat)
| ExpectedValue (pos : nat)
| OutOfFuel.
#[export] Instance queryError_eq_dec : EqDecision queryError.
Proof. solve_decision. Defined.

Record lexer := mkLexer { l_rest : string; l_pos : nat }.

Definition forward (l : lexer) (n : nat) : lexer :=
  mkLexer (sdrop n (l_rest l)) (l_pos l + n).

(** [lexer.peekAt(n)]: the byte [n] places on, 0 past the end. *)
Definition peekAt (l : lexer) (n : nat) : ascii :=
  default (byte_of 0) (String.get n (l_rest l)).

Section Lexer.
Context `{UnicodeTables}.

Definition isIdentStart (r : N) : bool := (r =? 95)%N || IsLetter r.
Definition isIdentPart (r : N) : bool := (r =? 95)%N || IsLetter r || IsDigit r.

(** [lexer.skipSpace]; the fuel is the length of the rest. *)
Fixpoint skipSpace_loop (fuel : nat) (l : lexer) : lexer :=
  match fuel with
  | O => l
  | S f =>
      match l_rest l with
      | EmptyString => l
      | _ =>
          let (r, sz) := DecodeRune (l_rest l) in
          if negb (IsSpace r) then l else skipSpace_loop f (forward l sz)
      end
  end.
Definition skipSpace (l : lexer) : lexer := skipSpace_loop (slen (l_rest l)) l.

(** [lexer.lexString] after the opening quote: the unescaped text and the lexer
    after the closing quote, [None] when there is none. *)
Fixpoint lexString_loop (quote : ascii) (s : string) (pos : nat) : option (string * lexer) :=
  match s with
  | EmptyString => None
  | String c s' =>
      let plain :=
        if Ascii.eqb c quote then Some ("", mkLexer s' (pos + 1))
        else match lexString_loop quote s' (pos + 1) with
             | Some (t, l) => Some (String c t, l)
             | None => None
             end in
      if Ascii.eqb c BACKSLASH then
        match s' with
        | String next s2 =>
            let out := if Ascii.eqb next "n" then byte_of 10
                       else if Ascii.eqb next "t" then byte_of 9 else next in
            match lexString_loop quote s2 (pos + 2) with
            | Some (t, l) => Some (String out t, l)
            | None => None
            end
        | EmptyString => plain
        end
      else plain
  end.

Definition lexString (quote : ascii) (l : lexer) : result queryError (token * lexer) :=
  match lexString_loop quote (sdrop 1 (l_rest l)) (l_pos l + 1) with
  | Some (t, l') => Ok (tokText tString t (l_pos l), l')
  | None => Err (UnterminatedString (l_pos l + slen (l_rest l)))
  end.

(** [lexer.lexRegex]: like a string, but an escape keeps its backslash. *)
Fixpoint lexRegex_loop (s : string) (pos : nat) : option (string * lexer) :=
  match s with
  | EmptyString => None
  | String c s' =>
      let plain :=
        if Ascii.eqb c "/" then Some ("", mkLexer s' (pos + 1))
        else match lexRegex_loop s' (pos + 1) with
             | Some (t, l) => Some (String c t, l)
             | None => None
             end in
      if Ascii.eqb c BACKSLASH then
        match s' with
        | String next s2 =>
            match lexRegex_loop s2 (pos + 2) with
            | Some (t, l) => Some (String c (String next t), l)
            | None => None
            end
        | EmptyString => plain
        end
      else plain
  end.

Definition lexRegex (l : lexer) : result queryError (token * lexer) :=
  match lexRegex_loop (sdrop 1 (l_rest l)) (l_pos l + 1) with
  | Some (t, l') => Ok (tokText tRegex t (l_pos l), l')
  | None => Err (UnterminatedRegex (l_pos l + slen (l_rest l)))
  end.

Definition number_char (c : ascii) : bool :=
  is_digit c || Ascii.eqb c "." || Ascii.eqb c "e" || Ascii.eqb c "E"
  || Ascii.eqb c "-" || Ascii.eqb c "+".

Fixpoint number_span (s : string) : nat :=
  match s with
  | String c s' => if number_char c then S (number_span s') else O
  | EmptyString => O
  end.

(** [lexer.lexNumber]: a sign, then every byte that can occur in a number. *)
Definition lexNumber (l : lexer) : token * lexer :=
  let signed := Ascii.eqb (peekAt l 0) "-" || Ascii.eqb (peekAt l 0) "+" in
  let start := if signed then 1%nat else 0%nat in
  let n := (start + number_span (sdrop start (l_rest l)))%nat in
  (tokText tNumber (stake n (l_rest l)) (l_pos l), forward l n).

Fixpoint ident_span (fuel : nat) (s : string) : nat :=
  match fuel, s with
  | S f, String _ _ =>
      let (r, sz) := DecodeRune s in
      if negb (isIdentPart r) then O else (sz + ident_span f (sdrop sz s))%nat
  | _, _ => O
  end.

(** [lexer.lexIdent] *)
Definition lexIdent (l : lexer) : token * lexer :=
  let n := ident_span (slen (l_rest l)) (l_rest l) in
  let text := stake n (l_rest l) in
  let low := ToLower text in
  let t :=
    if String.eqb low "and" then tok tAnd (l_pos l)
    else if String.eqb low "or" then tok tOr (l_pos l)
    else if String.eqb low "not" then tok tNot (l_pos l)
    else if String.eqb low "true" then tokText tBool "true" (l_pos l)
    else if String.eqb low "false" then tokText tBool "false" (l_pos l)
    else tokText tIdent text (l_pos l) in
  (t, forward l n).

(** [lexer.next] *)
Definition next (l0 : lexer) : result queryError (token * lexer) :=
  let l := skipSpace l0 in
  let start := l_pos l in
  let one (t : token) := Ok (t, forward l 1) in
  let two (t : token) := Ok (t, forward l 2) in
  match l_rest l with
  | EmptyString => Ok (tok tEOF start, l)
  | String c _ =>
      if Ascii.eqb c "(" then one (tok tLParen start)
      else if Ascii.eqb c ")" then one (tok tRParen start)
      else if Ascii.eqb c "." then one (tok tDot start)
      else if Ascii.eqb c "[" then one (tok tLBrack start)
      else if Ascii.eqb c "]" then one (tok tRBrack start)
      else if Ascii.eqb c QUOTE || Ascii.eqb c APOSTROPHE then lexString c l
      else if Ascii.eqb c "/" then lexRegex l
      else if Ascii.eqb c "=" then
        if Ascii.eqb (peekAt l 1) "~" then two (tokOp OpRe start) else one (tokOp OpEq start)
      else if Ascii.eqb c "!" then
        if Ascii.eqb (peekAt l 1) "=" then two (tokOp OpNe start)
        else if Ascii.eqb (peekAt l 1) "~" then two (tokOp OpNre start)
        else Err (UnexpectedBang start)
      else if Ascii.eqb c "<" then
        if Ascii.eqb (peekAt l 1) "=" then two (tokOp OpLe start) else one (tokOp OpLt start)
      else if Ascii.eqb c ">" then
        if Ascii.eqb (peekAt l 1) "=" then two (tokOp OpGe start) else one (tokOp OpGt start)
      else if Ascii.eqb c ":" then one (tokOp OpContains start)
      else if Ascii.eqb c "-" || Ascii.eqb c "+" || is_digit c then Ok (lexNumber l)
      else if isIdentStart (code c) then Ok (lexIdent l)
      else Err (UnexpectedCharacter c start)
  end.

(** ** Positions and progress *)

(** [l'] is [l] moved forward by whole bytes of its rest. *)
Definition moved (l l' : lexer) : Prop :=
  exists n, (n <= slen (l_rest l))%nat /\ l' = forward l n.

Lemma forward_0 l : forward l 0 = l.
Proof. destruct l as [r p]. unfold forward; cbn. by rewrite Nat.add_0_r. Qed.
Lemma forward_forward l n m : forward (forward l n) m = forward l (n + m).
Proof. unfold forward; cbn. by rewrite sdrop_add, Nat.add_assoc. Qed.
Lemma slen_forward l n : slen (l_rest (forward l n)) = (slen (l_rest l) - n)%nat.
Proof. apply slen_sdrop. Qed.

Lemma moved_refl l : moved l l.
Proof. exists 0%nat. rewrite forward_0. split; [lia|done]. Qed.
Lemma moved_trans l1 l2 l3 : moved l1 l2 -> moved l2 l3 -> moved l1 l3.
Proof.
  intros (n & Hn & ->) (m & Hm & ->). exists (n + m)%nat.
  rewrite slen_forward in Hm. rewrite forward_forward. split; [lia|done].
Qed.
Lemma moved_forward l n : (n <= slen (l_rest l))%nat -> moved l (forward l n).
Proof. intros. by exists n. Qed.
Lemma moved_len l l' : moved l l' -> (slen (l_rest l') <= slen (l_rest l))%nat.
Proof. intros (n & ? & ->). rewrite slen_forward. lia. Qed.

Lemma DecodeRune_width s :
  (snd (DecodeRune s) <= slen s)%nat /\ (s <> "" -> 1 <= snd (DecodeRune s))%nat.
Proof.
  destruct s as [|c0 [|c1 [|c2 [|c3 s]]]]; rewrite ?slen_cons; cbn;
    repeat (case_match; cbn); split; try lia; done.
Qed.

Lemma skipSpace_loop_moved f l : moved l (skipSpace_loop f l).
Proof.
  revert l; induction f as [|f IH]; intros l; cbn; [apply moved_refl|].
  destruct (l_rest l) as [|c s] eqn:E; [apply moved_refl|].
  pose proof (DecodeRune_width (String c s)) as [Hw _].
  destruct (DecodeRune (String c s)) as [r sz]; cbn in Hw.
  case_match; [apply moved_refl|]. eapply moved_trans; [|apply IH].
  apply moved_forward. by rewrite E.
Qed.
Lemma skipSpace_moved l : moved l (skipSpace l).
Proof. apply skipSpace_loop_moved. Qed.

(** Both quoted forms end past at least their closing delimiter. *)
Ltac quoted_loop IH :=
  repeat match goal with
  | E : match ?x with _ => _ end = Some _ |- _ => destruct x eqn:?; simplify_eq
  | p : (_ * _)%type |- _ => destruct p; simplify_eq
  end;
  match goal with
  | E : _ = Some (_, ?l) |- exists n, _ /\ ?l = _ =>
      apply IH in E as (n & ? & ->); [|rewrite ?slen_cons; lia];
      (exists (S n); rewrite ?slen_cons in *; split; [lia|]; cbn; f_equal; lia) ||
      (exists (S (S n)); rewrite ?slen_cons in *; split; [lia|]; cbn; f_equal; lia)
  | |- _ => exists 1%nat; rewrite slen_cons; split; [lia|done]
  end.

Lemma lexString_loop_moved q s pos t l :
  lexString_loop q s pos = Some (t, l) ->
  exists n, (1 <= n <= slen s)%nat /\ l = mkLexer (sdrop n s) (pos + n).
Proof.
  revert pos t l. induction (well_founded_ltof _ slen s) as [s _ IH].
  unfold ltof in IH. intros pos t l E. destruct s as [|c s]; cbn in E; [done|].
  quoted_loop IH.
Qed.

Lemma lexRegex_loop_moved s pos t l :
  lexRegex_loop s pos = Some (t, l) ->
  exists n, (1 <= n <= slen s)%nat /\ l = mkLexer (sdrop n s) (pos + n).
Proof.
  revert pos t l. induction (well_founded_ltof _ slen s) as [s _ IH].
  unfold ltof in IH. intros pos t l E. destruct s as [|c s]; cbn in E; [done|].
  quoted_loop IH.
Qed.

Lemma number_span_le s : (number_span s <= slen s)%nat.
Proof.
  induction s as [|c s IH]; cbn [number_span]; [lia|]. rewrite slen_cons. case_match; lia.
Qed.

Lemma ident_span_le f s : (ident_span f s <= slen s)%nat.
Proof.
  revert s; induction f as [|f IH]; intros [|c s]; cbn [ident_span]; try lia.
  pose proof (DecodeRune_width (String c s)) as [Hw _].
  destruct (DecodeRune (String c s)) as [r sz]; cbn [snd] in Hw. case_match; [lia|].
  specialize (IH (sdrop sz (String c s))). rewrite slen_sdrop in IH. lia.
Qed.

(** An unproductive token: an identifier with no text, which leaves the lexer where
    it was. *)
Definition stalled (t : token) : Prop := t_kind t = tIdent /\ t_text t = "".

(** What a token read at [l] promises of the lexer after it. *)
Definition advances (l : lexer) (t : token) (l' : lexer) : Prop :=
  moved l l' /\
  (t_kind t = tEOF \/ stalled t \/ (slen (l_rest l') < slen (l_rest l))%nat).

Lemma advances_forward l t n :
  (1 <= n <= slen (l_rest l))%nat -> advances l t (forward l n).
Proof.
  intros. split; [by apply moved_forward; lia|]. right; right. rewrite slen_forward. lia.
Qed.

Lemma advances_trans k l t l' : moved k l -> advances l t l' -> advances k t l'.
Proof.
  intros Hm [Hm2 Ht]. split; [by eapply moved_trans|]. apply moved_len in Hm. intuition lia.
Qed.

Lemma peekAt_1 l c : Ascii.eqb (peekAt l 1) c = true -> c <> byte_of 0 ->
  (2 <= slen (l_rest l))%nat.
Proof.
  rewrite Ascii.eqb_eq. unfold peekAt. intros Hp Hc.
  destruct (l_rest l) as [|a [|b s]]; [by destruct Hc..|]. rewrite !slen_cons. lia.
Qed.

Lemma lexString_advances q l t l' :
  l_rest l <> "" -> lexString q l = Ok (t, l') -> advances l t l'.
Proof.
  unfold lexString. intros Hl E.
  destruct lexString_loop as [[u k]|] eqn:El; simplify_eq.
  apply lexString_loop_moved in El as (n & Hn & ->). rewrite slen_sdrop in Hn.
  replace (mkLexer _ _) with (forward l (1 + n)).
  - apply advances_forward. lia.
  - unfold forward. rewrite sdrop_add. f_equal. lia.
Qed.

Lemma lexRegex_advances l t l' :
  l_rest l <> "" -> lexRegex l = Ok (t, l') -> advances l t l'.
Proof.
  unfold lexRegex. intros Hl E.
  destruct lexRegex_loop as [[u k]|] eqn:El; simplify_eq.
  apply lexRegex_loop_moved in El as (n & Hn & ->). rewrite slen_sdrop in Hn.
  replace (mkLexer _ _) with (forward l (1 + n)).
  - apply advances_forward. lia.
  - unfold forward. rewrite sdrop_add. f_equal. lia.
Qed.

Lemma lexNumber_advances l t l' c s :
  l_rest l = String c s -> (Ascii.eqb c "-" || Ascii.eqb c "+" || is_digit c) = true ->
  lexNumber l = (t, l') -> advances l t l'.
Proof.
  unfold lexNumber, peekAt. intros E Hc. rewrite E.
  change (default (byte_of 0) (String.get 0 (String c s))) with c. intros; simplify_eq.
  apply advances_forward. rewrite E.
  pose proof (number_span_le s). destruct (Ascii.eqb c "-" || Ascii.eqb c "+") eqn:Hs.
  - cbn [sdrop]. rewrite slen_cons. lia.
  - cbn in Hc. cbn [sdrop number_span]. unfold number_char. rewrite Hc, slen_cons.
    cbn [orb]. lia.
Qed.

Lemma lexIdent_advances l t l' : lexIdent l = (t, l') -> advances l t l'.
Proof.
  unfold lexIdent. set (n := ident_span _ _). intros E. simplify_eq.
  pose proof (ident_span_le (slen (l_rest l)) (l_rest l)) as Hn. fold n in Hn.
  destruct (decide (n = 0)%nat) as [Hz|Hz].
  - rewrite Hz. split; [apply moved_forward; lia|]. right; left. by split.
  - apply advances_forward. lia.
Qed.

(** [next] moves the lexer forward inside [src]; it stands still only at the end of
    the input and on a stalled identifier. *)
Lemma next_advances l t l' : next l = Ok (t, l') -> advances l t l'.
Proof.
  unfold next. set (k := skipSpace l). intros En.
  apply (advances_trans l k); [apply skipSpace_moved|]. clearbody k. clear l.
  destruct (l_rest k) as [|c s] eqn:E.
  { simplify_eq. split; [apply moved_refl|]. by left. }
  assert (1 <= slen (l_rest k))%nat by (rewrite E, slen_cons; lia).
  repeat match type of En with
  | (if Ascii.eqb (peekAt k 1) ?d then _ else _) = _ =>
      let H := fresh "Hp" in
      destruct (Ascii.eqb (peekAt k 1) d) eqn:H;
      [apply peekAt_1 in H; [|done]|]
  | (if ?b then _ else _) = _ => destruct b eqn:?
  end; simplify_eq; try (apply advances_forward; lia).
  - by eapply lexString_advances; [rewrite E|].
  - by eapply lexRegex_advances; [rewrite E|].
  - by eapply lexNumber_advances.
  - by apply lexIdent_advances.
Qed.

End Lexer.
