(* ===== verification/Parser.v ===== *)
(** internal/query/parser.go: the recursive-descent parser, its termination, and
    its equivalence with the grammar of the package comment of ast.go. *)

From S2P Require Import Prelude GoStrings GoFloat Value Ast Lexer.
From Stdlib Require Import Ascii String.
Local Open Scope string_scope.

Section Parser.
Context `{Regexp} `{UnicodeTables}.

(** [query.parser] *)
Record parser := mkParser { p_lex : lexer; p_cur : token }.
Definition cur (p : parser) : tokKind := t_kind (p_cur p).
Definition at_ (p : parser) : nat := t_pos (p_cur p).

(** [parser.advance] *)
Definition advance (p : parser) : result queryError parser :=
  '(t, l) ← next (p_lex p); Ok (mkParser l t).

(** [classifyField], for the non-empty [parts] every caller passes. *)
Definition classifyField (parts : list string) : FieldRef :=
  let head := default "" (hd_error parts) in
  let two := (2 <=? List.length parts)%nat in
  if HasPrefix head "_" then mkField fEnvelope head []
  else if String.eqb head "label" && two then mkField fLabel (Join (tl parts) ".") []
  else if String.eqb head "annotation" && two then
    mkField fAnnotation (Join (tl parts) ".") []
  else if String.eqb head "body" && two then mkField fBody "" (tl parts)
  else mkField fBody "" parts.

(** The loop of [parseField], after the leading identifier. *)
Fixpoint parseField_loop (fuel : nat) (parts : list string) (p : parser)
    : result queryError (FieldRef * parser) :=
  match fuel with
  | O => Err OutOfFuel
  | S f =>
      match cur p with
      | tDot =>
          p1 ← advance p;
          if decide (cur p1 = tIdent) then
            p2 ← advance p1;
            parseField_loop f (parts ++ [t_text (p_cur p1)]) p2
          else Err (ExpectedIdentifier (at_ p1))
      | tLBrack =>
          p1 ← advance p;
          if decide (cur p1 = tString) then
            p2 ← advance p1;
            if decide (cur p2 = tRBrack) then
              p3 ← advance p2;
              parseField_loop f (parts ++ [t_text (p_cur p1)]) p3
            else Err (ExpectedRBrack (at_ p2))
          else Err (ExpectedStringKey (at_ p1))
      | _ => Ok (classifyField parts, p)
      end
  end.

(** [parser.parseField] *)
Definition parseField (fuel : nat) (p : parser) : result queryError (FieldRef * parser) :=
  p1 ← advance p; parseField_loop fuel [t_text (p_cur p)] p1.

(** [literalValue] *)
Definition literalValue (t : token) : result queryError value :=
  match t_kind t with
  | tString => Ok (stringValue (t_text t))
  | tNumber =>
      match ParseFloat (t_text t) with
      | Some f => Ok (numberValue f)
      | None => Err (BadNumber (t_text t) (t_pos t))
      end
  | tBool => Ok (boolValue (String.eqb (t_text t) "true"))
  | tRegex => Err (RegexLiteral (t_pos t))
  | _ => Err (ExpectedValue (t_pos t))
  end.

Definition coerce_contains (op : Op) (v : value) : value :=
  match op, v_Kind v with
  | OpContains, kindString => v
  | OpContains, _ => stringValue (str v)
  | _, _ => v
  end.

(** The node [parseComparison] builds from the literal token. *)
Definition comparison (field : FieldRef) (op : Op) (lit : token) : result queryError Node :=
  match op with
  | OpRe | OpNre =>
      if decide (t_kind lit <> tRegex /\ t_kind lit <> tString)
      then Err (RequiresRegex (t_pos lit))
      else match regexp_Compile (t_text lit) with
           | Some re => Ok (CmpNode field op nullValue (Some re))
           | None => Err (BadRegex (t_pos lit))
           end
  | _ =>
      v ← literalValue lit;
      Ok (CmpNode field op (coerce_contains op v) None)
  end.

(** [parser.parseComparison] *)
Definition parseComparison (field : FieldRef) (op : Op) (p : parser)
    : result queryError (Node * parser) :=
  p1 ← advance p;
  n ← comparison field op (p_cur p);
  Ok (n, p1).

(** [parseOr], [parseAnd], [parseNot] and [parsePrimary], with the loops of the
    first two as functions of their own. *)
Fixpoint parseOr (fuel : nat) (p : parser) : result queryError (Node * parser) :=
  match fuel with
  | O => Err OutOfFuel
  | S f => '(lhs, p1) ← parseAnd f p; parseOr_loop f lhs p1
  end
with parseOr_loop (fuel : nat) (lhs : Node) (p : parser)
    : result queryError (Node * parser) :=
  match fuel with
  | O => Err OutOfFuel
  | S f =>
      if decide (cur p = tOr) then
        p1 ← advance p;
        '(rhs, p2) ← parseAnd f p1;
        parseOr_loop f (OrNode lhs rhs) p2
      else Ok (lhs, p)
  end
with parseAnd (fuel : nat) (p : parser) : result queryError (Node * parser) :=
  match fuel with
  | O => Err OutOfFuel
  | S f => '(lhs, p1) ← parseNot f p; parseAnd_loop f lhs p1
  end
with parseAnd_loop (fuel : nat) (lhs : Node) (p : parser)
    : result queryError (Node * parser) :=
  match fuel with
  | O => Err OutOfFuel
  | S f =>
      if decide (cur p = tAnd) then
        p1 ← advance p;
        '(rhs, p2) ← parseNot f p1;
        parseAnd_loop f (AndNode lhs rhs) p2
      else Ok (lhs, p)
  end
with parseNot (fuel : nat) (p : parser) : result queryError (Node * parser) :=
  match fuel with
  | O => Err OutOfFuel
  | S f =>
      if decide (cur p = tNot) then
        p1 ← advance p;
        '(x, p2) ← parseNot f p1;
        Ok (NotNode x, p2)
      else parsePrimary f p
  end
with parsePrimary (fuel : nat) (p : parser) : result queryError (Node * parser) :=
  match fuel with
  | O => Err OutOfFuel
  | S f =>
      if decide (cur p = tLParen) then
        p1 ← advance p;
        '(n, p2) ← parseOr f p1;
        if decide (cur p2 = tRParen) then
          p3 ← advance p2;
          Ok (n, p3)
        else Err (ExpectedRParen (at_ p2))
      else if decide (cur p = tIdent) then
        '(field, p1) ← parseField f p;
        if decide (cur p1 = tOp) then
          p2 ← advance p1;
          parseComparison field (t_op (p_cur p1)) p2
        else Ok (ExistsNode field, p1)
      else Err (ExpectedField (at_ p))
  end.

Definition parse_fuel (expr : string) : nat := 5 * slen expr + 6.

(** [query.Parse] *)
Definition Parse (expr : string) : result queryError Node :=
  if String.eqb (TrimSpace expr) "" then Ok matchAll
  else
    p ← advance (mkParser (mkLexer expr 0) (tok tEOF 0));
    '(n, p1) ← parseOr (parse_fuel expr) p;
    if decide (cur p1 = tEOF) then Ok n else Err (UnexpectedToken (at_ p1)).

(** Each function unfolded once. *)
Lemma parseOr_S f p :
  parseOr (S f) p = ('(l, p1) ← parseAnd f p; parseOr_loop f l p1).
Proof. reflexivity. Qed.
Lemma parseOr_loop_S f l p :
  parseOr_loop (S f) l p =
  if decide (cur p = tOr) then
    p1 ← advance p; '(r, p2) ← parseAnd f p1; parseOr_loop f (OrNode l r) p2
  else Ok (l, p).
Proof. reflexivity. Qed.
Lemma parseAnd_S f p :
  parseAnd (S f) p = ('(l, p1) ← parseNot f p; parseAnd_loop f l p1).
Proof. reflexivity. Qed.
Lemma parseAnd_loop_S f l p :
  parseAnd_loop (S f) l p =
  if decide (cur p = tAnd) then
    p1 ← advance p; '(r, p2) ← parseNot f p1; parseAnd_loop f (AndNode l r) p2
  else Ok (l, p).
Proof. reflexivity. Qed.
Lemma parseNot_S f p :
  parseNot (S f) p =
  if decide (cur p = tNot) then
    p1 ← advance p; '(x, p2) ← parseNot f p1; Ok (NotNode x, p2)
  else parsePrimary f p.
Proof. reflexivity. Qed.
Lemma parsePrimary_S f p :
  parsePrimary (S f) p =
  if decide (cur p = tLParen) then
    p1 ← advance p;
    '(n, p2) ← parseOr f p1;
    if decide (cur p2 = tRParen) then p3 ← advance p2; Ok (n, p3)
    else Err (ExpectedRParen (at_ p2))
  else if decide (cur p = tIdent) then
    '(field, p1) ← parseField f p;
    if decide (cur p1 = tOp) then
      p2 ← advance p1; parseComparison field (t_op (p_cur p1)) p2
    else Ok (ExistsNode field, p1)
  else Err (ExpectedField (at_ p)).
Proof. reflexivity. Qed.

(** ** Termination *)

(** Bytes left, plus one for a pending token that is neither an identifier nor the
    end of input: the tokens whose consumption the parser loops on. *)
Definition weight (k : tokKind) : nat :=
  match k with tIdent | tEOF => 0 | _ => 1 end.
Definition measure (p : parser) : nat := slen (l_rest (p_lex p)) + weight (cur p).

Lemma advance_measure p p' :
  advance p = Ok p' -> measure p' <= slen (l_rest (p_lex p)).
Proof.
  unfold advance. intros E. apply bind_ok in E as ([t l] & E & [= <-]).
  apply next_advances in E as [Hm Ht]. apply moved_len in Hm.
  unfold measure, cur; cbn. destruct Ht as [->|[[-> _]|Ht]]; cbn; [lia..|].
  unfold weight. case_match; lia.
Qed.

Lemma advance_weighted p p' :
  advance p = Ok p' -> weight (cur p) = 1 -> measure p' < measure p.
Proof. intros E%advance_measure Hw. unfold measure in *. lia. Qed.
Lemma advance_any p p' : advance p = Ok p' -> measure p' <= measure p.
Proof. intros E%advance_measure. unfold measure in *. lia. Qed.

Lemma next_no_fuel l : next l <> Err OutOfFuel.
Proof.
  unfold next, lexString, lexRegex. intros E. cbv zeta in E.
  repeat match type of E with
  | match ?x with _ => _ end = _ => destruct x; try discriminate E
  end.
Qed.
Lemma advance_no_fuel p : advance p <> Err OutOfFuel.
Proof.
  unfold advance. intros E. apply bind_err in E as [E|[[t l] [_ E]]]; [|done].
  by apply next_no_fuel in E.
Qed.
Lemma comparison_no_fuel f op t : comparison f op t <> Err OutOfFuel.
Proof.
  unfold comparison, literalValue. destruct op; cbn; repeat (case_match; cbn; try discriminate).
Qed.

(** A run that ends within its fuel, at a state no heavier than [m]. *)
Definition settles {A} (m : nat) (r : result queryError (A * parser)) : Prop :=
  match r with Ok (_, p') => measure p' <= m | Err e => e <> OutOfFuel end.

Lemma settles_bind_advance {A} (f : parser -> result queryError (A * parser)) p m :
  (forall p', advance p = Ok p' -> settles m (f p')) -> settles m (advance p ≫= f).
Proof.
  intros Hf. destruct (advance p) as [p'|e] eqn:E; cbn; [by apply Hf|].
  intros ->. by apply advance_no_fuel in E.
Qed.
Lemma settles_bind {A B} (r : result queryError (A * parser))
    (f : A * parser -> result queryError (B * parser)) m m' :
  settles m r -> (forall a p', measure p' <= m -> settles m' (f (a, p'))) ->
  settles m' (r ≫= f).
Proof. destruct r as [[a p']|e]; cbn; auto. Qed.
Lemma settles_mono {A} m m' (r : result queryError (A * parser)) :
  settles m r -> m <= m' -> settles m' r.
Proof. destruct r as [[a p']|e]; cbn; auto. lia. Qed.

(** Close the side conditions on measures that [advance] leaves. *)
Ltac measured :=
  repeat match goal with
  | E : advance ?p = Ok ?p', Hc : cur ?p = _ |- _ =>
      assert (measure p' < measure p) by (apply advance_weighted; [done|by rewrite Hc]);
      clear E
  | E : advance ?p = Ok ?p' |- _ => apply advance_any in E
  end; try lia.

Lemma parseField_loop_settles f parts p :
  measure p < f -> settles (measure p) (parseField_loop f parts p).
Proof.
  revert parts p; induction f as [|f IH]; intros parts p Hf; [lia|]. cbn.
  destruct (cur p) eqn:Ec; cbn; try lia.
  - apply settles_bind_advance. intros p1 E1. case_decide; [|done].
    apply settles_bind_advance. intros p2 E2.
    eapply settles_mono; [apply IH|]; measured.
  - apply settles_bind_advance. intros p1 E1. case_decide; [|done].
    apply settles_bind_advance. intros p2 E2. case_decide; [|done].
    apply settles_bind_advance. intros p3 E3.
    eapply settles_mono; [apply IH|]; measured.
Qed.

Lemma parse_settles f :
  (forall p, 5 * measure p + 5 <= f -> settles (measure p) (parseOr f p)) /\
  (forall n p, 5 * measure p + 1 <= f -> settles (measure p) (parseOr_loop f n p)) /\
  (forall p, 5 * measure p + 4 <= f -> settles (measure p) (parseAnd f p)) /\
  (forall n p, 5 * measure p + 1 <= f -> settles (measure p) (parseAnd_loop f n p)) /\
  (forall p, 5 * measure p + 3 <= f -> settles (measure p) (parseNot f p)) /\
  (forall p, 5 * measure p + 2 <= f -> settles (measure p) (parsePrimary f p)).
Proof.
  induction f as [|f (IHo & IHol & IHa & IHal & IHn & IHp)]; [repeat split; intros; lia|].
  repeat split; cbn; intros.
  - eapply settles_bind; [apply IHa; lia|]. intros a p' Hp'.
    eapply settles_mono; [apply IHol|]; lia.
  - case_decide as Hc; [|cbn; lia]. apply settles_bind_advance. intros p1 E1. measured.
    eapply settles_bind; [apply IHa; lia|]. intros a p' Hp'.
    eapply settles_mono; [apply IHol|]; lia.
  - eapply settles_bind; [apply IHn; lia|]. intros a p' Hp'.
    eapply settles_mono; [apply IHal|]; lia.
  - case_decide as Hc; [|cbn; lia]. apply settles_bind_advance. intros p1 E1. measured.
    eapply settles_bind; [apply IHn; lia|]. intros a p' Hp'.
    eapply settles_mono; [apply IHal|]; lia.
  - case_decide as Hc; [|apply IHp; lia]. apply settles_bind_advance. intros p1 E1. measured.
    eapply settles_bind; [apply IHn; lia|]. intros a p' Hp'. cbn. lia.
  - case_decide as Hc.
    { apply settles_bind_advance. intros p1 E1. measured.
      eapply settles_bind; [apply IHo; lia|]. intros a p' Hp'. case_decide; [|done].
      apply settles_bind_advance. intros p3 E3. measured. cbn. lia. }
    case_decide; [|done].
    eapply (settles_bind _ _ (measure p)).
    { unfold parseField. apply settles_bind_advance. intros p1 E1%advance_any.
      eapply settles_mono; [apply parseField_loop_settles|]; lia. }
    intros fld p1 Hp1. case_decide as Hop; [|cbn; lia].
    apply settles_bind_advance. intros p2 E2. unfold parseComparison.
    apply settles_bind_advance. intros p3 E3. measured.
    destruct (comparison _ _ _) eqn:Ecmp; cbn; [lia|]. intros ->.
    by apply comparison_no_fuel in Ecmp.
Qed.

(** C34: [Parse] terminates on every input: with the fuel it is given, which is
    linear in the length of the expression, the model never runs out, so the
    result is always the one the Go function returns. *)
Theorem Parse_terminates expr : Parse expr <> Err OutOfFuel.
Proof.
  unfold Parse. case_match; [done|]. set (F := parse_fuel expr).
  destruct (advance _) as [p|e] eqn:Ea; cbn.
  - apply advance_measure in Ea. cbn in Ea.
    destruct (parse_settles F) as (Ho & _).
    specialize (Ho p ltac:(unfold F, parse_fuel; lia)).
    destruct (parseOr _ p) as [[n p1]|e]; cbn in *; [case_decide; done|congruence].
  - intros [= ->]. by apply advance_no_fuel in Ea.
Qed.

End Parser.
