(* ===== verification/Grammar.v ===== *)
(** The grammar of the query language, as the package comment of internal/query/ast.go
    writes it, what its sentences mean, and the proof that the parser accepts exactly the
    sentences that mean something and builds what they mean. *)

From S2P Require Import Prelude GoStrings GoFloat Model Value Ast Lexer Parser.
From Stdlib Require Import Ascii String.

Section Grammar.
Context `{Regexp} `{UnicodeTables}.

(** ** The token stream of a lexer *)

(** [consumes p ts p']: from parser state [p], reading past the tokens [ts] (the
    first of them is current at [p]) leads to [p']. *)
Inductive consumes : parser -> list token -> parser -> Prop :=
| consumes_nil p : consumes p [] p
| consumes_cons p p1 ts p' :
    cur p <> tEOF -> advance p = Ok p1 -> consumes p1 ts p' ->
    consumes p (p_cur p :: ts) p'.

(** [tokenizes expr ts]: the lexer reads [expr] as the tokens [ts] and then the end
    of input. *)
Definition tokenizes (expr : string) (ts : list token) : Prop :=
  exists p p', advance (mkParser (mkLexer expr 0) (tok tEOF 0)) = Ok p /\
    consumes p ts p' /\ cur p' = tEOF.

(** ** The grammar
    [field := IDENT ("." IDENT | "[" STRING "]")*] *)
Inductive gPath : list token -> list string -> Prop :=
| path_nil : gPath [] []
| path_dot d i ts ps :
    t_kind d = tDot -> t_kind i = tIdent -> gPath ts ps ->
    gPath (d :: i :: ts) (t_text i :: ps)
| path_brack b s e ts ps :
    t_kind b = tLBrack -> t_kind s = tString -> t_kind e = tRBrack -> gPath ts ps ->
    gPath (b :: s :: e :: ts) (t_text s :: ps).

(** [value := STRING | NUMBER | BOOL | REGEX] *)
Definition gValue (t : token) : Prop := t_kind t ∈ [tString; tNumber; tBool; tRegex].

(** The syntax tree of a sentence, with the parts of each field and the literal tokens. *)
Inductive syntax :=
| SOr (l r : syntax) | SAnd (l r : syntax) | SNot (x : syntax)
| SExists (parts : list string) | SCmp (parts : list string) (op : Op) (lit : token).

(** The productions of [expr]; [primary] is also [field op value] for every operator and
    every value, and [field]. *)
Inductive gOr : list token -> syntax -> Prop :=
| or_one ts n : gAnd ts n -> gOr ts n
| or_more ts1 o ts2 l r :
    gOr ts1 l -> t_kind o = tOr -> gAnd ts2 r -> gOr (ts1 ++ o :: ts2) (SOr l r)
with gAnd : list token -> syntax -> Prop :=
| and_one ts n : gNot ts n -> gAnd ts n
| and_more ts1 a ts2 l r :
    gAnd ts1 l -> t_kind a = tAnd -> gNot ts2 r -> gAnd (ts1 ++ a :: ts2) (SAnd l r)
with gNot : list token -> syntax -> Prop :=
| not_prim ts n : gPrim ts n -> gNot ts n
| not_not k ts n : t_kind k = tNot -> gNot ts n -> gNot (k :: ts) (SNot n)
with gPrim : list token -> syntax -> Prop :=
| prim_paren o ts c n :
    t_kind o = tLParen -> gOr ts n -> t_kind c = tRParen -> gPrim (o :: ts ++ [c]) n
| prim_exists i ts ps :
    t_kind i = tIdent -> gPath ts ps -> gPrim (i :: ts) (SExists (t_text i :: ps))
| prim_cmp i ts ps o v :
    t_kind i = tIdent -> gPath ts ps -> t_kind o = tOp -> gValue v ->
    gPrim (i :: ts ++ [o; v]) (SCmp (t_text i :: ps) (t_op o) v).

Scheme gOr_mut := Minimality for gOr Sort Prop
  with gAnd_mut := Minimality for gAnd Sort Prop
  with gNot_mut := Minimality for gNot Sort Prop
  with gPrim_mut := Minimality for gPrim Sort Prop.
Combined Scheme grammar_ind from gOr_mut, gAnd_mut, gNot_mut, gPrim_mut.

(** ** What sentences mean

    A literal other than a regular expression stands for a value; a number may be none. *)
Inductive literal : token -> value -> Prop :=
| lit_string t : t_kind t = tString -> literal t (stringValue (t_text t))
| lit_number t x : t_kind t = tNumber -> ParseFloat (t_text t) = Some x -> literal t (numberValue x)
| lit_bool t : t_kind t = tBool -> literal t (boolValue (String.eqb (t_text t) "true")).

(** Not every operator goes with every value, which the grammar does not say: a match
    operator takes a regular expression, as such or as a string, that compiles; the
    contains operator takes the text of a literal, and the others take the literal. *)
Inductive compares (field : FieldRef) : Op -> token -> Node -> Prop :=
| cmp_regex op t re :
    op = OpRe \/ op = OpNre -> t_kind t = tRegex \/ t_kind t = tString ->
    regexp_Compile (t_text t) = Some re -> compares field op t (CmpNode field op nullValue (Some re))
| cmp_contains t v :
    literal t v -> compares field OpContains t (CmpNode field OpContains (stringValue (str v)) None)
| cmp_value op t v :
    op ∉ [OpRe; OpNre; OpContains] -> literal t v -> compares field op t (CmpNode field op v None).

(** The tree a sentence stands for, if all its comparisons make sense. *)
Inductive means : syntax -> Node -> Prop :=
| means_or l r nl nr : means l nl -> means r nr -> means (SOr l r) (OrNode nl nr)
| means_and l r nl nr : means l nl -> means r nr -> means (SAnd l r) (AndNode nl nr)
| means_not x n : means x n -> means (SNot x) (NotNode n)
| means_exists parts : means (SExists parts) (ExistsNode (classifyField parts))
| means_cmp parts op t n : compares (classifyField parts) op t n -> means (SCmp parts op t) n.

(** Tokens that are a sentence and stand for a tree. *)
Definition says (g : list token -> syntax -> Prop) (ts : list token) (n : Node) : Prop :=
  exists s, g ts s /\ means s n.

Lemma compares_value field op t n : compares field op t n -> gValue t.
Proof.
  unfold gValue. rewrite !elem_of_cons.
  by intros [? ? re _ [?|?] _|? ? []|? ? ? _ []]; auto 6.
Qed.

Lemma says_or_one ts n : says gAnd ts n -> says gOr ts n.
Proof. intros (s & ? & ?). exists s. split; [by constructor|done]. Qed.
Lemma says_or ts1 o ts2 l r : says gOr ts1 l -> t_kind o = tOr -> says gAnd ts2 r -> says gOr (ts1 ++ o :: ts2) (OrNode l r).
Proof. intros (s & ? & ?) Ho (s' & ? & ?). exists (SOr s s'). split; by constructor. Qed.
Lemma says_and_one ts n : says gNot ts n -> says gAnd ts n.
Proof. intros (s & ? & ?). exists s. split; [by constructor|done]. Qed.
Lemma says_and ts1 a ts2 l r : says gAnd ts1 l -> t_kind a = tAnd -> says gNot ts2 r -> says gAnd (ts1 ++ a :: ts2) (AndNode l r).
Proof. intros (s & ? & ?) Ha (s' & ? & ?). exists (SAnd s s'). split; by constructor. Qed.
Lemma says_prim ts n : says gPrim ts n -> says gNot ts n.
Proof. intros (s & ? & ?). exists s. split; [by constructor|done]. Qed.
Lemma says_not k ts n : t_kind k = tNot -> says gNot ts n -> says gNot (k :: ts) (NotNode n).
Proof. intros Hk (s & ? & ?). exists (SNot s). split; by constructor. Qed.
Lemma says_paren o ts c n : t_kind o = tLParen -> says gOr ts n -> t_kind c = tRParen -> says gPrim (o :: ts ++ [c]) n.
Proof. intros Ho (s & ? & ?) Hc. exists s. split; [by constructor|done]. Qed.
Lemma says_exists i ts ps : t_kind i = tIdent -> gPath ts ps ->
  says gPrim (i :: ts) (ExistsNode (classifyField (t_text i :: ps))).
Proof. intros. exists (SExists (t_text i :: ps)). split; by constructor. Qed.
Lemma says_cmp i ts ps o v n : t_kind i = tIdent -> gPath ts ps -> t_kind o = tOp ->
  compares (classifyField (t_text i :: ps)) (t_op o) v n -> says gPrim (i :: ts ++ [o; v]) n.
Proof.
  intros ? ? ? Hc. exists (SCmp (t_text i :: ps) (t_op o) v).
  split; constructor; eauto using compares_value.
Qed.

(** ** The literals *)

Lemma literalValue_iff t v : literalValue t = Ok v <-> literal t v.
Proof.
  split.
  - unfold literalValue. destruct (t_kind t) eqn:E; try done.
    + intros [= <-]. by constructor.
    + destruct (ParseFloat _) eqn:Ep; [|done]. intros [= <-]. by constructor.
    + intros [= <-]. by constructor.
  - unfold literalValue. intros [? ->|? x -> ->|? ->]; done.
Qed.
Lemma comparison_iff field op t n : comparison field op t = Ok n <-> compares field op t n.
Proof.
  split.
  - intros E. destruct (decide (op = OpRe \/ op = OpNre)) as [Hop|Hop].
    + assert (E' : (if decide (t_kind t <> tRegex /\ t_kind t <> tString) then Err (RequiresRegex (t_pos t))
               else match regexp_Compile (t_text t) with
                    | Some re => Ok (CmpNode field op nullValue (Some re))
                    | None => Err (BadRegex (t_pos t)) end) = Ok n)
        by (rewrite <- E; by destruct Hop as [-> | ->]).
      case_decide as Hk; [done|]. destruct (regexp_Compile _) eqn:Er; [|done].
      injection E' as <-. constructor; [done| |done].
      destruct (decide (t_kind t = tRegex)); [by left|]. right. destruct (decide (t_kind t = tString)); tauto.
    + assert (E' : exists v, literalValue t = Ok v /\ CmpNode field op (coerce_contains op v) None = n).
      { destruct op; try (exfalso; apply Hop; by auto); apply bind_ok in E as (v & Ev & [= <-]); by exists v. }
      destruct E' as (v & Ev%literalValue_iff & <-).
      destruct (decide (op = OpContains)) as [->|Hc]; cycle 1.
      { replace (coerce_contains op v) with v by (destruct op; done). constructor; [|done].
        rewrite !elem_of_cons, elem_of_nil. tauto. }
      replace (coerce_contains OpContains v) with (stringValue (str v)); [by constructor|].
      destruct Ev; done.
  - intros [op' t' re Hop Hk Hr|t' v Hv|op' t' v Hop Hv].
    + assert (Hd : ~ (t_kind t' <> tRegex /\ t_kind t' <> tString)) by tauto.
      destruct Hop as [-> | ->]; cbn; by rewrite decide_False, Hr.
    + cbn. rewrite (proj2 (literalValue_iff _ _) Hv). cbn. by destruct Hv.
    + rewrite !elem_of_cons, elem_of_nil in Hop.
      destruct op'; try (exfalso; by auto); cbn; by rewrite (proj2 (literalValue_iff _ _) Hv).
Qed.

(** ** Token-stream lemmas *)

Lemma consumes_app p ts1 p1 ts2 p2 :
  consumes p ts1 p1 -> consumes p1 ts2 p2 -> consumes p (ts1 ++ ts2) p2.
Proof. induction 1; cbn; [done|]. intros. econstructor; eauto. Qed.

Lemma consumes_app_inv p ts1 ts2 p2 :
  consumes p (ts1 ++ ts2) p2 -> exists p1, consumes p ts1 p1 /\ consumes p1 ts2 p2.
Proof.
  revert p; induction ts1 as [|t ts1 IH]; cbn; intros p E.
  - exists p. split; [constructor|done].
  - inversion E as [|? p1 ? ? Hne Ha Hc]; subst. apply IH in Hc as (p3 & ? & ?).
    exists p3. split; [by econstructor|done].
Qed.

Lemma consumes_cons_inv p t ts p' :
  consumes p (t :: ts) p' ->
  t = p_cur p /\ cur p <> tEOF /\ exists p1, advance p = Ok p1 /\ consumes p1 ts p'.
Proof. inversion 1; subst; eauto. Qed.

Lemma consumes_one p p1 : cur p <> tEOF -> advance p = Ok p1 -> consumes p [p_cur p] p1.
Proof. intros. econstructor; eauto. constructor. Qed.

Lemma consumes_step p t p1 ts p' :
  p_cur p = t -> t_kind t <> tEOF -> advance p = Ok p1 -> consumes p1 ts p' ->
  consumes p (t :: ts) p'.
Proof. intros <- **. by econstructor. Qed.

Lemma comparison_not_eof f op t n : comparison f op t = Ok n -> t_kind t <> tEOF.
Proof.
  intros E Ht. unfold comparison, literalValue in E. rewrite Ht in E. destruct op; cbn in E; try done.
  all: case_decide as Hd; [done|]; apply Hd; split; discriminate.
Qed.

(** ** Soundness: an accepted input is a sentence of the grammar *)

Ltac unbind :=
  repeat (case_decide || match goal with
  | E : (?x ≫= _) = Ok _ |- _ => apply bind_ok in E as (? & ? & E)
  | x : (_ * _)%type |- _ => destruct x
  | E : Ok _ = Ok _ |- _ => injection E; clear E; intros; subst
  | E : Err _ = Ok _ |- _ => discriminate E
  end).

Lemma parseField_loop_sound f parts p fld p' :
  parseField_loop f parts p = Ok (fld, p') ->
  exists ts ps, consumes p ts p' /\ gPath ts ps /\ fld = classifyField (parts ++ ps).
Proof.
  revert parts p; induction f as [|f IH]; cbn; intros parts p E; [done|].
  destruct (cur p) eqn:Ec; unbind;
    try (exists [], []; rewrite app_nil_r; repeat constructor; fail).
  - apply IH in E as (ts & ps & Hc & Hp & ->).
    eexists (_ :: _ :: ts), (_ :: ps). rewrite <- app_assoc. split; [|split; [|done]].
    + do 2 (eapply consumes_step; [done|unfold cur in *; congruence|done|]). done.
    + by constructor.
  - apply IH in E as (ts & ps & Hc & Hp & ->).
    eexists (_ :: _ :: _ :: ts), (_ :: ps). rewrite <- app_assoc. split; [|split; [|done]].
    + do 3 (eapply consumes_step; [done|unfold cur in *; congruence|done|]). done.
    + by constructor.
Qed.

Ltac step := eapply consumes_step; [done|unfold cur in *; congruence|done|].

Lemma parsePrimary_sound f :
  (forall p n p', parseOr f p = Ok (n, p') -> exists ts, consumes p ts p' /\ says gOr ts n) ->
  forall p n p', parsePrimary (S f) p = Ok (n, p') ->
  exists ts, consumes p ts p' /\ says gPrim ts n.
Proof.
  intros IHo p n p' E. rewrite parsePrimary_S in E. case_decide as Hl; [|case_decide as Hi; [|done]].
  - apply bind_ok in E as (p1 & E1 & E). apply bind_ok in E as ([m p2] & E2 & E).
    case_decide; [|done]. apply bind_ok in E as (p3 & E3 & [= <- <-]).
    apply IHo in E2 as (ts & C & G).
    exists (p_cur p :: ts ++ [p_cur p2]). split; [|by apply says_paren].
    step. eapply consumes_app; [done|]. step. constructor.
  - apply bind_ok in E as ([fld p1] & Ef & E). unfold parseField in Ef.
    apply bind_ok in Ef as (p0 & E0 & Ef).
    apply parseField_loop_sound in Ef as (ts & ps & C & G & ->). case_decide.
    + apply bind_ok in E as (p2 & E2 & E). unfold parseComparison in E.
      apply bind_ok in E as (p3 & E3 & E). apply bind_ok in E as (m & Ec & [= <- <-]).
      assert (t_kind (p_cur p2) <> tEOF) by (by eapply comparison_not_eof).
      exists (p_cur p :: ts ++ [p_cur p1; p_cur p2]). split; [|apply comparison_iff in Ec; by apply (says_cmp _ _ ps)].
      step. eapply consumes_app; [done|]. do 2 step. constructor.
    + injection E as <- <-. exists (p_cur p :: ts). split; [by step|]. by apply says_exists.
Qed.

Lemma parse_sound f :
  (forall p n p', parseOr f p = Ok (n, p') -> exists ts, consumes p ts p' /\ says gOr ts n) /\
  (forall l p n p' ts0, says gOr ts0 l -> parseOr_loop f l p = Ok (n, p') ->
     exists ts, consumes p ts p' /\ says gOr (ts0 ++ ts) n) /\
  (forall p n p', parseAnd f p = Ok (n, p') -> exists ts, consumes p ts p' /\ says gAnd ts n) /\
  (forall l p n p' ts0, says gAnd ts0 l -> parseAnd_loop f l p = Ok (n, p') ->
     exists ts, consumes p ts p' /\ says gAnd (ts0 ++ ts) n) /\
  (forall p n p', parseNot f p = Ok (n, p') -> exists ts, consumes p ts p' /\ says gNot ts n) /\
  (forall p n p', parsePrimary f p = Ok (n, p') -> exists ts, consumes p ts p' /\ says gPrim ts n).
Proof.
  induction f as [|f (IHo & IHol & IHa & IHal & IHn & IHp)]; [repeat split; discriminate|].
  split; [|split; [|split; [|split; [|split]]]]; [..|by apply parsePrimary_sound].
  - intros p n p' E. rewrite parseOr_S in E. apply bind_ok in E as ([l p1] & E1 & E).
    apply IHa in E1 as (ts1 & C1 & G1).
    eapply IHol in E as (ts2 & C2 & G2); [|by apply says_or_one].
    exists (ts1 ++ ts2). split; [by eapply consumes_app|done].
  - intros l p n p' ts0 G0 E. rewrite parseOr_loop_S in E. case_decide.
    2: { injection E as <- <-. exists []. rewrite app_nil_r. split; [constructor|done]. }
    apply bind_ok in E as (p1 & E1 & E). apply bind_ok in E as ([r p2] & E2 & E).
    apply IHa in E2 as (ts1 & C1 & G1).
    eapply IHol in E as (ts2 & C2 & G2); [|by eapply (says_or _ (p_cur p))].
    exists (p_cur p :: ts1 ++ ts2). rewrite <- app_assoc in G2. split; [|done].
    step. by eapply consumes_app.
  - intros p n p' E. rewrite parseAnd_S in E. apply bind_ok in E as ([l p1] & E1 & E).
    apply IHn in E1 as (ts1 & C1 & G1).
    eapply IHal in E as (ts2 & C2 & G2); [|by apply says_and_one].
    exists (ts1 ++ ts2). split; [by eapply consumes_app|done].
  - intros l p n p' ts0 G0 E. rewrite parseAnd_loop_S in E. case_decide.
    2: { injection E as <- <-. exists []. rewrite app_nil_r. split; [constructor|done]. }
    apply bind_ok in E as (p1 & E1 & E). apply bind_ok in E as ([r p2] & E2 & E).
    apply IHn in E2 as (ts1 & C1 & G1).
    eapply IHal in E as (ts2 & C2 & G2); [|by eapply (says_and _ (p_cur p))].
    exists (p_cur p :: ts1 ++ ts2). rewrite <- app_assoc in G2. split; [|done].
    step. by eapply consumes_app.
  - intros p n p' E. rewrite parseNot_S in E. case_decide.
    + apply bind_ok in E as (p1 & E1 & E). apply bind_ok in E as ([x p2] & E2 & [= <- <-]).
      apply IHn in E2 as (ts & C & G). exists (p_cur p :: ts). split; [by step|].
      by apply says_not.
    + apply IHp in E as (ts & C & G). exists ts. split; [done|by apply says_prim].
Qed.

(** ** Completeness: a sentence is accepted with the tree it denotes *)

(** The tokens that can follow a complete operand. *)
Definition follow (k : tokKind) : Prop := k = tAnd \/ k = tOr \/ k = tRParen \/ k = tEOF.
Definition follow_or (k : tokKind) : Prop := k = tOr \/ k = tRParen \/ k = tEOF.

Lemma follow_or_follow k : follow_or k -> follow k.
Proof. unfold follow, follow_or. tauto. Qed.

Lemma parseField_loop_complete ts ps p p' parts :
  gPath ts ps -> consumes p ts p' -> cur p' <> tDot -> cur p' <> tLBrack ->
  exists k, forall f, k <= f -> parseField_loop f parts p = Ok (classifyField (parts ++ ps), p').
Proof.
  intros G. revert p parts.
  induction G as [|d i ts ps Hd Hi G IH|b s e ts ps Hb Hs He G IH]; intros p parts C Hn1 Hn2.
  - inversion C; subst. exists 1%nat. intros [|f] Hf; [lia|]. cbn. rewrite app_nil_r.
    by destruct (cur p').
  - apply consumes_cons_inv in C as (-> & Hd' & p1 & E1 & C).
    apply consumes_cons_inv in C as (-> & Hi' & p2 & E2 & C).
    destruct (IH p2 (parts ++ [t_text (p_cur p1)]) C Hn1 Hn2) as [k Hk].
    exists (S k). intros [|f] Hf; [lia|]. cbn. unfold cur in *. rewrite Hd, E1. cbn.
    rewrite decide_True by done. rewrite E2. cbn. rewrite Hk by lia. by rewrite <- app_assoc.
  - apply consumes_cons_inv in C as (-> & Hd' & p1 & E1 & C).
    apply consumes_cons_inv in C as (-> & Hi' & p2 & E2 & C).
    apply consumes_cons_inv in C as (-> & He' & p3 & E3 & C).
    destruct (IH p3 (parts ++ [t_text (p_cur p1)]) C Hn1 Hn2) as [k Hk].
    exists (S k). intros [|f] Hf; [lia|]. cbn. unfold cur in *. rewrite Hb, E1. cbn.
    rewrite decide_True by done. rewrite E2. cbn. rewrite decide_True by done.
    rewrite E3. cbn. rewrite Hk by lia. by rewrite <- app_assoc.
Qed.

(** "With enough fuel, parsing at [p] gives [n] and stops at [p']." *)
Definition eventually (parse : nat -> parser -> result queryError (Node * parser))
    (p : parser) (n : Node) (p' : parser) : Prop :=
  exists k, forall f, k <= f -> parse f p = Ok (n, p').
(** "With enough fuel, parsing at [p] enters the loop at [p'] with operand [n]." *)
Definition reaches (parse : nat -> parser -> result queryError (Node * parser))
    (loop : nat -> Node -> parser -> result queryError (Node * parser))
    (p : parser) (n : Node) (p' : parser) : Prop :=
  exists k, forall f, exists f', f <= f' /\ parse (k + f) p = loop f' n p'.

Lemma reaches_eventually parse loop p n p' :
  reaches parse loop p n p' ->
  (forall f, 1 <= f -> loop f n p' = Ok (n, p')) -> eventually parse p n p'.
Proof.
  intros [k Hk] Hloop. exists (k + 1). intros f Hf.
  destruct (Hk (f - k)) as (f' & Hf' & E). replace (k + (f - k)) with f in E by lia.
  rewrite E. apply Hloop. lia.
Qed.

Lemma or_stops p n p' :
  reaches parseOr parseOr_loop p n p' -> cur p' <> tOr -> eventually parseOr p n p'.
Proof.
  intros R Hn. eapply reaches_eventually; [done|]. intros [|f] Hf; [lia|]. cbn.
  by rewrite decide_False.
Qed.
Lemma and_stops p n p' :
  reaches parseAnd parseAnd_loop p n p' -> cur p' <> tAnd -> eventually parseAnd p n p'.
Proof.
  intros R Hn. eapply reaches_eventually; [done|]. intros [|f] Hf; [lia|]. cbn.
  by rewrite decide_False.
Qed.

Lemma or_first p n p' :
  eventually parseAnd p n p' -> reaches parseOr parseOr_loop p n p'.
Proof.
  intros [k Hk]. exists (S k). intros f. exists (k + f). split; [lia|]. cbn.
  by rewrite Hk by lia.
Qed.
Lemma and_first p n p' :
  eventually parseNot p n p' -> reaches parseAnd parseAnd_loop p n p'.
Proof.
  intros [k Hk]. exists (S k). intros f. exists (k + f). split; [lia|]. cbn.
  by rewrite Hk by lia.
Qed.

Lemma or_next p l p1 p2 r p3 :
  reaches parseOr parseOr_loop p l p1 -> cur p1 = tOr -> advance p1 = Ok p2 ->
  eventually parseAnd p2 r p3 -> reaches parseOr parseOr_loop p (OrNode l r) p3.
Proof.
  intros [k Hk] Hc Ha [k2 Hk2]. exists (k + S k2). intros f.
  destruct (Hk (S (k2 + f))) as (f' & Hf' & E).
  destruct f' as [|f']; [lia|]. exists f'. split; [lia|].
  replace (k + S k2 + f) with (k + S (k2 + f)) by lia. rewrite E. cbn.
  rewrite decide_True by done. rewrite Ha. cbn. by rewrite Hk2 by lia.
Qed.
Lemma and_next p l p1 p2 r p3 :
  reaches parseAnd parseAnd_loop p l p1 -> cur p1 = tAnd -> advance p1 = Ok p2 ->
  eventually parseNot p2 r p3 -> reaches parseAnd parseAnd_loop p (AndNode l r) p3.
Proof.
  intros [k Hk] Hc Ha [k2 Hk2]. exists (k + S k2). intros f.
  destruct (Hk (S (k2 + f))) as (f' & Hf' & E).
  destruct f' as [|f']; [lia|]. exists f'. split; [lia|].
  replace (k + S k2 + f) with (k + S (k2 + f)) by lia. rewrite E. cbn.
  rewrite decide_True by done. rewrite Ha. cbn. by rewrite Hk2 by lia.
Qed.

Lemma not_prefix p p1 n p' :
  cur p = tNot -> advance p = Ok p1 -> eventually parseNot p1 n p' ->
  eventually parseNot p (NotNode n) p'.
Proof.
  intros Hc Ha [k Hk]. exists (S k). intros [|f] Hf; [lia|]. cbn.
  rewrite decide_True by done. rewrite Ha. cbn. by rewrite Hk by lia.
Qed.

Lemma not_primary p n p' :
  eventually parsePrimary p n p' -> cur p <> tNot -> eventually parseNot p n p'.
Proof.
  intros [k Hk] Hc. exists (S k). intros [|f] Hf; [lia|]. cbn.
  rewrite decide_False by done. by rewrite Hk by lia.
Qed.

Lemma primary_paren p p1 n p2 p3 :
  cur p = tLParen -> advance p = Ok p1 -> eventually parseOr p1 n p2 ->
  cur p2 = tRParen -> advance p2 = Ok p3 -> eventually parsePrimary p n p3.
Proof.
  intros Hc Ha [k Hk] Hc2 Ha2. exists (S k). intros [|f] Hf; [lia|]. cbn.
  rewrite decide_True by done. rewrite Ha. cbn. rewrite Hk by lia. cbn.
  rewrite decide_True by done. by rewrite Ha2.
Qed.

Lemma primary_field p p1 ts ps p2 :
  cur p = tIdent -> advance p = Ok p1 -> gPath ts ps -> consumes p1 ts p2 ->
  cur p2 <> tDot -> cur p2 <> tLBrack ->
  exists k, forall f, k <= f ->
    parseField f p = Ok (classifyField (t_text (p_cur p) :: ps), p2).
Proof.
  intros Hc Ha G C H1 H2.
  destruct (parseField_loop_complete _ _ _ _ [t_text (p_cur p)] G C H1 H2) as [k Hk].
  exists k. intros f Hf. unfold parseField. rewrite Ha. cbn. by rewrite Hk.
Qed.

Lemma gPrim_head ts n : gPrim ts n ->
  exists t ts', ts = t :: ts' /\ t_kind t <> tNot /\ t_kind t <> tEOF.
Proof. destruct 1; eexists _, _; split; try done; split; congruence. Qed.

Lemma follow_not_path k : follow k -> k <> tDot /\ k <> tLBrack /\ k <> tOp.
Proof. unfold follow. intros [-> | [-> | [-> | ->]]]; done. Qed.

Lemma consumes_nil_inv p p' : consumes p [] p' -> p' = p.
Proof. by inversion 1. Qed.

Lemma primary_exists i ts ps p p' :
  t_kind i = tIdent -> gPath ts ps -> consumes p (i :: ts) p' -> follow (cur p') ->
  eventually parsePrimary p (ExistsNode (classifyField (t_text i :: ps))) p'.
Proof.
  intros Hi G C (H1 & H2 & H3)%follow_not_path.
  apply consumes_cons_inv in C as (-> & _ & p1 & Ha & C).
  destruct (primary_field p p1 ts ps p' Hi Ha G C H1 H2) as [k Hk].
  exists (S k). intros [|f] Hf; [lia|]. rewrite parsePrimary_S. unfold cur in *.
  rewrite decide_False by congruence. rewrite decide_True by done.
  rewrite Hk by lia. cbn. by rewrite decide_False.
Qed.

Lemma primary_cmp i ts ps o v n p p' :
  t_kind i = tIdent -> gPath ts ps -> t_kind o = tOp ->
  compares (classifyField (t_text i :: ps)) (t_op o) v n ->
  consumes p (i :: ts ++ [o; v]) p' -> eventually parsePrimary p n p'.
Proof.
  intros Hi G Ho Hcmp%comparison_iff C.
  apply consumes_cons_inv in C as (-> & _ & p1 & Ha & C).
  apply consumes_app_inv in C as (p2 & C1 & C2).
  apply consumes_cons_inv in C2 as (-> & _ & p3 & Ha2 & C2).
  apply consumes_cons_inv in C2 as (-> & _ & p4 & Ha3 & C2).
  apply consumes_nil_inv in C2 as ->.
  destruct (primary_field p p1 ts ps p2 Hi Ha G C1) as [k Hk];
    [unfold cur; congruence..|].
  exists (S k). intros [|f] Hf; [lia|]. rewrite parsePrimary_S. unfold cur in *.
  rewrite decide_False by congruence. rewrite decide_True by done.
  rewrite Hk by lia. cbn. rewrite decide_True by done. rewrite Ha2. cbn.
  unfold parseComparison. rewrite Ha3. cbn. by rewrite Hcmp.
Qed.

Lemma grammar_complete :
  (forall ts s, gOr ts s -> forall n, means s n -> forall p p', consumes p ts p' -> follow (cur p') ->
     cur p' <> tAnd -> reaches parseOr parseOr_loop p n p') /\
  (forall ts s, gAnd ts s -> forall n, means s n -> forall p p', consumes p ts p' -> follow (cur p') ->
     reaches parseAnd parseAnd_loop p n p') /\
  (forall ts s, gNot ts s -> forall n, means s n -> forall p p', consumes p ts p' -> follow (cur p') ->
     eventually parseNot p n p') /\
  (forall ts s, gPrim ts s -> forall n, means s n -> forall p p', consumes p ts p' -> follow (cur p') ->
     eventually parsePrimary p n p').
Proof.
  apply grammar_ind.
  - intros ts s _ IH n M p p' C F Hn. apply or_first, and_stops; eauto.
  - intros ts1 o ts2 l r _ IH1 Ho _ IH2 n M p p' C F Hn. inversion M as [? ? nl nr Ml Mr| | | |]; subst.
    apply consumes_app_inv in C as (p1 & C1 & C2).
    apply consumes_cons_inv in C2 as (-> & _ & p2 & Ha & C2).
    eapply or_next; [eapply IH1; [done..|unfold follow, cur; tauto|unfold cur; congruence]|done..|].
    apply and_stops; eauto.
  - intros ts s _ IH n M p p' C F. apply and_first; eauto.
  - intros ts1 o ts2 l r _ IH1 Ho _ IH2 n M p p' C F. inversion M as [|? ? nl nr Ml Mr| | |]; subst.
    apply consumes_app_inv in C as (p1 & C1 & C2).
    apply consumes_cons_inv in C2 as (-> & _ & p2 & Ha & C2).
    eapply and_next; [eapply IH1; [done..|unfold follow, cur; tauto]|done..|eauto].
  - intros ts s G IH n M p p' C F. apply not_primary; [eauto|].
    apply gPrim_head in G as (t & ts' & -> & Ht & _).
    by apply consumes_cons_inv in C as (-> & _).
  - intros t ts s Ht _ IH n M p p' C F. inversion M as [| |? m Mx| |]; subst.
    apply consumes_cons_inv in C as (-> & _ & p1 & Ha & C). eapply not_prefix; eauto.
  - intros o ts c s Ho _ IH Hc n M p p' C F.
    apply consumes_cons_inv in C as (-> & _ & p1 & Ha & C).
    apply consumes_app_inv in C as (p2 & C1 & C2).
    apply consumes_cons_inv in C2 as (-> & _ & p3 & Ha2 & C2).
    apply consumes_nil_inv in C2 as ->.
    eapply primary_paren; [done..| |done|done].
    apply or_stops; [|unfold cur; congruence].
    eapply IH; [done..|unfold follow, cur; tauto|unfold cur; congruence].
  - intros i ts ps Hi G n M p p' C F. inversion M; subst. by eapply primary_exists.
  - intros i ts ps o v Hi G Ho Hv n M p p' C F. inversion M; subst. by eapply primary_cmp.
Qed.

(** ** More fuel never changes a result *)

Definition le_result {A} (r r' : result queryError A) : Prop := r = Err OutOfFuel \/ r = r'.
Lemma le_result_refl {A} (r : result queryError A) : le_result r r.
Proof. by right. Qed.
Lemma le_result_bind {A B} (r r' : result queryError A) (g g' : A -> result queryError B) :
  le_result r r' -> (forall x, le_result (g x) (g' x)) -> le_result (r ≫= g) (r' ≫= g').
Proof. intros [->| ->] Hg; [by left|]. destruct r' as [a|e]; [apply Hg|by right]. Qed.

Create HintDb fuel.
#[local] Hint Resolve le_result_refl le_result_bind : fuel.
Ltac fuel_step :=
  repeat (case_decide || (apply le_result_bind; [|intros ?])
          || match goal with x : (_ * _)%type |- _ => destruct x end);
  eauto with fuel.

Lemma parseField_loop_mono f parts p :
  le_result (parseField_loop f parts p) (parseField_loop (S f) parts p).
Proof.
  revert parts p; induction f as [|f IH]; intros parts p; [by left|].
  cbn [parseField_loop]. destruct (cur p); fuel_step.
Qed.

Lemma parse_mono f :
  (forall p, le_result (parseOr f p) (parseOr (S f) p)) /\
  (forall l p, le_result (parseOr_loop f l p) (parseOr_loop (S f) l p)) /\
  (forall p, le_result (parseAnd f p) (parseAnd (S f) p)) /\
  (forall l p, le_result (parseAnd_loop f l p) (parseAnd_loop (S f) l p)) /\
  (forall p, le_result (parseNot f p) (parseNot (S f) p)) /\
  (forall p, le_result (parsePrimary f p) (parsePrimary (S f) p)).
Proof.
  induction f as [|f (IHo & IHol & IHa & IHal & IHn & IHp)]; [repeat split; by left|].
  repeat split; intros.
  - rewrite 2!parseOr_S. fuel_step.
  - rewrite 2!parseOr_loop_S. case_decide; fuel_step.
  - rewrite 2!parseAnd_S. fuel_step.
  - rewrite 2!parseAnd_loop_S. case_decide; fuel_step.
  - rewrite 2!parseNot_S. case_decide; fuel_step.
  - rewrite 2!parsePrimary_S. case_decide; [fuel_step|]. case_decide; [|fuel_step].
    unfold parseField. fuel_step. apply parseField_loop_mono.
Qed.

Lemma parseOr_more f g p : f <= g -> le_result (parseOr f p) (parseOr g p).
Proof.
  induction 1 as [|g _ [IH|IH]]; [by right|by left|].
  rewrite IH. apply parse_mono.
Qed.

(** ** The parser implements the grammar *)

(** C15: [Parse] implements the documented grammar.  It accepts a (non-blank) expression
    with the tree [n] exactly when the expression lexes to a sentence of the grammar, in
    which [not] binds tighter than [and] and [and] tighter than [or] and both associate to
    the left, and the sentence means [n].  So nothing else is accepted, and a sentence is
    rejected only if it means nothing: when a comparison of it gives a match operator a
    number or a truth value, another operator a regular expression, or a regular
    expression that does not compile or a number that is none. *)
Theorem Parse_iff_grammar expr n :
  TrimSpace expr <> ""%string ->
  Parse expr = Ok n <-> exists ts s, tokenizes expr ts /\ gOr ts s /\ means s n.
Proof.
  intros Hblank. pose proof (Parse_terminates expr) as Hterm. revert Hterm.
  unfold Parse, tokenizes. destruct (String.eqb_spec (TrimSpace expr) ""); [done|].
  generalize (parse_fuel expr) as F. intros F Hterm. split.
  - intros E. apply bind_ok in E as (p & Ea & E). apply bind_ok in E as ([m p1] & Eo & E).
    case_decide; simplify_eq. apply parse_sound in Eo as (ts & C & sx & G & M).
    exists ts, sx. split; [|done]. by exists p, p1.
  - intros (ts & sx & (p & p' & Ea & C & Hend) & G & M). rewrite Ea in *. cbn in *.
    destruct (or_stops p n p') as [k Hk];
      [eapply grammar_complete; [exact G|exact M|done|unfold follow; rewrite Hend; tauto|congruence]|congruence|].
    destruct (parseOr_more F (k + F) p) as [EF|EF]; [lia| |].
    + by rewrite EF in Hterm.
    + rewrite EF, Hk by lia. cbn. by rewrite decide_True.
Qed.

(** ** Parsed trees never panic *)

Lemma means_node_ok sx n : means sx n -> node_ok n = true.
Proof.
  induction 1 as [l r nl nr _ IHl _ IHr|l r nl nr _ IHl _ IHr|x n _ IH|parts|parts op t n Hc]; cbn;
    [by rewrite IHl|by rewrite IHl|done|done|].
  destruct Hc as [? ? re [-> | ->]|? v|op' ? v Hop]; try done. rewrite !elem_of_cons, elem_of_nil in Hop.
  destruct op'; try done; exfalso; by auto.
Qed.

Lemma Parse_node_ok expr n : Parse expr = Ok n -> node_ok n = true.
Proof.
  unfold Parse. destruct (String.eqb _ _); intros E; [by simplify_eq|].
  apply bind_ok in E as (p & _ & E). apply bind_ok in E as ([m p1] & E1 & E).
  case_decide; simplify_eq. apply parse_sound in E1 as (ts & _ & sx & _ & M). by eapply means_node_ok.
Qed.

(** All errors of a query surface when it is parsed: evaluating a parsed
    expression on any record returns a truth value and never panics on a missing
    regular expression. *)
Theorem Parse_Match_total expr n r :
  Parse expr = Ok n -> exists b, Match n r = Some b.
Proof. intros E. exists (sat n r). by apply Match_total, (Parse_node_ok expr). Qed.

End Grammar.

(** The tokens of a concrete expression, found by running the lexer. *)
Ltac tokens :=
  eexists _, _; split; [vm_compute; reflexivity|split;
    [repeat (eapply consumes_step; [reflexivity|discriminate|vm_compute; reflexivity|]); apply consumes_nil
    |reflexivity]].

(** A sentence and its tree. *)
Lemma Parse_iff_grammar_witness :
  exists n, @Parse literal_regexp latin1_tables "not a and b or c" = Ok n.
Proof.
  eexists. apply (@Parse_iff_grammar literal_regexp latin1_tables); [discriminate|].
  exists [tok tNot 0; tokText tIdent "a" 4; tok tAnd 6; tokText tIdent "b" 10;
     tok tOr 12; tokText tIdent "c" 15],
    (SOr (SAnd (SNot (SExists ["a"])) (SExists ["b"])) (SExists ["c"])).
  split; [|split].
  - tokens.
  - apply (or_more [_; _; _; _] _ [_]); [|reflexivity|].
    + apply or_one. apply (and_more [_; _] _ [_]); [|reflexivity|].
      * apply and_one, not_not; [reflexivity|].
        apply not_prim, prim_exists; [reflexivity|constructor].
      * apply not_prim, prim_exists; [reflexivity|constructor].
    + apply and_one, not_prim, prim_exists; [reflexivity|constructor].
  - repeat constructor.
Defined.

(** Sentences of the grammar that mean nothing are rejected: an operator that does not take
    a regular expression, and one that takes nothing else. *)
Definition sentence (expr : string) : Prop := exists ts s, @tokenizes latin1_tables expr ts /\ gOr ts s.
Lemma comparison_sentence expr i o v :
  @tokenizes latin1_tables expr [i; o; v] -> t_kind i = tIdent -> t_kind o = tOp -> gValue v -> sentence expr.
Proof.
  intros Ht Hi Ho Hv. exists [i; o; v], (SCmp [t_text i] (t_op o) v). split; [done|].
  apply or_one, and_one, not_prim, (prim_cmp i [] [] o v); [done|constructor|done|done].
Qed.
Example documented_rejected :
  sentence "a = /x/" /\ @Parse literal_regexp latin1_tables "a = /x/" = Err (RegexLiteral 4) /\
  sentence "a =~ 5" /\ @Parse literal_regexp latin1_tables "a =~ 5" = Err (RequiresRegex 5).
Proof.
  split_and!; try (vm_compute; reflexivity).
  - apply (comparison_sentence _ (tokText tIdent "a" 0) (tokOp OpEq 2) (tokText tRegex "x" 4)); [tokens|done..|].
    apply (bool_decide_unpack _). exact I.
  - apply (comparison_sentence _ (tokText tIdent "a" 0) (tokOp OpRe 2) (tokText tNumber "5" 5)); [tokens|done..|].
    apply (bool_decide_unpack _). exact I.
Qed.

Lemma Parse_Match_total_witness :
  let r := mkRecord (mkSource "n" "/p" 1 2 3) 10 5 "prod" "web" "app" "n" "" "stdout" ∅ ∅ "m" ∅ in
  exists n b, @Parse literal_regexp latin1_tables "_pod =~ /we/" = Ok n /\ Match n r = Some b.
Proof.
  intros r.
  destruct (@Parse literal_regexp latin1_tables "_pod =~ /we/") as [n|] eqn:E; [|discriminate].
  exists n. destruct (@Parse_Match_total literal_regexp latin1_tables "_pod =~ /we/" n r E) as [b Hb].
  exists b. split; [reflexivity|exact Hb].
Defined.
