(* ===== verification/Prune.v ===== *)
(** internal/query/prune.go and [segmentMatches] of planner.go: the equalities a
    query requires, and the segments they rule out. *)

From S2P Require Import Prelude GoStrings Model Value Ast.
From Stdlib Require Import Ascii String.
Local Open Scope list_scope.

(** [query.predicate] *)
Record predicate := mkPred { pr_field : string; pr_value : string }.
#[export] Instance predicate_eq_dec : EqDecision predicate.
Proof. solve_decision. Defined.

(** [hasPred] *)
Fixpoint hasPred (set : list predicate) (p : predicate) : bool :=
  match set with
  | [] => false
  | q :: rest => if decide (q = p) then true else hasPred rest p
  end.

(** [union]: [a], then each element of [b] not yet there. *)
Definition union_preds (a b : list predicate) : list predicate :=
  fold_left (fun out p => if hasPred out p then out else out ++ [p]) b a.

(** [intersect] *)
Definition intersect_preds (a b : list predicate) : list predicate :=
  List.filter (hasPred b) a.

(** [contains] *)
Fixpoint contains_str (set : list string) (v : string) : bool :=
  match set with
  | [] => false
  | s :: rest => if String.eqb s v then true else contains_str rest v
  end.

Section Prune.
Context `{Regexp}.

(** [required] *)
Fixpoint required (n : Node) : list predicate :=
  match n with
  | AndNode l r => union_preds (required l) (required r)
  | OrNode l r => intersect_preds (required l) (required r)
  | CmpNode f op lit _ =>
      match op, f_Kind f, v_Kind lit with
      | OpEq, fEnvelope, kindString => [mkPred (f_Name f) (v_S lit)]
      | _, _, _ => []
      end
  | _ => []
  end.

Definition prunablePredicates (n : Node) : list predicate := required n.

(** The summary a predicate is checked against, if it is on one of the four
    summarised fields. *)
Definition summary_for (m : SegmentMeta) (field : string) : option (list string) :=
  if String.eqb field "_namespace" then Some (sm_Namespaces m)
  else if String.eqb field "_pod" then Some (sm_Pods m)
  else if String.eqb field "_node" then Some (sm_Nodes m)
  else if String.eqb field "_container" then Some (sm_Containers m)
  else None.

(** [segmentMatches] *)
Definition segmentMatches (m : SegmentMeta) (expr : Node) : bool :=
  forallb (fun p =>
    match summary_for m (pr_field p) with
    | None => true
    | Some set => negb ((0 <? List.length set)%nat && negb (contains_str set (pr_value p)))
    end) (prunablePredicates expr).

(** ** What the predicates mean *)

Lemma hasPred_spec set p : hasPred set p = true <-> p ∈ set.
Proof.
  induction set as [|q set IH]; cbn; [split; [done|by intros ?%elem_of_nil]|].
  rewrite elem_of_cons. case_decide; [by subst; split; auto|].
  rewrite IH. split; [by right|by intros [->|]].
Qed.

Lemma elem_of_union_preds a b p : p ∈ union_preds a b <-> p ∈ a \/ p ∈ b.
Proof.
  unfold union_preds. revert a; induction b as [|q b IH]; intros a; cbn.
  - rewrite elem_of_nil. tauto.
  - rewrite IH, elem_of_cons. destruct (hasPred a q) eqn:E.
    + apply hasPred_spec in E. intuition congruence.
    + rewrite elem_of_app, list_elem_of_singleton. tauto.
Qed.

Lemma elem_of_intersect_preds a b p : p ∈ intersect_preds a b <-> p ∈ a /\ p ∈ b.
Proof.
  unfold intersect_preds. rewrite list_elem_of_In, filter_In, hasPred_spec.
  by rewrite <- list_elem_of_In.
Qed.

(** The record's envelope field is present and equals the value. *)
Definition holds (r : LogRecord) (p : predicate) : Prop :=
  exists v, resolveEnvelope r (pr_field p) = Some v /\ str v = pr_value p.

Lemma required_necessary n r p :
  node_ok n = true -> sat n r = true -> p ∈ required n -> holds r p.
Proof.
  induction n as [|l IHl x IHx|l IHl x IHx|x IHx|f|f op lit re]; cbn [required node_ok];
    rewrite ?andb_true_iff; intros Hok Hs Hp; try by apply elem_of_nil in Hp.
  - destruct Hok. rewrite sat_and, andb_true_iff in Hs by done. destruct Hs.
    apply elem_of_union_preds in Hp as [?|?]; auto.
  - destruct Hok. rewrite sat_or, orb_true_iff in Hs by done.
    apply elem_of_intersect_preds in Hp as [??]. destruct Hs; auto.
  - destruct op, (f_Kind f) eqn:Ek, (v_Kind lit) eqn:El; try by apply elem_of_nil in Hp.
    apply list_elem_of_singleton in Hp as ->. unfold sat in Hs; cbn in Hs.
    unfold MatchCmp, resolve in Hs. rewrite Ek in Hs. unfold holds; cbn.
    destruct (resolveEnvelope r (f_Name f)) as [v|]; [|done]. exists v. split; [done|].
    cbn in Hs. unfold cmpEq in Hs. rewrite El in Hs. by apply String.eqb_eq.
Qed.

(** The predicates extracted from a query are necessary: whenever the
    expression matches a record, each of its required equalities holds of the
    record's envelope ([and] unites requirements, [or] keeps the common ones). *)
Theorem required_sound n r p :
  node_ok n = true -> sat n r = true -> p ∈ required n -> holds r p.
Proof. apply required_necessary. Qed.

(** A segment's summary covers a record: each non-empty summarised field of the
    record is listed. *)
Definition summary_covers (m : SegmentMeta) (r : LogRecord) : Prop :=
  (rec_Namespace r <> "" -> rec_Namespace r ∈ sm_Namespaces m)%string /\
  (rec_Pod r <> "" -> rec_Pod r ∈ sm_Pods m)%string /\
  (rec_Node r <> "" -> rec_Node r ∈ sm_Nodes m)%string /\
  (rec_Container r <> "" -> rec_Container r ∈ sm_Containers m)%string.

Lemma contains_str_spec set v : contains_str set v = true <-> v ∈ set.
Proof.
  induction set as [|s set IH]; cbn; [split; [done|by intros ?%elem_of_nil]|].
  rewrite elem_of_cons. destruct (String.eqb_spec s v); [by subst; split; auto|].
  rewrite IH. split; [by right|by intros [->|]].
Qed.

Lemma nonempty_spec s : nonempty s = true <-> s <> ""%string.
Proof. unfold nonempty. rewrite negb_true_iff. apply String.eqb_neq. Qed.

Lemma holds_summary m r p set :
  summary_covers m r -> holds r p -> summary_for m (pr_field p) = Some set ->
  pr_value p ∈ set.
Proof.
  intros (Hn & Hp & Ho & Hc) (v & Ev & Es) E. destruct p as [f x]; cbn in *.
  unfold summary_for, resolveEnvelope, present in *.
  repeat match type of E with
  | (if String.eqb f ?s then _ else _) = _ =>
      destruct (String.eqb_spec f s); [subst; cbn in Ev|]
  end; simplify_eq; (case_match; [|done]); simplify_eq; cbn;
  match goal with H : nonempty _ = true |- _ => apply nonempty_spec in H end; auto.
Qed.

Lemma segmentMatches_keeps m e r :
  node_ok e = true -> summary_covers m r -> sat e r = true ->
  segmentMatches m e = true.
Proof.
  intros Hok Hcov Hsat. unfold segmentMatches, prunablePredicates.
  apply forallb_forall. intros p Hp. apply list_elem_of_In in Hp.
  destruct (summary_for m (pr_field p)) as [set|] eqn:E; [|done].
  assert (pr_value p ∈ set) as Hin
    by (eapply holds_summary; [done|by eapply required_necessary|done]).
  apply contains_str_spec in Hin. rewrite Hin. by rewrite andb_false_r.
Qed.

(** Pruning a segment by its source summary never loses a match: if some record
    the summary covers matches the query, the segment is kept. *)
Theorem segmentMatches_sound m e r :
  node_ok e = true -> summary_covers m r -> sat e r = true ->
  segmentMatches m e = true.
Proof. apply segmentMatches_keeps. Qed.

End Prune.

Lemma required_sound_witness :
  let r := mkRecord (mkSource "n" "/p" 1 2 3) 10 5 "prod" "web" "app" "n" "" "stdout" ∅ ∅ "m" ∅ in
  let q f v := @CmpNode literal_regexp (mkField fEnvelope f []) OpEq (stringValue v) None in
  let e := AndNode (q "_namespace" "prod") (q "_pod" "web") in
  holds r (mkPred "_pod" "web").
Proof.
  intros r q e. apply (required_sound e r); [reflexivity|reflexivity|].
  apply (bool_decide_unpack _); reflexivity.
Defined.

Lemma segmentMatches_sound_witness :
  let r := mkRecord (mkSource "n" "/p" 1 2 3) 10 5 "prod" "web" "app" "n" "" "stdout" ∅ ∅ "m" ∅ in
  let m := mkSegmentMeta "id" "k" 5 5 ["prod"] ["web"] ["n"] ["app"] [] [] [] 0 1 false ∅ "" in
  let e := @CmpNode literal_regexp (mkField fEnvelope "_namespace" []) OpEq (stringValue "prod") None in
  segmentMatches m e = true.
Proof.
  intros r m e. apply (segmentMatches_sound m e r); [reflexivity| |reflexivity].
  repeat split; intros _; apply (bool_decide_unpack _); reflexivity.
Defined.
