(* ===== verification/SegFormat.v ===== *)
(** internal/segment/format.go: the byte layout of a segment file, with the
    big-endian codec and the CRC-32C its index is protected by. *)

From S2P Require Import Prelude GoStrings GoTime Model.
From Stdlib Require Import Ascii String.
Local Open Scope Z_scope.
Local Open Scope string_scope.

(** ** encoding/binary.BigEndian *)

(** The [n]-byte big-endian encoding of [z], and the value of the first [n] bytes. *)
Fixpoint be_put (n : nat) (z : Z) : string :=
  match n with
  | O => ""
  | S k => String (byte_of (Z.to_N ((z / 256 ^ Z.of_nat k) mod 256))) (be_put k z)
  end.
Fixpoint be_fold (n : nat) (acc : Z) (s : string) : Z :=
  match n, s with
  | S k, String c s' => be_fold k (acc * 256 + Z.of_N (code c)) s'
  | _, _ => acc
  end.
Definition be_get (n : nat) (s : string) : Z := be_fold n 0 s.

(** ** hash/crc32, Castagnoli table *)

Definition crc_shift (c : N) : N :=
  if N.testbit c 0 then N.lxor (N.shiftr c 1) 2197175160 else N.shiftr c 1.
Definition crc_byte (crc : N) (b : N) : N :=
  Nat.iter 8 crc_shift (N.lxor crc b).
Fixpoint crc_loop (crc : N) (s : string) : N :=
  match s with
  | EmptyString => crc
  | String c s' => crc_loop (crc_byte crc (code c)) s'
  end.
(** [crc32.Update] and the checksum of a hash the two parts were written to. *)
Definition crc_update (crc : N) (s : string) : N :=
  N.lxor (crc_loop (N.lxor crc 4294967295) s) 4294967295.
Definition checksum (idx summary : string) : Z :=
  Z.of_N (crc_update (crc_update 0 idx) summary).

Example crc32c_check : crc_update 0 "123456789" = 3808858755%N.
Proof. vm_compute. reflexivity. Qed.

(** ** Constants *)

Definition magicHead : string := "SLOGSEG1".
Definition magicFoot : string := "SLOGEND1".
Definition formatVersion : Z := 1.
Definition headerSize : Z := 32.
Definition footerSize : Z := 64.
Definition blockIndexEntrySize : Z := 44.
Definition flagZstd : Z := 1.
Definition defaultBlockTargetBytes : Z := 2 * 2 ^ 20.

(** [n] zero bytes. *)
Fixpoint nuls (n : nat) : string :=
  match n with O => "" | S k => String NUL (nuls k) end.

(** [Writer.writeHeader]: the 32 header bytes. *)
Definition header (created : Z) : string :=
  magicHead +:+ be_put 2 formatVersion +:+ be_put 2 flagZstd
  +:+ be_put 8 (uint64 created) +:+ nuls 12.

(** One 44-byte block index entry. *)
Definition encode_entry (b : BlockMeta) : string :=
  be_put 8 (uint64 (bm_FileOffset b)) +:+ be_put 8 (uint64 (bm_CompLen b))
  +:+ be_put 8 (uint64 (bm_UncompLen b)) +:+ be_put 8 (uint64 (UnixNano (bm_MinTS b)))
  +:+ be_put 8 (uint64 (UnixNano (bm_MaxTS b))) +:+ be_put 4 (uint32 (bm_RecordCount b)).

Definition decode_entry (s : string) : BlockMeta :=
  mkBlockMeta (int64 (be_get 8 s)) (int64 (be_get 8 (sdrop 8 s)))
    (int64 (be_get 8 (sdrop 16 s)))
    (Unix_nsec (int64 (be_get 8 (sdrop 24 s))))
    (Unix_nsec (int64 (be_get 8 (sdrop 32 s))))
    (int32 (be_get 4 (sdrop 40 s))).

Fixpoint encode_index (bs : list BlockMeta) : string :=
  match bs with
  | [] => ""
  | b :: bs' => encode_entry b +:+ encode_index bs'
  end.
Fixpoint decode_index (n : nat) (s : string) : list BlockMeta :=
  match n with
  | O => []
  | S k => decode_entry s :: decode_index k (sdrop 44 s)
  end.

(** The footer's fields; [writeFooter] lays them out, [Open] reads them. *)
Record footer := mkFooter {
  ft_indexOffset : Z; ft_blockCount : Z; ft_summaryOffset : Z; ft_summaryLen : Z;
  ft_segMin : Time; ft_segMax : Time; ft_crc : Z
}.

Definition encode_footer (f : footer) : string :=
  be_put 8 (uint64 (ft_indexOffset f)) +:+ be_put 4 (uint32 (ft_blockCount f))
  +:+ be_put 8 (uint64 (ft_summaryOffset f)) +:+ be_put 4 (uint32 (ft_summaryLen f))
  +:+ be_put 8 (uint64 (UnixNano (ft_segMin f))) +:+ be_put 8 (uint64 (UnixNano (ft_segMax f)))
  +:+ be_put 4 (ft_crc f) +:+ nuls 12 +:+ magicFoot.

Definition decode_footer (s : string) : footer :=
  mkFooter (int64 (be_get 8 s)) (be_get 4 (sdrop 8 s))
    (int64 (be_get 8 (sdrop 12 s))) (be_get 4 (sdrop 20 s))
    (Unix_nsec (int64 (be_get 8 (sdrop 24 s)))) (Unix_nsec (int64 (be_get 8 (sdrop 32 s))))
    (be_get 4 (sdrop 40 s)).

(** ** Round trips *)

Lemma slen_be_put n z : slen (be_put n z) = n.
Proof. induction n as [|n IH]; cbn; [done|]. by rewrite slen_cons, IH. Qed.
Lemma slen_nuls n : slen (nuls n) = n.
Proof. induction n as [|n IH]; cbn; [done|]. by rewrite slen_cons, IH. Qed.

Lemma be_fold_put n z acc rest :
  be_fold n acc (be_put n z +:+ rest)
  = acc * 256 ^ Z.of_nat n + z mod 256 ^ Z.of_nat n.
Proof.
  revert acc; induction n as [|n IH]; intros acc.
  - cbn [be_put be_fold]. rewrite Z.mod_1_r. lia.
  - cbn [be_put]. rewrite str_app_cons. cbn [be_fold].
    rewrite IH, code_byte_of by (pose proof (Z.mod_pos_bound (z / 256 ^ Z.of_nat n) 256); lia).
    rewrite Z2N.id by (apply Z.mod_pos_bound; lia).
    rewrite Nat2Z.inj_succ, Z.pow_succ_r by lia.
    set (p := 256 ^ Z.of_nat n). assert (0 < p) by (apply Z.pow_pos_nonneg; lia).
    rewrite (Z.mul_comm 256 p), Z.rem_mul_r by lia. ring.
Qed.

Lemma be_get_put n z rest :
  0 <= z < 256 ^ Z.of_nat n -> be_get n (be_put n z +:+ rest) = z.
Proof. intros. unfold be_get. rewrite be_fold_put, Z.mod_small; lia. Qed.
Lemma be_get_put8 z rest : 0 <= z < 2 ^ 64 -> be_get 8 (be_put 8 z +:+ rest) = z.
Proof. intros. apply be_get_put. change (256 ^ Z.of_nat 8) with (2 ^ 64). lia. Qed.
Lemma be_get_put4 z rest : 0 <= z < 2 ^ 32 -> be_get 4 (be_put 4 z +:+ rest) = z.
Proof. intros. apply be_get_put. change (256 ^ Z.of_nat 4) with (2 ^ 32). lia. Qed.

(** Dropping a whole field. *)
Lemma sdrop_field n s t : slen s = n -> sdrop n (s +:+ t) = t.
Proof. intros <-. apply sdrop_app. Qed.

Lemma sdrop_be_put n k z t :
  (k <= n)%nat -> sdrop n (be_put k z +:+ t) = sdrop (n - k) t.
Proof.
  intros H. replace n with (k + (n - k))%nat at 1 by lia.
  rewrite <- sdrop_add, sdrop_field by apply slen_be_put. done.
Qed.
Lemma sdrop_0 t : sdrop 0 t = t.
Proof. done. Qed.

(** Read the next field of a concatenation of fields. *)
Ltac fields :=
  rewrite ?str_app_assoc;
  repeat (rewrite sdrop_be_put by lia; cbn [Nat.sub]; rewrite ?sdrop_0);
  rewrite ?sdrop_0.

Definition entry_ok (b : BlockMeta) : Prop :=
  in_int64 (bm_FileOffset b) /\ in_int64 (bm_CompLen b) /\ in_int64 (bm_UncompLen b) /\
  in_int64 (bm_MinTS b) /\ in_int64 (bm_MaxTS b) /\ in_int32 (bm_RecordCount b).

Lemma decode_encode_entry b rest :
  entry_ok b -> decode_entry (encode_entry b +:+ rest) = b.
Proof.
  intros (H1 & H2 & H3 & H4 & H5 & H6). unfold decode_entry, encode_entry.
  fields. rewrite !be_get_put8 by apply uint64_range.
  rewrite be_get_put4 by apply uint32_range.
  unfold Unix_nsec. rewrite (UnixNano_id (bm_MinTS b)), (UnixNano_id (bm_MaxTS b)) by assumption.
  rewrite !int64_uint64, int32_uint32 by assumption. by destruct b.
Qed.

Lemma slen_encode_entry b : slen (encode_entry b) = 44%nat.
Proof. unfold encode_entry. by rewrite !slen_app, !slen_be_put. Qed.

Lemma slen_encode_index bs : slen (encode_index bs) = (44 * List.length bs)%nat.
Proof.
  induction bs as [|b bs IH]; [done|]. cbn [encode_index List.length].
  rewrite slen_app, slen_encode_entry, IH. lia.
Qed.

Lemma decode_encode_index bs rest :
  Forall entry_ok bs -> decode_index (List.length bs) (encode_index bs +:+ rest) = bs.
Proof.
  induction 1 as [|b bs Hb _ IH]; [done|]. cbn [encode_index List.length decode_index].
  rewrite str_app_assoc, decode_encode_entry by done.
  rewrite sdrop_field by apply slen_encode_entry. by rewrite IH.
Qed.

Definition footer_ok (f : footer) : Prop :=
  in_int64 (ft_indexOffset f) /\ 0 <= ft_blockCount f < 2 ^ 32 /\
  in_int64 (ft_summaryOffset f) /\ 0 <= ft_summaryLen f < 2 ^ 32 /\
  in_int64 (ft_segMin f) /\ in_int64 (ft_segMax f) /\ 0 <= ft_crc f < 2 ^ 32.

Lemma decode_encode_footer f : footer_ok f -> decode_footer (encode_footer f) = f.
Proof.
  intros (H1 & H2 & H3 & H4 & H5 & H6 & H7). unfold decode_footer, encode_footer.
  rewrite (UnixNano_id (ft_segMin f)), (UnixNano_id (ft_segMax f)) by assumption.
  fields.
  rewrite !be_get_put8 by apply uint64_range.
  rewrite !be_get_put4 by (apply uint32_range || assumption).
  unfold Unix_nsec. rewrite !int64_uint64, !uint32_id by assumption. by destruct f.
Qed.

Lemma slen_encode_footer f : slen (encode_footer f) = 64%nat.
Proof. unfold encode_footer. by rewrite !slen_app, !slen_be_put, slen_nuls. Qed.
Lemma slen_header c : slen (header c) = 32%nat.
Proof. unfold header. by rewrite !slen_app, !slen_be_put, slen_nuls. Qed.
Lemma footer_magic f : sdrop 56 (encode_footer f) = magicFoot.
Proof.
  unfold encode_footer. fields.
  change 12%nat with (slen (nuls 12)) at 1. apply sdrop_app.
Qed.

(** The checksum is a 32-bit word. *)
Lemma log2_bound a n : (0 < n)%N -> (a < 2 ^ n <-> N.log2 a < n)%N.
Proof.
  intros Hn. destruct (N.eq_0_gt_0_cases a) as [->|Ha].
  - rewrite N.log2_nonpos by lia. pose proof (N.pow_nonzero 2 n). lia.
  - by apply N.log2_lt_pow2.
Qed.
Lemma lxor_bound a b n : (a < 2 ^ n -> b < 2 ^ n -> N.lxor a b < 2 ^ n)%N.
Proof.
  destruct (N.eq_0_gt_0_cases n) as [->|Hn].
  - change (2 ^ 0)%N with 1%N. intros. assert (a = 0%N) as -> by lia.
    by assert (b = 0%N) as -> by lia.
  - intros Ha Hb. apply log2_bound; [done|]. apply log2_bound in Ha, Hb; [|done..].
    pose proof (N.log2_lxor a b). lia.
Qed.
Lemma crc_shift_bound c : (c < 2 ^ 32 -> crc_shift c < 2 ^ 32)%N.
Proof.
  intros H. unfold crc_shift. rewrite N.shiftr_div_pow2. change (2 ^ 1)%N with 2%N.
  assert (c / 2 < 2 ^ 32)%N by (pose proof (N.Div0.div_le_upper_bound c 2 c); lia).
  destruct (N.testbit c 0); [|done]. by apply lxor_bound.
Qed.
Lemma crc_loop_bound s c : (c < 2 ^ 32 -> crc_loop c s < 2 ^ 32)%N.
Proof.
  revert c; induction s as [|a s IH]; intros c H; [done|]. cbn [crc_loop].
  apply IH. unfold crc_byte. apply (Nat.iter_invariant 8 _ crc_shift (fun c => (c < 2 ^ 32)%N)).
  - intros. by apply crc_shift_bound.
  - apply lxor_bound; [done|]. pose proof (N_ascii_bounded a). unfold code. lia.
Qed.
Lemma checksum_bound idx summary : 0 <= checksum idx summary < 2 ^ 32.
Proof.
  unfold checksum, crc_update.
  assert (B : forall c s, (c < 2 ^ 32 -> N.lxor (crc_loop (N.lxor c 4294967295) s) 4294967295 < 2 ^ 32)%N).
  { intros. apply lxor_bound; [|done]. apply crc_loop_bound. by apply lxor_bound. }
  set (c := N.lxor _ _).
  assert (c < 2 ^ 32)%N by (apply B, B; done). lia.
Qed.
