(* ===== verification/SegWriter.v ===== *)
(** internal/segment/writer.go: the segment writer, with the io.Writer it writes to
    and the two encoders it calls (zstd, and JSON for records and summaries). *)

From S2P Require Import Prelude GoStrings GoTime Model SegFormat.
From Stdlib Require Import Ascii String.
Local Open Scope string_scope.
Local Open Scope list_scope.
Local Open Scope Z_scope.

(** ** The encoders *)

(** The zstd module: [EncodeAll] and [DecodeAll], and that the second undoes the
    first. *)
Class Zstd := {
  EncodeAll : string -> string;
  DecodeAll : string -> option string;
  DecodeAll_EncodeAll s : DecodeAll (EncodeAll s) = Some s
}.

(** [segment.summary] *)
Record summary := mkSummary {
  su_Namespaces : list string; su_Pods : list string; su_Nodes : list string;
  su_Containers : list string; su_LabelKeys : list string; su_FieldKeys : list string
}.

Definition NL : ascii := "010".
Definition CR : ascii := "013".

(** The JSON encodings of records and summaries.  [record_ok] and [summary_ok]
    describe the values JSON represents faithfully (valid UTF-8, compact bodies, a
    year within 0..9999); for those, decoding undoes encoding.  An encoded record is
    one line: JSON text escapes control characters and ends with a brace. *)
Class JsonCodec := {
  MarshalRecord : LogRecord -> option string;
  UnmarshalRecord : string -> option LogRecord;
  record_ok : LogRecord -> Prop;
  MarshalSummary : summary -> string;
  UnmarshalSummary : string -> option summary;
  summary_ok : summary -> Prop;
  Unmarshal_MarshalRecord r l :
    record_ok r -> MarshalRecord r = Some l -> UnmarshalRecord l = Some r;
  MarshalRecord_line r l :
    MarshalRecord r = Some l -> l <> "" /\ (NL ∉ bytes_of l) /\ (CR ∉ bytes_of l);
  Unmarshal_MarshalSummary s :
    summary_ok s -> UnmarshalSummary (MarshalSummary s) = Some s
}.

(** ** The destination *)

(** An [io.Writer]: the bytes written, and how many more it accepts before it fails
    ([None]: all). *)
Record Sink := mkSink { sk_data : string; sk_room : option nat }.

(** [w.Write(b)]: the number of bytes taken, and whether it succeeded. *)
Definition sink_write (b : string) (w : Sink) : Sink * nat * bool :=
  match sk_room w with
  | None => (mkSink (sk_data w +:+ b) None, slen b, true)
  | Some k =>
      if (slen b <=? k)%nat
      then (mkSink (sk_data w +:+ b) (Some (k - slen b)%nat), slen b, true)
      else (mkSink (sk_data w +:+ stake k b) (Some 0%nat), k, false)
  end.

(** ** The writer's state *)

(** The block being filled: [curLines], [curCount], [curMin], [curMax], [lastTS]. *)
Record CurBlock := mkCur {
  cb_lines : string; cb_count : Z; cb_min : Time; cb_max : Time; cb_last : Time
}.
(** The accumulated source summary. *)
Record Accum := mkAccum {
  ac_namespaces : gset string; ac_pods : gset string; ac_nodes : gset string;
  ac_containers : gset string; ac_labelKeys : gset string; ac_fieldKeys : gset string;
  ac_srcOffset : gmap string Z
}.
(** [segMin], [segMax], [total], [hasLate]. *)
Record SegSpan := mkSpan { ss_min : Time; ss_max : Time; ss_total : Z; ss_late : bool }.

Record Writer := mkWriter {
  sw_w : Sink;
  sw_blockTarget : Z;
  sw_pos : Z;                  (* int64 *)
  sw_cur : CurBlock;
  sw_blocks : list BlockMeta;
  sw_acc : Accum;
  sw_span : SegSpan;
  sw_finished : bool
}.

Inductive seg_error :=
  | ErrWrite            (* the destination's Write failed *)
  | ErrMarshal          (* json.Marshal failed *)
  | ErrClosedPipe       (* io.ErrClosedPipe *)
  | ErrUnsealed         (* segment.ErrUnsealed *)
  | ErrReadAt           (* the source's ReadAt failed *)
  | ErrDecode           (* zstd could not decode *)
  | ErrUnmarshal        (* json.Unmarshal failed *)
  | ErrBlockRange       (* "segment: block %d out of range" *)
  | ErrTooLong          (* bufio.ErrTooLong *)
  | PanicMakeslice.     (* make([]byte, n) with a negative n *)

Definition emptyAccum : Accum := mkAccum ∅ ∅ ∅ ∅ ∅ ∅ ∅.

Definition addKey (m : gset string) (k : string) : gset string :=
  if String.eqb k "" then m else {[k]} ∪ m.

Definition sortedKeys (m : gset string) : list string :=
  merge_sort (fun a b => String.leb a b) (elements m).

Section Writer.
Context `{Zstd, JsonCodec}.

(** [Writer.emit] *)
Definition emit (b : string) : stM Writer seg_error unit := fun sw =>
  let '(w', n, ok) := sink_write b (sw_w sw) in
  let sw' := mkWriter w' (sw_blockTarget sw) (int64 (sw_pos sw + Z.of_nat n)) (sw_cur sw)
               (sw_blocks sw) (sw_acc sw) (sw_span sw) (sw_finished sw) in
  (sw', if ok then Ok tt else Err ErrWrite).

(** [Writer.writeHeader] *)
Definition writeHeader (created : Z) : stM Writer seg_error unit := emit (header created).

(** [NewWriter] *)
Definition NewWriter (w : Sink) (created : Z) : Writer * result seg_error unit :=
  writeHeader created
    (mkWriter w defaultBlockTargetBytes 0 (mkCur "" 0 zeroTime zeroTime zeroTime) []
       emptyAccum (mkSpan zeroTime zeroTime 0 false) false).

(** [Writer.flushBlock] *)
Definition flushBlock : stM Writer seg_error unit := fun sw =>
  let c := sw_cur sw in
  if cb_count c =? 0 then (sw, Ok tt) else
  let comp := EncodeAll (cb_lines c) in
  let bm := mkBlockMeta (sw_pos sw) (Z.of_nat (slen comp)) (Z.of_nat (slen (cb_lines c)))
              (cb_min c) (cb_max c) (cb_count c) in
  (emit comp ;;
   modify_st (fun sw =>
     mkWriter (sw_w sw) (sw_blockTarget sw) (sw_pos sw)
       (mkCur "" 0 (cb_min c) (cb_max c) zeroTime)
       (sw_blocks sw ++ [bm]) (sw_acc sw) (sw_span sw) (sw_finished sw))) sw.

(** The block, span and summary updates [Append] makes for one record. *)
Definition cur_add (line : string) (ts : Time) (c : CurBlock) : CurBlock :=
  let n := int32 (cb_count c + 1) in
  mkCur (cb_lines c +:+ line +:+ String NL "") n
    (if (n =? 1) || Before ts (cb_min c) then ts else cb_min c)
    (if (n =? 1) || After ts (cb_max c) then ts else cb_max c)
    ts.

Definition span_add (last ts : Time) (s : SegSpan) : SegSpan :=
  mkSpan (if (ss_total s =? 0) || Before ts (ss_min s) then ts else ss_min s)
    (if (ss_total s =? 0) || After ts (ss_max s) then ts else ss_max s)
    (int64 (ss_total s + 1))
    (if negb (IsZero last) && Before ts last then true else ss_late s).

Definition addKeys {V} (m : gset string) (kv : gmap string V) : gset string :=
  foldl addKey m (elements (dom kv)).

Definition acc_add (r : LogRecord) (a : Accum) : Accum :=
  let key := Key (rec_Source r) in
  mkAccum (addKey (ac_namespaces a) (rec_Namespace r)) (addKey (ac_pods a) (rec_Pod r))
    (addKey (ac_nodes a) (rec_Node r)) (addKey (ac_containers a) (rec_Container r))
    (addKeys (ac_labelKeys a) (rec_Labels r)) (addKeys (ac_fieldKeys a) (rec_Body r))
    (if default 0 (ac_srcOffset a !! key) <? rec_Offset r
     then <[key := rec_Offset r]> (ac_srcOffset a) else ac_srcOffset a).

(** [Writer.Append] *)
Definition Append (r : LogRecord) : stM Writer seg_error unit :=
  match MarshalRecord r with
  | None => fail_st ErrMarshal
  | Some line =>
      sw ← get_st;
      let len := Z.of_nat (slen (cb_lines (sw_cur sw))) in
      (if (0 <? len) && (sw_blockTarget sw <? len + Z.of_nat (slen line) + 1)
       then flushBlock else mret tt) ;;
      modify_st (fun sw =>
        mkWriter (sw_w sw) (sw_blockTarget sw) (sw_pos sw)
          (cur_add line (rec_Timestamp r) (sw_cur sw)) (sw_blocks sw)
          (acc_add r (sw_acc sw))
          (span_add (cb_last (sw_cur sw)) (rec_Timestamp r) (sw_span sw)) (sw_finished sw))
  end.

Definition summary_of (a : Accum) : summary :=
  mkSummary (sortedKeys (ac_namespaces a)) (sortedKeys (ac_pods a))
    (sortedKeys (ac_nodes a)) (sortedKeys (ac_containers a))
    (sortedKeys (ac_labelKeys a)) (sortedKeys (ac_fieldKeys a)).

(** The metadata [Finish] returns; ID, S3Key and LocalPath are left to the caller. *)
Definition meta_of (sum : summary) (sw : Writer) (size : Z) : SegmentMeta :=
  mkSegmentMeta "" "" (ss_min (sw_span sw)) (ss_max (sw_span sw))
    (su_Namespaces sum) (su_Pods sum) (su_Nodes sum) (su_Containers sum)
    (su_LabelKeys sum) (su_FieldKeys sum) (sw_blocks sw) size (ss_total (sw_span sw))
    (ss_late (sw_span sw)) (ac_srcOffset (sw_acc sw)) "".

(** [Writer.writeFooter] *)
Definition writeFooter (indexOffset blockCount summaryOffset summaryLen crc : Z) :
    stM Writer seg_error unit :=
  sw ← get_st;
  emit (encode_footer (mkFooter indexOffset blockCount summaryOffset summaryLen
          (ss_min (sw_span sw)) (ss_max (sw_span sw)) crc)).

Definition set_finished (sw : Writer) : Writer :=
  mkWriter (sw_w sw) (sw_blockTarget sw) (sw_pos sw) (sw_cur sw) (sw_blocks sw)
    (sw_acc sw) (sw_span sw) true.

(** [Writer.Finish] *)
Definition Finish : stM Writer seg_error SegmentMeta :=
  sw ← get_st;
  if sw_finished sw then fail_st ErrClosedPipe else
  modify_st set_finished ;;
  flushBlock ;;
  sw ← get_st;
  let indexOffset := sw_pos sw in
  let idx := encode_index (sw_blocks sw) in
  emit idx ;;
  sw ← get_st;
  let summaryOffset := sw_pos sw in
  let sum := summary_of (sw_acc sw) in
  let summaryComp := EncodeAll (MarshalSummary sum) in
  emit summaryComp ;;
  writeFooter indexOffset (Z.of_nat (List.length (sw_blocks sw))) summaryOffset
    (Z.of_nat (slen summaryComp)) (checksum idx summaryComp) ;;
  sw ← get_st;
  mret (meta_of sum sw (sw_pos sw)).

(** The caller's sequence (store.Seal): one [Append] per record, then [Finish]. *)
Definition write_all (rs : list LogRecord) : stM Writer seg_error SegmentMeta :=
  for_st Append rs ;; Finish.

End Writer.
