(* ===== verification/RecordJson.v ===== *)
(** The JSON form of a [model.Record]: the struct tags of internal/model/model.go, and
    that a record survives [json.Marshal] and [json.Unmarshal].  This is what crosses the
    wire from the agent to the manager and what a segment's blocks hold. *)

From S2P Require Import Prelude GoStrings GoTime TimeText GoFloat GoJson JsonText JsonValue.
From S2P Require Import JsonStruct Model SegWriter.
From Stdlib Require Import Ascii String.
Local Open Scope string_scope.
Local Open Scope list_scope.
Local Open Scope Z_scope.

(** ** [model.Source] *)

Definition source_members (s : Source) : list (string * Json) :=
  [("node", json_string (src_Node s)); ("path", json_string (src_Path s));
   ("dev", json_uint (src_Device s)); ("ino", json_uint (src_Inode s));
   ("ctime", json_int (src_CreatedUnixNano s))].

Definition source_fields : list (string * Dec Source) :=
  [("node", field src_Node (fun x s =>
      mkSource x (src_Path s) (src_Device s) (src_Inode s) (src_CreatedUnixNano s)) dec_string);
   ("path", field src_Path (fun x s =>
      mkSource (src_Node s) x (src_Device s) (src_Inode s) (src_CreatedUnixNano s)) dec_string);
   ("dev", field src_Device (fun x s =>
      mkSource (src_Node s) (src_Path s) x (src_Inode s) (src_CreatedUnixNano s)) dec_uint64);
   ("ino", field src_Inode (fun x s =>
      mkSource (src_Node s) (src_Path s) (src_Device s) x (src_CreatedUnixNano s)) dec_uint64);
   ("ctime", field src_CreatedUnixNano (fun x s =>
      mkSource (src_Node s) (src_Path s) (src_Device s) (src_Inode s) x) dec_int64)].

Definition source_wf (s : Source) : Prop :=
  in_uint64 (src_Device s) /\ in_uint64 (src_Inode s) /\ in_int64 (src_CreatedUnixNano s).
#[export] Instance source_wf_dec s : Decision (source_wf s).
Proof. unfold source_wf. apply _. Defined.
Definition carry_source (s : Source) : Source :=
  mkSource (sanitize (src_Node s)) (sanitize (src_Path s)) (src_Device s) (src_Inode s)
    (src_CreatedUnixNano s).

Lemma source_decodes s cur : source_wf s ->
  decodes (json_obj (source_members s)) (dec_struct source_fields) cur (carry_source s).
Proof.
  intros (Hd & Hi & Hc). apply decodes_struct.
  - repeat apply Forall_cons_2; try apply Forall_nil_2; cbn;
      first [apply jval_string|apply jval_uint|apply jval_int].
  - read_member; [apply decodes_string|]. read_member; [apply decodes_string|].
    read_member; [by apply decodes_uint64|]. read_member; [by apply decodes_uint64|].
    read_member; [by apply decodes_int64|]. apply reads_nil.
Qed.

(** ** [model.Record] *)

Definition record_members (r : LogRecord) (ts : string) : list (string * Json) :=
  [("source", json_obj (source_members (rec_Source r))); ("offset", json_int (rec_Offset r));
   ("_ts", json_lit ts); ("_namespace", json_string (rec_Namespace r));
   ("_pod", json_string (rec_Pod r)); ("_container", json_string (rec_Container r));
   ("_node", json_string (rec_Node r))]
  ++ omitempty (String.eqb (rec_Image r) "") "_image" (json_string (rec_Image r))
  ++ [("_stream", json_string (rec_Stream r))]
  ++ omitempty (bool_decide (rec_Labels r = ∅)) "_labels" (json_map json_string (rec_Labels r))
  ++ omitempty (bool_decide (rec_Annotations r = ∅)) "_annotations"
       (json_map json_string (rec_Annotations r))
  ++ [("_message", json_string (rec_Message r))]
  ++ omitempty (bool_decide (rec_Body r = ∅)) "body"
       (json_map (fun raw => json_lit (compact Out raw)) (rec_Body r)).

(** [json.Marshal(r)]: an error for a year of more than four digits, or for a body
    member that is not JSON.  The time is printed in UTC, whatever zone the line had. *)
Definition GoMarshalRecord (r : LogRecord) : option string :=
  ts ← MarshalTime (rec_Timestamp r);
  if forallb (fun kv => json_valid kv.2) (map_to_list (rec_Body r))
  then Some (Marshal (json_obj (record_members r ts))) else None.

Section Setters.
Context (r : LogRecord).
Definition set_Source x := mkRecord x (rec_Offset r) (rec_Timestamp r) (rec_Namespace r) (rec_Pod r)
  (rec_Container r) (rec_Node r) (rec_Image r) (rec_Stream r) (rec_Labels r) (rec_Annotations r)
  (rec_Message r) (rec_Body r).
Definition set_Offset x := mkRecord (rec_Source r) x (rec_Timestamp r) (rec_Namespace r) (rec_Pod r)
  (rec_Container r) (rec_Node r) (rec_Image r) (rec_Stream r) (rec_Labels r) (rec_Annotations r)
  (rec_Message r) (rec_Body r).
Definition set_Timestamp x := mkRecord (rec_Source r) (rec_Offset r) x (rec_Namespace r) (rec_Pod r)
  (rec_Container r) (rec_Node r) (rec_Image r) (rec_Stream r) (rec_Labels r) (rec_Annotations r)
  (rec_Message r) (rec_Body r).
Definition set_Namespace x := mkRecord (rec_Source r) (rec_Offset r) (rec_Timestamp r) x (rec_Pod r)
  (rec_Container r) (rec_Node r) (rec_Image r) (rec_Stream r) (rec_Labels r) (rec_Annotations r)
  (rec_Message r) (rec_Body r).
Definition set_Pod x := mkRecord (rec_Source r) (rec_Offset r) (rec_Timestamp r) (rec_Namespace r) x
  (rec_Container r) (rec_Node r) (rec_Image r) (rec_Stream r) (rec_Labels r) (rec_Annotations r)
  (rec_Message r) (rec_Body r).
Definition set_Container x := mkRecord (rec_Source r) (rec_Offset r) (rec_Timestamp r)
  (rec_Namespace r) (rec_Pod r) x (rec_Node r) (rec_Image r) (rec_Stream r) (rec_Labels r)
  (rec_Annotations r) (rec_Message r) (rec_Body r).
Definition set_Node x := mkRecord (rec_Source r) (rec_Offset r) (rec_Timestamp r) (rec_Namespace r)
  (rec_Pod r) (rec_Container r) x (rec_Image r) (rec_Stream r) (rec_Labels r) (rec_Annotations r)
  (rec_Message r) (rec_Body r).
Definition set_Image x := mkRecord (rec_Source r) (rec_Offset r) (rec_Timestamp r) (rec_Namespace r)
  (rec_Pod r) (rec_Container r) (rec_Node r) x (rec_Stream r) (rec_Labels r) (rec_Annotations r)
  (rec_Message r) (rec_Body r).
Definition set_Stream x := mkRecord (rec_Source r) (rec_Offset r) (rec_Timestamp r) (rec_Namespace r)
  (rec_Pod r) (rec_Container r) (rec_Node r) (rec_Image r) x (rec_Labels r) (rec_Annotations r)
  (rec_Message r) (rec_Body r).
Definition set_Labels x := mkRecord (rec_Source r) (rec_Offset r) (rec_Timestamp r) (rec_Namespace r)
  (rec_Pod r) (rec_Container r) (rec_Node r) (rec_Image r) (rec_Stream r) x (rec_Annotations r)
  (rec_Message r) (rec_Body r).
Definition set_Annotations x := mkRecord (rec_Source r) (rec_Offset r) (rec_Timestamp r)
  (rec_Namespace r) (rec_Pod r) (rec_Container r) (rec_Node r) (rec_Image r) (rec_Stream r)
  (rec_Labels r) x (rec_Message r) (rec_Body r).
Definition set_Message x := mkRecord (rec_Source r) (rec_Offset r) (rec_Timestamp r)
  (rec_Namespace r) (rec_Pod r) (rec_Container r) (rec_Node r) (rec_Image r) (rec_Stream r)
  (rec_Labels r) (rec_Annotations r) x (rec_Body r).
Definition set_Body x := mkRecord (rec_Source r) (rec_Offset r) (rec_Timestamp r) (rec_Namespace r)
  (rec_Pod r) (rec_Container r) (rec_Node r) (rec_Image r) (rec_Stream r) (rec_Labels r)
  (rec_Annotations r) (rec_Message r) x.
End Setters.

Definition record_fields : list (string * Dec LogRecord) :=
  [("source", field rec_Source (fun x r => set_Source r x) (dec_struct source_fields));
   ("offset", field rec_Offset (fun x r => set_Offset r x) dec_int64);
   ("_ts", field rec_Timestamp (fun x r => set_Timestamp r x) dec_time);
   ("_namespace", field rec_Namespace (fun x r => set_Namespace r x) dec_string);
   ("_pod", field rec_Pod (fun x r => set_Pod r x) dec_string);
   ("_container", field rec_Container (fun x r => set_Container r x) dec_string);
   ("_node", field rec_Node (fun x r => set_Node r x) dec_string);
   ("_image", field rec_Image (fun x r => set_Image r x) dec_string);
   ("_stream", field rec_Stream (fun x r => set_Stream r x) dec_string);
   ("_labels", field rec_Labels (fun x r => set_Labels r x) (dec_map dec_string ""));
   ("_annotations", field rec_Annotations (fun x r => set_Annotations r x) (dec_map dec_string ""));
   ("_message", field rec_Message (fun x r => set_Message r x) dec_string);
   ("body", field rec_Body (fun x r => set_Body r x) (dec_map dec_raw ""))].

Definition zeroSource : Source := mkSource "" "" 0 0 0.
Definition zeroRecord : LogRecord :=
  mkRecord zeroSource 0 zeroTime "" "" "" "" "" "" ∅ ∅ "" ∅.

(** [json.Unmarshal(raw, &rec)] *)
Definition GoUnmarshalRecord (s : string) : option LogRecord :=
  Unmarshal (dec_struct record_fields) zeroRecord s.

(** ** What a record becomes *)

(** The values the Go types can hold, and body members that still parse two objects
    deep. *)
Definition body_wf (raw : string) : Prop :=
  match skip_value (S (slen raw)) 2 raw with Some r => skip_ws r = "" | None => False end.
#[export] Instance body_wf_dec raw : Decision (body_wf raw).
Proof. unfold body_wf. destruct (skip_value _ _ _); apply _. Defined.
Definition record_wf (r : LogRecord) : Prop :=
  source_wf (rec_Source r) /\ in_int64 (rec_Offset r) /\ map_Forall (fun _ raw => body_wf raw) (rec_Body r).
#[export] Instance record_wf_dec r : Decision (record_wf r).
Proof. unfold record_wf. apply _. Defined.

(** A record after one passage through JSON: texts sanitised, bodies compacted. *)
Definition carry_record (r : LogRecord) : LogRecord :=
  mkRecord (carry_source (rec_Source r)) (rec_Offset r) (rec_Timestamp r)
    (sanitize (rec_Namespace r)) (sanitize (rec_Pod r)) (sanitize (rec_Container r))
    (sanitize (rec_Node r)) (sanitize (rec_Image r)) (sanitize (rec_Stream r))
    (carry_map sanitize (rec_Labels r)) (carry_map sanitize (rec_Annotations r))
    (sanitize (rec_Message r)) (carry_map (compact Out) (rec_Body r)).

Lemma vtext_le d d' t : (d' <= d)%N -> vtext d t -> vtext d' t.
Proof. intros L [Hh Hs]. split; [done|]. intros f e x Lf Le. apply Hs; lia. Qed.
Lemma body_text raw : body_wf raw -> vtext 2 (compact Out raw).
Proof.
  unfold body_wf. destruct (skip_value _ _ _) as [r|] eqn:E; [|done]. intros Hr.
  by apply (compact_valid _ _ _ _ E).
Qed.
Lemma string_map_decodes m :
  decodes (json_map json_string m) (dec_map dec_string "") ∅ (carry_map sanitize m).
Proof. apply decodes_map. intros k x _. split; [apply jval_string|apply decodes_string]. Qed.
Lemma body_decodes m : map_Forall (fun _ raw => body_wf raw) m ->
  decodes (json_map (fun raw => json_lit (compact Out raw)) m) (dec_map dec_raw "") ∅
    (carry_map (compact Out) m).
Proof.
  intros H. apply decodes_map. intros k x Hx. split; [|done].
  apply jval_lit, (vtext_le 2); [done|]. apply body_text. by apply (H k).
Qed.

Ltac each_member :=
  repeat first [simple apply Forall_app_2 | simple apply Forall_cons_2 | simple apply Forall_nil_2
               | simple apply Forall_omitempty];
  cbn [snd].

Lemma source_jval s : jval 1 (json_obj (source_members s)).
Proof.
  apply jval_obj; [done|]. unfold source_members. each_member; first [apply jval_string|apply jval_uint|apply jval_int].
Qed.
Lemma record_jval r ts : record_wf r -> MarshalTime (rec_Timestamp r) = Some ts ->
  Forall (fun kv => jval 1 kv.2) (record_members r ts).
Proof.
  intros (_ & _ & Hb) Ht. unfold record_members. each_member;
    first [apply source_jval|apply jval_string|apply jval_int|by eapply jval_time|apply jval_map; [done|]];
    intros k x Hx; [apply jval_string..|]. apply jval_lit, body_text. by apply (Hb k).
Qed.

(** A chain of setters as one record. *)
Ltac flat_record := cbv [set_Source set_Offset set_Timestamp set_Namespace set_Pod set_Container
  set_Node set_Image set_Stream set_Labels set_Annotations set_Message set_Body zeroRecord
  rec_Source rec_Offset rec_Timestamp rec_Namespace rec_Pod rec_Container rec_Node rec_Image
  rec_Stream rec_Labels rec_Annotations rec_Message rec_Body].

Lemma record_reads r ts : record_wf r -> MarshalTime (rec_Timestamp r) = Some ts ->
  reads record_fields (record_members r ts) zeroRecord (carry_record r).
Proof.
  intros (Hs & Ho & Hb) Ht. unfold record_members. eapply reads_eq.
  eapply reads_app.
  { read_member; [by apply source_decodes|]. read_member; [by apply decodes_int64|].
    read_member; [by apply decodes_time|]. do 4 (read_member; [apply decodes_string|]). apply reads_nil. }
  eapply reads_app; [read_optional; [apply decodes_string|]|].
  { intros E%String.eqb_eq. rewrite E. flat_record. reflexivity. }
  eapply reads_app; [read_member; [apply decodes_string|apply reads_nil]|].
  eapply reads_app; [read_optional; [apply string_map_decodes|]|].
  { intros E%bool_decide_eq_true. rewrite E. flat_record. reflexivity. }
  eapply reads_app; [read_optional; [apply string_map_decodes|]|].
  { intros E%bool_decide_eq_true. rewrite E. flat_record. reflexivity. }
  eapply reads_app; [read_member; [apply decodes_string|apply reads_nil]|].
  { read_optional; [by apply body_decodes|]. intros E%bool_decide_eq_true. rewrite E. flat_record. reflexivity. }
  flat_record. reflexivity.
Qed.

(** One passage through JSON: whatever the record holds, the reader gets its carried
    form. *)
Lemma record_carried r l : record_wf r -> GoMarshalRecord r = Some l ->
  GoUnmarshalRecord l = Some (carry_record r).
Proof.
  intros Hw H. unfold GoMarshalRecord in H. destruct (MarshalTime _) as [ts|] eqn:Ht; [|done].
  cbn [mbind option_bind] in H. destruct (forallb _ _); [|done]. injection H as <-.
  pose proof (record_jval r ts Hw Ht) as Hj. unfold GoUnmarshalRecord, Marshal. apply Unmarshal_Json.
  - apply jval_obj; [done|]. exact Hj.
  - apply decodes_struct; [exact Hj|by apply record_reads].
Qed.

Lemma body_wf_compact raw : body_wf raw ->
  body_wf (compact Out raw) /\ compact Out (compact Out raw) = compact Out raw.
Proof.
  intros H. pose proof (body_text raw H) as V. split.
  - unfold body_wf. by rewrite (vtext_whole 2).
  - unfold body_wf in H. destruct (skip_value _ _ _) as [r|] eqn:E; [|done].
    by apply (compact_valid _ _ _ _ E).
Qed.

(** The records JSON carries unchanged. *)
Definition go_record_ok (r : LogRecord) : Prop := record_wf r /\ carry_record r = r.
#[export] Instance go_record_ok_dec r : Decision (go_record_ok r).
Proof. unfold go_record_ok. apply _. Defined.

(** After the first passage a record does not change any more: what the manager receives,
    seals and reads back is what it received. *)
Lemma carried_record_ok r : record_wf r -> go_record_ok (carry_record r).
Proof.
  intros (Hs & Ho & Hb). split; [split_and!; [exact Hs|exact Ho|]|].
  - intros k y (_ & k' & x & Hx & ->)%carry_map_lookup. by apply body_wf_compact, (Hb k').
  - unfold carry_record, carry_source. cbn. rewrite !sanitize_idem.
    rewrite !(carry_map_idem sanitize) by (intros; apply sanitize_idem).
    by rewrite carry_map_idem by (intros k x Hx; by apply body_wf_compact, (Hb k)).
Qed.

Lemma string_nonl s : nonl (json_string s None).
Proof. apply nonl_cons; [done|apply nonl_json_key]. Qed.
Lemma source_nonl s : nonl (json_obj (source_members s) None).
Proof.
  apply nonl_obj. unfold source_members. each_member;
    first [apply string_nonl|apply nonl_int|apply nonl_digits, FormatUint_digits].
Qed.
Lemma map_nonl {A} (enc : A -> Json) m : (forall x, nonl (enc x None)) -> nonl (json_map enc m None).
Proof. intros H. apply nonl_obj. rewrite Forall_fmap. apply Forall_forall. intros [k x] _. apply H. Qed.

(** An encoded record is one line: it can be stored with a newline behind it. *)
Lemma record_line r l : GoMarshalRecord r = Some l -> l <> "" /\ nonl l.
Proof.
  unfold GoMarshalRecord. destruct (MarshalTime _) as [ts|] eqn:Ht; [|done].
  cbn [mbind option_bind]. destruct (forallb _ _); [|done]. intros [= <-]. split; [done|].
  apply nonl_obj. unfold record_members. each_member;
    first [apply source_nonl|apply string_nonl|apply nonl_int|by eapply nonl_time|apply map_nonl];
    intros x; [apply string_nonl..|apply nonl_compact].
Qed.

(** ** [segment.summary] *)

Definition summary_members (s : summary) : list (string * Json) :=
  [("namespaces", json_strings (su_Namespaces s)); ("pods", json_strings (su_Pods s));
   ("nodes", json_strings (su_Nodes s)); ("containers", json_strings (su_Containers s));
   ("label_keys", json_strings (su_LabelKeys s)); ("field_keys", json_strings (su_FieldKeys s))].
Definition dec_strings : Dec (list string) := dec_list dec_string "".
Definition summary_fields : list (string * Dec summary) :=
  [("namespaces", field su_Namespaces (fun x s => mkSummary x (su_Pods s) (su_Nodes s)
      (su_Containers s) (su_LabelKeys s) (su_FieldKeys s)) dec_strings);
   ("pods", field su_Pods (fun x s => mkSummary (su_Namespaces s) x (su_Nodes s)
      (su_Containers s) (su_LabelKeys s) (su_FieldKeys s)) dec_strings);
   ("nodes", field su_Nodes (fun x s => mkSummary (su_Namespaces s) (su_Pods s) x
      (su_Containers s) (su_LabelKeys s) (su_FieldKeys s)) dec_strings);
   ("containers", field su_Containers (fun x s => mkSummary (su_Namespaces s) (su_Pods s)
      (su_Nodes s) x (su_LabelKeys s) (su_FieldKeys s)) dec_strings);
   ("label_keys", field su_LabelKeys (fun x s => mkSummary (su_Namespaces s) (su_Pods s)
      (su_Nodes s) (su_Containers s) x (su_FieldKeys s)) dec_strings);
   ("field_keys", field su_FieldKeys (fun x s => mkSummary (su_Namespaces s) (su_Pods s)
      (su_Nodes s) (su_Containers s) (su_LabelKeys s) x) dec_strings)].

Definition carry_summary (s : summary) : summary :=
  mkSummary (sanitize <$> su_Namespaces s) (sanitize <$> su_Pods s) (sanitize <$> su_Nodes s)
    (sanitize <$> su_Containers s) (sanitize <$> su_LabelKeys s) (sanitize <$> su_FieldKeys s).

Definition GoMarshalSummary (s : summary) : string := Marshal (json_obj (summary_members s)).
Definition GoUnmarshalSummary (l : string) : option summary :=
  Unmarshal (dec_struct summary_fields) (mkSummary [] [] [] [] [] []) l.

Lemma summary_carried s : GoUnmarshalSummary (GoMarshalSummary s) = Some (carry_summary s).
Proof.
  assert (Hj : forall d, (d + 1 < maxNestingDepth)%N ->
    Forall (fun kv => jval (d + 1) kv.2) (summary_members s)).
  { intros d L. unfold summary_members. each_member; by apply jval_strings. }
  unfold GoUnmarshalSummary, GoMarshalSummary, Marshal.
  apply Unmarshal_Json; [apply jval_obj; [done|by apply (Hj 0%N)]|].
  apply decodes_struct; [by apply (Hj 0%N)|].
  eapply reads_eq; [do 6 (read_member; [apply decodes_strings|]); apply reads_nil|reflexivity].
Qed.

(** ** The codec *)

Lemma nonl_not l : nonl l -> (NL ∉ bytes_of l) /\ (CR ∉ bytes_of l).
Proof.
  intros H. split; intros E; pose proof (proj1 (Forall_forall _ _) H _ E) as N; by vm_compute in N.
Qed.

#[refine] Definition go_json : JsonCodec := {|
  MarshalRecord := GoMarshalRecord;
  UnmarshalRecord := GoUnmarshalRecord;
  record_ok := go_record_ok;
  MarshalSummary := GoMarshalSummary;
  UnmarshalSummary := GoUnmarshalSummary;
  summary_ok s := carry_summary s = s
|}.
Proof.
  - intros r l [Hw Ec] H. rewrite <- Ec at 1. by apply record_carried.
  - intros r l [Hne Hl]%record_line. split; [done|by apply nonl_not].
  - intros s Hs. by rewrite summary_carried, Hs.
Defined.

(** ** The wire *)

(** What came out of JSON goes in again: neither the time nor a compacted body stops it. *)
Lemma carried_marshals r l : record_wf r -> GoMarshalRecord r = Some l ->
  exists l', GoMarshalRecord (carry_record r) = Some l'.
Proof.
  intros (_ & _ & Hb) H. unfold GoMarshalRecord in H |- *.
  change (rec_Timestamp (carry_record r)) with (rec_Timestamp r).
  destruct (MarshalTime _) as [ts|]; [|done]. cbn [mbind option_bind]. clear H.
  rewrite (proj2 (forallb_forall _ _)); [by eexists|]. intros [k y] Hin.
  apply list_elem_of_In, elem_of_map_to_list, carry_map_lookup in Hin as (_ & k' & x & Hx & ->).
  unfold json_valid. cbn [snd]. rewrite (vtext_whole 0); [done|].
  apply (vtext_le 2); [done|]. by apply body_text, (Hb k').
Qed.

(** C32: A record that [json.Marshal] encodes is one non-empty line, and [json.Unmarshal]
    of that line yields the record with its texts made valid UTF-8 and its body members
    compacted.  That form is final: it marshals again, and JSON carries it unchanged from
    then on, over the wire and into the blocks of segments. *)
Theorem wire_roundtrip r l : record_wf r -> GoMarshalRecord r = Some l ->
  GoUnmarshalRecord l = Some (carry_record r) /\
  (exists l', GoMarshalRecord (carry_record r) = Some l' /\
              GoUnmarshalRecord l' = Some (carry_record r)) /\
  l <> "" /\ (NL ∉ bytes_of l) /\ (CR ∉ bytes_of l).
Proof.
  intros Hw H. split; [by apply record_carried|]. split.
  - destruct (carried_marshals r l Hw H) as [l' H']. exists l'. split; [done|].
    destruct (carried_record_ok r Hw) as [Hw' E]. rewrite <- E. by apply record_carried.
  - apply record_line in H as [Hne Hl]. split; [done|by apply nonl_not].
Qed.

Module Witness.
(** A pod name with a byte that is not UTF-8, and a body member with blanks in it. *)
Definition wire0 : LogRecord :=
  mkRecord (mkSource "n" "/p" 1 2 3) 40 1500 "ns" (String (byte_of 255) "") "c" "n" "" "stdout"
    (<["app" := "web"]> ∅) ∅ "m" (<["k" := "[1, 2 ]"]> ∅).

Lemma wire_roundtrip_witness :
  record_wf wire0 /\
  exists l, GoMarshalRecord wire0 = Some l /\ GoUnmarshalRecord l = Some (carry_record wire0) /\
    rec_Body (carry_record wire0) !! "k" = Some "[1,2]".
Proof.
  assert (Hw : record_wf wire0) by (apply (bool_decide_unpack _); vm_compute; exact I).
  split; [exact Hw|].
  destruct (GoMarshalRecord wire0) as [l|] eqn:E; [|vm_compute in E; discriminate E].
  exists l. split; [reflexivity|]. split; [|reflexivity].
  apply (wire_roundtrip wire0 l Hw E).
Defined.
End Witness.
