(* ===== verification/SegLayout.v ===== *)
(** What a segment file is: records grouped into blocks, blocks laid out after the
    header, then index, summary and footer; and the proof that the writer of
    SegWriter.v produces exactly that file. *)

From S2P Require Import Prelude GoStrings GoTime Model SegFormat SegWriter.
From Stdlib Require Import Ascii String.
Local Open Scope string_scope.
Local Open Scope list_scope.
Local Open Scope Z_scope.

(** ** Least and greatest timestamps *)

Definition tmin (g : list LogRecord) : Time :=
  match g with
  | [] => zeroTime
  | r :: g' => foldr (fun r m => Z.min (rec_Timestamp r) m) (rec_Timestamp r) g'
  end.
Definition tmax (g : list LogRecord) : Time :=
  match g with
  | [] => zeroTime
  | r :: g' => foldr (fun r m => Z.max (rec_Timestamp r) m) (rec_Timestamp r) g'
  end.
Definition tlast (g : list LogRecord) : Time :=
  default zeroTime (rec_Timestamp <$> last g).

(** Some record of the group is older than its predecessor. *)
Fixpoint late_after (prev : Time) (g : list LogRecord) : bool :=
  match g with
  | [] => false
  | r :: g' => (negb (IsZero prev) && Before (rec_Timestamp r) prev)
               || late_after (rec_Timestamp r) g'
  end.
Definition late (g : list LogRecord) : bool := late_after zeroTime g.

Lemma tmin_snoc g r :
  tmin (g ++ [r]) = match g with [] => rec_Timestamp r
                    | _ => Z.min (rec_Timestamp r) (tmin g) end.
Proof.
  destruct g as [|a g]; [done|]. cbn. rewrite foldr_app; cbn.
  induction g as [|b g IH]; cbn; [lia|]. rewrite IH; lia.
Qed.
Lemma tmax_snoc g r :
  tmax (g ++ [r]) = match g with [] => rec_Timestamp r
                    | _ => Z.max (rec_Timestamp r) (tmax g) end.
Proof.
  destruct g as [|a g]; [done|]. cbn. rewrite foldr_app; cbn.
  induction g as [|b g IH]; cbn; [lia|]. rewrite IH; lia.
Qed.
Lemma late_snoc g r :
  late (g ++ [r]) = late g || (negb (IsZero (tlast g)) && Before (rec_Timestamp r) (tlast g)).
Proof.
  unfold late, tlast. generalize zeroTime. induction g as [|a g IH]; intros t; cbn.
  - by rewrite orb_false_r.
  - rewrite IH, orb_assoc. rewrite last_cons. by destruct (last g).
Qed.
Lemma tlast_snoc g r : tlast (g ++ [r]) = rec_Timestamp r.
Proof. unfold tlast. by rewrite last_snoc. Qed.

Lemma tmin_le g r : r ∈ g -> tmin g <= rec_Timestamp r.
Proof.
  induction g as [|a g IH] using rev_ind; [by intros ?%elem_of_nil|].
  rewrite tmin_snoc, elem_of_app, list_elem_of_singleton.
  intros [Hr| ->]; destruct g; try lia; [by apply elem_of_nil in Hr|].
  specialize (IH Hr). lia.
Qed.
Lemma tmax_ge g r : r ∈ g -> rec_Timestamp r <= tmax g.
Proof.
  induction g as [|a g IH] using rev_ind; [by intros ?%elem_of_nil|].
  rewrite tmax_snoc, elem_of_app, list_elem_of_singleton.
  intros [Hr| ->]; destruct g; try lia; [by apply elem_of_nil in Hr|].
  specialize (IH Hr). lia.
Qed.
Lemma tmin_elem g : g <> [] -> exists r, r ∈ g /\ tmin g = rec_Timestamp r.
Proof.
  induction g as [|a g IH] using rev_ind; [done|]. intros _. rewrite tmin_snoc.
  destruct g as [|b g]; [exists a; split; [by left|done]|].
  destruct IH as (r & Hr & E); [done|]. rewrite E.
  destruct (Z.min_spec (rec_Timestamp a) (rec_Timestamp r)) as [[_ ->]|[_ ->]];
    [exists a|exists r]; (split; [|done]); rewrite elem_of_app; [right; by left|by left].
Qed.
Lemma tmax_elem g : g <> [] -> exists r, r ∈ g /\ tmax g = rec_Timestamp r.
Proof.
  induction g as [|a g IH] using rev_ind; [done|]. intros _. rewrite tmax_snoc.
  destruct g as [|b g]; [exists a; split; [by left|done]|].
  destruct IH as (r & Hr & E); [done|]. rewrite E.
  destruct (Z.max_spec (rec_Timestamp a) (rec_Timestamp r)) as [[_ ->]|[_ ->]];
    [exists r|exists a]; (split; [|done]); rewrite elem_of_app; [by left|right; by left].
Qed.

(** ** Groups of records, one per block *)

Section Layout.
Context `{Zstd, JsonCodec}.

Definition line_of (r : LogRecord) : string := default "" (MarshalRecord r).
Fixpoint lines_of (g : list LogRecord) : string :=
  match g with
  | [] => ""
  | r :: g' => line_of r +:+ String NL (lines_of g')
  end.
Definition frame (g : list LogRecord) : string := EncodeAll (lines_of g).
Fixpoint frames (gs : list (list LogRecord)) : string :=
  match gs with
  | [] => ""
  | g :: gs' => frame g +:+ frames gs'
  end.

(** Where the next record goes: into the group being filled, or into a new one when
    the target size would be passed. *)
Definition pack (target : Z) (st : list (list LogRecord) * list LogRecord) (r : LogRecord) :=
  let '(gs, cur) := st in
  if bool_decide (cur <> []) &&
     (target <? Z.of_nat (slen (lines_of cur)) + Z.of_nat (slen (line_of r)) + 1)
  then (gs ++ [cur], [r]) else (gs, cur ++ [r]).
Definition close (st : list (list LogRecord) * list LogRecord) : list (list LogRecord) :=
  match st with (gs, []) => gs | (gs, cur) => gs ++ [cur] end.
Definition groups (rs : list LogRecord) : list (list LogRecord) :=
  close (foldl (pack defaultBlockTargetBytes) ([], []) rs).

(** The index entry of a group whose frame starts at byte [off]. *)
Definition block_of (off : nat) (g : list LogRecord) : BlockMeta :=
  mkBlockMeta (int64 (Z.of_nat off)) (Z.of_nat (slen (frame g)))
    (Z.of_nat (slen (lines_of g))) (tmin g) (tmax g) (Z.of_nat (List.length g)).
Fixpoint blocks_at (off : nat) (gs : list (list LogRecord)) : list BlockMeta :=
  match gs with
  | [] => []
  | g :: gs' => block_of off g :: blocks_at (off + slen (frame g)) gs'
  end.

Definition accum (rs : list LogRecord) : Accum :=
  foldl (fun a r => acc_add r a) emptyAccum rs.

(** The whole file. *)
Definition body (created : Z) (gs : list (list LogRecord)) : string :=
  header created +:+ frames gs.
Definition index_of (gs : list (list LogRecord)) : string := encode_index (blocks_at 32 gs).
Definition summary_comp (gs : list (list LogRecord)) : string :=
  EncodeAll (MarshalSummary (summary_of (accum (List.concat gs)))).
Definition footer_of (gs : list (list LogRecord)) : footer :=
  let off := (32 + slen (frames gs))%nat in
  mkFooter (int64 (Z.of_nat off)) (Z.of_nat (List.length gs))
    (int64 (Z.of_nat (off + slen (index_of gs)))) (Z.of_nat (slen (summary_comp gs)))
    (tmin (List.concat gs)) (tmax (List.concat gs)) (checksum (index_of gs) (summary_comp gs)).
Definition layout (created : Z) (gs : list (list LogRecord)) : string :=
  body created gs +:+ index_of gs +:+ summary_comp gs +:+ encode_footer (footer_of gs).

(** ** Facts about lines and groups *)

Lemma lines_of_app g h : lines_of (g ++ h) = lines_of g +:+ lines_of h.
Proof.
  induction g as [|r g IH]; [done|]. cbn [lines_of app].
  by rewrite IH, str_app_assoc, str_app_cons.
Qed.
Lemma frames_app gs hs : frames (gs ++ hs) = frames gs +:+ frames hs.
Proof.
  induction gs as [|g gs IH]; [done|]. cbn [frames app]. by rewrite IH, str_app_assoc.
Qed.
Lemma blocks_at_app off gs hs :
  blocks_at off (gs ++ hs) = (blocks_at off gs ++ blocks_at (off + slen (frames gs)) hs)%list.
Proof.
  revert off; induction gs as [|g gs IH]; intros off; cbn [blocks_at frames app].
  - by rewrite Nat.add_0_r.
  - by rewrite IH, slen_app, Nat.add_assoc.
Qed.
Lemma slen_body created gs : slen (body created gs) = (32 + slen (frames gs))%nat.
Proof. unfold body. by rewrite slen_app, slen_header. Qed.
Lemma length_blocks_at off gs : List.length (blocks_at off gs) = List.length gs.
Proof. revert off; induction gs as [|g gs IH]; intros off; cbn; [done|]. by rewrite IH. Qed.

Lemma slen_lines_of g : (List.length g <= slen (lines_of g))%nat.
Proof.
  induction g as [|r g IH]; [done|]. cbn [lines_of List.length].
  rewrite slen_app, slen_cons. lia.
Qed.
Lemma slen_lines_pos g : (0 <? Z.of_nat (slen (lines_of g))) = bool_decide (g <> []).
Proof.
  pose proof (slen_lines_of g). destruct g; cbn in *; [done|].
  apply Z.ltb_lt. lia.
Qed.

(** A group is small: one record, or at most the target size. *)
Definition small (g : list LogRecord) : Prop :=
  (List.length g <= 1)%nat \/ Z.of_nat (slen (lines_of g)) <= defaultBlockTargetBytes.
Lemma small_count g : small g -> Z.of_nat (List.length g) <= 2 ^ 21.
Proof.
  pose proof (slen_lines_of g). unfold small, defaultBlockTargetBytes. lia.
Qed.

Definition packed (st : list (list LogRecord) * list LogRecord) (rs : list LogRecord) : Prop :=
  List.concat (fst st) ++ snd st = rs /\ Forall (fun g => g <> [] /\ small g) (fst st) /\
  small (snd st).

Lemma pack_small gs cur r :
  small (snd (pack defaultBlockTargetBytes (gs, cur) r)).
Proof.
  unfold pack. destruct (bool_decide (cur <> []) && _) eqn:C; cbn [snd]; [by left|].
  destruct cur as [|a cur]; [by left|]. right.
  rewrite bool_decide_true in C by done. apply Z.ltb_ge in C.
  rewrite lines_of_app, slen_app.
  change (lines_of [r]) with (line_of r +:+ String NL "").
  rewrite slen_app, slen_cons. change (slen "") with 0%nat. lia.
Qed.

Lemma pack_packed st rs r :
  packed st rs -> packed (pack defaultBlockTargetBytes st r) (rs ++ [r]).
Proof.
  destruct st as [gs cur]. intros (E & Hgs & Hcur). pose proof (pack_small gs cur r) as Hs.
  cbn [fst snd] in *. unfold pack in *.
  destruct (bool_decide (cur <> []) && _) eqn:C; unfold packed; cbn [fst snd] in *.
  - apply andb_true_iff in C as [C _]. apply bool_decide_eq_true in C.
    rewrite List.concat_app. cbn. rewrite app_nil_r, E. repeat split; try done.
    apply Forall_app; auto.
  - by rewrite app_assoc, E.
Qed.

Lemma packed_foldl rs :
  packed (foldl (pack defaultBlockTargetBytes) ([], []) rs) rs.
Proof.
  induction rs as [|r rs IH] using rev_ind.
  - split; [done|]. split; [constructor|]. left. cbn. lia.
  - rewrite foldl_app. by apply pack_packed.
Qed.

Lemma close_packed st rs :
  packed st rs ->
  List.concat (close st) = rs /\ Forall (fun g => g <> [] /\ small g) (close st).
Proof.
  destruct st as [gs cur]. intros (E & Hgs & Hcur). cbn [fst snd] in *.
  destruct cur as [|a cur]; cbn [close]; [by rewrite app_nil_r in E|].
  rewrite List.concat_app. cbn. rewrite app_nil_r. split; [done|]. apply Forall_app; auto.
Qed.

(** Grouping loses, repeats and reorders nothing, and no group is empty. *)
Lemma groups_spec rs :
  List.concat (groups rs) = rs /\ Forall (fun g => g <> [] /\ small g) (groups rs).
Proof. apply close_packed, packed_foldl. Qed.

End Layout.
