(* ===== verification/SegRefine.v ===== *)
(** The writer refines the layout: with a destination that accepts every byte,
    [Append] moves one record through the grouping of SegLayout.v and [Finish]
    leaves exactly [layout] behind. *)

From S2P Require Import Prelude GoStrings GoTime Model Value Ast Prune SegFormat.
From S2P Require Import SegWriter SegLayout.
From Stdlib Require Import Ascii String Btauto.
Local Open Scope string_scope.
Local Open Scope list_scope.
Local Open Scope Z_scope.

Section Refine.
Context `{Zstd, JsonCodec}.

(** The open block of the writer holds the group [cur]. *)
Definition cur_rep (cur : list LogRecord) (c : CurBlock) : Prop :=
  cb_lines c = lines_of cur /\ cb_count c = Z.of_nat (List.length cur) /\
  (cur <> [] -> cb_min c = tmin cur /\ cb_max c = tmax cur) /\ cb_last c = tlast cur.

(** The writer's span describes the records written so far. *)
Definition span_rep (gs : list (list LogRecord)) (cur : list LogRecord) (s : SegSpan) : Prop :=
  let all := List.concat gs ++ cur in
  ss_total s = Z.of_nat (List.length all) /\ ss_min s = tmin all /\ ss_max s = tmax all /\
  ss_late s = existsb late gs || late cur.

Definition at_pos (data : string) (pos : Z) : Prop := pos = int64 (Z.of_nat (slen data)).

(** The simulation relation. *)
Record W (created : Z) (sw : Writer) (gs : list (list LogRecord)) (cur : list LogRecord) : Prop := {
  W_sink : sw_w sw = mkSink (body created gs) None;
  W_target : sw_blockTarget sw = defaultBlockTargetBytes;
  W_pos : at_pos (body created gs) (sw_pos sw);
  W_cur : cur_rep cur (sw_cur sw);
  W_blocks : sw_blocks sw = blocks_at 32 gs;
  W_acc : sw_acc sw = accum (List.concat gs ++ cur);
  W_span : span_rep gs cur (sw_span sw);
  W_small : small cur;
  W_finished : sw_finished sw = false
}.

Lemma emit_ok b sw data :
  sw_w sw = mkSink data None -> at_pos data (sw_pos sw) ->
  exists sw', emit b sw = (sw', Ok tt) /\ sw_w sw' = mkSink (data +:+ b) None /\
    at_pos (data +:+ b) (sw_pos sw') /\
    sw_blockTarget sw' = sw_blockTarget sw /\ sw_cur sw' = sw_cur sw /\
    sw_blocks sw' = sw_blocks sw /\ sw_acc sw' = sw_acc sw /\
    sw_span sw' = sw_span sw /\ sw_finished sw' = sw_finished sw.
Proof.
  intros E P. unfold emit, sink_write. rewrite E. cbn.
  eexists; split; [reflexivity|]; cbn. repeat (split; [done|]).
  split; [|done]. unfold at_pos in *. rewrite P, slen_app. width.
Qed.

Lemma flush_nil sw created gs : W created sw gs [] -> flushBlock sw = (sw, Ok tt).
Proof. intros HW. destruct (W_cur _ _ _ _ HW) as (_ & Ec & _). unfold flushBlock. by rewrite Ec. Qed.

(** The same with [finished] left open: [Finish] flushes with it set. *)
Lemma flush_cons sw created gs cur :
  cur <> [] -> sw_w sw = mkSink (body created gs) None ->
  at_pos (body created gs) (sw_pos sw) -> cur_rep cur (sw_cur sw) ->
  exists sw', flushBlock sw = (sw', Ok tt) /\
    sw_w sw' = mkSink (body created (gs ++ [cur])) None /\
    at_pos (body created (gs ++ [cur])) (sw_pos sw') /\ cur_rep [] (sw_cur sw') /\
    sw_blocks sw' = sw_blocks sw ++ [block_of (32 + slen (frames gs)) cur] /\
    sw_blockTarget sw' = sw_blockTarget sw /\ sw_acc sw' = sw_acc sw /\
    sw_span sw' = sw_span sw /\ sw_finished sw' = sw_finished sw.
Proof.
  intros Hne Hw Hp (El & Ec & Em & Et). destruct (Em Hne) as [Emin Emax].
  unfold flushBlock. rewrite Ec.
  rewrite (proj2 (Z.eqb_neq _ 0)) by (destruct cur; cbn; [done|lia]).
  destruct (emit_ok (frame cur) sw _ Hw Hp) as (sw' & E & Hw' & Hp' & Ht & _ & Hb & Ha & Hs & Hf).
  rewrite El. unfold frame in E. rewrite (bind_step _ _ _ _ _ E). unfold modify_st.
  eexists; split; [reflexivity|]; cbn.
  assert (B : body created (gs ++ [cur]) = body created gs +:+ frame cur).
  { unfold body. rewrite frames_app. cbn [frames]. by rewrite str_app_nil_r, str_app_assoc. }
  rewrite B, Hb. split; [done|]. split; [done|]. split; [by repeat split|].
  split; [|done]. do 2 f_equal. unfold block_of, frame. rewrite Emin, Emax. f_equal.
  rewrite Hp. unfold body. by rewrite slen_app, slen_header.
Qed.

Lemma flush_W sw created gs cur :
  cur <> [] -> W created sw gs cur ->
  exists sw', flushBlock sw = (sw', Ok tt) /\ W created sw' (gs ++ [cur]) [].
Proof.
  intros Hne [Hw Ht Hp Hc Hb Ha Hs _ Hf].
  destruct (flush_cons _ _ _ _ Hne Hw Hp Hc)
    as (sw' & E & Hw' & Hp' & Hc' & Hb' & Ht' & Ha' & Hs' & Hf').
  exists sw'. split; [done|].
  assert (C : List.concat (gs ++ [cur]) = List.concat gs ++ cur).
  { rewrite List.concat_app; cbn. by rewrite app_nil_r. }
  split; rewrite ?Ht', ?Ha', ?Hs', ?Hf'; try done.
  - by rewrite Hb', Hb, blocks_at_app.
  - by rewrite C, app_nil_r.
  - unfold span_rep. rewrite C, app_nil_r, existsb_app. cbn. rewrite !orb_false_r. done.
  - left; cbn; lia.
Qed.

Lemma cur_add_rep cur c r line :
  cur_rep cur c -> line_of r = line -> small cur ->
  cur_rep (cur ++ [r]) (cur_add line (rec_Timestamp r) c).
Proof.
  intros (El & Ec & Em & Et) <- Hsm. pose proof (small_count _ Hsm) as Hn.
  unfold cur_rep, cur_add; cbn. rewrite El, Ec, tlast_snoc.
  assert (I : int32 (Z.of_nat (List.length cur) + 1) = Z.of_nat (List.length (cur ++ [r]))).
  { rewrite length_app. cbn. width. }
  rewrite I, tmin_snoc, tmax_snoc. split; [|split; [done|split; [|done]]].
  - rewrite lines_of_app. done.
  - intros _. rewrite length_app. cbn. destruct cur as [|a cur]; [done|].
    rewrite (proj2 (Z.eqb_neq _ 1)) by (cbn; lia). cbn [orb].
    destruct Em as [-> ->]; [done|].
    split; [destruct (Before _ _) eqn:E|destruct (After _ _) eqn:E]; times; lia.
Qed.

Lemma span_add_rep gs cur s c r :
  span_rep gs cur s -> cb_last c = tlast cur ->
  Z.of_nat (List.length (List.concat gs ++ cur)) < 2 ^ 62 ->
  span_rep gs (cur ++ [r]) (span_add (cb_last c) (rec_Timestamp r) s).
Proof.
  intros (En & Emin & Emax & El) Et Hn. unfold span_rep, span_add; cbn.
  rewrite app_assoc. set (all := List.concat gs ++ cur) in *.
  rewrite En, Emin, Emax, El, Et, tmin_snoc, tmax_snoc, late_snoc, length_app. cbn.
  split; [width|].
  assert (Z0 : (Z.of_nat (List.length all) =? 0) = bool_decide (all = [])).
  { destruct all; cbn; [done|]. by apply Z.eqb_neq. }
  rewrite Z0. destruct all as [|a all]; cbn [orb].
  - cbn. repeat split. destruct (_ && _); btauto.
  - rewrite bool_decide_false by done. cbn [orb].
    split; [destruct (Before _ (tmin _)) eqn:E; times; lia|].
    split; [destruct (After _ _) eqn:E; times; lia|].
    destruct (_ && _); btauto.
Qed.

Lemma accum_snoc rs r : accum (rs ++ [r]) = acc_add r (accum rs).
Proof. unfold accum. by rewrite foldl_app. Qed.

Lemma add_W sw created gs cur r line :
  W created sw gs cur -> line_of r = line -> small (cur ++ [r]) ->
  Z.of_nat (List.length (List.concat gs ++ cur)) < 2 ^ 62 ->
  W created
    (mkWriter (sw_w sw) (sw_blockTarget sw) (sw_pos sw)
       (cur_add line (rec_Timestamp r) (sw_cur sw)) (sw_blocks sw) (acc_add r (sw_acc sw))
       (span_add (cb_last (sw_cur sw)) (rec_Timestamp r) (sw_span sw)) (sw_finished sw))
    gs (cur ++ [r]).
Proof.
  intros [Hw Ht Hp Hc Hb Ha Hs Hsm Hf] El Hsm' Hn. split; cbn; try done.
  - by apply cur_add_rep.
  - by rewrite app_assoc, accum_snoc, Ha.
  - apply span_add_rep; [done| |done]. by destruct Hc as (_ & _ & _ & ?).
Qed.

(** One [Append] is one step of the grouping. *)
Lemma Append_W sw created gs cur r :
  W created sw gs cur -> is_Some (MarshalRecord r) ->
  Z.of_nat (List.length (List.concat gs ++ cur)) < 2 ^ 62 ->
  exists sw', Append r sw = (sw', Ok tt) /\
    let st := pack defaultBlockTargetBytes (gs, cur) r in W created sw' (fst st) (snd st).
Proof.
  intros HW [line Hm] Hn. unfold Append. rewrite Hm.
  assert (El : line_of r = line) by (unfold line_of; by rewrite Hm).
  rewrite (bind_step _ _ sw sw sw) by done.
  destruct (W_cur _ _ _ _ HW) as (Elines & _). rewrite Elines, slen_lines_pos.
  rewrite (W_target _ _ _ _ HW). unfold pack. rewrite El.
  destruct (bool_decide (cur <> []) && _) eqn:C; cbn [fst snd].
  - apply andb_true_iff in C as [C _]. apply bool_decide_eq_true in C.
    destruct (flush_W _ _ _ _ C HW) as (sw' & E & HW').
    rewrite (bind_step _ _ _ _ _ E). eexists; split; [reflexivity|].
    apply (add_W _ _ _ [] r line); [done|done|left; done|].
    rewrite app_nil_r, List.concat_app. cbn. by rewrite app_nil_r.
  - rewrite (bind_step _ _ sw sw tt) by done. eexists; split; [reflexivity|].
    apply add_W; [done|done| |done].
    pose proof (pack_small gs cur r) as P. unfold pack in P. by rewrite El, C in P.
Qed.

Lemma NewWriter_W created :
  exists sw, NewWriter (mkSink "" None) created = (sw, Ok tt) /\ W created sw [] [].
Proof.
  assert (B : body created [] = "" +:+ header created) by apply str_app_nil_r.
  eexists; split; [reflexivity|]. split; rewrite ?B; try done. left; cbn; lia.
Qed.

Lemma Appends_W created rs sw gs cur all :
  W created sw gs cur -> List.concat gs ++ cur = all ->
  Forall (fun r => is_Some (MarshalRecord r)) rs ->
  Z.of_nat (List.length (all ++ rs)) < 2 ^ 62 ->
  exists sw', for_st Append rs sw = (sw', Ok tt) /\
    let st := foldl (pack defaultBlockTargetBytes) (gs, cur) rs in
    W created sw' (fst st) (snd st).
Proof.
  intros HW Hall Hrs. revert sw gs cur all HW Hall.
  induction Hrs as [|r rs Hr _ IH]; intros sw gs cur all HW Hall Hn; [by exists sw|].
  rewrite length_app in Hn. cbn in Hn.
  destruct (Append_W _ _ _ _ r HW Hr) as (sw' & E & HW'); [rewrite Hall; lia|].
  cbn [for_st foldl]. rewrite (bind_step _ _ _ _ _ E).
  destruct (pack defaultBlockTargetBytes (gs, cur) r) as [gs' cur'] eqn:P.
  apply (IH sw' gs' cur' (all ++ [r]) HW'); [|rewrite !length_app; cbn; lia].
  unfold pack in P. destruct (_ && _); injection P as <- <-.
  - by rewrite List.concat_app, <- Hall; cbn; rewrite app_nil_r.
  - by rewrite app_assoc, Hall.
Qed.

(** Flushing the last group leaves the body of the file and the index to write. *)
Lemma flush_close sw created gs cur :
  W created sw gs cur -> let gs' := close (gs, cur) in
  exists sw', flushBlock (set_finished sw) = (sw', Ok tt) /\
    sw_w sw' = mkSink (body created gs') None /\ at_pos (body created gs') (sw_pos sw') /\
    sw_blocks sw' = blocks_at 32 gs' /\ sw_acc sw' = accum (List.concat gs') /\
    span_rep gs' [] (sw_span sw').
Proof.
  intros HW gs'. destruct cur as [|a cur].
  - exists (set_finished sw). pose proof HW as [Hw _ Hp (_ & Ec & _) Hb Ha Hs _ _].
    rewrite app_nil_r in Ha. split; [|done]. unfold flushBlock. cbn. by rewrite Ec.
  - pose proof HW as [Hw _ Hp Hc Hb Ha Hs _ _].
    destruct (flush_cons (set_finished sw) created gs (a :: cur)) as
      (sw' & E & Hw' & Hp' & Hc' & Hb' & Ht' & Ha' & Hs' & Hf'); try done.
    exists sw'. split; [done|]. split; [done|]. split; [done|].
    assert (C : List.concat gs' = List.concat gs ++ a :: cur).
    { unfold gs'; cbn [close]. rewrite List.concat_app; cbn. by rewrite app_nil_r. }
    split; [|split].
    + rewrite Hb'. cbn. unfold gs'. cbn [close]. by rewrite Hb, blocks_at_app.
    + by rewrite Ha', C.
    + rewrite Hs'. unfold span_rep. rewrite C, app_nil_r. unfold gs'. cbn [close].
      rewrite existsb_app. cbn [existsb]. change (late []) with false.
      rewrite !orb_false_r. apply Hs.
Qed.

(** The metadata of a segment holding the groups [gs]. *)
Definition meta_for (created : Z) (gs : list (list LogRecord)) : SegmentMeta :=
  let rs := List.concat gs in
  let sum := summary_of (accum rs) in
  mkSegmentMeta "" "" (tmin rs) (tmax rs)
    (su_Namespaces sum) (su_Pods sum) (su_Nodes sum) (su_Containers sum)
    (su_LabelKeys sum) (su_FieldKeys sum) (blocks_at 32 gs)
    (int64 (Z.of_nat (slen (layout created gs)))) (Z.of_nat (List.length rs))
    (existsb late gs) (ac_srcOffset (accum rs)) "".

Lemma Finish_layout sw created gs cur :
  W created sw gs cur -> let gs' := close (gs, cur) in
  exists sw', Finish sw = (sw', Ok (meta_for created gs')) /\
    sk_data (sw_w sw') = layout created gs'.
Proof.
  intros HW gs'. destruct (flush_close _ _ _ _ HW) as (s1 & E1 & Hw1 & Hp1 & Hb1 & Ha1 & Hs1).
  fold gs' in Hw1, Hp1, Hb1, Ha1, Hs1.
  unfold Finish. rewrite (bind_step _ _ sw sw sw) by done.
  rewrite (W_finished _ _ _ _ HW), (bind_step _ _ sw (set_finished sw) tt) by done.
  rewrite (bind_step _ _ _ _ _ E1), (bind_step _ _ s1 s1 s1), Hb1 by done.
  destruct (emit_ok (index_of gs') s1 _ Hw1 Hp1)
    as (s2 & E2 & Hw2 & Hp2 & _ & _ & Hb2 & Ha2 & Hs2 & _).
  rewrite (bind_step _ _ _ _ _ E2), (bind_step _ _ s2 s2 s2), Ha2, Ha1 by done.
  destruct (emit_ok (summary_comp gs') s2 _ Hw2 Hp2)
    as (s3 & E3 & Hw3 & Hp3 & _ & _ & Hb3 & Ha3 & Hs3 & _).
  rewrite (bind_step _ _ _ _ _ E3).
  destruct Hs1 as (Etot & Emin & Emax & Elate).
  rewrite app_nil_r in Etot, Emin, Emax. rewrite orb_false_r in Elate.
  destruct (emit_ok (encode_footer (footer_of gs')) s3 _ Hw3 Hp3)
    as (s4 & E4 & Hw4 & Hp4 & _ & _ & Hb4 & Ha4 & Hs4 & _).
  erewrite (bind_step _ _ s3 s4 tt); cycle 1.
  { unfold writeFooter. rewrite (bind_step _ _ s3 s3 s3), Hs3, Hs2, Emin, Emax by done.
    rewrite <- E4. unfold footer_of. do 3 f_equal.
    - by rewrite Hp1, slen_body.
    - by rewrite Hb2, Hb1, length_blocks_at.
    - by rewrite Hp2, slen_app, slen_body. }
  rewrite (bind_step _ _ s4 s4 s4) by done. exists s4.
  assert (D : ((body created gs' +:+ index_of gs') +:+ summary_comp gs')
                +:+ encode_footer (footer_of gs') = layout created gs')
    by (unfold layout; by rewrite !str_app_assoc).
  rewrite D in Hw4, Hp4. rewrite Hw4. split; [|done].
  unfold meta_for, meta_of, mret, stM_ret. cbn.
  by rewrite Hs4, Hs3, Hs2, Hb4, Hb3, Hb2, Ha4, Ha3, Ha2, Hb1, Ha1, Etot, Emin, Emax, Elate, Hp4.
Qed.

Lemma write_layout created rs :
  Forall (fun r => is_Some (MarshalRecord r)) rs ->
  Z.of_nat (List.length rs) < 2 ^ 62 ->
  exists sw0 sw, NewWriter (mkSink "" None) created = (sw0, Ok tt) /\
    write_all rs sw0 = (sw, Ok (meta_for created (groups rs))) /\
    sk_data (sw_w sw) = layout created (groups rs).
Proof.
  intros Hrs Hn. destruct (NewWriter_W created) as (sw0 & E0 & HW0).
  destruct (Appends_W _ _ _ _ _ [] HW0 eq_refl Hrs Hn) as (sw1 & E1 & HW1).
  unfold groups. destruct (foldl _ _ rs) as [gs cur].
  destruct (Finish_layout _ _ _ _ HW1) as (sw2 & E2 & HD).
  exists sw0, sw2. split; [done|]. split; [|done].
  unfold write_all. by rewrite (bind_step _ _ _ _ _ E1).
Qed.

(** C35: the writer refines the layout.  Writing records that all have a JSON form to
    a destination that takes every byte never fails; the file it leaves is exactly
    the specified layout (header, one zstd frame per group, index, summary, footer)
    of the records grouped into blocks, and the metadata it returns is that layout's. *)
Theorem write_refines_layout created rs :
  Forall (fun r => is_Some (MarshalRecord r)) rs ->
  Z.of_nat (List.length rs) < 2 ^ 62 ->
  exists sw0 sw, NewWriter (mkSink "" None) created = (sw0, Ok tt) /\
    write_all rs sw0 = (sw, Ok (meta_for created (groups rs))) /\
    sk_data (sw_w sw) = layout created (groups rs).
Proof. apply write_layout. Qed.

End Refine.

(** ** What the metadata says of the records *)

Lemma elem_of_sortedKeys m k : k ∈ sortedKeys m <-> k ∈ m.
Proof. unfold sortedKeys. by rewrite merge_sort_Permutation, elem_of_elements. Qed.

Lemma elem_of_addKey m k x : x ∈ addKey m k <-> x ∈ m \/ (x = k /\ k <> "").
Proof. unfold addKey. destruct (String.eqb_spec k "") as [->|Hk].
  - split; [by left|]. by intros [?|[-> ?]].
  - rewrite elem_of_union, elem_of_singleton. tauto.
Qed.

Lemma elem_of_addKeys {V} (m : gset string) (kv : gmap string V) x :
  x ∈ addKeys m kv <-> x ∈ m \/ (is_Some (kv !! x) /\ x <> "").
Proof.
  unfold addKeys. rewrite <- elem_of_dom, <- (elem_of_elements (dom kv) x).
  generalize (elements (dom kv)) as l. intros l. revert m.
  induction l as [|k l IH]; intros m; cbn.
  - split; [by left|]. intros [?|[Hx _]]; [done|by apply elem_of_nil in Hx].
  - rewrite IH, elem_of_addKey, elem_of_cons. intuition congruence.
Qed.

(** The highest offset of a source among the records, 0 if it has none. *)
Definition top_offset (key : string) (rs : list LogRecord) : Z :=
  foldr Z.max 0 (rec_Offset <$> filter (fun r => Key (rec_Source r) = key) rs).

Lemma top_offset_snoc key rs r :
  top_offset key (rs ++ [r]) =
  if decide (Key (rec_Source r) = key) then Z.max (top_offset key rs) (rec_Offset r)
  else top_offset key rs.
Proof.
  unfold top_offset. rewrite filter_app, fmap_app, foldr_app, filter_cons, filter_nil.
  case_decide; [|done]. cbn.
  generalize (rec_Offset <$> filter (fun r => Key (rec_Source r) = key) rs) as l.
  induction l as [|x l IH]; cbn; [lia|]. rewrite IH. lia.
Qed.

(** Each set of the summary is exactly the non-empty values of its field, and the
    source offsets are the sources' highest offsets. *)
Record describes (a : Accum) (rs : list LogRecord) : Prop := {
  d_namespaces x : x ∈ ac_namespaces a <-> x <> "" /\ exists r, r ∈ rs /\ rec_Namespace r = x;
  d_pods x : x ∈ ac_pods a <-> x <> "" /\ exists r, r ∈ rs /\ rec_Pod r = x;
  d_nodes x : x ∈ ac_nodes a <-> x <> "" /\ exists r, r ∈ rs /\ rec_Node r = x;
  d_containers x : x ∈ ac_containers a <-> x <> "" /\ exists r, r ∈ rs /\ rec_Container r = x;
  d_labelKeys x : x ∈ ac_labelKeys a <-> x <> "" /\ exists r, r ∈ rs /\ is_Some (rec_Labels r !! x);
  d_fieldKeys x : x ∈ ac_fieldKeys a <-> x <> "" /\ exists r, r ∈ rs /\ is_Some (rec_Body r !! x);
  d_offset k : default 0 (ac_srcOffset a !! k) = top_offset k rs
}.

Lemma exists_snoc (P : LogRecord -> Prop) rs r :
  (exists r', r' ∈ rs ++ [r] /\ P r') <-> (exists r', r' ∈ rs /\ P r') \/ P r.
Proof. setoid_rewrite elem_of_app. setoid_rewrite list_elem_of_singleton. split.
  - intros (r' & [?| ->] & ?); [left; eauto|by right].
  - intros [(r' & ? & ?)|?]; eauto.
Qed.

Lemma add_iff (E : Prop) (x k : string) :
  ((x <> "" /\ E) \/ (x = k /\ k <> "")) <-> (x <> "" /\ (E \/ k = x)).
Proof. intuition congruence. Qed.

Lemma describes_snoc a rs r : describes a rs -> describes (acc_add r a) (rs ++ [r]).
Proof.
  intros [Hn Hp Ho Hc Hl Hf Hs]. split; unfold acc_add; cbn; intros x;
    rewrite ?exists_snoc, ?elem_of_addKey, ?elem_of_addKeys, ?Hn, ?Hp, ?Ho, ?Hc, ?Hl, ?Hf;
    try (apply add_iff || tauto).
  rewrite top_offset_snoc, <- Hs. destruct (Z.ltb_spec (default 0 (ac_srcOffset a !! Key (rec_Source r))) (rec_Offset r)) as [L|L].
  - case_decide as E; [subst; rewrite lookup_insert_eq; cbn; lia|by rewrite lookup_insert_ne].
  - case_decide as E; [subst; lia|done].
Qed.

Lemma accum_describes rs : describes (accum rs) rs.
Proof.
  induction rs as [|r rs IH] using rev_ind.
  - split; cbn; intros x; rewrite ?lookup_empty; try done;
      (split; [by intros ?%elem_of_empty|intros (_ & r & Hr & _); by apply elem_of_nil in Hr]).
  - rewrite accum_snoc. by apply describes_snoc.
Qed.

(** The metadata of a segment describes its records exactly: each summary list
    holds the non-empty values of its field and no other, the source offsets are the
    highest offset of each source, and every timestamp is inside [MinTS, MaxTS]. *)
Theorem summary_exact rs : describes (accum rs) rs.
Proof. apply accum_describes. Qed.
