(* ===== verification/SegReader.v ===== *)
(** internal/segment/reader.go: opening a sealed segment and reading its blocks; and
    the proof that it reads back what the writer wrote. *)

From S2P Require Import Prelude GoStrings GoTime Model SegFormat SegWriter SegLayout.
From S2P Require Import SegRefine.
From Stdlib Require Import Ascii String.
Local Open Scope string_scope.
Local Open Scope list_scope.
Local Open Scope Z_scope.

(** ** The source and the line scanner *)

(** [r.ReadAt(make([]byte, n), off)] on a file holding [data]: a negative offset and
    a range past the end are errors; an empty read succeeds. *)
Definition ReadAt (data : string) (n off : Z) : result seg_error string :=
  if off <? 0 then Err ErrReadAt
  else if (n =? 0) || (off + n <=? Z.of_nat (slen data))
  then Ok (stake (Z.to_nat n) (sdrop (Z.to_nat off) data))
  else Err ErrReadAt.

(** [bufio.ScanLines]: the pieces between newlines, the last one only if non-empty. *)
Fixpoint raw_lines (s : string) : list string :=
  match s with
  | EmptyString => []
  | String c s' =>
      if Ascii.eqb c NL then EmptyString :: raw_lines s'
      else match raw_lines s' with
           | [] => [String c EmptyString]
           | p :: ps => String c p :: ps
           end
  end.
Fixpoint dropCR (s : string) : string :=
  match s with
  | EmptyString => EmptyString
  | String c EmptyString => if Ascii.eqb c CR then EmptyString else s
  | String c s' => String c (dropCR s')
  end.
(** The longest token the scanner's buffer accepts is below this. *)
Definition maxTokenSize : Z := 16 * 1024 * 1024.

(** [segment.Reader] *)
Record Reader := mkReader {
  rd_r : string; rd_size : Z;
  rd_blocks : list BlockMeta; rd_summary : summary; rd_segMin : Time; rd_segMax : Time
}.

Section Reader.
Context `{Zstd, JsonCodec}.

(** The test on the footer's offsets; the sums wrap at 64 bits. *)
Definition footer_bounds_bad (f : footer) (idxLen size : Z) : bool :=
  (ft_indexOffset f <? headerSize)
  || (size <? int64 (ft_indexOffset f + idxLen))
  || (ft_summaryOffset f <? int64 (ft_indexOffset f + idxLen))
  || (size - footerSize <? int64 (ft_summaryOffset f + ft_summaryLen f)).

(** [segment.Open] *)
Definition Open (r : string) (size : Z) : result seg_error Reader :=
  if size <? headerSize + footerSize then Err ErrUnsealed else
  foot ← ReadAt r footerSize (size - footerSize);
  if negb (String.eqb (sdrop 56 foot) magicFoot) then Err ErrUnsealed else
  let f := decode_footer foot in
  let idxLen := ft_blockCount f * blockIndexEntrySize in
  if footer_bounds_bad f idxLen size then Err ErrUnsealed else
  idx ← ReadAt r idxLen (ft_indexOffset f);
  summaryComp ← ReadAt r (ft_summaryLen f) (ft_summaryOffset f);
  if negb (checksum idx summaryComp =? ft_crc f) then Err ErrUnsealed else
  let blocks := decode_index (Z.to_nat (ft_blockCount f)) idx in
  match DecodeAll summaryComp with
  | None => Err ErrDecode
  | Some summaryJSON =>
      match UnmarshalSummary summaryJSON with
      | None => Err ErrUnmarshal
      | Some sum => Ok (mkReader r size blocks sum (ft_segMin f) (ft_segMax f))
      end
  end.

(** [Reader.Blocks] and [Reader.Meta] *)
Definition Blocks (rd : Reader) : list BlockMeta := rd_blocks rd.
Definition Meta (rd : Reader) : SegmentMeta :=
  let count := foldl (fun n b => int64 (n + bm_RecordCount b)) 0 (rd_blocks rd) in
  let sum := rd_summary rd in
  mkSegmentMeta "" "" (rd_segMin rd) (rd_segMax rd)
    (su_Namespaces sum) (su_Pods sum) (su_Nodes sum) (su_Containers sum)
    (su_LabelKeys sum) (su_FieldKeys sum) (rd_blocks rd) (rd_size rd) count
    false ∅ "".

(** The scanning loop of [ReadBlock]. *)
Fixpoint scan_records {S} (fn : LogRecord -> stM S seg_error unit) (pieces : list string) :
    stM S seg_error unit :=
  match pieces with
  | [] => mret tt
  | p :: ps =>
      if maxTokenSize <=? Z.of_nat (slen p) then fail_st ErrTooLong else
      match UnmarshalRecord (dropCR p) with
      | None => fail_st ErrUnmarshal
      | Some rec => fn rec ;; scan_records fn ps
      end
  end.

(** [Reader.ReadBlock] *)
Definition ReadBlock {S} (rd : Reader) (i : Z) (fn : LogRecord -> stM S seg_error unit) :
    stM S seg_error unit :=
  if i <? 0 then fail_st ErrBlockRange else
  match rd_blocks rd !! Z.to_nat i with
  | None => fail_st ErrBlockRange
  | Some b =>
      if bm_CompLen b <? 0 then fail_st PanicMakeslice else
      comp ← lift_st (ReadAt (rd_r rd) (bm_CompLen b) (bm_FileOffset b));
      match DecodeAll comp with
      | None => fail_st ErrDecode
      | Some raw => scan_records fn (raw_lines raw)
      end
  end.

(** ** Reading slices of a concatenation *)

Lemma ReadAt_mid a b c :
  ReadAt (a +:+ b +:+ c) (Z.of_nat (slen b)) (Z.of_nat (slen a)) = Ok b.
Proof.
  unfold ReadAt. rewrite (proj2 (Z.ltb_ge _ _)) by lia.
  rewrite (proj2 (Z.leb_le _ (Z.of_nat (slen _)))) by (rewrite !slen_app; lia).
  by rewrite orb_true_r, !Nat2Z.id, sdrop_app, stake_app.
Qed.
Lemma ReadAt_at data a b c n off :
  data = a +:+ b +:+ c -> n = Z.of_nat (slen b) -> off = Z.of_nat (slen a) ->
  ReadAt data n off = Ok b.
Proof. intros -> -> ->. apply ReadAt_mid. Qed.

(** ** Scanning back the lines of a group *)

Lemma raw_lines_cons l s :
  NL ∉ bytes_of l -> raw_lines (l +:+ String NL s) = l :: raw_lines s.
Proof.
  induction l as [|c l IH]; intros Hl; [done|].
  rewrite str_app_cons. cbn in Hl |- *. apply not_elem_of_cons in Hl as [Hc Hl].
  destruct (Ascii.eqb_spec c NL); [by subst|]. by rewrite IH.
Qed.
Lemma dropCR_id l : CR ∉ bytes_of l -> dropCR l = l.
Proof.
  induction l as [|c l IH]; intros Hl; [done|]. cbn in Hl.
  apply not_elem_of_cons in Hl as [Hc Hl]. cbn. rewrite IH by done.
  destruct l; [|done]. by destruct (Ascii.eqb_spec c CR).
Qed.

(** A record the segment can carry. *)
Definition carried (r : LogRecord) : Prop :=
  record_ok r /\ is_Some (MarshalRecord r) /\ in_int64 (rec_Timestamp r) /\
  Z.of_nat (slen (line_of r)) < maxTokenSize.

Lemma raw_lines_of g : Forall carried g -> raw_lines (lines_of g) = line_of <$> g.
Proof.
  induction 1 as [|r g (_ & [l Hl] & _) _ IH]; [done|]. cbn.
  unfold line_of at 1. rewrite Hl. cbn. rewrite raw_lines_cons.
  - by rewrite IH; unfold line_of at 2; rewrite Hl.
  - by apply MarshalRecord_line in Hl as (_ & ? & _).
Qed.

Lemma scan_lines_of {S} (fn : LogRecord -> stM S seg_error unit) g :
  Forall carried g -> forall s, scan_records fn (line_of <$> g) s = for_st fn g s.
Proof.
  induction 1 as [|r g (Hok & [l Hl] & _ & Hlen) _ IH]; intros s; [done|]. cbn.
  rewrite (proj2 (Z.leb_gt _ _)) by done. unfold line_of at 1. rewrite Hl. cbn.
  rewrite dropCR_id by (by apply MarshalRecord_line in Hl as (_ & _ & ?)).
  rewrite (Unmarshal_MarshalRecord r l) by done.
  unfold mbind, stM_bind. destruct (fn r s) as [s' [[]|e]]; [apply IH|done].
Qed.

(** ** Locating the blocks *)

Lemma blocks_at_lookup off gs i g :
  gs !! i = Some g ->
  blocks_at off gs !! i = Some (block_of (off + slen (frames (take i gs))) g).
Proof.
  revert off i; induction gs as [|h gs IH]; intros off [|i] E; try done.
  - cbn in *. injection E as ->. by rewrite Nat.add_0_r.
  - cbn in *. rewrite (IH _ _ E), slen_app. do 2 f_equal. lia.
Qed.
Lemma frames_split gs i g :
  gs !! i = Some g ->
  frames gs = frames (take i gs) +:+ frame g +:+ frames (drop (S i) gs).
Proof.
  intros E. rewrite <- (take_drop_middle gs i g E) at 1.
  by rewrite frames_app.
Qed.

(** ** Opening a written file *)

(** What the groups of a file must meet for the file to be readable: bounds of the
    format's fields, and records JSON represents faithfully. *)
Record sealable (created : Z) (gs : list (list LogRecord)) : Prop := {
  se_carried : Forall (Forall carried) gs;
  se_groups : Forall (fun g => g <> [] /\ small g) gs;
  se_nonempty : gs <> [];
  se_size : Z.of_nat (slen (layout created gs)) < 2 ^ 63;
  se_blocks : Z.of_nat (List.length gs) < 2 ^ 32;
  se_summary_len : Z.of_nat (slen (summary_comp gs)) < 2 ^ 32;
  se_summary : summary_ok (summary_of (accum (List.concat gs)))
}.

Lemma slen_layout created gs :
  slen (layout created gs)
  = (32 + slen (frames gs) + slen (index_of gs) + slen (summary_comp gs) + 64)%nat.
Proof. unfold layout. rewrite !slen_app, slen_body, slen_encode_footer. lia. Qed.
Lemma slen_index_of gs : slen (index_of gs) = (44 * List.length gs)%nat.
Proof. unfold index_of. by rewrite slen_encode_index, length_blocks_at. Qed.

Lemma tmin_range g : g <> [] -> Forall carried g -> in_int64 (tmin g) /\ in_int64 (tmax g).
Proof.
  intros Hne Hg. rewrite Forall_forall in Hg.
  destruct (tmin_elem g Hne) as (r & Hr & ->), (tmax_elem g Hne) as (r' & Hr' & ->).
  apply Hg in Hr as (_ & _ & ? & _), Hr' as (_ & _ & ? & _). done.
Qed.

Lemma slen_lines_small g :
  Forall carried g -> small g -> Z.of_nat (slen (lines_of g)) <= maxTokenSize.
Proof.
  intros Hg [Hs|Hs]; [|unfold defaultBlockTargetBytes, maxTokenSize in *; lia].
  destruct g as [|r [|r' g]]; cbn in Hs; [done| |lia].
  apply Forall_cons in Hg as [(_ & _ & _ & Hr) _]. cbn [lines_of].
  rewrite slen_app, slen_cons. change (slen "") with 0%nat. lia.
Qed.

Lemma block_of_ok created gs i g :
  sealable created gs -> gs !! i = Some g ->
  entry_ok (block_of (32 + slen (frames (take i gs))) g) /\
  bm_FileOffset (block_of (32 + slen (frames (take i gs))) g)
  = Z.of_nat (32 + slen (frames (take i gs))).
Proof.
  intros Hse E. pose proof (se_size _ _ Hse) as Hsz. rewrite slen_layout in Hsz.
  rewrite (frames_split gs i g E), !slen_app in Hsz.
  pose proof (Forall_lookup_1 _ _ _ _ (se_groups _ _ Hse) E) as [Hne Hsm].
  pose proof (Forall_lookup_1 _ _ _ _ (se_carried _ _ Hse) E) as Hc.
  pose proof (slen_lines_small g Hc Hsm) as Hl. pose proof (small_count g Hsm) as Hn.
  destruct (tmin_range g Hne Hc) as [Hlo Hhi]. unfold maxTokenSize in Hl.
  assert (O : int64 (Z.of_nat (32 + slen (frames (take i gs))))
              = Z.of_nat (32 + slen (frames (take i gs)))) by (apply int64_id; width).
  unfold entry_ok, block_of; cbn [bm_FileOffset bm_CompLen bm_UncompLen bm_MinTS bm_MaxTS bm_RecordCount].
  rewrite O. split; [|done]. repeat split; try assumption; width.
Qed.

Lemma index_ok created gs : sealable created gs -> Forall entry_ok (blocks_at 32 gs).
Proof.
  intros Hse. apply Forall_lookup_2. intros i b Hb.
  assert (is_Some (gs !! i)) as [g E].
  { apply lookup_lt_is_Some. rewrite <- (length_blocks_at 32). by eapply lookup_lt_Some. }
  rewrite (blocks_at_lookup _ _ _ _ E) in Hb. injection Hb as <-.
  by apply (block_of_ok created gs i g).
Qed.

Lemma concat_nonempty created gs : sealable created gs -> List.concat gs <> [].
Proof.
  intros Hse. destruct gs as [|g gs]; [by destruct (se_nonempty _ _ Hse)|].
  pose proof (se_groups _ _ Hse) as Hg. apply Forall_cons in Hg as [[Hne _] _].
  by destruct g.
Qed.
Lemma concat_carried gs : Forall (Forall carried) gs -> Forall carried (List.concat gs).
Proof. induction 1; cbn; [done|]. by apply Forall_app. Qed.

Lemma footer_of_ok created gs : sealable created gs -> footer_ok (footer_of gs).
Proof.
  intros Hse. pose proof (se_size _ _ Hse) as Hsz. rewrite slen_layout in Hsz.
  pose proof (se_blocks _ _ Hse). pose proof (se_summary_len _ _ Hse).
  destruct (tmin_range _ (concat_nonempty _ _ Hse) (concat_carried _ (se_carried _ _ Hse))).
  pose proof (checksum_bound (index_of gs) (summary_comp gs)).
  unfold footer_ok, footer_of; cbn [ft_indexOffset ft_blockCount ft_summaryOffset
    ft_summaryLen ft_segMin ft_segMax ft_crc].
  split; [apply int64_range|]. split; [lia|]. split; [apply int64_range|].
  split; [lia|]. done.
Qed.

(** The reader of a written file. *)
Definition reader_of (created : Z) (gs : list (list LogRecord)) : Reader :=
  let file := layout created gs in
  mkReader file (Z.of_nat (slen file)) (blocks_at 32 gs)
    (summary_of (accum (List.concat gs))) (tmin (List.concat gs)) (tmax (List.concat gs)).

Lemma footer_bounds_ok created gs :
  sealable created gs ->
  footer_bounds_bad (footer_of gs) (Z.of_nat (List.length gs) * blockIndexEntrySize)
    (Z.of_nat (slen (layout created gs))) = false.
Proof.
  intros Hse. pose proof (se_size _ _ Hse) as Hsz.
  rewrite slen_layout, slen_index_of in *. pose proof (se_blocks _ _ Hse).
  unfold footer_bounds_bad, headerSize, footerSize, blockIndexEntrySize, footer_of.
  cbn [ft_indexOffset ft_summaryOffset ft_summaryLen]. rewrite slen_index_of.
  rewrite !(int64_id (Z.of_nat _)) by width. rewrite !int64_id by width.
  rewrite !orb_false_iff, !Z.ltb_ge. lia.
Qed.

Lemma Open_layout created gs :
  sealable created gs ->
  Open (layout created gs) (Z.of_nat (slen (layout created gs))) = Ok (reader_of created gs).
Proof.
  intros Hse. pose proof (footer_bounds_ok _ _ Hse) as Hb.
  pose proof (footer_of_ok _ _ Hse) as Hf. pose proof (slen_layout created gs) as Hlen.
  pose proof (se_size _ _ Hse) as Hsz. pose proof (slen_index_of gs) as Hidx.
  unfold Open, reader_of. set (file := layout created gs) in *.
  rewrite (proj2 (Z.ltb_ge _ _)) by (unfold headerSize, footerSize; lia).
  rewrite (ReadAt_at file (body created gs +:+ index_of gs +:+ summary_comp gs)
             (encode_footer (footer_of gs)) "");
    [|by unfold file, layout; rewrite str_app_nil_r, !str_app_assoc
     |by rewrite slen_encode_footer
     |rewrite Hlen, !slen_app, slen_body; unfold footerSize; lia].
  cbn [mbind result_bind]. rewrite footer_magic, String.eqb_refl. cbn [negb].
  rewrite decode_encode_footer by done. cbn zeta.
  change (ft_blockCount (footer_of gs)) with (Z.of_nat (List.length gs)). rewrite Hb.
  rewrite (ReadAt_at file (body created gs) (index_of gs)
             (summary_comp gs +:+ encode_footer (footer_of gs))
             (Z.of_nat (List.length gs) * blockIndexEntrySize));
    [|done|rewrite Hidx; unfold blockIndexEntrySize; lia
     |rewrite slen_body; cbn; apply int64_id; width].
  cbn [mbind result_bind].
  rewrite (ReadAt_at file (body created gs +:+ index_of gs) (summary_comp gs)
             (encode_footer (footer_of gs)));
    [|by unfold file, layout; rewrite !str_app_assoc|done
     |rewrite slen_app, slen_body; cbn; apply int64_id; width].
  cbn [mbind result_bind]. rewrite Z.eqb_refl. cbn [negb].
  unfold summary_comp at 1. rewrite DecodeAll_EncodeAll, Unmarshal_MarshalSummary by apply Hse.
  rewrite Nat2Z.id, <- (length_blocks_at 32), <- (str_app_nil_r (index_of gs)).
  unfold index_of. by rewrite decode_encode_index by by eapply index_ok.
Qed.

(** Reading block [i] of a written file hands its group's records, in order, to the
    callback, until the callback fails. *)
Lemma ReadBlock_layout {S} (fn : LogRecord -> stM S seg_error unit) created gs i g s :
  sealable created gs -> gs !! i = Some g ->
  ReadBlock (reader_of created gs) (Z.of_nat i) fn s = for_st fn g s.
Proof.
  intros Hse E. destruct (block_of_ok _ _ _ _ Hse E) as [_ Hoff].
  pose proof (Forall_lookup_1 _ _ _ _ (se_carried _ _ Hse) E) as Hc.
  unfold ReadBlock. rewrite (proj2 (Z.ltb_ge _ _)) by lia.
  cbn [reader_of rd_blocks rd_r]. rewrite Nat2Z.id, (blocks_at_lookup _ _ _ _ E), Hoff.
  cbn [block_of bm_CompLen]. rewrite (proj2 (Z.ltb_ge _ _)) by lia.
  rewrite (ReadAt_at _ (header created +:+ frames (take i gs)) (frame g)
    (frames (drop (Datatypes.S i) gs) +:+ index_of gs +:+ summary_comp gs
       +:+ encode_footer (footer_of gs))).
  - unfold lift_st, mbind, stM_bind. unfold frame. rewrite DecodeAll_EncodeAll.
    by rewrite raw_lines_of, scan_lines_of.
  - unfold layout, body. by rewrite (frames_split gs i g E), !str_app_assoc.
  - done.
  - rewrite slen_app, slen_header. lia.
Qed.

(** ** Reading a whole segment *)

Definition collect (r : LogRecord) : stM (list LogRecord) seg_error unit :=
  modify_st (fun acc => acc ++ [r]).
Definition read_all (rd : Reader) : stM (list LogRecord) seg_error unit :=
  for_st (fun i => ReadBlock rd (Z.of_nat i) collect) (seq 0 (List.length (Blocks rd))).

Lemma for_st_collect g acc : for_st collect g acc = (acc ++ g, Ok tt).
Proof.
  revert acc; induction g as [|r g IH]; intros acc; cbn; [by rewrite app_nil_r|].
  unfold mbind, stM_bind. cbn. by rewrite IH, <- app_assoc.
Qed.

Lemma read_blocks_layout created gs n i acc :
  sealable created gs -> (i + n = List.length gs)%nat ->
  for_st (fun i => ReadBlock (reader_of created gs) (Z.of_nat i) collect) (seq i n) acc
  = (acc ++ List.concat (drop i gs), Ok tt).
Proof.
  intros Hse. revert i acc. induction n as [|n IH]; intros i acc Hi; cbn.
  - rewrite drop_ge by lia. by rewrite app_nil_r.
  - assert (is_Some (gs !! i)) as [g E] by (apply lookup_lt_is_Some; lia).
    erewrite bind_step; [|by rewrite (ReadBlock_layout _ _ _ _ _ _ Hse E), for_st_collect].
    rewrite IH by lia. by rewrite (drop_S _ _ _ E), <- app_assoc.
Qed.

Lemma count_blocks gs off :
  Z.of_nat (List.length (List.concat gs)) < 2 ^ 62 ->
  foldl (fun n b => int64 (n + bm_RecordCount b)) 0 (blocks_at off gs)
  = Z.of_nat (List.length (List.concat gs)).
Proof.
  change (foldl (fun n b => int64 (n + bm_RecordCount b)) 0 (blocks_at off gs))
    with (foldl (fun n b => int64 (n + bm_RecordCount b)) (Z.of_nat 0) (blocks_at off gs)).
  change (List.length (List.concat gs)) with (0 + List.length (List.concat gs))%nat.
  generalize 0%nat as m. revert off. induction gs as [|g gs IH]; intros off m Hm; cbn in *.
  - lia.
  - rewrite length_app in *. rewrite Nat.add_assoc in *. rewrite <- (IH (off + slen (frame g))%nat _ Hm).
    f_equal. rewrite <- Nat2Z.inj_add. apply int64_id. width.
Qed.

Lemma read_all_layout created rs :
  sealable created (groups rs) -> read_all (reader_of created (groups rs)) [] = (rs, Ok tt).
Proof.
  intros Hse. unfold read_all, Blocks. cbn [rd_blocks reader_of]. rewrite length_blocks_at.
  rewrite (read_blocks_layout _ _ _ 0 [] Hse) by done. by rewrite drop_0, (proj1 (groups_spec rs)).
Qed.
Lemma sealable_marshals created rs :
  sealable created (groups rs) -> Forall (fun r => is_Some (MarshalRecord r)) rs.
Proof.
  intros Hse. rewrite <- (proj1 (groups_spec rs)).
  eapply Forall_impl; [apply concat_carried, Hse|]. by intros r (_ & ? & _).
Qed.

(** [Meta] recovers all of the writer's metadata but the late flag and the source
    offsets, which the file does not hold. *)
Definition forget (m : SegmentMeta) : SegmentMeta :=
  mkSegmentMeta (sm_ID m) (sm_S3Key m) (sm_MinTS m) (sm_MaxTS m) (sm_Namespaces m)
    (sm_Pods m) (sm_Nodes m) (sm_Containers m) (sm_LabelKeys m) (sm_FieldKeys m)
    (sm_Blocks m) (sm_SizeBytes m) (sm_RecordCount m) false ∅ (sm_LocalPath m).

Lemma Meta_layout created gs :
  sealable created gs -> Z.of_nat (List.length (List.concat gs)) < 2 ^ 62 ->
  Meta (reader_of created gs) = forget (meta_for created gs).
Proof.
  intros Hse Hn. unfold Meta, forget, meta_for, reader_of.
  cbn [rd_blocks rd_summary rd_segMin rd_segMax rd_size sm_ID sm_S3Key sm_MinTS sm_MaxTS
    sm_Namespaces sm_Pods sm_Nodes sm_Containers sm_LabelKeys sm_FieldKeys sm_Blocks
    sm_SizeBytes sm_RecordCount sm_LocalPath].
  rewrite count_blocks by done. rewrite int64_id; [done|].
  pose proof (se_size _ _ Hse). width.
Qed.

(** C11: writing a segment and reading it back is the identity.  For records that
    JSON represents, within the bounds of the format, the writer produces a file that
    [Open] accepts; reading its blocks in order yields the appended records in
    order; and the metadata read from the file is the metadata the writer returned,
    less the late flag and the source offsets, which the file does not hold. *)
Theorem segment_roundtrip created rs :
  sealable created (groups rs) -> Z.of_nat (List.length rs) < 2 ^ 62 ->
  exists sw0 sw meta rd,
    NewWriter (mkSink "" None) created = (sw0, Ok tt) /\
    write_all rs sw0 = (sw, Ok meta) /\
    Open (sk_data (sw_w sw)) (sm_SizeBytes meta) = Ok rd /\
    read_all rd [] = (rs, Ok tt) /\ Meta rd = forget meta.
Proof.
  intros Hse Hn. destruct (groups_spec rs) as [Ec _].
  destruct (write_layout created rs) as (sw0 & sw & E0 & E1 & E2);
    [by eapply sealable_marshals|done|].
  exists sw0, sw, (meta_for created (groups rs)), (reader_of created (groups rs)).
  split; [done|]. split; [done|]. split.
  - rewrite E2. cbn [sm_SizeBytes meta_for]. rewrite int64_id by (pose proof (se_size _ _ Hse); width).
    by apply Open_layout.
  - split; [by apply read_all_layout|apply Meta_layout; by rewrite ?Ec].
Qed.

(** Block pruning is sound.  The time range in the index of each block of a
    written file contains the timestamps of all the records of the block. *)
Theorem block_range_sound created rs i b r :
  sealable created (groups rs) ->
  Blocks (reader_of created (groups rs)) !! i = Some b ->
  r ∈ fst (ReadBlock (reader_of created (groups rs)) (Z.of_nat i) collect []) ->
  bm_MinTS b <= rec_Timestamp r <= bm_MaxTS b.
Proof.
  intros Hse Hb Hr. unfold Blocks in Hb; cbn [rd_blocks reader_of] in Hb.
  assert (is_Some (groups rs !! i)) as [g E].
  { apply lookup_lt_is_Some. rewrite <- (length_blocks_at 32). by eapply lookup_lt_Some. }
  rewrite (blocks_at_lookup _ _ _ _ E) in Hb. injection Hb as <-.
  rewrite (ReadBlock_layout _ _ _ _ _ _ Hse E), for_st_collect in Hr.
  split; [by apply tmin_le|by apply tmax_ge].
Qed.

(** A file whose last eight bytes are not the end magic, or too short to hold a
    header and a footer, is reported unsealed, whatever else it holds: a crash before
    the footer is complete is always detected. *)
Theorem unsealed_detected data :
  Z.of_nat (slen data) < headerSize + footerSize \/
  sdrop (slen data - 8) data <> magicFoot ->
  Open data (Z.of_nat (slen data)) = Err ErrUnsealed.
Proof.
  intros Hd. unfold Open. destruct (Z.ltb_spec (Z.of_nat (slen data)) (headerSize + footerSize)) as [|L];
    [done|]. destruct Hd as [?|Hd]; [lia|]. unfold headerSize, footerSize in *.
  set (n := (slen data - 64)%nat).
  rewrite (ReadAt_at data (stake n data) (sdrop n data) ""); cycle 1.
  - by rewrite str_app_nil_r, stake_sdrop.
  - rewrite slen_sdrop. lia.
  - rewrite slen_stake. lia.
  - cbn [mbind result_bind]. rewrite sdrop_add.
    replace (n + 56)%nat with (slen data - 8)%nat by lia.
    by rewrite (proj2 (String.eqb_neq _ _) Hd).
Qed.

End Reader.
