(* ===== verification/SegToy.v ===== *)
(** A concrete stand-in for the zstd module, the identity, on which the segment theorems
    are evaluated together with the JSON forms of RecordJson; and texts that hold a
    number in binary digits, for the stand-in of the bbolt file in StoreToy. *)

From S2P Require Import Prelude GoStrings GoTime Model SegFormat SegWriter RecordJson SegLayout.
From S2P Require Import SegRefine SegReader.
From Stdlib Require Import Ascii String.
Local Open Scope string_scope.
Local Open Scope list_scope.
Local Open Scope Z_scope.

Fixpoint bits (p : positive) : string :=
  match p with
  | xH => "}"
  | xO p => String "0" (bits p)
  | xI p => String "1" (bits p)
  end.
Fixpoint unbits (s : string) : option positive :=
  match s with
  | EmptyString => None
  | String c s' =>
      if Ascii.eqb c "0" then xO <$> unbits s'
      else if Ascii.eqb c "1" then xI <$> unbits s'
      else Some xH
  end.

Lemma unbits_bits p : unbits (bits p) = Some p.
Proof. induction p as [p IH|p IH|]; cbn; by rewrite ?IH. Qed.
Lemma bits_line p : bits p <> "" /\ (NL ∉ bytes_of (bits p)) /\ (CR ∉ bytes_of (bits p)).
Proof.
  induction p as [p (_ & H1 & H2)|p (_ & H1 & H2)|]; cbn;
    (split; [done|split]); rewrite not_elem_of_cons; (split; [done|]); try done;
    apply not_elem_of_nil.
Qed.

Definition toy_zstd : Zstd :=
  {| EncodeAll s := s; DecodeAll s := Some s; DecodeAll_EncodeAll s := eq_refl |}.

Module Witness.

Definition rec (off ts : Z) (ns : string) : LogRecord :=
  mkRecord (mkSource "n" "/p" 1 2 3) off ts ns "web" "app" "n" "" "stdout" ∅ ∅ "m" ∅.
Definition rs : list LogRecord := [rec 10 5 "a"; rec 20 7 "b"].
Local Existing Instance toy_zstd.
Local Existing Instance go_json.

Lemma rs_groups : groups rs = [rs].
Proof. vm_compute. reflexivity. Qed.
Lemma rs_carried : Forall carried rs.
Proof.
  repeat constructor; try (eexists; reflexivity); apply (bool_decide_unpack _);
    vm_compute; exact I.
Qed.
Lemma rs_sealable : sealable 9 (groups rs).
Proof.
  split.
  - rewrite rs_groups. constructor; [apply rs_carried|constructor].
  - apply groups_spec.
  - rewrite rs_groups. done.
  - vm_compute. reflexivity.
  - vm_compute. reflexivity.
  - vm_compute. reflexivity.
  - vm_compute. reflexivity.
Qed.

Lemma write_refines_layout_witness :
  exists sw0 sw, NewWriter (mkSink "" None) 9 = (sw0, Ok tt) /\
    write_all rs sw0 = (sw, Ok (meta_for 9 (groups rs))) /\
    sk_data (sw_w sw) = layout 9 (groups rs).
Proof.
  apply (write_refines_layout 9 rs); [repeat constructor; by eexists|vm_compute; reflexivity].
Defined.

Lemma segment_roundtrip_witness :
  exists sw0 sw meta rd,
    NewWriter (mkSink "" None) 9 = (sw0, Ok tt) /\
    write_all rs sw0 = (sw, Ok meta) /\
    Open (sk_data (sw_w sw)) (sm_SizeBytes meta) = Ok rd /\
    read_all rd [] = (rs, Ok tt) /\ Meta rd = forget meta.
Proof. apply (segment_roundtrip 9 rs); [apply rs_sealable|vm_compute; reflexivity]. Defined.

Lemma block_range_sound_witness :
  let b := block_of 32 rs in bm_MinTS b <= 7 <= bm_MaxTS b.
Proof.
  apply (block_range_sound 9 rs 0 _ (rec 20 7 "b")).
  - apply rs_sealable.
  - vm_compute. reflexivity.
  - rewrite ReadBlock_layout with (g := rs); [|apply rs_sealable|reflexivity].
    right. left.
Defined.

Lemma unsealed_detected_witness : Open "SLOGSEG1" 8 = Err ErrUnsealed.
Proof. apply (unsealed_detected "SLOGSEG1"). left. reflexivity. Defined.

End Witness.
