(* ===== verification/SegTorn.v ===== *)
(** Torn segment files: the writer on a destination that fills up.  Every operation of
    SegWriter.v writes the same bytes it would write to an unbounded destination, up to
    the point where the destination is full, and then fails. *)

From S2P Require Import Prelude GoStrings GoTime Model SegFormat SegWriter SegLayout.
From S2P Require Import SegRefine RecordJson SegToy.
From Stdlib Require Import Ascii String.
Local Open Scope string_scope.
Local Open Scope list_scope.
Local Open Scope Z_scope.

Lemma stake_le n s t : (n <= slen s)%nat -> stake n (s +:+ t) = stake n s.
Proof.
  unfold slen. revert s; induction n as [|n IH]; intros [|c s] Hn; cbn in *; [by destruct t|done|lia|].
  f_equal. apply IH. lia.
Qed.
Lemma stake_ge n s : (slen s <= n)%nat -> stake n s = s.
Proof.
  unfold slen. revert n; induction s as [|c s IH]; intros [|n] Hn; cbn in *; try done; [lia|].
  f_equal. apply IH. lia.
Qed.
Lemma stake_app_r d b k : stake (slen d + k) (d +:+ b) = d +:+ stake k b.
Proof. induction d as [|c d IH]; [done|]. rewrite slen_cons, !str_app_cons. cbn. by rewrite IH. Qed.

Definition set_sink (w : Sink) (sw : Writer) : Writer :=
  mkWriter w (sw_blockTarget sw) (sw_pos sw) (sw_cur sw) (sw_blocks sw) (sw_acc sw)
    (sw_span sw) (sw_finished sw).

(** The writer [sw], its destination limited to [c] bytes in all. *)
Definition cap (c : nat) (sw : Writer) : Writer :=
  let d := sk_data (sw_w sw) in set_sink (mkSink d (Some (c - slen d)%nat)) sw.

(** [f] tears cleanly: run on an unbounded destination holding [d] it adds some [b];
    limited to [c] bytes it does the same if [b] fits, and otherwise fails with the
    first [c] bytes written. *)
Definition tears {A} (f : stM Writer seg_error A) : Prop :=
  forall sw d, sw_w sw = mkSink d None -> exists sw' b r,
    f sw = (sw', r) /\ sw_w sw' = mkSink (d +:+ b) None /\
    forall c, (slen d <= c)%nat ->
      ((slen (d +:+ b) <= c)%nat /\ f (cap c sw) = (cap c sw', r)) \/
      ((c < slen (d +:+ b))%nat /\ exists sw2, f (cap c sw) = (sw2, Err ErrWrite) /\
         sk_data (sw_w sw2) = stake c (d +:+ b)).

(** [f] does not look at the destination. *)
Definition blind {B} (f : Writer -> B) : Prop := forall w sw, f (set_sink w sw) = f sw.

Section Torn.
Context `{Zstd, JsonCodec}.

Lemma cap_full c sw d : sw_w sw = mkSink d None -> sw_w (cap c sw) = mkSink d (Some (c - slen d)%nat).
Proof. intros E. unfold cap. by rewrite E. Qed.

(** A step that leaves the destination alone. *)
Lemma tears_pure {A} (g : Writer -> Writer) (r : Writer -> result seg_error A) :
  (forall w sw, g (set_sink w sw) = set_sink w (g sw)) -> (forall sw, sw_w (g sw) = sw_w sw) ->
  blind r -> tears (fun sw => (g sw, r sw)).
Proof.
  intros Hg Hw Hr sw d E. exists (g sw), "", (r sw). rewrite str_app_nil_r, Hw.
  split; [done|split; [done|]]. intros c Hc. left. split; [done|].
  unfold cap. by rewrite Hg, Hr, Hw.
Qed.
Lemma tears_ret {A} (a : A) : tears (mret a).
Proof. by apply (tears_pure (fun sw => sw) (fun _ => Ok a)). Qed.
Lemma tears_fail {A} e : tears (fail_st (A := A) e).
Proof. by apply (tears_pure (fun sw => sw) (fun _ => Err e)). Qed.
Lemma tears_modify g :
  (forall w sw, g (set_sink w sw) = set_sink w (g sw)) -> (forall sw, sw_w (g sw) = sw_w sw) ->
  tears (modify_st g).
Proof. intros Hg Hw. by apply (tears_pure g (fun _ => Ok tt)). Qed.

Lemma tears_emit b : tears (emit b).
Proof.
  intros sw d E. unfold emit, sink_write. rewrite E; cbn.
  eexists _, b, (Ok tt). split; [done|]. split; [done|]. intros c Hc. rewrite slen_app.
  destruct (Nat.leb_spec (slen b) (c - slen d)) as [Hle|Hgt].
  - left. split; [lia|]. unfold cap; cbn. rewrite E; cbn. rewrite (proj2 (Nat.leb_le _ _) Hle).
    rewrite slen_app. unfold set_sink; cbn. do 4 f_equal. lia.
  - right. split; [lia|]. unfold cap; cbn. rewrite E; cbn. rewrite (proj2 (Nat.leb_gt _ _) Hgt).
    eexists; split; [done|]. cbn. replace c with (slen d + (c - slen d))%nat at 2 by lia.
    by rewrite stake_app_r.
Qed.

Lemma tears_bind {A B} (f : stM Writer seg_error A) (k : A -> stM Writer seg_error B) :
  tears f -> (forall a, tears (k a)) -> tears (f ≫= k).
Proof.
  intros Hf Hk sw d E. destruct (Hf sw d E) as (sw1 & b1 & r1 & E1 & W1 & C1).
  destruct r1 as [a|e].
  - destruct (Hk a sw1 _ W1) as (sw2 & b2 & r2 & E2 & W2 & C2). exists sw2, (b1 +:+ b2), r2.
    rewrite (bind_step _ _ _ _ _ E1), <- str_app_assoc. split; [done|split; [done|]].
    intros c Hc. destruct (C1 c Hc) as [[L1 F1]|[L1 (sw3 & F1 & D1)]].
    + rewrite (bind_step _ _ _ _ _ F1). by apply C2.
    + right. rewrite slen_app. split; [lia|]. exists sw3. rewrite (bind_fail _ _ _ _ _ F1).
      split; [done|]. rewrite D1. symmetry. apply stake_le. lia.
  - exists sw1, b1, (Err e). rewrite (bind_fail _ _ _ _ _ E1). split; [done|split; [done|]].
    intros c Hc. destruct (C1 c Hc) as [[L1 F1]|[L1 (sw3 & F1 & D1)]]; [left|right].
    + by rewrite (bind_fail _ _ _ _ _ F1).
    + split; [done|]. exists sw3. by rewrite (bind_fail _ _ _ _ _ F1).
Qed.

(** A computation chosen by looking at the writer, but not at its destination. *)
Lemma tears_read {A} (k : Writer -> stM Writer seg_error A) :
  blind k -> (forall sw, tears (k sw)) -> tears (fun sw => k sw sw).
Proof.
  intros Hb Hk sw d E. destruct (Hk sw sw d E) as (sw' & b & r & E1 & W1 & C1).
  exists sw', b, r. split; [done|split; [done|]]. intros c Hc. specialize (C1 c Hc).
  unfold cap in C1 at 1 3 |- *. by rewrite Hb.
Qed.
Lemma tears_ext {A} (f g : stM Writer seg_error A) :
  (forall sw, f sw = g sw) -> tears f -> tears g.
Proof.
  intros Hfg Hf sw d E. destruct (Hf sw d E) as (sw' & b & r & E1 & W1 & C1). exists sw', b, r.
  rewrite <- Hfg. split; [done|split; [done|]]. intros c Hc. rewrite <- Hfg. by apply C1.
Qed.
Lemma tears_get {A} (k : Writer -> stM Writer seg_error A) :
  blind k -> (forall sw, tears (k sw)) -> tears (get_st ≫= k).
Proof. apply tears_read. Qed.
Lemma tears_for {X} (f : X -> stM Writer seg_error unit) l :
  (forall x, tears (f x)) -> tears (for_st f l).
Proof. intros Hf. induction l as [|x l IH]; cbn; [apply tears_ret|apply tears_bind; auto]. Qed.

Create HintDb tears discriminated.
Hint Resolve tears_ret tears_fail tears_emit tears_for : tears.
Ltac tears := repeat match goal with
  | |- tears (get_st ≫= _) => apply tears_get; [done|intros ?]
  | |- tears (_ ≫= _) => apply tears_bind; [|intros ?]
  | |- tears (modify_st _) => apply tears_modify; done
  | |- tears (if ?b then _ else _) => destruct b
  | |- tears _ => solve [auto with tears]
  end.

(** [flushBlock] with the writer it looks at made explicit. *)
Definition flush_of (sw : Writer) : stM Writer seg_error unit :=
  let c := sw_cur sw in
  if cb_count c =? 0 then mret tt else
  let comp := EncodeAll (cb_lines c) in
  let bm := mkBlockMeta (sw_pos sw) (Z.of_nat (slen comp)) (Z.of_nat (slen (cb_lines c)))
              (cb_min c) (cb_max c) (cb_count c) in
  emit comp ;;
  modify_st (fun sw =>
    mkWriter (sw_w sw) (sw_blockTarget sw) (sw_pos sw)
      (mkCur "" 0 (cb_min c) (cb_max c) zeroTime)
      (sw_blocks sw ++ [bm]) (sw_acc sw) (sw_span sw) (sw_finished sw)).
Lemma flush_of_spec sw : flushBlock sw = flush_of sw sw.
Proof. unfold flushBlock, flush_of. by destruct (_ =? _). Qed.
Lemma tears_flush : tears flushBlock.
Proof.
  apply (tears_ext (fun sw => flush_of sw sw)); [intros sw; by rewrite flush_of_spec|].
  apply (tears_read flush_of); [done|]. intros sw. unfold flush_of. tears.
Qed.
Hint Resolve tears_flush : tears.
Lemma tears_Append r : tears (Append r).
Proof. unfold Append. destruct (MarshalRecord r); tears. Qed.
Hint Resolve tears_Append : tears.
Lemma tears_Finish : tears Finish.
Proof. unfold Finish, writeFooter. tears. Qed.
Hint Resolve tears_Finish : tears.

(** A whole session: header, records, footer. *)
Definition session (created : Z) (rs : list LogRecord) (w : Sink) : Sink * result seg_error SegmentMeta :=
  match NewWriter w created with
  | (sw, Ok _) => let '(sw, r) := write_all rs sw in (sw_w sw, r)
  | (sw, Err e) => (sw_w sw, Err e)
  end.

Lemma session_capped created rs c :
  Forall (fun r => is_Some (MarshalRecord r)) rs -> Z.of_nat (List.length rs) < 2 ^ 62 ->
  let file := layout created (groups rs) in
  exists w, session created rs (mkSink "" (Some c)) =
    (w, if (slen file <=? c)%nat then Ok (meta_for created (groups rs)) else Err ErrWrite) /\
    sk_data w = stake c file.
Proof.
  intros Hrs Hn file. destruct (write_layout created rs Hrs Hn) as (sw0 & sw & E0 & E1 & E2).
  set (init w := mkWriter w defaultBlockTargetBytes 0 (mkCur "" 0 zeroTime zeroTime zeroTime) []
       emptyAccum (mkSpan zeroTime zeroTime 0 false) false).
  assert (Ht : tears (writeHeader created ;; write_all rs)) by (unfold writeHeader, write_all; tears).
  destruct (Ht (init (mkSink "" None)) "" eq_refl) as (sw' & b & r & E & W' & C).
  change (writeHeader created (init (mkSink "" None)) = (sw0, Ok tt)) in E0.
  rewrite (bind_step _ _ _ _ _ E0), E1 in E. injection E as <- <-.
  assert (Eb : "" +:+ b = file) by (unfold file; rewrite <- E2, W'; done).
  rewrite Eb in C, W'. specialize (C c (Nat.le_0_l _)).
  change (cap c (init (mkSink "" None))) with (init (mkSink "" (Some (c - 0)%nat))) in C.
  rewrite Nat.sub_0_r in C. unfold session.
  change (NewWriter (mkSink "" (Some c)) created) with (writeHeader created (init (mkSink "" (Some c)))).
  unfold mbind, stM_bind in C. destruct (writeHeader created (init (mkSink "" (Some c)))) as [s1 [[]|e]].
  - destruct (write_all rs s1) as [s2 r2]. exists (sw_w s2).
    destruct C as [[L [= -> ->]]|[L (s3 & [= -> ->] & D)]].
    + rewrite (proj2 (Nat.leb_le _ _) L). split; [done|]. unfold cap; cbn. rewrite W'. cbn.
      by rewrite stake_ge.
    + by rewrite (proj2 (Nat.leb_gt _ _) L).
  - exists (sw_w s1). destruct C as [[L [=]]|[L (s3 & [= -> ->] & D)]].
    by rewrite (proj2 (Nat.leb_gt _ _) L).
Qed.

(** C26: a full disk never yields a bad segment.  Sealing records to a destination that
    accepts [c] bytes succeeds exactly when the whole file fits, with the same file and
    metadata as on an unbounded one; otherwise the write error is reported, and what
    was written is the first [c] bytes of the file. *)
Theorem torn_write created rs c :
  Forall (fun r => is_Some (MarshalRecord r)) rs -> Z.of_nat (List.length rs) < 2 ^ 62 ->
  let file := layout created (groups rs) in
  exists w, session created rs (mkSink "" (Some c)) =
    (w, if (slen file <=? c)%nat then Ok (meta_for created (groups rs)) else Err ErrWrite) /\
    sk_data w = stake c file.
Proof. apply session_capped. Qed.

End Torn.

Module Witness.
Local Existing Instance toy_zstd.
Local Existing Instance go_json.

Lemma torn_write_witness :
  exists w, session 9 SegToy.Witness.rs (mkSink "" (Some 40%nat)) = (w, Err ErrWrite) /\
    sk_data w = stake 40 (layout 9 (groups SegToy.Witness.rs)).
Proof.
  destruct (torn_write 9 SegToy.Witness.rs 40) as (w & E & D).
  - repeat constructor; by eexists.
  - vm_compute. reflexivity.
  - exists w. split; [|exact D]. rewrite E.
    assert (B : (slen (layout 9 (groups SegToy.Witness.rs)) <=? 40)%nat = false)
      by (vm_compute; reflexivity).
    by rewrite B.
Defined.
End Witness.
