(* ===== verification/Merge.v ===== *)
(** The specification of the planner's k-way merge: repeatedly take the first best
    head of several lists.  Its output is a permutation of the lists' elements, and
    is sorted when each list is. *)

From S2P Require Import Prelude GoStrings GoTime Model.
From Stdlib Require Import Sorted.
Local Open Scope Z_scope.

(** [a] may come before [b] in the output order. *)
Definition ordered (desc : bool) (a b : LogRecord) : Prop :=
  if desc then rec_Timestamp b <= rec_Timestamp a else rec_Timestamp a <= rec_Timestamp b.
#[export] Instance ordered_dec desc a b : Decision (ordered desc a b).
Proof. unfold ordered. destruct desc; apply _. Defined.
#[export] Instance ordered_trans desc : Transitive (ordered desc).
Proof. destruct desc; intros a b c; unfold ordered; lia. Qed.

(** [h] displaces the current best head [bh]. *)
Definition better (desc : bool) (h bh : LogRecord) : bool :=
  if desc then After (rec_Timestamp h) (rec_Timestamp bh)
  else Before (rec_Timestamp h) (rec_Timestamp bh).

Definition choose (desc : bool) (i : nat) (h : option LogRecord)
    (best : option (nat * LogRecord)) : option (nat * LogRecord) :=
  match h with
  | None => best
  | Some r =>
      match best with
      | None => Some (i, r)
      | Some (_, bh) => if better desc r bh then Some (i, r) else best
      end
  end.

Fixpoint select (desc : bool) (i : nat) (ls : list (list LogRecord))
    (best : option (nat * LogRecord)) : option (nat * LogRecord) :=
  match ls with
  | [] => best
  | l :: ls' => select desc (S i) ls' (choose desc i (head l) best)
  end.

Fixpoint merge (fuel : nat) (desc : bool) (ls : list (list LogRecord)) : list LogRecord :=
  match fuel with
  | O => []
  | S fuel' =>
      match select desc 0 ls None with
      | None => []
      | Some (i, r) => r :: merge fuel' desc (alter tail i ls)
      end
  end.

Definition total (ls : list (list LogRecord)) : nat := List.length (List.concat ls).

(** ** Selection *)

Lemma better_ordered desc a b :
  (better desc a b = true -> ordered desc a b) /\ (better desc a b = false -> ordered desc b a).
Proof. unfold better, ordered. destruct desc; times; lia. Qed.

Definition dominates (desc : bool) (r : LogRecord) (l : list LogRecord) : Prop :=
  forall h, head l = Some h -> ordered desc r h.

(** What [select] returns: a head, or the incoming best, that no head precedes. *)
Lemma select_some desc i ls best j r :
  select desc i ls best = Some (j, r) ->
  (best = Some (j, r) \/ exists k t, j = (i + k)%nat /\ ls !! k = Some (r :: t)) /\
  Forall (dominates desc r) ls /\
  (forall j' b, best = Some (j', b) -> ordered desc r b).
Proof.
  revert i best; induction ls as [|l ls IH]; intros i best E; cbn in E.
  - subst. split; [by left|]. split; [constructor|]. intros j' b [= -> ->].
    unfold ordered; destruct desc; lia.
  - apply IH in E as (Hfrom & Hdom & Hbest). destruct l as [|h t]; cbn in *.
    + split; [|split; [constructor; [by intros ?|done]|done]].
      destruct Hfrom as [?|(k & t & -> & E)]; [by left|right].
      exists (S k), t. split; [lia|done].
    + assert (Hh : ordered desc r h).
      { destruct best as [[j' b]|]; [|by eapply Hbest].
        destruct (better desc h b) eqn:B; [by eapply Hbest|].
        apply better_ordered in B. etrans; [by eapply Hbest|done]. }
      split; [|split; [constructor; [by intros ? [= <-]|done]|]].
      * destruct Hfrom as [Hb|(k & t' & -> & E)];
          [|right; exists (S k), t'; split; [lia|done]].
        destruct best as [[j' b]|]; [destruct (better desc h b)|];
          simplify_eq; [right; exists 0%nat, t|by left|right; exists 0%nat, t];
          split; (done || lia).
      * intros j' b ->. destruct (better desc h b) eqn:B; [|by eapply Hbest].
        apply better_ordered in B. etrans; [by eapply Hbest|done].
Qed.

Lemma select_none desc i ls best :
  select desc i ls best = None <-> best = None /\ Forall (fun l => l = []) ls.
Proof.
  revert i best; induction ls as [|l ls IH]; intros i best; cbn.
  - split; [intros ->; by split|by intros [-> _]].
  - rewrite IH, Forall_cons. destruct l as [|h t]; cbn; [tauto|].
    split; [|by intros (_ & ? & _)]. destruct best as [[j b]|]; [destruct (better desc h b)|];
      by intros [? _].
Qed.

Lemma select_head desc ls i r :
  select desc 0 ls None = Some (i, r) ->
  (exists t, ls !! i = Some (r :: t)) /\ Forall (dominates desc r) ls.
Proof.
  intros E. apply select_some in E as ([?|(k & t & -> & E)] & Hd & _); [done|].
  split; [|done]. by exists t.
Qed.

Lemma alter_split {A} (f : A -> A) l i x :
  l !! i = Some x ->
  l = take i l ++ x :: drop (S i) l /\ alter f i l = take i l ++ f x :: drop (S i) l.
Proof.
  revert i; induction l as [|y l IH]; intros [|i] E; try done; cbn in *.
  - by injection E as ->.
  - destruct (IH _ E) as [H1 H2]. split; f_equal; [exact H1|exact H2].
Qed.

(** Taking the head of list [i] removes one element of the whole. *)
Lemma concat_alter ls i r t :
  ls !! i = Some (r :: t) ->
  List.concat ls ≡ₚ r :: List.concat (alter (@tail LogRecord) i ls).
Proof.
  intros E. destruct (alter_split (@tail LogRecord) ls i _ E) as [E1 E2].
  rewrite E2. rewrite E1 at 1. rewrite !List.concat_app. cbn.
  symmetry. apply Permutation_middle.
Qed.
Lemma total_alter ls i r t :
  ls !! i = Some (r :: t) -> total ls = S (total (alter tail i ls)).
Proof. intros E. unfold total. by rewrite (concat_alter _ _ _ _ E). Qed.

(** ** Permutation *)

Lemma merge_perm fuel desc ls :
  (total ls <= fuel)%nat -> merge fuel desc ls ≡ₚ List.concat ls.
Proof.
  revert ls; induction fuel as [|fuel IH]; intros ls Hf; cbn.
  - unfold total in Hf. by destruct (List.concat ls); [|cbn in Hf; lia].
  - destruct (select desc 0 ls None) as [[i r]|] eqn:E.
    + apply select_head in E as [[t E] _]. pose proof (total_alter _ _ _ _ E).
      rewrite IH by lia. by rewrite (concat_alter _ _ _ _ E).
    + apply select_none in E as [_ E]. induction E as [|l ls -> _ IHl]; [done|].
      apply IHl. done.
Qed.

(** ** Sortedness *)

Abbreviation sorted desc := (StronglySorted (ordered desc)).

Lemma sorted_alter_tail desc ls i :
  Forall (sorted desc) ls -> Forall (sorted desc) (alter tail i ls).
Proof.
  intros H. revert i; induction H as [|l ls Hl Hls IH]; intros [|i]; cbn; try done.
  - constructor; [|done]. destruct Hl; [constructor|done].
  - constructor; [done|apply IH].
Qed.

Lemma dominates_all desc r l :
  sorted desc l -> dominates desc r l -> Forall (ordered desc r) l.
Proof.
  intros Hs Hd. destruct l as [|h t]; [constructor|].
  specialize (Hd h eq_refl). apply StronglySorted_inv in Hs as [_ Ht].
  constructor; [done|]. eapply Forall_impl; [exact Ht|]. intros x Hx. by etrans.
Qed.

Lemma merge_sorted fuel desc ls :
  (total ls <= fuel)%nat -> Forall (sorted desc) ls -> sorted desc (merge fuel desc ls).
Proof.
  revert ls; induction fuel as [|fuel IH]; intros ls Hf Hs; cbn; [constructor|].
  destruct (select desc 0 ls None) as [[i r]|] eqn:E; [|constructor].
  apply select_head in E as [[t E] Hd]. pose proof (total_alter _ _ _ _ E).
  constructor; [apply IH; [lia|by apply sorted_alter_tail]|].
  assert (Hall : Forall (ordered desc r) (List.concat ls)).
  { apply Forall_concat. apply Forall_forall. intros l Hl.
    rewrite Forall_forall in Hs, Hd. apply dominates_all; auto. }
  rewrite (concat_alter _ _ _ _ E) in Hall. apply Forall_cons in Hall as [_ Hall].
  by rewrite merge_perm by lia.
Qed.

(** Empty lists contribute nothing. *)
Lemma concat_filter_nonempty {A} (ls : list (list A)) :
  List.concat (List.filter (fun l => negb (Nat.eqb (List.length l) 0)) ls) = List.concat ls.
Proof. induction ls as [|[|a l] ls IH]; cbn; [done|done|]. by rewrite IH. Qed.

Lemma filter_rev {A} (P : A -> bool) l : List.filter P (rev l) = rev (List.filter P l).
Proof.
  induction l as [|a l IH]; [done|]. cbn. rewrite List.filter_app, IH. cbn.
  destruct (P a); cbn; by rewrite ?app_nil_r.
Qed.
#[export] Instance filter_perm {A} (P : A -> bool) :
  Proper (Permutation ==> Permutation) (List.filter P).
Proof.
  intros l l' Hp. induction Hp; cbn; repeat case_match; eauto using Permutation.
Qed.

(** ** Sortedness of a filtered prefix *)

Lemma sorted_filter desc (P : LogRecord -> bool) l :
  sorted desc l -> sorted desc (List.filter P l).
Proof.
  induction 1 as [|a l Hl IH Ha]; cbn; [constructor|]. destruct (P a); [|done].
  constructor; [done|]. rewrite Forall_forall in *. intros x Hx.
  apply list_elem_of_In, filter_In in Hx as [Hx _]. apply Ha. by apply list_elem_of_In.
Qed.
Lemma sorted_rev l : sorted false l -> sorted true (rev l).
Proof.
  induction 1 as [|a l Hl IH Ha]; cbn; [constructor|].
  apply StronglySorted_app_2; [|done|repeat constructor].
  intros x y Hx Hy%list_elem_of_singleton. subst y. rewrite Forall_forall in Ha.
  apply (Ha x). by rewrite list_elem_of_In, in_rev, <- list_elem_of_In.
Qed.
Lemma sorted_take desc n l : sorted desc l -> sorted desc (take n l).
Proof.
  intros H. revert n; induction H as [|a l Hl IH Ha]; intros [|n]; cbn; try constructor.
  - apply IH.
  - by apply Forall_take.
Qed.
