(* ===== verification/Planner.v ===== *)
(** internal/query/iter.go and planner.go: the record cursors, and the executor that
    merges them. *)

From S2P Require Import Prelude GoStrings GoTime Model Value Ast Prune SegFormat.
From S2P Require Import SegWriter SegReader Merge.
Local Open Scope Z_scope.

Section Planner.
Context `{Zstd, JsonCodec, Regexp}.

(** ** Cursors *)

(** [query.sliceIter] *)
Record sliceIter := mkSliceIter { sl_recs : list LogRecord; sl_pos : Z; sl_desc : bool }.

(** [query.segIter] *)
Record segIter := mkSegIter {
  si_rd : Reader;
  si_blocks : list nat;
  si_bi : nat;
  si_buf : list LogRecord;
  si_pos : nat;
  si_desc : bool;
  si_start : Time;
  si_end : Time;
  si_err : option seg_error
}.

(** The two implementations of [recIter]. *)
Inductive recIter :=
| SliceIter (s : sliceIter)
| SegIter (s : segIter).

Definition slice_peek (s : sliceIter) : option LogRecord :=
  if (sl_pos s <? 0) || (Z.of_nat (length (sl_recs s)) <=? sl_pos s) then None
  else sl_recs s !! Z.to_nat (sl_pos s).
Definition slice_pop (s : sliceIter) : sliceIter :=
  mkSliceIter (sl_recs s) (if sl_desc s then sl_pos s - 1 else sl_pos s + 1) (sl_desc s).

(** The indices of the blocks that overlap the range. *)
Fixpoint overlapping_from (i : nat) (bs : list BlockMeta) (start end_ : Time) : list nat :=
  match bs with
  | [] => []
  | b :: bs' =>
      if BlockOverlaps b start end_ then i :: overlapping_from (S i) bs' start end_
      else overlapping_from (S i) bs' start end_
  end.

(** [newSegIter] *)
Definition newSegIter (rd : Reader) (start end_ : Time) (desc : bool) : segIter :=
  let blocks := overlapping_from 0 (Blocks rd) start end_ in
  mkSegIter rd (if desc then rev blocks else blocks) 0 [] 0 desc start end_ None.

(** [segIter.load]; the loop runs at most once per remaining block. *)
Fixpoint load_loop (fuel : nat) (s : segIter) : segIter :=
  match fuel with
  | O => s
  | S fuel' =>
      if (length (si_buf s) <=? si_pos s)%nat then
        match si_blocks s !! si_bi s with
        | None => s
        | Some idx =>
            match ReadBlock (si_rd s) (Z.of_nat idx) collect [] with
            | (_, Err e) =>
                mkSegIter (si_rd s) (si_blocks s) (S (si_bi s)) [] (si_pos s) (si_desc s)
                  (si_start s) (si_end s) (Some e)
            | (recs, Ok _) =>
                load_loop fuel'
                  (mkSegIter (si_rd s) (si_blocks s) (S (si_bi s))
                     (if si_desc s then rev recs else recs) 0 (si_desc s)
                     (si_start s) (si_end s) (si_err s))
            end
        end
      else s
  end.
Definition load (s : segIter) : segIter := load_loop (S (length (si_blocks s) - si_bi s)) s.

Definition seg_peek (s : segIter) : segIter * option LogRecord :=
  match si_err s with
  | Some _ => (s, None)
  | None => let s' := load s in (s', si_buf s' !! si_pos s')
  end.
Definition seg_pop (s : segIter) : segIter :=
  mkSegIter (si_rd s) (si_blocks s) (si_bi s) (si_buf s) (S (si_pos s)) (si_desc s)
    (si_start s) (si_end s) (si_err s).

(** The [recIter] methods. *)
Definition peek (it : recIter) : recIter * option LogRecord :=
  match it with
  | SliceIter s => (it, slice_peek s)
  | SegIter s => let '(s', r) := seg_peek s in (SegIter s', r)
  end.
Definition pop (it : recIter) : recIter :=
  match it with
  | SliceIter s => SliceIter (slice_pop s)
  | SegIter s => SegIter (seg_pop s)
  end.
Definition fail (it : recIter) : option seg_error :=
  match it with
  | SliceIter _ => None
  | SegIter s => si_err s
  end.

(** ** The executor *)

Inductive query_error (E : Type) :=
| StoreError (e : E)           (* Overlapping or Reader failed *)
| ReadError (e : seg_error)    (* a cursor's deferred error *)
| EmitError (e : E)            (* emit returned an error *)
| MatchPanic                   (* a comparison without its compiled expression *)
| OutOfFuel.
Arguments StoreError {E} e.
Arguments ReadError {E} e.
Arguments EmitError {E} e.
Arguments MatchPanic {E}.
Arguments OutOfFuel {E}.

(** [query.SegmentStore].  Closing a reader's file has no effect on the query. *)
Record SegmentStore (E : Type) := {
  Overlapping : Time -> Time -> result E (list SegmentMeta);
  OpenReader : SegmentMeta -> result E Reader
}.
Arguments Overlapping {E} _ _ _.
Arguments OpenReader {E} _ _.

(** [query.Request]; a nil [Expr] is [None]. *)
Record Request := mkRequest {
  rq_Expr : option Node; rq_Start : Time; rq_End : Time; rq_Limit : Z; rq_Desc : bool
}.

(** [pickNext]: every cursor is peeked, in order; the result is the position of the
    best one and its head (the code keeps the cursor and peeks it again, which returns
    the same head). *)
Fixpoint pickNext_from (desc : bool) (i : nat) (iters : list recIter)
    (best : option (nat * LogRecord)) : list recIter * option (nat * LogRecord) :=
  match iters with
  | [] => ([], best)
  | it :: iters' =>
      let '(it', h) := peek it in
      let best' :=
        match h with
        | None => best
        | Some r =>
            match best with
            | None => Some (i, r)
            | Some (_, bh) =>
                if (if desc then After (rec_Timestamp r) (rec_Timestamp bh)
                    else Before (rec_Timestamp r) (rec_Timestamp bh))
                then Some (i, r) else best
            end
        end in
      let '(its, b) := pickNext_from desc (S i) iters' best' in
      (it' :: its, b)
  end.
Definition pickNext (iters : list recIter) (desc : bool) :=
  pickNext_from desc 0 iters None.

(** The merge loop of [Executor.Run]; it returns the cursors it leaves. *)
Fixpoint run_loop {S E} (fuel : nat) (rq : Request) (expr : Node)
    (emit : LogRecord -> stM S E unit) (iters : list recIter) (count : Z) :
    stM S (query_error E) (list recIter) :=
  match fuel with
  | O => fail_st OutOfFuel
  | Datatypes.S fuel' =>
      let '(iters, best) := pickNext iters (rq_Desc rq) in
      match best with
      | None => mret iters
      | Some (i, rec) =>
          let iters := alter pop i iters in
          if Before (rec_Timestamp rec) (rq_Start rq) && negb (IsZero (rq_Start rq))
          then run_loop fuel' rq expr emit iters count
          else if negb (IsZero (rq_End rq)) && After (rec_Timestamp rec) (rq_End rq)
          then run_loop fuel' rq expr emit iters count
          else match Match expr rec with
               | None => fail_st MatchPanic
               | Some false => run_loop fuel' rq expr emit iters count
               | Some true => fun s =>
                   match emit rec s with
                   | (s', Err e) => (s', Err (EmitError e))
                   | (s', Ok _) =>
                       let count := count + 1 in
                       if (0 <? rq_Limit rq) && (rq_Limit rq <=? count)
                       then (s', Ok iters)
                       else run_loop fuel' rq expr emit iters count s'
                   end
               end
      end
  end.

(** The loop that opens a cursor per segment the summary does not rule out. *)
Fixpoint open_segments {E} (st : SegmentStore E) (rq : Request) (expr : Node)
    (segs : list SegmentMeta) : result (query_error E) (list recIter) :=
  match segs with
  | [] => Ok []
  | m :: segs' =>
      if negb (segmentMatches m expr) then open_segments st rq expr segs' else
      match OpenReader st m with
      | Err e => Err (StoreError e)
      | Ok rd =>
          let '(it, h) := peek (SegIter (newSegIter rd (rq_Start rq) (rq_End rq) (rq_Desc rq))) in
          match open_segments st rq expr segs' with
          | Err e => Err e
          | Ok its => Ok (match h with None => its | Some _ => it :: its end)
          end
      end
  end.

(** The cursor over the open buffer, when it holds a record. *)
Definition open_iter (desc : bool) (opens : list LogRecord) : list recIter :=
  match opens with
  | [] => []
  | _ =>
      let si := SliceIter (mkSliceIter opens
                  (if desc then Z.of_nat (length opens) - 1 else 0) desc) in
      match peek si with
      | (si', Some _) => [si']
      | (_, None) => []
      end
  end.

(** The first deferred error of the cursors. *)
Fixpoint first_failure (iters : list recIter) : option seg_error :=
  match iters with
  | [] => None
  | it :: iters' => match fail it with Some e => Some e | None => first_failure iters' end
  end.

(** [Executor.Run]; [open_snap] is the snapshot the [Open] function returns. *)
Definition Run {S E} (fuel : nat) (st : SegmentStore E)
    (open_snap : option (Time -> Time -> list LogRecord)) (rq : Request)
    (emit : LogRecord -> stM S E unit) : stM S (query_error E) unit :=
  let expr := default matchAll (rq_Expr rq) in
  match Overlapping st (rq_Start rq) (rq_End rq) with
  | Err e => fail_st (StoreError e)
  | Ok segs =>
      iters ← lift_st (open_segments st rq expr segs);
      let opens := match open_snap with
                   | None => []
                   | Some f => open_iter (rq_Desc rq) (f (rq_Start rq) (rq_End rq))
                   end in
      left_ ← run_loop fuel rq expr emit (iters ++ opens) 0;
      match first_failure left_ with
      | Some e => fail_st (ReadError e)
      | None => mret tt
      end
  end.

End Planner.
Arguments StoreError {E} e.
Arguments ReadError {E} e.
Arguments EmitError {E} e.
Arguments MatchPanic {E}.
Arguments OutOfFuel {E}.
Arguments Overlapping {E} _ _ _.
Arguments OpenReader {E} _ _.

