(* ===== verification/PlannerOk.v ===== *)
(** The executor refines the merge of Merge.v: a query emits exactly the matching
    records of its sources, in order, up to the limit. *)

From S2P Require Import Prelude GoStrings GoTime Model Value Ast Prune SegFormat.
From S2P Require Import SegWriter SegLayout SegRefine SegReader RecordJson SegToy Merge Planner.
From Stdlib Require Import Sorted Btauto.
Local Open Scope Z_scope.

Section PlannerOk.
Context `{Zstd, JsonCodec, Regexp}.

(** ** What a cursor still has to yield *)

Definition slice_rest (s : sliceIter) : list LogRecord :=
  if sl_desc s then rev (take (Z.to_nat (sl_pos s + 1)) (sl_recs s))
  else drop (Z.to_nat (sl_pos s)) (sl_recs s).
Definition slice_ok (s : sliceIter) : Prop :=
  if sl_desc s then - 1 <= sl_pos s < Z.of_nat (length (sl_recs s)) else 0 <= sl_pos s.

(** The records of block [idx], in traversal order, when it can be read. *)
Definition block_recs (s : segIter) (idx : nat) : option (list LogRecord) :=
  match ReadBlock (si_rd s) (Z.of_nat idx) collect [] with
  | (recs, Ok _) => Some (if si_desc s then rev recs else recs)
  | (_, Err _) => None
  end.
Definition seg_readable (s : segIter) : Prop :=
  si_err s = None /\ Forall (fun idx => is_Some (block_recs s idx)) (si_blocks s).
Definition seg_rest (s : segIter) : list LogRecord :=
  drop (si_pos s) (si_buf s) ++
  List.concat ((fun idx => default [] (block_recs s idx)) <$> drop (si_bi s) (si_blocks s)).

Definition rest (it : recIter) : list LogRecord :=
  match it with SliceIter s => slice_rest s | SegIter s => seg_rest s end.
Definition iter_ok (it : recIter) : Prop :=
  match it with SliceIter s => slice_ok s | SegIter s => seg_readable s end.

(** ** Cursors yield their rest, head first *)

Lemma head_drop {A} n (l : list A) : head (drop n l) = l !! n.
Proof. revert n; induction l as [|a l IH]; intros [|n]; cbn; try done. Qed.
Lemma tail_drop {A} n (l : list A) : tail (drop n l) = drop (S n) l.
Proof. revert n; induction l as [|a l IH]; intros [|n]; cbn; done || apply IH. Qed.

Lemma slice_peek_head s : slice_ok s -> slice_peek s = head (slice_rest s).
Proof.
  unfold slice_ok, slice_peek, slice_rest. destruct (sl_desc s).
  - intros [Hlo Hhi]. destruct (Z.ltb_spec (sl_pos s) 0) as [L|L].
    + by replace (Z.to_nat (sl_pos s + 1)) with 0%nat by lia.
    + rewrite (proj2 (Z.leb_gt _ _)) by done. cbn [orb].
      replace (Z.to_nat (sl_pos s + 1)) with (S (Z.to_nat (sl_pos s))) by lia.
      destruct (sl_recs s !! Z.to_nat (sl_pos s)) as [r|] eqn:E.
      * by rewrite (take_S_r _ _ _ E), rev_app_distr.
      * apply lookup_ge_None in E. lia.
  - intros Hlo. rewrite (proj2 (Z.ltb_ge _ _)), head_drop by done. cbn [orb].
    destruct (Z.leb_spec (Z.of_nat (length (sl_recs s))) (sl_pos s)); [|done].
    symmetry. apply lookup_ge_None. lia.
Qed.

Lemma slice_pop_tail s :
  slice_ok s -> slice_rest s <> [] ->
  slice_ok (slice_pop s) /\ slice_rest (slice_pop s) = tail (slice_rest s).
Proof.
  unfold slice_ok, slice_rest, slice_pop; cbn [sl_desc sl_pos sl_recs].
  destruct (sl_desc s).
  - intros [Hlo Hhi] Hne. destruct (decide (sl_pos s = -1)) as [E|Hp].
    { by rewrite E in Hne. }
    split; [lia|]. replace (Z.to_nat (sl_pos s + 1)) with (S (Z.to_nat (sl_pos s))) by lia.
    replace (Z.to_nat (sl_pos s - 1 + 1)) with (Z.to_nat (sl_pos s)) by lia.
    destruct (sl_recs s !! Z.to_nat (sl_pos s)) as [r|] eqn:E.
    + by rewrite (take_S_r _ _ _ E), rev_app_distr.
    + apply lookup_ge_None in E. lia.
  - intros Hlo _. split; [lia|]. rewrite tail_drop. f_equal. lia.
Qed.

Lemma load_loop_rest fuel s :
  seg_readable s -> (length (si_blocks s) - si_bi s < fuel)%nat ->
  let s' := load_loop fuel s in
  seg_readable s' /\ seg_rest s' = seg_rest s /\ si_buf s' !! si_pos s' = head (seg_rest s).
Proof.
  revert s; induction fuel as [|fuel IH]; intros s Hr Hf; [lia|]. cbn [load_loop].
  destruct (Nat.leb_spec (length (si_buf s)) (si_pos s)) as [L|L].
  - destruct (si_blocks s !! si_bi s) as [idx|] eqn:E.
    + destruct Hr as [He Hall]. pose proof (Forall_lookup_1 _ _ _ _ Hall E) as [l Hl].
      assert (R : seg_rest s = l ++ List.concat ((fun idx => default [] (block_recs s idx))
                    <$> drop (S (si_bi s)) (si_blocks s))).
      { unfold seg_rest. by rewrite drop_ge, (drop_S _ _ _ E), fmap_cons, Hl by done. }
      unfold block_recs in Hl.
      destruct (ReadBlock _ _ _ _) as [recs [[]|e]] eqn:ER; [|done]. injection Hl as <-.
      rewrite R. apply IH; [by split|]. cbn. apply lookup_lt_Some in E. lia.
    + split; [done|]. split; [done|]. apply lookup_ge_None in E.
      unfold seg_rest. rewrite !drop_ge by done. cbn. by apply lookup_ge_None.
  - split; [done|]. split; [done|]. unfold seg_rest.
    rewrite <- head_drop. destruct (drop _ (si_buf s)) eqn:E; [|done].
    apply (f_equal length) in E. rewrite length_drop in E. cbn in E. lia.
Qed.

Lemma peek_rest it :
  iter_ok it -> exists it', peek it = (it', head (rest it)) /\ iter_ok it' /\ rest it' = rest it /\
    (rest it <> [] -> iter_ok (pop it') /\ rest (pop it') = tail (rest it)).
Proof.
  destruct it as [s|s]; cbn [iter_ok peek rest]; intros Hok.
  - exists (SliceIter s). rewrite slice_peek_head by done. split; [done|]. split; [done|].
    split; [done|]. intros Hne. by apply slice_pop_tail.
  - unfold seg_peek. destruct Hok as [He Hall]. rewrite He.
    destruct (load_loop_rest (S (length (si_blocks s) - si_bi s)) s) as (Hr' & E & Eh);
      [by split|lia|]. fold (load s) in *.
    exists (SegIter (load s)). rewrite Eh. split; [done|]. split; [done|]. split; [done|].
    intros Hne. cbn [pop iter_ok rest]. split; [exact Hr'|]. rewrite <- E in Eh, Hne |- *.
    unfold seg_rest, seg_pop in *; cbn [si_pos si_buf si_bi si_blocks si_rd si_desc block_recs] in *.
    destruct (si_buf (load s) !! si_pos (load s)) as [r|] eqn:Eb.
    + rewrite (drop_S _ _ _ Eb). done.
    + by destruct (_ ++ _).
Qed.

(** ** The merge loop *)

(** A peeked cursor: the same rest, and ready to be popped. *)
Definition peeked (it it' : recIter) : Prop :=
  iter_ok it' /\ rest it' = rest it /\
  (rest it <> [] -> iter_ok (pop it') /\ rest (pop it') = tail (rest it)).

Lemma pickNext_select desc iters : forall i best,
  Forall iter_ok iters ->
  exists iters', pickNext_from desc i iters best = (iters', select desc i (rest <$> iters) best)
    /\ Forall2 peeked iters iters'.
Proof.
  induction iters as [|it iters IH]; intros i best Hok; [by exists []|].
  apply Forall_cons in Hok as [Hit Hok]. cbn [pickNext_from fmap list_fmap select].
  destruct (peek_rest it Hit) as (it' & Ep & Hp). rewrite Ep.
  destruct (IH (S i) (choose desc i (head (rest it)) best) Hok) as (its & E & Hits).
  exists (it' :: its). split; [|by constructor].
  change (fun iters => rest <$> iters) with (@list_fmap recIter _ rest) in E.
  unfold choose, better in E |- *. by rewrite E.
Qed.

Lemma peeked_ok iters iters' : Forall2 peeked iters iters' -> Forall iter_ok iters'.
Proof. induction 1 as [|it it' its its' (? & _) _ IH]; by constructor. Qed.

Lemma peeked_pop iters iters' i r t :
  Forall2 peeked iters iters' -> (rest <$> iters) !! i = Some (r :: t) ->
  Forall iter_ok (alter pop i iters') /\
  rest <$> alter pop i iters' = alter (@tail LogRecord) i (rest <$> iters).
Proof.
  intros H2. revert i. induction H2 as [|it it' its its' (Hok & Er & Hp) H2 IH];
    intros [|i] E; try done; cbn in E |- *.
  - injection E as E. destruct Hp as [Hok' Et]; [by rewrite E|].
    split; [constructor; [done|by eapply peeked_ok]|]. rewrite Et. f_equal.
    clear -H2. induction H2 as [|? ? ? ? (_ & E & _) _ IH]; [done|]. cbn. by rewrite E, IH.
  - destruct (IH _ E) as [Hoks Es]. split; [by constructor|]. by rewrite Er, <- Es.
Qed.

(** The records a query selects, and the prefix the limit leaves. *)
Definition keep (rq : Request) (expr : Node) (r : LogRecord) : bool :=
  in_window (rq_Start rq) (rq_End rq) (rec_Timestamp r) && sat expr r.
Definition limited {A} (limit count : Z) (l : list A) : list A :=
  if 0 <? limit then take (Z.to_nat (limit - count)) l else l.

Definition emitted {S E A} (r : S * result E unit) (a : A) : S * result (query_error E) A :=
  match r with
  | (s, Ok _) => (s, Ok a)
  | (s, Err e) => (s, Err (EmitError e))
  end.

(** The loop's two range tests are the window test. *)
Lemma window_tests rq r :
  in_window (rq_Start rq) (rq_End rq) (rec_Timestamp r) =
  negb (Before (rec_Timestamp r) (rq_Start rq) && negb (IsZero (rq_Start rq))) &&
  negb (negb (IsZero (rq_End rq)) && After (rec_Timestamp r) (rq_End rq)).
Proof. unfold in_window. rewrite !negb_andb, !negb_involutive. btauto. Qed.

Lemma run_loop_merge {S E} fuel rq expr (emit : LogRecord -> stM S E unit) :
  node_ok expr = true -> forall iters count s,
  Forall iter_ok iters -> (total (rest <$> iters) < fuel)%nat ->
  (0 < rq_Limit rq -> count < rq_Limit rq) ->
  exists its', Forall iter_ok its' /\
    run_loop fuel rq expr emit iters count s
    = emitted (for_st emit (limited (rq_Limit rq) count
        (List.filter (keep rq expr) (merge fuel (rq_Desc rq) (rest <$> iters)))) s) its'.
Proof.
  intros Hexpr. induction fuel as [|fuel IH]; intros iters count s Hok Hf Hc; [lia|].
  cbn [run_loop merge]. unfold pickNext.
  destruct (pickNext_select (rq_Desc rq) iters 0 None Hok) as (its & Epick & H2). rewrite Epick.
  destruct (select _ 0 _ None) as [[i r]|] eqn:Es; cycle 1.
  { exists its. split; [by eapply peeked_ok|]. unfold limited. cbn.
    destruct (0 <? rq_Limit rq); [by rewrite take_nil|done]. }
  apply select_head in Es as [[t Es] _].
  destruct (peeked_pop _ _ _ _ _ H2 Es) as [Hok' Er].
  pose proof (total_alter _ _ _ _ Es) as Ht.
  assert (IH' : forall count s, (0 < rq_Limit rq -> count < rq_Limit rq) -> exists its', Forall iter_ok its' /\
    run_loop fuel rq expr emit (alter pop i its) count s
    = emitted (for_st emit (limited (rq_Limit rq) count (List.filter (keep rq expr)
        (merge fuel (rq_Desc rq) (alter tail i (rest <$> iters))))) s) its').
  { intros c' s' Hc'. destruct (IH (alter pop i its) c' s' Hok') as (its' & Hi & Ei);
      [rewrite Er; lia|done|]. exists its'. by rewrite Ei, Er. }
  cbn [List.filter]. unfold keep at 1. rewrite window_tests.
  destruct (Before _ _ && _) eqn:W1; cbn [negb andb]; [by apply IH'|].
  destruct (negb (IsZero _) && _) eqn:W2; cbn [negb andb]; [by apply IH'|].
  pose proof (Match_total expr r Hexpr) as Em. rewrite Em.
  destruct (sat expr r) eqn:Esat; [|by apply IH'].
  (* the record is emitted *)
  set (todo := List.filter _ _).
  assert (El : limited (rq_Limit rq) count (r :: todo) =
    r :: (if (0 <? rq_Limit rq) && (rq_Limit rq <=? count + 1) then []
          else limited (rq_Limit rq) (count + 1) todo)).
  { unfold limited. destruct (Z.ltb_spec 0 (rq_Limit rq)) as [L|L]; [|done]. cbn [andb].
    specialize (Hc L). replace (Z.to_nat (rq_Limit rq - count))
      with (Datatypes.S (Z.to_nat (rq_Limit rq - (count + 1)))) by lia. cbn [take].
    f_equal. destruct (Z.leb_spec (rq_Limit rq) (count + 1)); [|done].
    by replace (Z.to_nat (rq_Limit rq - (count + 1))) with 0%nat by lia. }
  rewrite El. cbn [for_st]. unfold mbind, stM_bind at 1.
  destruct (emit r s) as [s' [u|e]]; [|by exists []].
  destruct ((0 <? rq_Limit rq) && (rq_Limit rq <=? count + 1)) eqn:B; [by exists (alter pop i its)|].
  apply IH'. apply andb_false_iff in B. rewrite Z.ltb_ge, Z.leb_gt in B. lia.
Qed.

(** ** The sources of a query *)

(** A reader over the groups [gs]: block [i] reads as group [i], and its index entry
    bounds the group's timestamps. *)
Record reader_holds (rd : Reader) (gs : list (list LogRecord)) : Prop := {
  rh_length : length (Blocks rd) = length gs;
  rh_read i g : gs !! i = Some g -> ReadBlock rd (Z.of_nat i) collect [] = (g, Ok tt);
  rh_range i b g : Blocks rd !! i = Some b -> gs !! i = Some g ->
    Forall (fun r => bm_MinTS b <= rec_Timestamp r <= bm_MaxTS b) g
}.

Definition group_at (gs : list (list LogRecord)) (i : nat) : list LogRecord :=
  default [] (gs !! i).

Lemma sorted_sublist desc l l' : sublist l l' -> sorted desc l' -> sorted desc l.
Proof.
  induction 1 as [|x l l' Hs IH|x l l' Hs IH]; intros Hl; [constructor| |].
  - apply StronglySorted_inv in Hl as [Hl Hx]. constructor; [auto|].
    rewrite Forall_forall in Hx |- *. intros y Hy. apply Hx. by eapply elem_of_submseteq; [|apply sublist_submseteq].
  - apply StronglySorted_inv in Hl as [Hl _]. auto.
Qed.

(** The overlapping blocks hold every record of the window, in the same order. *)
Lemma overlapping_groups start end_ bs gs i :
  length bs = length gs ->
  (forall k b g, bs !! k = Some b -> gs !! k = Some g ->
     Forall (fun r => bm_MinTS b <= rec_Timestamp r <= bm_MaxTS b) g) ->
  exists ks, overlapping_from i bs start end_ = (fun k => (i + k)%nat) <$> ks /\
    Forall (fun k => k < length gs)%nat ks /\
    sublist (List.concat (group_at gs <$> ks)) (List.concat gs) /\
    (forall P : LogRecord -> bool,
       (forall r, P r = true -> in_window start end_ (rec_Timestamp r) = true) ->
       List.filter P (List.concat (group_at gs <$> ks)) = List.filter P (List.concat gs)).
Proof.
  revert gs i; induction bs as [|b bs IH]; intros [|g gs] i Hlen Hr; try done.
  { exists []. repeat split; constructor. }
  destruct (IH gs (S i)) as (ks & E & Hks & Hsub & Hf);
    [cbn in Hlen; lia|intros k; apply (Hr (S k))|].
  assert (Eks : group_at (g :: gs) <$> (S <$> ks) = group_at gs <$> ks).
  { rewrite <- list_fmap_compose. done. }
  assert (Ei : (fun k => (S i + k)%nat) <$> ks = (fun k => (i + k)%nat) <$> (S <$> ks)).
  { rewrite <- list_fmap_compose. apply list_fmap_ext. intros; cbn; lia. }
  assert (HS : Forall (fun k => k < length (g :: gs))%nat (S <$> ks)).
  { rewrite Forall_fmap. eapply Forall_impl; [exact Hks|]. cbn; lia. }
  cbn [overlapping_from]. rewrite E, Ei. destruct (BlockOverlaps b start end_) eqn:Eb.
  - exists (0%nat :: (S <$> ks)). split; [cbn; by rewrite Nat.add_0_r|].
    split; [constructor; [cbn; lia|done]|]. rewrite fmap_cons, Eks. cbn.
    split; [by apply sublist_app|]. intros P HP. by rewrite !List.filter_app, Hf.
  - exists (S <$> ks). split; [done|]. split; [done|]. rewrite Eks. cbn.
    split; [by apply sublist_inserts_l|]. intros P HP. rewrite List.filter_app, (Hf P HP).
    assert (Eg : List.filter P g = []); [|by rewrite Eg].
    specialize (Hr 0%nat b g eq_refl eq_refl). clear -Hr HP Eb.
    induction Hr as [|r g Hr _ IH]; [done|]. cbn. destruct (P r) eqn:Ep; [|done].
    apply HP in Ep. unfold BlockOverlaps in Eb.
    by rewrite (overlaps_sound _ _ _ _ _ Hr Ep) in Eb.
Qed.

Lemma fmap_rev_ {A B} (f : A -> B) l : f <$> rev l = rev (f <$> l).
Proof. apply List.map_rev. Qed.
Lemma concat_rev_rev {A} (ls : list (list A)) :
  List.concat (@rev A <$> rev ls) = rev (List.concat ls).
Proof.
  induction ls as [|l ls IH]; [done|]. cbn. rewrite fmap_app, List.concat_app, IH.
  cbn. by rewrite app_nil_r, rev_app_distr.
Qed.

(** What the cursor of a segment yields. *)
Lemma newSegIter_rest rd gs start end_ desc :
  reader_holds rd gs -> sorted false (List.concat gs) ->
  let it := SegIter (newSegIter rd start end_ desc) in
  iter_ok it /\ sorted desc (rest it) /\
  (length (rest it) <= length (List.concat gs))%nat /\
  (forall P : LogRecord -> bool,
     (forall r, P r = true -> in_window start end_ (rec_Timestamp r) = true) ->
     List.filter P (rest it) ≡ₚ List.filter P (List.concat gs)).
Proof.
  intros [Hlen Hread Hrange] Hsorted it.
  destruct (overlapping_groups start end_ (Blocks rd) gs 0 Hlen Hrange)
    as (ks & E & Hks & Hsub & Hf).
  rewrite list_fmap_id in E.
  set (s := newSegIter rd start end_ desc) in *.
  assert (Hb : forall k, (k < length gs)%nat -> block_recs s k =
            Some (if desc then rev (group_at gs k) else group_at gs k)).
  { intros k Hk. apply lookup_lt_is_Some in Hk as [g Eg]. unfold block_recs, group_at; cbn.
    by rewrite (Hread _ _ Eg), Eg. }
  assert (Er : rest it = if desc then rev (List.concat (group_at gs <$> ks))
                         else List.concat (group_at gs <$> ks)).
  { cbn. unfold seg_rest; cbn. rewrite E. destruct desc.
    - rewrite <- concat_rev_rev, <- fmap_rev_. f_equal. rewrite <- list_fmap_compose.
      apply list_fmap_ext. intros i k Hk. rewrite Hb; [done|].
      rewrite Forall_forall in Hks. apply Hks. rewrite list_elem_of_In, in_rev, <- list_elem_of_In.
      by eapply list_elem_of_lookup_2.
    - f_equal. apply list_fmap_ext. intros i k Hk. rewrite Hb; [done|].
      rewrite Forall_forall in Hks. apply Hks. by eapply list_elem_of_lookup_2. }
  split; [|split; [|split]].
  - split; [done|]. cbn. rewrite E. apply Forall_forall. intros k Hk.
    rewrite Forall_forall in Hks. change (is_Some (block_recs s k)).
    rewrite Hb; [by eexists|]. apply Hks. destruct desc; [|done].
    by rewrite list_elem_of_In, in_rev, <- list_elem_of_In.
  - pose proof (sorted_sublist _ _ _ Hsub Hsorted) as Hs. rewrite Er.
    destruct desc; [by apply sorted_rev|done].
  - apply sublist_length in Hsub. rewrite Er. destruct desc; by rewrite ?length_rev.
  - intros P HP. rewrite <- (Hf P HP), Er. destruct desc; [|done].
    by rewrite filter_rev, <- Permutation_rev.
Qed.

(** A store whose catalogue lists the segments [all], each holding [content]. *)
Record catalog_holds {E} (st : SegmentStore E) (all : list SegmentMeta)
    (content : SegmentMeta -> list (list LogRecord)) : Prop := {
  ch_overlapping s e : Overlapping st s e = Ok (List.filter (fun m => SegmentOverlaps m s e) all);
  ch_reader m : m ∈ all -> exists rd, OpenReader st m = Ok rd /\ reader_holds rd (content m);
  ch_sorted m : m ∈ all -> sorted false (List.concat (content m));
  ch_meta m r : m ∈ all -> r ∈ List.concat (content m) ->
    summary_covers m r /\ sm_MinTS m <= rec_Timestamp r <= sm_MaxTS m
}.

Section Sources.
Context {E : Type} (st : SegmentStore E) (all : list SegmentMeta).
Context (content : SegmentMeta -> list (list LogRecord)).
Context (Hst : catalog_holds st all content).
Context (rq : Request) (expr : Node) (Hexpr : node_ok expr = true).

Definition recs_of (m : SegmentMeta) : list LogRecord := List.concat (content m).

Lemma keep_window r :
  keep rq expr r = true -> in_window (rq_Start rq) (rq_End rq) (rec_Timestamp r) = true.
Proof. unfold keep. by intros [? _]%andb_true_iff. Qed.

Lemma filter_none (P : LogRecord -> bool) l :
  (forall r, r ∈ l -> P r = true -> False) -> List.filter P l = [].
Proof.
  induction l as [|r l IH]; intros HP; [done|]. cbn. destruct (P r) eqn:E'.
  - exfalso. by apply (HP r); [left|].
  - apply IH. intros r' Hr'. apply HP. by right.
Qed.

Lemma pruned_none m :
  m ∈ all -> segmentMatches m expr = false -> List.filter (keep rq expr) (recs_of m) = [].
Proof.
  intros Hm Hp. apply filter_none. intros r Hr Hk.
  destruct (ch_meta _ _ _ Hst m r Hm Hr) as [Hc _].
  unfold keep in Hk. apply andb_true_iff in Hk as [_ Hk].
  by rewrite (segmentMatches_keeps m expr r Hexpr Hc Hk) in Hp.
Qed.

Lemma outside_none m :
  m ∈ all -> SegmentOverlaps m (rq_Start rq) (rq_End rq) = false ->
  List.filter (keep rq expr) (recs_of m) = [].
Proof.
  intros Hm Hp. apply filter_none. intros r Hr Hk.
  destruct (ch_meta _ _ _ Hst m r Hm Hr) as [_ Hc]. apply keep_window in Hk.
  unfold SegmentOverlaps in Hp. by rewrite (overlaps_sound _ _ _ _ _ Hc Hk) in Hp.
Qed.

(** The cursors [Run] opens over the segments: ready, sorted, and holding every
    record the query selects. *)
Definition good_sources (its : list recIter) (recs : list LogRecord) : Prop :=
  Forall iter_ok its /\ Forall (sorted (rq_Desc rq)) (rest <$> its) /\
  (total (rest <$> its) <= length recs)%nat /\
  List.filter (keep rq expr) (List.concat (rest <$> its)) ≡ₚ List.filter (keep rq expr) recs.

Lemma good_sources_app its its' recs recs' :
  good_sources its recs -> good_sources its' recs' ->
  good_sources (its ++ its') (recs ++ recs').
Proof.
  intros (Ha & Hb & Hc & Hd) (Ha' & Hb' & Hc' & Hd'). unfold good_sources, total in *.
  rewrite fmap_app, List.concat_app, !length_app, !List.filter_app, Hd, Hd'.
  split; [by apply Forall_app|]. split; [by apply Forall_app|]. split; [lia|done].
Qed.

Lemma good_source_peeked it recs :
  iter_ok it -> sorted (rq_Desc rq) (rest it) -> (length (rest it) <= length recs)%nat ->
  List.filter (keep rq expr) (rest it) ≡ₚ List.filter (keep rq expr) recs ->
  exists it', peek it = (it', head (rest it)) /\
    good_sources (match head (rest it) with None => [] | Some _ => [it'] end) recs.
Proof.
  intros Hok Hs Hl Hp. destruct (peek_rest it Hok) as (it' & Ep & Hok' & Er & _).
  exists it'. split; [done|]. unfold good_sources, total. destruct (rest it) as [|r t] eqn:E'.
  - cbn in *. split; [constructor|]. split; [constructor|]. split; [lia|]. done.
  - cbn [head]. cbn [fmap list_fmap List.concat]. rewrite Er, app_nil_r.
    split; [by constructor|]. split; [by constructor|]. done.
Qed.

Lemma good_sources_nil recs :
  List.filter (keep rq expr) recs = [] -> good_sources [] recs.
Proof.
  intros E'. split; [constructor|]. split; [constructor|]. split; [cbn; lia|]. by rewrite E'.
Qed.

Lemma open_segments_good segs :
  (forall m, m ∈ segs -> m ∈ all) ->
  exists its, open_segments st rq expr segs = Ok its /\
    good_sources its (List.concat (recs_of <$> segs)).
Proof.
  induction segs as [|m segs IH]; intros Hall.
  { exists []. split; [done|]. by apply good_sources_nil. }
  destruct IH as (its & Ei & Hi); [intros m' ?; apply Hall; by right|].
  assert (Hm : m ∈ all) by (apply Hall; left). cbn [open_segments].
  rewrite fmap_cons. cbn [List.concat].
  destruct (segmentMatches m expr) eqn:Ep; cbn [negb].
  - destruct (ch_reader _ _ _ Hst m Hm) as (rd & -> & Hrd).
    destruct (newSegIter_rest rd (content m) (rq_Start rq) (rq_End rq) (rq_Desc rq) Hrd
                (ch_sorted _ _ _ Hst m Hm)) as (Hok & Hs & Hl & Hf).
    destruct (good_source_peeked _ (recs_of m) Hok Hs Hl (Hf _ keep_window)) as (it' & -> & Hg).
    rewrite Ei. eexists. split; [reflexivity|].
    pose proof (good_sources_app _ _ _ _ Hg Hi) as G. by destruct (head _).
  - exists its. split; [done|]. apply (good_sources_app [] its); [|done].
    apply good_sources_nil. by apply pruned_none.
Qed.

Lemma overlapping_all :
  List.filter (keep rq expr) (List.concat (recs_of <$>
    List.filter (fun m => SegmentOverlaps m (rq_Start rq) (rq_End rq)) all))
  = List.filter (keep rq expr) (List.concat (recs_of <$> all)).
Proof.
  assert (H' : forall m, m ∈ all -> m ∈ all) by done. revert H'. generalize all at 1 3 4 as l.
  induction l as [|m l IH]; intros Hl; [done|]. cbn.
  rewrite List.filter_app, <- IH by (intros m' ?; apply Hl; by right).
  destruct (SegmentOverlaps m _ _) eqn:Eo; [cbn; by rewrite List.filter_app|].
  by rewrite outside_none by (done || (apply Hl; left)).
Qed.

Lemma open_iter_good opens :
  sorted false opens -> good_sources (open_iter (rq_Desc rq) opens) opens.
Proof.
  intros Hs. destruct opens as [|r opens]; [by apply good_sources_nil|].
  unfold open_iter. set (l := r :: opens) in *.
  set (si := SliceIter _).
  assert (Hok : iter_ok si).
  { cbn. unfold slice_ok. cbn [sl_desc sl_pos sl_recs]. destruct (rq_Desc rq); cbn; lia. }
  assert (Er : rest si = if rq_Desc rq then rev l else l).
  { cbn. unfold slice_rest. cbn [sl_desc sl_pos sl_recs]. destruct (rq_Desc rq); [|done].
    rewrite take_ge; [done|]. cbn. lia. }
  destruct (good_source_peeked si l Hok) as (it' & -> & Hg).
  - rewrite Er. destruct (rq_Desc rq); [by apply sorted_rev|done].
  - rewrite Er. destruct (rq_Desc rq); by rewrite ?length_rev.
  - rewrite Er. destruct (rq_Desc rq); [by rewrite <- Permutation_rev|done].
  - by destruct (head _).
Qed.

Lemma no_failure its : Forall iter_ok its -> first_failure its = None.
Proof.
  induction 1 as [|it its Hit _ IH]; [done|]. cbn. destruct it as [s|s]; [done|].
  destruct Hit as [He _]. cbn. by rewrite He.
Qed.

End Sources.

Lemma Run_spec {E} (st : SegmentStore E) all content open_snap rq fuel :
  let expr := default matchAll (rq_Expr rq) in
  let opens := match open_snap with
               | None => [] | Some f => f (rq_Start rq) (rq_End rq) end in
  let stored := List.concat (recs_of content <$> all) ++ opens in
  catalog_holds st all content -> node_ok expr = true -> sorted false opens ->
  (length (List.concat (recs_of content <$>
     List.filter (fun m => SegmentOverlaps m (rq_Start rq) (rq_End rq)) all) ++ opens) < fuel)%nat ->
  exists out, sorted (rq_Desc rq) out /\ out ≡ₚ List.filter (keep rq expr) stored /\
    forall S (emit : LogRecord -> stM S E unit) s,
      Run fuel st open_snap rq emit s = emitted (for_st emit (limited (rq_Limit rq) 0 out) s) tt.
Proof.
  intros expr opens stored Hst Hexpr Hopens Hfuel.
  set (segs := List.filter _ all) in *.
  destruct (open_segments_good st all content Hst rq expr Hexpr segs) as (its & Ei & Hi).
  { intros m Hm. by apply list_elem_of_In, filter_In, proj1, list_elem_of_In in Hm. }
  pose proof (good_sources_app rq expr _ _ _ _ Hi (open_iter_good rq expr opens Hopens))
    as (Hok & Hs & Ht & Hf).
  set (iters := its ++ open_iter (rq_Desc rq) opens) in *.
  exists (List.filter (keep rq expr) (merge fuel (rq_Desc rq) (rest <$> iters))).
  split; [apply sorted_filter, merge_sorted; [lia|done]|]. split.
  - rewrite merge_perm by lia. rewrite Hf. unfold stored. rewrite !List.filter_app.
    unfold segs. by rewrite (overlapping_all st all content Hst rq expr).
  - intros S emit s. unfold Run. rewrite (ch_overlapping _ _ _ Hst). fold segs. fold expr.
    rewrite (bind_step _ _ s s its) by (unfold lift_st; by rewrite Ei).
    destruct (run_loop_merge fuel rq expr emit Hexpr iters 0 s Hok) as (its' & Hok' & El);
      [lia|lia|].
    assert (Eo : match open_snap with None => []
                 | Some f => open_iter (rq_Desc rq) (f (rq_Start rq) (rq_End rq)) end
                 = open_iter (rq_Desc rq) opens) by (unfold opens; by destruct open_snap).
    rewrite Eo. fold iters. unfold mbind, stM_bind. rewrite El.
    destruct (for_st emit _ s) as [s' [u|e]]; cbn [emitted]; [|done].
    by rewrite (no_failure its' Hok').
Qed.

(** A query over a store some of whose reads fail: it fails, or it is the query over the
    store whose reads succeed. *)
Lemma open_segments_reopened {E} (st st' : SegmentStore E) rq expr segs :
  (forall m rd, m ∈ segs -> OpenReader st m = Ok rd -> OpenReader st' m = Ok rd) ->
  open_segments st rq expr segs = open_segments st' rq expr segs \/
  exists e, open_segments st rq expr segs = Err (StoreError e).
Proof.
  induction segs as [|m segs IH]; intros Ho; [by left|]. cbn.
  destruct (IH (fun m' rd Hm => Ho m' rd (list_elem_of_further _ _ _ Hm))) as [<-|[e He]].
  - destruct (negb _); [by left|]. destruct (OpenReader st m) as [rd|e] eqn:Em; [|right; by eexists].
    rewrite (Ho m rd) by (done || by left). by left.
  - right. destruct (negb _); [by exists e|]. destruct (OpenReader st m) as [rd|e']; [|by eexists].
    rewrite He. by exists e.
Qed.
Lemma Run_same {S E} fuel (st st' : SegmentStore E) open_snap rq (emit : LogRecord -> stM S E unit) s :
  Overlapping st (rq_Start rq) (rq_End rq) = Overlapping st' (rq_Start rq) (rq_End rq) ->
  (forall segs m, Overlapping st (rq_Start rq) (rq_End rq) = Ok segs -> m ∈ segs -> OpenReader st m = OpenReader st' m) ->
  Run fuel st open_snap rq emit s = Run fuel st' open_snap rq emit s.
Proof.
  intros El Ho. unfold Run. rewrite <- El. destruct (Overlapping st _ _) as [segs|e]; [|done].
  specialize (Ho segs). assert (Es : open_segments st rq (default matchAll (rq_Expr rq)) segs =
    open_segments st' rq (default matchAll (rq_Expr rq)) segs); [|by rewrite Es].
  assert (Hs : forall m, m ∈ segs -> OpenReader st m = OpenReader st' m) by auto. clear Ho El.
  induction segs as [|m segs IH]; [done|]. cbn.
  rewrite (Hs m) by by left. by rewrite IH by (intros m' Hm; apply Hs; by right).
Qed.
Lemma Run_reopened {S E} fuel (st st' : SegmentStore E) open_snap rq (emit : LogRecord -> stM S E unit) s :
  Overlapping st (rq_Start rq) (rq_End rq) = Overlapping st' (rq_Start rq) (rq_End rq) ->
  (forall segs m rd, Overlapping st (rq_Start rq) (rq_End rq) = Ok segs -> m ∈ segs ->
     OpenReader st m = Ok rd -> OpenReader st' m = Ok rd) ->
  Run fuel st open_snap rq emit s = Run fuel st' open_snap rq emit s \/
  exists e, Run fuel st open_snap rq emit s = (s, Err (StoreError e)).
Proof.
  intros El Ho. unfold Run. rewrite <- El. destruct (Overlapping st _ _) as [segs|e]; [|right; by exists e].
  destruct (open_segments_reopened st st' rq (default matchAll (rq_Expr rq)) segs) as [<-|[e He]];
    [intros m rd Hm; by apply (Ho segs)|by left|].
  right. exists e. unfold mbind, stM_bind, lift_st. by rewrite He.
Qed.

(** C9: a query returns exactly the matching records, in order.  Over a catalogue
    whose segments hold [content] and an open buffer [opens], and for any [emit], [Run]
    hands [emit] the records of the time range that satisfy the expression, all of
    them and each as often as it is stored, sorted by timestamp in the requested
    direction and cut after [Limit]; it stops at the first error of [emit] and returns
    it, and otherwise succeeds.  Pruning by segment and block loses nothing. *)
Theorem Run_correct {E} (st : SegmentStore E) all content open_snap rq fuel :
  let expr := default matchAll (rq_Expr rq) in
  let opens := match open_snap with
               | None => [] | Some f => f (rq_Start rq) (rq_End rq) end in
  let stored := List.concat (recs_of content <$> all) ++ opens in
  catalog_holds st all content -> node_ok expr = true -> sorted false opens ->
  (length (List.concat (recs_of content <$>
     List.filter (fun m => SegmentOverlaps m (rq_Start rq) (rq_End rq)) all) ++ opens) < fuel)%nat ->
  exists out, sorted (rq_Desc rq) out /\ out ≡ₚ List.filter (keep rq expr) stored /\
    forall S (emit : LogRecord -> stM S E unit) s,
      Run fuel st open_snap rq emit s = emitted (for_st emit (limited (rq_Limit rq) 0 out) s) tt.
Proof. apply Run_spec. Qed.

(** A read error is lost when it comes first.  If the first block a query needs of
    a segment cannot be read, the segment's cursor is left out of the merge together
    with its deferred error: [Run] reports success and none of its records, where an
    error in a later block fails the query. *)
Theorem first_read_error_dropped {S E} (st : SegmentStore E) m rd i ks e rq
    (emit : LogRecord -> stM S E unit) s :
  Overlapping st (rq_Start rq) (rq_End rq) = Ok [m] ->
  segmentMatches m (default matchAll (rq_Expr rq)) = true -> OpenReader st m = Ok rd ->
  si_blocks (newSegIter rd (rq_Start rq) (rq_End rq) (rq_Desc rq)) = i :: ks ->
  snd (ReadBlock rd (Z.of_nat i) collect []) = Err e ->
  Run 1 st None rq emit s = (s, Ok tt).
Proof.
  intros Ho Hm Hr Hb He. unfold Run. rewrite Ho. cbn [open_segments]. rewrite Hm, Hr. cbn [negb].
  cbn [peek]. unfold seg_peek, load. cbn [newSegIter si_err].
  cbn [load_loop]. rewrite Hb. cbn [newSegIter si_buf si_pos si_bi length Nat.leb lookup list_lookup].
  change (si_rd (newSegIter rd (rq_Start rq) (rq_End rq) (rq_Desc rq))) with rd.
  destruct (ReadBlock rd (Z.of_nat i) collect []) as [recs r]. cbn in He. by rewrite He.
Qed.

End PlannerOk.

(** ** Segments written by the writer make a good store *)

Section Written.
Context `{Zstd, JsonCodec}.

Lemma reader_of_holds created gs :
  sealable created gs -> reader_holds (reader_of created gs) gs.
Proof.
  intros Hse. split.
  - unfold Blocks; cbn. apply length_blocks_at.
  - intros i g E. by rewrite (ReadBlock_layout _ _ _ _ _ _ Hse E), for_st_collect.
  - intros i b g Hb E. unfold Blocks in Hb; cbn [rd_blocks reader_of] in Hb.
    rewrite (blocks_at_lookup _ _ _ _ E) in Hb. injection Hb as <-.
    apply Forall_forall. intros r Hr. split; [by apply tmin_le|by apply tmax_ge].
Qed.

Lemma meta_for_covers created gs r :
  r ∈ List.concat gs ->
  summary_covers (meta_for created gs) r /\
  sm_MinTS (meta_for created gs) <= rec_Timestamp r <= sm_MaxTS (meta_for created gs).
Proof.
  intros Hr. pose proof (accum_describes (List.concat gs)) as [Hn Hp Ho Hc _ _ _].
  split; [|split; [by apply tmin_le|by apply tmax_ge]].
  unfold summary_covers, meta_for; cbn [sm_Namespaces sm_Pods sm_Nodes sm_Containers summary_of
    su_Namespaces su_Pods su_Nodes su_Containers].
  rewrite !elem_of_sortedKeys, Hn, Hp, Ho, Hc. repeat split; try done; eauto.
Qed.

Lemma length_concat_filter {A B} (f : A -> list B) (P : A -> bool) l :
  (length (List.concat (f <$> List.filter P l)) <= length (List.concat (f <$> l)))%nat.
Proof.
  induction l as [|a l IH]; cbn; [done|]. rewrite length_app.
  destruct (P a); cbn; rewrite ?length_app; lia.
Qed.

(** A sealed segment: its ID, its creation time and the records it was written from. *)
Record sealed := mkSealed { sd_id : string; sd_created : Z; sd_records : list LogRecord }.

Definition sealed_groups (f : sealed) : list (list LogRecord) := groups (sd_records f).
Definition sealed_meta (f : sealed) : SegmentMeta :=
  let m := meta_for (sd_created f) (sealed_groups f) in
  mkSegmentMeta (sd_id f) (sm_S3Key m) (sm_MinTS m) (sm_MaxTS m) (sm_Namespaces m)
    (sm_Pods m) (sm_Nodes m) (sm_Containers m) (sm_LabelKeys m) (sm_FieldKeys m)
    (sm_Blocks m) (sm_SizeBytes m) (sm_RecordCount m) (sm_HasLate m) (sm_SourceOffsets m)
    (sm_LocalPath m).
Definition sealed_ok (f : sealed) : Prop :=
  sealable (sd_created f) (sealed_groups f) /\ sorted false (sd_records f).

Definition find_sealed (files : list sealed) (m : SegmentMeta) : option sealed :=
  List.find (fun f => String.eqb (sd_id f) (sm_ID m)) files.

(** The store over files the writer produced. *)
Definition written_store (files : list sealed) : SegmentStore seg_error := {|
  Overlapping s e := Ok (List.filter (fun m => SegmentOverlaps m s e) (sealed_meta <$> files));
  OpenReader m :=
    match find_sealed files m with
    | Some f => Open (layout (sd_created f) (sealed_groups f)) (sm_SizeBytes m)
    | None => Err ErrReadAt
    end
|}.
Definition written_content (files : list sealed) (m : SegmentMeta) : list (list LogRecord) :=
  match find_sealed files m with Some f => sealed_groups f | None => [] end.

Lemma find_sealed_meta files f :
  NoDup (sd_id <$> files) -> f ∈ files -> find_sealed files (sealed_meta f) = Some f.
Proof.
  induction files as [|g files IH]; intros Hnd Hf; [by apply elem_of_nil in Hf|].
  rewrite fmap_cons in Hnd. apply NoDup_cons in Hnd as [Hg Hnd]. cbn.
  apply elem_of_cons in Hf as [->|Hf]; [by rewrite String.eqb_refl|].
  destruct (String.eqb_spec (sd_id g) (sd_id f)) as [E|_]; [|by apply IH].
  exfalso. apply Hg. rewrite E. by apply list_elem_of_fmap_2.
Qed.

Lemma written_holds files :
  NoDup (sd_id <$> files) -> Forall sealed_ok files ->
  catalog_holds (written_store files) (sealed_meta <$> files) (written_content files).
Proof.
  intros Hnd Hok. rewrite Forall_forall in Hok.
  assert (Hfind : forall m, m ∈ sealed_meta <$> files -> exists f,
            m = sealed_meta f /\ sealed_ok f /\ find_sealed files m = Some f).
  { intros m (f & -> & Hf)%list_elem_of_fmap. exists f. split; [done|].
    split; [by apply Hok|by apply find_sealed_meta]. }
  split; [done|..].
  - intros m (f & -> & [Hse _] & Hf)%Hfind. cbn [written_store OpenReader].
    unfold written_content. rewrite Hf. exists (reader_of (sd_created f) (sealed_groups f)).
    split; [|by apply reader_of_holds]. cbn [sealed_meta sm_SizeBytes meta_for].
    rewrite int64_id by (pose proof (se_size _ _ Hse); width). by apply Open_layout.
  - intros m (f & -> & [_ Hs] & Hf)%Hfind. unfold written_content. rewrite Hf.
    unfold sealed_groups. by rewrite (proj1 (groups_spec _)).
  - intros m r (f & -> & _ & Hf)%Hfind. unfold written_content. rewrite Hf.
    apply meta_for_covers.
Qed.

(** The segment format and the executor fit together.  For segments the writer
    produced from time-sorted records, every query over the files returns exactly the
    written records of the range that match, sorted and cut after the limit: encoding,
    block index, source summary, pruning, cursors and merge lose and invent nothing. *)
Theorem query_written_segments `{Regexp} files rq fuel :
  let expr := default matchAll (rq_Expr rq) in
  NoDup (sd_id <$> files) -> Forall sealed_ok files -> node_ok expr = true ->
  (length (List.concat (sd_records <$> files)) < fuel)%nat ->
  exists out, sorted (rq_Desc rq) out /\
    out ≡ₚ List.filter (keep rq expr) (List.concat (sd_records <$> files)) /\
    Run fuel (written_store files) None rq collect [] = (limited (rq_Limit rq) 0 out, Ok tt).
Proof.
  intros expr Hnd Hok Hexpr Hfuel.
  assert (Econt : recs_of (written_content files) <$> (sealed_meta <$> files) = sd_records <$> files).
  { rewrite <- list_fmap_compose. apply list_fmap_ext. intros i f Hf%list_elem_of_lookup_2. cbn.
    unfold recs_of, written_content. rewrite find_sealed_meta by done.
    apply groups_spec. }
  destruct (Run_spec (written_store files) _ _ None rq fuel (written_holds files Hnd Hok) Hexpr)
    as (out & Hs & Hp & Hrun); [constructor|..].
  - rewrite app_nil_r. eapply Nat.le_lt_trans; [|exact Hfuel]. rewrite <- Econt.
    apply length_concat_filter.
  - exists out. split; [done|]. rewrite app_nil_r, Econt in Hp. split; [done|].
    rewrite Hrun, for_st_collect. done.
Qed.

End Written.

(** ** Evaluation *)

Module Witness.
Import SegToy.Witness.
Local Existing Instance toy_zstd.
Local Existing Instance go_json.
Local Existing Instance literal_regexp.

Definition rq : Request := mkRequest None 6 zeroTime 0 true.
Definition file : sealed := mkSealed "s1" 9 rs.

Lemma file_ok : Forall sealed_ok [file].
Proof.
  constructor; [|constructor]. split; [apply rs_sealable|].
  repeat constructor; vm_compute; done.
Qed.

Lemma query_written_segments_witness :
  exists out, sorted true out /\
    out ≡ₚ List.filter (keep rq matchAll) (List.concat (sd_records <$> [file])) /\
    Run 3 (written_store [file]) None rq collect [] = (limited 0 0 out, Ok tt).
Proof.
  apply (query_written_segments [file] rq 3).
  - apply NoDup_singleton.
  - apply file_ok.
  - reflexivity.
  - vm_compute. lia.
Defined.

Lemma first_read_error_dropped_witness :
  let m := sealed_meta file in
  let rd := mkReader "" 0 [mkBlockMeta 0 5 5 6 6 1] (mkSummary [] [] [] [] [] []) 6 6 in
  Run 1 {| Overlapping s e := Ok [m]; OpenReader m := Ok rd |} None rq collect [] = ([], Ok tt).
Proof.
  intros m rd. apply (first_read_error_dropped (E := seg_error) _ m rd 0 [] ErrReadAt); reflexivity.
Defined.

Lemma Run_correct_witness :
  exists out, sorted true out /\
    out ≡ₚ List.filter (keep rq matchAll)
      (List.concat (recs_of (written_content [file]) <$> (sealed_meta <$> [file]))
         ++ [rec 30 8 "c"]) /\
    forall S (emit : LogRecord -> stM S seg_error unit) s,
      Run 4 (written_store [file]) (Some (fun _ _ => [rec 30 8 "c"])) rq emit s
      = emitted (for_st emit (limited 0 0 out) s) tt.
Proof.
  apply (Run_correct (written_store [file]) (sealed_meta <$> [file]) (written_content [file])
    (Some (fun _ _ => [rec 30 8 "c"])) rq 4).
  - apply written_holds; [apply NoDup_singleton|apply file_ok].
  - reflexivity.
  - repeat constructor.
  - vm_compute. lia.
Defined.

End Witness.
