(* ===== verification/Hub.v ===== *)
(** internal/query/hub.go: the fan-out of ingested records to live-tail subscribers.
    Every method holds the hub's mutex, so each is one atomic step; a subscriber's
    receives interleave with them. *)

From S2P Require Import Prelude GoStrings GoTime Model Value Ast.
Local Open Scope Z_scope.

Section Hub.
Context `{Regexp}.

(** A buffered channel of records. *)
Record chan := mkChan { ch_buf : list LogRecord; ch_cap : nat; ch_closed : bool }.

(** [query.subscriber]; its channel lives in the heap under the subscription's id, where
    the receiver finds it after the hub has forgotten the subscriber.  The [dropped]
    flag is set on a subscriber that is then deleted, and never read. *)
Record subscriber := mkSubscriber { sb_expr : option Node }.

(** [query.Hub], with the heap of channels it has made. *)
Record Hub := mkHub {
  hb_subs : gmap Z subscriber;
  hb_nextID : Z;
  hb_bufSize : Z;
  hb_chans : gmap Z chan
}.

(** [NewHub] *)
Definition NewHub (bufSize : Z) : Hub :=
  mkHub ∅ 0 (if bufSize <=? 0 then 1024 else bufSize) ∅.

(** What one subscriber does with a record: whether it stays, and its channel.  [None]
    is a panic: matching without a compiled expression, or a send on a closed channel. *)
Definition deliver (r : LogRecord) (s : subscriber) (c : chan) : option (bool * chan) :=
  match (match sb_expr s with None => Some true | Some e => Match e r end) with
  | None => None
  | Some false => Some (true, c)
  | Some true =>
      if ch_closed c then None
      else if (length (ch_buf c) <? ch_cap c)%nat
      then Some (true, mkChan (ch_buf c ++ [r]) (ch_cap c) false)
      else Some (false, mkChan (ch_buf c) (ch_cap c) true)
  end.

(** One iteration of [Publish]'s loop. *)
Definition publish_one (r : LogRecord) (h : Hub) (id : Z) : option Hub :=
  match hb_subs h !! id with
  | None => Some h
  | Some s =>
      c ← hb_chans h !! id;
      '(stays, c') ← deliver r s c;
      Some (mkHub (if stays : bool then hb_subs h else delete id (hb_subs h))
              (hb_nextID h) (hb_bufSize h) (<[id := c']> (hb_chans h)))
  end.

(** [Hub.Publish], the map being ranged over in the order [order]. *)
Fixpoint Publish (order : list Z) (r : LogRecord) (h : Hub) : option Hub :=
  match order with
  | [] => Some h
  | id :: order' => h' ← publish_one r h id; Publish order' r h'
  end.

(** [Hub.Subscribe]: the new hub and the subscription's id. *)
Definition Subscribe (expr : option Node) (h : Hub) : Hub * Z :=
  let id := hb_nextID h in
  (mkHub (<[id := mkSubscriber expr]> (hb_subs h)) (id + 1) (hb_bufSize h)
     (<[id := mkChan [] (Z.to_nat (hb_bufSize h)) false]> (hb_chans h)), id).

(** [Sub.Close]; closing a closed channel panics. *)
Definition Close (id : Z) (h : Hub) : option Hub :=
  match hb_subs h !! id with
  | None => Some h
  | Some _ =>
      c ← hb_chans h !! id;
      if ch_closed c then None
      else Some (mkHub (delete id (hb_subs h)) (hb_nextID h) (hb_bufSize h)
                   (<[id := mkChan (ch_buf c) (ch_cap c) true]> (hb_chans h)))
  end.

(** A receive by the subscriber: [None] when the channel is empty (it blocks, or
    reports the close). *)
Definition Recv (id : Z) (h : Hub) : option (Hub * LogRecord) :=
  match hb_chans h !! id with
  | Some c =>
      match ch_buf c with
      | [] => None
      | r :: b => Some (mkHub (hb_subs h) (hb_nextID h) (hb_bufSize h)
                          (<[id := mkChan b (ch_cap c) (ch_closed c)]> (hb_chans h)), r)
      end
  | None => None
  end.

(** ** Executions *)

(** What a subscription has seen: its filter, the records published since it was made,
    and those it has received. *)
Record history := mkHistory {
  hs_expr : option Node; hs_published : list LogRecord; hs_received : list LogRecord
}.
Record world := mkWorld { w_hub : Hub; w_log : gmap Z history }.

Definition log_publish (r : LogRecord) (g : history) : history :=
  mkHistory (hs_expr g) (hs_published g ++ [r]) (hs_received g).
Definition log_receive (r : LogRecord) (g : history) : history :=
  mkHistory (hs_expr g) (hs_published g) (hs_received g ++ [r]).

Definition expr_ok (e : option Node) : bool := match e with None => true | Some e => node_ok e end.

Inductive step : world -> world -> Prop :=
| step_subscribe h g expr h' id :
    expr_ok expr = true -> Subscribe expr h = (h', id) ->
    step (mkWorld h g) (mkWorld h' (<[id := mkHistory expr [] []]> g))
| step_publish h g order r h' :
    order ≡ₚ elements (dom (hb_subs h)) -> Publish order r h = Some h' ->
    step (mkWorld h g) (mkWorld h' (log_publish r <$> g))
| step_close h g id h' :
    Close id h = Some h' -> step (mkWorld h g) (mkWorld h' g)
| step_recv h g id h' r :
    Recv id h = Some (h', r) -> step (mkWorld h g) (mkWorld h' (alter (log_receive r) id g)).

Definition reachable (bufSize : Z) (w : world) : Prop :=
  rtc step (mkWorld (NewHub bufSize) ∅) w.

(** ** The invariant *)

Definition wanted (g : history) : list LogRecord :=
  List.filter (fun r => match hs_expr g with None => true | Some e => sat e r end)
    (hs_published g).

(** A channel and its history: what was received and is buffered is what the filter
    selects of the published records, in order; all of it while the subscription is
    registered, a prefix of it afterwards. *)
Definition sub_inv (registered : bool) (cap : nat) (c : chan) (g : history) : Prop :=
  ch_cap c = cap /\ (length (ch_buf c) <= cap)%nat /\
  (if registered then ch_closed c = false /\ hs_received g ++ ch_buf c = wanted g
   else ch_closed c = true /\ (hs_received g ++ ch_buf c) `prefix_of` wanted g).

Record hub_inv (w : world) : Prop := {
  hi_buf : 0 < hb_bufSize (w_hub w);
  hi_subs id s : hb_subs (w_hub w) !! id = Some s ->
    exists g, w_log w !! id = Some g /\ hs_expr g = sb_expr s /\ expr_ok (sb_expr s) = true;
  hi_log id g : w_log w !! id = Some g ->
    id < hb_nextID (w_hub w) /\
    exists c, hb_chans (w_hub w) !! id = Some c /\
      sub_inv (bool_decide (is_Some (hb_subs (w_hub w) !! id)))
        (Z.to_nat (hb_bufSize (w_hub w))) c g
}.

Lemma deliver_inv r s c g cap :
  hs_expr g = sb_expr s -> expr_ok (sb_expr s) = true -> sub_inv true cap c g ->
  exists stays c', deliver r s c = Some (stays, c') /\ sub_inv stays cap c' (log_publish r g).
Proof.
  intros Eg Hok (Ec & Hl & Eo & Ew). unfold deliver.
  assert (Em : (match sb_expr s with None => Some true | Some e => Match e r end)
    = Some (match sb_expr s with None => true | Some e => sat e r end)).
  { destruct (sb_expr s); [by apply Match_total|done]. }
  rewrite Em, Eo.
  assert (W : wanted (log_publish r g) = wanted g ++
    (if match sb_expr s with None => true | Some e => sat e r end then [r] else [])).
  { unfold wanted, log_publish; cbn. rewrite Eg, List.filter_app. cbn. done. }
  destruct (match sb_expr s with None => true | Some e => sat e r end).
  - destruct (Nat.ltb_spec (length (ch_buf c)) (ch_cap c)) as [L|L].
    + eexists _, _. split; [done|]. split; [done|]. cbn [ch_buf ch_cap ch_closed].
      split; [rewrite length_app; cbn; lia|]. change (hs_received (log_publish r g)) with (hs_received g). split; [done|]. by rewrite app_assoc, W, Ew.
    + eexists _, _. split; [done|]. split; [done|]. cbn [ch_buf ch_cap ch_closed].
      split; [done|]. split; [done|]. change (hs_received (log_publish r g)) with (hs_received g).
      rewrite W, Ew. by apply prefix_app_r.
  - eexists _, _. split; [done|]. split; [done|]. split; [done|]. split; [done|].
    change (hs_received (log_publish r g)) with (hs_received g). by rewrite W, app_nil_r, Ew.
Qed.

(** [Publish] handles each subscriber once, independently of the others. *)
Definition published (r : LogRecord) (order : list Z) (h h' : Hub) : Prop :=
  hb_nextID h' = hb_nextID h /\ hb_bufSize h' = hb_bufSize h /\
  forall id,
    match hb_subs h !! id with
    | Some s =>
        if decide (id ∈ order) then
          exists c stays c', hb_chans h !! id = Some c /\ deliver r s c = Some (stays, c') /\
            hb_subs h' !! id = (if stays : bool then Some s else None) /\
            hb_chans h' !! id = Some c'
        else hb_subs h' !! id = Some s /\ hb_chans h' !! id = hb_chans h !! id
    | None => hb_subs h' !! id = None /\ hb_chans h' !! id = hb_chans h !! id
    end.

(** Every registered subscriber of the list can take the record. *)
Definition deliverable (r : LogRecord) (order : list Z) (h : Hub) : Prop :=
  forall id s, id ∈ order -> hb_subs h !! id = Some s ->
    exists c, hb_chans h !! id = Some c /\ is_Some (deliver r s c).

Lemma publish_one_frame r h id :
  deliverable r [id] h ->
  exists h', publish_one r h id = Some h' /\ published r [id] h h'.
Proof.
  intros Hd. unfold publish_one. destruct (hb_subs h !! id) as [s|] eqn:Es; cycle 1.
  { exists h. split; [done|]. split; [done|]. split; [done|]. intros id'.
    destruct (hb_subs h !! id') eqn:E'; [|done]. rewrite decide_False; [done|].
    intros ->%list_elem_of_singleton. congruence. }
  destruct (Hd id s) as (c & Ec & [[stays c'] Ed]); [by left|done|]. rewrite Ec. cbn. rewrite Ed. cbn.
  eexists. split; [done|]. split; [done|]. split; [done|]. intros id'. cbn.
  destruct (decide (id' = id)) as [->|Hne].
  - rewrite Es, decide_True by (by left). exists c, stays, c'. rewrite lookup_insert_eq.
    repeat split; try done. destruct stays; [done|apply lookup_delete_eq].
  - assert (Esub : (if stays then hb_subs h else delete id (hb_subs h)) !! id' = hb_subs h !! id').
    { destruct stays; [done|]. by rewrite lookup_delete_ne. }
    rewrite Esub, lookup_insert_ne by done. destruct (hb_subs h !! id') eqn:E'; [|done].
    rewrite decide_False; [done|]. by intros ->%list_elem_of_singleton.
Qed.

Lemma Publish_published r order h :
  NoDup order -> deliverable r order h ->
  exists h', Publish order r h = Some h' /\ published r order h h'.
Proof.
  revert h; induction order as [|id order IH]; intros h Hnd Hd.
  { exists h. split; [done|]. split; [done|]. split; [done|]. intros id.
    destruct (hb_subs h !! id); [|done]. rewrite decide_False; [done|]. by apply not_elem_of_nil. }
  apply NoDup_cons in Hnd as [Hid Hnd].
  destruct (publish_one_frame r h id) as (h1 & E1 & En1 & Eb1 & F1).
  { intros id' s ->%list_elem_of_singleton. apply Hd. by left. }
  assert (Same : forall id', id' <> id ->
    hb_subs h1 !! id' = hb_subs h !! id' /\ hb_chans h1 !! id' = hb_chans h !! id').
  { intros id' Hne. specialize (F1 id'). destruct (hb_subs h !! id'); [|done].
    rewrite decide_False in F1; [done|]. by intros ->%list_elem_of_singleton. }
  destruct (IH h1 Hnd) as (h' & E' & En' & Eb' & F').
  { intros id' s Hin Es. assert (id' <> id) as Hne by (by intros ->).
    destruct (Same id' Hne) as [Esub Ech]. rewrite Ech. apply Hd; [by right|]. by rewrite <- Esub. }
  exists h'. split; [cbn; by rewrite E1|]. split; [congruence|]. split; [congruence|].
  intros id'. specialize (F' id'). destruct (decide (id' = id)) as [->|Hne].
  - specialize (F1 id). destruct (hb_subs h !! id) as [s|] eqn:Es.
    + rewrite decide_True in F1 by (by left). rewrite decide_True by (by left).
      destruct F1 as (c & stays & c' & Ec & Ed & Es1 & Ec1). exists c, stays, c'.
      split; [done|]. split; [done|]. rewrite Es1, Ec1 in F'. destruct stays; [|done].
      by rewrite decide_False in F'.
    + destruct F1 as [Es1 Ec1]. by rewrite Es1, Ec1 in F'.
  - destruct (Same id' Hne) as [Esub Ech]. rewrite Esub, Ech in F'.
    destruct (hb_subs h !! id') as [s|]; [|done].
    destruct (decide (id' ∈ order)).
    + rewrite decide_True; [done|by right].
    + rewrite decide_False; [done|]. intros [?|?]%elem_of_cons; done.
Qed.

Lemma inv_deliverable w r order : hub_inv w -> deliverable r order (w_hub w).
Proof.
  intros [Hb Hs Hl] id s _ Es. destruct (Hs id s Es) as (g & Eg & Ee & Hok).
  destruct (Hl id g Eg) as (_ & c & Ec & Hinv). exists c. split; [done|].
  rewrite bool_decide_true in Hinv by (rewrite Es; by eexists).
  destruct (deliver_inv r s c g _ Ee Hok Hinv) as (stays & c' & -> & _). by eexists.
Qed.

Lemma publish_inv h g order r h' :
  order ≡ₚ elements (dom (hb_subs h)) -> Publish order r h = Some h' ->
  hub_inv (mkWorld h g) -> hub_inv (mkWorld h' (log_publish r <$> g)).
Proof.
  intros Ho E Hinv. pose proof (inv_deliverable _ r order Hinv) as Hd.
  assert (Hnd : NoDup order) by (rewrite Ho; apply NoDup_elements).
  assert (Hin : forall id s, hb_subs h !! id = Some s -> id ∈ order).
  { intros id s Es. rewrite Ho, elem_of_elements, elem_of_dom. by eexists. }
  destruct (Publish_published r order h Hnd Hd) as (h1 & E1 & En & Eb & F).
  rewrite E in E1. injection E1 as <-. destruct Hinv as [Hb Hs Hl]. cbn [w_hub w_log] in *.
  split; cbn [w_hub w_log].
  - by rewrite Eb.
  - intros id s Es'. specialize (F id). destruct (hb_subs h !! id) as [s0|] eqn:Es.
    + rewrite decide_True in F by eauto. destruct F as (c & stays & c' & _ & _ & Es1 & _).
      rewrite Es1 in Es'. destruct stays; [|done]. injection Es' as ->.
      destruct (Hs id s Es) as (g0 & Eg & Ee & Hok). exists (log_publish r g0).
      by rewrite lookup_fmap, Eg.
    + destruct F as [F _]. congruence.
  - intros id g1. rewrite lookup_fmap. destruct (g !! id) as [g0|] eqn:Eg; [|done].
    intros [= <-]. destruct (Hl id g0 Eg) as (Hlt & c & Ec & Hi). rewrite En, Eb.
    split; [done|]. specialize (F id). destruct (hb_subs h !! id) as [s|] eqn:Es.
    + rewrite decide_True in F by eauto.
      destruct F as (c0 & stays & c' & Ec0 & Ed & Es1 & Ec1). rewrite Ec in Ec0. injection Ec0 as <-.
      destruct (Hs id s Es) as (g0' & Eg' & Ee & Hok). rewrite Eg in Eg'. injection Eg' as <-.
      rewrite bool_decide_true in Hi by (by eexists).
      destruct (deliver_inv r s c g0 _ Ee Hok Hi) as (st' & c'' & Ed' & Hi').
      rewrite Ed in Ed'. injection Ed' as <- <-. exists c'. rewrite Ec1. split; [done|].
      rewrite Es1. by destruct stays.
    + destruct F as [F1 F2]. exists c. rewrite F2. split; [done|].
      rewrite bool_decide_false in Hi |- * by (rewrite ?F1; by intros [? ?]).
      destruct Hi as (Hc & Hl' & Hcl & Hp). split; [done|]. split; [done|]. split; [done|].
      etrans; [exact Hp|]. unfold wanted, log_publish; cbn. rewrite List.filter_app.
      by apply prefix_app_r.
Qed.

Lemma subscribe_inv h g expr h' id :
  expr_ok expr = true -> Subscribe expr h = (h', id) -> hub_inv (mkWorld h g) ->
  hub_inv (mkWorld h' (<[id := mkHistory expr [] []]> g)).
Proof.
  intros Hok [= <- <-] [Hb Hs Hl]. set (id := hb_nextID h) in *. cbn [w_hub w_log] in *.
  split; cbn [w_hub w_log hb_subs hb_nextID hb_bufSize hb_chans]; [done|..].
  - intros id' s. destruct (decide (id' = id)) as [->|Hne].
    + rewrite !lookup_insert_eq. intros [= <-]. by eexists.
    + rewrite !lookup_insert_ne by done. apply Hs.
  - intros id' g0. destruct (decide (id' = id)) as [->|Hne].
    + rewrite !lookup_insert_eq. intros [= <-]. split; [lia|]. eexists. split; [done|].
      rewrite bool_decide_true by (by eexists). repeat split; cbn; lia.
    + rewrite !lookup_insert_ne by done. intros Eg. destruct (Hl id' g0 Eg) as (? & ?).
      split; [lia|done].
Qed.

Lemma close_inv h g id h' :
  Close id h = Some h' -> hub_inv (mkWorld h g) -> hub_inv (mkWorld h' g).
Proof.
  unfold Close. intros E [Hb Hs Hl]. cbn [w_hub w_log] in *.
  destruct (hb_subs h !! id) as [s|] eqn:Es; [|injection E as <-; by split].
  destruct (hb_chans h !! id) as [c|] eqn:Ec; [|done]. cbn in E.
  destruct (ch_closed c) eqn:Eo; [done|]. injection E as <-.
  split; cbn [w_hub w_log hb_subs hb_nextID hb_bufSize hb_chans]; [done|..].
  - intros id' s' [Hne Es']%lookup_delete_Some. eauto.
  - intros id' g0 Eg. destruct (Hl id' g0 Eg) as (Hlt & c' & Ec' & Hi). split; [done|].
    destruct (decide (id' = id)) as [->|Hne].
    + rewrite Ec in Ec'. injection Ec' as <-. rewrite lookup_insert_eq. eexists. split; [done|].
      rewrite bool_decide_true in Hi by (rewrite Es; by eexists).
      rewrite bool_decide_false by (rewrite lookup_delete_eq; by intros [? ?]).
      destruct Hi as (Hcap & Hlen & _ & Ew). split; [done|]. split; [done|]. split; [done|].
      cbn [ch_buf]. by rewrite Ew.
    + rewrite lookup_insert_ne, lookup_delete_ne by done. by exists c'.
Qed.

Lemma recv_inv h g id h' r :
  Recv id h = Some (h', r) -> hub_inv (mkWorld h g) ->
  hub_inv (mkWorld h' (alter (log_receive r) id g)).
Proof.
  unfold Recv. intros E [Hb Hs Hl]. cbn [w_hub w_log] in *.
  destruct (hb_chans h !! id) as [c|] eqn:Ec; [|done].
  destruct (ch_buf c) as [|r' b] eqn:Eb; [done|]. injection E as <- <-.
  split; cbn [w_hub w_log hb_subs hb_nextID hb_bufSize hb_chans]; [done|..].
  - intros id' s Es. destruct (Hs id' s Es) as (g0 & Eg & Ee & Hok).
    destruct (decide (id' = id)) as [->|Hne].
    + exists (log_receive r' g0). by rewrite lookup_alter_eq, Eg.
    + exists g0. by rewrite lookup_alter_ne.
  - intros id' g1 Eg1. destruct (decide (id' = id)) as [->|Hne].
    + rewrite lookup_alter_eq in Eg1. destruct (g !! id) as [g0|] eqn:Eg; [|done].
      injection Eg1 as <-. destruct (Hl id g0 Eg) as (Hlt & c' & Ec' & Hcap & Hlen & Hi).
      rewrite Ec in Ec'. injection Ec' as <-. split; [done|].
      rewrite lookup_insert_eq. eexists. split; [done|]. unfold sub_inv.
      cbn [ch_cap ch_buf ch_closed]. rewrite Eb in Hlen, Hi. cbn in Hlen.
      split; [done|]. split; [lia|].
      assert (Ea : (hs_received (log_receive r' g0) ++ b) = hs_received g0 ++ r' :: b)
        by (cbn; by rewrite <- app_assoc).
      assert (Ew : wanted (log_receive r' g0) = wanted g0) by done.
      rewrite Ea, Ew. exact Hi.
    + rewrite lookup_alter_ne in Eg1 by done. rewrite lookup_insert_ne by done. eauto.
Qed.

Lemma step_inv w w' : step w w' -> hub_inv w -> hub_inv w'.
Proof.
  intros []; [by eapply subscribe_inv|by eapply publish_inv|by eapply close_inv|by eapply recv_inv].
Qed.
Lemma reachable_inv bufSize w : reachable bufSize w -> hub_inv w.
Proof.
  unfold reachable. intros Hr.
  assert (H0 : hub_inv (mkWorld (NewHub bufSize) ∅)).
  { split; cbn; [case_match; lia|..]; intros id; by rewrite lookup_empty. }
  revert H0. induction Hr as [|w1 w2 w3 Hstep _ IH]; [done|]. eauto using step_inv.
Qed.

(** C21: the hub never panics.  Whatever sequence of subscriptions, publications,
    closes and receives came before, publishing a record (ranging over the subscribers
    in any order) and closing any subscription succeed: no send on a closed channel,
    no second close, no comparison without its compiled expression. *)
Theorem hub_never_panics bufSize w r order id :
  reachable bufSize w -> order ≡ₚ elements (dom (hb_subs (w_hub w))) ->
  is_Some (Publish order r (w_hub w)) /\ is_Some (Close id (w_hub w)).
Proof.
  intros Hr%reachable_inv Ho. split.
  - destruct (Publish_published r order (w_hub w)) as (h' & -> & _);
      [rewrite Ho; apply NoDup_elements|by apply inv_deliverable|by eexists].
  - unfold Close. destruct (hb_subs (w_hub w) !! id) as [s|] eqn:Es; [|by eexists].
    destruct (hi_subs _ Hr id s Es) as (g & Eg & _).
    destruct (hi_log _ Hr id g Eg) as (_ & c & Ec & _ & _ & Hi). rewrite Ec. cbn.
    rewrite bool_decide_true in Hi by (rewrite Es; by eexists).
    destruct Hi as [-> _]. by eexists.
Qed.

(** C20: a live tail has no gap, no duplicate and no reordering.  For every
    subscription ever made, what its subscriber has received followed by what its
    channel holds is, while it is registered, exactly the records published since it
    subscribed that its filter selects, in publication order; once it is dropped or
    closed, a prefix of them, and the channel is closed.  The channel never holds more
    than the buffer size. *)
Theorem live_tail_gapless bufSize w id g :
  reachable bufSize w -> w_log w !! id = Some g ->
  exists c, hb_chans (w_hub w) !! id = Some c /\
    (length (ch_buf c) <= Z.to_nat (hb_bufSize (w_hub w)))%nat /\
    match hb_subs (w_hub w) !! id with
    | Some _ => ch_closed c = false /\ hs_received g ++ ch_buf c = wanted g
    | None => ch_closed c = true /\ (hs_received g ++ ch_buf c) `prefix_of` wanted g
    end.
Proof.
  intros Hr%reachable_inv Eg. destruct (hi_log _ Hr id g Eg) as (_ & c & Ec & Hcap & Hlen & Hi).
  exists c. split; [done|]. split; [done|].
  destruct (hb_subs (w_hub w) !! id); [by rewrite bool_decide_true in Hi by (by eexists)|].
  by rewrite bool_decide_false in Hi by (by intros [? ?]).
Qed.

(** The order in which a publication visits the subscribers does not matter: any
    two orders of the same subscribers leave the same hub. *)
Theorem publish_order_irrelevant bufSize w r o1 o2 :
  reachable bufSize w -> o1 ≡ₚ elements (dom (hb_subs (w_hub w))) -> o1 ≡ₚ o2 ->
  Publish o1 r (w_hub w) = Publish o2 r (w_hub w).
Proof.
  intros Hr%reachable_inv Ho Ho2.
  assert (Hnd : NoDup o1) by (rewrite Ho; apply NoDup_elements).
  destruct (Publish_published r o1 (w_hub w) Hnd) as (h1 & -> & En1 & Eb1 & F1);
    [by apply inv_deliverable|].
  destruct (Publish_published r o2 (w_hub w)) as (h2 & -> & En2 & Eb2 & F2);
    [by rewrite <- Ho2|by apply inv_deliverable|].
  assert (Same : forall id, hb_subs h1 !! id = hb_subs h2 !! id /\ hb_chans h1 !! id = hb_chans h2 !! id).
  { intros id. specialize (F1 id). specialize (F2 id).
    destruct (hb_subs (w_hub w) !! id) as [s|]; [|destruct F1, F2; split; congruence].
    destruct (decide (id ∈ o1)) as [Hin|Hin]; [rewrite decide_True in F2 by (by rewrite <- Ho2)
      |rewrite decide_False in F2 by (by rewrite <- Ho2); destruct F1, F2; split; congruence].
    destruct F1 as (c & st & c' & Ec & Ed & -> & ->), F2 as (d & st2 & d' & Ec2 & Ed2 & -> & ->).
    rewrite Ec in Ec2. injection Ec2 as <-. rewrite Ed in Ed2. by injection Ed2 as <- <-. }
  f_equal. destruct h1 as [s1 n1 b1 c1], h2 as [s2 n2 b2 c2]. cbn in *. f_equal; try congruence.
  - apply map_eq. intros id. apply Same.
  - apply map_eq. intros id. apply Same.
Qed.

End Hub.

Module Witness.
Local Existing Instance literal_regexp.

Definition rec (ns : string) : LogRecord :=
  mkRecord (mkSource "n" "/p" 1 2 3) 10 5 ns "web" "app" "n" "" "stdout" ∅ ∅ "m" ∅.

(** One subscriber with a buffer of one record, to which two are published. *)
Definition h1 : Hub := fst (Subscribe None (NewHub 1)).
Definition h2 : Hub := default h1 (Publish [0] (rec "a") h1).
Definition w2 : world := mkWorld h2 (<[0 := mkHistory None [rec "a"] []]> ∅).

Lemma reach : reachable 1 w2.
Proof.
  eapply rtc_l; [apply (step_subscribe (NewHub 1) ∅ None h1 0); reflexivity|].
  eapply rtc_l; [apply (step_publish h1 _ [0] (rec "a") h2); [reflexivity|vm_compute; reflexivity]|].
  vm_compute. apply rtc_refl.
Qed.

Lemma hub_never_panics_witness :
  is_Some (Publish [0] (rec "b") h2) /\ is_Some (Close 0 h2).
Proof. apply (hub_never_panics 1 w2 (rec "b") [0] 0); [apply reach|reflexivity]. Defined.

Lemma live_tail_gapless_witness :
  exists c, hb_chans h2 !! 0 = Some c /\ (length (ch_buf c) <= 1)%nat /\
    (ch_closed c = false /\ [] ++ ch_buf c = [rec "a"]).
Proof. exact (live_tail_gapless 1 w2 0 (mkHistory None [rec "a"] []) reach eq_refl). Defined.

Lemma publish_order_irrelevant_witness : Publish [0] (rec "b") h2 = Publish [0] (rec "b") h2.
Proof. apply (publish_order_irrelevant 1 w2 (rec "b") [0] [0]); [apply reach|reflexivity|reflexivity]. Defined.

End Witness.
