(* ===== verification/Cache.v ===== *)
(** internal/store/cache.go: the size-capped LRU of segment files.  Every method holds
    the cache's mutex for its whole body. *)

From S2P Require Import Prelude GoStrings.
Local Open Scope Z_scope.

(** [cacheItem] *)
Record cacheItem := mkItem { ci_id : string; ci_path : string; ci_size : Z }.

(** [diskCache], with the set of files on the disk: [dc_ll] is the list (front = most
    recently used), [dc_items] the keys of the map from ids to list elements. *)
Record diskCache := mkCache {
  dc_dir : string; dc_maxByte : Z;
  dc_ll : list cacheItem; dc_items : gset string; dc_curByt : Z;
  dc_files : gset string
}.

Definition newDiskCache (dir : string) (maxBytes : Z) (files : gset string) : diskCache :=
  mkCache dir maxBytes [] ∅ 0 files.

(** [diskCache.pathFor]; [dir] is a clean path and [id] a single element. *)
Definition pathFor (c : diskCache) (id : string) : string :=
  dc_dir c +:+ "/" +:+ id +:+ ".seg".

(** The element of an id, and the list without it. *)
Definition is_item (id : string) (it : cacheItem) : bool := String.eqb (ci_id it) id.
Definition find_item (id : string) (ll : list cacheItem) : option cacheItem :=
  List.find (is_item id) ll.
Definition drop_item (id : string) (ll : list cacheItem) : list cacheItem :=
  List.filter (fun it => negb (is_item id it)) ll.

(** [diskCache.addLocked] *)
Definition addLocked (id : string) (size : Z) (c : diskCache) : diskCache :=
  match (if decide (id ∈ dc_items c) then find_item id (dc_ll c) else None) with
  | Some it =>
      mkCache (dc_dir c) (dc_maxByte c)
        (mkItem id (ci_path it) size :: drop_item id (dc_ll c)) (dc_items c)
        (int64 (dc_curByt c + (size - ci_size it))) (dc_files c)
  | None =>
      mkCache (dc_dir c) (dc_maxByte c)
        (mkItem id (pathFor c id) size :: dc_ll c) ({[id]} ∪ dc_items c)
        (int64 (dc_curByt c + size)) (dc_files c)
  end.

(** One turn of [evictLocked]'s loop, and the loop; it ends because the list shrinks. *)
Definition evict_back (c : diskCache) : option diskCache :=
  if dc_maxByte c <? dc_curByt c then
    match last (dc_ll c) with
    | None => None
    | Some it =>
        Some (mkCache (dc_dir c) (dc_maxByte c) (removelast (dc_ll c))
                (dc_items c ∖ {[ci_id it]}) (int64 (dc_curByt c - ci_size it))
                (dc_files c ∖ {[ci_path it]}))
    end
  else None.
Fixpoint evict_loop (fuel : nat) (c : diskCache) : diskCache :=
  match fuel with
  | O => c
  | S fuel' => match evict_back c with None => c | Some c' => evict_loop fuel' c' end
  end.
Definition evictLocked (c : diskCache) : diskCache := evict_loop (length (dc_ll c)) c.

(** [diskCache.admit] *)
Definition admit_ (id : string) (size : Z) (c : diskCache) : diskCache :=
  evictLocked (addLocked id size c).

(** [diskCache.touch] *)
Definition touch (id : string) (c : diskCache) : diskCache * option string :=
  match (if decide (id ∈ dc_items c) then find_item id (dc_ll c) else None) with
  | None => (c, None)
  | Some it =>
      (mkCache (dc_dir c) (dc_maxByte c) (it :: drop_item id (dc_ll c)) (dc_items c)
         (dc_curByt c) (dc_files c), Some (ci_path it))
  end.

(** [diskCache.remove] *)
Definition remove (id : string) (c : diskCache) : diskCache :=
  let c' :=
    match (if decide (id ∈ dc_items c) then find_item id (dc_ll c) else None) with
    | None => c
    | Some it =>
        mkCache (dc_dir c) (dc_maxByte c) (drop_item id (dc_ll c)) (dc_items c ∖ {[id]})
          (int64 (dc_curByt c - ci_size it)) (dc_files c)
    end in
  mkCache (dc_dir c') (dc_maxByte c') (dc_ll c') (dc_items c') (dc_curByt c')
    (dc_files c' ∖ {[pathFor c id]}).

(** ** The invariant *)

Definition sizes (ll : list cacheItem) : Z := foldr Z.add 0 (ci_size <$> ll).

(** The map and the list hold the same ids, each once; an item's path is the path of
    its id; the byte count is the sum of the sizes. *)
Record cache_inv (c : diskCache) : Prop := {
  inv_items : dc_items c = list_to_set (ci_id <$> dc_ll c);
  inv_nodup : NoDup (ci_id <$> dc_ll c);
  inv_paths : Forall (fun it => ci_path it = pathFor c (ci_id it)) (dc_ll c);
  inv_bytes : dc_curByt c = int64 (sizes (dc_ll c))
}.

Lemma is_item_spec id it : is_item id it = true <-> ci_id it = id.
Proof. apply String.eqb_eq. Qed.

Lemma find_item_some id ll it :
  find_item id ll = Some it -> it ∈ ll /\ ci_id it = id.
Proof. intros [Hin Hid%is_item_spec]%find_some. by rewrite list_elem_of_In. Qed.
Lemma find_item_none id ll : find_item id ll = None -> id ∉ ci_id <$> ll.
Proof.
  intros Hn (it & -> & Hit)%list_elem_of_fmap.
  eapply find_none in Hn; [|by apply list_elem_of_In]. unfold is_item in Hn.
  by rewrite String.eqb_refl in Hn.
Qed.

Lemma elem_of_drop_item id ll it : it ∈ drop_item id ll <-> it ∈ ll /\ ci_id it <> id.
Proof.
  unfold drop_item. rewrite list_elem_of_In, filter_In, <- list_elem_of_In.
  rewrite negb_true_iff. unfold is_item. by rewrite String.eqb_neq.
Qed.
Lemma drop_item_notin id ll : id ∉ ci_id <$> ll -> drop_item id ll = ll.
Proof.
  induction ll as [|it ll IH]; [done|]. rewrite fmap_cons, not_elem_of_cons.
  intros [Hne Hn]. cbn. unfold is_item at 1.
  rewrite (proj2 (String.eqb_neq (ci_id it) id)) by congruence. cbn [negb].
  f_equal. by apply IH.
Qed.

(** Taking an item out of the list. *)
Lemma drop_item_perm id ll it :
  NoDup (ci_id <$> ll) -> find_item id ll = Some it -> ll ≡ₚ it :: drop_item id ll.
Proof.
  induction ll as [|x ll IH]; intros Hnd Hf; [done|]. cbn in Hf |- *.
  rewrite fmap_cons in Hnd. apply NoDup_cons in Hnd as [Hx Hnd].
  destruct (is_item id x) eqn:E; cbn.
  - injection Hf as ->. apply is_item_spec in E. rewrite E in Hx.
    pose proof (drop_item_notin id ll Hx) as D. unfold drop_item in D. by rewrite D.
  - rewrite (IH Hnd Hf) at 1. apply Permutation_swap.
Qed.

Lemma sizes_perm l l' : l ≡ₚ l' -> sizes l = sizes l'.
Proof. unfold sizes. induction 1; cbn; lia. Qed.

#[export] Hint Resolve inv_items inv_nodup inv_paths inv_bytes : core.

(** The state the three lookups share. *)
Lemma lookup_item c id :
  cache_inv c ->
  match (if decide (id ∈ dc_items c) then find_item id (dc_ll c) else None) with
  | Some it => ci_id it = id /\ dc_ll c ≡ₚ it :: drop_item id (dc_ll c)
  | None => id ∉ ci_id <$> dc_ll c
  end.
Proof.
  intros [Hi Hnd _ _]. case_decide as Hin; rewrite Hi, elem_of_list_to_set in Hin.
  - destruct (find_item id (dc_ll c)) as [it|] eqn:E; [|by apply find_item_none].
    split; [by apply find_item_some in E as [_ ?]|by apply drop_item_perm].
  - done.
Qed.

(** Replacing the list by one with the same ids, up to order. *)
Lemma inv_relist c c' ll :
  cache_inv c -> (ci_id <$> ll) ≡ₚ (ci_id <$> dc_ll c) ->
  Forall (fun it => ci_path it = pathFor c (ci_id it)) ll ->
  dc_dir c' = dc_dir c -> dc_ll c' = ll -> dc_items c' = dc_items c ->
  dc_curByt c' = int64 (sizes ll) -> cache_inv c'.
Proof.
  intros [Hi Hnd Hp _] Hperm Hpaths Ed <- Ei Eb.
  split; rewrite ?Ei, ?Hi; [|by rewrite Hperm| |done].
  - apply leibniz_equiv. intros x. rewrite !elem_of_list_to_set. by rewrite Hperm.
  - unfold pathFor in *. by rewrite Ed.
Qed.

Lemma addLocked_inv id size c : cache_inv c -> cache_inv (addLocked id size c).
Proof.
  intros Hc. pose proof (lookup_item c id Hc) as L. unfold addLocked.
  destruct (if decide _ then _ else _) as [it|].
  - destruct L as [Hid Hp]. pose proof (inv_paths _ Hc) as Hpaths. rewrite Hp in Hpaths.
    apply Forall_cons in Hpaths as [Hit Hrest].
    eapply inv_relist; [exact Hc| | |done|done|done|]; cbn [dc_ll dc_curByt].
    + rewrite Hp at 2. cbn. by rewrite Hid.
    + constructor; [cbn; by rewrite Hit, Hid|done].
    + rewrite (inv_bytes _ Hc), (sizes_perm _ _ Hp). unfold sizes; cbn. width.
  - destruct Hc as [Hi Hnd Hp Hb]. split; cbn.
    + by rewrite Hi.
    + by constructor.
    + by constructor.
    + rewrite Hb. unfold sizes; cbn. width.
Qed.

Lemma touch_inv id c : cache_inv c -> cache_inv (fst (touch id c)).
Proof.
  intros Hc. pose proof (lookup_item c id Hc) as L. unfold touch.
  destruct (if decide _ then _ else _) as [it|]; [|done]. destruct L as [_ Hp].
  eapply inv_relist; [exact Hc| | |done|done|done|]; cbn [dc_ll dc_curByt fst].
  - by rewrite <- Hp.
  - rewrite <- Hp. by apply inv_paths.
  - rewrite (inv_bytes _ Hc). by rewrite (sizes_perm _ _ Hp).
Qed.

Lemma evict_back_inv c c' :
  cache_inv c -> evict_back c = Some c' ->
  cache_inv c' /\ exists it, dc_ll c = dc_ll c' ++ [it].
Proof.
  intros [Hi Hnd Hp Hb] E. unfold evict_back in E. destruct (_ <? _); [|done].
  destruct (last (dc_ll c)) as [it|] eqn:El; [|done]. injection E as <-.
  apply last_Some in El as [ll El]. rewrite El in *. rewrite removelast_last.
  rewrite fmap_app in Hnd. apply NoDup_app in Hnd as (Hnd & Hdis & _).
  apply Forall_app in Hp as [Hp _]. split; [|by exists it]. split; cbn; try done.
  - rewrite Hi, fmap_app, list_to_set_app_L. cbn. apply leibniz_equiv. intros x.
    rewrite elem_of_difference, !elem_of_union, elem_of_singleton, elem_of_empty,
      elem_of_list_to_set.
    split; [tauto|]. intros Hx. split; [by left|]. intros ->. apply (Hdis _ Hx). by left.
  - rewrite Hb. unfold sizes. rewrite fmap_app, foldr_app. cbn.
    assert (Ef : forall l z, foldr Z.add z l = foldr Z.add 0 l + z) by (induction l; intros; cbn; [|rewrite IHl]; lia).
    rewrite Ef. width.
Qed.

Lemma evict_loop_inv fuel c : cache_inv c -> cache_inv (evict_loop fuel c).
Proof.
  revert c; induction fuel as [|fuel IH]; intros c Hc; [done|]. cbn.
  destruct (evict_back c) as [c'|] eqn:E; [|done]. by apply IH, (evict_back_inv c).
Qed.

Lemma remove_inv id c : cache_inv c -> cache_inv (remove id c).
Proof.
  intros Hc. pose proof (lookup_item c id Hc) as L. unfold remove.
  destruct (if decide _ then _ else _) as [it|].
  - destruct L as [Hid Hp]. destruct Hc as [Hi Hnd Hpaths Hb].
    remember (drop_item id (dc_ll c)) as d eqn:Ed. clear Ed.
    assert (Hnd' : NoDup (ci_id <$> it :: d)) by (by rewrite <- Hp).
    rewrite fmap_cons, NoDup_cons in Hnd'. destruct Hnd' as [Hni Hnd'].
    split; cbn.
    + rewrite Hi. apply leibniz_equiv. intros x.
      rewrite elem_of_difference, !elem_of_list_to_set, elem_of_singleton, Hp, fmap_cons, elem_of_cons.
      rewrite Hid in *. split; [tauto|]. intros Hx. split; [by right|]. by intros ->.
    + done.
    + rewrite Hp in Hpaths. by apply Forall_cons in Hpaths as [_ ?].
    + rewrite Hb, (sizes_perm _ _ Hp). unfold sizes; cbn. width.
  - destruct Hc. by split.
Qed.

(** ** Capacity and recency *)

(** Eviction keeps the longest prefix of the recency list it needs to. *)
Lemma evict_loop_spec fuel c :
  cache_inv c -> (length (dc_ll c) <= fuel)%nat ->
  let c' := evict_loop fuel c in
  dc_maxByte c' = dc_maxByte c /\
  (dc_ll c' = [] \/ dc_curByt c' <= dc_maxByte c') /\
  exists gone, dc_ll c = dc_ll c' ++ gone /\
    (forall it gone', gone = it :: gone' ->
       dc_maxByte c < int64 (sizes (dc_ll c' ++ [it]))).
Proof.
  revert c; induction fuel as [|fuel IH]; intros c Hc Hf; cbn.
  - split; [done|]. destruct (dc_ll c); [|cbn in Hf; lia]. split; [by left|]. by exists [].
  - destruct (evict_back c) as [c'|] eqn:E.
    + destruct (evict_back_inv c c' Hc E) as [Hc' [it Eit]].
      assert (Hm : dc_maxByte c' = dc_maxByte c /\ dc_maxByte c < dc_curByt c).
      { unfold evict_back in E. destruct (Z.ltb_spec (dc_maxByte c) (dc_curByt c)); [|done].
        destruct (last _); [|done]. by injection E as <-. }
      destruct Hm as [Hm Hover]. rewrite Eit, length_app in Hf. cbn in Hf.
      destruct (IH c' Hc') as (Hmax & Hfit & gone & Eg & Hmin); [lia|].
      split; [congruence|]. split; [done|]. exists (gone ++ [it]).
      split; [by rewrite app_assoc, <- Eg|]. intros x gone' Ex. rewrite Hm in Hmin.
      destruct gone as [|y gone]; cbn in Ex; injection Ex as <- <-; [|by eapply Hmin].
      rewrite app_nil_r in Eg. by rewrite <- Eg, <- Eit, <- (inv_bytes _ Hc).
    + split; [done|]. split; [|by exists []; rewrite app_nil_r].
      unfold evict_back in E. destruct (Z.ltb_spec (dc_maxByte c) (dc_curByt c)); [|by right].
      destruct (last (dc_ll c)) eqn:El; [done|]. left. by apply last_None.
Qed.

(** The operations, and the caches they can lead to from an empty one. *)
Inductive cache_step : diskCache -> diskCache -> Prop :=
| step_admit c id size : cache_step c (admit_ id size c)
| step_touch c id : cache_step c (fst (touch id c))
| step_remove c id : cache_step c (remove id c).

Lemma cache_step_inv c c' : cache_step c c' -> cache_inv c -> cache_inv c'.
Proof.
  intros []; [|by apply touch_inv|by apply remove_inv].
  intros Hc. by apply evict_loop_inv, addLocked_inv.
Qed.

Lemma evict_back_files c c' it :
  evict_back c = Some c' -> dc_ll c = dc_ll c' ++ [it] ->
  dc_files c' = dc_files c ∖ {[ci_path it]}.
Proof.
  unfold evict_back. destruct (_ <? _); [|done].
  destruct (last (dc_ll c)) as [x|] eqn:El; [|done]. intros [= <-] E. cbn.
  rewrite E, last_snoc in El. by injection El as ->.
Qed.

(** The files of the evicted entries are gone. *)
Lemma evict_loop_files fuel c :
  cache_inv c -> let c' := evict_loop fuel c in
  dc_files c' ⊆ dc_files c /\
  exists gone, dc_ll c = dc_ll c' ++ gone /\
    forall p, p ∈ dc_files c' <-> p ∈ dc_files c /\ p ∉ ci_path <$> gone.
Proof.
  revert c; induction fuel as [|fuel IH]; intros c Hc; cbn.
  { split; [done|]. exists []. rewrite app_nil_r. split; [done|]. set_solver. }
  destruct (evict_back c) as [c'|] eqn:E; cycle 1.
  { split; [done|]. exists []. rewrite app_nil_r. split; [done|]. set_solver. }
  destruct (evict_back_inv c c' Hc E) as [Hc' [it Eit]].
  pose proof (evict_back_files c c' it E Eit) as Ef.
  destruct (IH c' Hc') as (Hsub & gone & Eg & Hgone).
  split; [set_solver|]. exists (gone ++ [it]). split; [by rewrite app_assoc, <- Eg|].
  intros p. rewrite Hgone, Ef, fmap_app, not_elem_of_app, elem_of_difference, elem_of_singleton.
  cbn. rewrite list_elem_of_singleton. tauto.
Qed.

(** ** What an admission does *)

Lemma addLocked_list id size c : cache_inv c -> let c0 := addLocked id size c in
  dc_ll c0 = mkItem id (pathFor c id) size :: drop_item id (dc_ll c) /\
  dc_maxByte c0 = dc_maxByte c /\ dc_files c0 = dc_files c.
Proof.
  intros Hc. pose proof (lookup_item c id Hc) as L. unfold addLocked.
  destruct (if decide _ then _ else _) as [it|]; cbn [dc_ll dc_maxByte dc_files].
  - destruct L as [Hid Hp]. pose proof (inv_paths _ Hc) as Hpaths. rewrite Hp in Hpaths.
    apply Forall_cons in Hpaths as [-> _]. by rewrite Hid.
  - by rewrite drop_item_notin.
Qed.

(** The capacity is respected and only what must go goes, least recently used first, with
    its file: what remains is a prefix of the recency list with the admitted segment in
    front, and one more entry would exceed the capacity. *)
Lemma admit_lru id size c : cache_inv c -> let c' := admit_ id size c in
  dc_maxByte c' = dc_maxByte c /\ dc_curByt c' <= Z.max 0 (dc_maxByte c) /\
  exists gone, mkItem id (pathFor c id) size :: drop_item id (dc_ll c) = dc_ll c' ++ gone /\
    (forall it gone', gone = it :: gone' -> dc_maxByte c < int64 (sizes (dc_ll c' ++ [it]))) /\
    (forall p, p ∈ dc_files c' <-> p ∈ dc_files c /\ p ∉ ci_path <$> gone).
Proof.
  intros Hc c'. destruct (addLocked_list id size c Hc) as (El & Em & Ef).
  pose proof (addLocked_inv id size c Hc) as Hc0. set (c0 := addLocked id size c) in *.
  destruct (evict_loop_spec (length (dc_ll c0)) c0 Hc0) as (Hmax & Hfit & gone & Eg & Hmin); [done|].
  destruct (evict_loop_files (length (dc_ll c0)) c0 Hc0) as (_ & gone' & Eg' & Hfiles).
  change (evict_loop (length (dc_ll c0)) c0) with c' in *.
  assert (gone' = gone) as -> by (rewrite Eg in Eg'; by apply app_inv_head in Eg').
  rewrite Hmax, Em in *. rewrite Ef in Hfiles. split; [done|]. split; [|exists gone; by rewrite <- El].
  destruct Hfit as [E0|]; [|lia]. pose proof (inv_bytes c' (evict_loop_inv _ _ Hc0)) as Hb.
  rewrite E0 in Hb. change (int64 (sizes [])) with 0 in Hb. lia.
Qed.

Lemma cache_step_cap c c' : cache_step c c' -> cache_inv c -> dc_maxByte c' = dc_maxByte c.
Proof.
  intros [c1 id size|c1 id|c1 id] Hc.
  - by apply admit_lru.
  - unfold touch. by destruct (if decide _ then _ else _).
  - unfold remove. by destruct (if decide _ then _ else _).
Qed.

(** C36: the cache is a consistent LRU in every reachable state.  The map and the recency
    list hold the same ids, each once, each with its own path, and [curByt] is the sum of
    the sizes.  Whatever is admitted next, the bytes are then within the capacity: the
    entries left are the longest prefix that fits of the recency list with the admitted
    segment in front (one entry more would exceed the capacity), and of the files exactly
    those of the evicted entries are gone. *)
Theorem cache_consistent dir maxBytes files c :
  rtc cache_step (newDiskCache dir maxBytes files) c ->
  cache_inv c /\
  forall id size, let c' := admit_ id size c in
    dc_curByt c' <= Z.max 0 maxBytes /\
    exists gone, mkItem id (pathFor c id) size :: drop_item id (dc_ll c) = dc_ll c' ++ gone /\
      (forall it gone', gone = it :: gone' -> maxBytes < int64 (sizes (dc_ll c' ++ [it]))) /\
      (forall p, p ∈ dc_files c' <-> p ∈ dc_files c /\ p ∉ ci_path <$> gone).
Proof.
  intros Hr. assert (H0 : cache_inv c /\ dc_maxByte c = maxBytes).
  { change maxBytes with (dc_maxByte (newDiskCache dir maxBytes files)).
    assert (H0 : cache_inv (newDiskCache dir maxBytes files)) by (split; cbn; [done|constructor|constructor|done]).
    revert H0. induction Hr as [|c1 c2 c3 Hs _ IH]; [done|]. intros H1.
    rewrite <- (cache_step_cap _ _ Hs H1). eauto using cache_step_inv. }
  destruct H0 as [Hc <-]. split; [done|]. intros id size. apply (admit_lru id size c Hc).
Qed.

Lemma sizes_prefix l l' :
  Forall (fun it => 0 <= ci_size it) (l ++ l') -> 0 <= sizes l <= sizes (l ++ l').
Proof.
  unfold sizes. induction l as [|a l IH]; intros H; cbn in *.
  - split; [done|]. induction H; cbn; lia.
  - apply Forall_cons in H as [Ha H]. specialize (IH H). lia.
Qed.

Lemma admit_oversized id size c :
  cache_inv c -> 0 <= dc_maxByte c < size -> size + sizes (dc_ll c) < 2 ^ 63 ->
  Forall (fun it => 0 <= ci_size it) (dc_ll c) -> id ∉ ci_id <$> dc_ll c ->
  dc_ll (admit_ id size c) = [] /\ pathFor c id ∉ dc_files (admit_ id size c).
Proof.
  intros Hc Hsz Hmax Hpos Hid. set (c0 := addLocked id size c).
  assert (E0 : dc_ll c0 = mkItem id (pathFor c id) size :: dc_ll c /\ dc_maxByte c0 = dc_maxByte c).
  { unfold c0, addLocked. pose proof (lookup_item c id Hc) as L.
    destruct (if decide _ then _ else _) as [it|]; [|done]. destruct L as [<- L].
    exfalso. apply Hid. rewrite L. by left. }
  destruct E0 as [E0 Em]. pose proof (addLocked_inv id size c Hc) as Hc0. fold c0 in Hc0.
  unfold admit_, evictLocked. fold c0. set (c' := evict_loop (length (dc_ll c0)) c0).
  destruct (evict_loop_spec (length (dc_ll c0)) c0 Hc0) as (Hm' & Hfit & _); [done|].
  destruct (evict_loop_files (length (dc_ll c0)) c0 Hc0) as (_ & gone & Eg & Hgone).
  fold c' in Hm', Hfit, Eg, Hgone. assert (Hnil : dc_ll c' = []).
  { destruct Hfit as [|Hfit]; [done|]. destruct (dc_ll c') as [|it l] eqn:El; [done|].
    pose proof (inv_bytes c' (evict_loop_inv _ _ Hc0)) as Hb. rewrite El in Hb.
    rewrite E0 in Eg. cbn in Eg. injection Eg as <- Eg. rewrite Eg in Hpos, Hmax.
    pose proof (sizes_prefix _ _ Hpos) as Hp. unfold sizes in Hb, Hp, Hmax; cbn in Hb.
    rewrite int64_id in Hb by (unfold in_int64; lia). lia. }
  split; [done|]. rewrite Hnil, E0 in Eg. cbn in Eg. subst gone.
  rewrite Hgone. intros [_ Hn]. apply Hn. rewrite fmap_cons. by left.
Qed.

(** A segment larger than the capacity is not kept: admitting it empties the cache
    and deletes the file just written, which the caller then fails to open. *)
Theorem oversized_evicted id size c :
  cache_inv c -> 0 <= dc_maxByte c < size -> size + sizes (dc_ll c) < 2 ^ 63 ->
  Forall (fun it => 0 <= ci_size it) (dc_ll c) -> id ∉ ci_id <$> dc_ll c ->
  dc_ll (admit_ id size c) = [] /\ pathFor c id ∉ dc_files (admit_ id size c).
Proof. apply admit_oversized. Qed.

(** A segment within the capacity stays, and so does its file. *)
Lemma admit_keeps id size c :
  cache_inv c -> 0 <= size <= dc_maxByte c -> dc_maxByte c < 2 ^ 63 ->
  pathFor c id ∈ dc_files c ->
  pathFor c id ∈ dc_files (admit_ id size c).
Proof.
  intros Hc Hsz Hmax Hfile. set (c0 := addLocked id size c).
  pose proof (addLocked_inv id size c Hc) as Hc0. fold c0 in Hc0.
  assert (E0 : exists it rest, dc_ll c0 = it :: rest /\ ci_id it = id /\ ci_size it = size /\
            dc_maxByte c0 = dc_maxByte c /\ dc_files c0 = dc_files c /\ dc_dir c0 = dc_dir c).
  { unfold c0, addLocked. destruct (if decide _ then _ else _) as [it|]; by eexists _, _. }
  destruct E0 as (it & tl & E0 & Eid & Esz & Em & Ef & Ed).
  unfold admit_, evictLocked. fold c0. set (c' := evict_loop (length (dc_ll c0)) c0).
  destruct (evict_loop_spec (length (dc_ll c0)) c0 Hc0) as (_ & _ & gone & Eg & Hmin); [done|].
  destruct (evict_loop_files (length (dc_ll c0)) c0 Hc0) as (_ & gone' & Eg' & Hfiles).
  fold c' in Eg, Hmin, Eg', Hfiles. apply Hfiles. rewrite Ef. split; [done|].
  intros (x & Ex & Hx)%list_elem_of_fmap.
  assert (gone' = gone) as ->. { rewrite Eg in Eg'. by apply app_inv_head in Eg'. }
  pose proof (inv_nodup _ Hc0) as Hnd. pose proof (inv_paths _ Hc0) as Hp.
  rewrite Forall_forall in Hp. rewrite (Hp x) in Ex by (rewrite Eg; apply elem_of_app; by right).
  assert (Exid : ci_id x = id).
  { unfold pathFor in Ex. rewrite Ed in Ex. apply (inj (String.append _)) in Ex.
    apply (inj (String.append _)) in Ex. symmetry. by apply suffix_inj in Ex. }
  destruct (dc_ll c') as [|y ll'] eqn:El.
  - cbn in Eg. rewrite E0 in Eg. subst gone. specialize (Hmin it tl eq_refl).
    unfold sizes in Hmin; cbn in Hmin. rewrite Esz, int64_id in Hmin by (unfold in_int64; lia). lia.
  - rewrite Eg in E0. cbn in E0. injection E0 as -> E0. rewrite Eg in Hnd.
    rewrite fmap_app in Hnd. apply NoDup_app in Hnd as (_ & Hdis & _).
    apply (Hdis id); [rewrite fmap_cons, Eid; by left|]. rewrite <- Exid. by apply list_elem_of_fmap_2.
Qed.

Module Witness.

Definition c1 : diskCache := admit_ "a" 10 (newDiskCache "d" 25 ∅).

Lemma c1_inv : cache_inv c1.
Proof. apply evict_loop_inv, addLocked_inv. split; cbn; [done|constructor|constructor|done]. Qed.

Lemma cache_consistent_witness :
  cache_inv c1 /\ dc_curByt (admit_ "b" 20 c1) <= 25 /\
  exists gone, [mkItem "b" (pathFor c1 "b") 20; mkItem "a" (pathFor c1 "a") 10] = dc_ll (admit_ "b" 20 c1) ++ gone.
Proof.
  destruct (cache_consistent "d" 25 ∅ c1) as [Hc Ha]; [eapply rtc_once; apply step_admit|].
  split; [exact Hc|]. destruct (Ha "b" 20) as (Hb & gone & Eg & _). split; [exact Hb|]. exists gone. exact Eg.
Defined.

Lemma oversized_evicted_witness :
  dc_ll (admit_ "b" 30 c1) = [] /\ pathFor c1 "b" ∉ dc_files (admit_ "b" 30 c1).
Proof.
  apply (oversized_evicted "b" 30 c1); [apply c1_inv|vm_compute; split; done|reflexivity| |].
  - vm_compute. repeat constructor. all: done.
  - apply (bool_decide_unpack _). reflexivity.
Defined.

End Witness.
