(* ===== verification/Blobs.v ===== *)
(** internal/store/blobs.go: the object-store interface and its in-memory
    implementation.  What the store layer promises its clients is stated over an
    abstract view, the map from keys to objects. *)

From S2P Require Import Prelude GoStrings.
From Stdlib Require Ascii.
Local Open Scope string_scope.

Inductive blob_error :=
| NotFoundError        (* IsNotFound holds *)
| BlobFailure.         (* any other error *)

Definition IsNotFound (e : blob_error) : bool :=
  match e with NotFoundError => true | BlobFailure => false end.

(** [store.Blobs].  A failed write may or may not have stored the object; reads change
    nothing. *)
Class Blobs (B : Type) := {
  contents : B -> gmap string string;
  blob_Get : string -> stM B blob_error string;
  blob_Put : string -> string -> stM B blob_error unit;
  blob_PutReader : string -> string -> stM B blob_error unit;
  blob_List : string -> stM B blob_error (list string);
  blob_Delete : string -> stM B blob_error unit
}.

Class BlobsLaws (B : Type) `{Blobs B} := {
  get_spec k b b' r : blob_Get k b = (b', r) ->
    contents b' = contents b /\ (forall v, r = Ok v -> contents b !! k = Some v) /\
    (r = Err NotFoundError -> contents b !! k = None);
  put_spec k v b b' r : blob_Put k v b = (b', r) ->
    match r with
    | Ok _ => contents b' = <[k := v]> (contents b)
    | Err _ => contents b' = contents b \/ contents b' = <[k := v]> (contents b)
    end;
  put_reader_spec k v b b' r : blob_PutReader k v b = (b', r) ->
    match r with
    | Ok _ => contents b' = <[k := v]> (contents b)
    | Err _ => contents b' = contents b \/ contents b' = <[k := v]> (contents b)
    end;
  list_spec p b b' r : blob_List p b = (b', r) ->
    contents b' = contents b /\
    (forall ks, r = Ok ks -> forall k, k ∈ ks <-> is_Some (contents b !! k) /\ HasPrefix k p = true);
  delete_spec k b b' r : blob_Delete k b = (b', r) ->
    match r with
    | Ok _ => contents b' = delete k (contents b)
    | Err _ => contents b' = contents b \/ contents b' = delete k (contents b)
    end
}.

(** ** MemBlobs *)

(** [store.MemBlobs]: each method holds the mutex, so each is one step on the map. *)
Abbreviation MemBlobs := (gmap string string) (only parsing).

Definition NewMemBlobs : MemBlobs := ∅.
Definition mem_Get (key : string) : stM MemBlobs blob_error string := fun m =>
  match m !! key with
  | None => (m, Err NotFoundError)
  | Some b => (m, Ok b)
  end.
Definition mem_Put (key data : string) : stM MemBlobs blob_error unit := fun m =>
  (<[key := data]> m, Ok tt).
(** [PutReader] reads all of the reader, here a file already read, and puts it. *)
Definition mem_PutReader (key data : string) : stM MemBlobs blob_error unit :=
  mem_Put key data.
Definition mem_List (prefix : string) : stM MemBlobs blob_error (list string) := fun m =>
  (m, Ok (merge_sort (fun a b => String.leb a b)
           (List.filter (fun k => (slen prefix <=? slen k)%nat && String.eqb (stake (slen prefix) k) prefix)
              (elements (dom m))))).
Definition mem_Delete (key : string) : stM MemBlobs blob_error unit := fun m =>
  (delete key m, Ok tt).

#[export] Instance MemBlobs_Blobs : Blobs (gmap string string) := {
  contents m := m;
  blob_Get := mem_Get; blob_Put := mem_Put; blob_PutReader := mem_PutReader;
  blob_List := mem_List; blob_Delete := mem_Delete
}.

Lemma prefix_stake k p :
  ((slen p <=? slen k)%nat && String.eqb (stake (slen p) k) p) = HasPrefix k p.
Proof.
  unfold HasPrefix. revert k; induction p as [|c p IH]; intros k; [by destruct k|].
  destruct k as [|d k]; [done|]. rewrite !slen_cons. cbn.
  destruct (Ascii.ascii_dec c d) as [->|Hne].
  - rewrite <- IH, Ascii.eqb_refl. done.
  - destruct (Ascii.eqb_spec d c); [by subst|]. by rewrite andb_false_r.
Qed.

(** The in-memory object store meets the contract the store layer relies on: a
    write stores exactly its object, a read returns the stored object or reports that
    there is none, a listing returns exactly the keys with the prefix. *)
Theorem MemBlobs_laws : BlobsLaws (gmap string string).
Proof.
  split; cbn.
  - unfold mem_Get. intros k b b' r E. destruct (b !! k) as [v|] eqn:Eb; injection E as <- <-;
      (split; [done|split; [|done]]); [by intros ? [= ->]|done].
  - by intros k v b b' r [= <- <-].
  - by intros k v b b' r [= <- <-].
  - intros p b b' r [= <- <-]. split; [done|]. intros ks [= <-] k.
    rewrite merge_sort_Permutation, list_elem_of_In, filter_In, <- list_elem_of_In.
    by rewrite prefix_stake, elem_of_elements, elem_of_dom.
  - by intros k b b' r [= <- <-].
Qed.
