(* ===== verification/Catalog.v ===== *)
(** internal/store/catalog.go and sidecar.go: the segment index over a bbolt bucket. *)

From S2P Require Import Prelude GoStrings GoTime Model SegFormat.
From Stdlib Require Import Ascii Sorted.
Local Open Scope string_scope.
Local Open Scope list_scope.
Local Open Scope Z_scope.

(** ** The key-value store *)

(** Byte-wise order of keys. *)
Definition key_lt (a b : string) : Prop := String.compare a b = Lt.

(** bbolt: one bucket of a database file.  [kv_scan] is a cursor's walk from [First];
    a failed transaction changes nothing; a snapshot of a database opens as a database
    with the same entries. *)
Class Bolt (D : Type) := {
  kv_scan : D -> list (string * string);
  kv_put : string -> string -> D -> option D;
  kv_delete : string -> D -> option D;
  kv_snapshot : D -> string;
  kv_open : string -> option D;
  kv_sorted d : StronglySorted key_lt (fst <$> kv_scan d);
  kv_put_scan k v d d' : kv_put k v d = Some d' ->
    forall k' v', (k', v') ∈ kv_scan d' <-> (k' = k /\ v' = v) \/ (k' <> k /\ (k', v') ∈ kv_scan d);
  kv_delete_scan k d d' : kv_delete k d = Some d' ->
    forall k' v', (k', v') ∈ kv_scan d' <-> k' <> k /\ (k', v') ∈ kv_scan d;
  kv_open_snapshot d : exists d', kv_open (kv_snapshot d) = Some d' /\ kv_scan d' = kv_scan d
}.

(** The JSON forms of segment metadata: the catalogue entry, which carries the local
    path beside it, and the sidecar object, which leaves it out. *)
Definition set_LocalPath (p : string) (m : SegmentMeta) : SegmentMeta :=
  mkSegmentMeta (sm_ID m) (sm_S3Key m) (sm_MinTS m) (sm_MaxTS m) (sm_Namespaces m)
    (sm_Pods m) (sm_Nodes m) (sm_Containers m) (sm_LabelKeys m) (sm_FieldKeys m)
    (sm_Blocks m) (sm_SizeBytes m) (sm_RecordCount m) (sm_HasLate m) (sm_SourceOffsets m) p.

Definition set_key (id key : string) (m : SegmentMeta) : SegmentMeta :=
  mkSegmentMeta id key (sm_MinTS m) (sm_MaxTS m) (sm_Namespaces m) (sm_Pods m) (sm_Nodes m)
    (sm_Containers m) (sm_LabelKeys m) (sm_FieldKeys m) (sm_Blocks m) (sm_SizeBytes m)
    (sm_RecordCount m) (sm_HasLate m) (sm_SourceOffsets m) (sm_LocalPath m).

Record catalogEntry := mkEntry { ce_Meta : SegmentMeta; ce_LocalPath : string }.

(** [text_ok]: valid UTF-8; [meta_ok]: metadata JSON represents faithfully.  Whatever
    decodes is such metadata, also when it is filed under another id and key. *)
Class MetaCodec := {
  text_ok : string -> Prop;
  meta_ok : SegmentMeta -> Prop;
  MarshalEntry : catalogEntry -> option string;
  UnmarshalEntry : string -> option catalogEntry;
  marshalSidecar : SegmentMeta -> option string;
  unmarshalSidecar : string -> option SegmentMeta;
  entry_roundtrip m s : meta_ok m -> MarshalEntry (mkEntry m (sm_LocalPath m)) = Some s ->
    UnmarshalEntry s = Some (mkEntry (set_LocalPath "" m) (sm_LocalPath m));
  sidecar_roundtrip m s : meta_ok m -> marshalSidecar m = Some s ->
    unmarshalSidecar s = Some (set_LocalPath "" m);
  sidecar_decoded s m id key : unmarshalSidecar s = Some m -> text_ok id -> text_ok key ->
    meta_ok (set_LocalPath "" (set_key id key m));
  entry_decoded s e : UnmarshalEntry s = Some e -> meta_ok (set_LocalPath "" (ce_Meta e))
}.

(** ** Operations *)

Inductive cat_error := CatDB | CatMarshal | CatUnmarshal.

(** [segKey] *)
Definition segKey (minTS : Time) (id : string) : string :=
  be_put 8 (uint64 (UnixNano minTS)) +:+ id.

Section Catalog.
Context {D : Type} `{Bolt D, MetaCodec}.

(** [catalog.put] *)
Definition cat_put (m : SegmentMeta) : stM D cat_error unit := fun d =>
  match MarshalEntry (mkEntry m (sm_LocalPath m)) with
  | None => (d, Err CatMarshal)
  | Some buf =>
      match kv_put (segKey (sm_MinTS m) (sm_ID m)) buf d with
      | None => (d, Err CatDB)
      | Some d' => (d', Ok tt)
      end
  end.

(** [catalog.delete] *)
Definition cat_delete (m : SegmentMeta) : stM D cat_error unit := fun d =>
  match kv_delete (segKey (sm_MinTS m) (sm_ID m)) d with
  | None => (d, Err CatDB)
  | Some d' => (d', Ok tt)
  end.

(** [catalog.has] *)
Fixpoint has_scan (id : string) (found : bool) (es : list (string * string)) : result cat_error bool :=
  match es with
  | [] => Ok found
  | (_, v) :: es' =>
      match UnmarshalEntry v with
      | None => Err CatUnmarshal
      | Some e => has_scan id (if String.eqb (sm_ID (ce_Meta e)) id then true else found) es'
      end
  end.
Definition cat_has (id : string) (d : D) : result cat_error bool := has_scan id false (kv_scan d).

(** [catalog.overlapping] *)
Fixpoint overlapping_scan (start end_ : Time) (es : list (string * string)) :
    result cat_error (list SegmentMeta) :=
  match es with
  | [] => Ok []
  | (_, v) :: es' =>
      match UnmarshalEntry v with
      | None => Err CatUnmarshal
      | Some e =>
          let m := set_LocalPath (ce_LocalPath e) (ce_Meta e) in
          ms ← overlapping_scan start end_ es';
          Ok (if SegmentOverlaps m start end_ then m :: ms else ms)
      end
  end.
Definition cat_overlapping (start end_ : Time) (d : D) : result cat_error (list SegmentMeta) :=
  overlapping_scan start end_ (kv_scan d).
(** [catalog.all] *)
Definition cat_all (d : D) : result cat_error (list SegmentMeta) :=
  cat_overlapping zeroTime zeroTime d.

(** ** The catalogue as a list of segments *)

(** Entry [e] decodes to segment [m] and is filed under its key. *)
Definition entry_of (e : string * string) (m : SegmentMeta) : Prop :=
  exists c, UnmarshalEntry (snd e) = Some c /\ m = set_LocalPath (ce_LocalPath c) (ce_Meta c) /\
    fst e = segKey (sm_MinTS m) (sm_ID m).
(** The bucket holds exactly the segments [ms], in key order. *)
Definition cat_rep (d : D) (ms : list SegmentMeta) : Prop := Forall2 entry_of (kv_scan d) ms.

Lemma overlapping_scan_rep start end_ es ms :
  Forall2 entry_of es ms ->
  overlapping_scan start end_ es = Ok (List.filter (fun m => SegmentOverlaps m start end_) ms).
Proof.
  induction 1 as [|[k v] m es ms (c & Ec & -> & _) _ IH]; [done|].
  cbn in *. rewrite Ec, IH. done.
Qed.
Lemma has_scan_rep id b es ms :
  Forall2 entry_of es ms ->
  has_scan id b es = Ok (b || existsb (fun m => String.eqb (sm_ID m) id) ms).
Proof.
  intros Hr. revert b. induction Hr as [|[k v] m es ms (c & Ec & -> & _) _ IH]; intros b; cbn in *.
  - by rewrite orb_false_r.
  - rewrite Ec, IH. cbn. destruct (String.eqb _ id); by rewrite ?orb_true_r, ?orb_false_r.
Qed.
Lemma overlaps_always m : SegmentOverlaps m zeroTime zeroTime = true.
Proof. done. Qed.
Lemma cat_all_rep d ms : cat_rep d ms -> cat_all d = Ok ms.
Proof.
  intros Hr. unfold cat_all, cat_overlapping. rewrite (overlapping_scan_rep _ _ _ _ Hr). f_equal.
  clear Hr. induction ms as [|m ms IH]; [done|]. cbn. by rewrite IH.
Qed.

(** Every entry decodes: what lists of segments the bucket can hold. *)
Definition cat_wf (d : D) : Prop := exists ms, cat_rep d ms.

Lemma Forall2_exists_elem (es : list (string * string)) ms :
  Forall2 entry_of es ms -> (forall e, e ∈ es -> exists m, entry_of e m /\ m ∈ ms) /\
  (forall m, m ∈ ms -> exists e, entry_of e m /\ e ∈ es).
Proof.
  induction 1 as [|e m es ms He _ [IH1 IH2]]; [split; intros ? Hx; by apply elem_of_nil in Hx|].
  split; intros x [->|Hx]%elem_of_cons.
  - exists m. split; [done|by left].
  - destruct (IH1 x Hx) as (y & ? & ?). exists y. split; [done|by right].
  - exists e. split; [done|by left].
  - destruct (IH2 x Hx) as (y & ? & ?). exists y. split; [done|by right].
Qed.
Lemma wf_of_entries (es : list (string * string)) :
  (forall e, e ∈ es -> exists m, entry_of e m) -> exists ms, Forall2 entry_of es ms.
Proof.
  induction es as [|e es IH]; intros He; [by exists []|].
  destruct (He e) as [m Hm]; [by left|]. destruct IH as [ms Hms]; [intros e' ?; apply He; by right|].
  exists (m :: ms). by constructor.
Qed.

Lemma entry_fun e m m' : entry_of e m -> entry_of e m' -> m = m'.
Proof. intros (c & Ec & -> & _) (c' & Ec' & -> & _). rewrite Ec in Ec'. by injection Ec' as ->. Qed.

(** Storing a segment: it is listed, replaces the entry under its key, and leaves the
    others. *)
Lemma cat_put_rep m d d' ms :
  meta_ok m -> cat_rep d ms -> cat_put m d = (d', Ok tt) ->
  exists ms', cat_rep d' ms' /\
    forall m', m' ∈ ms' <-> m' = m \/
      (segKey (sm_MinTS m') (sm_ID m') <> segKey (sm_MinTS m) (sm_ID m) /\ m' ∈ ms).
Proof.
  intros Hok Hr E. unfold cat_put in E.
  destruct (MarshalEntry _) as [buf|] eqn:Em; [|done].
  destruct (kv_put _ _ _) as [d1|] eqn:Ep; [|done]. injection E as <-.
  pose proof (kv_put_scan _ _ _ _ Ep) as Hscan.
  pose proof (entry_roundtrip _ _ Hok Em) as Hrt.
  assert (Hnew : entry_of (segKey (sm_MinTS m) (sm_ID m), buf) m).
  { eexists. split; [exact Hrt|]. cbn. split; [by destruct m|done]. }
  destruct (Forall2_exists_elem _ _ Hr) as [H1 H2].
  destruct (wf_of_entries (kv_scan d1)) as [ms' Hms'].
  { intros [k v] [[-> ->]|[_ Hin]]%Hscan; [by exists m|]. destruct (H1 _ Hin) as (x & ? & _). by exists x. }
  exists ms'. split; [done|]. destruct (Forall2_exists_elem _ _ Hms') as [G1 G2]. intros m'. split.
  - intros Hm'. destruct (G2 m' Hm') as ([k v] & He & Hin). apply Hscan in Hin as [[-> ->]|[Hk Hin]].
    + left. by eapply entry_fun.
    + right. destruct (H1 _ Hin) as (x & Hx & Hxin). rewrite (entry_fun _ _ _ He Hx).
      split; [|done]. destruct Hx as (_ & _ & _ & Ek). by rewrite <- Ek.
  - intros [->|[Hk Hin]].
    + destruct (G1 (segKey (sm_MinTS m) (sm_ID m), buf)) as (x & Hx & Hxin); [apply Hscan; by left|].
      by rewrite (entry_fun _ _ _ Hnew Hx).
    + destruct (H2 m' Hin) as ([k v] & He & Hes). pose proof He as (_ & _ & _ & Ek). cbn in Ek.
      destruct (G1 (k, v)) as (x & Hx & Hxin); [apply Hscan; right; split; [by rewrite Ek|done]|].
      by rewrite (entry_fun _ _ _ He Hx).
Qed.

(** ** Key order *)

Lemma be_put_mod n k z : (n <= k)%nat -> be_put n (z mod 256 ^ Z.of_nat k) = be_put n z.
Proof.
  induction n as [|n IH]; intros Hk; [done|]. cbn [be_put]. rewrite IH by lia. do 3 f_equal.
  set (p := 256 ^ Z.of_nat n). assert (0 < p) by (apply Z.pow_pos_nonneg; lia).
  replace (256 ^ Z.of_nat k) with (p * (256 * 256 ^ (Z.of_nat k - Z.of_nat n - 1))).
  - set (q := 256 ^ (Z.of_nat k - Z.of_nat n - 1)).
    assert (0 < q) by (apply Z.pow_pos_nonneg; lia).
    rewrite (Z.rem_mul_r z p (256 * q)) by lia.
    rewrite (Z.add_comm (z mod p)), Z.mul_comm, Z.div_add_l by lia.
    rewrite (Z.div_small (z mod p) p) by (apply Z.mod_pos_bound; lia).
    rewrite Z.add_0_r, (Z.rem_mul_r (z / p) 256 q) by lia.
    rewrite (Z.mul_comm 256), Z_mod_plus_full. by rewrite Z.mod_mod by lia.
  - unfold p. rewrite <- (Z.pow_1_r 256) at 2. rewrite <- !Z.pow_add_r by lia. f_equal. lia.
Qed.

(** Big-endian keys sort as their numbers do. *)
Lemma key_lt_be n x y a b :
  0 <= x < 256 ^ Z.of_nat n -> 0 <= y < 256 ^ Z.of_nat n ->
  key_lt (be_put n x +:+ a) (be_put n y +:+ b) -> x <= y.
Proof.
  revert x y; induction n as [|n IH]; intros x y Hx Hy Hlt; [cbn in *; lia|].
  rewrite Nat2Z.inj_succ, Z.pow_succ_r in Hx, Hy by lia.
  set (p := 256 ^ Z.of_nat n) in *. assert (Hp : 0 < p) by (apply Z.pow_pos_nonneg; lia).
  assert (Hhi : forall z, 0 <= z < 256 * p -> 0 <= z / p < 256).
  { intros z Hz. split; [apply Z.div_pos; lia|apply Z.div_lt_upper_bound; lia]. }
  pose proof (Hhi x Hx) as Hx'. pose proof (Hhi y Hy) as Hy'.
  unfold key_lt in Hlt. cbn [be_put] in Hlt. rewrite !str_app_cons in Hlt.
  cbn [String.compare] in Hlt. fold p in Hlt. rewrite !Z.mod_small in Hlt by lia.
  unfold Ascii.compare in Hlt. fold (code (byte_of (Z.to_N (x / p)))) in Hlt.
  fold (code (byte_of (Z.to_N (y / p)))) in Hlt. rewrite !code_byte_of in Hlt by lia.
  pose proof (Z.div_mod x p) as Dx. pose proof (Z.div_mod y p) as Dy.
  pose proof (Z.mod_pos_bound x p Hp). pose proof (Z.mod_pos_bound y p Hp).
  destruct (N.compare_spec (Z.to_N (x / p)) (Z.to_N (y / p))) as [E|L|G]; [| |done].
  - rewrite <- (be_put_mod n n x), <- (be_put_mod n n y) in Hlt by lia. fold p in Hlt.
    specialize (IH (x mod p) (y mod p) ltac:(lia) ltac:(lia) Hlt).
    apply Z2N.inj in E; [|lia..]. rewrite E in Dx. lia.
  - assert (x / p < y / p) by lia. nia.
Qed.

(** The catalogue returns exactly the stored segments that overlap the range, and
    in ascending start-time order, for segments that start between 1970 and 2262. *)
Theorem overlapping_sorted d ms start end_ :
  cat_rep d ms -> Forall (fun m => 0 <= sm_MinTS m < 2 ^ 63) ms ->
  exists out, cat_overlapping start end_ d = Ok out /\
    out = List.filter (fun m => SegmentOverlaps m start end_) ms /\
    StronglySorted (fun a b => sm_MinTS a <= sm_MinTS b) out.
Proof.
  intros Hr Hpos. eexists. split; [by apply overlapping_scan_rep|]. split; [done|].
  pose proof (kv_sorted d) as Hs. unfold cat_rep in Hr. revert Hs Hpos.
  induction Hr as [|e m es ms He Hes IH]; intros Hs Hpos; [constructor|].
  rewrite fmap_cons in Hs. apply StronglySorted_inv in Hs as [Hs He'].
  apply Forall_cons in Hpos as [Hm Hpos]. cbn [List.filter].
  destruct (SegmentOverlaps m start end_); [|by apply IH]. constructor; [by apply IH|].
  apply Forall_forall. intros m' Hm'. apply list_elem_of_In, filter_In, proj1, list_elem_of_In in Hm'.
  destruct (proj2 (Forall2_exists_elem _ _ Hes) m' Hm') as (e' & He2 & Hin).
  rewrite Forall_forall in He'. rewrite Forall_forall in Hpos. specialize (Hpos m' Hm').
  specialize (He' (fst e') (list_elem_of_fmap_2 _ _ _ Hin)). destruct He as (_ & _ & _ & Ek), He2 as (_ & _ & _ & Ek').
  rewrite Ek, Ek' in He'. unfold segKey in He'.
  assert (U : forall z, 0 <= z < 2 ^ 63 -> uint64 (UnixNano z) = z).
  { intros z Hz. rewrite UnixNano_id by (unfold in_int64; lia). apply uint64_id. lia. }
  rewrite !U in He' by done. eapply (key_lt_be 8); [| |exact He'].
  - change (256 ^ Z.of_nat 8) with (2 ^ 64). lia.
  - change (256 ^ Z.of_nat 8) with (2 ^ 64). lia.
Qed.

End Catalog.
