(* ===== verification/MetaJson.v ===== *)
(** The JSON form of segment metadata: the struct tags of [model.SegmentMeta],
    [model.BlockMeta] and the catalogue's entry, the indented text of a sidecar, and that
    metadata survives both. *)

From S2P Require Import Prelude GoStrings GoTime TimeText GoFloat GoJson JsonText JsonValue.
From S2P Require Import JsonStruct Model SegWriter RecordJson Catalog.
From Stdlib Require Import Ascii String.
Local Open Scope string_scope.
Local Open Scope list_scope.
Local Open Scope Z_scope.

(** ** [model.BlockMeta] *)

Definition block_members (b : BlockMeta) (lo hi : string) : list (string * Json) :=
  [("file_offset", json_int (bm_FileOffset b)); ("comp_len", json_int (bm_CompLen b));
   ("uncomp_len", json_int (bm_UncompLen b)); ("min_ts", json_lit lo); ("max_ts", json_lit hi);
   ("record_count", json_int (bm_RecordCount b))].
Definition block_json (b : BlockMeta) : option Json :=
  lo ← MarshalTime (bm_MinTS b); hi ← MarshalTime (bm_MaxTS b);
  Some (json_obj (block_members b lo hi)).

Definition block_fields : list (string * Dec BlockMeta) :=
  [("file_offset", field bm_FileOffset (fun x b => mkBlockMeta x (bm_CompLen b) (bm_UncompLen b)
      (bm_MinTS b) (bm_MaxTS b) (bm_RecordCount b)) dec_int64);
   ("comp_len", field bm_CompLen (fun x b => mkBlockMeta (bm_FileOffset b) x (bm_UncompLen b)
      (bm_MinTS b) (bm_MaxTS b) (bm_RecordCount b)) dec_int64);
   ("uncomp_len", field bm_UncompLen (fun x b => mkBlockMeta (bm_FileOffset b) (bm_CompLen b) x
      (bm_MinTS b) (bm_MaxTS b) (bm_RecordCount b)) dec_int64);
   ("min_ts", field bm_MinTS (fun x b => mkBlockMeta (bm_FileOffset b) (bm_CompLen b)
      (bm_UncompLen b) x (bm_MaxTS b) (bm_RecordCount b)) dec_time);
   ("max_ts", field bm_MaxTS (fun x b => mkBlockMeta (bm_FileOffset b) (bm_CompLen b)
      (bm_UncompLen b) (bm_MinTS b) x (bm_RecordCount b)) dec_time);
   ("record_count", field bm_RecordCount (fun x b => mkBlockMeta (bm_FileOffset b) (bm_CompLen b)
      (bm_UncompLen b) (bm_MinTS b) (bm_MaxTS b) x) dec_int32)].
Definition zeroBlock : BlockMeta := mkBlockMeta 0 0 0 zeroTime zeroTime 0.

Definition block_wf (b : BlockMeta) : Prop :=
  in_int64 (bm_FileOffset b) /\ in_int64 (bm_CompLen b) /\ in_int64 (bm_UncompLen b) /\
  in_int32 (bm_RecordCount b).
#[export] Instance block_wf_dec b : Decision (block_wf b).
Proof. unfold block_wf. apply _. Defined.

(** ** [model.SegmentMeta] *)

Definition meta_members (m : SegmentMeta) (lo hi : string) (blocks : list Json) : list (string * Json) :=
  [("id", json_string (sm_ID m)); ("s3_key", json_string (sm_S3Key m));
   ("min_ts", json_lit lo); ("max_ts", json_lit hi);
   ("namespaces", json_strings (sm_Namespaces m)); ("pods", json_strings (sm_Pods m));
   ("nodes", json_strings (sm_Nodes m)); ("containers", json_strings (sm_Containers m));
   ("label_keys", json_strings (sm_LabelKeys m)); ("field_keys", json_strings (sm_FieldKeys m));
   ("blocks", json_arr blocks); ("size_bytes", json_int (sm_SizeBytes m));
   ("record_count", json_int (sm_RecordCount m)); ("has_late", json_bool (sm_HasLate m))]
  ++ omitempty (bool_decide (sm_SourceOffsets m = ∅)) "source_offsets"
       (json_map json_int (sm_SourceOffsets m)).
Definition meta_json (m : SegmentMeta) : option Json :=
  lo ← MarshalTime (sm_MinTS m); hi ← MarshalTime (sm_MaxTS m);
  blocks ← mapM block_json (sm_Blocks m);
  Some (json_obj (meta_members m lo hi blocks)).

Section Setters.
Context (m : SegmentMeta).
Definition with_ID x := mkSegmentMeta x (sm_S3Key m) (sm_MinTS m) (sm_MaxTS m) (sm_Namespaces m)
  (sm_Pods m) (sm_Nodes m) (sm_Containers m) (sm_LabelKeys m) (sm_FieldKeys m) (sm_Blocks m)
  (sm_SizeBytes m) (sm_RecordCount m) (sm_HasLate m) (sm_SourceOffsets m) (sm_LocalPath m).
Definition with_S3Key x := mkSegmentMeta (sm_ID m) x (sm_MinTS m) (sm_MaxTS m) (sm_Namespaces m)
  (sm_Pods m) (sm_Nodes m) (sm_Containers m) (sm_LabelKeys m) (sm_FieldKeys m) (sm_Blocks m)
  (sm_SizeBytes m) (sm_RecordCount m) (sm_HasLate m) (sm_SourceOffsets m) (sm_LocalPath m).
Definition with_MinTS x := mkSegmentMeta (sm_ID m) (sm_S3Key m) x (sm_MaxTS m) (sm_Namespaces m)
  (sm_Pods m) (sm_Nodes m) (sm_Containers m) (sm_LabelKeys m) (sm_FieldKeys m) (sm_Blocks m)
  (sm_SizeBytes m) (sm_RecordCount m) (sm_HasLate m) (sm_SourceOffsets m) (sm_LocalPath m).
Definition with_MaxTS x := mkSegmentMeta (sm_ID m) (sm_S3Key m) (sm_MinTS m) x (sm_Namespaces m)
  (sm_Pods m) (sm_Nodes m) (sm_Containers m) (sm_LabelKeys m) (sm_FieldKeys m) (sm_Blocks m)
  (sm_SizeBytes m) (sm_RecordCount m) (sm_HasLate m) (sm_SourceOffsets m) (sm_LocalPath m).
Definition with_Namespaces x := mkSegmentMeta (sm_ID m) (sm_S3Key m) (sm_MinTS m) (sm_MaxTS m) x
  (sm_Pods m) (sm_Nodes m) (sm_Containers m) (sm_LabelKeys m) (sm_FieldKeys m) (sm_Blocks m)
  (sm_SizeBytes m) (sm_RecordCount m) (sm_HasLate m) (sm_SourceOffsets m) (sm_LocalPath m).
Definition with_Pods x := mkSegmentMeta (sm_ID m) (sm_S3Key m) (sm_MinTS m) (sm_MaxTS m)
  (sm_Namespaces m) x (sm_Nodes m) (sm_Containers m) (sm_LabelKeys m) (sm_FieldKeys m)
  (sm_Blocks m) (sm_SizeBytes m) (sm_RecordCount m) (sm_HasLate m) (sm_SourceOffsets m)
  (sm_LocalPath m).
Definition with_Nodes x := mkSegmentMeta (sm_ID m) (sm_S3Key m) (sm_MinTS m) (sm_MaxTS m)
  (sm_Namespaces m) (sm_Pods m) x (sm_Containers m) (sm_LabelKeys m) (sm_FieldKeys m) (sm_Blocks
  m) (sm_SizeBytes m) (sm_RecordCount m) (sm_HasLate m) (sm_SourceOffsets m) (sm_LocalPath m).
Definition with_Containers x := mkSegmentMeta (sm_ID m) (sm_S3Key m) (sm_MinTS m) (sm_MaxTS m)
  (sm_Namespaces m) (sm_Pods m) (sm_Nodes m) x (sm_LabelKeys m) (sm_FieldKeys m) (sm_Blocks m)
  (sm_SizeBytes m) (sm_RecordCount m) (sm_HasLate m) (sm_SourceOffsets m) (sm_LocalPath m).
Definition with_LabelKeys x := mkSegmentMeta (sm_ID m) (sm_S3Key m) (sm_MinTS m) (sm_MaxTS m)
  (sm_Namespaces m) (sm_Pods m) (sm_Nodes m) (sm_Containers m) x (sm_FieldKeys m) (sm_Blocks m)
  (sm_SizeBytes m) (sm_RecordCount m) (sm_HasLate m) (sm_SourceOffsets m) (sm_LocalPath m).
Definition with_FieldKeys x := mkSegmentMeta (sm_ID m) (sm_S3Key m) (sm_MinTS m) (sm_MaxTS m)
  (sm_Namespaces m) (sm_Pods m) (sm_Nodes m) (sm_Containers m) (sm_LabelKeys m) x (sm_Blocks m)
  (sm_SizeBytes m) (sm_RecordCount m) (sm_HasLate m) (sm_SourceOffsets m) (sm_LocalPath m).
Definition with_Blocks x := mkSegmentMeta (sm_ID m) (sm_S3Key m) (sm_MinTS m) (sm_MaxTS m)
  (sm_Namespaces m) (sm_Pods m) (sm_Nodes m) (sm_Containers m) (sm_LabelKeys m) (sm_FieldKeys m)
  x (sm_SizeBytes m) (sm_RecordCount m) (sm_HasLate m) (sm_SourceOffsets m) (sm_LocalPath m).
Definition with_SizeBytes x := mkSegmentMeta (sm_ID m) (sm_S3Key m) (sm_MinTS m) (sm_MaxTS m)
  (sm_Namespaces m) (sm_Pods m) (sm_Nodes m) (sm_Containers m) (sm_LabelKeys m) (sm_FieldKeys m)
  (sm_Blocks m) x (sm_RecordCount m) (sm_HasLate m) (sm_SourceOffsets m) (sm_LocalPath m).
Definition with_RecordCount x := mkSegmentMeta (sm_ID m) (sm_S3Key m) (sm_MinTS m) (sm_MaxTS m)
  (sm_Namespaces m) (sm_Pods m) (sm_Nodes m) (sm_Containers m) (sm_LabelKeys m) (sm_FieldKeys m)
  (sm_Blocks m) (sm_SizeBytes m) x (sm_HasLate m) (sm_SourceOffsets m) (sm_LocalPath m).
Definition with_HasLate x := mkSegmentMeta (sm_ID m) (sm_S3Key m) (sm_MinTS m) (sm_MaxTS m)
  (sm_Namespaces m) (sm_Pods m) (sm_Nodes m) (sm_Containers m) (sm_LabelKeys m) (sm_FieldKeys m)
  (sm_Blocks m) (sm_SizeBytes m) (sm_RecordCount m) x (sm_SourceOffsets m) (sm_LocalPath m).
Definition with_SourceOffsets x := mkSegmentMeta (sm_ID m) (sm_S3Key m) (sm_MinTS m) (sm_MaxTS
  m) (sm_Namespaces m) (sm_Pods m) (sm_Nodes m) (sm_Containers m) (sm_LabelKeys m) (sm_FieldKeys
  m) (sm_Blocks m) (sm_SizeBytes m) (sm_RecordCount m) (sm_HasLate m) x (sm_LocalPath m).
End Setters.

Definition meta_fields : list (string * Dec SegmentMeta) :=
  [("id", field sm_ID (fun x m => with_ID m x) dec_string);
   ("s3_key", field sm_S3Key (fun x m => with_S3Key m x) dec_string);
   ("min_ts", field sm_MinTS (fun x m => with_MinTS m x) dec_time);
   ("max_ts", field sm_MaxTS (fun x m => with_MaxTS m x) dec_time);
   ("namespaces", field sm_Namespaces (fun x m => with_Namespaces m x) dec_strings);
   ("pods", field sm_Pods (fun x m => with_Pods m x) dec_strings);
   ("nodes", field sm_Nodes (fun x m => with_Nodes m x) dec_strings);
   ("containers", field sm_Containers (fun x m => with_Containers m x) dec_strings);
   ("label_keys", field sm_LabelKeys (fun x m => with_LabelKeys m x) dec_strings);
   ("field_keys", field sm_FieldKeys (fun x m => with_FieldKeys m x) dec_strings);
   ("blocks", field sm_Blocks (fun x m => with_Blocks m x)
      (dec_list (dec_struct block_fields) zeroBlock));
   ("size_bytes", field sm_SizeBytes (fun x m => with_SizeBytes m x) dec_int64);
   ("record_count", field sm_RecordCount (fun x m => with_RecordCount m x) dec_int64);
   ("has_late", field sm_HasLate (fun x m => with_HasLate m x) dec_bool);
   ("source_offsets", field sm_SourceOffsets (fun x m => with_SourceOffsets m x) (dec_map dec_int64 0))].

Definition zeroMeta : SegmentMeta :=
  mkSegmentMeta "" "" zeroTime zeroTime [] [] [] [] [] [] [] 0 0 false ∅ "".
Definition dec_meta : Dec SegmentMeta := dec_struct meta_fields.

(** [marshalSidecar] and [unmarshalSidecar] *)
Definition GoMarshalSidecar (m : SegmentMeta) : option string := MarshalIndent <$> meta_json m.
Definition GoUnmarshalSidecar (s : string) : option SegmentMeta := Unmarshal dec_meta zeroMeta s.

(** The catalogue's entry *)
Definition entry_json (e : catalogEntry) : option Json :=
  m ← meta_json (ce_Meta e);
  Some (json_obj ([("meta", m)] ++
    omitempty (String.eqb (ce_LocalPath e) "") "local_path" (json_string (ce_LocalPath e)))).
Definition entry_fields : list (string * Dec catalogEntry) :=
  [("meta", field ce_Meta (fun x e => mkEntry x (ce_LocalPath e)) dec_meta);
   ("local_path", field ce_LocalPath (fun x e => mkEntry (ce_Meta e) x) dec_string)].
Definition GoMarshalEntry (e : catalogEntry) : option string := Marshal <$> entry_json e.
Definition GoUnmarshalEntry (s : string) : option catalogEntry :=
  Unmarshal (dec_struct entry_fields) (mkEntry zeroMeta "") s.

(** ** What JSON carries *)

(** Texts of valid UTF-8 and numbers the Go types hold. *)
Record go_meta_ok (m : SegmentMeta) : Prop := {
  mo_texts : sane_text (sm_ID m) /\ sane_text (sm_S3Key m) /\ sane_text (sm_LocalPath m);
  mo_lists : Forall sane_text (sm_Namespaces m) /\ Forall sane_text (sm_Pods m) /\
    Forall sane_text (sm_Nodes m) /\ Forall sane_text (sm_Containers m) /\
    Forall sane_text (sm_LabelKeys m) /\ Forall sane_text (sm_FieldKeys m);
  mo_blocks : Forall block_wf (sm_Blocks m);
  mo_counts : in_int64 (sm_SizeBytes m) /\ in_int64 (sm_RecordCount m);
  mo_offsets : map_Forall (fun k z => sane_text k /\ in_int64 z) (sm_SourceOffsets m)
}.

Lemma Forall_sane l : Forall sane_text l -> sanitize <$> l = l.
Proof. induction 1 as [|s l Hs _ IH]; [done|]. cbn. by rewrite Hs, IH. Qed.

Lemma time_opt {A} (t : Time) (k : string -> option A) y :
  MarshalTime t ≫= k = Some y -> exists ts, MarshalTime t = Some ts /\ k ts = Some y.
Proof. destruct (MarshalTime t) as [ts|]; [|done]. intros E. by exists ts. Qed.

(** A block, whatever its target holds: every field is always written. *)
Lemma block_json_ok d b v : (d < maxNestingDepth)%N -> block_wf b -> block_json b = Some v ->
  jval d v /\ forall cur, decodes v (dec_struct block_fields) cur b.
Proof.
  intros L (H1 & H2 & H3 & H4) E. unfold block_json in E.
  apply time_opt in E as (lo & Elo & E). apply time_opt in E as (hi & Ehi & [= <-]).
  assert (Hj : forall d, Forall (fun kv => jval d kv.2) (block_members b lo hi)).
  { intros d'. unfold block_members. each_member; first [apply jval_int|by eapply jval_time]. }
  split; [by apply jval_obj|]. intros cur. apply decodes_struct; [apply Hj|]. eapply reads_eq.
  - read_member; [by apply decodes_int64|]. read_member; [by apply decodes_int64|].
    read_member; [by apply decodes_int64|]. read_member; [by apply decodes_time|].
    read_member; [by apply decodes_time|]. read_member; [by apply decodes_int32|]. apply reads_nil.
  - by destruct b.
Qed.
Lemma blocks_json_ok d bs vs : (d < maxNestingDepth)%N -> Forall block_wf bs -> mapM block_json bs = Some vs ->
  Forall2 (fun v b => jval d v /\ forall cur, decodes v (dec_struct block_fields) cur b) vs bs.
Proof.
  intros L. revert vs. induction bs as [|b bs IH]; intros vs Hb E; cbn in E.
  - injection E as <-. constructor.
  - apply Forall_cons in Hb as [Hb Hbs]. destruct (block_json b) as [v|] eqn:Ev; [|done]. cbn in E.
    destruct (mapM block_json bs) as [vs'|] eqn:Evs; [|done]. injection E as <-.
    constructor; [by apply block_json_ok|by apply IH].
Qed.
Lemma decodes_array {A} (dec : Dec A) zero vs l cur :
  Forall2 (fun v x => jval 1 v /\ forall cur, decodes v dec cur x) vs l ->
  decodes (json_arr vs) (dec_list dec zero) cur l.
Proof.
  intros H ind. destruct (json_arr_elements vs ind) as (t & -> & Et).
  { by eapply Forall2_Forall_l; [exact H|]; apply Forall_forall; intros v _ x [? _]. }
  unfold dec_list. rewrite Et. clear Et. revert cur.
  induction H as [|v x vs l [_ Hx] _ IH]; intros cur; [done|]. cbn.
  rewrite (Hx _ (deeper ind)). cbn. by rewrite IH.
Qed.

Lemma offsets_decodes m : map_Forall (fun k z => sane_text k /\ in_int64 z) m ->
  decodes (json_map json_int m) (dec_map dec_int64 0) ∅ m.
Proof.
  intros H. assert (E : carry_map id m = m).
  { rewrite carry_map_sane; [apply map_fmap_id|]. intros k z Hz. by apply (H k z). }
  rewrite <- E at 2. apply decodes_map. intros k z Hz. split; [apply jval_int|].
  apply decodes_int64. by apply (H k z).
Qed.

Ltac flat_meta := cbv [with_ID with_S3Key with_MinTS with_MaxTS with_Namespaces with_Pods with_Nodes
  with_Containers with_LabelKeys with_FieldKeys with_Blocks with_SizeBytes with_RecordCount
  with_HasLate with_SourceOffsets zeroMeta sm_ID sm_S3Key
  sm_MinTS sm_MaxTS sm_Namespaces sm_Pods sm_Nodes sm_Containers sm_LabelKeys sm_FieldKeys sm_Blocks
  sm_SizeBytes sm_RecordCount sm_HasLate sm_SourceOffsets sm_LocalPath].

Lemma meta_reads m lo hi blocks : go_meta_ok m ->
  MarshalTime (sm_MinTS m) = Some lo -> MarshalTime (sm_MaxTS m) = Some hi ->
  mapM block_json (sm_Blocks m) = Some blocks ->
  reads meta_fields (meta_members m lo hi blocks) zeroMeta (set_LocalPath "" m).
Proof.
  intros [(T1 & T2 & _) (L1 & L2 & L3 & L4 & L5 & L6) Hb (C1 & C2) Ho] Elo Ehi Eb.
  eapply reads_eq.
  - eapply reads_app.
    { do 2 (read_member; [apply decodes_string|]). do 2 (read_member; [by apply decodes_time|]).
      do 6 (read_member; [apply decodes_strings|]).
      read_member; [apply decodes_array; by apply (blocks_json_ok 1)|].
      do 2 (read_member; [by apply decodes_int64|]). read_member; [apply decodes_bool|]. apply reads_nil. }
    read_optional; [by apply offsets_decodes|].
    intros E%bool_decide_eq_true. rewrite E. flat_meta. reflexivity.
  - rewrite T1, T2, !Forall_sane by done. clear. destruct m. flat_meta. reflexivity.
Qed.

Lemma meta_jval m lo hi blocks d : go_meta_ok m -> (d + 2 < maxNestingDepth)%N ->
  MarshalTime (sm_MinTS m) = Some lo -> MarshalTime (sm_MaxTS m) = Some hi ->
  mapM block_json (sm_Blocks m) = Some blocks ->
  Forall (fun kv => jval (d + 1) kv.2) (meta_members m lo hi blocks).
Proof.
  intros Hm L Elo Ehi Eb. assert (L1 : (d + 1 < maxNestingDepth)%N) by lia.
  unfold meta_members. each_member;
    first [apply jval_string|by eapply jval_time|by apply jval_strings|apply jval_int|apply jval_bool|idtac].
  - apply jval_arr; [done|].
    pose proof (blocks_json_ok (d + 1 + 1) _ _ ltac:(lia) (mo_blocks m Hm) Eb) as H.
    by eapply Forall2_Forall_l; [exact H|]; apply Forall_forall; intros v _ x [? _].
  - apply jval_map; [done|]. intros k z _. apply jval_int.
Qed.

Lemma meta_json_ok m v : go_meta_ok m -> meta_json m = Some v ->
  jval 1 v /\ jval 0 v /\ decodes v dec_meta zeroMeta (set_LocalPath "" m).
Proof.
  intros Hm E. unfold meta_json in E. apply time_opt in E as (lo & Elo & E).
  apply time_opt in E as (hi & Ehi & E). destruct (mapM _ _) as [bs|] eqn:Eb; [|done].
  injection E as <-. pose proof (meta_jval m lo hi bs 0 Hm) as J0. pose proof (meta_jval m lo hi bs 1 Hm) as J1.
  split; [apply jval_obj; [done|by apply J1]|]. split; [apply jval_obj; [done|by apply J0]|].
  apply decodes_struct; [by apply J0|by apply meta_reads].
Qed.

(** ** Round trips *)

Lemma sidecar_carried m s : go_meta_ok m -> GoMarshalSidecar m = Some s ->
  GoUnmarshalSidecar s = Some (set_LocalPath "" m).
Proof.
  intros Hm H. unfold GoMarshalSidecar in H. destruct (meta_json m) as [v|] eqn:E; [|done].
  injection H as <-. destruct (meta_json_ok m v Hm E) as (_ & J & D).
  unfold GoUnmarshalSidecar, MarshalIndent. by apply Unmarshal_Json.
Qed.

Lemma entry_carried m s : go_meta_ok m -> GoMarshalEntry (mkEntry m (sm_LocalPath m)) = Some s ->
  GoUnmarshalEntry s = Some (mkEntry (set_LocalPath "" m) (sm_LocalPath m)).
Proof.
  intros Hm H. unfold GoMarshalEntry, entry_json in H. cbn [ce_Meta ce_LocalPath] in H.
  destruct (meta_json m) as [v|] eqn:E; [|done]. injection H as <-.
  destruct (meta_json_ok m v Hm E) as (J & _ & D).
  assert (Hj : Forall (fun kv => jval 1 kv.2) ([("meta", v)] ++
    omitempty (String.eqb (sm_LocalPath m) "") "local_path" (json_string (sm_LocalPath m)))).
  { each_member; [exact J|apply jval_string]. }
  unfold GoUnmarshalEntry, Marshal. apply Unmarshal_Json; [by apply jval_obj|].
  apply decodes_struct; [exact Hj|]. eapply reads_eq.
  - eapply (reads_app _ [("meta", v)]); [read_member; [exact D|apply reads_nil]|].
    read_optional; [apply decodes_string|]. intros E0%String.eqb_eq. by rewrite E0.
  - destruct (mo_texts m Hm) as (_ & _ & T). cbn. by rewrite T.
Qed.

(** *** Whatever decodes is metadata JSON carries *)

Lemma keeps_strings : keeps (Forall sane_text) dec_strings.
Proof. apply keeps_list; [apply keeps_string|done]. Qed.
Ltac block_field := eapply keeps_field;
  [ | intros b (?&?&?&?); eassumption | intros b x (?&?&?&?) ?; cbn; split_and!; assumption ].
Lemma keeps_block : keeps block_wf (dec_struct block_fields).
Proof.
  apply keeps_struct. unfold block_fields, block_wf. each_member;
    first [ block_field; [first [apply keeps_int64|apply keeps_int32]]
          | apply (keeps_field _ (fun _ => True)); [apply keeps_any|done|by intros b x] ].
Qed.

Ltac meta_field := eapply keeps_field;
  [ | intros m [(?&?&?) (?&?&?&?&?&?) ? (?&?) ?]; eassumption
    | intros m x [(?&?&?) (?&?&?&?&?&?) ? (?&?) ?] ?; constructor; cbn; split_and?; assumption ].
Lemma zeroBlock_wf : block_wf zeroBlock.
Proof. apply (bool_decide_unpack _). vm_compute. exact I. Qed.

Lemma keeps_meta : keeps go_meta_ok dec_meta.
Proof.
  assert (Free : forall B (get : SegmentMeta -> B) set dec,
    (forall m x, go_meta_ok m -> go_meta_ok (set x m)) -> keeps go_meta_ok (field get set dec)).
  { intros B get set dec H. apply (keeps_field _ (fun _ => True)); [apply keeps_any|done|auto]. }
  apply keeps_struct. unfold meta_fields. each_member;
    first [ apply Free; intros m x [? ? ? ? ?]; by constructor
          | meta_field; [first [ apply keeps_string | apply keeps_strings | apply keeps_int64
              | apply keeps_list; [apply keeps_block|apply zeroBlock_wf]
              | apply keeps_map; [apply keeps_int64|done]]] ].
Qed.
Lemma zeroMeta_ok : go_meta_ok zeroMeta.
Proof. by repeat constructor. Qed.

(** ** The codec *)

#[refine] Definition go_meta : MetaCodec := {|
  text_ok := sane_text;
  meta_ok := go_meta_ok;
  MarshalEntry := GoMarshalEntry;
  UnmarshalEntry := GoUnmarshalEntry;
  marshalSidecar := GoMarshalSidecar;
  unmarshalSidecar := GoUnmarshalSidecar;
  entry_roundtrip := entry_carried;
  sidecar_roundtrip := sidecar_carried
|}.
Proof.
  - intros s m id key E Hid Hkey. apply (keeps_Unmarshal go_meta_ok) in E as [? ? ? ? ?];
      [|apply keeps_meta|apply zeroMeta_ok]. constructor; try done.
  - intros s e E. apply (keeps_Unmarshal (fun e => go_meta_ok (ce_Meta e))) in E;
      [|apply keeps_struct; unfold entry_fields; each_member|apply zeroMeta_ok].
    + destruct E as [(?&?&?) ? ? ? ?]. constructor; try done.
    + apply (keeps_field _ go_meta_ok); [apply keeps_meta|done|done].
    + apply (keeps_field _ (fun _ => True)); [apply keeps_any|done|done].
Defined.

(** The local path has no member: it is never read from a sidecar. *)
Lemma keeps_no_path : keeps (fun m => sm_LocalPath m = "") dec_meta.
Proof.
  apply keeps_struct. unfold meta_fields. each_member;
    (apply (keeps_field _ (fun _ => True)); [apply keeps_any|done|done]).
Qed.
Lemma no_path m : sm_LocalPath m = "" -> set_LocalPath "" m = m.
Proof. intros E. destruct m. cbn in E. by subst. Qed.

(** C40: Whatever bytes a sidecar is decoded from, the metadata holds values of its Go
    types in valid UTF-8 and no local path, and from then on JSON carries it unchanged:
    a sidecar written from it decodes to it again, and so does a catalogue entry, which
    adds the local path. *)
Theorem metadata_settles s m : GoUnmarshalSidecar s = Some m ->
  go_meta_ok m /\ sm_LocalPath m = "" /\
  (forall s', GoMarshalSidecar m = Some s' -> GoUnmarshalSidecar s' = Some m) /\
  (forall lp e, sane_text lp -> GoMarshalEntry (mkEntry (set_LocalPath lp m) lp) = Some e ->
    GoUnmarshalEntry e = Some (mkEntry m lp)).
Proof.
  intros H. assert (Hok : go_meta_ok m).
  { by apply (keeps_Unmarshal go_meta_ok) in H; [|apply keeps_meta|apply zeroMeta_ok]. }
  assert (Hp : sm_LocalPath m = "").
  { by apply (keeps_Unmarshal (fun m => sm_LocalPath m = "")) in H; [|apply keeps_no_path|]. }
  split_and!; [done|done| |].
  - intros s' E. rewrite <- (no_path m Hp). by apply sidecar_carried.
  - intros lp e Hlp E. rewrite <- (no_path m Hp) at 1. apply (entry_carried (set_LocalPath lp m)).
    + by destruct Hok as [(?&?&?) ? ? ? ?].
    + exact E.
Qed.

Module Witness.
(** Metadata as [Finish] leaves it, with a late record and a source. *)
Definition meta0 : SegmentMeta :=
  mkSegmentMeta "01A" "m/01A.seg" 1500 2500 ["ns"] ["p"] ["n"] ["c"] [] ["k"]
    [mkBlockMeta 10 20 30 1500 2500 2] 64 2 true (<["n|/p|1|2|3" := 40]> ∅) "".
Definition side0 : string := default "" (GoMarshalSidecar meta0).

Lemma metadata_settles_witness :
  GoUnmarshalSidecar side0 = Some meta0 /\ go_meta_ok meta0 /\ GoMarshalSidecar meta0 = Some side0.
Proof.
  assert (E : GoUnmarshalSidecar side0 = Some meta0) by (vm_compute; reflexivity).
  split; [exact E|]. split; [apply (metadata_settles side0 meta0 E)|]. vm_compute. reflexivity.
Defined.
End Witness.
