(* ===== verification/SegGo.v ===== *)
(** Segments of what a manager receives.  The laws of SegWriter's interfaces ask that the
    records of a segment, and the metadata of a sealed one, are values JSON carries; here
    it is shown that whatever arrives from an agent is such a value, so that only the sizes
    of the file format remain as conditions. *)

From S2P Require Import Prelude GoStrings GoTime GoJson JsonText JsonStruct Model SegFormat SegWriter.
From S2P Require Import RecordJson SegLayout SegRefine SegReader SegToy Catalog MetaJson.
From Stdlib Require Import Ascii String.
Local Open Scope string_scope.
Local Open Scope list_scope.
Local Open Scope Z_scope.

Local Existing Instance go_json.

(** ** Texts *)

Lemma sanitize_sane_app a b : sanitize (sanitize a +:+ b) = sanitize a +:+ sanitize b.
Proof.
  induction a as [|c s H IH|w r s W IH|c s H D IH] using rune_ind; [done|..].
  - by rewrite (sanitize_ascii c s), !str_app_cons, sanitize_ascii, IH by done.
  - by rewrite (sanitize_wide w r s), !str_app_assoc, (sanitize_wide w r), IH by done.
  - by rewrite (sanitize_bad_byte c s), !str_app_assoc, (sanitize_wide _ RuneError), IH by (done || apply wide_error).
Qed.
Lemma sane_app a b : sane_text a -> sane_text b -> sane_text (a +:+ b).
Proof. unfold sane_text. intros Ha Hb. rewrite <- Ha at 1. by rewrite sanitize_sane_app, Ha, Hb. Qed.
Lemma sane_cons c s : (code c < 128)%N -> sane_text s -> sane_text (String c s).
Proof. intros Hc Hs. unfold sane_text. by rewrite sanitize_ascii, Hs. Qed.
Lemma sane_digits s : Forall (fun c => is_digit c = true) (bytes_of s) -> sane_text s.
Proof.
  induction s as [|c s IH]; [done|]. cbn [bytes_of]. intros [Hc Hs]%Forall_cons.
  apply sane_cons; [|by apply IH]. unfold is_digit in Hc. apply in_range_iff in Hc. lia.
Qed.
Lemma sane_uint z : sane_text (FormatUint z).
Proof. apply sane_digits, FormatUint_digits. Qed.
Lemma sane_int z : sane_text (FormatInt z).
Proof. destruct (FormatInt_cases z) as [[_ ->]|[_ ->]]; [|apply sane_cons; [done|]]; apply sane_uint. Qed.

Lemma sane_Key s : sane_text (src_Node s) -> sane_text (src_Path s) -> sane_text (Key s).
Proof.
  intros Hn Hp. unfold Key.
  repeat first [apply sane_app | apply sane_cons; [done|] | assumption | apply sane_uint | apply sane_int].
Qed.

(** ** Received records *)

(** What [json.Unmarshal] makes of a line an agent sent. *)
Definition received (r : LogRecord) : Prop :=
  exists r0 l, record_wf r0 /\ GoMarshalRecord r0 = Some l /\ GoUnmarshalRecord l = Some r.

(** The sizes the format and the reader's scanner have room for. *)
Definition fits_line (r : LogRecord) : Prop :=
  in_int64 (rec_Timestamp r) /\ Z.of_nat (slen (line_of r)) < maxTokenSize.
#[export] Instance fits_line_dec r : Decision (fits_line r).
Proof. unfold fits_line. apply _. Defined.

Lemma received_ok r : received r -> go_record_ok r /\ is_Some (GoMarshalRecord r).
Proof.
  intros (r0 & l & Hw & Em & Eu). rewrite (record_carried r0 l Hw Em) in Eu. injection Eu as <-.
  split; [by apply carried_record_ok|]. by destruct (carried_marshals r0 l Hw Em) as [l' ->].
Qed.
Lemma received_carried r : received r -> fits_line r -> carried r.
Proof. intros [Hok Hm]%received_ok [Ht Hl]. by split_and!. Qed.

Lemma carry_fields r : carry_record r = r ->
  sane_text (rec_Namespace r) /\ sane_text (rec_Pod r) /\ sane_text (rec_Node r) /\
  sane_text (rec_Container r) /\ sane_text (src_Node (rec_Source r)) /\
  sane_text (src_Path (rec_Source r)) /\
  (forall k, is_Some (rec_Labels r !! k) -> sane_text k) /\
  (forall k, is_Some (rec_Body r !! k) -> sane_text k).
Proof.
  intros E.
  assert (EL : carry_map sanitize (rec_Labels r) = rec_Labels r) by (by rewrite <- E at 2).
  assert (EB : carry_map (compact Out) (rec_Body r) = rec_Body r) by (by rewrite <- E at 2).
  split_and!; try (unfold sane_text; by rewrite <- E at 2).
  - intros k [x Hx]. rewrite <- EL in Hx. by apply carry_map_lookup in Hx as [? _].
  - intros k [x Hx]. rewrite <- EB in Hx. by apply carry_map_lookup in Hx as [? _].
Qed.

Lemma received_fields r : received r ->
  sane_text (rec_Namespace r) /\ sane_text (rec_Pod r) /\ sane_text (rec_Node r) /\
  sane_text (rec_Container r) /\ sane_text (src_Node (rec_Source r)) /\
  sane_text (src_Path (rec_Source r)) /\
  (forall k, is_Some (rec_Labels r !! k) -> sane_text k) /\
  (forall k, is_Some (rec_Body r !! k) -> sane_text k).
Proof. intros [[_ E] _]%received_ok. by apply carry_fields. Qed.

(** ** The summary and the source offsets of received records *)

Lemma sane_sortedKeys m : (forall k, k ∈ m -> sane_text k) -> Forall sane_text (sortedKeys m).
Proof. intros H. apply Forall_forall. intros k Hk%elem_of_sortedKeys. by apply H. Qed.

Definition sane_summary (s : summary) : Prop :=
  Forall sane_text (su_Namespaces s) /\ Forall sane_text (su_Pods s) /\
  Forall sane_text (su_Nodes s) /\ Forall sane_text (su_Containers s) /\
  Forall sane_text (su_LabelKeys s) /\ Forall sane_text (su_FieldKeys s).

Lemma received_summary rs : Forall received rs -> sane_summary (summary_of (accum rs)).
Proof.
  intros Hrs. rewrite Forall_forall in Hrs. destruct (accum_describes rs) as [Hn Hp Ho Hc Hl Hf _].
  unfold sane_summary. cbn. split_and!; apply sane_sortedKeys; intros k Hk.
  - apply Hn in Hk as (_ & r & Hr & <-). by destruct (received_fields r (Hrs _ Hr)) as (?&?&?&?&_).
  - apply Hp in Hk as (_ & r & Hr & <-). by destruct (received_fields r (Hrs _ Hr)) as (?&?&?&?&_).
  - apply Ho in Hk as (_ & r & Hr & <-). by destruct (received_fields r (Hrs _ Hr)) as (?&?&?&?&_).
  - apply Hc in Hk as (_ & r & Hr & <-). by destruct (received_fields r (Hrs _ Hr)) as (?&?&?&?&_).
  - apply Hl in Hk as (_ & r & Hr & Hk). destruct (received_fields r (Hrs _ Hr)) as (_&_&_&_&_&_&?&?); auto.
  - apply Hf in Hk as (_ & r & Hr & Hk). destruct (received_fields r (Hrs _ Hr)) as (_&_&_&_&_&_&?&?); auto.
Qed.
Lemma sane_summary_ok s : sane_summary s -> carry_summary s = s.
Proof.
  intros (L1 & L2 & L3 & L4 & L5 & L6). unfold carry_summary.
  rewrite (Forall_sane _ L1), (Forall_sane _ L2), (Forall_sane _ L3), (Forall_sane _ L4),
    (Forall_sane _ L5), (Forall_sane _ L6).
  by destruct s.
Qed.

Lemma accum_offsets (P : string -> Z -> Prop) rs :
  Forall (fun r => P (Key (rec_Source r)) (rec_Offset r)) rs -> map_Forall P (ac_srcOffset (accum rs)).
Proof.
  induction rs as [|r rs IH] using rev_ind; [intros _; apply map_Forall_empty|].
  intros [Hrs [Hr _]%Forall_cons_1]%Forall_app. rewrite accum_snoc. unfold acc_add. cbn [ac_srcOffset].
  destruct (_ <? _); [|by apply IH]. apply map_Forall_insert_2; [done|by apply IH].
Qed.
Lemma received_offsets rs : Forall received rs ->
  map_Forall (fun k z => sane_text k /\ in_int64 z) (ac_srcOffset (accum rs)).
Proof.
  intros Hrs. apply accum_offsets. eapply Forall_impl; [exact Hrs|]. intros r Hr.
  destruct (received_fields r Hr) as (_ & _ & _ & _ & Hn & Hp & _).
  split; [by apply sane_Key|]. by apply received_ok in Hr as [[(_ & Ho & _) _] _].
Qed.

(** ** Segments of received records *)

Section Received.
Context `{Zstd}.

(** The limits of the format: offsets of 64 bits, counts and lengths of 32. *)
Record fits (created : Z) (rs : list LogRecord) : Prop := {
  ft_some : rs <> [];
  ft_lines : Forall fits_line rs;
  ft_count : Z.of_nat (List.length rs) < 2 ^ 32;
  ft_size : Z.of_nat (slen (layout created (groups rs))) < 2 ^ 63;
  ft_summary : Z.of_nat (slen (summary_comp (groups rs))) < 2 ^ 32
}.

Lemma length_groups gs : Forall (fun g : list LogRecord => g <> []) gs ->
  (List.length gs <= List.length (List.concat gs))%nat.
Proof.
  induction 1 as [|g gs Hg _ IH]; [done|]. cbn. rewrite length_app. destruct g; [done|]. cbn. lia.
Qed.

Lemma received_sealable created rs : Forall received rs -> fits created rs -> sealable created (groups rs).
Proof.
  intros Hr [Hne Hl Hn Hs Hsum]. destruct (groups_spec rs) as [Ec Hg]. split.
  - assert (Hc : Forall carried rs).
    { apply Forall_forall. intros r Hin. rewrite Forall_forall in Hr, Hl.
      by apply received_carried; [apply Hr|apply Hl]. }
    rewrite <- Ec in Hc. clear -Hc. induction (groups rs) as [|g gs IH]; [done|].
    apply Forall_app in Hc as [? ?]. constructor; auto.
  - exact Hg.
  - intros E. by rewrite E in Ec.
  - exact Hs.
  - assert (L := length_groups (groups rs)). rewrite Ec in L. apply Nat2Z.inj_le in L; [lia|].
    eapply Forall_impl; [exact Hg|]. by intros g [? _].
  - exact Hsum.
  - rewrite Ec. by apply sane_summary_ok, received_summary.
Qed.

Lemma blocks_wf created gs : sealable created gs -> forall off hs,
  (exists pre, gs = pre ++ hs) -> Forall block_wf (blocks_at off hs).
Proof.
  intros Hse off hs. revert off. induction hs as [|g hs IH]; intros off [pre E]; [constructor|].
  cbn [blocks_at]. constructor; [|by apply IH; exists (pre ++ [g]); rewrite <- app_assoc].
  assert (Hin : g ∈ gs) by (rewrite E; apply elem_of_app; right; left).
  pose proof (se_carried _ _ Hse) as Hc. pose proof (se_groups _ _ Hse) as Hg.
  rewrite Forall_forall in Hc, Hg. destruct (Hg _ Hin) as [_ Hsm]. specialize (Hc _ Hin).
  pose proof (slen_lines_small g Hc Hsm) as Hl. pose proof (small_count g Hsm) as Hn.
  pose proof (se_size _ _ Hse) as Hs. rewrite slen_layout in Hs.
  assert (Hf : (slen (frame g) <= slen (frames gs))%nat).
  { rewrite E, frames_app, slen_app. cbn [frames]. rewrite slen_app. lia. }
  unfold maxTokenSize in Hl. unfold block_wf, block_of. cbn.
  split_and!; [apply int64_range|width..].
Qed.

(** The metadata of a segment of received records, under any valid name. *)
Lemma received_meta_ok created rs id key lp : Forall received rs -> fits created rs ->
  sane_text id -> sane_text key -> sane_text lp ->
  go_meta_ok (set_LocalPath lp (set_key id key (meta_for created (groups rs)))).
Proof.
  intros Hr Hf Hid Hkey Hlp. pose proof (received_sealable created rs Hr Hf) as Hse.
  pose proof (received_summary rs Hr) as Hsum. pose proof (received_offsets rs Hr) as Hoff.
  pose proof (ft_count _ _ Hf) as Hn.
  split; unfold meta_for; cbn; rewrite ?(proj1 (groups_spec rs)).
  - done.
  - exact Hsum.
  - apply (blocks_wf created (groups rs) Hse). by exists [].
  - split; [apply int64_range|width].
  - exact Hoff.
Qed.

(** C31: a segment of what arrived over the wire.  Whatever records agents marshalled, the
    lines decode to records for which writing a segment and reading it back is the
    identity, for the records and for the metadata, and the sidecar of the segment decodes
    to that metadata too.  Only the sizes of the format are conditions: no record an agent
    can send is garbled by the texts, times or bodies it holds. *)
Theorem received_segment_roundtrip created sent lines :
  Forall2 (fun r l => record_wf r /\ GoMarshalRecord r = Some l) sent lines ->
  fits created (carry_record <$> sent) ->
  exists rs sw0 sw meta rd,
    mapM GoUnmarshalRecord lines = Some rs /\ rs = carry_record <$> sent /\
    NewWriter (mkSink "" None) created = (sw0, Ok tt) /\
    write_all rs sw0 = (sw, Ok meta) /\
    Open (sk_data (sw_w sw)) (sm_SizeBytes meta) = Ok rd /\
    read_all rd [] = (rs, Ok tt) /\ Meta rd = forget meta /\
    (forall id key s, sane_text id -> sane_text key ->
      GoMarshalSidecar (set_key id key meta) = Some s ->
      GoUnmarshalSidecar s = Some (set_key id key meta)).
Proof.
  intros Hs Hf. set (rs := carry_record <$> sent) in *.
  assert (Hr : Forall received rs).
  { apply Forall_fmap, Forall_forall. intros r Hin. apply list_elem_of_lookup in Hin as [i Hi].
    destruct (Forall2_lookup_l _ _ _ _ _ Hs Hi) as (l & _ & Hw & Em).
    exists r, l. split_and!; [done..|by apply record_carried]. }
  pose proof (received_sealable created rs Hr Hf) as Hse. destruct (groups_spec rs) as [Ec _].
  pose proof (ft_count _ _ Hf) as Hn.
  destruct (write_layout created rs) as (sw0 & sw & E0 & E1 & E2);
    [by eapply sealable_marshals|lia|].
  exists rs, sw0, sw, (meta_for created (groups rs)), (reader_of created (groups rs)). split_and!.
  - apply mapM_Some. clear -Hs. induction Hs as [|r l sent lines [Hw Em] _ IH]; constructor; [|done].
    by apply record_carried.
  - done.
  - done.
  - done.
  - rewrite E2. cbn [sm_SizeBytes meta_for]. rewrite int64_id by (pose proof (se_size _ _ Hse); width).
    by apply Open_layout.
  - by apply read_all_layout.
  - apply Meta_layout; [done|]. rewrite Ec. lia.
  - intros id key s Hid Hkey Em. apply (sidecar_carried _ _) in Em; [by rewrite Em|].
    by apply (received_meta_ok created rs id key "").
Qed.
End Received.

Module Witness.
Import SegToy.Witness.
Local Existing Instance toy_zstd.

(** A pod name with a byte that is not UTF-8: it arrives as the replacement character. *)
Definition sent0 : list LogRecord :=
  [mkRecord (mkSource "n" "/p" 1 2 3) 10 5 "a" (String (byte_of 255) "") "app" "n" "" "stdout"
     ∅ ∅ "m" (<["k" := "[1, 2 ]"]> ∅); rec 20 7 "b"].
Definition lines0 : list string := default [] (mapM GoMarshalRecord sent0).

Lemma received_segment_roundtrip_witness :
  exists rs sw0 sw meta rd,
    mapM GoUnmarshalRecord lines0 = Some rs /\ rs = carry_record <$> sent0 /\
    NewWriter (mkSink "" None) 9 = (sw0, Ok tt) /\
    write_all rs sw0 = (sw, Ok meta) /\
    Open (sk_data (sw_w sw)) (sm_SizeBytes meta) = Ok rd /\
    read_all rd [] = (rs, Ok tt) /\ Meta rd = forget meta /\
    (forall id key s, sane_text id -> sane_text key ->
      GoMarshalSidecar (set_key id key meta) = Some s ->
      GoUnmarshalSidecar s = Some (set_key id key meta)).
Proof.
  apply (received_segment_roundtrip 9 sent0 lines0).
  - repeat constructor; apply (bool_decide_unpack _); vm_compute; exact I.
  - split; [done|apply (bool_decide_unpack _); vm_compute; exact I|vm_compute; reflexivity..].
Defined.
End Witness.
