(* ===== verification/StoreToy.v ===== *)
(** A concrete stand-in for the bbolt module, on which the store's theorems are evaluated:
    a bucket as a sorted association list, and a file as a line of binary digits. *)

From S2P Require Import Prelude GoStrings GoTime Model SegFormat SegWriter SegToy Catalog MetaJson.
From Stdlib Require Import Ascii Sorted.
Local Open Scope string_scope.
Local Open Scope list_scope.
Local Open Scope Z_scope.

(** ** Byte-wise order *)

Lemma compare_refl s : String.compare s s = Eq.
Proof. induction s as [|c s IH]; cbn; [done|]. unfold Ascii.compare. by rewrite N.compare_refl. Qed.
Lemma compare_eq s t : String.compare s t = Eq -> s = t.
Proof. apply String.compare_eq_iff. Qed.
Lemma key_lt_trans a b c : key_lt a b -> key_lt b c -> key_lt a c.
Proof.
  unfold key_lt. revert b c; induction a as [|x a IH]; intros [|y b] [|z c]; cbn; try done.
  unfold Ascii.compare.
  destruct (N.compare_spec (N_of_ascii x) (N_of_ascii y)) as [Exy|Lxy|Gxy]; [| |done];
  destruct (N.compare_spec (N_of_ascii y) (N_of_ascii z)) as [Eyz|Lyz|Gyz]; try done; intros Hab Hbc.
  - rewrite Exy, Eyz, N.compare_refl. eauto.
  - rewrite Exy. by rewrite (proj2 (N.compare_lt_iff _ _) Lyz).
  - rewrite <- Eyz. by rewrite (proj2 (N.compare_lt_iff _ _) Lxy).
  - by rewrite (proj2 (N.compare_lt_iff _ _) (N.lt_trans _ _ _ Lxy Lyz)).
Qed.
Lemma key_lt_irrefl a : ~ key_lt a a.
Proof. unfold key_lt. by rewrite compare_refl. Qed.
Lemma compare_gt a b : String.compare a b = Gt -> key_lt b a.
Proof. unfold key_lt. rewrite String.compare_antisym. by destruct (String.compare b a). Qed.

(** ** A bucket *)

Abbreviation entries := (list (string * string)).
Definition ordered_keys (l : entries) : Prop := StronglySorted key_lt (fst <$> l).

Fixpoint insert_key (k v : string) (l : entries) : entries :=
  match l with
  | [] => [(k, v)]
  | (k', v') :: l' =>
      match String.compare k k' with
      | Lt => (k, v) :: l
      | Eq => (k, v) :: l'
      | Gt => (k', v') :: insert_key k v l'
      end
  end.
Definition delete_key (k : string) (l : entries) : entries :=
  List.filter (fun e => negb (String.eqb (fst e) k)) l.

Lemma insert_key_elem k v l k' v' :
  ordered_keys l ->
  (k', v') ∈ insert_key k v l <-> (k' = k /\ v' = v) \/ (k' <> k /\ (k', v') ∈ l).
Proof.
  unfold ordered_keys. induction l as [|[k1 v1] l IH]; intros Hs; cbn in *.
  - rewrite list_elem_of_singleton. split; [intros [= -> ->]; by left|].
    intros [[-> ->]|[_ H]]; [done|by apply elem_of_nil in H].
  - apply StronglySorted_inv in Hs as [Hs H1]. rewrite Forall_forall in H1.
    assert (Hin : forall x y, (x, y) ∈ l -> key_lt k1 x).
    { intros x y Hxy. apply H1. by apply (list_elem_of_fmap_2 fst) in Hxy. }
    destruct (String.compare k k1) eqn:E; rewrite ?elem_of_cons.
    + apply compare_eq in E. subst k1. split.
      * intros [[= -> ->]|Hl]; [by left|]. right. split; [|by right].
        intros ->. by apply Hin, key_lt_irrefl in Hl.
      * intros [[-> ->]|[Hne [[= -> ->]|Hl]]]; [by left|done|by right].
    + split.
      * intros [[= -> ->]|Hl]; [by left|]. right. split; [|done].
        intros ->. destruct Hl as [[= -> ->]|Hl]; [by apply key_lt_irrefl in E|].
        apply Hin in Hl. eapply key_lt_irrefl, key_lt_trans; [exact E|exact Hl].
      * intros [[-> ->]|[Hne Hl]]; [by left|by right].
    + apply compare_gt in E. rewrite IH by done. split.
      * intros [[= -> ->]|[?|[? ?]]]; [|by left|right; split; [done|by right]].
        right. split; [|by left]. intros ->. by apply key_lt_irrefl in E.
      * intros [?|[? [?|?]]]; [right; by left|by left|right; by right].
Qed.

Lemma insert_key_sorted k v l : ordered_keys l -> ordered_keys (insert_key k v l).
Proof.
  unfold ordered_keys. induction l as [|[k1 v1] l IH]; intros Hs; cbn in *.
  - repeat constructor.
  - pose proof Hs as Hs'. apply StronglySorted_inv in Hs as [Hs H1].
    destruct (String.compare k k1) eqn:E; cbn.
    + apply compare_eq in E. subst. by constructor.
    + constructor; [done|]. constructor; [done|]. eapply Forall_impl; [exact H1|].
      intros x Hx. by eapply key_lt_trans.
    + constructor; [by apply IH|]. apply Forall_forall. intros x Hx.
      apply list_elem_of_fmap in Hx as ([a b] & -> & Hab). cbn.
      apply insert_key_elem in Hab as [[-> ->]|[_ Hab]]; [by apply compare_gt| |done].
      rewrite Forall_forall in H1. apply H1. by apply (list_elem_of_fmap_2 fst) in Hab.
Qed.

Lemma insert_key_head k v l :
  ordered_keys ((k, v) :: l) -> insert_key k v l = (k, v) :: l.
Proof.
  intros Hs. destruct l as [|[k1 v1] l]; [done|]. cbn.
  apply StronglySorted_inv in Hs as [_ H1]. cbn in H1. apply Forall_cons in H1 as [H1 _].
  unfold key_lt in H1. by rewrite H1.
Qed.
Definition of_list (l : entries) : entries := foldr (fun e => insert_key (fst e) (snd e)) [] l.
Lemma of_list_sorted l : ordered_keys (of_list l).
Proof. induction l as [|e l IH]; cbn; [constructor|]. by apply insert_key_sorted. Qed.
Lemma of_list_id l : ordered_keys l -> of_list l = l.
Proof.
  induction l as [|[k v] l IH]; intros Hs; [done|].
  change (insert_key k v (of_list l) = (k, v) :: l). rewrite IH by (by apply StronglySorted_inv in Hs as [? _]). by apply insert_key_head.
Qed.

Definition Bucket : Type := { l : entries | ordered_keys l }.
Definition bucket (l : entries) : Bucket := exist _ (of_list l) (of_list_sorted l).

Lemma delete_key_sorted k l : ordered_keys l -> ordered_keys (delete_key k l).
Proof.
  unfold ordered_keys, delete_key. induction l as [|[k1 v1] l IH]; intros Hs; cbn; [constructor|].
  apply StronglySorted_inv in Hs as [Hs H1]. destruct (negb _); cbn; [|by apply IH].
  constructor; [by apply IH|]. rewrite Forall_forall in H1 |- *. intros x Hx. apply H1.
  apply list_elem_of_fmap in Hx as (e & -> & He). apply list_elem_of_fmap_2.
  by apply list_elem_of_In, filter_In, proj1, list_elem_of_In in He.
Qed.

#[refine] Definition toy_bolt : Bolt Bucket := {|
  kv_scan d := `d;
  kv_put k v d := Some (exist _ (insert_key k v (`d)) (insert_key_sorted k v (`d) (proj2_sig d)));
  kv_delete k d := Some (exist _ (delete_key k (`d)) (delete_key_sorted k (`d) (proj2_sig d)));
  kv_snapshot d := bits (encode (`d));
  kv_open s := l ← unbits s; l ← decode l; Some (bucket l)
|}.
Proof.
  - intros [l Hl]. exact Hl.
  - intros k v [l Hl] d' [= <-] k' v'. by apply insert_key_elem.
  - intros k [l Hl] d' [= <-] k' v'. cbn. unfold delete_key.
    rewrite list_elem_of_In, filter_In, <- list_elem_of_In. cbn.
    rewrite negb_true_iff, String.eqb_neq. tauto.
  - intros [l Hl]. cbn. rewrite unbits_bits. cbn. rewrite decode_encode. cbn.
    eexists. split; [done|]. cbn. by apply of_list_id.
Defined.

Module Witness.
Local Existing Instance toy_bolt.
Local Existing Instance go_meta.

Definition seg (id : string) (lo hi : Z) : SegmentMeta :=
  mkSegmentMeta id "k" lo hi [] [] [] [] [] [] [] 0 1 false ∅ "".
Definition db : Bucket :=
  fst (cat_put (seg "a" 5 9) (fst (cat_put (seg "b" 3 4) (bucket [])))).

Lemma entry_of_intro k v m :
  UnmarshalEntry v = Some (mkEntry (set_LocalPath "" m) (sm_LocalPath m)) ->
  k = segKey (sm_MinTS m) (sm_ID m) -> entry_of (k, v) m.
Proof. intros E Ek. eexists. split; [exact E|]. split; [by destruct m|done]. Qed.
Lemma db_rep : cat_rep db [seg "b" 3 4; seg "a" 5 9].
Proof.
  unfold cat_rep. let l := eval vm_compute in (kv_scan db) in
  assert (E : kv_scan db = l) by (vm_compute; reflexivity). rewrite E.
  repeat apply Forall2_cons_2; [..|apply Forall2_nil_2]; apply entry_of_intro; vm_compute; reflexivity.
Qed.

Lemma overlapping_sorted_witness :
  exists out, cat_overlapping 4 8 db = Ok out /\
    out = List.filter (fun m => SegmentOverlaps m 4 8) [seg "b" 3 4; seg "a" 5 9] /\
    StronglySorted (fun a b => sm_MinTS a <= sm_MinTS b) out.
Proof.
  apply (overlapping_sorted db [seg "b" 3 4; seg "a" 5 9] 4 8); [apply db_rep|].
  repeat constructor; vm_compute; done.
Defined.

End Witness.
