(* ===== verification/Store.v ===== *)
(** internal/store/store.go: the durable-segment layer.  Seal, Recover and Snapshot hold
    the store's mutex and are atomic; the other methods are single reads. *)

From S2P Require Import Prelude GoStrings GoTime Model SegFormat SegWriter SegReader.
From S2P Require Import Cache Blobs Catalog.
From Stdlib Require Import Ascii.
Local Open Scope string_scope.
Local Open Scope list_scope.
Local Open Scope Z_scope.

Definition metaSuffix : string := ".meta".

Inductive store_error :=
| FSError                      (* a file operation failed *)
| BlobError (e : blob_error)
| CatError (e : cat_error)
| SidecarError                 (* the sidecar could not be encoded or decoded *)
| SegError (e : seg_error).

(** [store.Store]: the configuration's manager ID, the object store, the catalogue, the
    cache, and the node's files (cache directory and scratch files). *)
Record Store (B D : Type) := mkStore {
  s_ManagerID : string; s_blobs : B; s_cat : D; s_cache : diskCache;
  s_fs : gmap string string
}.
Arguments mkStore {B D} _ _ _ _ _.
Arguments s_ManagerID {B D} _.
Arguments s_blobs {B D} _.
Arguments s_cat {B D} _.
Arguments s_cache {B D} _.
Arguments s_fs {B D} _.

Definition segPrefix (mid : string) : string := "segments/" +:+ mid +:+ "/".
Definition snapPrefix (mid : string) : string := "catalog/" +:+ mid +:+ "/".

(** The base name of a segment's key. *)
Definition segBase (m : SegmentMeta) : string :=
  FormatInt (UnixMilli (sm_MinTS m)) +:+ "-" +:+ FormatInt (UnixMilli (sm_MaxTS m))
  +:+ "-" +:+ sm_ID m +:+ ".seg".

(** [Store.segKeyFor] *)
Definition segKeyFor (mid : string) (m : SegmentMeta) : string :=
  let '(y, mo, d) := civil (sm_MinTS m) in
  segPrefix mid +:+ pad_int 4 y +:+ "/" +:+ pad_int 2 mo +:+ "/" +:+ pad_int 2 d +:+ "/"
  +:+ segBase m.

(** [idFromSegKey] *)
Definition idFromSegKey (segKey : string) : string :=
  default "" (after_last "-"%char (TrimSuffix (Base segKey) ".seg")).

Definition set_ID (id : string) (m : SegmentMeta) : SegmentMeta := set_key id (sm_S3Key m) m.

Section Store.
Context {B D : Type} `{Blobs B, Bolt D, MetaCodec, Zstd, JsonCodec}.
Abbreviation St := (Store B D).
Abbreviation M := (stM St store_error).

Definition on_blobs {A} (f : stM B blob_error A) : M A := fun s =>
  let '(b, r) := f (s_blobs s) in
  (mkStore (s_ManagerID s) b (s_cat s) (s_cache s) (s_fs s),
   match r with Ok a => Ok a | Err e => Err (BlobError e) end).
Definition on_cat {A} (f : stM D cat_error A) : M A := fun s =>
  let '(d, r) := f (s_cat s) in
  (mkStore (s_ManagerID s) (s_blobs s) d (s_cache s) (s_fs s),
   match r with Ok a => Ok a | Err e => Err (CatError e) end).
Definition read_cat {A} (f : D -> result cat_error A) : M A :=
  on_cat (fun d => (d, f d)).
(** A cache operation; it may delete cached files. *)
Definition on_cache {A} (f : diskCache -> diskCache * A) : M A := fun s =>
  let c := s_cache s in
  let '(c', a) := f (mkCache (dc_dir c) (dc_maxByte c) (dc_ll c) (dc_items c) (dc_curByt c)
                       (dom (s_fs s))) in
  (mkStore (s_ManagerID s) (s_blobs s) (s_cat s) c'
     (filter (fun kv => kv.1 ∈ dc_files c') (s_fs s)), Ok a).
Definition put_file (path data : string) : M unit :=
  modify_st (fun s => mkStore (s_ManagerID s) (s_blobs s) (s_cat s) (s_cache s)
                        (<[path := data]> (s_fs s))).
Definition read_file (path : string) : M string := fun s =>
  match s_fs s !! path with Some data => (s, Ok data) | None => (s, Err FSError) end.
Definition rename (from to : string) (data : string) : M unit :=
  modify_st (fun s => mkStore (s_ManagerID s) (s_blobs s) (s_cat s) (s_cache s)
                        (<[to := data]> (delete from (s_fs s)))).

(** [Store.Seal]; [rename_ok] is whether the rename into the cache directory succeeds. *)
Definition Seal (rename_ok : bool) (localPath id : string) (meta : SegmentMeta) : M SegmentMeta :=
  s ← get_st;
  let key := segKeyFor (s_ManagerID s) (set_key id "" meta) in
  let meta := set_key id key meta in
  f ← read_file localPath;
  on_blobs (blob_PutReader key f) ;;
  match marshalSidecar meta with
  | None => fail_st SidecarError
  | Some sidecar =>
      on_blobs (blob_Put (key +:+ metaSuffix) sidecar) ;;
      let cachePath := pathFor (s_cache s) id in
      let moved := negb (String.eqb localPath cachePath) && rename_ok in
      (if moved then rename localPath cachePath f else mret tt) ;;
      let meta := set_LocalPath
        (if negb (String.eqb localPath cachePath) && negb rename_ok then localPath
         else cachePath) meta in
      on_cat (cat_put meta) ;;
      on_cache (fun c => (admit_ id (sm_SizeBytes meta) c, tt)) ;;
      mret meta
  end.

(** [store.Open] of a base directory whose catalogue file holds [db] and whose cache
    directory already exists with the files [fs]. *)
Definition OpenStore (ManagerID BaseDir : string) (CacheMaxByte : Z) (blobs : B) (db : D)
    (fs : gmap string string) : Store B D :=
  let cap := if CacheMaxByte <=? 0 then 2 ^ 31 else CacheMaxByte in
  mkStore ManagerID blobs db (newDiskCache (BaseDir +:+ "/cache") cap (dom fs)) fs.

(** [Store.Overlapping] *)
Definition Overlapping (start end_ : Time) : M (list SegmentMeta) :=
  read_cat (cat_overlapping start end_).

(** The two loops of [Store.SourceWatermarks]. *)
Definition raise (out : gmap string Z) (key : string) (off : Z) : gmap string Z :=
  if default 0 (out !! key) <? off then <[key := off]> out else out.
Definition raise_all (out offsets : gmap string Z) : gmap string Z :=
  foldl (fun out kv => raise out kv.1 kv.2) out (map_to_list offsets).
Definition watermarks (segs : list SegmentMeta) : gmap string Z :=
  foldl (fun out m => raise_all out (sm_SourceOffsets m)) ∅ segs.
(** [Store.SourceWatermarks] *)
Definition SourceWatermarks : M (gmap string Z) :=
  segs ← read_cat cat_all; mret (watermarks segs).

(** [Store.ensureLocal] *)
Definition ensureLocal (m : SegmentMeta) : M string :=
  hit ← on_cache (touch (sm_ID m));
  s ← get_st;
  match (match hit with
         | Some path => if decide (is_Some (s_fs s !! path)) then Some path else None
         | None => None
         end) with
  | Some path => mret path
  | None =>
      data ← on_blobs (blob_Get (sm_S3Key m));
      let path := pathFor (s_cache s) (sm_ID m) in
      put_file path data ;;
      on_cache (fun c => (admit_ (sm_ID m) (Z.of_nat (slen data)) c, tt)) ;;
      mret path
  end.

(** [Store.Reader], and its second half, which opens the local file. *)
Definition open_file (path : string) : M Reader :=
  f ← read_file path;
  match Open f (Z.of_nat (slen f)) with
  | Ok rd => mret rd
  | Err e => fail_st (SegError e)
  end.
Definition StoreReader (m : SegmentMeta) : M Reader :=
  path ← ensureLocal m;
  open_file path.

(** [Store.loadLatestSnapshot]; the catalogue errors of its [has] calls are skipped. *)
Definition max_key (ks : list string) : option string :=
  match ks with
  | [] => None
  | k :: ks => Some (foldl (fun latest k =>
                 match String.compare k latest with Gt => k | _ => latest end) k ks)
  end.
Definition merge_one (m : SegmentMeta) : M unit := fun s =>
  match cat_has (sm_ID m) (s_cat s) with
  | Ok false => on_cat (cat_put (set_LocalPath "" m)) s
  | _ => (s, Ok tt)
  end.
Definition merge_snapshot (latest : string) : M unit := fun s =>
  match on_blobs (blob_Get latest) s with
  | (s', Err (BlobError NotFoundError)) => (s', Ok tt)
  | (s', Err e) => (s', Err e)
  | (s', Ok raw) =>
      match kv_open raw with
      | None => (s', Err (CatError CatDB))
      | Some other =>
          match cat_all other with
          | Err e => (s', Err (CatError e))
          | Ok metas => for_st merge_one metas s'
          end
      end
  end.
Definition loadLatestSnapshot : M unit :=
  s ← get_st;
  keys ← on_blobs (blob_List (snapPrefix (s_ManagerID s)));
  match max_key keys with
  | None => mret tt
  | Some latest => merge_snapshot latest
  end.

(** Fetching one sidecar and cataloguing its segment. *)
Definition backfill (k segKey id : string) : M unit := fun s =>
  match on_blobs (blob_Get k) s with
  | (s', Err (BlobError NotFoundError)) => (s', Ok tt)
  | (s', Err e) => (s', Err e)
  | (s', Ok raw) =>
      match unmarshalSidecar raw with
      | None => (s', Err SidecarError)
      | Some meta => on_cat (cat_put (set_LocalPath "" (set_key id segKey meta))) s'
      end
  end.
(** One turn of [Recover]'s loop over the listed keys. *)
Definition recover_key (k : string) : M unit :=
  if negb (HasSuffix k metaSuffix) then mret tt else
  let segKey := TrimSuffix k metaSuffix in
  let id := idFromSegKey segKey in
  if String.eqb id "" then mret tt else
  known ← read_cat (cat_has id);
  if known : bool then mret tt else backfill k segKey id.
(** [Store.Recover] *)
Definition Recover : M unit :=
  loadLatestSnapshot ;;
  s ← get_st;
  keys ← on_blobs (blob_List (segPrefix (s_ManagerID s)));
  for_st recover_key keys.

(** [Store.Snapshot] *)
Definition Snapshot (id : string) : M unit :=
  s ← get_st;
  on_blobs (blob_PutReader (snapPrefix (s_ManagerID s) +:+ id +:+ ".snap") (kv_snapshot (s_cat s))).

End Store.
