(* ===== verification/S3.v ===== *)
(** internal/store/s3.go: the object store over an S3 client.  The client is a parameter
    with the behaviour its users rely on; its errors are the messages the code looks at. *)

From S2P Require Import Prelude GoStrings GoTime Model SegFormat SegWriter SegToy Cache Blobs Catalog MetaJson StoreToy Store.
Local Open Scope string_scope.
Local Open Scope list_scope.
Local Open Scope Z_scope.

(** The S3 client of go-s3, and an upload in progress.  A body may be cut short: the second
    component of [s3_Get]'s result says whether it could be read to its end. *)
Class S3Client (C Up : Type) := {
  s3_objects : C -> gmap string string;
  s3_Get : string -> stM C string (string * bool);
  s3_NewUpload : string -> stM C string Up;
  s3_Stream : Up -> string -> Z -> stM C string Z;
  s3_Done : Up -> stM C string unit;
  s3_List : stM C string (list string);
  s3_Delete : string -> stM C string unit
}.

(** What is documented of it. An upload is visible when it is done, not before. *)
Class S3Laws (C Up : Type) `{S3Client C Up} := {
  s3_get_spec k c c' r : s3_Get k c = (c', r) ->
    s3_objects c' = s3_objects c /\ (forall v, r = Ok (v, true) -> s3_objects c !! k = Some v);
  s3_new_spec k c c' r : s3_NewUpload k c = (c', r) -> s3_objects c' = s3_objects c;
  s3_stream_spec up v n c c' r : s3_Stream up v n c = (c', r) -> s3_objects c' = s3_objects c;
  s3_done_spec k v n up w c c1 c2 c3 r :
    s3_NewUpload k c = (c1, Ok up) -> s3_Stream up v n c1 = (c2, Ok w) -> s3_Done up c2 = (c3, r) ->
    match r with
    | Ok _ => s3_objects c3 = <[k := v]> (s3_objects c2)
    | Err _ => s3_objects c3 = s3_objects c2 \/ s3_objects c3 = <[k := v]> (s3_objects c2)
    end;
  s3_list_spec c c' r : s3_List c = (c', r) ->
    s3_objects c' = s3_objects c /\ (forall ks, r = Ok ks -> forall k, k ∈ ks <-> is_Some (s3_objects c !! k));
  s3_delete_spec k c c' r : s3_Delete k c = (c', r) ->
    match r with
    | Ok _ => s3_objects c' = delete k (s3_objects c)
    | Err _ => s3_objects c' = s3_objects c \/ s3_objects c' = delete k (s3_objects c)
    end
}.

Definition s3UploadBlock : Z := 5 * 1024 * 1024.

(** [isS3NotFound] of an error's message. *)
Definition isS3NotFound (msg : string) : bool := Contains msg "NoSuchKey" || Contains msg "404".

(** [S3Config] and [NewS3Blobs]; [NewClient] is the library's. *)
Record S3Config := mkS3Config {
  s3c_AccessKeyID : string; s3c_SecretAccessKey : string; s3c_Region : string; s3c_Bucket : string;
  s3c_Domain : string; s3c_Protocol : string; s3c_UsePathBuckets : bool
}.
(** [S3Blobs] *)
Record S3Blobs (C : Type) := mkS3Blobs { sb_c : C }.
Arguments mkS3Blobs {C} sb_c.
Arguments sb_c {C} _.

Section S3.
Context {C Up : Type} `{S3Client C Up}.

Definition NewS3Blobs (NewClient : S3Config -> result string C) (cfg : S3Config) : result string (S3Blobs C) :=
  c ← NewClient cfg; mret (mkS3Blobs c).

(** A call of the client from a method of [S3Blobs]. *)
Definition on_client {A} (f : C -> C * A) (s : S3Blobs C) : S3Blobs C * A :=
  let '(c, a) := f (sb_c s) in (mkS3Blobs c, a).

(** [S3Blobs.Get] *)
Definition S3_Get (key : string) : stM (S3Blobs C) blob_error string := fun s =>
  match on_client (s3_Get key) s with
  | (s, Err msg) => (s, Err (if isS3NotFound msg then NotFoundError else BlobFailure))
  | (s, Ok (body, true)) => (s, Ok body)
  | (s, Ok (_, false)) => (s, Err BlobFailure)
  end.
(** [S3Blobs.PutReader] *)
Definition S3_PutReader (key data : string) : stM (S3Blobs C) blob_error unit := fun s =>
  match on_client (s3_NewUpload key) s with
  | (s, Err _) => (s, Err BlobFailure)
  | (s, Ok up) =>
      match on_client (s3_Stream up data s3UploadBlock) s with
      | (s, Err _) => (s, Err BlobFailure)
      | (s, Ok _) =>
          match on_client (s3_Done up) s with
          | (s, Err _) => (s, Err BlobFailure)
          | (s, Ok _) => (s, Ok tt)
          end
      end
  end.
(** [S3Blobs.Put] *)
Definition S3_Put (key data : string) : stM (S3Blobs C) blob_error unit := S3_PutReader key data.
(** [S3Blobs.List] *)
Definition S3_List (prefix : string) : stM (S3Blobs C) blob_error (list string) := fun s =>
  match on_client s3_List s with
  | (s, Err _) => (s, Err BlobFailure)
  | (s, Ok objs) => (s, Ok (List.filter (fun k => HasPrefix k prefix) objs))
  end.
(** [S3Blobs.Delete] *)
Definition S3_Delete (key : string) : stM (S3Blobs C) blob_error unit := fun s =>
  match on_client (s3_Delete key) s with
  | (s, Err msg) => if isS3NotFound msg then (s, Ok tt) else (s, Err BlobFailure)
  | (s, Ok _) => (s, Ok tt)
  end.

#[export] Instance S3Blobs_Blobs : Blobs (S3Blobs C) := {
  contents s := s3_objects (sb_c s);
  blob_Get := S3_Get; blob_Put := S3_Put; blob_PutReader := S3_PutReader;
  blob_List := S3_List; blob_Delete := S3_Delete
}.

(** Messages that look like a missing key are only sent for missing keys. *)
Definition honest_errors : Prop :=
  (forall k c c' msg, s3_Get k c = (c', Err msg) -> isS3NotFound msg = true -> s3_objects c !! k = None) /\
  (forall k c c' msg, s3_Delete k c = (c', Err msg) -> isS3NotFound msg = true ->
     s3_objects c !! k = None /\ s3_objects c' = s3_objects c).

Lemma S3_put_spec `{!S3Laws C Up} k v s s' r :
  S3_PutReader k v s = (s', r) ->
  match r with
  | Ok _ => contents s' = <[k := v]> (contents s)
  | Err _ => contents s' = contents s \/ contents s' = <[k := v]> (contents s)
  end.
Proof.
  destruct s as [c]. unfold S3_PutReader, on_client. cbn [sb_c contents S3Blobs_Blobs].
  destruct (s3_NewUpload k c) as [c1 [up|e]] eqn:E1; cbn; pose proof (s3_new_spec _ _ _ _ E1) as O1;
    [|intros [= <- <-]; by left].
  destruct (s3_Stream up v s3UploadBlock c1) as [c2 [w|e]] eqn:E2; cbn; pose proof (s3_stream_spec _ _ _ _ _ _ E2) as O2;
    [|intros [= <- <-]; left; cbn; congruence].
  destruct (s3_Done up c2) as [c3 [[]|e]] eqn:E3; pose proof (s3_done_spec _ _ _ _ _ _ _ _ _ _ E1 E2 E3) as O3;
    intros [= <- <-]; cbn; rewrite O2, O1 in O3; exact O3.
Qed.

(** C37: the S3 store keeps the contract of an object store.  If the messages that
    [isS3NotFound] takes for a missing key are only sent for missing keys, then [S3Blobs]
    satisfies the laws the store's durability rests on. *)
Theorem S3Blobs_laws `{!S3Laws C Up} : honest_errors -> BlobsLaws (S3Blobs C).
Proof.
  intros [Hg Hd]. split; cbn.
  - intros k [c] b' r. unfold S3_Get, on_client. cbn.
    destruct (s3_Get k c) as [c' [[body ok]|msg]] eqn:E; destruct (s3_get_spec _ _ _ _ E) as [Eo Ev].
    + destruct ok; intros [= <- <-]; (split; [done|split; [|done]]); [|done]. intros v [= <-]. by apply Ev.
    + intros [= <- <-]. split; [done|]. split; [done|]. destruct (isS3NotFound msg) eqn:Em; [|done].
      intros _. by eapply Hg.
  - intros k v b b' r. apply S3_put_spec.
  - intros k v b b' r. apply S3_put_spec.
  - intros p [c] b' r. unfold S3_List, on_client. cbn.
    destruct (s3_List c) as [c' [objs|msg]] eqn:E; destruct (s3_list_spec _ _ _ E) as [Eo Ek]; intros [= <- <-];
      (split; [done|]); [|done]. intros ks [= <-] k. rewrite elem_of_filter_b, (Ek objs eq_refl k). tauto.
  - intros k [c] b' r. unfold S3_Delete, on_client. cbn.
    destruct (s3_Delete k c) as [c' [[]|msg]] eqn:E; pose proof (s3_delete_spec _ _ _ _ E) as Eo; [by intros [= <- <-]|].
    destruct (isS3NotFound msg) eqn:Em; intros [= <- <-]; [|done]. cbn.
    destruct (Hd k c c' msg E Em) as [En ->]. by rewrite delete_id.
Qed.

End S3.

(** ** A client for evaluation *)

Module Witness.
Import StoreToy.Witness.
Local Existing Instance toy_bolt.
Local Existing Instance go_meta.

(** The objects, the uploads in progress, and whether the connection is down. *)
Record ToyS3 := mkToy { ty_objects : gmap string string; ty_pending : gmap string string; ty_down : bool }.

Section Toy.
(** The message of a lost connection. *)
Context (down : string).
Definition toy_get (k : string) : stM ToyS3 string (string * bool) := fun c =>
  if ty_down c then (c, Err down) else
  match ty_objects c !! k with Some v => (c, Ok (v, true)) | None => (c, Err "NoSuchKey") end.
Definition toy_stream (k v : string) (_ : Z) : stM ToyS3 string Z := fun c =>
  (mkToy (ty_objects c) (<[k := v]> (ty_pending c)) (ty_down c), Ok (Z.of_nat (slen v))).
Definition toy_done (k : string) : stM ToyS3 string unit := fun c =>
  match ty_pending c !! k with
  | Some v => (mkToy (<[k := v]> (ty_objects c)) (delete k (ty_pending c)) (ty_down c), Ok tt)
  | None => (c, Err "NoSuchUpload")
  end.
Definition toy_s3 : S3Client ToyS3 string := {|
  s3_objects := ty_objects;
  s3_Get := toy_get;
  s3_NewUpload k := fun c => (c, Ok k);
  s3_Stream := toy_stream;
  s3_Done := toy_done;
  s3_List := fun c => (c, Ok (elements (dom (ty_objects c))));
  s3_Delete k := fun c => (mkToy (delete k (ty_objects c)) (ty_pending c) (ty_down c), Ok tt)
|}.
Local Existing Instance toy_s3.

Lemma toy_laws : S3Laws ToyS3 string.
Proof.
  split; cbn.
  - unfold toy_get. intros k c c' r. destruct (ty_down c); [by intros [= <- <-]|].
    destruct (ty_objects c !! k) as [v|] eqn:E; intros [= <- <-]; (split; [done|]); [by intros ? [= ->]|done].
  - by intros k c c' r [= <- <-].
  - unfold toy_stream. by intros up v n c c' r [= <- <-].
  - unfold toy_stream, toy_done. intros k v n up w c c1 c2 c3 r [= <- <-] [= <- <-]. cbn.
    rewrite lookup_insert_eq. by intros [= <- <-].
  - intros c c' r [= <- <-]. split; [done|]. intros ks [= <-] k. by rewrite elem_of_elements, elem_of_dom.
  - by intros k c c' r [= <- <-].
Qed.
Lemma toy_honest : isS3NotFound down = false -> honest_errors (C := ToyS3) (Up := string).
Proof.
  intros Hd. split; cbn; [|done]. unfold toy_get. intros k c c' msg. destruct (ty_down c).
  - intros [= <- <-]. congruence.
  - by destruct (ty_objects c !! k) eqn:E; intros [= <- <-].
Qed.
End Toy.

Lemma S3Blobs_laws_witness :
  @BlobsLaws (S3Blobs ToyS3) (@S3Blobs_Blobs ToyS3 string (toy_s3 "connection refused")).
Proof.
  apply (@S3Blobs_laws ToyS3 string (toy_s3 "connection refused") (toy_laws _)).
  apply toy_honest. vm_compute. reflexivity.
Defined.

(** A node that restarts while the connection to port 4404 is refused. *)
Definition refused : string := "dial tcp 10.0.0.1:4404: connect: connection refused".
Definition key0 : string := segKeyFor "m" (set_key "A1" "" (seg "" 5 9)).
Definition sidecar0 : string := default "" (marshalSidecar (set_key "A1" key0 (seg "" 5 9))).
Definition lost0 : Store (S3Blobs ToyS3) Bucket :=
  mkStore "m" (mkS3Blobs (mkToy {[key0 +:+ metaSuffix := sidecar0]} ∅ true)) (bucket []) (newDiskCache "c" 100 ∅) ∅.

Section Refused.
Local Instance refusing : S3Client ToyS3 string := toy_s3 refused.

(** An unlucky message hides segments.  A client that keeps every documented law, but
    whose message for a refused connection happens to contain 404, makes [Recover]
    succeed without cataloguing a segment whose sidecar is in the object store: its
    records are in no query, and their redelivery is not recognised. *)
Theorem recover_skips_on_404 :
  S3Laws ToyS3 string /\
  exists s', Recover lost0 = (s', Ok tt) /\
    is_Some (contents (s_blobs s') !! (key0 +:+ metaSuffix)) /\ cat_all (s_cat s') = Ok [].
Proof.
  split; [apply toy_laws|].
  assert (E : is_ok (snd (Recover lost0)) = true) by (vm_compute; reflexivity).
  exists (fst (Recover lost0)). split; [by destruct (Recover lost0) as [s [[]|e]]|].
  split; [vm_compute; eauto|vm_compute; reflexivity].
Qed.
End Refused.

End Witness.
