(* ===== verification/StoreOk.v ===== *)
(** What the store layer guarantees: keys carry their ids, sealing is durable and
    ordered, recovery rebuilds the catalogue, and a reader reads the stored body. *)

From S2P Require Import Prelude GoStrings GoTime Model SegFormat SegWriter SegReader.
From S2P Require Import JsonStruct RecordJson SegToy Cache Blobs Catalog MetaJson StoreToy Store.
From Stdlib Require Import Ascii.
Local Open Scope string_scope.
Local Open Scope list_scope.
Local Open Scope Z_scope.

(** ** Keys *)

Lemma elem_of_bytes_app c s t : c ∈ bytes_of (s +:+ t) <-> c ∈ bytes_of s \/ c ∈ bytes_of t.
Proof. by rewrite bytes_of_app, elem_of_app. Qed.

Lemma FormatInt_no_slash z : "/"%char ∉ bytes_of (FormatInt z).
Proof.
  assert (P : forall p : N, "/"%char ∉ bytes_of (pretty p)).
  { intros p Hin. pose proof (FormatUint_digits (Z.of_N p)) as Hd.
    unfold FormatUint in Hd. rewrite N2Z.id, Forall_forall in Hd. by specialize (Hd _ Hin). }
  unfold FormatInt. destruct z as [|p|p].
  - apply (P 0%N).
  - apply (P (N.pos p)).
  - intros Hin. change (pretty (Z.neg p)) with (String "-" (pretty (N.pos p))) in Hin.
    cbn in Hin. apply elem_of_cons in Hin as [?|Hin]; [done|]. by apply P in Hin.
Qed.

Lemma trim_slashes_id s c : c <> "/"%char -> trim_slashes (s +:+ String c "") = s +:+ String c "".
Proof.
  intros Hc. induction s as [|d s IH].
  - rewrite str_app_nil. cbn. by destruct (Ascii.eqb_spec c "/").
  - rewrite !str_app_cons. cbn. rewrite IH. by destruct s.
Qed.

(** The base name of a path whose last element holds no slash. *)
Lemma Base_app p b c :
  "/"%char ∉ bytes_of (b +:+ String c "") ->
  Base (p +:+ String "/" (b +:+ String c "")) = b +:+ String c "".
Proof.
  intros Hb. unfold Base.
  assert (E : p +:+ String "/" (b +:+ String c "") = (p +:+ String "/" b) +:+ String c "")
    by (by rewrite str_app_assoc, str_app_cons).
  assert (T : trim_slashes (p +:+ String "/" (b +:+ String c "")) = p +:+ String "/" (b +:+ String c "")).
  { rewrite E. apply trim_slashes_id. intros ->. apply Hb. apply elem_of_bytes_app. right. by left. }
  rewrite T, after_last_app by done. by destruct p.
Qed.

(** Segment ids: ULIDs hold neither slashes nor dashes. *)
Definition id_ok (id : string) : Prop :=
  ("/"%char ∉ bytes_of id) /\ ("-"%char ∉ bytes_of id) /\ id <> "".
#[export] Instance id_ok_dec id : Decision (id_ok id).
Proof. unfold id_ok. apply _. Defined.

Lemma idFromSegKey_segKeyFor mid m :
  id_ok (sm_ID m) -> idFromSegKey (segKeyFor mid m) = sm_ID m.
Proof.
  intros (Hs & Hd & _). unfold idFromSegKey, segKeyFor.
  destruct (civil (sm_MinTS m)) as [[y mo] d].
  set (lo := FormatInt (UnixMilli (sm_MinTS m))). set (hi := FormatInt (UnixMilli (sm_MaxTS m))).
  set (name := lo +:+ "-" +:+ hi +:+ "-" +:+ sm_ID m).
  set (pre := segPrefix mid +:+ pad_int 4 y +:+ "/" +:+ pad_int 2 mo +:+ "/" +:+ pad_int 2 d).
  assert (E : segPrefix mid +:+ pad_int 4 y +:+ "/" +:+ pad_int 2 mo +:+ "/" +:+ pad_int 2 d
              +:+ "/" +:+ segBase m = pre +:+ String "/" ((name +:+ ".se") +:+ String "g" "")).
  { unfold pre, segBase, name. fold lo hi. by rewrite !str_app_assoc. }
  assert (Es : (name +:+ ".se") +:+ String "g" "" = name +:+ ".seg") by apply str_app_assoc.
  rewrite E, Base_app, Es, TrimSuffix_app.
  - assert (En : name = (lo +:+ "-" +:+ hi) +:+ String "-" (sm_ID m))
      by (unfold name; by rewrite !str_app_assoc).
    by rewrite En, after_last_app.
  - rewrite Es. unfold name. rewrite !elem_of_bytes_app.
    pose proof (FormatInt_no_slash (UnixMilli (sm_MinTS m))).
    pose proof (FormatInt_no_slash (UnixMilli (sm_MaxTS m))).
    assert (("/"%char ∉ bytes_of "-") /\ ("/"%char ∉ bytes_of ".seg")) as [? ?]
      by (split; apply (bool_decide_unpack _); reflexivity).
    tauto.
Qed.

(** ** The order of a seal's writes *)

(** Every sidecar in the object store has the body it describes. *)
Definition bodies_present (c : gmap string string) : Prop :=
  forall k, is_Some (c !! (k +:+ metaSuffix)) -> is_Some (c !! k).

Lemma no_common_suffix x k a b : a <> b -> x +:+ String a "" <> k +:+ String b "".
Proof.
  intros Hab E. apply (f_equal bytes_of) in E. rewrite !bytes_of_app in E. cbn in E.
  apply app_inj_tail in E as [_ E]. congruence.
Qed.

Lemma segKeyFor_not_meta mid m k : segKeyFor mid m <> k +:+ metaSuffix.
Proof.
  unfold segKeyFor, segBase, metaSuffix. destruct (civil (sm_MinTS m)) as [[y mo] d].
  change ".seg" with (".se" +:+ String "g" ""). change ".meta" with (".met" +:+ String "a" "").
  rewrite <- !str_app_assoc. by apply no_common_suffix.
Qed.
Lemma snap_not_meta p id k : p +:+ id +:+ ".snap" <> k +:+ metaSuffix.
Proof.
  unfold metaSuffix. change ".snap" with (".sna" +:+ String "p" "").
  change ".meta" with (".met" +:+ String "a" "").
  rewrite <- !str_app_assoc. by apply no_common_suffix.
Qed.

Lemma put_body c key v :
  (forall k, key <> k +:+ metaSuffix) -> bodies_present c -> bodies_present (<[key := v]> c).
Proof.
  intros Hk Hc k. rewrite lookup_insert_ne by apply Hk. intros Hm%Hc.
  destruct (decide (key = k)) as [->|Hne]; [rewrite lookup_insert_eq; by eexists|].
  by rewrite lookup_insert_ne.
Qed.
Lemma put_meta c key v :
  is_Some (c !! key) -> bodies_present c -> bodies_present (<[key +:+ metaSuffix := v]> c).
Proof.
  intros Hb Hc k Hm. destruct (decide (key +:+ metaSuffix = k)) as [->|Hne];
    [rewrite lookup_insert_eq; by eexists|]. rewrite lookup_insert_ne by done.
  destruct (decide (k = key)) as [->|Hk]; [done|]. apply Hc.
  rewrite lookup_insert_ne in Hm; [done|]. intros E. by apply suffix_inj in E.
Qed.

Section StoreOk.
Context {B D : Type} `{BlobsLaws B, Bolt D, MetaCodec, Zstd, JsonCodec}.

(** What [Seal] leaves in the object store: nothing new, the body, or the body and the
    sidecar; success means both. *)
Definition seal_outcome (c c' : gmap string string) (key body : string) (sidecar : option string)
    (ok : bool) : Prop :=
  (ok = false /\ (c' = c \/ c' = <[key := body]> c)) \/
  exists sc, sidecar = Some sc /\ c' = <[key +:+ metaSuffix := sc]> (<[key := body]> c).

Lemma Seal_outcome rn lp id meta (s s' : Store B D) r :
  Seal rn lp id meta s = (s', r) ->
  let key := segKeyFor (s_ManagerID s) (set_key id "" meta) in
  s_ManagerID s' = s_ManagerID s /\
  match s_fs s !! lp with
  | None => s' = s /\ is_ok r = false
  | Some body => seal_outcome (contents (s_blobs s)) (contents (s_blobs s')) key body
                   (marshalSidecar (set_key id key meta)) (is_ok r)
  end.
Proof.
  intros E key. unfold Seal in E. rewrite (bind_step _ _ s s s) in E by done. fold key in E.
  unfold mbind at 1, stM_bind in E. unfold read_file at 1 in E.
  destruct (s_fs s !! lp) as [body|]; [|by injection E as <- <-].
  unfold mbind at 1, stM_bind, on_blobs at 1 in E.
  destruct (blob_PutReader key body (s_blobs s)) as [b1 r1] eqn:E1.
  pose proof (put_reader_spec _ _ _ _ _ E1) as P1. destruct r1 as [[]|e1];
    [|injection E as <- <-; split; [done|]; left; split; [done|exact P1]].
  set (s1 := mkStore _ b1 _ _ _) in E.
  destruct (marshalSidecar (set_key id key meta)) as [sc|] eqn:Es;
    [|injection E as <- <-; split; [done|]; left; split; [done|right; exact P1]].
  unfold mbind at 1, stM_bind, on_blobs at 1 in E.
  destruct (blob_Put (key +:+ metaSuffix) sc (s_blobs s1)) as [b2 r2] eqn:E2.
  pose proof (put_spec _ _ _ _ _ E2) as P2. cbn [s_blobs s1] in P2. rewrite P1 in P2.
  destruct r2 as [[]|e2]; cycle 1.
  { injection E as <- <-. split; [done|]. destruct P2 as [P2|P2]; [left|right].
    - split; [done|by right].
    - by exists sc. }
  assert (Rest : contents (s_blobs s') = contents b2 /\ s_ManagerID s' = s_ManagerID s).
  { revert E. unfold mbind, stM_bind, rename, modify_st, on_cat, on_cache.
    destruct (negb _ && rn); cbn;
      (destruct (cat_put _ _) as [d' [[]|e]]; cbn; [|by intros [= <- _]]);
      by intros [= <- _]. }
  destruct Rest as [-> ->]. split; [done|]. right. by exists sc.
Qed.

Lemma Seal_meta rn lp id meta (s s' : Store B D) m :
  Seal rn lp id meta s = (s', Ok m) ->
  sm_S3Key m = segKeyFor (s_ManagerID s) (set_key id "" meta) /\ sm_ID m = id.
Proof.
  unfold Seal. rewrite (bind_step _ _ s s s) by done. set (key := segKeyFor _ _).
  destruct (marshalSidecar (set_key id key meta)) as [sc|]; cycle 1.
  { unfold mbind, stM_bind, read_file. destruct (s_fs s !! lp); [|done].
    unfold on_blobs. by destruct (blob_PutReader _ _ _) as [b [[]|e]]. }
  unfold mbind, stM_bind, read_file. destruct (s_fs s !! lp); [|done].
  unfold on_blobs at 1. destruct (blob_PutReader _ _ _) as [b [[]|e]]; [|done].
  unfold on_blobs. destruct (blob_Put _ _ _) as [b' [[]|e]]; [|done].
  unfold rename, modify_st, on_cat, on_cache.
  destruct (negb _ && rn); cbn; (destruct (cat_put _ _) as [d' [[]|e]]; cbn; [|done]);
    by intros [= _ <-].
Qed.

(** The write order of a seal keeps the object store consistent.  Whatever fails
    and wherever, a seal preserves that every sidecar has its body, so recovery never
    finds a segment whose body is missing. *)
Theorem Seal_preserves_bodies rn lp id meta (s : Store B D) :
  bodies_present (contents (s_blobs s)) ->
  bodies_present (contents (s_blobs (fst (Seal rn lp id meta s)))).
Proof.
  intros Hb. destruct (Seal rn lp id meta s) as [s' r] eqn:E. cbn [fst].
  apply Seal_outcome in E as [_ E]. set (key := segKeyFor _ _) in *.
  destruct (s_fs s !! lp) as [body|]; [|by destruct E as [-> _]].
  assert (Hbody : bodies_present (<[key := body]> (contents (s_blobs s))))
    by (apply put_body; [intros k; apply segKeyFor_not_meta|done]).
  destruct E as [[_ [-> | ->]]|(sc & _ & ->)]; [done|done|].
  apply put_meta; [rewrite lookup_insert_eq; by eexists|done].
Qed.

(** A successful seal is durable and registered.  When [Seal] returns without
    error, the object store holds the segment's body, byte for byte, under its key and
    the sidecar beside it, and the key gives back the id, so recovery can find it. *)
Theorem Seal_durable rn lp id meta (s s' : Store B D) m :
  id_ok id -> Seal rn lp id meta s = (s', Ok m) ->
  exists body sidecar, let key := segKeyFor (s_ManagerID s) (set_key id "" meta) in
    s_fs s !! lp = Some body /\ marshalSidecar (set_key id key meta) = Some sidecar /\
    contents (s_blobs s') !! key = Some body /\
    contents (s_blobs s') !! (key +:+ metaSuffix) = Some sidecar /\
    idFromSegKey (TrimSuffix (key +:+ metaSuffix) metaSuffix) = id.
Proof.
  intros Hid E. apply Seal_outcome in E as [_ E]. set (key := segKeyFor _ _) in *.
  destruct (s_fs s !! lp) as [body|]; [|by destruct E].
  destruct E as [[? _]|(sc & Es & Ec)]; [done|]. exists body, sc. rewrite Ec.
  split; [done|]. split; [done|]. split.
  - rewrite lookup_insert_ne, lookup_insert_eq; [done|].
    intros E. symmetry in E. revert E. apply segKeyFor_not_meta.
  - split; [apply lookup_insert_eq|]. rewrite TrimSuffix_app. by apply idFromSegKey_segKeyFor.
Qed.

(** ** Recovery *)

(** The keys of the sidecars under a prefix, and the segment ids in them, are valid
    texts. *)
Definition keys_ok (p : string) (blobs : gmap string string) : Prop :=
  forall k, is_Some (blobs !! k) -> HasPrefix k p = true -> HasSuffix k metaSuffix = true ->
    text_ok (TrimSuffix k metaSuffix) /\ text_ok (idFromSegKey (TrimSuffix k metaSuffix)).

Lemma segKey_id t id t' id' : segKey t id = segKey t' id' -> id = id'.
Proof.
  unfold segKey. intros E. apply (f_equal (sdrop 8)) in E.
  by rewrite !sdrop_field in E by apply slen_be_put.
Qed.

(** What every step of the recovery does: the object store is only read, and segments
    are only added. *)
Definition grows (s s' : Store B D) : Prop :=
  contents (s_blobs s') = contents (s_blobs s) /\ s_ManagerID s' = s_ManagerID s /\
  forall ms, cat_rep (s_cat s) ms ->
    exists ms', cat_rep (s_cat s') ms' /\ forall m, m ∈ ms -> m ∈ ms'.

Lemma grows_refl s : grows s s.
Proof. split; [done|]. split; [done|]. eauto. Qed.
Lemma grows_trans s1 s2 s3 : grows s1 s2 -> grows s2 s3 -> grows s1 s3.
Proof.
  intros (E1 & M1 & G1) (E2 & M2 & G2). split; [congruence|]. split; [congruence|].
  intros ms Hms. destruct (G1 ms Hms) as (ms2 & Hms2 & I2).
  destruct (G2 ms2 Hms2) as (ms3 & Hms3 & I3). exists ms3. eauto.
Qed.
Lemma grows_same_cat (s s' : Store B D) :
  contents (s_blobs s') = contents (s_blobs s) -> s_ManagerID s' = s_ManagerID s ->
  s_cat s' = s_cat s -> grows s s'.
Proof. intros E1 E2 E3. split; [done|]. split; [done|]. rewrite E3. eauto. Qed.

(** Adding a segment under an id the catalogue does not have. *)
Lemma put_new m (s s' : Store B D) ms :
  meta_ok m -> cat_rep (s_cat s) ms ->
  existsb (fun x => String.eqb (sm_ID x) (sm_ID m)) ms = false ->
  on_cat (cat_put m) s = (s', Ok tt) ->
  contents (s_blobs s') = contents (s_blobs s) /\ s_ManagerID s' = s_ManagerID s /\
  exists ms', cat_rep (s_cat s') ms' /\ m ∈ ms' /\ forall x, x ∈ ms -> x ∈ ms'.
Proof.
  intros Hok Hms Hnew E. unfold on_cat in E. destruct (cat_put m (s_cat s)) as [d [[]|e]] eqn:Ep;
    [|done]. injection E as <-. cbn. split; [done|]. split; [done|].
  destruct (cat_put_rep _ _ _ _ Hok Hms Ep) as (ms' & Hms' & Hin). exists ms'.
  split; [done|]. split; [apply Hin; by left|]. intros x Hx. apply Hin. right. split; [|done].
  intros Ek%segKey_id. assert (existsb (fun x => String.eqb (sm_ID x) (sm_ID m)) ms = true) as Hc;
    [|by rewrite Hc in Hnew].
  apply existsb_exists. exists x. split; [by apply list_elem_of_In|]. by apply String.eqb_eq.
Qed.

Lemma merge_one_grows m (s s' : Store B D) :
  meta_ok (set_LocalPath "" m) -> cat_wf (s_cat s) -> merge_one m s = (s', Ok tt) -> grows s s'.
Proof.
  intros Hok [ms Hms] E. unfold merge_one, cat_has in E. rewrite (has_scan_rep _ _ _ _ Hms) in E.
  cbn [orb] in E. destruct (existsb _ ms) eqn:Eb; [injection E as <-; apply grows_refl|].
  destruct (put_new _ _ _ _ Hok Hms Eb E) as (E1 & E2 & ms' & Hms' & _ & Hin).
  split; [done|]. split; [done|]. intros ms2 Hms2.
  assert (ms2 = ms) as ->.
  { pose proof (cat_all_rep _ _ Hms) as A. rewrite (cat_all_rep _ _ Hms2) in A. by injection A. }
  eauto.
Qed.

Lemma grows_wf (s s' : Store B D) : grows s s' -> cat_wf (s_cat s) -> cat_wf (s_cat s').
Proof. intros (_ & _ & G) [ms Hms]. destruct (G ms Hms) as (ms' & ? & _). by exists ms'. Qed.

Lemma for_st_grows {A} (f : A -> stM (Store B D) store_error unit) l :
  (forall a s s', a ∈ l -> cat_wf (s_cat s) -> f a s = (s', Ok tt) -> grows s s') ->
  forall s s', cat_wf (s_cat s) -> for_st f l s = (s', Ok tt) -> grows s s'.
Proof.
  induction l as [|a l IH]; intros Hf s s' Hwf E; cbn in E.
  - injection E as <-. apply grows_refl.
  - unfold mbind, stM_bind in E. destruct (f a s) as [s1 [[]|e]] eqn:Ea; [|done].
    assert (G1 : grows s s1) by (eapply Hf; [by left|done|done]).
    eapply grows_trans; [exact G1|]. eapply IH; [|by eapply grows_wf|exact E].
    intros b s2 s3 Hb. apply Hf. by right.
Qed.

Lemma on_blobs_get k (s : Store B D) s' r :
  on_blobs (blob_Get k) s = (s', r) ->
  grows s s' /\ s_cat s' = s_cat s /\ (forall v, r = Ok v -> contents (s_blobs s) !! k = Some v) /\
  (r = Err (BlobError NotFoundError) -> contents (s_blobs s) !! k = None).
Proof.
  unfold on_blobs. destruct (blob_Get k (s_blobs s)) as [b r0] eqn:E. intros [= <- <-].
  destruct (get_spec _ _ _ _ E) as (Ec & Hv & Hn). split; [by apply grows_same_cat|].
  split; [done|]. destruct r0 as [v|e]; [split; [intros v' [= ->]; auto|done]|].
  split; [done|]. intros [= ->]. auto.
Qed.
Lemma on_blobs_list p (s : Store B D) s' r :
  on_blobs (blob_List p) s = (s', r) ->
  grows s s' /\ s_cat s' = s_cat s /\
  (forall ks, r = Ok ks -> forall k, k ∈ ks <-> is_Some (contents (s_blobs s) !! k) /\ HasPrefix k p = true).
Proof.
  unfold on_blobs. destruct (blob_List p (s_blobs s)) as [b r0] eqn:E. intros [= <- <-].
  destruct (list_spec _ _ _ _ E) as (Ec & Hk). split; [by apply grows_same_cat|].
  split; [done|]. destruct r0 as [ks|e]; [|done]. intros ks' [= ->]. auto.
Qed.

Lemma scan_metas_ok es start end_ metas m :
  overlapping_scan start end_ es = Ok metas -> m ∈ metas ->
  meta_ok (set_LocalPath "" m).
Proof.
  revert metas. induction es as [|[k v] es IH]; intros metas E Hm; cbn in E.
  - injection E as <-. by apply elem_of_nil in Hm.
  - destruct (UnmarshalEntry v) as [c|] eqn:Ev; [|done].
    apply bind_ok in E as (ms & Ems & [= <-]). destruct (SegmentOverlaps _ _ _); [|by eapply IH].
    apply elem_of_cons in Hm as [->|Hm]; [by apply (entry_decoded v)|by eapply IH].
Qed.

Lemma loadLatestSnapshot_grows s s' :
  cat_wf (s_cat s) -> loadLatestSnapshot s = (s', Ok tt) -> grows s s'.
Proof.
  intros Hwf E. unfold loadLatestSnapshot in E. rewrite (bind_step _ _ s s s) in E by done.
  unfold mbind, stM_bind in E.
  destruct (on_blobs (blob_List _) s) as [s1 [ks|e]] eqn:E1; [|done].
  apply on_blobs_list in E1 as (G1 & C1 & _). eapply grows_trans; [exact G1|].
  destruct (max_key ks) as [latest|]; [|injection E as <-; apply grows_refl].
  unfold merge_snapshot in E. destruct (on_blobs (blob_Get latest) s1) as [s2 r2] eqn:E2.
  apply on_blobs_get in E2 as (G2 & C2 & _). eapply grows_trans; [exact G2|].
  destruct r2 as [raw|e]; cycle 1.
  { repeat match type of E with context [match ?x with _ => _ end] => destruct x end;
      try done; injection E as <-; apply grows_refl. }
  destruct (kv_open raw) as [other|]; [|done]. destruct (cat_all other) as [metas|e] eqn:Ea; [|done].
  eapply for_st_grows; [|by rewrite C2, C1|exact E].
  intros m s3 s4 Hm Hwf3 E3. eapply merge_one_grows; [|exact Hwf3|exact E3].
  by eapply scan_metas_ok.
Qed.

Lemma backfill_spec k segKey id (s s' : Store B D) ms :
  (is_Some (contents (s_blobs s) !! k) -> text_ok segKey /\ text_ok id) -> cat_rep (s_cat s) ms ->
  existsb (fun x => String.eqb (sm_ID x) id) ms = false ->
  backfill k segKey id s = (s', Ok tt) ->
  grows s s' /\ (is_Some (contents (s_blobs s) !! k) ->
    exists ms', cat_rep (s_cat s') ms' /\ exists m, m ∈ ms' /\ sm_ID m = id).
Proof.
  intros Htext Hms Hnew E. unfold backfill in E.
  destruct (on_blobs (blob_Get k) s) as [s1 r] eqn:E1.
  apply on_blobs_get in E1 as (G1 & C1 & Hsome & Hnone). destruct r as [raw|e]; cycle 1.
  { destruct e as [|[]|e| |e]; try done. injection E as <-. split; [done|].
    rewrite Hnone by done. by intros [? ?]. }
  destruct Htext as [Hkey Hid]; [rewrite (Hsome raw) by done; by eexists|].
  destruct (unmarshalSidecar raw) as [meta|] eqn:Eu; [|done]. rewrite <- C1 in Hms.
  destruct (put_new (set_LocalPath "" (set_key id segKey meta)) s1 s' ms) as
    (Ec & Em & ms' & Hms' & Hin & Hsub); [by eapply sidecar_decoded|done|done|done|].
  split; [|intros _; exists ms'; split; [done|]; eexists; by split].
  eapply grows_trans; [exact G1|]. split; [done|]. split; [done|]. intros ms2 Hms2.
  assert (ms2 = ms) as ->.
  { pose proof (cat_all_rep _ _ Hms) as A. rewrite (cat_all_rep _ _ Hms2) in A. by injection A. }
  eauto.
Qed.

(** Listing a sidecar leaves its segment in the catalogue. *)
Lemma recover_key_spec p k (s s' : Store B D) :
  keys_ok p (contents (s_blobs s)) -> HasPrefix k p = true -> cat_wf (s_cat s) -> recover_key k s = (s', Ok tt) ->
  grows s s' /\
  (HasSuffix k metaSuffix = true -> idFromSegKey (TrimSuffix k metaSuffix) <> "" ->
   is_Some (contents (s_blobs s) !! k) ->
   exists ms', cat_rep (s_cat s') ms' /\
     exists m, m ∈ ms' /\ sm_ID m = idFromSegKey (TrimSuffix k metaSuffix)).
Proof.
  intros Hkeys Hp [ms Hms] E. unfold recover_key in E.
  destruct (HasSuffix k metaSuffix) eqn:Esuf; cbn [negb] in E; [|injection E as <-; split; [apply grows_refl|done]].
  pose proof (fun H => Hkeys k H Hp Esuf) as Htext. set (id := idFromSegKey _) in *. destruct (String.eqb_spec id "") as [E0|Hid].
  { injection E as <-. split; [apply grows_refl|by intros _ ?]. }
  unfold mbind, stM_bind, read_cat, on_cat in E. unfold cat_has in E.
  rewrite (has_scan_rep _ _ _ _ Hms) in E. cbn [orb] in E.
  replace (mkStore (s_ManagerID s) (s_blobs s) (s_cat s) (s_cache s) (s_fs s)) with s in E by by destruct s.
  destruct (existsb _ ms) eqn:Eb.
  - injection E as <-. split; [apply grows_refl|]. intros _ _ _. exists ms. split; [done|].
    apply existsb_exists in Eb as (m & Hm%list_elem_of_In & Em%String.eqb_eq). by exists m.
  - destruct (backfill_spec _ _ _ _ _ _ Htext Hms Eb E) as [G Hk]. split; [done|]. intros _ _. apply Hk.
Qed.

Lemma recover_loop p keys (s s' : Store B D) :
  keys_ok p (contents (s_blobs s)) -> Forall (fun k => HasPrefix k p = true) keys -> cat_wf (s_cat s) -> for_st recover_key keys s = (s', Ok tt) ->
  grows s s' /\ forall k, k ∈ keys -> HasSuffix k metaSuffix = true ->
    idFromSegKey (TrimSuffix k metaSuffix) <> "" -> is_Some (contents (s_blobs s) !! k) ->
    exists ms', cat_rep (s_cat s') ms' /\
      exists m, m ∈ ms' /\ sm_ID m = idFromSegKey (TrimSuffix k metaSuffix).
Proof.
  revert s. induction keys as [|k keys IH]; intros s Hkeys Hps Hwf E; cbn in E.
  { injection E as <-. split; [apply grows_refl|]. intros k Hk. by apply elem_of_nil in Hk. }
  apply Forall_cons in Hps as [Hp Hps].
  unfold mbind, stM_bind in E. destruct (recover_key k s) as [s1 [[]|e]] eqn:E1; [|done].
  destruct (recover_key_spec p k s s1 Hkeys Hp Hwf E1) as [G1 K1].
  destruct (IH s1) as [G2 K2]; [by destruct G1 as [-> _]|done|by eapply grows_wf|done|].
  split; [by eapply grows_trans|]. intros k' [->|Hk']%elem_of_cons Hsuf Hid Hin.
  - destruct (K1 Hsuf Hid Hin) as (ms & Hms & m & Hm & Em).
    destruct G2 as (_ & _ & G2). destruct (G2 ms Hms) as (ms' & Hms' & Hsub). eauto 6.
  - apply K2; try done. destruct G1 as [-> _]. done.
Qed.

(** Recovery, in one statement. *)
Lemma Recover_spec (s s' : Store B D) :
  keys_ok (segPrefix (s_ManagerID s)) (contents (s_blobs s)) -> cat_wf (s_cat s) -> Recover s = (s', Ok tt) ->
  grows s s' /\ forall k, is_Some (contents (s_blobs s) !! k) ->
    HasPrefix k (segPrefix (s_ManagerID s)) = true -> HasSuffix k metaSuffix = true ->
    idFromSegKey (TrimSuffix k metaSuffix) <> "" ->
    exists ms', cat_rep (s_cat s') ms' /\
      exists m, m ∈ ms' /\ sm_ID m = idFromSegKey (TrimSuffix k metaSuffix).
Proof.
  intros Hkeys Hwf E. unfold Recover in E. unfold mbind at 1, stM_bind in E.
  destruct (loadLatestSnapshot s) as [s1 [[]|e]] eqn:E1; [|done].
  pose proof (loadLatestSnapshot_grows _ _ Hwf E1) as G1.
  unfold mbind, stM_bind, get_st in E. cbn beta iota in E.
  destruct (on_blobs (blob_List _) s1) as [s2 [ks|e]] eqn:E2; [|done].
  apply on_blobs_list in E2 as (G2 & C2 & Hks). specialize (Hks ks eq_refl).
  pose proof (grows_trans _ _ _ G1 G2) as G12.
  destruct (recover_loop (segPrefix (s_ManagerID s)) ks s2 s') as [G3 Hloop];
    [by destruct G12 as [-> _]| |by eapply grows_wf|done|].
  { apply Forall_forall. intros k Hk. apply Hks in Hk as [_ Hk]. by destruct G1 as (_ & <- & _). }
  split; [by eapply grows_trans|]. intros k Hk Hpre Hsuf Hid.
  destruct G1 as (Ec1 & Em1 & _), G2 as (Ec2 & _ & _). apply Hloop; try done.
  - apply Hks. by rewrite Ec1, Em1.
  - by rewrite Ec2, Ec1.
Qed.

(** C16: recovery rebuilds the catalogue.  Over an object store whose sidecar keys are
    valid UTF-8, when [Recover] returns without error, every
    segment with a sidecar in the object store is in the catalogue under its id, no
    segment already in the catalogue is lost, and the object store is untouched. *)
Theorem Recover_complete (s s' : Store B D) :
  keys_ok (segPrefix (s_ManagerID s)) (contents (s_blobs s)) -> cat_wf (s_cat s) -> Recover s = (s', Ok tt) ->
  contents (s_blobs s') = contents (s_blobs s) /\
  exists ms', cat_rep (s_cat s') ms' /\
    (forall ms m, cat_rep (s_cat s) ms -> m ∈ ms -> m ∈ ms') /\
    (forall k, is_Some (contents (s_blobs s) !! k) ->
       HasPrefix k (segPrefix (s_ManagerID s)) = true -> HasSuffix k metaSuffix = true ->
       idFromSegKey (TrimSuffix k metaSuffix) <> "" ->
       exists m, m ∈ ms' /\ sm_ID m = idFromSegKey (TrimSuffix k metaSuffix)).
Proof.
  intros Hkeys Hwf E. destruct (Recover_spec s s' Hkeys Hwf E) as [(Ec & _ & G) Hk].
  split; [done|]. pose proof Hwf as [ms Hms]. destruct (G ms Hms) as (ms' & Hms' & Hsub).
  assert (U : forall d x y, cat_rep d x -> cat_rep d y -> x = y).
  { intros d x y Hx Hy. pose proof (cat_all_rep _ _ Hx) as A.
    rewrite (cat_all_rep _ _ Hy) in A. by injection A. }
  exists ms'. split; [done|]. split.
  - intros ms2 m Hms2 Hm. rewrite (U _ _ _ Hms2 Hms) in Hm. auto.
  - intros k H1' H2' H3' H4'. destruct (Hk k H1' H2' H3' H4') as (ms2 & Hms2 & m & Hm & Em).
    rewrite (U _ _ _ Hms2 Hms') in Hm. eauto.
Qed.

(** Sealed segments survive the loss of the node's disk.  If a seal succeeded and left
    an object store whose sidecar keys are valid UTF-8, then
    a store that starts from any well-formed catalogue, empty included, and whatever
    cache, over the same object store, and recovers without error, has the segment. *)
Theorem sealed_survives rn lp id meta (s s1 : Store B D) m d cache fs s2 :
  keys_ok (segPrefix (s_ManagerID s)) (contents (s_blobs s1)) -> id_ok id -> Seal rn lp id meta s = (s1, Ok m) -> cat_wf d ->
  Recover (mkStore (s_ManagerID s) (s_blobs s1) d cache fs) = (s2, Ok tt) ->
  exists ms m', cat_rep (s_cat s2) ms /\ m' ∈ ms /\ sm_ID m' = id.
Proof.
  intros Hkeys Hid E Hwf Er. apply Seal_outcome in E as [_ E]. set (key := segKeyFor _ _) in *.
  destruct (s_fs s !! lp) as [body|]; [|by destruct E].
  destruct E as [[? _]|(sc & _ & Ec)]; [done|].
  assert (Eid : idFromSegKey (TrimSuffix (key +:+ metaSuffix) metaSuffix) = id).
  { rewrite TrimSuffix_app. by apply idFromSegKey_segKeyFor. }
  destruct (Recover_spec (mkStore (s_ManagerID s) (s_blobs s1) d cache fs) s2 Hkeys Hwf Er) as [_ Hk]. cbn [s_blobs s_ManagerID] in Hk.
  destruct (Hk (key +:+ metaSuffix)) as (ms & Hms & m' & Hm' & Em).
  - rewrite Ec, lookup_insert_eq. by eexists.
  - unfold key, segKeyFor. destruct (civil _) as [[y mo] dd]. rewrite str_app_assoc.
    apply HasPrefix_app.
  - apply HasSuffix_app.
  - rewrite Eid. apply Hid.
  - rewrite Eid in Em. eauto.
Qed.

(** ** Reading a segment *)

Lemma touch_miss m (c : diskCache) :
  cache_inv c -> sm_ID m ∉ ci_id <$> dc_ll c -> touch (sm_ID m) c = (c, None).
Proof.
  intros Hc Hn. unfold touch. pose proof (lookup_item c (sm_ID m) Hc) as L.
  destruct (if decide _ then _ else _) as [it|]; [|done]. destruct L as [Hid L].
  exfalso. apply Hn. rewrite L. cbn. rewrite Hid. by left.
Qed.

(** The cache with the given set of files. *)
Definition with_files (f : gset string) (c : diskCache) : diskCache :=
  mkCache (dc_dir c) (dc_maxByte c) (dc_ll c) (dc_items c) (dc_curByt c) f.
Lemma with_files_inv f c : cache_inv c -> cache_inv (with_files f c).
Proof. intros []. by split. Qed.

(** On a cache miss, the body is fetched, written to the cache path and admitted; what
    happens next depends on whether its file is still there. *)
Lemma StoreReader_miss m (s : Store B D) b data :
  cache_inv (s_cache s) -> sm_ID m ∉ ci_id <$> dc_ll (s_cache s) ->
  blob_Get (sm_S3Key m) (s_blobs s) = (b, Ok data) ->
  let path := pathFor (s_cache s) (sm_ID m) in
  let c := with_files (dom (<[path := data]> (filter (fun kv => kv.1 ∈ dom (s_fs s)) (s_fs s)))) (s_cache s) in
  snd (StoreReader m s) =
    if decide (path ∈ dc_files (admit_ (sm_ID m) (Z.of_nat (slen data)) c))
    then match Open data (Z.of_nat (slen data)) with Ok rd => Ok rd | Err e => Err (SegError e) end
    else Err FSError.
Proof.
  intros Hc Hmiss Hget path c. unfold StoreReader, open_file, ensureLocal.
  unfold mbind, stM_bind, on_cache at 1. fold (with_files (dom (s_fs s)) (s_cache s)).
  rewrite touch_miss by (by try apply with_files_inv). cbn.
  unfold on_blobs. cbn. rewrite Hget. cbn. unfold read_file. cbn [s_fs].
  change (pathFor (with_files (dom (s_fs s)) (s_cache s)) (sm_ID m)) with path.
  set (files := filter _ (<[path := data]> _)).
  change (mkCache _ _ _ _ _ (dom (<[path := data]> _))) with c in files.
  assert (L : files !! path = if decide (path ∈ dc_files (admit_ (sm_ID m) (Z.of_nat (slen data)) c))
              then Some data else None).
  { unfold files. destruct (decide _) as [Hin|Hin].
    - apply map_lookup_filter_Some_2; [apply lookup_insert_eq|done].
    - apply map_lookup_filter_None_2. right. by intros x _. }
  rewrite L. destruct (decide _); [|done]. by destruct (Open data _).
Qed.

(** A segment the cache can hold reads back from the object store.  If its body is
    not cached and fits the cache, [Reader] downloads it and opens exactly that body. *)
Theorem StoreReader_downloads m (s : Store B D) b data :
  cache_inv (s_cache s) -> sm_ID m ∉ ci_id <$> dc_ll (s_cache s) ->
  blob_Get (sm_S3Key m) (s_blobs s) = (b, Ok data) ->
  Z.of_nat (slen data) <= dc_maxByte (s_cache s) < 2 ^ 63 ->
  snd (StoreReader m s)
  = match Open data (Z.of_nat (slen data)) with Ok rd => Ok rd | Err e => Err (SegError e) end.
Proof.
  intros Hc Hmiss Hget Hsz. rewrite (StoreReader_miss m s b data) by done.
  set (path := pathFor (s_cache s) (sm_ID m)). set (c := with_files _ _).
  rewrite decide_True; [done|]. apply (admit_keeps (sm_ID m) (Z.of_nat (slen data)) c).
  - by apply with_files_inv.
  - cbn. lia.
  - cbn. lia.
  - cbn. rewrite dom_insert_L. set_solver.
Qed.

(** A segment larger than the whole cache can never be read: each attempt downloads
    it, evicts it again at admission with everything else, and fails on the missing
    file. *)
Theorem StoreReader_oversized m (s : Store B D) b data :
  cache_inv (s_cache s) -> sm_ID m ∉ ci_id <$> dc_ll (s_cache s) ->
  blob_Get (sm_S3Key m) (s_blobs s) = (b, Ok data) ->
  0 <= dc_maxByte (s_cache s) < Z.of_nat (slen data) ->
  Z.of_nat (slen data) + sizes (dc_ll (s_cache s)) < 2 ^ 63 ->
  Forall (fun it => 0 <= ci_size it) (dc_ll (s_cache s)) ->
  snd (StoreReader m s) = Err FSError.
Proof.
  intros Hc Hmiss Hget Hsz Hsum Hpos. rewrite (StoreReader_miss m s b data) by done.
  set (path := pathFor (s_cache s) (sm_ID m)). set (c := with_files _ _).
  rewrite decide_False; [done|].
  apply (admit_oversized (sm_ID m) (Z.of_nat (slen data)) c); try done.
  by apply with_files_inv.
Qed.

End StoreOk.

(** ** Watermarks *)

Lemma raise_ge out k off k' :
  default 0 (out !! k') <= default 0 (raise out k off !! k') /\
  off <= default 0 (raise out k off !! k) /\
  (default 0 (raise out k off !! k') = default 0 (out !! k') \/
   k' = k /\ raise out k off !! k' = Some off).
Proof.
  unfold raise. destruct (Z.ltb_spec (default 0 (out !! k)) off) as [L|L].
  - rewrite lookup_insert_eq. cbn. destruct (decide (k' = k)) as [->|Hne].
    + rewrite lookup_insert_eq. cbn. split; [lia|]. split; [lia|]. by right.
    + rewrite lookup_insert_ne by done. split; [lia|]. split; [lia|]. by left.
  - split; [lia|]. split; [lia|]. by left.
Qed.

Lemma raise_list_spec (l : list (string * Z)) out k :
  let out' := foldl (fun out kv => raise out kv.1 kv.2) out l in
  default 0 (out !! k) <= default 0 (out' !! k) /\
  (forall off, (k, off) ∈ l -> off <= default 0 (out' !! k)) /\
  (default 0 (out' !! k) = default 0 (out !! k) \/ (k, default 0 (out' !! k)) ∈ l).
Proof.
  revert out; induction l as [|[k1 o1] l IH]; intros out; cbn.
  - split; [lia|]. split; [|by left]. intros off Hin. by apply elem_of_nil in Hin.
  - destruct (IH (raise out k1 o1)) as (I1 & I2 & I3). destruct (raise_ge out k1 o1 k) as (R1 & R2 & R3).
    split; [lia|]. split.
    + intros off [[= -> ->]|Hin]%elem_of_cons; [lia|by apply I2].
    + destruct I3 as [I3|I3]; [|right; by right]. rewrite I3.
      destruct R3 as [R3|[Hk R3]]; [by left|]. right. subst k1. rewrite R3. by left.
Qed.

(** The recovered watermark of a source is the highest offset any catalogued
    segment holds of it, and 0 when none does. *)
Theorem watermarks_max segs k :
  (forall m off, m ∈ segs -> sm_SourceOffsets m !! k = Some off ->
     off <= default 0 (watermarks segs !! k)) /\
  (default 0 (watermarks segs !! k) = 0 \/
   exists m, m ∈ segs /\ sm_SourceOffsets m !! k = Some (default 0 (watermarks segs !! k))).
Proof.
  unfold watermarks. rewrite <- (rev_involutive segs). generalize (rev segs) as l. intros l.
  induction l as [|m l [I1 I2]]; cbn.
  - split; [|left; by rewrite lookup_empty]. intros m off Hm. by apply elem_of_nil in Hm.
  - rewrite foldl_app. cbn. set (out := foldl _ ∅ (rev l)) in *.
    destruct (raise_list_spec (map_to_list (sm_SourceOffsets m)) out k) as (R1 & R2 & R3).
    fold (raise_all out (sm_SourceOffsets m)) in *. split.
    + intros m' off [Hm|Hm%list_elem_of_singleton]%elem_of_app Hoff.
      * specialize (I1 m' off Hm Hoff). lia.
      * subst m'. apply R2. by apply elem_of_map_to_list.
    + destruct R3 as [R3|R3%elem_of_map_to_list].
      * rewrite R3. destruct I2 as [I2|(m' & Hm' & Eo)]; [by left|]. right. exists m'.
        split; [|done]. apply elem_of_app. by left.
      * right. exists m. split; [|done]. apply elem_of_app. right. by left.
Qed.

(** ** Evaluation *)

Module Witness.
Import StoreToy.Witness.
Local Existing Instance toy_zstd.
Local Existing Instance go_json.
Local Existing Instance toy_bolt.
Local Existing Instance go_meta.
Local Existing Instance MemBlobs_laws.

Definition s0 : Store (gmap string string) Bucket :=
  mkStore "m" ∅ (bucket []) (newDiskCache "c" 100 ∅) {["t" := "body"]}.
Definition sealed := Seal true "t" "A1" (seg "" 5 9) s0.
Definition s1 : Store (gmap string string) Bucket := fst sealed.
Definition m1 : SegmentMeta := match snd sealed with Ok m => m | Err _ => seg "" 0 0 end.
(** The node comes back with empty disks. *)
Definition s2 : Store (gmap string string) Bucket :=
  mkStore "m" (s_blobs s1) (bucket []) (newDiskCache "c" 100 ∅) ∅.
Definition s3 : Store (gmap string string) Bucket := fst (Recover s2).

Lemma keys1 : keys_ok (segPrefix "m") (contents (s_blobs s1)).
Proof.
  assert (H : map_Forall (fun k _ => HasSuffix k metaSuffix = true -> sane_text (TrimSuffix k metaSuffix) /\
    sane_text (idFromSegKey (TrimSuffix k metaSuffix))) (contents (s_blobs s1)))
    by (apply (bool_decide_unpack _); vm_compute; exact I).
  intros k [v Hk] _. exact (H k v Hk).
Qed.
Lemma empty_wf : cat_wf (bucket []).
Proof. exists []. constructor. Qed.
Lemma seal_ok : Seal true "t" "A1" (seg "" 5 9) s0 = (s1, Ok m1).
Proof.
  assert (E : is_ok (snd sealed) = true) by (vm_compute; reflexivity).
  unfold s1, m1. fold sealed. destruct sealed as [s [m|e]]; done.
Qed.
Lemma recover_ok : Recover s2 = (s3, Ok tt).
Proof.
  assert (E : is_ok (snd (Recover s2)) = true) by (vm_compute; reflexivity).
  unfold s3. destruct (Recover s2) as [s [[]|e]]; done.
Qed.
Lemma id_A1 : id_ok "A1".
Proof. apply (bool_decide_unpack _). vm_compute. exact I. Qed.
Lemma cache0_inv : cache_inv (newDiskCache "c" 100 ∅).
Proof. split; cbn; [done|constructor|constructor|done]. Qed.

Lemma Seal_preserves_bodies_witness : bodies_present (contents (s_blobs s1)).
Proof.
  assert (H0 : bodies_present (contents (s_blobs s0))).
  { intros k. cbn. rewrite lookup_empty. by intros [? ?]. }
  exact (Seal_preserves_bodies true "t" "A1" (seg "" 5 9) s0 H0).
Defined.

Lemma Seal_durable_witness :
  exists body sidecar, let key := segKeyFor (s_ManagerID s0) (set_key "A1" "" (seg "" 5 9)) in
    s_fs s0 !! "t" = Some body /\ marshalSidecar (set_key "A1" key (seg "" 5 9)) = Some sidecar /\
    contents (s_blobs s1) !! key = Some body /\ contents (s_blobs s1) !! (key +:+ metaSuffix) = Some sidecar /\
    idFromSegKey (TrimSuffix (key +:+ metaSuffix) metaSuffix) = "A1".
Proof. apply (Seal_durable true "t" "A1" (seg "" 5 9) s0 s1 m1); [apply id_A1|apply seal_ok]. Defined.

Lemma Recover_complete_witness :
  contents (s_blobs s3) = contents (s_blobs s2) /\
  exists ms', cat_rep (s_cat s3) ms' /\
    (forall ms m, cat_rep (s_cat s2) ms -> m ∈ ms -> m ∈ ms') /\
    (forall k, is_Some (contents (s_blobs s2) !! k) -> HasPrefix k (segPrefix (s_ManagerID s2)) = true ->
       HasSuffix k metaSuffix = true -> idFromSegKey (TrimSuffix k metaSuffix) <> "" ->
       exists m, m ∈ ms' /\ sm_ID m = idFromSegKey (TrimSuffix k metaSuffix)).
Proof. apply (Recover_complete s2 s3); [apply keys1|apply empty_wf|apply recover_ok]. Defined.

Lemma sealed_survives_witness :
  exists ms m', cat_rep (s_cat s3) ms /\ m' ∈ ms /\ sm_ID m' = "A1".
Proof.
  apply (sealed_survives true "t" "A1" (seg "" 5 9) s0 s1 m1 (bucket []) (newDiskCache "c" 100 ∅) ∅ s3);
    [apply keys1|apply id_A1|apply seal_ok|apply empty_wf|apply recover_ok].
Defined.

Lemma StoreReader_downloads_witness :
  snd (StoreReader m1 s2) = Err (SegError ErrUnsealed).
Proof.
  apply (StoreReader_downloads m1 s2 (s_blobs s1) "body");
    [apply cache0_inv|apply not_elem_of_nil|vm_compute; reflexivity|vm_compute; split; done].
Defined.

Lemma StoreReader_oversized_witness :
  snd (StoreReader m1 (mkStore "m" (s_blobs s1) (bucket []) (newDiskCache "c" 3 ∅) ∅)) = Err FSError.
Proof.
  apply (StoreReader_oversized m1 (mkStore "m" (s_blobs s1) (bucket []) (newDiskCache "c" 3 ∅) ∅)
    (s_blobs s1) "body");
    [split; cbn; [done|constructor|constructor|done]|apply not_elem_of_nil|vm_compute; reflexivity
    |vm_compute; split; done|vm_compute; reflexivity|constructor].
Defined.

End Witness.
