(* ===== verification/Recovery.v ===== *)
(** What the object store and the catalogue hold together: the segments a store has
    sealed, as an invariant of [Seal], [Snapshot], reading and [Recover], across crashes in
    the middle of a seal; and the watermarks a recovered catalogue gives. *)

From S2P Require Import Prelude GoStrings GoTime Model SegFormat SegWriter SegReader.
From S2P Require Import Cache Blobs Catalog Store StoreOk.
From Stdlib Require Import Ascii.
Local Open Scope string_scope.
Local Open Scope list_scope.
Local Open Scope Z_scope.

(** A sealed segment: its metadata as in the sidecar, and its file. *)
Record segment := mkSegment { sg_meta : SegmentMeta; sg_body : string }.
Definition sg_id (sg : segment) : string := sm_ID (sg_meta sg).
Definition sg_key (sg : segment) : string := sm_S3Key (sg_meta sg).

(** The segment [Seal] makes of a file and the writer's metadata. *)
Definition new_segment (mid id : string) (meta : SegmentMeta) (body : string) : segment :=
  mkSegment (set_key id (segKeyFor mid (set_key id "" meta)) meta) body.

(** Listed metadata may carry a local path. *)
Definition of_segment (segs : list segment) (m : SegmentMeta) : Prop :=
  exists sg, sg ∈ segs /\ set_LocalPath "" m = sg_meta sg.

Lemma of_segment_app segs segs' m : of_segment segs m -> of_segment (segs ++ segs') m.
Proof. intros (sg & Hsg & E). exists sg. split; [apply elem_of_app; by left|done]. Qed.
Lemma of_segments_app segs segs' ms :
  Forall (of_segment segs) ms -> Forall (of_segment (segs ++ segs')) ms.
Proof. intros H. eapply Forall_impl; [exact H|]. intros m. apply of_segment_app. Qed.

(** ** Keys *)

Lemma segKeyFor_prefix mid m : HasPrefix (segKeyFor mid m) (segPrefix mid) = true.
Proof. unfold segKeyFor. destruct (civil _) as [[y mo] d]. apply HasPrefix_app. Qed.
Lemma HasPrefix_app_r k p s : HasPrefix k p = true -> HasPrefix (k +:+ s) p = true.
Proof.
  unfold HasPrefix. revert k; induction p as [|c p IH]; intros k; [by destruct (k +:+ s)|].
  destruct k as [|d k]; [done|]. rewrite str_app_cons. cbn.
  destruct (Ascii.ascii_dec c d); [apply IH|done].
Qed.
Lemma seg_not_snap mid mid' k :
  HasPrefix k (segPrefix mid) = true -> HasPrefix k (snapPrefix mid') = false.
Proof.
  unfold HasPrefix, segPrefix, snapPrefix. destruct k as [|c k]; [done|].
  destruct (Ascii.ascii_dec "s"%char c) as [<-|Hc]; [reflexivity|].
  change ("segments/" +:+ mid +:+ "/") with (String "s" ("egments/" +:+ mid +:+ "/")).
  cbn [String.prefix]. destruct (Ascii.ascii_dec _ c); done.
Qed.
Lemma not_meta_trim k : (forall k', k <> k' +:+ metaSuffix) -> TrimSuffix k metaSuffix = k.
Proof.
  intros H. unfold TrimSuffix. destruct (HasSuffix k metaSuffix) eqn:E; [|done]. exfalso.
  unfold HasSuffix in E. apply andb_true_iff in E as [L%Nat.leb_le E%String.eqb_eq].
  apply (H (stake (slen k - slen metaSuffix) k)). rewrite <- E at 2. by rewrite stake_sdrop.
Qed.

Section Recovery.
Context {B D : Type} `{BlobsLaws B, Bolt D, MetaCodec}.
Context (mid : string).

(** A segment under the name its metadata gives it. *)
Record named (sg : segment) : Prop := {
  nm_key : sg_key sg = segKeyFor mid (set_key (sg_id sg) "" (sg_meta sg));
  nm_id : id_ok (sg_id sg);
  nm_texts : text_ok (sg_id sg) /\ text_ok (sg_key sg);
  nm_path : sm_LocalPath (sg_meta sg) = "";
  nm_meta : meta_ok (sg_meta sg)
}.

(** The object store holds body and sidecar of exactly these segments, and the manager's
    snapshots list no others. *)
Record objects (c : gmap string string) (segs : list segment) : Prop := {
  ob_named : Forall named segs;
  ob_ids : NoDup (sg_id <$> segs);
  ob_body sg : sg ∈ segs -> c !! sg_key sg = Some (sg_body sg);
  ob_sidecar sg : sg ∈ segs -> exists sc,
    marshalSidecar (sg_meta sg) = Some sc /\ c !! (sg_key sg +:+ metaSuffix) = Some sc;
  ob_only k : is_Some (c !! (k +:+ metaSuffix)) -> HasPrefix (k +:+ metaSuffix) (segPrefix mid) = true ->
    exists sg, sg ∈ segs /\ k = sg_key sg;
  ob_snaps k raw : c !! k = Some raw -> HasPrefix k (snapPrefix mid) = true ->
    exists d ms, kv_open raw = Some d /\ cat_rep d ms /\ Forall (of_segment segs) ms
}.

(** The catalogue lists segments, if not all. *)
Definition catalogued (d : D) (segs : list segment) : Prop :=
  exists ms, cat_rep d ms /\ Forall (of_segment segs) ms.

(** No object of the manager carries the id: ULIDs are not reused. *)
Definition fresh_id (id : string) (c : gmap string string) : Prop :=
  forall k, is_Some (c !! k) -> HasPrefix k (segPrefix mid) = true ->
    idFromSegKey (TrimSuffix k metaSuffix) <> id.

Lemma named_id sg : named sg -> idFromSegKey (sg_key sg) = sg_id sg.
Proof. intros Hn. rewrite (nm_key _ Hn). by rewrite idFromSegKey_segKeyFor by apply (nm_id _ Hn). Qed.
Lemma named_prefix sg : named sg -> HasPrefix (sg_key sg) (segPrefix mid) = true.
Proof. intros Hn. rewrite (nm_key _ Hn). apply segKeyFor_prefix. Qed.
Lemma named_not_meta sg k : named sg -> sg_key sg <> k +:+ metaSuffix.
Proof. intros Hn. rewrite (nm_key _ Hn). apply segKeyFor_not_meta. Qed.
Lemma named_inj a b : named a -> named b -> sg_key a = sg_key b -> sg_id a = sg_id b.
Proof. intros Ha Hb E. by rewrite <- (named_id a Ha), <- (named_id b Hb), E. Qed.

Lemma objects_named c segs sg : objects c segs -> sg ∈ segs -> named sg.
Proof. intros Ho Hin. pose proof (ob_named _ _ Ho) as Hn. rewrite Forall_forall in Hn. auto. Qed.
Lemma objects_same c segs a b : objects c segs -> a ∈ segs -> b ∈ segs -> sg_id a = sg_id b -> a = b.
Proof.
  intros Ho [i Hi]%list_elem_of_lookup [j Hj]%list_elem_of_lookup E.
  assert (i = j) as ->; [|congruence]. eapply (NoDup_lookup _ _ _ _ (ob_ids _ _ Ho));
    rewrite list_lookup_fmap; [by rewrite Hi|rewrite Hj; cbn; by f_equal].
Qed.
Lemma fresh_key c segs new sg : objects c segs -> named new -> fresh_id (sg_id new) c -> sg ∈ segs ->
  sg_key new <> sg_key sg /\ sg_id sg <> sg_id new.
Proof.
  intros Ho Hn Hf Hsg. pose proof (objects_named _ _ _ Ho Hsg) as Hs.
  assert (Hid : sg_id sg <> sg_id new).
  { rewrite <- (named_id sg Hs). rewrite <- (not_meta_trim (sg_key sg)) by (intros k; by apply named_not_meta).
    apply Hf; [rewrite (ob_body _ _ Ho) by done; by eexists|by apply named_prefix]. }
  split; [|done]. intros E. apply Hid. symmetry. by apply named_inj.
Qed.

(** ** What the writes leave *)

Lemma objects_put_body c segs new v :
  objects c segs -> named new -> fresh_id (sg_id new) c -> objects (<[sg_key new := v]> c) segs.
Proof.
  intros Ho Hn Hf. pose proof (fun sg => fresh_key c segs new sg Ho Hn Hf) as Hk.
  destruct Ho as [Hns Hids Hb Hs Honly Hsnap]. split; [done|done|..].
  - intros sg Hsg. rewrite lookup_insert_ne by by apply Hk. auto.
  - intros sg Hsg. rewrite lookup_insert_ne by by apply named_not_meta. auto.
  - intros k. rewrite lookup_insert_ne by by apply named_not_meta. apply Honly.
  - intros k raw. destruct (decide (sg_key new = k)) as [<-|Hne]; [|rewrite lookup_insert_ne by done; apply Hsnap].
    intros _ Hp. by rewrite (seg_not_snap mid) in Hp by by apply named_prefix.
Qed.

Lemma objects_add c segs new sc :
  objects c segs -> named new -> fresh_id (sg_id new) c -> marshalSidecar (sg_meta new) = Some sc ->
  objects (<[sg_key new +:+ metaSuffix := sc]> (<[sg_key new := sg_body new]> c)) (segs ++ [new]).
Proof.
  intros Ho Hn Hf Hm. pose proof (fun sg => fresh_key c segs new sg Ho Hn Hf) as Hk.
  pose proof (fun sg => objects_named c segs sg Ho) as Hnd.
  destruct Ho as [Hns Hids Hb Hs Honly Hsnap].
  assert (Hne : forall sg, named sg -> sg_key new +:+ metaSuffix <> sg_key sg)
    by (intros sg H' E; symmetry in E; revert E; by apply named_not_meta).
  split.
  - apply Forall_app. split; [done|by constructor].
  - rewrite fmap_app. apply NoDup_app. split; [done|]. split; [|apply NoDup_singleton].
    intros i (sg & -> & Hsg)%list_elem_of_fmap Hi%list_elem_of_singleton. by apply (Hk sg Hsg).
  - intros sg [Hsg|Hsg%list_elem_of_singleton]%elem_of_app.
    + rewrite lookup_insert_ne by (apply Hne; auto). rewrite lookup_insert_ne by by apply Hk. auto.
    + subst sg. rewrite lookup_insert_ne by (by apply Hne). apply lookup_insert_eq.
  - intros sg [Hsg|Hsg%list_elem_of_singleton]%elem_of_app.
    + rewrite lookup_insert_ne by (intros E%suffix_inj; by apply (proj1 (Hk sg Hsg))).
      rewrite lookup_insert_ne by (by apply named_not_meta). auto.
    + subst sg. exists sc. split; [done|apply lookup_insert_eq].
  - intros k Hk' Hp. destruct (decide (sg_key new = k)) as [<-|Hkn].
    + exists new. split; [apply elem_of_app; right; by left|done].
    + rewrite lookup_insert_ne in Hk' by (by intros E%suffix_inj).
      rewrite lookup_insert_ne in Hk' by (by apply named_not_meta).
      destruct (Honly k Hk' Hp) as (sg & Hsg & E). exists sg. split; [apply elem_of_app; by left|done].
  - intros k raw Hk' Hp.
    assert (Hseg : forall k', HasPrefix k' (segPrefix mid) = true -> k' <> k).
    { intros k' Hp' ->. by rewrite (seg_not_snap mid) in Hp. }
    rewrite !lookup_insert_ne in Hk' by (apply Hseg; try apply HasPrefix_app_r; by apply named_prefix).
    destruct (Hsnap k raw Hk' Hp) as (d & ms & Hd & Hr & Hms). exists d, ms.
    split; [done|]. split; [done|]. by apply of_segments_app.
Qed.

Lemma objects_snap c segs d id : objects c segs -> catalogued d segs ->
  objects (<[snapPrefix mid +:+ id +:+ ".snap" := kv_snapshot d]> c) segs.
Proof.
  intros Ho (ms & Hr & Hms). pose proof (fun sg => objects_named c segs sg Ho) as Hnd.
  destruct Ho as [Hns Hids Hb Hs Honly Hsnap].
  set (snap := snapPrefix mid +:+ id +:+ ".snap").
  assert (Hpre : HasPrefix snap (snapPrefix mid) = true) by apply HasPrefix_app.
  assert (Hseg : forall k, HasPrefix k (segPrefix mid) = true -> snap <> k).
  { intros k Hp E. rewrite <- E in Hp. by rewrite (seg_not_snap mid mid snap Hp) in Hpre. }
  split; [done|done|..].
  - intros sg Hsg. rewrite lookup_insert_ne; [auto|]. apply Hseg, named_prefix. auto.
  - intros sg Hsg. rewrite lookup_insert_ne; [auto|]. apply Hseg, HasPrefix_app_r, named_prefix. auto.
  - intros k Hk Hp. rewrite lookup_insert_ne in Hk by by apply Hseg. by apply Honly.
  - intros k raw Hk Hp. destruct (decide (snap = k)) as [<-|Hne]; [|rewrite lookup_insert_ne in Hk by done; by eapply Hsnap].
    rewrite lookup_insert_eq in Hk. injection Hk as <-. destruct (kv_open_snapshot d) as (d' & Hd & Es).
    exists d', ms. split; [done|]. split; [|done]. unfold cat_rep. by rewrite Es.
Qed.

(** Objects of other managers do not matter. *)
Lemma objects_foreign c c' segs :
  (forall k, HasPrefix k (segPrefix mid) = true \/ HasPrefix k (snapPrefix mid) = true -> c' !! k = c !! k) ->
  objects c segs -> objects c' segs.
Proof.
  intros Hc Ho. pose proof (fun sg => objects_named c segs sg Ho) as Hnd.
  destruct Ho as [Hns Hids Hb Hs Honly Hsnap]. split; [done|done|..].
  - intros sg Hsg. rewrite Hc; [auto|]. left. apply named_prefix. auto.
  - intros sg Hsg. rewrite Hc; [auto|]. left. apply HasPrefix_app_r, named_prefix. auto.
  - intros k Hk Hp. rewrite Hc in Hk by by left. by apply Honly.
  - intros k raw Hk Hp. rewrite Hc in Hk by by right. by apply (Hsnap k).
Qed.

(** Cataloguing a segment. *)
Lemma catalogued_put d d' r segs m :
  catalogued d segs -> meta_ok m -> of_segment segs m -> cat_put m d = (d', r) -> catalogued d' segs.
Proof.
  intros (ms & Hr & Hms) Hok Hm E. destruct r as [[]|e].
  - destruct (cat_put_rep _ _ _ _ Hok Hr E) as (ms' & Hr' & Hin). exists ms'. split; [done|].
    rewrite Forall_forall in Hms |- *. intros x [->|[_ Hx]]%Hin; [done|auto].
  - unfold cat_put in E. destruct (MarshalEntry _) as [buf|]; [|injection E as <- _; by exists ms].
    destruct (kv_put _ _ _); [done|]. injection E as <- _. by exists ms.
Qed.
Lemma catalogued_app d segs segs' : catalogued d segs -> catalogued d (segs ++ segs').
Proof. intros (ms & Hr & Hms). exists ms. split; [done|by apply of_segments_app]. Qed.

(** ** Seals *)

(** How far a seal of [new] got when it returned, or when the process died: nothing or the
    body was uploaded; body and sidecar were; the segment was catalogued too, under one of
    the local paths. *)
Inductive seal_effect (paths : list string) (st st' : Store B D) (new : segment) : bool -> bool -> Prop :=
| effect_body :
    s_ManagerID st' = s_ManagerID st -> s_cat st' = s_cat st ->
    contents (s_blobs st') = contents (s_blobs st) \/
      contents (s_blobs st') = <[sg_key new := sg_body new]> (contents (s_blobs st)) ->
    seal_effect paths st st' new false false
| effect_stored sc :
    s_ManagerID st' = s_ManagerID st -> s_cat st' = s_cat st ->
    marshalSidecar (sg_meta new) = Some sc ->
    contents (s_blobs st') =
      <[sg_key new +:+ metaSuffix := sc]> (<[sg_key new := sg_body new]> (contents (s_blobs st))) ->
    seal_effect paths st st' new true false
| effect_listed sc path :
    s_ManagerID st' = s_ManagerID st -> path ∈ paths ->
    cat_put (set_LocalPath path (sg_meta new)) (s_cat st) = (s_cat st', Ok tt) ->
    marshalSidecar (sg_meta new) = Some sc ->
    contents (s_blobs st') =
      <[sg_key new +:+ metaSuffix := sc]> (<[sg_key new := sg_body new]> (contents (s_blobs st))) ->
    seal_effect paths st st' new true true.

Lemma cat_put_cases m (d d' : D) r : cat_put m d = (d', r) -> r = Ok tt \/ (is_ok r = false /\ d' = d).
Proof.
  unfold cat_put. destruct (MarshalEntry _); [|intros [= <- <-]; by right].
  destruct (kv_put _ _ _); intros [= <- <-]; [by left|by right].
Qed.

Lemma Seal_effect rn lp id meta (st st' : Store B D) body r :
  s_fs st !! lp = Some body -> Seal rn lp id meta st = (st', r) ->
  exists stored, seal_effect [lp; pathFor (s_cache st) id] st st'
    (new_segment (s_ManagerID st) id meta body) stored (is_ok r).
Proof.
  intros Hfs E. unfold Seal in E. rewrite (bind_step _ _ st st st) in E by done.
  set (new := new_segment (s_ManagerID st) id meta body).
  change (set_key id (segKeyFor (s_ManagerID st) (set_key id "" meta)) meta) with (sg_meta new) in E.
  change (segKeyFor (s_ManagerID st) (set_key id "" meta)) with (sg_key new) in E.
  unfold mbind at 1, stM_bind in E. unfold read_file at 1 in E. rewrite Hfs in E.
  change body with (sg_body new) in E.
  unfold mbind at 1, stM_bind, on_blobs at 1 in E.
  destruct (blob_PutReader (sg_key new) (sg_body new) (s_blobs st)) as [b1 r1] eqn:E1.
  pose proof (put_reader_spec _ _ _ _ _ E1) as P1. destruct r1 as [[]|e1];
    [|injection E as <- <-; exists false; by apply effect_body].
  set (s1 := mkStore _ b1 _ _ _) in E.
  destruct (marshalSidecar (sg_meta new)) as [sc|] eqn:Es;
    [|injection E as <- <-; exists false; apply effect_body; [done|done|by right]].
  unfold mbind at 1, stM_bind, on_blobs at 1 in E.
  destruct (blob_Put (sg_key new +:+ metaSuffix) sc (s_blobs s1)) as [b2 r2] eqn:E2.
  pose proof (put_spec _ _ _ _ _ E2) as P2. cbn [s_blobs s1] in P2. rewrite P1 in P2.
  destruct r2 as [[]|e2]; cycle 1.
  { injection E as <- <-. destruct P2 as [P2|P2].
    - exists false. apply effect_body; [done|done|by right].
    - exists true. by apply (effect_stored _ _ _ _ sc). }
  revert E. set (path := if negb (String.eqb lp (pathFor (s_cache st) id)) && negb rn then lp
                  else pathFor (s_cache st) id).
  assert (Hp : path ∈ [lp; pathFor (s_cache st) id]).
  { unfold path. destruct (_ && negb rn); [by left|right; by left]. }
  unfold mbind, stM_bind, rename, modify_st, on_cat, on_cache.
  destruct (negb (String.eqb lp (pathFor (s_cache st) id)) && rn); cbn;
    (destruct (cat_put _ _) as [d' r'] eqn:Ec; cbn; pose proof (cat_put_cases _ _ _ _ Ec) as Hr);
    (destruct Hr as [->|[Hr ->]]; [intros [= <- <-]; exists true; by apply (effect_listed _ _ _ _ sc path)|]);
    (destruct r' as [[]|e]; [done|]); intros [= <- <-]; exists true; by apply (effect_stored _ _ _ _ sc).
Qed.

Lemma effect_change paths (a a' b b' : Store B D) new stored listed :
  s_ManagerID a' = s_ManagerID a -> s_cat a' = s_cat a -> s_blobs a' = s_blobs a ->
  s_ManagerID b' = s_ManagerID b -> s_cat b' = s_cat b -> s_blobs b' = s_blobs b ->
  seal_effect paths a b new stored listed -> seal_effect paths a' b' new stored listed.
Proof.
  intros E1 E2 E3 E4 E5 E6 [Em Ec Eb|sc Em Ec Es Eb|sc path Em Hp Ec Es Eb];
    [apply effect_body|apply (effect_stored _ _ _ _ sc)|apply (effect_listed _ _ _ _ sc path)];
    try done; congruence.
Qed.

(** ** The store's invariant *)

Record holds (st : Store B D) (segs : list segment) : Prop := {
  ho_mid : s_ManagerID st = mid;
  ho_objects : objects (contents (s_blobs st)) segs;
  ho_cat : catalogued (s_cat st) segs
}.

(** The catalogue lists the segment. *)
Definition listed (st : Store B D) (sg : segment) : Prop :=
  exists ms m, cat_all (s_cat st) = Ok ms /\ m ∈ ms /\ set_LocalPath "" m = sg_meta sg.

Definition with_new (segs : list segment) (new : segment) (stored : bool) : list segment :=
  if stored then segs ++ [new] else segs.

Lemma effect_holds paths st st' new stored listed segs :
  holds st segs -> named new -> fresh_id (sg_id new) (contents (s_blobs st)) ->
  Forall (fun p => meta_ok (set_LocalPath p (sg_meta new))) paths ->
  seal_effect paths st st' new stored listed -> holds st' (with_new segs new stored).
Proof.
  intros [Hm Ho Hc] Hn Hf Hp E.
  destruct E as [Em Ec Eb|sc Em Ec Es Eb|sc path Em Hpath Ec Es Eb]; (split; [congruence|..]); cbn [with_new].
  - destruct Eb as [-> | ->]; [done|by apply objects_put_body].
  - by rewrite Ec.
  - rewrite Eb. by apply objects_add.
  - rewrite Ec. by apply catalogued_app.
  - rewrite Eb. by apply objects_add.
  - eapply (catalogued_put _ _ _ _ (set_LocalPath path (sg_meta new))); [by apply catalogued_app| | |exact Ec].
    + rewrite Forall_forall in Hp. by apply Hp.
    + exists new. split; [apply elem_of_app; right; by left|].
      pose proof (nm_path _ Hn) as E0. destruct (sg_meta new). cbn in E0 |- *. by subst.
Qed.

Lemma effect_lists paths st st' new stored segs :
  holds st segs -> named new -> Forall (fun p => meta_ok (set_LocalPath p (sg_meta new))) paths ->
  seal_effect paths st st' new stored true -> listed st' new.
Proof.
  intros [_ _ (ms & Hr & _)] Hn Hp E. inversion E as [| |sc path Em Hpath Ec Es Eb]; subst.
  rewrite Forall_forall in Hp. destruct (cat_put_rep _ _ _ _ (Hp _ Hpath) Hr Ec) as (ms' & Hr' & Hin).
  exists ms', (set_LocalPath path (sg_meta new)). split; [by apply cat_all_rep|]. split; [apply Hin; by left|].
  pose proof (nm_path _ Hn) as E0. destruct (sg_meta new). cbn in E0 |- *. by subst.
Qed.

Lemma effect_keeps_listed paths st st' new stored is_listed segs sg :
  holds st segs -> named new -> fresh_id (sg_id new) (contents (s_blobs st)) ->
  Forall (fun p => meta_ok (set_LocalPath p (sg_meta new))) paths ->
  seal_effect paths st st' new stored is_listed -> sg ∈ segs -> listed st sg -> listed st' sg.
Proof.
  intros [_ Ho (ms0 & Hr & _)] Hn Hf Hp E Hsg (ms & m & Ha & Hm & Em).
  rewrite (cat_all_rep _ _ Hr) in Ha. injection Ha as ->.
  destruct E as [_ Ec _|sc _ Ec _ _|sc path _ Hpath Ec _ _];
    [exists ms, m; rewrite Ec; split; [by apply cat_all_rep|done]..|].
  rewrite Forall_forall in Hp. destruct (cat_put_rep _ _ _ _ (Hp _ Hpath) Hr Ec) as (ms' & Hr' & Hin).
  exists ms', m. split; [by apply cat_all_rep|]. split; [|done]. apply Hin. right. split; [|done].
  intros Ek%segKey_id. destruct (fresh_key _ _ _ _ Ho Hn Hf Hsg) as [_ Hid]. apply Hid.
  unfold sg_id. rewrite <- Em. exact Ek.
Qed.

(** ** Snapshots and recovery *)

Section Sound.
Context (segs : list segment).

(** An operation that keeps the invariant, whatever it returns. *)
Definition safe {A} (f : stM (Store B D) store_error A) : Prop :=
  forall st st' r, holds st segs -> f st = (st', r) -> holds st' segs.

Lemma safe_ret {A} (a : A) : safe (mret a).
Proof. by intros st st' r Hh [= <- _]. Qed.
Lemma safe_bind {A C} (f : stM (Store B D) store_error A) (g : A -> stM (Store B D) store_error C) :
  safe f -> (forall a, safe (g a)) -> safe (f ≫= g).
Proof.
  intros Hf Hg st st' r Hh E. unfold mbind, stM_bind in E. destruct (f st) as [st1 [a|e]] eqn:E1.
  - eapply Hg; [|exact E]. by eapply Hf.
  - injection E as <- _. by eapply Hf.
Qed.
Lemma safe_for {A} (f : A -> stM (Store B D) store_error unit) l :
  Forall (fun a => safe (f a)) l -> safe (for_st f l).
Proof. induction 1 as [|a l Ha _ IH]; [apply safe_ret|]. cbn. by apply safe_bind. Qed.
Lemma safe_blobs {A} (f : stM B blob_error A) :
  (forall b b' r, f b = (b', r) -> contents b' = contents b) -> safe (on_blobs f).
Proof.
  intros Hf st st' r [Hm Ho Hc] E. unfold on_blobs in E. destruct (f (s_blobs st)) as [b r'] eqn:E1.
  apply Hf in E1. injection E as <- _. split; cbn; [done|by rewrite E1|done].
Qed.
Lemma safe_get k : safe (on_blobs (blob_Get k)).
Proof. apply safe_blobs. intros b b' r E. by destruct (get_spec _ _ _ _ E) as (? & _). Qed.
Lemma safe_list p : safe (on_blobs (blob_List p)).
Proof. apply safe_blobs. intros b b' r E. by destruct (list_spec _ _ _ _ E) as (? & _). Qed.

Lemma safe_put m : of_segment segs m -> safe (on_cat (cat_put (set_LocalPath "" m))).
Proof.
  intros Hm st st' r [Hmid Ho Hc] E. unfold on_cat in E.
  destruct (cat_put _ _) as [d r'] eqn:Ep. injection E as <- _. split; cbn; [done|done|].
  destruct Hm as (sg & Hsg & Em). apply (catalogued_put _ _ _ _ _ Hc) in Ep; [done| |].
  - rewrite Em. by apply nm_meta, (objects_named _ _ _ Ho).
  - exists sg. by rewrite <- Em.
Qed.

Lemma safe_merge m : of_segment segs m -> safe (merge_one m).
Proof.
  intros Hm st st' r Hh E. unfold merge_one in E.
  destruct (cat_has _ _) as [[]|e]; [by injection E as <- _|by eapply safe_put|by injection E as <- _].
Qed.

Lemma safe_snapshot latest : HasPrefix latest (snapPrefix mid) = true -> safe (merge_snapshot latest).
Proof.
  intros Hp st st' r Hh E. unfold merge_snapshot in E.
  destruct (on_blobs (blob_Get latest) st) as [st1 r1] eqn:E1.
  pose proof (safe_get _ _ _ _ Hh E1) as Hh1. apply on_blobs_get in E1 as (_ & _ & Hsome & _).
  destruct r1 as [raw|e]; cycle 1.
  { destruct e as [|[]|e| |e]; by injection E as <- _. }
  destruct (ob_snaps _ _ (ho_objects _ _ Hh) latest raw) as (d & ms & Hd & Hr & Hms); [by apply Hsome|done|].
  rewrite Hd, (cat_all_rep _ _ Hr) in E. revert E. apply safe_for; [|done].
  eapply Forall_impl; [exact Hms|]. intros m. apply safe_merge.
Qed.

Lemma max_key_elem ks latest : max_key ks = Some latest -> latest ∈ ks.
Proof.
  unfold max_key. destruct ks as [|k ks]; [done|]. intros [= <-].
  assert (H' : forall l a, foldl (fun latest k => match String.compare k latest with Gt => k | _ => latest end) a l ∈ a :: l).
  { induction l as [|x l IH]; intros a; cbn; [by left|].
    specialize (IH (match String.compare x a with Gt => x | _ => a end)).
    apply elem_of_cons in IH as [E|E]; [|by right; right].
    rewrite E. destruct (String.compare x a); [by left..|by right; left]. }
  apply H'.
Qed.

Lemma safe_load : safe loadLatestSnapshot.
Proof.
  intros st st' r Hh E. unfold loadLatestSnapshot in E. rewrite (bind_step _ _ st st st) in E by done.
  rewrite (ho_mid _ _ Hh) in E. unfold mbind, stM_bind in E.
  destruct (on_blobs (blob_List _) st) as [st1 [ks|e]] eqn:E1; pose proof (safe_list _ _ _ _ Hh E1) as Hh1;
    [|by injection E as <- _].
  destruct (max_key ks) as [latest|] eqn:Ek; [|by injection E as <- _].
  apply on_blobs_list in E1 as (_ & _ & Hks). apply max_key_elem, (Hks ks eq_refl) in Ek as [_ Hp].
  by eapply safe_snapshot.
Qed.

Lemma safe_backfill k : HasPrefix (k +:+ metaSuffix) (segPrefix mid) = true ->
  safe (backfill (k +:+ metaSuffix) k (idFromSegKey k)).
Proof.
  intros Hp st st' r Hh E. unfold backfill in E.
  destruct (on_blobs (blob_Get _) st) as [st1 r1] eqn:E1.
  pose proof (safe_get _ _ _ _ Hh E1) as Hh1. apply on_blobs_get in E1 as (_ & _ & Hsome & _).
  destruct r1 as [raw|e]; cycle 1.
  { destruct e as [|[]|e| |e]; by injection E as <- _. }
  pose proof (ho_objects _ _ Hh) as Ho. specialize (Hsome raw eq_refl).
  destruct (ob_only _ _ Ho k) as (sg & Hsg & ->); [by eexists|done|].
  pose proof (objects_named _ _ _ Ho Hsg) as Hn.
  destruct (ob_sidecar _ _ Ho sg Hsg) as (sc & Em & Esc). rewrite Hsome in Esc. injection Esc as <-.
  rewrite (sidecar_roundtrip _ _ (nm_meta _ Hn) Em), (named_id sg Hn) in E.
  assert (Ek : set_key (sg_id sg) (sg_key sg) (set_LocalPath "" (sg_meta sg)) = sg_meta sg).
  { pose proof (nm_path _ Hn) as Hl. unfold sg_id, sg_key. destruct (sg_meta sg). cbn in *. by subst. }
  rewrite Ek in E. revert Hh1 E. apply safe_put. exists sg. split; [done|].
  pose proof (nm_path _ Hn) as Hl. destruct (sg_meta sg). cbn in *. by subst.
Qed.

Lemma suffix_split k : HasSuffix k metaSuffix = true -> k = TrimSuffix k metaSuffix +:+ metaSuffix.
Proof.
  intros E. unfold TrimSuffix. rewrite E. unfold HasSuffix in E.
  apply andb_true_iff in E as [_ E%String.eqb_eq]. rewrite <- E at 2. symmetry. apply stake_sdrop.
Qed.

Lemma safe_recover_key k : HasPrefix k (segPrefix mid) = true -> safe (recover_key k).
Proof.
  intros Hp. unfold recover_key. destruct (HasSuffix k metaSuffix) eqn:Es; [|apply safe_ret]. cbn [negb].
  destruct (String.eqb _ ""); [apply safe_ret|]. pose proof (suffix_split k Es) as Ek.
  apply safe_bind.
  - intros st st' r [Hm Ho Hc] E. unfold read_cat, on_cat in E. injection E as <- _. by split.
  - intros []; [apply safe_ret|]. rewrite Ek at 1. apply safe_backfill. by rewrite <- Ek.
Qed.

Lemma Recover_safe : safe Recover.
Proof.
  apply safe_bind; [apply safe_load|]. intros _ st st' r Hh E.
  rewrite (bind_step _ _ st st st) in E by done. rewrite (ho_mid _ _ Hh) in E.
  unfold mbind, stM_bind in E.
  destruct (on_blobs (blob_List _) st) as [st1 [ks|e]] eqn:E1; pose proof (safe_list _ _ _ _ Hh E1) as Hh1;
    [|by injection E as <- _].
  apply on_blobs_list in E1 as (_ & _ & Hks). revert E. apply safe_for; [|done].
  apply Forall_forall. intros k Hk. apply safe_recover_key. by apply (Hks ks eq_refl).
Qed.

Lemma Snapshot_safe id : safe (Snapshot id).
Proof.
  intros st st' r [Hm Ho Hc] E. unfold Snapshot in E. rewrite (bind_step _ _ st st st) in E by done.
  unfold on_blobs in E. destruct (blob_PutReader _ _ _) as [b r1] eqn:E1. injection E as <- _.
  pose proof (put_reader_spec _ _ _ _ _ E1) as P. split; cbn; [done| |done]. rewrite Hm in P.
  assert (Hs := objects_snap _ _ (s_cat st) id Ho Hc).
  destruct r1; [by rewrite P|]. destruct P as [-> | ->]; done.
Qed.
End Sound.

(** Reading segments changes neither the objects nor the catalogue. *)
Definition quiet {A} (f : stM (Store B D) store_error A) : Prop :=
  forall st st' r, f st = (st', r) -> s_ManagerID st' = s_ManagerID st /\ s_cat st' = s_cat st /\
    contents (s_blobs st') = contents (s_blobs st).
Lemma quiet_ret {A} (r : result store_error A) : quiet (lift_st r).
Proof. by intros st st' r' [= <- _]. Qed.
Lemma quiet_bind {A C} (f : stM (Store B D) store_error A) (g : A -> stM (Store B D) store_error C) :
  quiet f -> (forall a, quiet (g a)) -> quiet (f ≫= g).
Proof.
  intros Hf Hg st st' r E. unfold mbind, stM_bind in E. destruct (f st) as [st1 [a|e]] eqn:E1.
  - destruct (Hf _ _ _ E1) as (<- & <- & <-). by eapply Hg.
  - injection E as <- _. by eapply Hf.
Qed.
Lemma quiet_cache {A} (f : diskCache -> diskCache * A) : quiet (on_cache f).
Proof. intros st st' r E. unfold on_cache in E. destruct (f _) as [c a]. by injection E as <- _. Qed.
Lemma quiet_get k : quiet (on_blobs (blob_Get k)).
Proof.
  intros st st' r E. unfold on_blobs in E. destruct (blob_Get k (s_blobs st)) as [b r'] eqn:E1.
  destruct (get_spec _ _ _ _ E1) as (? & _). by injection E as <- _.
Qed.

Lemma StoreReader_quiet `{Zstd} `{JsonCodec} m : quiet (StoreReader m).
Proof.
  apply quiet_bind.
  - apply quiet_bind; [apply quiet_cache|]. intros hit st st' r E.
    rewrite (bind_step _ _ st st st) in E by done. revert E. destruct (match hit with Some _ => _ | None => _ end).
    + intros E. by injection E as <- _.
    + generalize (pathFor (s_cache st) (sm_ID m)) as path. intros path. revert st st' r.
      apply quiet_bind; [apply quiet_get|]. intros data.
      apply quiet_bind; [|intros _; apply quiet_bind; [apply quiet_cache|intros _; apply (quiet_ret (Ok _))]].
      intros st st' r E. unfold put_file, modify_st in E. by injection E as <- _.
  - intros p. unfold open_file. apply quiet_bind; [|intros f; destruct (Open _ _); [apply (quiet_ret (Ok _))|apply (quiet_ret (Err _))]].
    intros st st' r E. unfold read_file in E. destruct (_ !! p); by injection E as <- _.
Qed.
Lemma quiet_holds segs {A} (f : stM (Store B D) store_error A) st st' r :
  quiet f -> f st = (st', r) -> holds st segs -> holds st' segs.
Proof. intros Hf E [Hm Ho Hc]. destruct (Hf _ _ _ E) as (E1 & E2 & E3). split; [congruence|by rewrite E3|by rewrite E2]. Qed.
Lemma Snapshot_cat id (st st' : Store B D) r : Snapshot id st = (st', r) -> s_cat st' = s_cat st.
Proof.
  unfold Snapshot. rewrite (bind_step _ _ st st st) by done. unfold on_blobs.
  destruct (blob_PutReader _ _ _). by intros [= <- _].
Qed.

(** A store over objects without any of the manager holds nothing. *)
Lemma holds_nothing (st : Store B D) : s_ManagerID st = mid -> kv_scan (s_cat st) = [] ->
  (forall k, HasPrefix k (segPrefix mid) = true \/ HasPrefix k (snapPrefix mid) = true ->
    contents (s_blobs st) !! k = None) -> holds st [].
Proof.
  intros Hm Hk Hc. split; [done| |exists []; split; [unfold cat_rep; rewrite Hk|]; constructor].
  split; [done|constructor|..].
  - by intros sg ?%elem_of_nil.
  - by intros sg ?%elem_of_nil.
  - intros k Hs Hp. rewrite Hc in Hs by by left. by destruct Hs.
  - intros k raw E Hp. by rewrite Hc in E by by right.
Qed.

(** A recovered store lists every segment of the object store, and the watermarks are the
    highest offsets of these segments. *)
Lemma holds_keys_ok st segs : holds st segs -> keys_ok (segPrefix mid) (contents (s_blobs st)).
Proof.
  intros [_ Ho _] k Hk Hp Hs. rewrite (suffix_split k Hs) in Hk, Hp.
  destruct (ob_only _ _ Ho _ Hk Hp) as (sg & Hsg & E). pose proof (objects_named _ _ _ Ho Hsg) as Hn.
  rewrite E, (named_id sg Hn). split; [apply (nm_texts _ Hn)|apply (nm_texts _ Hn)].
Qed.

Lemma catalogued_of st segs ms m : holds st segs -> cat_all (s_cat st) = Ok ms -> m ∈ ms -> of_segment segs m.
Proof.
  intros [_ _ (ms' & Hr & Hms)] Ha Hm. rewrite (cat_all_rep _ _ Hr) in Ha. injection Ha as ->.
  rewrite Forall_forall in Hms. auto.
Qed.

Lemma Recover_lists st st' segs : holds st segs -> Recover st = (st', Ok tt) ->
  holds st' segs /\ forall sg, sg ∈ segs -> listed st' sg.
Proof.
  intros Hh E. pose proof (Recover_safe segs _ _ _ Hh E) as Hh'. split; [done|]. intros sg Hsg.
  pose proof (ho_objects _ _ Hh) as Ho. pose proof (objects_named _ _ _ Ho Hsg) as Hn.
  destruct (Recover_spec st st') as [_ Hk].
  - rewrite (ho_mid _ _ Hh). by apply (holds_keys_ok st segs).
  - destruct (ho_cat _ _ Hh) as (ms & Hr & _). by exists ms.
  - exact E.
  - destruct (Hk (sg_key sg +:+ metaSuffix)) as (ms & Hms & m & Hm & Em).
    + destruct (ob_sidecar _ _ Ho sg Hsg) as (sc & _ & ->). by eexists.
    + rewrite (ho_mid _ _ Hh). by apply HasPrefix_app_r, named_prefix.
    + apply HasSuffix_app.
    + rewrite TrimSuffix_app, (named_id sg Hn). apply (nm_id _ Hn).
    + rewrite TrimSuffix_app, (named_id sg Hn) in Em.
      pose proof (cat_all_rep _ _ Hms) as Ha. exists ms, m. split; [done|]. split; [done|].
      destruct (catalogued_of st' segs ms m Hh' Ha Hm) as (sg' & Hsg' & E').
      rewrite E'. f_equal. apply (objects_same _ _ _ _ Ho Hsg' Hsg). rewrite <- Em. unfold sg_id. by rewrite <- E'.
Qed.

Lemma SourceWatermarks_spec st segs st' wm : holds st segs ->
  (forall sg, sg ∈ segs -> listed st sg) -> SourceWatermarks st = (st', Ok wm) ->
  st' = st /\
  (forall sg k off, sg ∈ segs -> sm_SourceOffsets (sg_meta sg) !! k = Some off -> off <= default 0 (wm !! k)) /\
  (forall k, default 0 (wm !! k) = 0 \/
     exists sg, sg ∈ segs /\ sm_SourceOffsets (sg_meta sg) !! k = Some (default 0 (wm !! k))).
Proof.
  intros Hh Hl E. unfold SourceWatermarks, read_cat, on_cat, mbind, stM_bind in E.
  destruct (ho_cat _ _ Hh) as (ms & Hr & Hms). rewrite (cat_all_rep _ _ Hr) in E. injection E as <- <-.
  split; [by destruct st|]. pose proof (fun k => watermarks_max ms k) as W. split.
  - intros sg k off Hsg Ho. destruct (Hl sg Hsg) as (ms' & m & Ha & Hm & Em).
    rewrite (cat_all_rep _ _ Hr) in Ha. injection Ha as <-. apply (proj1 (W k) m off Hm).
    rewrite <- Em in Ho. exact Ho.
  - intros k. destruct (proj2 (W k)) as [?|(m & Hm & Eo)]; [by left|]. right.
    rewrite Forall_forall in Hms. destruct (Hms m Hm) as (sg & Hsg & Em). exists sg. split; [done|].
    by rewrite <- Em.
Qed.

End Recovery.
