(* ===== verification/Spool.v ===== *)
(** internal/manager/spool.go: the open segment, which accepts records, serves them to
    queries and seals them to the store; and the seal's input and output. *)

From S2P Require Import Prelude GoStrings GoTime Model SegFormat SegWriter SegLayout.
From S2P Require Import SegRefine SegReader RecordJson SegToy SegTorn Merge Cache Blobs Catalog MetaJson StoreToy.
From S2P Require Import Store StoreOk.
Local Open Scope string_scope.
Local Open Scope list_scope.
Local Open Scope Z_scope.

(** [sort.Slice] by timestamp: some sorted permutation (the sort is not stable). *)
Class SortSlice := {
  sort_slice : list LogRecord -> list LogRecord;
  sort_slice_perm l : sort_slice l ≡ₚ l;
  sort_slice_sorted l : sorted false (sort_slice l)
}.

(** [SpoolConfig] and its defaults. *)
Record SpoolConfig := mkConfig { MaxSegBytes : Z; MaxSegAge : Duration }.
Definition defaults (c : SpoolConfig) : SpoolConfig :=
  mkConfig (if MaxSegBytes c <=? 0 then 64 * 2 ^ 20 else MaxSegBytes c)
    (if MaxSegAge c <=? 0 then 5 * Minute else MaxSegAge c).

(** [Spool] *)
Record Spool := mkSpool {
  sp_cfg : SpoolConfig;
  sp_buf : list LogRecord;
  sp_bufBytes : Z;                    (* int64 *)
  sp_openSince : Time;
  sp_received : gmap string Z;
  sp_committed : gmap string Z
}.

(** [NewSpool], from the store's watermarks. *)
Definition NewSpool (cfg : SpoolConfig) (watermarks : gmap string Z) : Spool :=
  mkSpool (defaults cfg) [] 0 zeroTime watermarks watermarks.

(** [estimateSize] *)
Definition map_bytes (m : gmap string string) : Z :=
  foldr Z.add 0 ((fun kv => Z.of_nat (slen kv.1) + Z.of_nat (slen kv.2)) <$> map_to_list m).
Definition estimateSize (r : LogRecord) : Z :=
  Z.of_nat (slen (rec_Message r)) + Z.of_nat (slen (rec_Namespace r)) + Z.of_nat (slen (rec_Pod r))
  + Z.of_nat (slen (rec_Container r)) + Z.of_nat (slen (rec_Node r)) + 64
  + map_bytes (rec_Labels r) + map_bytes (rec_Body r).

Definition key_of (r : LogRecord) : string := Key (rec_Source r).

(** A record's place: its source and the offset where its line ends.  Read twice, a
    record may differ in its enrichment, but not in its place. *)
Abbreviation place := (string * Z)%type.
Definition place_of (r : LogRecord) : place := (key_of r, rec_Offset r).

(** Records in an order in which those of one source have growing offsets. *)
Definition newer (r1 r2 : LogRecord) : Prop := key_of r1 = key_of r2 -> rec_Offset r1 < rec_Offset r2.
Lemma newer_filter (P : LogRecord -> bool) l :
  StronglySorted newer l -> StronglySorted newer (List.filter P l).
Proof.
  induction 1 as [|x l Hs IH Hx]; cbn; [constructor|]. destruct (P x); [|done].
  apply StronglySorted_cons. split; [|done]. rewrite Forall_forall in Hx |- *. intros y [_ Hy]%elem_of_filter_b. auto.
Qed.
Lemma newer_places l : StronglySorted newer l -> NoDup (place_of <$> l).
Proof.
  induction 1 as [|x l Hs IH Hx]; cbn; constructor; [|done]. rewrite list_elem_of_fmap.
  intros (y & [= Ek Eo] & Hy). rewrite Forall_forall in Hx. specialize (Hx y Hy Ek). lia.
Qed.
Lemma newer_snoc l r :
  StronglySorted newer l -> (forall x, x ∈ l -> newer x r) -> StronglySorted newer (l ++ [r]).
Proof.
  intros Hl Hr. apply StronglySorted_app_2; [|done|repeat constructor].
  intros x y Hx ->%list_elem_of_singleton. auto.
Qed.

(** [Spool.Accept] at the time [now]; the second component is the record published to
    the hub, if it was not a duplicate. *)
Definition is_duplicate (sp : Spool) (r : LogRecord) : bool :=
  match sp_received sp !! key_of r with
  | Some hw => rec_Offset r <=? hw
  | None => false
  end.
Definition Accept (now : Time) (r : LogRecord) (sp : Spool) : Spool * option LogRecord :=
  if is_duplicate sp r then (sp, None) else
  let buf := sp_buf sp ++ [r] in
  (mkSpool (sp_cfg sp) buf (int64 (sp_bufBytes sp + estimateSize r))
     (if (length buf =? 1)%nat then now else sp_openSince sp)
     (<[key_of r := rec_Offset r]> (sp_received sp)) (sp_committed sp),
   Some r).

(** [Spool.Committed] *)
Definition Committed (sp : Spool) : gmap string Z := sp_committed sp.

(** [Spool.shouldSeal] *)
Definition shouldSeal (now : Time) (sp : Spool) : bool :=
  if (length (sp_buf sp) =? 0)%nat then false
  else if MaxSegBytes (sp_cfg sp) <=? sp_bufBytes sp then true
  else MaxSegAge (sp_cfg sp) <=? Sub now (sp_openSince sp).

(** The first critical section of [Spool.Seal]: the batch taken out of the buffer. *)
Definition seal_begin (sp : Spool) : option (list LogRecord * Spool) :=
  if (length (sp_buf sp) =? 0)%nat then None
  else Some (sp_buf sp, mkSpool (sp_cfg sp) [] 0 (sp_openSince sp) (sp_received sp) (sp_committed sp)).

(** The highest offsets of a batch, per source. *)
Definition max_offsets (batch : list LogRecord) : gmap string Z :=
  foldl (fun m r => raise m (key_of r) (rec_Offset r)) ∅ batch.

(** The last critical section of [Spool.Seal]: the committed offsets advance. *)
Definition seal_commit (batch : list LogRecord) (sp : Spool) : Spool :=
  mkSpool (sp_cfg sp) (sp_buf sp) (sp_bufBytes sp) (sp_openSince sp) (sp_received sp)
    (raise_all (sp_committed sp) (max_offsets batch)).

(** [Spool.requeue] *)
Definition requeue (now : Time) (batch : list LogRecord) (sp : Spool) : Spool :=
  mkSpool (sp_cfg sp) (batch ++ sp_buf sp)
    (foldl (fun n r => int64 (n + estimateSize r)) (sp_bufBytes sp) batch)
    (if IsZero (sp_openSince sp) then now else sp_openSince sp)
    (sp_received sp) (sp_committed sp).

Section Spool.
Context `{SortSlice}.

(** [Spool.Snapshot] *)
Definition SpoolSnapshot (start end_ : Time) (sp : Spool) : list LogRecord :=
  sort_slice (List.filter (fun r =>
    negb (negb (IsZero start) && Before (rec_Timestamp r) start) &&
    negb (negb (IsZero end_) && After (rec_Timestamp r) end_)) (sp_buf sp)).

Lemma snapshot_perm start end_ sp :
  SpoolSnapshot start end_ sp ≡ₚ
    List.filter (fun r => in_window start end_ (rec_Timestamp r)) (sp_buf sp).
Proof.
  unfold SpoolSnapshot. rewrite sort_slice_perm.
  induction (sp_buf sp) as [|r l IH]; [done|]. cbn. unfold in_window at 1.
  rewrite !negb_andb, !negb_involutive. destruct (_ && _); [by apply perm_skip|done].
Qed.

(** The open buffer's snapshot is what the query executor expects: exactly the
    buffered records of the range, ascending by timestamp. *)
Theorem SpoolSnapshot_spec start end_ sp :
  sorted false (SpoolSnapshot start end_ sp) /\
  SpoolSnapshot start end_ sp ≡ₚ
    List.filter (fun r => in_window start end_ (rec_Timestamp r)) (sp_buf sp).
Proof. split; [apply sort_slice_sorted|apply snapshot_perm]. Qed.

Context {B D : Type} `{Blobs B, Bolt D, MetaCodec, Zstd, JsonCodec}.

(** What the node's file system answers during one seal: whether the scratch file can be
    created, how many bytes fit, and whether it can be closed and then renamed. *)
Record Disk := mkDisk {
  dk_create : bool; dk_room : option nat; dk_close : bool; dk_rename : bool
}.

(** [os.Remove] of a scratch file. *)
Definition remove_file (path : string) (st : Store B D) : Store B D :=
  mkStore (s_ManagerID st) (s_blobs st) (s_cat st) (s_cache st) (delete path (s_fs st)).

(** The writing part of [Spool.Seal]: the file's bytes and the segment's metadata. *)
Definition write_batch (disk : Disk) (created : Z) (batch : list LogRecord) :
    result store_error (string * SegmentMeta) :=
  if negb (dk_create disk) then Err FSError else
  match NewWriter (mkSink "" (dk_room disk)) created with
  | (_, Err e) => Err (SegError e)
  | (sw, Ok _) =>
      match write_all batch sw with
      | (_, Err e) => Err (SegError e)
      | (sw, Ok meta) => if dk_close disk then Ok (sk_data (sw_w sw), meta) else Err FSError
      end
  end.

(** The middle of [Spool.Seal]: the sorted batch is written to the scratch file
    [tmpPath], which is handed to the store; on an error the file is removed. *)
Definition seal_batch (disk : Disk) (created : Z) (id tmpPath : string)
    (batch : list LogRecord) : stM (Store B D) store_error SegmentMeta := fun st =>
  match write_batch disk created (sort_slice batch) with
  | Err e => (remove_file tmpPath st, Err e)
  | Ok (data, meta) =>
      match Seal (dk_rename disk) tmpPath id meta (fst (put_file tmpPath data st)) with
      | (st, Ok m) => (st, Ok m)
      | (st, Err e) => (remove_file tmpPath st, Err e)
      end
  end.

(** [Spool.Seal], when no other seal is in progress and [arrivals] are the records
    offered while it runs. *)
Definition accept_all (arrivals : list (Time * LogRecord)) (sp : Spool) : Spool :=
  foldl (fun sp a => fst (Accept a.1 a.2 sp)) sp arrivals.
Definition SpoolSeal (disk : Disk) (now created : Z) (id tmpPath : string)
    (arrivals : list (Time * LogRecord)) : stM (Spool * Store B D) store_error nat := fun s =>
  let '(sp, st) := s in
  match seal_begin sp with
  | None => ((accept_all arrivals sp, st), Ok 0%nat)
  | Some (batch, sp) =>
      let '(st, r) := seal_batch disk created id tmpPath batch st in
      let sp := accept_all arrivals sp in
      match r with
      | Ok _ => ((seal_commit (sort_slice batch) sp, st), Ok (length batch))
      | Err e => ((requeue now (sort_slice batch) sp, st), Err e)
      end
  end.

Lemma write_batch_layout disk created rs data m :
  Forall (fun r => is_Some (MarshalRecord r)) rs -> Z.of_nat (length rs) < 2 ^ 62 ->
  write_batch disk created rs = Ok (data, m) ->
  data = layout created (groups rs) /\ m = meta_for created (groups rs).
Proof.
  intros Hrs Hn. unfold write_batch. destruct (dk_create disk); [|done]. cbn [negb].
  assert (Hs : exists w r, session created rs (mkSink "" (dk_room disk)) = (w, r) /\
            (is_ok r = true -> sk_data w = layout created (groups rs) /\ r = Ok (meta_for created (groups rs)))).
  { destruct (dk_room disk) as [c|].
    - destruct (session_capped created rs c Hrs Hn) as (w & E & D'). do 2 eexists; split; [exact E|].
      destruct (Nat.leb_spec (slen (layout created (groups rs))) c); [|done]. intros _.
      split; [|done]. rewrite D'. by apply stake_ge.
    - destruct (write_layout created rs Hrs Hn) as (sw0 & sw & E0 & E1 & E2).
      unfold session. rewrite E0, E1. eauto 6. }
  destruct Hs as (w & r & E & Hd). unfold session in E.
  destruct (NewWriter _ created) as [sw [u|e]]; [|done].
  destruct (write_all rs sw) as [sw' [m'|e]]; [|done]. injection E as <- <-.
  destruct (dk_close disk); [|done]. intros [= <- <-]. destruct (Hd eq_refl) as [-> [= ->]]. done.
Qed.

(** C14: a sealed batch is durable and readable.  Whatever the disk does, when the batch
    meets the bounds of the segment format and the seal succeeds, the object store holds,
    under the key of the segment, a file that opens and whose blocks read back as the
    batch sorted by time, and the segment's sidecar next to it. *)
Theorem seal_batch_durable `{!BlobsLaws B} disk created id tmp batch (st st' : Store B D) m :
  id_ok id -> sealable created (groups (sort_slice batch)) ->
  Z.of_nat (length batch) < 2 ^ 62 ->
  seal_batch disk created id tmp batch st = (st', Ok m) ->
  exists body rd, contents (s_blobs st') !! sm_S3Key m = Some body /\
    contents (s_blobs st') !! (sm_S3Key m +:+ metaSuffix) <> None /\
    Open body (Z.of_nat (slen body)) = Ok rd /\
    read_all rd [] = (sort_slice batch, Ok tt).
Proof.
  intros Hid Hse Hn E. set (rs := sort_slice batch) in *.
  assert (Hn' : Z.of_nat (length rs) < 2 ^ 62) by (unfold rs; by rewrite sort_slice_perm).
  unfold seal_batch in E. fold rs in E.
  destruct (write_batch disk created rs) as [[data m0]|e] eqn:Ew; [|done].
  apply (write_batch_layout _ _ _ _ _ (sealable_marshals _ _ Hse) Hn') in Ew as [-> _].
  set (st1 := fst (put_file tmp (layout created (groups rs)) st)) in E.
  destruct (Seal (dk_rename disk) tmp id m0 st1) as [st2 [m'|e]] eqn:Es; [|done]. injection E as <- <-.
  destruct (Seal_meta _ _ _ _ _ _ _ Es) as [Ek _]. apply Seal_outcome in Es as [_ Es].
  rewrite <- Ek in Es. unfold st1, put_file, modify_st in Es; cbn [s_fs fst s_blobs] in Es.
  rewrite lookup_insert_eq in Es. destruct Es as [[? _]|(sc & _ & Ec)]; [done|].
  exists (layout created (groups rs)), (reader_of created (groups rs)). rewrite Ec.
  split; [|split; [by rewrite lookup_insert_eq|split; [by apply Open_layout|by apply read_all_layout]]].
  rewrite lookup_insert_ne, lookup_insert_eq; [done|]. rewrite Ek. intros E. symmetry in E.
  revert E. apply segKeyFor_not_meta.
Qed.

End Spool.

(** ** A concrete seal *)

Module Witness.
Import SegToy.Witness.
Local Existing Instance toy_zstd.
Local Existing Instance go_json.
Local Existing Instance toy_bolt.
Local Existing Instance go_meta.
Local Existing Instance MemBlobs_laws.

Definition older (r s : LogRecord) : Prop := rec_Timestamp r <= rec_Timestamp s.
#[export] Instance older_dec r s : Decision (older r s).
Proof. unfold older. apply _. Defined.
#[export] Instance older_trans : Transitive older.
Proof. unfold older. intros ???. lia. Qed.
#[export] Instance older_total : Total older.
Proof. unfold older. intros ??. lia. Qed.
#[refine] Definition stable_sort : SortSlice := {| sort_slice := merge_sort older |}.
Proof.
  - apply merge_sort_Permutation.
  - intros l. apply (StronglySorted_merge_sort older).
Defined.
Local Existing Instance stable_sort.

Definition disk0 : Disk := mkDisk true None true true.
Definition batch0 : list LogRecord := reverse rs.
Definition st0 : Store (gmap string string) Bucket :=
  mkStore "m" ∅ (bucket []) (newDiskCache "c" 100 ∅) ∅.
Definition sealed : Store (gmap string string) Bucket * result store_error SegmentMeta :=
  seal_batch disk0 9 "A1" "t" batch0 st0.
Definition st1 : Store (gmap string string) Bucket := fst sealed.
Definition m1 : SegmentMeta :=
  match snd sealed with Ok m => m | Err _ => meta_for 9 [] end.

Lemma batch_ok : seal_batch disk0 9 "A1" "t" batch0 st0 = (st1, Ok m1).
Proof.
  assert (E : is_ok (snd sealed) = true) by (vm_compute; reflexivity).
  unfold st1, m1. fold sealed. destruct sealed as [s [m|e]]; done.
Qed.

Lemma seal_batch_durable_witness :
  exists body rd, contents (s_blobs st1) !! sm_S3Key m1 = Some body /\
    contents (s_blobs st1) !! (sm_S3Key m1 +:+ metaSuffix) <> None /\
    Open body (Z.of_nat (slen body)) = Ok rd /\ read_all rd [] = (rs, Ok tt).
Proof.
  assert (Es : sort_slice batch0 = rs) by (vm_compute; reflexivity).
  rewrite <- Es. apply (seal_batch_durable disk0 9 "A1" "t" batch0 st0).
  - apply (bool_decide_unpack _). vm_compute. exact I.
  - rewrite Es. apply rs_sealable.
  - vm_compute. reflexivity.
  - apply batch_ok.
Defined.
End Witness.
