(* ===== verification/Coherent.v ===== *)
(** The segment cache on the node's disk tells the truth: under the path of a cached
    segment there is, if anything, the body the object store holds for it.  Seals, reads
    and evictions keep this, and with it a read opens the right body, cached or not.  No
    code of its own. *)

From S2P Require Import Prelude GoStrings GoTime Model SegFormat SegWriter SegReader.
From S2P Require Import RecordJson SegToy MetaJson StoreToy Cache Blobs Catalog Store StoreOk Recovery Spool.
From Stdlib Require Import Ascii.
Local Open Scope string_scope.
Local Open Scope list_scope.
Local Open Scope Z_scope.

Lemma cached_ids c id : cache_inv c -> id ∈ dc_items c <-> id ∈ ci_id <$> dc_ll c.
Proof. intros Hc. by rewrite (inv_items _ Hc), elem_of_list_to_set. Qed.

(** Admission adds no other entry. *)
Lemma evict_loop_keeps fuel c : let c' := evict_loop fuel c in
  dc_dir c' = dc_dir c /\ dc_maxByte c' = dc_maxByte c /\ dc_items c' ⊆ dc_items c.
Proof.
  revert c; induction fuel as [|fuel IH]; intros c; [done|]. cbn. destruct (evict_back c) as [c'|] eqn:E; [|done].
  destruct (IH c') as (-> & -> & Hs). unfold evict_back in E. destruct (_ <? _); [|done].
  destruct (last _); [|done]. injection E as <-. cbn in *. split_and!; [done|done|set_solver].
Qed.
Lemma admit_keeps_others id size c : cache_inv c -> let c' := admit_ id size c in
  cache_inv c' /\ dc_dir c' = dc_dir c /\ dc_maxByte c' = dc_maxByte c /\ dc_items c' ⊆ {[id]} ∪ dc_items c.
Proof.
  intros Hc. unfold admit_, evictLocked. set (c0 := addLocked id size c).
  destruct (evict_loop_keeps (length (dc_ll c0)) c0) as (-> & -> & Hs).
  split; [by apply evict_loop_inv, addLocked_inv|]. unfold c0 in Hs. unfold c0, addLocked in *.
  destruct (if decide _ then _ else _); cbn in *; split_and!; done || set_solver.
Qed.

Section Coherent.
Context {B D : Type} `{BlobsLaws B, Bolt D, MetaCodec}.
Abbreviation St := (Store B D).

(** ** Operations on one segment *)

(** The path of a segment has the given body, or nothing. *)
Definition clean (id body : string) (st : St) : Prop :=
  forall d, s_fs st !! pathFor (s_cache st) id = Some d -> d = body.
(** What an operation on the segment [id] with the given body does to the cache and the
    files: it may cache the segment, put the body under its path, and write the files
    [tmp]; a segment it caches has its body or nothing under its path. *)
Record moves (id body : string) (tmp : list string) (st st' : St) : Prop := {
  mv_inv : cache_inv (s_cache st) -> cache_inv (s_cache st');
  mv_dir : dc_dir (s_cache st') = dc_dir (s_cache st) /\ dc_maxByte (s_cache st') = dc_maxByte (s_cache st);
  mv_ids : cache_inv (s_cache st) -> dc_items (s_cache st') ⊆ {[id]} ∪ dc_items (s_cache st);
  mv_files p d : s_fs st' !! p = Some d ->
    s_fs st !! p = Some d \/ (p = pathFor (s_cache st) id /\ d = body) \/ p ∈ tmp;
  mv_new : pathFor (s_cache st) id ∉ tmp -> id ∈ dc_items (s_cache st') -> id ∈ dc_items (s_cache st) \/ clean id body st'
}.

Lemma moves_path id body tmp id' (st st' : St) : moves id body tmp st st' -> pathFor (s_cache st') id' = pathFor (s_cache st) id'.
Proof. intros [_ [E _] _ _ _]. unfold pathFor. by rewrite E. Qed.
Lemma moves_clean id body tmp (st st' : St) : moves id body tmp st st' -> pathFor (s_cache st) id ∉ tmp ->
  clean id body st -> clean id body st'.
Proof.
  intros M Ht Hc d. rewrite (moves_path _ _ _ id _ _ M). intros [E|[[_ ->]|?]]%(mv_files _ _ _ _ _ M); [by apply Hc|done|done].
Qed.
Lemma moves_files id body tmp (st st' : St) : s_cache st' = s_cache st ->
  (forall p d, s_fs st' !! p = Some d -> s_fs st !! p = Some d \/ (p = pathFor (s_cache st) id /\ d = body) \/ p ∈ tmp) ->
  moves id body tmp st st'.
Proof. intros E Hf. split; rewrite ?E; [done|done|set_solver|done|auto]. Qed.
Lemma moves_same id body tmp (st st' : St) : s_cache st' = s_cache st -> s_fs st' = s_fs st -> moves id body tmp st st'.
Proof. intros E1 E2. apply moves_files; [done|]. rewrite E2. auto. Qed.
Lemma moves_trans id body tmp (st1 st2 st3 : St) :
  moves id body tmp st1 st2 -> moves id body tmp st2 st3 -> moves id body tmp st1 st3.
Proof.
  intros M1 M2. pose proof (moves_path _ _ _ id _ _ M1) as Ep.
  pose proof M1 as [I1 [D1 X1] S1 F1 N1]. pose proof M2 as [I2 [D2 X2] S2 F2 N2]. split.
  - auto.
  - by rewrite D2, X2.
  - intros Hc. specialize (S1 Hc). specialize (S2 (I1 Hc)). set_solver.
  - intros p d [E|[[E ->]|?]]%F2; [by apply F1| |auto]. right. left. by rewrite E.
  - intros Ht Hi. destruct N2 as [Hi2|?]; [by rewrite Ep|done| |by right].
    destruct (N1 Ht Hi2) as [?|Hc]; [by left|]. right. eapply moves_clean; [exact M2|by rewrite Ep|done].
Qed.

Definition with_dom (st : St) : diskCache := with_files (dom (s_fs st)) (s_cache st).
Lemma on_cache_files {A} (f : diskCache -> diskCache * A) (st st' : St) r : on_cache f st = (st', r) ->
  s_cache st' = fst (f (with_dom st)) /\ forall p d, s_fs st' !! p = Some d -> s_fs st !! p = Some d.
Proof.
  unfold on_cache. fold (with_files (dom (s_fs st)) (s_cache st)). fold (with_dom st).
  destruct (f (with_dom st)) as [c' a]. intros [= <- _]. split; [done|]. cbn. by intros p d [? _]%map_lookup_filter_Some.
Qed.
Lemma moves_admit id body tmp size (st st' : St) r : clean id body st ->
  on_cache (fun c => (admit_ id size c, tt)) st = (st', r) -> moves id body tmp st st'.
Proof.
  intros Hcl [Ec Hf]%on_cache_files. cbn in Ec.
  assert (K : dc_dir (s_cache st') = dc_dir (s_cache st) /\ dc_maxByte (s_cache st') = dc_maxByte (s_cache st)).
  { rewrite Ec. unfold admit_, evictLocked.
    destruct (evict_loop_keeps (length (dc_ll (addLocked id size (with_dom st)))) (addLocked id size (with_dom st)))
      as (-> & -> & _). unfold addLocked. by destruct (if decide _ then _ else _). }
  split; [| done| |intros; left; auto|].
  - intros Hc%(with_files_inv (dom (s_fs st))). rewrite Ec. by apply (admit_keeps_others id size).
  - intros Hc%(with_files_inv (dom (s_fs st))). rewrite Ec. destruct (admit_keeps_others id size _ Hc) as (_ & _ & _ & Hs). exact Hs.
  - intros _ _. right. intros d. unfold pathFor. rewrite (proj1 K). intros E%Hf. by apply Hcl.
Qed.
Lemma moves_touch id id' body tmp (st st' : St) r : on_cache (touch id') st = (st', r) -> moves id body tmp st st'.
Proof.
  intros [Ec Hf]%on_cache_files.
  assert (K : dc_dir (s_cache st') = dc_dir (s_cache st) /\ dc_maxByte (s_cache st') = dc_maxByte (s_cache st) /\
    dc_items (s_cache st') = dc_items (s_cache st)).
  { rewrite Ec. unfold touch. by destruct (if decide _ then _ else _). }
  destruct K as (Ed & Em & Ei). split; rewrite ?Ei; [|done|set_solver|auto|auto].
  intros Hc%(with_files_inv (dom (s_fs st))). rewrite Ec. by apply touch_inv.
Qed.

(** ** Seals *)

Lemma Seal_moves rn lp id meta (st st' : St) body r :
  s_fs st !! lp = Some body -> clean id body st -> pathFor (s_cache st) id <> lp ->
  Seal rn lp id meta st = (st', r) -> moves id body [lp] st st'.
Proof.
  intros Hfs Hcl Hne E. unfold Seal in E. rewrite (bind_step _ _ st st st) in E by done.
  set (key := segKeyFor _ _) in E. set (m1 := set_key id key meta) in E.
  unfold mbind at 1, stM_bind in E. unfold read_file at 1 in E. rewrite Hfs in E.
  unfold mbind at 1, stM_bind, on_blobs at 1 in E. destruct (blob_PutReader _ _ _) as [b1 [[]|e1]];
    [|injection E as <- _; by apply moves_same].
  destruct (marshalSidecar m1) as [sc|]; [|injection E as <- _; by apply moves_same].
  unfold mbind at 1, stM_bind, on_blobs at 1 in E. destruct (blob_Put _ _ _) as [b2 [[]|e2]];
    [|injection E as <- _; by apply moves_same].
  set (s2 := mkStore _ b2 _ _ _) in E. cbn [s_cache] in E.
  assert (Hmv : forall s3 r3, (if negb (String.eqb lp (pathFor (s_cache st) id)) && rn
      then rename lp (pathFor (s_cache st) id) body else mret tt) s2 = (s3, r3) -> r3 = Ok tt /\ moves id body [lp] st s3).
  { intros s3 r3. destruct (_ && rn); intros [= <- <-]; (split; [done|]); [|by apply moves_same].
    apply moves_files; [done|]. cbn. intros p d.
    destruct (decide (p = pathFor (s_cache st) id)) as [->|Hp].
    - rewrite lookup_insert_eq. intros [= <-]. auto.
    - rewrite lookup_insert_ne by done. intros [_ ?]%lookup_delete_Some. auto. }
  unfold mbind at 1, stM_bind in E.
  match type of E with (let (_, _) := ?x in _) = _ => destruct x as [s3 r3] eqn:E3 end.
  destruct (Hmv s3 r3) as [-> M3]; [revert E3; clear; by destruct (_ && rn)|]. cbv zeta in E. set (m2 := set_LocalPath _ m1) in E.
  unfold mbind at 1, stM_bind, on_cat at 1 in E. destruct (cat_put m2 (s_cat s3)) as [d [[]|e4]];
    [|injection E as <- _; eapply moves_trans; [exact M3|by apply moves_same]].
  unfold mbind at 1, stM_bind in E. set (s4 := mkStore _ _ d _ _) in E.
  destruct (on_cache _ s4) as [s5 r5] eqn:E5. assert (M4 : moves id body [lp] st s4) by (eapply moves_trans; [exact M3|by apply moves_same]).
  assert (M : moves id body [lp] st s5).
  { eapply moves_trans; [exact M4|]. eapply moves_admit; [|exact E5]. eapply moves_clean; [exact M4|set_solver|done]. }
  destruct r5; injection E as <- _; done.
Qed.
Lemma moves_remove id body p tmp (st : St) : moves id body tmp st (remove_file p st).
Proof. apply moves_files; [done|]. cbn. intros q d [_ ?]%lookup_delete_Some. auto. Qed.
Lemma seal_batch_moves `{SortSlice, Zstd, JsonCodec} disk created id tmp batch (st st' : St) r body :
  (forall data m, write_batch disk created (sort_slice batch) = Ok (data, m) -> data = body) ->
  clean id body st -> pathFor (s_cache st) id <> tmp ->
  seal_batch disk created id tmp batch st = (st', r) -> moves id body [tmp] st st'.
Proof.
  intros Hb Hcl Hne E. unfold seal_batch in E. destruct (write_batch _ _ _) as [[data m]|e];
    [|injection E as <- _; apply moves_remove].
  rewrite (Hb _ _ eq_refl) in E. clear Hb. set (st1 := fst (put_file tmp body st)) in E.
  assert (M1 : moves id body [tmp] st st1).
  { apply moves_files; [done|]. cbn. intros p d. destruct (decide (p = tmp)) as [->|Hp]; [set_solver|].
    rewrite lookup_insert_ne by done. auto. }
  destruct (Seal _ _ _ _ st1) as [st2 r2] eqn:Es.
  apply (Seal_moves _ _ _ _ _ _ body) in Es; [|unfold st1; cbn; apply lookup_insert_eq|
    eapply moves_clean; [exact M1|set_solver|done]|done].
  assert (M2 : moves id body [tmp] st st2) by (eapply moves_trans; [exact M1|exact Es]).
  destruct r2; injection E as <- _; [done|]. eapply moves_trans; [exact M2|apply moves_remove].
Qed.

(** ** Every cached segment *)

(** The cache is consistent and has the given capacity, and what it caches of the
    segments is their bodies. *)
Record coherent (maxB : Z) (st : St) (segs : list segment) : Prop := {
  co_inv : cache_inv (s_cache st);
  co_max : dc_maxByte (s_cache st) = maxB;
  co_body sg : sg ∈ segs -> sg_id sg ∈ dc_items (s_cache st) -> clean (sg_id sg) (sg_body sg) st
}.

Lemma pathFor_inj c id id' : pathFor c id = pathFor c id' -> id = id'.
Proof.
  unfold pathFor. intros E. apply (inj (String.append _)) in E. apply (inj (String.append _)) in E.
  by apply suffix_inj in E.
Qed.
(** A scratch file is not a cached one. *)
Lemma pathFor_not_tmp c id p : pathFor c id <> p +:+ ".tmp".
Proof.
  unfold pathFor. change ".seg" with (".se" +:+ String "g" ""). change ".tmp" with (".tm" +:+ String "p" "").
  rewrite <- !str_app_assoc. by apply no_common_suffix.
Qed.

Lemma coherent_moves maxB id body tmp (st st' : St) segs segs' :
  coherent maxB st segs -> moves id body tmp st st' ->
  (forall id', pathFor (s_cache st) id' ∉ tmp) ->
  (forall sg, sg ∈ segs' -> (sg ∈ segs /\ sg_id sg <> id) \/
     (sg_id sg = id /\ sg_body sg = body /\ (sg ∈ segs \/ clean id body st))) ->
  coherent maxB st' segs'.
Proof.
  intros [Hi Hm Hb] M Ht Hsegs. split; [by apply M|by rewrite (proj2 (mv_dir _ _ _ _ _ M))|].
  intros sg Hsg Hc. destruct (Hsegs sg Hsg) as [[Hold Hne]|(<- & <- & Hold)].
  - assert (Hc0 : sg_id sg ∈ dc_items (s_cache st)) by (pose proof (mv_ids _ _ _ _ _ M Hi); set_solver).
    intros d. rewrite (moves_path _ _ _ _ _ _ M). intros [E|[[E _]|E]]%(mv_files _ _ _ _ _ M).
    + by apply Hb.
    + by apply pathFor_inj in E.
    + by apply Ht in E.
  - destruct (mv_new _ _ _ _ _ M (Ht _) Hc) as [Hc0|?]; [|done].
    eapply moves_clean; [exact M|done|]. destruct Hold as [Hold|?]; [by apply Hb|done].
Qed.
(** Steps that leave cache and files alone. *)
Lemma coherent_same maxB (st st' : St) segs : coherent maxB st segs ->
  s_cache st' = s_cache st -> s_fs st' = s_fs st -> coherent maxB st' segs.
Proof.
  intros [Hi Hm Hb] E1 E2. split; rewrite ?E1; [done|done|]. intros sg Hsg Hc d. rewrite E1, E2. by apply Hb.
Qed.
(** A store just opened caches nothing. *)
Lemma coherent_opened mid base cap (blobs : B) (db : D) fs segs :
  coherent (if cap <=? 0 then 2 ^ 31 else cap) (OpenStore mid base cap blobs db fs) segs.
Proof.
  split; [split; cbn; [done|constructor|constructor|done]|done|]. cbn. intros sg _ ?%elem_of_empty. done.
Qed.

(** ** Reads *)

Context `{Zstd, JsonCodec}.

(** What [Reader] makes of a file's bytes. *)
Definition opened (data : string) : result store_error Reader :=
  match Open data (Z.of_nat (slen data)) with Ok rd => Ok rd | Err e => Err (SegError e) end.

(** [ensureLocal] when there is no file to use. *)
Definition fetch (m : SegmentMeta) : stM St store_error string := fun s =>
  (data ← on_blobs (blob_Get (sm_S3Key m));
   let path := pathFor (s_cache s) (sm_ID m) in
   put_file path data ;;
   on_cache (fun c => (admit_ (sm_ID m) (Z.of_nat (slen data)) c, tt)) ;;
   mret path) s.
Lemma open_file_spec path (st : St) : open_file path st =
  (st, match s_fs st !! path with Some d => opened d | None => Err FSError end).
Proof.
  unfold open_file, mbind, stM_bind, read_file, opened. destruct (s_fs st !! path) as [d|]; [|done].
  by destruct (Open d _).
Qed.

(** [ensureLocal] finds the cached file, or fetches the segment. *)
Lemma ensureLocal_cases m (st : St) : cache_inv (s_cache st) -> exists st1 hit,
  on_cache (touch (sm_ID m)) st = (st1, Ok hit) /\ s_fs st1 = s_fs st /\
  ((exists d, sm_ID m ∈ dc_items (s_cache st) /\ s_fs st !! pathFor (s_cache st) (sm_ID m) = Some d /\
      ensureLocal m st = (st1, Ok (pathFor (s_cache st) (sm_ID m)))) \/
   ensureLocal m st = fetch m st1).
Proof.
  intros Hi. set (c := with_dom st). assert (Hic : cache_inv c) by by apply with_files_inv.
  destruct (on_cache (touch (sm_ID m)) st) as [st1 r1] eqn:E.
  assert (Er : r1 = Ok (snd (touch (sm_ID m) c)) /\ s_fs st1 = s_fs st).
  { pose proof E as E'. unfold on_cache in E'. fold (with_files (dom (s_fs st)) (s_cache st)) in E'.
    fold (with_dom st) in E'. fold c in E'. unfold touch in *.
    assert (Hf : filter (fun kv => kv.1 ∈ dom (s_fs st)) (s_fs st) = s_fs st).
    { apply map_filter_id. intros k x Hk. by apply elem_of_dom_2 in Hk. }
    destruct (if decide _ then _ else _); injection E' as <- <-; cbn; done. }
  destruct Er as (-> & Ef). exists st1, (snd (touch (sm_ID m) c)). split; [done|]. split; [done|].
  unfold ensureLocal. unfold mbind, stM_bind. rewrite E. unfold get_st. cbn beta iota. rewrite Ef.
  assert (Ht : forall p, snd (touch (sm_ID m) c) = Some p -> sm_ID m ∈ dc_items (s_cache st) /\ p = pathFor (s_cache st) (sm_ID m)).
  { intros p Hp. unfold touch in Hp. destruct (decide _) as [Hin|]; [|done].
    destruct (find_item (sm_ID m) (dc_ll c)) as [it|] eqn:El; [|done]. apply find_item_some in El as [El Eid].
    injection Hp as <-. split; [exact Hin|]. pose proof (inv_paths _ Hic) as Hps. rewrite Forall_forall in Hps.
    rewrite <- Eid. by apply Hps. }
  destruct (snd (touch (sm_ID m) c)) as [p|]; [|by right]. destruct (Ht p eq_refl) as [Hin ->].
  destruct (decide (is_Some _)) as [[d Hd]|]; [|by right]. left. by exists d.
Qed.

(** Opening a file changes nothing. *)
Lemma StoreReader_split m (st : St) : StoreReader m st =
  (fst (ensureLocal m st), match snd (ensureLocal m st) with
     | Ok path => snd (open_file path (fst (ensureLocal m st))) | Err e => Err e end).
Proof.
  change (StoreReader m st) with ((ensureLocal m ≫= open_file) st). unfold mbind, stM_bind.
  destruct (ensureLocal m st) as [st1 [path|e]]; [|done]. cbn. by rewrite open_file_spec.
Qed.

Lemma fetch_moves m (st st' : St) r body : contents (s_blobs st) !! sm_S3Key m = Some body ->
  fetch m st = (st', r) -> moves (sm_ID m) body [] st st' /\
    forall path, r = Ok path -> path = pathFor (s_cache st) (sm_ID m) /\ clean (sm_ID m) body st'.
Proof.
  intros Hb E. unfold fetch in E. unfold mbind at 1, stM_bind, on_blobs at 1 in E.
  destruct (blob_Get _ _) as [b r1] eqn:Eg. destruct (get_spec _ _ _ _ Eg) as (_ & Hok & _).
  destruct r1 as [data|e]; [|injection E as <- <-; split; [by apply moves_same|done]].
  assert (data = body) as -> by (specialize (Hok data eq_refl); congruence).
  cbv zeta in E. set (path := pathFor (s_cache st) (sm_ID m)) in *.
  unfold mbind, stM_bind, put_file, modify_st in E. cbn beta iota in E. set (st2 := mkStore _ _ _ _ _) in E.
  assert (M : moves (sm_ID m) body [] st st2).
  { apply moves_files; [done|]. cbn. fold path. intros p d. destruct (decide (p = path)) as [->|Hp].
    - rewrite lookup_insert_eq. intros [= <-]. auto.
    - rewrite lookup_insert_ne by done. auto. }
  assert (Hcl : clean (sm_ID m) body st2).
  { intros d. unfold st2. cbn [s_fs s_cache]. fold path. rewrite lookup_insert_eq. by intros [= <-]. }
  destruct (on_cache _ st2) as [st3 r3] eqn:E3. pose proof (moves_admit _ body [] _ _ _ _ Hcl E3) as M3.
  assert (Hcl3 : clean (sm_ID m) body st3) by (eapply moves_clean; [exact M3|apply not_elem_of_nil|done]).
  assert (M' : moves (sm_ID m) body [] st st3) by (eapply moves_trans; [exact M|exact M3]).
  destruct r3 as [[]|e]; injection E as <- <-; (split; [done|]); [intros p [= <-]; done|done].
Qed.

(** What [ensureLocal] does, and the path it finds. *)
Lemma ensureLocal_moves m (st st' : St) r body : cache_inv (s_cache st) ->
  contents (s_blobs st) !! sm_S3Key m = Some body -> ensureLocal m st = (st', r) ->
  moves (sm_ID m) body [] st st' /\
  forall path, r = Ok path -> (sm_ID m ∈ dc_items (s_cache st) -> clean (sm_ID m) body st) ->
    path = pathFor (s_cache st) (sm_ID m) /\ clean (sm_ID m) body st'.
Proof.
  intros Hi Hb E. destruct (ensureLocal_cases m st Hi) as (st1 & hit & Et & Ef & Hcase).
  pose proof (moves_touch (sm_ID m) _ body [] _ _ _ Et) as M1.
  assert (Hb1 : contents (s_blobs st1) !! sm_S3Key m = Some body).
  { unfold on_cache in Et. destruct (touch _ _) as [c' a]. by injection Et as <- _. }
  destruct Hcase as [(d & Hin & _ & E1)|E1]; rewrite E1 in E.
  - injection E as <- <-. split; [done|]. intros path [= <-] Hcl. split; [done|].
    eapply moves_clean; [exact M1|apply not_elem_of_nil|auto].
  - destruct (fetch_moves _ _ _ _ _ Hb1 E) as [M2 Hp]. split; [by eapply moves_trans|].
    intros path Er _. destruct (Hp path Er) as [-> Hcl]. split; [|done]. by apply (moves_path _ _ _ _ _ _ M1).
Qed.
Lemma StoreReader_moves m (st st' : St) r body : cache_inv (s_cache st) ->
  contents (s_blobs st) !! sm_S3Key m = Some body -> StoreReader m st = (st', r) -> moves (sm_ID m) body [] st st'.
Proof.
  intros Hi Hb. rewrite StoreReader_split. intros [= <- _].
  by eapply ensureLocal_moves; [..|apply surjective_pairing].
Qed.
(** A clean path stays clean. *)
Lemma moves_keep id body tmp (st st' : St) id' body' : moves id body tmp st st' ->
  pathFor (s_cache st) id' ∉ tmp -> (id' = id -> body' = body) -> clean id' body' st -> clean id' body' st'.
Proof.
  intros M Ht He Hc d. rewrite (moves_path _ _ _ _ _ _ M). intros [E|[[E ->]|?]]%(mv_files _ _ _ _ _ M).
  - by apply Hc.
  - apply pathFor_inj in E. symmetry. by apply He.
  - done.
Qed.

(** A body within the capacity is fetched and opened. *)
Lemma fetch_opens m (st : St) b data : cache_inv (s_cache st) -> blob_Get (sm_S3Key m) (s_blobs st) = (b, Ok data) ->
  Z.of_nat (slen data) <= dc_maxByte (s_cache st) < 2 ^ 63 ->
  snd ((fetch m ≫= open_file) st) = opened data.
Proof.
  intros Hi Hget Hsz. unfold fetch, mbind, stM_bind, on_blobs. rewrite Hget. cbv zeta.
  set (path := pathFor (s_cache st) (sm_ID m)). unfold put_file, modify_st, on_cache. cbn [s_cache s_fs s_blobs s_cat s_ManagerID].
  set (c := mkCache _ _ _ _ _ _). set (st1 := mkStore _ _ _ _ _).
  change (snd (open_file path st1) = opened data). rewrite open_file_spec. unfold st1. cbn [snd s_fs].
  erewrite map_lookup_filter_Some_2; [done|apply lookup_insert_eq|]. cbn.
  apply (admit_keeps (sm_ID m) (Z.of_nat (slen data)) c).
  - by destruct Hi; split.
  - cbn. lia.
  - cbn. lia.
  - cbn. rewrite dom_insert_L. set_solver.
Qed.

(** The object store answers. *)
Definition blobs_answer (blobs : B) : Prop := forall k v, contents blobs !! k = Some v ->
  exists blobs', blob_Get k blobs = (blobs', Ok v).

(** [Reader] opens the body of the segment, whatever the cache holds. *)
Lemma StoreReader_opens maxB m (st : St) segs sg : coherent maxB st segs -> sg ∈ segs ->
  sm_ID m = sg_id sg -> sm_S3Key m = sg_key sg -> contents (s_blobs st) !! sg_key sg = Some (sg_body sg) ->
  blobs_answer (s_blobs st) -> Z.of_nat (slen (sg_body sg)) <= maxB < 2 ^ 63 ->
  snd (StoreReader m st) = opened (sg_body sg).
Proof.
  intros [Hi <- Hb] Hsg Eid Ek Hbody Ha Hsz. destruct (ensureLocal_cases m st Hi) as (st1 & hit & Et & Ef & Hcase).
  destruct Hcase as [(d & Hin & Hd & E)|E].
  - rewrite StoreReader_split, E. cbn [fst snd]. rewrite open_file_spec, Ef, Hd. cbn.
    f_equal. rewrite Eid in Hin, Hd. by apply (Hb sg).
  - change (StoreReader m st) with ((ensureLocal m ≫= open_file) st).
    replace ((ensureLocal m ≫= open_file) st) with ((fetch m ≫= open_file) st1)
      by (unfold mbind, stM_bind; by rewrite E).
    pose proof (moves_touch (sm_ID m) _ (sg_body sg) [] _ _ _ Et) as M.
    assert (Eb : s_blobs st1 = s_blobs st).
    { unfold on_cache in Et. destruct (touch _ _) as [c' a]. by injection Et as <- _. }
    destruct (Ha _ _ Hbody) as [b Hg]. rewrite <- Eb, <- Ek in Hg.
    eapply fetch_opens; [by apply M|exact Hg|]. by rewrite (proj2 (mv_dir _ _ _ _ _ M)).
Qed.

(** Reading a segment keeps the cache coherent. *)
Lemma coherent_read maxB m (st st' : St) r segs sg : coherent maxB st segs -> sg ∈ segs ->
  sm_ID m = sg_id sg -> sm_S3Key m = sg_key sg -> contents (s_blobs st) !! sg_key sg = Some (sg_body sg) ->
  (forall sg', sg' ∈ segs -> sg_id sg' = sg_id sg -> sg' = sg) ->
  StoreReader m st = (st', r) -> coherent maxB st' segs.
Proof.
  intros Hc Hsg Eid Ek Hbody Hu E. rewrite <- Ek in Hbody.
  pose proof (StoreReader_moves _ _ _ _ _ (co_inv _ _ _ Hc) Hbody E) as M.
  eapply coherent_moves; [exact Hc|exact M|by intros id' ?%elem_of_nil|].
  intros sg' Hsg'. destruct (decide (sg_id sg' = sm_ID m)) as [Ei|?]; [right|by left].
  rewrite (Hu sg' Hsg') by congruence. auto.
Qed.

(** ** Recovery touches neither cache nor files *)

Definition cacheless {A} (f : stM St store_error A) : Prop :=
  forall st st' r, f st = (st', r) -> s_cache st' = s_cache st /\ s_fs st' = s_fs st.
Lemma cacheless_at {A} (f : St -> St * result store_error A) :
  (forall st, s_cache (fst (f st)) = s_cache st /\ s_fs (fst (f st)) = s_fs st) -> cacheless f.
Proof. intros Hf st st' r E. specialize (Hf st). by rewrite E in Hf. Qed.
Lemma cacheless_bind {A C} (f : stM St store_error A) (g : A -> stM St store_error C) :
  cacheless f -> (forall a, cacheless (g a)) -> cacheless (f ≫= g).
Proof.
  intros Hf Hg st st' r E. unfold mbind, stM_bind in E. destruct (f st) as [st1 [a|e]] eqn:E1.
  - destruct (Hf _ _ _ E1) as [<- <-]. by eapply Hg.
  - injection E as <- _. by eapply Hf.
Qed.
Lemma cacheless_for {A} (f : A -> stM St store_error unit) l : (forall a, cacheless (f a)) -> cacheless (for_st f l).
Proof. intros Hf. induction l as [|a l IH]; [by intros st st' r [= <- _]|]. by apply cacheless_bind. Qed.
Lemma cacheless_blobs {A} (f : stM B blob_error A) : cacheless (on_blobs f).
Proof. apply cacheless_at. intros st. unfold on_blobs. by destruct (f _). Qed.
Lemma cacheless_cat {A} (f : stM D cat_error A) : cacheless (on_cat f).
Proof. apply cacheless_at. intros st. unfold on_cat. by destruct (f _). Qed.
Lemma cacheless_get : cacheless get_st.
Proof. by intros st st' r [= <- _]. Qed.
Lemma cacheless_ret {A} (a : A) : cacheless (mret a).
Proof. by intros st st' r [= <- _]. Qed.
#[local] Hint Resolve cacheless_bind cacheless_for cacheless_blobs cacheless_cat cacheless_get cacheless_ret : core.

Lemma cacheless_merge m : cacheless (merge_one m).
Proof. intros st st' r. unfold merge_one. destruct (cat_has _ _) as [[]|]; [by intros [= <- _]|apply cacheless_cat|by intros [= <- _]]. Qed.
Lemma cacheless_snapshot k : cacheless (merge_snapshot k).
Proof.
  intros st st' r. unfold merge_snapshot. destruct (on_blobs _ st) as [st1 r1] eqn:E.
  apply cacheless_blobs in E as [<- <-]. destruct r1 as [raw|[|[]|e| |e]]; try by intros [= <- _].
  destruct (kv_open raw); [|by intros [= <- _]]. destruct (cat_all _); [|by intros [= <- _]].
  apply cacheless_for, cacheless_merge.
Qed.
Lemma cacheless_backfill k key id : cacheless (backfill k key id).
Proof.
  intros st st' r. unfold backfill. destruct (on_blobs _ st) as [st1 r1] eqn:E.
  apply cacheless_blobs in E as [<- <-]. destruct r1 as [raw|[|[]|e| |e]]; try by intros [= <- _].
  destruct (unmarshalSidecar raw); [|by intros [= <- _]]. apply cacheless_cat.
Qed.
Lemma Recover_cache : cacheless Recover.
Proof.
  apply cacheless_bind.
  - apply cacheless_bind; [done|]. intros s. apply cacheless_bind; [done|]. intros ks.
    destruct (max_key ks); [apply cacheless_snapshot|done].
  - intros []. apply cacheless_bind; [done|]. intros s. apply cacheless_bind; [done|]. intros ks.
    apply cacheless_for. intros k. unfold recover_key. destruct (negb _); [done|]. destruct (String.eqb _ _); [done|].
    apply cacheless_bind; [apply cacheless_cat|]. intros [|]; [done|apply cacheless_backfill].
Qed.
Lemma Snapshot_cache id : cacheless (Snapshot id).
Proof. apply cacheless_bind; [done|]. intros s. apply cacheless_blobs. Qed.
End Coherent.

(** ** A read that loses a race *)

Module Witness.
Import StoreToy.Witness.
Local Existing Instance toy_zstd.
Local Existing Instance go_json.
Local Existing Instance toy_bolt.
Local Existing Instance go_meta.
Local Existing Instance MemBlobs_laws.

(** Two bodies that fit the cache, one at a time. *)
Definition body0 : string := "0123456789".
Definition store0 : Store (gmap string string) Bucket :=
  mkStore "m" {["a" := body0; "b" := body0]} (bucket []) (newDiskCache "c" 15 ∅) ∅.
Definition seg_a : SegmentMeta := set_key "A" "a" (seg "" 5 9).
Definition seg_b : SegmentMeta := set_key "B" "b" (seg "" 5 9).

(** [Reader] opens the file after [ensureLocal] has returned.  When another read admits its
    segment in between, the first one's can be evicted: its open fails, although each of
    the two fits the cache and the object store answers. *)
Theorem eviction_races_open : exists st1 path,
  ensureLocal seg_a store0 = (st1, Ok path) /\
  s_fs st1 !! path = Some body0 /\
  snd (open_file path (fst (StoreReader seg_b st1))) = Err FSError.
Proof.
  exists (fst (ensureLocal seg_a store0)), (pathFor (s_cache store0) "A").
  split; [|split]; vm_compute; reflexivity.
Qed.
End Witness.
