(* ===== verification/SpoolSafe.v ===== *)
(** Acknowledgement safety: the spool's critical sections interleaved with seals that
    succeed, fail, or fail after the object store already holds the segment, and with
    restarts.  An offset below a source's committed offset is durable.  A record's offset
    is where its line ends, so it is positive. *)

From S2P Require Import Prelude GoStrings GoTime Model SegFormat SegWriter SegLayout.
From S2P Require Import SegRefine SegReader RecordJson SegToy Merge Cache Blobs Catalog MetaJson StoreToy Store.
From S2P Require Import StoreOk Spool.
Local Open Scope string_scope.
Local Open Scope list_scope.
Local Open Scope Z_scope.

(** The spool, the batches being sealed, and two histories: the records in segments the
    object store holds, and the records accepted.  Here the first is bookkeeping; in
    [Durable] it is what the object store of a deployment really holds, and every call of
    [Seal] an execution of the steps below ([SpoolSeal_refines], [sim]). *)
Record world := mkWorld {
  w_sp : Spool; w_inflight : list (list LogRecord);
  w_durable : list LogRecord; w_accepted : list LogRecord
}.

(** What [Store.SourceWatermarks] returns after recovery: of each source, the highest
    offset in the catalogued segments. *)
Definition recovered (wm : gmap string Z) (durable : list LogRecord) : Prop :=
  (forall r, r ∈ durable -> rec_Offset r <= default 0 (wm !! key_of r)) /\
  (forall k, default 0 (wm !! k) = 0 \/
     exists r, r ∈ durable /\ key_of r = k /\ rec_Offset r = default 0 (wm !! k)).

Section Steps.
(** Whether a second seal may start while one is in progress. *)
Context (concurrent : bool).

Inductive step : world -> world -> Prop :=
| step_accept sp fl du ac now r :
    0 < rec_Offset r ->
    step (mkWorld sp fl du ac)
      (mkWorld (fst (Accept now r sp)) fl du
         (match snd (Accept now r sp) with Some r => ac ++ [r] | None => ac end))
| step_begin sp fl du ac batch sp' :
    concurrent = true \/ fl = [] -> seal_begin sp = Some (batch, sp') ->
    step (mkWorld sp fl du ac) (mkWorld sp' (fl ++ [batch]) du ac)
| step_done sp fl1 batch fl2 du ac sorted :
    sorted ≡ₚ batch ->
    step (mkWorld sp (fl1 ++ batch :: fl2) du ac)
      (mkWorld (seal_commit sorted sp) (fl1 ++ fl2) (du ++ batch) ac)
| step_failed sp fl1 batch fl2 du ac sorted now (stored : bool) :
    sorted ≡ₚ batch ->
    step (mkWorld sp (fl1 ++ batch :: fl2) du ac)
      (mkWorld (requeue now sorted sp) (fl1 ++ fl2) (if stored then du ++ batch else du) ac)
| step_restart sp fl du ac wm :
    recovered wm du ->
    step (mkWorld sp fl du ac) (mkWorld (NewSpool (sp_cfg sp) wm) [] du du).

Definition start (cfg : SpoolConfig) : world := mkWorld (NewSpool cfg ∅) [] [] [].
Definition reachable (cfg : SpoolConfig) (w : world) : Prop := rtc step (start cfg) w.
End Steps.

(** ** The invariant of sequential seals *)

Definition sizes_of (l : list LogRecord) : Z := foldr Z.add 0 (estimateSize <$> l).

Lemma sizes_of_app l l' : sizes_of (l ++ l') = sizes_of l + sizes_of l'.
Proof. unfold sizes_of. induction l as [|r l IH]; cbn; [done|]. rewrite IH. lia. Qed.

Record inv (w : world) : Prop := {
  (* nothing accepted is lost, and nothing else is kept *)
  inv_kept r : r ∈ w_accepted w <->
    r ∈ w_durable w \/ r ∈ List.concat (w_inflight w) \/ r ∈ sp_buf (w_sp w);
  inv_single : (length (w_inflight w) <= 1)%nat;
  inv_positive r : r ∈ w_accepted w -> 0 < rec_Offset r;
  (* the dedup watermark bounds what was accepted *)
  inv_received r : r ∈ w_accepted w ->
    rec_Offset r <= default 0 (sp_received (w_sp w) !! key_of r);
  (* the buffer is newer than the batch being sealed *)
  inv_order r d : r ∈ sp_buf (w_sp w) -> d ∈ List.concat (w_inflight w) ->
    key_of r = key_of d -> rec_Offset d < rec_Offset r;
  (* durable records have no gap below them *)
  inv_gapless r d : r ∈ w_accepted w -> d ∈ w_durable w -> key_of r = key_of d ->
    rec_Offset r <= rec_Offset d -> r ∈ w_durable w;
  (* what is committed is durable *)
  inv_committed k : default 0 (sp_committed (w_sp w) !! k) = 0 \/
    exists d, d ∈ w_durable w /\ key_of d = k /\
      rec_Offset d = default 0 (sp_committed (w_sp w) !! k);
  inv_bytes : sp_bufBytes (w_sp w) = int64 (sizes_of (sp_buf (w_sp w)));
  (* the dedup watermark is the offset of an accepted record *)
  inv_attained k : default 0 (sp_received (w_sp w) !! k) = 0 \/
    exists d, d ∈ w_accepted w /\ key_of d = k /\
      rec_Offset d = default 0 (sp_received (w_sp w) !! k);
  (* what is neither buffered nor being sealed is committed *)
  inv_released r : r ∈ w_accepted w -> r ∈ List.concat (w_inflight w) \/ r ∈ sp_buf (w_sp w) \/
    rec_Offset r <= default 0 (sp_committed (w_sp w) !! key_of r)
}.

Lemma inv_start cfg : inv (start cfg).
Proof.
  split; cbn; try (intros r; by intros ?%elem_of_nil); try (intros r d; by intros ?%elem_of_nil).
  - intros r. rewrite !elem_of_nil. tauto.
  - lia.
  - intros k. left. by rewrite lookup_empty.
  - done.
  - intros k. left. by rewrite lookup_empty.
Qed.

(** An accepted record is newer than every record accepted before from its source. *)
Lemma fresh w r d :
  inv w -> 0 < rec_Offset r -> is_duplicate (w_sp w) r = false ->
  d ∈ w_accepted w -> key_of d = key_of r -> rec_Offset d < rec_Offset r.
Proof.
  intros Hi Hr Hd Hin Hk. pose proof (inv_received w Hi d Hin) as Hw. rewrite Hk in Hw.
  unfold is_duplicate in Hd. destruct (sp_received (w_sp w) !! key_of r); cbn in Hw; [|lia].
  apply Z.leb_gt in Hd. lia.
Qed.

Lemma accept_inv sp fl du ac now r :
  0 < rec_Offset r -> inv (mkWorld sp fl du ac) ->
  inv (mkWorld (fst (Accept now r sp)) fl du
        (match snd (Accept now r sp) with Some r => ac ++ [r] | None => ac end)).
Proof.
  intros Hr Hi. unfold Accept. destruct (is_duplicate sp r) eqn:Ed; [done|]. cbn [fst snd].
  assert (Hf : forall d, d ∈ ac -> key_of d = key_of r -> rec_Offset d < rec_Offset r)
    by (intros d; apply (fresh _ r d Hi Hr Ed)).
  destruct Hi as [Hk Hs Hp Hw Ho Hg Hc Hb Htop Hrl]. cbn [w_sp w_inflight w_durable w_accepted] in *.
  split; cbn [w_sp w_inflight w_durable w_accepted sp_buf sp_received sp_committed sp_bufBytes].
  - intros x. rewrite !elem_of_app, Hk. tauto.
  - done.
  - intros x [Hx|Hx%list_elem_of_singleton]%elem_of_app; [auto|by subst].
  - intros x [Hx|Hx%list_elem_of_singleton]%elem_of_app; cycle 1.
    { subst. rewrite lookup_insert_eq. cbn. lia. }
    destruct (decide (key_of r = key_of x)) as [E|Hne]; [|rewrite lookup_insert_ne by done; auto].
    rewrite E, lookup_insert_eq. cbn. specialize (Hf x Hx). rewrite E in Hf. specialize (Hf eq_refl). lia.
  - intros x d [Hx|Hx%list_elem_of_singleton]%elem_of_app Hd E; [by eapply Ho|]. subst x.
    apply Hf; [|done]. apply Hk. tauto.
  - intros x d [Hx|Hx%list_elem_of_singleton]%elem_of_app Hd E Hle; [by eapply Hg|]. subst x.
    assert (rec_Offset d < rec_Offset r); [|lia]. apply Hf; [apply Hk; tauto|done].
  - done.
  - rewrite Hb, sizes_of_app. change (sizes_of [r]) with (estimateSize r + 0).
    generalize (sizes_of (sp_buf sp)), (estimateSize r). clear. intros a b. width.
  - intros k. destruct (decide (k = key_of r)) as [->|Hne].
    + right. exists r. rewrite lookup_insert_eq. split; [apply elem_of_app; right; by left|done].
    + rewrite lookup_insert_ne by done. destruct (Htop k) as [?|(d & Hd & ?)]; [by left|].
      right. exists d. split; [apply elem_of_app; by left|done].
  - intros x [Hx|Hx]%elem_of_app; rewrite !elem_of_app; [destruct (Hrl x Hx); tauto|tauto].
Qed.

Lemma begin_inv sp du ac batch sp' :
  seal_begin sp = Some (batch, sp') -> inv (mkWorld sp [] du ac) ->
  inv (mkWorld sp' [batch] du ac).
Proof.
  unfold seal_begin. destruct (_ =? _)%nat; [done|]. intros [= <- <-] [Hk Hs Hp Hw Ho Hg Hc Hb Htop Hrl].
  cbn [w_sp w_inflight w_durable w_accepted] in *.
  split; cbn [w_sp w_inflight w_durable w_accepted sp_buf sp_received sp_committed sp_bufBytes];
    try done.
  - intros r. rewrite Hk. cbn. rewrite app_nil_r, elem_of_nil. tauto.
  - intros r d Hr. by apply elem_of_nil in Hr.
  - intros r Hr. cbn. rewrite app_nil_r. destruct (Hrl r Hr) as [H0|[H0|H0]]; [by apply elem_of_nil in H0|tauto|tauto].
Qed.

(** A single batch in progress is the whole list. *)
Lemma single_batch {A} (fl1 fl2 : list A) b :
  (length (fl1 ++ b :: fl2) <= 1)%nat -> fl1 = [] /\ fl2 = [].
Proof. rewrite length_app. cbn. destruct fl1, fl2; cbn; try done; lia. Qed.

(** Moving the batch into the durable records keeps them gapless. *)
Lemma gapless_batch sp du ac batch :
  inv (mkWorld sp [batch] du ac) -> forall r d, r ∈ ac -> d ∈ du ++ batch ->
  key_of r = key_of d -> rec_Offset r <= rec_Offset d -> r ∈ du ++ batch.
Proof.
  intros [Hk Hs Hp Hw Ho Hg Hc Hb Htop Hrl] r d Hr Hd E Hle. cbn in *. rewrite app_nil_r in *.
  apply elem_of_app. apply elem_of_app in Hd as [Hd|Hd]; [left; by eapply Hg|].
  apply Hk in Hr as [Hr|[Hr|Hr]]; [by left|by right|]. specialize (Ho r d Hr Hd E). lia.
Qed.

Lemma raise_list_lookup (l : list (string * Z)) out k v :
  foldl (fun out kv => raise out kv.1 kv.2) out l !! k = Some v -> out !! k = Some v \/ (k, v) ∈ l.
Proof.
  revert out; induction l as [|[k1 o1] l IH]; intros out E; [by left|]. cbn in E.
  apply IH in E as [E|E]; [|right; by right]. unfold raise in E. cbn in E.
  destruct (_ <? _); [|by left]. apply lookup_insert_Some in E as [[-> ->]|[_ E]]; [right; by left|by left].
Qed.
Lemma max_offsets_list batch :
  max_offsets batch
  = foldl (fun out kv => raise out kv.1 kv.2) ∅ ((fun r => (key_of r, rec_Offset r)) <$> batch).
Proof.
  unfold max_offsets. generalize (∅ : gmap string Z) as m.
  induction batch as [|r batch IH]; intros m; cbn; [done|]. apply IH.
Qed.
Lemma max_offsets_attained batch k v :
  max_offsets batch !! k = Some v -> exists r, r ∈ batch /\ key_of r = k /\ rec_Offset r = v.
Proof.
  rewrite max_offsets_list. intros [E|E]%raise_list_lookup; [by rewrite lookup_empty in E|].
  apply list_elem_of_fmap in E as (r & [= -> ->] & Hr). by exists r.
Qed.

(** A committed batch is covered, and what was covered stays so. *)
Lemma commit_covers batch sp r :
  (r ∈ batch -> 0 < rec_Offset r -> rec_Offset r <= default 0 (sp_committed (seal_commit batch sp) !! key_of r)) /\
  default 0 (sp_committed sp !! key_of r) <= default 0 (sp_committed (seal_commit batch sp) !! key_of r).
Proof.
  unfold seal_commit, raise_all; cbn.
  destruct (raise_list_spec (map_to_list (max_offsets batch)) (sp_committed sp) (key_of r)) as (Hge & Hub & _).
  split; [|done]. intros Hr Hp.
  destruct (raise_list_spec ((fun r => (key_of r, rec_Offset r)) <$> batch) ∅ (key_of r)) as (_ & Hmax & _).
  rewrite <- max_offsets_list in Hmax. specialize (Hmax (rec_Offset r)).
  assert (Hle : rec_Offset r <= default 0 (max_offsets batch !! key_of r))
    by (apply Hmax, list_elem_of_fmap; by exists r).
  destruct (max_offsets batch !! key_of r) as [v|] eqn:E; cbn in Hle; [|lia].
  etrans; [exact Hle|]. apply Hub. by apply elem_of_map_to_list.
Qed.

Lemma done_inv sp batch sorted du ac :
  sorted ≡ₚ batch ->
  inv (mkWorld sp [batch] du ac) -> inv (mkWorld (seal_commit sorted sp) [] (du ++ batch) ac).
Proof.
  intros Hperm Hi. pose proof (gapless_batch _ _ _ _ Hi) as Hgap. destruct Hi as [Hk Hs Hp Hw Ho Hg Hc Hb Htop Hrl].
  cbn [w_sp w_inflight w_durable w_accepted] in *.
  split; cbn [w_sp w_inflight w_durable w_accepted seal_commit sp_buf sp_received sp_committed sp_bufBytes];
    try done; try (cbn; lia).
  - intros r. rewrite Hk. cbn. rewrite app_nil_r, elem_of_app, elem_of_nil. tauto.
  - intros r d _ Hd. by apply elem_of_nil in Hd.
  - intros k. unfold raise_all.
    destruct (raise_list_spec (map_to_list (max_offsets sorted)) (sp_committed sp) k) as (_ & _ & [->|Hin]).
    + destruct (Hc k) as [?|(d & Hd & ? & ?)]; [by left|]. right. exists d.
      split; [apply elem_of_app; by left|done].
    + apply elem_of_map_to_list, max_offsets_attained in Hin as (r & Hr & <- & Er).
      right. exists r. split; [apply elem_of_app; right; by rewrite <- Hperm|done].
  - intros r Hr. destruct (commit_covers sorted sp r) as [Hcov Hge]. cbn in Hcov, Hge. right.
    destruct (Hrl r Hr) as [Hin|[Hin|Hle]]; [|by left|right; lia]. right. cbn in Hin. rewrite app_nil_r in Hin.
    apply Hcov; [by rewrite Hperm|auto].
Qed.

Lemma requeue_bytes l n :
  foldl (fun n r => int64 (n + estimateSize r)) (int64 n) l = int64 (sizes_of l + n).
Proof.
  revert n; induction l as [|r l IH]; intros n; [done|]. cbn.
  replace (int64 (int64 n + estimateSize r)) with (int64 (n + estimateSize r))
    by (generalize (estimateSize r); clear; intros; width).
  rewrite IH. unfold sizes_of. cbn. f_equal. lia.
Qed.

Lemma sizes_of_perm l l' : l ≡ₚ l' -> sizes_of l = sizes_of l'.
Proof. unfold sizes_of. induction 1; cbn; lia. Qed.

Lemma failed_inv sp batch sorted du ac now (stored : bool) :
  sorted ≡ₚ batch -> inv (mkWorld sp [batch] du ac) ->
  inv (mkWorld (requeue now sorted sp) [] (if stored then du ++ batch else du) ac).
Proof.
  intros Hperm Hi. pose proof (gapless_batch _ _ _ _ Hi) as Hgap. destruct Hi as [Hk Hs Hp Hw Ho Hg Hc Hb Htop Hrl].
  cbn [w_sp w_inflight w_durable w_accepted] in *.
  split; cbn [w_sp w_inflight w_durable w_accepted requeue sp_buf sp_received sp_committed sp_bufBytes];
    try done; try (cbn; lia).
  - intros r. rewrite Hk. cbn. rewrite app_nil_r, elem_of_app, elem_of_nil, Hperm.
    destruct stored; rewrite ?elem_of_app; tauto.
  - intros r d _ Hd. by apply elem_of_nil in Hd.
  - destruct stored; [exact Hgap|exact Hg].
  - intros k. destruct (Hc k) as [?|(d & Hd & ? & ?)]; [by left|]. right. exists d.
    split; [|done]. destruct stored; [apply elem_of_app; by left|done].
  - by rewrite Hb, requeue_bytes, sizes_of_app, (sizes_of_perm _ _ Hperm).
  - intros r Hr. right. rewrite elem_of_app, Hperm. destruct (Hrl r Hr) as [Hin|Hin]; [|tauto].
    cbn in Hin. rewrite app_nil_r in Hin. tauto.
Qed.

Lemma restart_inv sp fl du ac wm :
  recovered wm du -> inv (mkWorld sp fl du ac) -> inv (mkWorld (NewSpool (sp_cfg sp) wm) [] du du).
Proof.
  intros [Ha Hb] [Hk _ Hp _ _ _ _ _ _ _]. cbn [w_sp w_inflight w_durable w_accepted] in *.
  split; cbn; try done; try lia.
  - intros r. rewrite !elem_of_nil. tauto.
  - intros r Hr. apply Hp, Hk. by left.
  - intros r d Hr. by apply elem_of_nil in Hr.
  - intros r Hr. right. right. by apply Ha.
Qed.

Lemma world_step_inv w w' : step false w w' -> inv w -> inv w'.
Proof.
  intros [sp fl du ac now r Hr|sp fl du ac batch sp' [?| ->] Hb|sp fl1 batch fl2 du ac so Hp
         |sp fl1 batch fl2 du ac so now st Hp|sp fl du ac wm Hwm] Hi.
  - by apply accept_inv.
  - done.
  - by eapply begin_inv.
  - destruct (single_batch _ _ _ (inv_single _ Hi)) as [-> ->]. by eapply done_inv.
  - destruct (single_batch _ _ _ (inv_single _ Hi)) as [-> ->]. by eapply failed_inv.
  - by eapply restart_inv.
Qed.
Lemma world_inv cfg w : reachable false cfg w -> inv w.
Proof.
  unfold reachable. intros Hr. pose proof (inv_start cfg) as H0. revert H0.
  induction Hr as [|w1 w2 w3 Hs _ IH]; [done|]. eauto using world_step_inv.
Qed.

Lemma committed_durable w r :
  inv w -> r ∈ w_accepted w -> rec_Offset r <= default 0 (Committed (w_sp w) !! key_of r) -> r ∈ w_durable w.
Proof.
  intros Hi Hr Hle. pose proof (inv_positive w Hi r Hr).
  unfold Committed in Hle. destruct (inv_committed w Hi (key_of r)) as [E|(d & Hd & Ek & Eo)]; [lia|].
  eapply (inv_gapless w Hi r d); [done|done|done|lia].
Qed.

(** An acknowledged record is durable.  However accepts, seals that succeed, fail
    or half-fail, and restarts interleave, as long as one seal runs at a time, a record
    whose offset is at or below its source's committed offset, which is what the server
    acknowledges and the agent then discards, is in a segment the object store holds. *)
Theorem acked_durable cfg w r :
  reachable false cfg w -> r ∈ w_accepted w ->
  rec_Offset r <= default 0 (Committed (w_sp w) !! key_of r) -> r ∈ w_durable w.
Proof. intros Hi%world_inv. by apply committed_durable. Qed.

(** No accepted record is lost while the manager runs: it is durable, in the batch
    being sealed, or in the open buffer, and the buffer's byte count is exact. *)
Theorem accepted_kept cfg w :
  reachable false cfg w ->
  (forall r, r ∈ w_accepted w <->
     r ∈ w_durable w \/ r ∈ List.concat (w_inflight w) \/ r ∈ sp_buf (w_sp w)) /\
  sp_bufBytes (w_sp w) = int64 (sizes_of (sp_buf (w_sp w))).
Proof. intros Hi%world_inv. split; [apply (inv_kept w Hi)|apply (inv_bytes w Hi)]. Qed.

Lemma redelivered w wm r :
  inv w -> recovered wm (w_durable w) -> r ∈ w_accepted w ->
  is_duplicate (NewSpool (sp_cfg (w_sp w)) wm) r = true <-> r ∈ w_durable w.
Proof.
  intros Hi [Ha Hb] Hr. pose proof (inv_positive w Hi r Hr) as Hp.
  unfold is_duplicate, NewSpool; cbn. split.
  - destruct (wm !! key_of r) as [hw|] eqn:E; [|done]. intros Hle%Z.leb_le.
    destruct (Hb (key_of r)) as [Hz|(d & Hd & Ek & Eo)]; rewrite E in *; cbn in *; [lia|].
    eapply (inv_gapless w Hi r d); [done|done|done|lia].
  - intros Hd. specialize (Ha r Hd). destruct (wm !! key_of r) as [hw|]; cbn in Ha; [|lia].
    by apply Z.leb_le.
Qed.

(** A restart loses nothing and repeats nothing.  After a restart over a recovered
    catalogue, an accepted record that redelivery sends again is dropped if it is
    durable and accepted again if it is not. *)
Theorem restart_redelivery cfg w wm r :
  reachable false cfg w -> recovered wm (w_durable w) -> r ∈ w_accepted w ->
  is_duplicate (NewSpool (sp_cfg (w_sp w)) wm) r = true <-> r ∈ w_durable w.
Proof. intros Hi%world_inv. by apply redelivered. Qed.

(** A successful seal releases its whole batch: every record of it is at or below
    the committed offset of its source afterwards. *)
Theorem seal_commit_covers batch sp r :
  r ∈ batch -> 0 < rec_Offset r ->
  rec_Offset r <= default 0 (Committed (seal_commit batch sp) !! key_of r).
Proof. apply (commit_covers batch sp r). Qed.

(** ** The handlers are executions of the steps *)

Lemma accept_all_steps conc arrivals sp fl du ac :
  Forall (fun a => 0 < rec_Offset a.2) arrivals ->
  exists new, new ⊆ arrivals.*2 /\ sp_buf (accept_all arrivals sp) = sp_buf sp ++ new /\
    rtc (step conc) (mkWorld sp fl du ac) (mkWorld (accept_all arrivals sp) fl du (ac ++ new)).
Proof.
  revert sp ac; induction arrivals as [|[now r] l IH]; intros sp ac Hp.
  { exists []. rewrite !app_nil_r. split; [done|]. split; [done|constructor]. }
  apply Forall_cons in Hp as [Hr Hp]; cbn in Hr.
  pose proof (step_accept conc sp fl du ac now r Hr) as Hs.
  assert (Ho : snd (Accept now r sp) = None /\ sp_buf (fst (Accept now r sp)) = sp_buf sp \/
    snd (Accept now r sp) = Some r /\ sp_buf (fst (Accept now r sp)) = sp_buf sp ++ [r])
    by (unfold Accept; destruct (is_duplicate sp r); [by left|by right]).
  destruct Ho as [[Ho Hb]|[Ho Hb]]; rewrite Ho in Hs.
  - destruct (IH (fst (Accept now r sp)) ac Hp) as (new & Hn & Hbuf & Hsteps). exists new.
    split; [set_solver|]. rewrite Hb in Hbuf. split; [exact Hbuf|]. by eapply rtc_l.
  - destruct (IH (fst (Accept now r sp)) (ac ++ [r]) Hp) as (new & Hn & Hbuf & Hsteps).
    exists (r :: new). split; [cbn; set_solver|]. rewrite Hb, <- app_assoc in Hbuf. split; [exact Hbuf|].
    eapply rtc_l; [exact Hs|]. by rewrite <- app_assoc in Hsteps.
Qed.

Section Refinement.
Context `{SortSlice}.
Context {B D : Type} `{Blobs B, Bolt D, MetaCodec, Zstd, JsonCodec}.

(** A call of [Seal] as steps, what is in the buffer afterwards, and what it did to the
    store. *)
Lemma SpoolSeal_run disk now created id tmp arrivals sp sp' (st st' : Store B D) r du ac :
  Forall (fun a => 0 < rec_Offset a.2) arrivals ->
  SpoolSeal disk now created id tmp arrivals (sp, st) = ((sp', st'), r) ->
  exists new, new ⊆ arrivals.*2 /\
  match r with
  | Ok n => n = length (sp_buf sp) /\ sp_buf sp' = new /\
      rtc (step false) (mkWorld sp [] du ac) (mkWorld sp' [] (du ++ sp_buf sp) (ac ++ new))
  | Err _ => sp_buf sp' = sort_slice (sp_buf sp) ++ new /\ forall stored : bool,
      rtc (step false) (mkWorld sp [] du ac)
        (mkWorld sp' [] (if stored then du ++ sp_buf sp else du) (ac ++ new))
  end.
Proof.
  intros Hp. unfold SpoolSeal. destruct (seal_begin sp) as [[batch sp1]|] eqn:Eb; cycle 1.
  { intros [= <- <- <-]. unfold seal_begin in Eb.
    destruct (Nat.eqb_spec (length (sp_buf sp)) 0) as [E0|]; [|done]. apply nil_length_inv in E0.
    destruct (accept_all_steps false arrivals sp [] du ac Hp) as (new & Hn & Hbuf & Hs).
    exists new. rewrite E0 in *. by rewrite app_nil_r. }
  assert (Hbuf : batch = sp_buf sp /\ sp_buf sp1 = [])
    by (unfold seal_begin in Eb; destruct (_ =? _)%nat; [done|by injection Eb as <- <-]).
  destruct Hbuf as [Hbuf Hbuf1]. destruct (seal_batch _ _ _ _ _ _) as [st1 r1].
  destruct (accept_all_steps false arrivals sp1 [batch] du ac Hp) as (new & Hn & Hb & Hs).
  rewrite Hbuf1 in Hb. cbn in Hb.
  assert (Hs' : rtc (step false) (mkWorld sp [] du ac) (mkWorld (accept_all arrivals sp1) [batch] du (ac ++ new))).
  { eapply rtc_l; [|exact Hs]. apply (step_begin false sp [] du ac batch sp1); [by right|done]. }
  rewrite <- Hbuf. destruct r1 as [m|e]; intros [= <- <- <-]; exists new; (split; [done|]).
  - split; [done|]. split; [exact Hb|]. eapply rtc_r; [exact Hs'|].
    apply (step_done false _ [] batch []), sort_slice_perm.
  - split; [cbn; by rewrite Hb|]. intros stored. eapply rtc_r; [exact Hs'|].
    apply (step_failed false _ [] batch []), sort_slice_perm.
Qed.
Lemma SpoolSeal_store disk now created id tmp arrivals sp sp' (st st' : Store B D) r :
  SpoolSeal disk now created id tmp arrivals (sp, st) = ((sp', st'), r) ->
  (sp_buf sp = [] /\ st' = st) \/
  (sp_buf sp <> [] /\ exists r1, seal_batch disk created id tmp (sp_buf sp) st = (st', r1) /\ is_ok r1 = is_ok r).
Proof.
  unfold SpoolSeal, seal_begin. destruct (Nat.eqb_spec (length (sp_buf sp)) 0) as [E0|E0].
  - intros [= <- <- <-]. left. by apply nil_length_inv in E0.
  - intros E. right. split; [by intros E1; rewrite E1 in E0|].
    destruct (seal_batch _ _ _ _ _ _) as [st1 r1]. exists r1. destruct r1; by injection E as _ <- <-.
Qed.

End Refinement.

(** ** Concurrent seals *)

Module Witness.

Definition rec (off : Z) : LogRecord :=
  mkRecord (mkSource "n" "/p" 1 2 3) off 5 "a" "web" "app" "n" "" "stdout" ∅ ∅ "m" ∅.
Definition cfg : SpoolConfig := mkConfig 0 0.

(** A record is accepted and its seal begins; another is accepted and sealed. *)
Definition sp1 : Spool := fst (Accept 1 (rec 10) (NewSpool cfg ∅)).
Definition sp2 : Spool := mkSpool (sp_cfg sp1) [] 0 (sp_openSince sp1) (sp_received sp1) (sp_committed sp1).
Definition sp3 : Spool := fst (Accept 2 (rec 20) sp2).
Definition sp4 : Spool := mkSpool (sp_cfg sp3) [] 0 (sp_openSince sp3) (sp_received sp3) (sp_committed sp3).
Definition sp5 : Spool := seal_commit [rec 20] sp4.

Lemma begin1 conc : reachable conc cfg (mkWorld sp2 [[rec 10]] [] [rec 10]).
Proof.
  apply (rtc_l _ _ (mkWorld sp1 [] [] [rec 10])).
  - exact (step_accept conc (NewSpool cfg ∅) [] [] [] 1 (rec 10) eq_refl).
  - apply rtc_once, (step_begin conc sp1 [] [] [rec 10] [rec 10] sp2); [by right|reflexivity].
Qed.
Lemma done1 : reachable false cfg (mkWorld (seal_commit [rec 10] sp2) [] [rec 10] [rec 10]).
Proof.
  eapply rtc_r; [apply begin1|]. by apply (step_done false sp2 [] [rec 10] [] [] [rec 10] [rec 10]).
Qed.

Lemma done2 : reachable true cfg (mkWorld sp5 [[rec 10]] [rec 20] [rec 10; rec 20]).
Proof.
  apply (rtc_r _ (mkWorld sp4 [[rec 10]; [rec 20]] [] [rec 10; rec 20])).
  - apply (rtc_r _ (mkWorld sp3 [[rec 10]] [] [rec 10; rec 20])).
    + apply (rtc_r _ (mkWorld sp2 [[rec 10]] [] [rec 10])); [apply begin1|].
      exact (step_accept true sp2 [[rec 10]] [] [rec 10] 2 (rec 20) eq_refl).
    + apply (step_begin true sp3 [[rec 10]] [] [rec 10; rec 20] [rec 20] sp4); [by left|reflexivity].
  - by apply (step_done true sp4 [[rec 10]] [rec 20] [] [] [rec 10; rec 20] [rec 20]).
Qed.

Lemma acked_durable_witness : rec 10 ∈ [rec 10].
Proof.
  apply (acked_durable cfg (mkWorld (seal_commit [rec 10] sp2) [] [rec 10] [rec 10]) (rec 10) done1).
  - by left.
  - vm_compute. done.
Defined.
Lemma accepted_kept_witness :
  (forall r, r ∈ [rec 10] <-> r ∈ [rec 10] \/ r ∈ List.concat [] \/ r ∈ sp_buf (seal_commit [rec 10] sp2)) /\
  sp_bufBytes (seal_commit [rec 10] sp2) = int64 (sizes_of (sp_buf (seal_commit [rec 10] sp2))).
Proof. exact (accepted_kept cfg _ done1). Defined.
Lemma restart_redelivery_witness :
  is_duplicate (NewSpool (sp_cfg sp2) {[key_of (rec 10) := 10]}) (rec 10) = true <-> rec 10 ∈ [rec 10].
Proof.
  apply (restart_redelivery cfg (mkWorld (seal_commit [rec 10] sp2) [] [rec 10] [rec 10])
    {[key_of (rec 10) := 10]} (rec 10) done1); [|by left].
  split.
  - intros r ->%list_elem_of_singleton. rewrite lookup_singleton_eq. vm_compute. done.
  - intros k. destruct (decide (key_of (rec 10) = k)) as [<-|Hne].
    + right. exists (rec 10). rewrite lookup_singleton_eq. split; [by left|done].
    + left. by rewrite lookup_singleton_ne.
Defined.
Lemma seal_commit_covers_witness :
  rec_Offset (rec 10) <= default 0 (Committed (seal_commit [rec 10] sp2) !! key_of (rec 10)).
Proof. apply (seal_commit_covers [rec 10] sp2 (rec 10)); [by left|reflexivity]. Defined.

End Witness.

(** C39: two seals at once can lose acknowledged records.  Nothing in [Seal] keeps a
    second seal, such as the one of [Shutdown], from starting while the seal loop's is in
    progress; if the second succeeds and the first fails, the committed offset has
    passed records that are only in memory. *)
Theorem concurrent_seals_unsafe :
  exists cfg w r, reachable true cfg w /\ r ∈ w_accepted w /\ 0 < rec_Offset r /\
    rec_Offset r <= default 0 (Committed (w_sp w) !! key_of r) /\ r ∉ w_durable w.
Proof.
  exists Witness.cfg, (mkWorld (requeue 3 [Witness.rec 10] Witness.sp5) [] [Witness.rec 20]
    [Witness.rec 10; Witness.rec 20]), (Witness.rec 10).
  split; [|split; [by left|split; [done|split; [vm_compute; done|]]]].
  - eapply rtc_r; [apply Witness.done2|].
    by apply (step_failed true Witness.sp5 [] [Witness.rec 10] [] _ _ [Witness.rec 10] 3 false).
  - by intros ?%list_elem_of_singleton.
Qed.
