(* ===== verification/Client.v ===== *)
(** internal/ingest/client.go: the agent's window of unacknowledged records.  Every
    method holds the client's mutex; a call of [Enqueue] that has to wait is an attempt
    without result, repeated when the condition variable is signalled. *)

From S2P Require Import Prelude GoStrings GoTime Model SegWriter RecordJson SegToy.
Local Open Scope string_scope.
Local Open Scope list_scope.
Local Open Scope Z_scope.

(** [ClientConfig] and its defaults; the address is left out. *)
Record ClientConfig := mkClientConfig {
  MaxHeldBytes : Z; HardMaxBytes : Z; BatchBytes : Z; BatchWait : Duration; Backoff : Duration
}.
Definition client_defaults (c : ClientConfig) : ClientConfig :=
  let soft := if MaxHeldBytes c <=? 0 then 64 * 2 ^ 20 else MaxHeldBytes c in
  mkClientConfig soft
    (if HardMaxBytes c <=? 0 then int64 (2 * soft) else HardMaxBytes c)
    (if BatchBytes c <=? 0 then 256 * 2 ^ 10 else BatchBytes c)
    (if BatchWait c <=? 0 then 200 * Millisecond else BatchWait c)
    (if Backoff c <=? 0 then Second else Backoff c).

Record envelope := mkEnvelope { ev_sourceKey : string; ev_offset : Z; ev_raw : string; ev_sent : bool }.

(** [Client]; [cl_notify] is whether the one-place channel [notify] holds a signal. *)
Record Client := mkClient {
  cl_cfg : ClientConfig; cl_unacked : list envelope; cl_heldByte : Z; cl_dropped : Z;
  cl_closed : bool; cl_notify : bool
}.

Definition NewClient (cfg : ClientConfig) : Client :=
  mkClient (client_defaults cfg) [] 0 0 false false.

Definition size (e : envelope) : Z := Z.of_nat (slen (ev_raw e)).

(** [Client.wake] *)
Definition wake (c : Client) : Client :=
  mkClient (cl_cfg c) (cl_unacked c) (cl_heldByte c) (cl_dropped c) (cl_closed c) true.

(** The send loop receives the signal. *)
Definition take_notify (c : Client) : Client :=
  mkClient (cl_cfg c) (cl_unacked c) (cl_heldByte c) (cl_dropped c) (cl_closed c) false.

(** [Client.Close] *)
Definition ClientClose (c : Client) : Client :=
  mkClient (cl_cfg c) (cl_unacked c) (cl_heldByte c) (cl_dropped c) true (cl_notify c).

(** [Client.Dropped] *)
Definition Dropped (c : Client) : Z := cl_dropped c.

(** What the commit callback is called with, in order. *)
Abbreviation commits := (list (string * Z)).

(** [Client.dropOldestLocked] *)
Definition dropOldestLocked (c : Client) : Client * commits :=
  match cl_unacked c with
  | [] => (c, [])
  | old :: rest =>
      (mkClient (cl_cfg c) rest (int64 (cl_heldByte c - size old)) (int64 (cl_dropped c + 1))
         (cl_closed c) (cl_notify c),
       [(ev_sourceKey old, ev_offset old)])
  end.

Definition push (e : envelope) (c : Client) : Client :=
  wake (mkClient (cl_cfg c) (cl_unacked c ++ [e]) (int64 (cl_heldByte c + size e))
          (cl_dropped c) (cl_closed c) (cl_notify c)).

Inductive enqueued :=
| Enqueued (c : Client) (calls : commits)
| Waits                         (* cond.Wait: the lock is released *)
| Canceled                      (* context.Canceled: the client is closed *)
| MarshalFailed.

Section Client.
Context `{JsonCodec}.

Definition envelope_of (r : LogRecord) (raw : string) : envelope :=
  mkEnvelope (Key (rec_Source r)) (rec_Offset r) raw false.

(** [Client.Enqueue]: one attempt with the lock held. *)
Definition Enqueue (r : LogRecord) (c : Client) : enqueued :=
  match MarshalRecord r with
  | None => MarshalFailed
  | Some raw =>
      let env := envelope_of r raw in
      let held := int64 (cl_heldByte c + size env) in
      if (MaxHeldBytes (cl_cfg c) <? held) && negb (cl_closed c) then
        if HardMaxBytes (cl_cfg c) <? held
        then let '(c, calls) := dropOldestLocked c in Enqueued (push env c) calls
        else Waits
      else if cl_closed c then Canceled
      else Enqueued (push env c) []
  end.

End Client.

(** What a successful [Enqueue] does to the window: the record goes to its end, and
    records the commit callback is called with leave its head. *)
Lemma Enqueue_window `{JsonCodec} r c c' calls :
  Enqueue r c = Enqueued c' calls ->
  exists raw gone rest, MarshalRecord r = Some raw /\ cl_closed c = false /\ cl_closed c' = false /\
    cl_unacked c = gone ++ rest /\ cl_unacked c' = rest ++ [envelope_of r raw] /\
    calls = (fun e => (ev_sourceKey e, ev_offset e)) <$> gone.
Proof.
  intros E. unfold Enqueue in E. destruct (MarshalRecord r) as [raw|]; [|done]. exists raw.
  destruct (cl_closed c) eqn:Ec; cbn [negb] in E; rewrite ?andb_false_r, ?andb_true_r in E; [done|].
  destruct (_ <? _) in E; [destruct (_ <? _) in E; [|done]|].
  - unfold dropOldestLocked in E. destruct (cl_unacked c) as [|old rest] eqn:Eu; injection E as <- <-.
    + exists [], []. cbn. by rewrite Eu.
    + exists [old], rest. done.
  - injection E as <- <-. by exists [], (cl_unacked c).
Qed.

Lemma Enqueue_canceled `{JsonCodec} r c : Enqueue r c = Canceled -> cl_closed c = true.
Proof.
  unfold Enqueue. destruct (MarshalRecord r); [|done]. destruct (cl_closed c); [done|].
  destruct (_ && _); [|done]. destruct (_ <? _); [|done]. by destruct (dropOldestLocked c).
Qed.

(** [Client.applyAck]; [ack] lists the acknowledged offsets per source. *)
Definition acked (ack : commits) (e : envelope) : bool :=
  match (list_to_map (reverse ack) : gmap string Z) !! ev_sourceKey e with
  | Some off => ev_offset e <=? off
  | None => false
  end.
Definition held_of (l : list envelope) : Z := foldl (fun held e => int64 (held + size e)) 0 l.
Definition applyAck (ack : commits) (c : Client) : Client * commits :=
  let kept := List.filter (fun e => negb (acked ack e)) (cl_unacked c) in
  (mkClient (cl_cfg c) kept (held_of kept) (cl_dropped c) (cl_closed c) (cl_notify c), ack).

(** ** Sending *)

Definition set_sent (b : bool) (e : envelope) : envelope :=
  mkEnvelope (ev_sourceKey e) (ev_offset e) (ev_raw e) b.
Definition with_unacked (l : list envelope) (c : Client) : Client :=
  mkClient (cl_cfg c) l (cl_heldByte c) (cl_dropped c) (cl_closed c) (cl_notify c).

(** The collecting loop of [flush]: the window with the batch's envelopes marked sent,
    and the batch. *)
Fixpoint collect (limit nbytes : Z) (l : list envelope) : list envelope * list envelope :=
  match l with
  | [] => ([], [])
  | e :: l' =>
      if ev_sent e then let '(l', batch) := collect limit nbytes l' in (e :: l', batch)
      else
        let nbytes := int64 (nbytes + size e) in
        if limit <=? nbytes then (set_sent true e :: l', [e])
        else let '(l', batch) := collect limit nbytes l' in (set_sent true e :: l', e :: batch)
  end.

(** One turn of [flush]: the batch to send, if any. *)
Definition flush_batch (c : Client) : Client * list string :=
  let '(l, batch) := collect (BatchBytes (cl_cfg c)) 0 (cl_unacked c) in
  (with_unacked l c, ev_raw <$> batch).

(** [flush]: the batches sent until nothing is unsent; [send_ok] says how many of them
    the stream takes before it fails.  The result says whether all were sent. *)
Fixpoint flush_loop (fuel : nat) (send_ok : nat) (c : Client) : Client * list (list string) * bool :=
  match fuel with
  | O => (c, [], true)
  | S fuel =>
      let '(c, batch) := flush_batch c in
      match batch, send_ok with
      | [], _ => (c, [], true)
      | _, O => (c, [], false)
      | _, S n => let '(c, sent, ok) := flush_loop fuel n c in (c, batch :: sent, ok)
      end
  end.
Definition flush (send_ok : nat) (c : Client) : Client * list (list string) * bool :=
  flush_loop (S (length (cl_unacked c))) send_ok c.

(** The start of [sendLoop]: on a new connection the whole window is unsent. *)
Definition reconnect (c : Client) : Client := with_unacked (set_sent false <$> cl_unacked c) c.

(** ** What is sent *)

Definition unsent (l : list envelope) : list envelope := List.filter (fun e => negb (ev_sent e)) l.

Lemma set_sent_id e : ev_sent e = true -> set_sent true e = e.
Proof. destruct e; cbn. by intros ->. Qed.

(** The collecting loop takes a prefix of the unsent envelopes, in order, and marks
    exactly those; it takes at least one if there is one. *)
Lemma collect_spec limit n l :
  exists pre post, l = pre ++ post /\
    collect limit n l = ((set_sent true <$> pre) ++ post, unsent pre) /\
    (unsent pre = [] -> unsent l = []).
Proof.
  revert n; induction l as [|e l IH]; intros n; cbn.
  { by exists [], []. }
  destruct (ev_sent e) eqn:Es.
  - destruct (IH n) as (pre & post & -> & E & Hn). rewrite E. exists (e :: pre), post. cbn.
    rewrite Es, set_sent_id by done. by repeat split.
  - destruct (limit <=? int64 (n + size e)).
    + exists [e], l. cbn. by rewrite Es.
    + destruct (IH (int64 (n + size e))) as (pre & post & -> & E & Hn). rewrite E.
      exists (e :: pre), post. cbn. rewrite Es. by repeat split.
Qed.

Lemma unsent_app l l' : unsent (l ++ l') = unsent l ++ unsent l'.
Proof. apply List.filter_app. Qed.
Lemma unsent_set_sent (l : list envelope) : unsent (set_sent true <$> l) = [].
Proof. by induction l. Qed.
Lemma set_sent_twice (l : list envelope) : set_sent true <$> (set_sent true <$> l) = set_sent true <$> l.
Proof. rewrite <- list_fmap_compose. by apply list_fmap_ext. Qed.
Lemma unsent_none (l : list envelope) : unsent l = [] -> set_sent true <$> l = l.
Proof.
  induction l as [|e l IH]; [done|]. cbn. destruct (ev_sent e) eqn:E; [|done]. cbn.
  intros Hl. by rewrite set_sent_id, IH.
Qed.

(** One turn of [flush]: the batch is the raw form of a prefix of what is unsent. *)
Lemma flush_batch_spec c :
  exists pre post, cl_unacked c = pre ++ post /\
    flush_batch c = (with_unacked ((set_sent true <$> pre) ++ post) c, ev_raw <$> unsent pre) /\
    (unsent pre = [] -> unsent (cl_unacked c) = []).
Proof.
  unfold flush_batch. destruct (collect_spec (BatchBytes (cl_cfg c)) 0 (cl_unacked c))
    as (pre & post & E & -> & Hn). by exists pre, post.
Qed.

(** ** The reference for a flush

    The raw forms of the unsent records, cut into batches beforehand: [n] bytes are in the
    first batch already, and a batch ends with the record that brings it to the limit. *)
Fixpoint chunk (limit n : Z) (raws : list string) : list (list string) :=
  match raws with
  | [] => []
  | raw :: raws =>
      let n := int64 (n + Z.of_nat (slen raw)) in
      if limit <=? n then [raw] :: chunk limit 0 raws
      else match chunk limit n raws with [] => [[raw]] | b :: bs => (raw :: b) :: bs end
  end.
(** The first [k] unsent envelopes are marked as sent. *)
Fixpoint mark (k : nat) (l : list envelope) : list envelope :=
  match l, k with
  | e :: l, S k' => if ev_sent e then e :: mark k l else set_sent true e :: mark k' l
  | _, _ => l
  end.
(** The stream takes [n] batches: they are sent, and the next one is collected too. *)
Definition flush_ref (n : nat) (c : Client) : Client * list (list string) * bool :=
  let bs := chunk (BatchBytes (cl_cfg c)) 0 (ev_raw <$> unsent (cl_unacked c)) in
  (with_unacked (mark (length (List.concat (take (S n) bs))) (cl_unacked c)) c, take n bs,
   bool_decide (length bs <= n)%nat).

(** What makes batches right: none is empty, none has reached the limit before its last
    record, and all but the last one reach it. *)
Definition bytes_in (batch : list string) : Z := foldr Z.add 0 ((fun raw => Z.of_nat (slen raw)) <$> batch).
Fixpoint cut_by (limit : Z) (bs : list (list string)) : Prop :=
  match bs with
  | [] => True
  | b :: bs =>
      b <> [] /\ (forall p q, b = p ++ q -> p <> [] -> q <> [] -> int64 (bytes_in p) < limit) /\
      (bs = [] \/ limit <= int64 (bytes_in b)) /\ cut_by limit bs
  end.

Lemma chunk_concat limit n raws : List.concat (chunk limit n raws) = raws.
Proof.
  revert n; induction raws as [|raw raws IH]; intros n; [done|]. cbn.
  destruct (_ <=? _); cbn; [by rewrite IH|]. specialize (IH (int64 (n + Z.of_nat (slen raw)))).
  destruct (chunk _ _ raws) as [|b bs]; cbn in *; by rewrite <- IH.
Qed.
Lemma chunk_cut_from limit n raws :
  match chunk limit n raws with
  | [] => True
  | b :: bs => b <> [] /\ (forall p q, b = p ++ q -> p <> [] -> q <> [] -> int64 (n + bytes_in p) < limit) /\
      (bs = [] \/ limit <= int64 (n + bytes_in b)) /\ cut_by limit bs
  end.
Proof.
  revert n; induction raws as [|raw raws IH]; intros n; [done|]. cbn [chunk].
  assert (One : forall p q : list string, [raw] = p ++ q -> p <> [] -> q <> [] -> int64 (n + bytes_in p) < limit)
    by (intros [|x [|y p]] [|z q] E; done).
  assert (B1 : bytes_in [raw] = Z.of_nat (slen raw)) by apply Z.add_0_r.
  destruct (Z.leb_spec limit (int64 (n + Z.of_nat (slen raw)))) as [Hle|Hlt].
  - split; [done|]. split; [exact One|]. rewrite B1. split; [by right|].
    specialize (IH 0). by destruct (chunk limit 0 raws).
  - specialize (IH (int64 (n + Z.of_nat (slen raw)))). destruct (chunk limit _ raws) as [|b bs].
    { split; [done|]. split; [exact One|]. split; [by left|done]. }
    destruct IH as (_ & Hp & Hb & Hc).
    assert (Add : forall p, int64 (int64 (n + Z.of_nat (slen raw)) + bytes_in p) = int64 (n + bytes_in (raw :: p))).
    { intros p. change (bytes_in (raw :: p)) with (Z.of_nat (slen raw) + bytes_in p).
      generalize (Z.of_nat (slen raw)), (bytes_in p). clear. intros x y. width. }
    split; [done|]. split; [|by rewrite <- Add]. intros [|x p] q E Hne Hq; [done|].
    injection E as <- E. destruct p as [|y p]; [by rewrite B1|]. rewrite <- Add. by apply (Hp (y :: p) q).
Qed.
Lemma chunk_cut limit raws : cut_by limit (chunk limit 0 raws).
Proof. pose proof (chunk_cut_from limit 0 raws) as Hc. by destruct (chunk limit 0 raws). Qed.

Lemma mark_0 l : mark 0 l = l.
Proof. by destruct l. Qed.
Lemma mark_mark j k l : mark j (mark k l) = mark (k + j) l.
Proof.
  revert j k; induction l as [|e l IH]; intros j k; [by destruct k|]. destruct k as [|k]; [done|].
  cbn [mark Nat.add]. destruct (ev_sent e) eqn:Es.
  - destruct j as [|j]; cbn; [by rewrite Nat.add_0_r|]. by rewrite Es, (IH (S j) (S k)).
  - destruct j as [|j]; cbn; [by rewrite Nat.add_0_r|]. by rewrite IH.
Qed.
Lemma unsent_mark k l : unsent (mark k l) = drop k (unsent l).
Proof.
  revert k; induction l as [|e l IH]; intros k; [by destruct k|]. destruct k as [|k]; [done|].
  cbn. destruct (ev_sent e) eqn:Es; cbn; rewrite ?Es; cbn; [apply (IH (S k))|apply IH].
Qed.

(** The collecting loop takes the first of the reference's batches. *)
Lemma collect_chunk limit n l :
  let '(l', batch) := collect limit n l in
  l' = mark (length batch) l /\
  chunk limit n (ev_raw <$> unsent l) =
    match batch with [] => [] | _ => (ev_raw <$> batch) :: chunk limit 0 (ev_raw <$> unsent l') end.
Proof.
  revert n; induction l as [|e l IH]; intros n; [done|]. cbn [collect]. destruct (ev_sent e) eqn:Es.
  - specialize (IH n). destruct (collect limit n l) as [l' batch]. destruct IH as [-> Hc]. cbn [unsent List.filter].
    rewrite Es. cbn. split; [|exact Hc]. destruct batch; cbn; [by rewrite mark_0|by rewrite Es].
  - cbn [unsent List.filter]. rewrite Es. cbn [negb fmap list_fmap chunk]. fold (size e).
    destruct (limit <=? int64 (n + size e)); [cbn; by rewrite Es, mark_0|].
    specialize (IH (int64 (n + size e))). destruct (collect limit _ l) as [l' batch]. destruct IH as [-> Hc].
    cbn. rewrite Es. split; [done|]. fold (unsent l). rewrite Hc. destruct batch as [|b batch]; [|done].
    cbn. rewrite mark_0. fold (unsent l). destruct (unsent l) as [|x u]; [done|].
    exfalso. cbn [fmap list_fmap chunk] in Hc. destruct (_ <=? _); [done|]. by destruct (chunk _ _ _).
Qed.
(** One turn of [flush] against the reference. *)
Lemma flush_batch_chunk c :
  let '(c', batch) := flush_batch c in
  c' = with_unacked (mark (length batch) (cl_unacked c)) c /\
  chunk (BatchBytes (cl_cfg c)) 0 (ev_raw <$> unsent (cl_unacked c)) =
    match batch with [] => [] | _ => batch :: chunk (BatchBytes (cl_cfg c)) 0 (ev_raw <$> unsent (cl_unacked c')) end.
Proof.
  unfold flush_batch. pose proof (collect_chunk (BatchBytes (cl_cfg c)) 0 (cl_unacked c)) as Hc.
  destruct (collect _ _ _) as [l batch]. destruct Hc as [-> Hc]. rewrite length_fmap. split; [done|].
  rewrite Hc. by destruct batch.
Qed.
(** The reference's first batch, then the rest of it. *)
Lemma flush_ref_nil n c : unsent (cl_unacked c) = [] -> flush_ref n c = (c, [], true).
Proof.
  intros E. unfold flush_ref. rewrite E. cbn. rewrite take_nil, mark_0, bool_decide_true by lia. by destruct c.
Qed.
Lemma flush_ref_cons n c c' raw batch : flush_batch c = (c', raw :: batch) ->
  flush_ref 0 c = (c', [], false) /\
  flush_ref (S n) c = (let '(c'', sent, ok) := flush_ref n c' in (c'', (raw :: batch) :: sent, ok)) /\
  (length (unsent (cl_unacked c')) < length (unsent (cl_unacked c)))%nat.
Proof.
  intros E. pose proof (flush_batch_chunk c) as Hc. rewrite E in Hc. destruct Hc as [-> Hc].
  unfold flush_ref. cbn [with_unacked cl_unacked cl_cfg] in *. rewrite Hc.
  set (bs := chunk _ _ (ev_raw <$> unsent (mark _ _))).
  assert (Hn : forall m, bool_decide (length ((raw :: batch) :: bs) <= S m)%nat = bool_decide (length bs <= m)%nat)
    by (intros m; apply bool_decide_ext; cbn; lia).
  split; [|split].
  - rewrite bool_decide_false by (cbn; lia). cbn. by rewrite take_0, app_nil_r.
  - rewrite Hn. cbn [take List.concat]. rewrite length_app, <- mark_mark. done.
  - pose proof (f_equal (fun x => length (List.concat x)) Hc) as Hl. cbn [List.concat] in Hl.
    rewrite length_app, !chunk_concat, !length_fmap in Hl. cbn in Hl |- *. lia.
Qed.

Lemma flush_loop_ref fuel n c : (length (unsent (cl_unacked c)) < fuel)%nat -> flush_loop fuel n c = flush_ref n c.
Proof.
  revert n c; induction fuel as [|fuel IH]; intros n c Hf; [lia|]. cbn [flush_loop].
  destruct (flush_batch c) as [c' batch] eqn:E. destruct batch as [|raw batch].
  - destruct (flush_batch_spec c) as (pre & post & Ec & Ef & Hn). rewrite Ef in E. injection E as <- Eb.
    apply fmap_nil_inv in Eb. pose proof (Hn Eb) as Hu. rewrite (flush_ref_nil n c Hu).
    rewrite (unsent_none pre Eb), <- Ec. by destruct c.
  - destruct (flush_ref_cons (pred n) c c' raw batch E) as (H0 & HS & Hl). destruct n as [|n]; [done|].
    cbn in HS. rewrite HS, IH by lia. done.
Qed.

(** C28: a flush sends the window's unsent records once, in order, in batches cut by the
    limit.  The batches are non-empty, none has reached [BatchBytes] before its last record
    and all but the last one reach it; together they are the raw forms of the unsent
    records in window order.  Of these the stream is sent as many as it takes, the flush
    succeeds exactly if it takes all, and the window keeps every envelope: those of the
    batches sent, and of the one whose send failed, are now marked as sent, and no other. *)
Theorem flush_in_order n c : exists bs,
  List.concat bs = ev_raw <$> unsent (cl_unacked c) /\ cut_by (BatchBytes (cl_cfg c)) bs /\
  flush n c = (with_unacked (mark (length (List.concat (take (S n) bs))) (cl_unacked c)) c, take n bs,
               bool_decide (length bs <= n)%nat).
Proof.
  exists (chunk (BatchBytes (cl_cfg c)) 0 (ev_raw <$> unsent (cl_unacked c))).
  split; [apply chunk_concat|]. split; [apply chunk_cut|]. apply flush_loop_ref.
  unfold unsent. pose proof (List.filter_length_le (fun e => negb (ev_sent e)) (cl_unacked c)). lia.
Qed.

(** ** Backpressure *)

Definition window_size (l : list envelope) : Z := foldr Z.add 0 (size <$> l).

Lemma window_size_app l l' : window_size (l ++ l') = window_size l + window_size l'.
Proof. unfold window_size. induction l as [|e l IH]; cbn; [done|]. rewrite IH. lia. Qed.
Lemma window_size_sent b (l : list envelope) : window_size (set_sent b <$> l) = window_size l.
Proof. unfold window_size. induction l as [|e l IH]; cbn; [done|]. by rewrite IH. Qed.
Lemma window_size_pos l : 0 <= window_size l.
Proof. unfold window_size, size. induction l; cbn; lia. Qed.
Lemma window_size_filter P l : window_size (List.filter P l) <= window_size l.
Proof.
  unfold window_size. induction l as [|e l IH]; cbn; [done|]. unfold size in *.
  destruct (P e); cbn; lia.
Qed.
#[local] Arguments window_size : simpl never.

Lemma held_of_sum l : held_of l = int64 (window_size l).
Proof.
  unfold held_of. enough (G : forall n, foldl (fun h e => int64 (h + size e)) (int64 n) l = int64 (n + window_size l))
    by apply (G 0).
  induction l as [|e l IH]; intros n; cbn; [f_equal; change (window_size []) with 0; lia|].
  replace (int64 (int64 n + size e)) with (int64 (n + size e)) by (unfold size; width).
  rewrite IH. f_equal. change (window_size (e :: l)) with (size e + window_size l). lia.
Qed.

Lemma flush_batch_window c c' batch :
  flush_batch c = (c', batch) ->
  set_sent true <$> cl_unacked c' = set_sent true <$> cl_unacked c /\
  c' = with_unacked (cl_unacked c') c.
Proof.
  intros E. destruct (flush_batch_spec c) as (pre & post & Ec & Ef & _).
  rewrite Ef in E. injection E as <- _. cbn.
  by rewrite fmap_app, set_sent_twice, Ec, fmap_app.
Qed.

Section Backpressure.
Context `{JsonCodec}.

(** What happens to a client: records below [limit] bytes are enqueued, acks arrive, the
    window is sent and resent, the client is closed. *)
Inductive client_step (limit : Z) : Client -> Client -> commits -> Prop :=
| client_enqueue r c c' calls :
    (forall raw, MarshalRecord r = Some raw -> Z.of_nat (slen raw) <= limit) ->
    Enqueue r c = Enqueued c' calls -> client_step limit c c' calls
| client_ack ack c : client_step limit c (fst (applyAck ack c)) (snd (applyAck ack c))
| client_flush c : client_step limit c (fst (flush_batch c)) []
| client_reconnect c : client_step limit c (reconnect c) []
| client_close c : client_step limit c (ClientClose c) [].

Inductive client_run (limit : Z) (cfg : ClientConfig) : Client -> Prop :=
| run_new : client_run limit cfg (NewClient cfg)
| run_step c c' calls : client_run limit cfg c -> client_step limit c c' calls -> client_run limit cfg c'.

Record window_ok (cfg : ClientConfig) (c : Client) : Prop := {
  wo_cfg : cl_cfg c = client_defaults cfg;
  wo_held : cl_heldByte c = int64 (window_size (cl_unacked c));
  wo_soft : window_size (cl_unacked c) <= MaxHeldBytes (client_defaults cfg);
  wo_dropped : cl_dropped c = 0
}.

(** Capacities that make sense: soft below hard, and far from overflow. *)
Definition caps_ok (cfg : ClientConfig) : Prop :=
  let d := client_defaults cfg in MaxHeldBytes d <= HardMaxBytes d < 2 ^ 62.

Lemma window_ok_sent cfg c l :
  window_ok cfg c -> window_size l = window_size (cl_unacked c) -> window_ok cfg (with_unacked l c).
Proof. intros [E1 E2 E3 E4] E. split; cbn [with_unacked cl_cfg cl_heldByte cl_unacked cl_dropped]; by rewrite ?E. Qed.

Lemma soft_pos cfg : 0 < MaxHeldBytes (client_defaults cfg).
Proof. cbn. destruct (Z.leb_spec (MaxHeldBytes cfg) 0); lia. Qed.

Lemma client_step_ok cfg c c' calls :
  caps_ok cfg ->
  let d := client_defaults cfg in
  client_step (HardMaxBytes d - MaxHeldBytes d) c c' calls -> window_ok cfg c -> window_ok cfg c'.
Proof.
  intros Hcap d Hs Hw. pose proof (soft_pos cfg) as Hpos. unfold caps_ok in Hcap. fold d in Hcap, Hpos.
  destruct Hs as [r c c' calls Hr E|ack c|c|c|c].
  - destruct Hw as [Ec Eh Hso Ed]. fold d in Ec, Hso. unfold Enqueue in E.
    pose proof (window_size_pos (cl_unacked c)) as Hnn.
    destruct (MarshalRecord r) as [raw|]; [|done]. specialize (Hr raw eq_refl).
    change (Z.of_nat (slen raw)) with (size (envelope_of r raw)) in Hr.
    assert (Hsz : 0 <= size (envelope_of r raw)) by (unfold size; lia).
    set (env := envelope_of r raw) in *. rewrite Ec, Eh in E.
    assert (Ei : int64 (int64 (window_size (cl_unacked c)) + size env) = window_size (cl_unacked c) + size env) by width.
    rewrite Ei in E. rewrite (proj2 (Z.ltb_ge (HardMaxBytes d) _)) in E by lia.
    destruct (Z.ltb_spec (MaxHeldBytes d) (window_size (cl_unacked c) + size env)) as [Hlt|Hle];
      cbn [andb] in E; destruct (cl_closed c); try done. injection E as <- <-.
    split; cbn [push wake cl_cfg cl_unacked cl_heldByte cl_dropped]; [done| |rewrite window_size_app; change (window_size [env]) with (size env + 0); fold d; lia|done].
    rewrite window_size_app, Eh. change (window_size [env]) with (size env + 0). width.
  - destruct Hw as [Ec Eh Hso Ed]. split; cbn [applyAck fst cl_cfg cl_unacked cl_heldByte cl_dropped]; [done|apply held_of_sum| |done].
    etrans; [apply window_size_filter|done].
  - destruct (flush_batch c) as [c' b] eqn:E. apply flush_batch_window in E as [E ->]. cbn.
    apply window_ok_sent; [done|]. by rewrite <- (window_size_sent true (cl_unacked c')), E, window_size_sent.
  - apply window_ok_sent; [done|]. apply window_size_sent.
  - by destruct Hw.
Qed.

(** C29: backpressure loses nothing.  While no record's JSON is longer than the distance
    between the soft and the hard cap, the window never exceeds the soft cap, its byte
    count is exact and no record is ever dropped: the caller waits instead. *)
Theorem backpressure_lossless cfg c :
  caps_ok cfg ->
  client_run (HardMaxBytes (client_defaults cfg) - MaxHeldBytes (client_defaults cfg)) cfg c ->
  Dropped c = 0 /\ cl_heldByte c = window_size (cl_unacked c) /\
  cl_heldByte c <= MaxHeldBytes (client_defaults cfg).
Proof.
  intros Hcap Hr. assert (Hw : window_ok cfg c).
  { induction Hr as [|c c' calls _ IH Hs]; [|by eapply client_step_ok].
    split; cbn [NewClient cl_cfg cl_unacked cl_heldByte cl_dropped]; try done.
    pose proof (soft_pos cfg). change (window_size []) with 0. lia. }
  pose proof (window_size_pos (cl_unacked c)) as Hp. destruct Hw as [Ec Eh Hso Ed].
  unfold caps_ok in Hcap. assert (E : cl_heldByte c = window_size (cl_unacked c)) by (rewrite Eh; width).
  split; [done|]. split; [done|]. by rewrite E.
Qed.

(** A record longer than the soft cap stops its tail.  If its JSON is longer than the
    soft cap and not longer than the hard cap, enqueueing it waits on every open client
    with an empty window, and no ack, flush or reconnect changes that. *)
Theorem oversized_record_stuck cfg c r raw :
  caps_ok cfg -> client_run (2 ^ 62) cfg c -> cl_unacked c = [] -> cl_heldByte c = 0 ->
  cl_closed c = false -> MarshalRecord r = Some raw ->
  MaxHeldBytes (client_defaults cfg) < Z.of_nat (slen raw) <= HardMaxBytes (client_defaults cfg) ->
  Enqueue r c = Waits /\
  (forall ack, Enqueue r (fst (applyAck ack c)) = Waits) /\
  Enqueue r (fst (flush_batch c)) = Waits /\ Enqueue r (reconnect c) = Waits.
Proof.
  intros Hcap Hr Hu Hh Hcl Hm Hsz. assert (Hb : HardMaxBytes (client_defaults cfg) < 2 ^ 62) by apply Hcap.
  set (d := client_defaults cfg) in *.
  assert (Ec : cl_cfg c = d).
  { clear -Hr. induction Hr as [|c c' calls _ IH Hs]; [done|]. rewrite <- IH.
    destruct Hs as [r c c' calls _ E|ack c|c|c|c]; try done; cycle 1.
    { destruct (flush_batch c) as [c' b] eqn:E. apply flush_batch_window in E as [_ ->]. done. }
    unfold Enqueue in E. destruct (MarshalRecord r); [|done].
    destruct (_ && _); [destruct (_ <? _); [|done]|destruct (cl_closed c); [done|]].
    - unfold dropOldestLocked in E. destruct (cl_unacked c); injection E as <- _; done.
    - injection E as <- _. done. }
  assert (W : forall c', cl_cfg c' = d -> cl_heldByte c' = 0 -> cl_closed c' = false -> Enqueue r c' = Waits).
  { intros c' E1 E2 E3. unfold Enqueue. rewrite Hm, E1, E2, E3. unfold size; cbn [ev_raw envelope_of].
    replace (int64 (0 + Z.of_nat (slen raw))) with (Z.of_nat (slen raw)) by width.
    rewrite (proj2 (Z.ltb_lt _ _)) by lia. cbn [andb negb]. by rewrite (proj2 (Z.ltb_ge _ _)) by lia. }
  split; [by apply W|]. split; [intros ack; apply W; cbn; try done; by rewrite Hu|].
  unfold flush_batch, reconnect. rewrite Hu. cbn. split; by apply W.
Qed.

End Backpressure.

(** ** Evaluation *)

Module Witness.
Local Existing Instance go_json.
Import SegToy.Witness.

Definition raw0 : string := default "" (MarshalRecord (rec 10 5 "a")).
Definition cfg0 : ClientConfig := mkClientConfig 100000 200000 0 0 0.
Definition c1 : Client :=
  match Enqueue (rec 10 5 "a") (NewClient cfg0) with Enqueued c _ => c | _ => NewClient cfg0 end.

Lemma backpressure_lossless_witness :
  Dropped c1 = 0 /\ cl_heldByte c1 = window_size (cl_unacked c1) /\ cl_heldByte c1 <= 100000.
Proof.
  apply (backpressure_lossless cfg0 c1); [by split|].
  apply (run_step _ _ (NewClient cfg0) _ []); [constructor|].
  apply (client_enqueue _ (rec 10 5 "a")); [|vm_compute; reflexivity].
  intros raw [= <-]. apply Z.leb_le. vm_compute. reflexivity.
Defined.

(** A soft cap of one byte. *)
Definition cfg1 : ClientConfig := mkClientConfig 1 200000 0 0 0.
Lemma oversized_record_stuck_witness :
  Enqueue (rec 10 5 "a") (NewClient cfg1) = Waits.
Proof.
  apply (oversized_record_stuck cfg1 (NewClient cfg1) (rec 10 5 "a") raw0); try reflexivity.
  - by split.
  - constructor.
  - split; [apply Z.ltb_lt|apply Z.leb_le]; vm_compute; reflexivity.
Defined.
End Witness.
