(* ===== verification/Checkpoint.v ===== *)
(** internal/tailer/checkpoint.go: the agent's committed offsets, in a bbolt bucket. *)

From S2P Require Import Prelude GoStrings GoTime Model SegFormat Catalog StoreToy.
From Stdlib Require Import Ascii Sorted.
Local Open Scope string_scope.
Local Open Scope list_scope.
Local Open Scope Z_scope.

Section Checkpoint.
Context {D : Type} `{Bolt D}.

(** [Bucket.Get]: the value a walk of the bucket shows under the key. *)
Definition bucket_Get (key : string) (d : D) : option string :=
  snd <$> List.find (fun e => String.eqb (fst e) key) (kv_scan d).

(** [Checkpoint.Get] *)
Definition Get (key : string) (d : D) : Z :=
  match bucket_Get key d with
  | Some v => if (slen v =? 8)%nat then int64 (be_get 8 v) else 0
  | None => 0
  end.

(** [Checkpoint.Advance]; the result is whether the transaction succeeded. *)
Definition Advance (key : string) (offset : Z) (d : D) : D * bool :=
  let write := match kv_put key (be_put 8 (uint64 offset)) d with
               | Some d' => (d', true)
               | None => (d, false)
               end in
  match bucket_Get key d with
  | Some v =>
      if (slen v =? 8)%nat
      then if offset <=? int64 (be_get 8 v) then (d, true) else write
      else write
  | None => write
  end.

(** ** A checkpoint is a map of offsets that only grow *)

Lemma scan_unique d k v v' : (k, v) ∈ kv_scan d -> (k, v') ∈ kv_scan d -> v = v'.
Proof.
  pose proof (kv_sorted d) as Hs. revert Hs. generalize (kv_scan d) as l. intros l.
  induction l as [|[k1 v1] l IH]; intros Hs; [by intros ?%elem_of_nil|]. cbn in Hs.
  apply StronglySorted_inv in Hs as [Hs Hall]. rewrite Forall_forall in Hall.
  assert (Hno : forall x, (k1, x) ∈ l -> False).
  { intros x Hx. apply (key_lt_irrefl k1), Hall. by apply (list_elem_of_fmap_2 fst) in Hx. }
  rewrite !elem_of_cons. intros [H1|H1] [H2|H2]; simplify_eq; try done; eauto; exfalso; eauto.
Qed.

Lemma bucket_Get_iff key d v : bucket_Get key d = Some v <-> (key, v) ∈ kv_scan d.
Proof.
  unfold bucket_Get. split.
  - destruct (List.find _ _) as [[k v']|] eqn:E; [|done]. intros [= <-].
    apply List.find_some in E as [Hin Hk]. apply String.eqb_eq in Hk. cbn in Hk. subst k.
    by apply list_elem_of_In.
  - intros Hin. destruct (List.find _ _) as [[k v']|] eqn:E.
    + apply List.find_some in E as [Hin' Hk]. apply String.eqb_eq in Hk. cbn in Hk. subst k.
      cbn. f_equal.
      eapply scan_unique; [by apply list_elem_of_In|done].
    + apply list_elem_of_In in Hin. apply (List.find_none _ _ E) in Hin. cbn in Hin.
      by rewrite String.eqb_refl in Hin.
Qed.

Lemma bucket_Get_put key v d d' k :
  kv_put key v d = Some d' ->
  bucket_Get k d' = if decide (k = key) then Some v else bucket_Get k d.
Proof.
  intros Hp. pose proof (kv_put_scan _ _ _ _ Hp) as Hs.
  assert (Hiff : forall x, bucket_Get k d' = Some x <-> (k = key /\ x = v) \/ (k <> key /\ bucket_Get k d = Some x)).
  { intros x. rewrite !bucket_Get_iff. apply Hs. }
  destruct (decide (k = key)) as [->|Hne].
  - apply Hiff. by left.
  - destruct (bucket_Get k d) as [x|] eqn:E.
    + apply Hiff. by right.
    + destruct (bucket_Get k d') as [x|]; [|done].
      destruct (proj1 (Hiff x) eq_refl) as [[? _]|[_ ?]]; done.
Qed.

Lemma Get_put key off d d' k :
  in_int64 off -> kv_put key (be_put 8 (uint64 off)) d = Some d' ->
  Get k d' = if decide (k = key) then off else Get k d.
Proof.
  intros Ho Hp. unfold Get. rewrite (bucket_Get_put _ _ _ _ k Hp).
  destruct (decide (k = key)); [|done]. rewrite slen_be_put. cbn [Nat.eqb].
  rewrite <- (str_app_nil_r (be_put 8 _)), be_get_put8 by apply uint64_range. by apply int64_uint64.
Qed.

Lemma Advance_get key off d k :
  in_int64 off -> 0 <= off -> snd (Advance key off d) = true ->
  Get k (fst (Advance key off d)) = if decide (k = key) then Z.max (Get key d) off else Get k d.
Proof.
  intros Ho Hpos. unfold Advance. set (write := match kv_put _ _ _ with Some _ => _ | None => _ end).
  assert (Hw : snd write = true -> Get key d <= off ->
            Get k (fst write) = if decide (k = key) then Z.max (Get key d) off else Get k d).
  { unfold write. destruct (kv_put _ _ d) as [d'|] eqn:Hp; [|done]. intros _ Hle. cbn.
    rewrite (Get_put _ _ _ _ k Ho Hp). destruct (decide _); [lia|done]. }
  assert (Hg : Get key d = match bucket_Get key d with
            | Some v => if (slen v =? 8)%nat then int64 (be_get 8 v) else 0 | None => 0 end) by done.
  destruct (bucket_Get key d) as [v|]; [|intros Hs; apply Hw; [done|lia]].
  destruct (slen v =? 8)%nat; [|intros Hs; apply Hw; [done|lia]].
  destruct (Z.leb_spec off (int64 (be_get 8 v))) as [Hle|Hgt]; [|intros Hs; apply Hw; [done|lia]].
  intros _. cbn. destruct (decide (k = key)) as [->|]; [lia|done].
Qed.

Lemma Advance_failed key off d : snd (Advance key off d) = false -> fst (Advance key off d) = d.
Proof.
  unfold Advance. destruct (bucket_Get key d) as [v|]; [destruct (slen v =? 8)%nat; [destruct (_ <=? _)|]|];
    try done; by destruct (kv_put _ _ d).
Qed.

(** A checkpoint only moves forward.  A successful [Advance] sets the source's offset
    to the maximum of the old and the new one and leaves the other sources alone; a
    failed one changes nothing; so no sequence of calls lowers what [Get] returns. *)
Theorem Advance_monotone key off d k :
  in_int64 off -> 0 <= off ->
  let '(d', ok) := Advance key off d in
  Get k d' = if ok && bool_decide (k = key) then Z.max (Get key d) off else Get k d.
Proof.
  intros Ho Hpos. pose proof (Advance_get key off d k Ho Hpos) as Hok.
  pose proof (Advance_failed key off d) as Hfail. destruct (Advance key off d) as [d' ok]. cbn in *.
  destruct ok; cbn; [|by rewrite Hfail]. rewrite Hok by done. rewrite bool_decide_decide. by destruct (decide _).
Qed.

End Checkpoint.

Module Witness.
Local Existing Instance toy_bolt.
Lemma Advance_monotone_witness :
  let '(d', ok) := Advance "a" 7 (bucket []) in
  Get "a" d' = if ok && bool_decide ("a" = "a") then Z.max (Get "a" (bucket [])) 7 else Get "a" (bucket []).
Proof. apply (Advance_monotone "a" 7 (bucket []) "a"); [split; reflexivity || done|done]. Defined.
End Witness.
