(* ===== verification/Enrich.v ===== *)
(** internal/enrich/enrich.go: pod metadata by UID, fed by the informer's events. *)

From S2P Require Import Prelude GoStrings GoTime Model.
Local Open Scope string_scope.
Local Open Scope list_scope.

(** What the enricher reads of a Kubernetes pod: containers and container statuses are
    pairs of a name and an image. *)
Record Pod := mkPod {
  pod_UID : string; pod_Labels : gmap string string; pod_Annotations : gmap string string;
  pod_NodeName : string; pod_Containers : list (string * string);
  pod_ContainerStatuses : list (string * string)
}.

Record podMeta := mkPodMeta {
  pm_labels : gmap string string; pm_annotations : gmap string string;
  pm_node : string; pm_images : gmap string string
}.

Record Enricher := mkEnricher { en_byUID : gmap string podMeta; en_excludeAnno : string }.

(** [New], before the informer's first event. *)
Definition NewEnricher (excludeAnno : string) : Enricher := mkEnricher ∅ excludeAnno.

(** [Enricher.Ready] *)
Definition Ready (uid : string) (e : Enricher) : bool := bool_decide (is_Some (en_byUID e !! uid)).

(** [Enricher.ShouldIngest] *)
Definition ShouldIngest (uid : string) (e : Enricher) : bool :=
  if String.eqb (en_excludeAnno e) "" then true else
  match en_byUID e !! uid with
  | None => true
  | Some m => negb (String.eqb (default "" (pm_annotations m !! en_excludeAnno e)) "false")
  end.

(** The images of a pod: those of its status, where not empty, over those of its spec. *)
Definition images_of (p : Pod) : gmap string string :=
  let images := foldl (fun m c => <[c.1 := c.2]> m) ∅ (pod_Containers p) in
  foldl (fun m c => if String.eqb c.2 "" then m else <[c.1 := c.2]> m) images (pod_ContainerStatuses p).

(** What the informer hands its handlers: a pod, the tombstone of a pod whose deletion the
    watch has missed ([cache.DeletedFinalStateUnknown]), or something else. *)
Inductive object := PodObject (p : Pod) | Tombstone (p : Pod) | OtherObject.

(** [Enricher.upsert] *)
Definition meta_of_pod (p : Pod) : podMeta :=
  mkPodMeta (pod_Labels p) (pod_Annotations p) (pod_NodeName p) (images_of p).
Definition upsert (obj : object) (e : Enricher) : Enricher :=
  match obj with
  | PodObject p => mkEnricher (<[pod_UID p := meta_of_pod p]> (en_byUID e)) (en_excludeAnno e)
  | _ => e
  end.

(** [Enricher.remove] *)
Definition remove_pod (obj : object) (e : Enricher) : Enricher :=
  match obj with
  | PodObject p => mkEnricher (delete (pod_UID p) (en_byUID e)) (en_excludeAnno e)
  | _ => e
  end.

(** [Enricher.Enrich] *)
Definition Enrich (uid : string) (e : Enricher) (r : LogRecord) : LogRecord :=
  match en_byUID e !! uid with
  | None => r
  | Some m =>
      let image := default "" (pm_images m !! rec_Container r) in
      mkRecord (rec_Source r) (rec_Offset r) (rec_Timestamp r) (rec_Namespace r) (rec_Pod r)
        (rec_Container r)
        (if String.eqb (pm_node m) "" then rec_Node r else pm_node m)
        (if String.eqb image "" then rec_Image r else image)
        (rec_Stream r)
        (if (size (pm_labels m) =? 0)%nat then rec_Labels r else pm_labels m)
        (if (size (pm_annotations m) =? 0)%nat then rec_Annotations r else pm_annotations m)
        (rec_Message r) (rec_Body r)
  end.

(** ** The informer's events *)

Inductive pod_event := Added (obj : object) | Updated (obj : object) | Deleted (obj : object).
Definition handle (e : Enricher) (ev : pod_event) : Enricher :=
  match ev with Added obj | Updated obj => upsert obj e | Deleted obj => remove_pod obj e end.

(** What an event says of the pod of a UID: its present form, or that it is gone.  A
    tombstone says nothing. *)
Definition event_says (uid : string) (ev : pod_event) : option (option Pod) :=
  match ev with
  | Added (PodObject p) | Updated (PodObject p) => if String.eqb (pod_UID p) uid then Some (Some p) else None
  | Deleted (PodObject p) => if String.eqb (pod_UID p) uid then Some None else None
  | _ => None
  end.
(** The pod as the last event that says something of it left it. *)
Definition current_pod (uid : string) (evs : list pod_event) : option Pod :=
  default None (last (omap (event_says uid) evs)).

(** The image of a container, read off the pod: the last one its statuses name, or else the
    last one of its spec. *)
Definition container_named (name : string) (c : string * string) : bool := String.eqb c.1 name.
Definition container_running (name : string) (c : string * string) : bool := container_named name c && negb (String.eqb c.2 "").
Definition image_for (p : Pod) (name : string) : string :=
  match last (List.filter (container_running name) (pod_ContainerStatuses p)) with
  | Some c => c.2
  | None => default "" (snd <$> last (List.filter (container_named name) (pod_Containers p)))
  end.

Lemma handle_lookup ev e uid :
  en_byUID (handle e ev) !! uid = default (en_byUID e !! uid) (fmap (M:=option) meta_of_pod <$> event_says uid ev).
Proof.
  destruct ev as [[p|p|]|[p|p|]|[p|p|]]; cbn; try done;
    (destruct (String.eqb_spec (pod_UID p) uid) as [<-|Hne]; cbn);
    by rewrite ?lookup_insert_eq, ?lookup_delete_eq, ?lookup_insert_ne, ?lookup_delete_ne.
Qed.
Lemma events_lookup evs anno uid :
  en_byUID (foldl handle (NewEnricher anno) evs) !! uid = meta_of_pod <$> current_pod uid evs.
Proof.
  unfold current_pod. induction evs as [|ev evs IH] using rev_ind; [apply lookup_empty|].
  rewrite foldl_app, omap_app. cbn. rewrite handle_lookup. destruct (event_says uid ev); cbn.
  - by rewrite last_snoc.
  - by rewrite app_nil_r.
Qed.
Lemma events_anno evs anno : en_excludeAnno (foldl handle (NewEnricher anno) evs) = anno.
Proof.
  induction evs as [|ev evs IH] using rev_ind; [done|]. rewrite foldl_app. cbn.
  by destruct ev as [[]|[]|[]].
Qed.

(** The last of the pairs a loop enters under a name. *)
Lemma entered_lookup (step : gmap string string -> string * string -> gmap string string) (P : string * string -> bool) l m name :
  (forall m c, step m c = if P c then <[c.1 := c.2]> m else m) ->
  foldl step m l !! name =
    match last (List.filter (fun c => container_named name c && P c) l) with Some c => Some c.2 | None => m !! name end.
Proof.
  intros Hs. induction l as [|c l IH] using rev_ind; [done|].
  rewrite foldl_app, List.filter_app. cbn. rewrite Hs. unfold container_named at 2.
  destruct (String.eqb_spec c.1 name) as [<-|Hne]; cbn; destruct (P c); cbn;
    by rewrite ?app_nil_r, ?last_snoc, ?lookup_insert_eq, ?lookup_insert_ne.
Qed.
Lemma images_of_lookup p name : default "" (images_of p !! name) = image_for p name.
Proof.
  unfold images_of, image_for.
  rewrite (entered_lookup _ (fun c => negb (String.eqb c.2 "")) (pod_ContainerStatuses p)) by (intros m c; by destruct (String.eqb c.2 "")).
  rewrite (entered_lookup _ (fun _ => true) (pod_Containers p)) by done.
  rewrite (List.filter_ext (fun c => container_named name c && true) (container_named name)) by (intros c; apply andb_true_r).
  change (fun c => container_named name c && negb (String.eqb c.2 "")) with (container_running name). rewrite lookup_empty.
  destruct (last (List.filter (container_running name) _)); [done|]. by destruct (last (List.filter (container_named name) _)).
Qed.

(** C38: a record is enriched with what the informer last said of its pod.  After any
    sequence of events, in which the tombstones of deletions the watch has missed and
    objects that are no pods count for nothing, the enricher is ready for a pod exactly if
    the last event about it was not its deletion.  Then its logs are taken unless its
    annotation excludes it, and a record gets its node, labels and annotations where it has
    any, and the image its statuses give the record's container, or else its spec;
    everything else of the record, and every record of a pod it is not ready for, stays as it
    was. *)
Theorem enriched_by_last_event evs anno uid r :
  let e := foldl handle (NewEnricher anno) evs in
  Ready uid e = bool_decide (is_Some (current_pod uid evs)) /\
  match current_pod uid evs with
  | None => Enrich uid e r = r /\ ShouldIngest uid e = true
  | Some p =>
      (ShouldIngest uid e = false <-> anno <> "" /\ pod_Annotations p !! anno = Some "false") /\
      let image := image_for p (rec_Container r) in
      Enrich uid e r =
        mkRecord (rec_Source r) (rec_Offset r) (rec_Timestamp r) (rec_Namespace r) (rec_Pod r) (rec_Container r)
          (if decide (pod_NodeName p = "") then rec_Node r else pod_NodeName p)
          (if decide (image = "") then rec_Image r else image) (rec_Stream r)
          (if decide (pod_Labels p = ∅) then rec_Labels r else pod_Labels p)
          (if decide (pod_Annotations p = ∅) then rec_Annotations r else pod_Annotations p)
          (rec_Message r) (rec_Body r)
  end.
Proof.
  intros e. pose proof (events_lookup evs anno uid) as E. fold e in E.
  unfold Ready, ShouldIngest, Enrich. rewrite E, (events_anno evs anno : en_excludeAnno e = anno).
  destruct (current_pod uid evs) as [p|]; cbn [fmap option_fmap option_map].
  - split; [by rewrite !bool_decide_true by eauto|]. split.
    + destruct (String.eqb_spec anno "") as [->|Hne]; [naive_solver|]. cbn [pm_annotations meta_of_pod].
      rewrite negb_false_iff, String.eqb_eq. destruct (pod_Annotations p !! anno) as [v|]; cbn; naive_solver.
    + cbn [meta_of_pod pm_images pm_node pm_labels pm_annotations]. rewrite images_of_lookup.
      assert (Em : forall m : gmap string string, (size m =? 0)%nat = bool_decide (m = ∅)).
      { intros m. apply eq_bool_prop_intro. rewrite bool_decide_spec, <- map_size_empty_iff, <- Nat.eqb_eq. by destruct (_ =? _)%nat. }
      rewrite !Em. assert (Ed : forall (P : Prop) (D : Decision P) A (x y : A), (if bool_decide P then x else y) = if decide P then x else y).
      { intros P D A x y. by destruct (decide P); [rewrite bool_decide_true|rewrite bool_decide_false]. }
      rewrite !Ed. by destruct (String.eqb_spec (pod_NodeName p) ""), (String.eqb_spec (image_for p (rec_Container r)) ""); repeat case_decide.
  - split; [by rewrite !bool_decide_false by (by intros [? ?])|]. split; [done|]. by destruct (String.eqb _ _).
Qed.

(** Enrichment keeps a record's identity and content, and doing it twice is doing it
    once: the source, offset, time, path-derived names, stream, message and body are
    those of the log line. *)
Theorem Enrich_keeps uid e r :
  let r' := Enrich uid e r in
  rec_Source r' = rec_Source r /\ rec_Offset r' = rec_Offset r /\ rec_Timestamp r' = rec_Timestamp r /\
  rec_Namespace r' = rec_Namespace r /\ rec_Pod r' = rec_Pod r /\ rec_Container r' = rec_Container r /\
  rec_Stream r' = rec_Stream r /\ rec_Message r' = rec_Message r /\ rec_Body r' = rec_Body r /\
  Enrich uid e r' = r'.
Proof.
  unfold Enrich. destruct (en_byUID e !! uid) as [m|] eqn:E; cbn; [|done].
  repeat split. by destruct (String.eqb (pm_node m) ""), (String.eqb (default _ _) ""),
    (size (pm_labels m) =? 0)%nat, (size (pm_annotations m) =? 0)%nat.
Qed.
