(* ===== verification/Tailer.v ===== *)
(** internal/tailer/parse.go and tailer.go: CRI log lines, and the tail of one file
    generation.  A log file only grows; reads, and seeks to offsets inside it, do not
    fail. *)

From S2P Require Import Prelude GoStrings GoTime GoFloat GoJson Model SegFormat SegWriter.
From Stdlib Require Import Ascii.
Local Open Scope string_scope.
Local Open Scope list_scope.
Local Open Scope Z_scope.

(** ** parse.go *)

Record PodInfo := mkPodInfo { pi_Namespace : string; pi_Pod : string; pi_UID : string; pi_Container : string }.

(** [parsePath]; [filepath.ToSlash] is the identity on Unix. *)
Fixpoint find_pods (parts : list string) : option PodInfo :=
  match parts with
  | p :: ((podDir :: container :: _) as rest) =>
      if String.eqb p "pods" then
        match SplitN "_" 3 podDir with
        | [ns; pod; uid] => Some (mkPodInfo ns pod uid container)
        | _ => None
        end
      else find_pods rest
  | _ => None
  end.
Definition parsePath (path : string) : option PodInfo := find_pods (Split "/" path).

Record criLine := mkCriLine { cri_ts : Time; cri_stream : string; cri_partial : bool; cri_message : string }.

(** [parseCRILine] *)
Definition parseCRILine (line : string) : option criLine :=
  let mk ts stream tag message :=
    t ← ParseRFC3339Nano ts; Some (mkCriLine t stream (String.eqb tag "P") message) in
  match SplitN " " 4 line with
  | [ts; stream; tag; message] => mk ts stream tag message
  | [ts; stream; tag] => mk ts stream tag ""
  | _ => None
  end.

(** [bodyFor] *)
Definition bodyFor (cl : criLine) : gmap string string :=
  let trimmed := TrimSpace (cri_message cl) in
  let wrapped :=
    let stream := if String.eqb (cri_stream cl) StreamStdout || String.eqb (cri_stream cl) StreamStderr
                  then cri_stream cl else StreamStdout in
    {[stream := MarshalString (cri_message cl)]} in
  if HasPrefix trimmed "{" then
    match UnmarshalObject trimmed with Some obj => obj | None => wrapped end
  else wrapped.

(** [buildRecord] *)
Definition buildRecord (src : Source) (pod : PodInfo) (cl : criLine) (offset : Z) : LogRecord :=
  mkRecord src offset (cri_ts cl) (pi_Namespace pod) (pi_Pod pod) (pi_Container pod) (src_Node src)
    "" (cri_stream cl) ∅ ∅ (cri_message cl) (bodyFor cl).

(** ** The tail of a file *)

(** [fileTail]; [ft_pos] is the position in the file of the next byte [reader] returns. *)
Record fileTail := mkTail {
  ft_path : string; ft_pod : PodInfo; ft_src : Source; ft_offset : Z; ft_pos : nat;
  ft_partial : string; ft_pts : Time; ft_pstream : string
}.

Definition with_offset (offset : Z) (pos : nat) (ft : fileTail) : fileTail :=
  mkTail (ft_path ft) (ft_pod ft) (ft_src ft) offset pos (ft_partial ft) (ft_pts ft) (ft_pstream ft).
Definition with_partial (partial : string) (pts : Time) (pstream : string) (ft : fileTail) : fileTail :=
  mkTail (ft_path ft) (ft_pod ft) (ft_src ft) (ft_offset ft) (ft_pos ft) partial pts pstream.

(** [fileTail.consume] *)
Definition consume (line : string) (ft : fileTail) : fileTail * option LogRecord :=
  match parseCRILine line with
  | None => (ft, None)
  | Some cl =>
      if cri_partial cl then
        (if String.eqb (ft_partial ft) ""
         then with_partial (cri_message cl) (cri_ts cl) (cri_stream cl) ft
         else with_partial (ft_partial ft +:+ cri_message cl) (ft_pts ft) (ft_pstream ft) ft,
         None)
      else if String.eqb (ft_partial ft) "" then
        (ft, Some (buildRecord (ft_src ft) (ft_pod ft) cl (ft_offset ft)))
      else
        let cl := mkCriLine (ft_pts ft) (ft_pstream ft) false (ft_partial ft +:+ cri_message cl) in
        (with_partial "" (ft_pts ft) (ft_pstream ft) ft,
         Some (buildRecord (ft_src ft) (ft_pod ft) cl (ft_offset ft)))
  end.

(** [reader.ReadString('\n')] on the file [data]: what it returns, and whether the end of
    the file was met. *)
Definition ReadString (data : string) (pos : nat) : string * bool :=
  match cut NL (sdrop pos data) with
  | Some (line, _) => (line +:+ String NL "", false)
  | None => (sdrop pos data, true)
  end.

(** [fileTail.pump]: the file holds [data]; [live] is the number of lines after which the
    context is cancelled; [send] is [enrichAndSend]. The result is whether the end of the
    file was reached. *)
Fixpoint pump {S} (fuel : nat) (live : option nat) (send : LogRecord -> S -> S) (data : string)
    (ft : fileTail) (s : S) : fileTail * S * bool :=
  match fuel, live with
  | O, _ | _, Some O => (ft, s, false)
  | Datatypes.S fuel, _ =>
      let '(line, eof) := ReadString data (ft_pos ft) in
      let ft := with_offset (ft_offset ft) (ft_pos ft + slen line) ft in
      if (0 <? slen line)%nat && HasSuffix line (String NL "") then
        let ft := with_offset (int64 (ft_offset ft + Z.of_nat (slen line))) (ft_pos ft) ft in
        let '(ft, rec) := consume (TrimRight NL line) ft in
        pump fuel (pred <$> live) send data ft (match rec with Some r => send r s | None => s end)
      else
        let ft := if (0 <? slen line)%nat then with_offset (ft_offset ft) (Z.to_nat (ft_offset ft)) ft
                  else ft in
        (ft, s, eof)
  end.
Definition pump_all {S} := fun live (send : LogRecord -> S -> S) data ft s =>
  pump (Datatypes.S (slen data)) live send data ft s.

(** The start of [fileTail.run], at the offset the checkpoint holds. *)
Definition open_tail (path : string) (pod : PodInfo) (src : Source) (offset : Z) : fileTail :=
  mkTail path pod src offset (if 0 <? offset then Z.to_nat offset else 0%nat) "" zeroTime "".

(** [fileTail.rotatedOrGone]: [stat] is the device and inode of the path now, if any. *)
Definition rotatedOrGone (ft : fileTail) (stat : option (Z * Z)) : bool :=
  match stat with
  | None => true
  | Some (dev, ino) => negb ((ino =? src_Inode (ft_src ft)) && (dev =? src_Device (ft_src ft)))
  end.

(** One turn of [fileTail.run]'s loop: [data] and [data'] are what the file holds at the
    first and at the final pump.  The result is whether the tail goes on. *)
Definition poll {S} (live : option nat) (send : LogRecord -> S -> S) (data : string)
    (stat : option (Z * Z)) (data' : string) (ft : fileTail) (s : S) : fileTail * S * bool :=
  let '(ft, s, eof) := pump_all live send data ft s in
  if negb eof then (ft, s, false)
  else if rotatedOrGone ft stat then
    let '(ft, s, _) := pump_all live send data' ft s in (ft, s, false)
  else (ft, s, true).

(** ** Lines *)

(** The complete lines of a text, without their newlines, and the bytes they take. *)
Definition complete (s : string) : list string := removelast (Split NL s).
Definition taken (lines : list string) : nat := foldr (fun l n => slen l + 1 + n)%nat 0%nat lines.

(** What reading complete lines does to a tail. *)
Definition read_line (line : string) (ft : fileTail) : fileTail * option LogRecord :=
  let n := (slen line + 1)%nat in
  consume line (with_offset (int64 (ft_offset ft + Z.of_nat n)) (ft_pos ft + n) ft).
Fixpoint read_lines (lines : list string) (ft : fileTail) : fileTail * list LogRecord :=
  match lines with
  | [] => (ft, [])
  | l :: ls =>
      let '(ft, r) := read_line l ft in
      let '(ft, rs) := read_lines ls ft in
      (ft, match r with Some r => r :: rs | None => rs end)
  end.

Lemma cut_Some c s a b : cut c s = Some (a, b) -> s = a +:+ String c b /\ (c ∉ bytes_of a).
Proof.
  revert a b; induction s as [|x s IH]; intros a b; cbn; [done|].
  destruct (Ascii.eqb_spec x c) as [->|Hne].
  - intros [= <- <-]. split; [done|apply not_elem_of_nil].
  - destruct (cut c s) as [[a' b']|]; [|done]. intros [= <- <-].
    destruct (IH a' b' eq_refl) as [-> Hn]. split; [done|]. cbn. apply not_elem_of_cons. by split.
Qed.
Lemma cut_None c s : cut c s = None <-> c ∉ bytes_of s.
Proof.
  induction s as [|x s IH]; cbn; [split; [intros _; apply not_elem_of_nil|done]|].
  rewrite not_elem_of_cons. destruct (Ascii.eqb_spec x c) as [->|Hne]; [split; [done|intros [[] _]; done]|].
  destruct (cut c s) as [[a b]|]; split; try done.
  - intros [_ Hn]. by apply IH in Hn.
  - intros _. split; [done|]. by apply IH.
Qed.
Lemma cut_app c a b : (c ∉ bytes_of a) -> cut c (a +:+ String c b) = Some (a, b).
Proof.
  induction a as [|x a IH]; [intros _; rewrite str_app_nil; cbn; by rewrite Ascii.eqb_refl|].
  rewrite str_app_cons. cbn. rewrite not_elem_of_cons. intros [Hne Hn]. destruct (Ascii.eqb_spec x c); [congruence|]. by rewrite IH.
Qed.
Lemma Split_cut c s :
  Split c s = match cut c s with Some (a, b) => a :: Split c b | None => [s] end.
Proof.
  induction s as [|x s IH]; cbn; [done|]. destruct (Ascii.eqb x c); [done|]. rewrite IH.
  by destruct (cut c s) as [[a b]|].
Qed.
Lemma Split_nonempty c s : Split c s <> [].
Proof. rewrite Split_cut. by destruct (cut c s) as [[a b]|]. Qed.
Lemma complete_cut s :
  complete s = match cut NL s with Some (a, b) => a :: complete b | None => [] end.
Proof.
  unfold complete. rewrite Split_cut. destruct (cut NL s) as [[a b]|]; [|done].
  cbn [removelast]. pose proof (Split_nonempty NL b). by destruct (Split NL b).
Qed.

Lemma TrimRight_line a : (NL ∉ bytes_of a) -> TrimRight NL (a +:+ String NL "") = a.
Proof.
  induction a as [|x a IH]; [done|]. rewrite str_app_cons. cbn. rewrite not_elem_of_cons. intros [Hne Hn].
  rewrite IH by done. destruct a; [|done]. destruct (Ascii.eqb_spec x NL); [congruence|done].
Qed.
Lemma HasSuffix_NL s : HasSuffix s (String NL "") = true -> NL ∈ bytes_of s.
Proof.
  unfold HasSuffix. rewrite andb_true_iff, String.eqb_eq. intros [_ E].
  rewrite <- (stake_sdrop (slen s - slen (String NL "")) s), E, bytes_of_app.
  apply elem_of_app. right. by left.
Qed.

(** The reader is where the offset says, inside the file. *)
Definition at_offset (data : string) (ft : fileTail) : Prop :=
  ft_offset ft = Z.of_nat (ft_pos ft) /\ (ft_pos ft <= slen data)%nat /\ Z.of_nat (slen data) < 2 ^ 63.

Lemma consume_offset line ft ft' r :
  consume line ft = (ft', r) -> ft_offset ft' = ft_offset ft /\ ft_pos ft' = ft_pos ft.
Proof.
  unfold consume. destruct (parseCRILine line) as [cl|]; [|by intros [= <- <-]].
  destruct (cri_partial cl), (String.eqb _ _); by intros [= <- <-].
Qed.
Lemma with_offset_twice a b a' b' ft : with_offset a b (with_offset a' b' ft) = with_offset a b ft.
Proof. done. Qed.
Lemma with_offset_id ft : with_offset (ft_offset ft) (ft_pos ft) ft = ft.
Proof. by destruct ft. Qed.

Lemma read_line_at data a b ft ft' r :
  at_offset data ft -> sdrop (ft_pos ft) data = a +:+ String NL b -> read_line a ft = (ft', r) ->
  at_offset data ft' /\ ft_pos ft' = (ft_pos ft + (slen a + 1))%nat /\ sdrop (ft_pos ft') data = b.
Proof.
  intros (Ho & Hp & Hd) E Er. unfold read_line in Er. apply consume_offset in Er as [Eo Ep]. cbn in Eo, Ep.
  assert (Hl : slen (sdrop (ft_pos ft) data) = (slen a + S (slen b))%nat)
    by (by rewrite E, slen_app, slen_cons).
  rewrite slen_sdrop in Hl. unfold at_offset. rewrite Eo, Ep, Ho. split; [|split; [done|]].
  - split; [|split; [lia|done]]. rewrite int64_id; unfold in_int64; lia.
  - rewrite <- sdrop_add, E, <- sdrop_add, sdrop_app. done.
Qed.

(** ** What pumping does *)

Section Pump.
Context {S : Type} (send : LogRecord -> S -> S).

Definition send_all (rs : list LogRecord) (s : S) : S := foldl (fun s r => send r s) s rs.

(** Reading to the end of the file is reading its complete lines; the tail stops after
    the last of them. *)
Lemma pump_reads fuel data ft s :
  at_offset data ft -> (slen (sdrop (ft_pos ft) data) < fuel)%nat ->
  let '(ft', rs) := read_lines (complete (sdrop (ft_pos ft) data)) ft in
  pump fuel None send data ft s = (ft', send_all rs s, true) /\ at_offset data ft' /\
  ft_pos ft' = (ft_pos ft + taken (complete (sdrop (ft_pos ft) data)))%nat.
Proof.
  revert ft s; induction fuel as [|fuel IH]; intros ft s Hat Hf; [lia|].
  rewrite complete_cut. cbn [pump]. unfold ReadString.
  destruct (cut NL (sdrop (ft_pos ft) data)) as [[a b]|] eqn:E.
  - apply cut_Some in E as [E Hn]. cbn [read_lines]. destruct (read_line a ft) as [ft1 r] eqn:Er.
    pose proof (read_line_at _ _ _ _ _ _ Hat E Er) as (Hat1 & Hp1 & Hb).
    assert (Hl : slen (a +:+ String NL "") = (slen a + 1)%nat) by (by rewrite slen_app, slen_cons).
    specialize (IH ft1 (match r with Some r => send r s | None => s end) Hat1).
    rewrite Hb in IH. rewrite E, slen_app, slen_cons in Hf.
    destruct (read_lines (complete b) ft1) as [ft2 rs]. destruct IH as (IHp & IHa & IHt); [lia|].
    rewrite Hl, HasSuffix_app. replace (0 <? slen a + 1)%nat with true by (symmetry; apply Nat.ltb_lt; lia).
    cbn [andb]. rewrite TrimRight_line by done. rewrite with_offset_twice. cbn [ft_offset ft_pos with_offset].
    unfold read_line in Er. rewrite Er. cbn [fmap option_fmap option_map]. rewrite IHp.
    split; [by destruct r|]. split; [done|]. rewrite IHt, Hp1. cbn [taken foldr]. fold (taken (complete b)). lia.
  - apply cut_None in E. cbn [read_lines taken foldr]. rewrite Nat.add_0_r.
    assert (Hs : HasSuffix (sdrop (ft_pos ft) data) (String NL "") = false).
    { destruct (HasSuffix _ _) eqn:Es; [|done]. by apply HasSuffix_NL in Es. }
    rewrite Hs, andb_false_r. split; [|done]. f_equal. f_equal.
    destruct Hat as (Ho & Hp & _). rewrite slen_sdrop. cbn [with_offset ft_offset ft_pos].
    destruct (Nat.ltb_spec 0 (slen data - ft_pos ft)) as [Hlt|Hge].
    + rewrite with_offset_twice. rewrite Ho at 2. rewrite Nat2Z.id. by rewrite with_offset_id.
    + replace (ft_pos ft + (slen data - ft_pos ft))%nat with (ft_pos ft) by lia. by rewrite with_offset_id.
Qed.

Lemma pump_all_reads data ft s :
  at_offset data ft ->
  let '(ft', rs) := read_lines (complete (sdrop (ft_pos ft) data)) ft in
  pump_all None send data ft s = (ft', send_all rs s, true) /\ at_offset data ft' /\
  ft_pos ft' = (ft_pos ft + taken (complete (sdrop (ft_pos ft) data)))%nat.
Proof. intros Hat. apply pump_reads; [done|]. rewrite slen_sdrop. lia. Qed.

Lemma read_lines_app l l' ft :
  read_lines (l ++ l') ft =
    let '(ft1, rs) := read_lines l ft in
    let '(ft2, rs') := read_lines l' ft1 in (ft2, rs ++ rs').
Proof.
  revert ft; induction l as [|a l IH]; intros ft; cbn; [by destruct (read_lines l' ft)|].
  destruct (read_line a ft) as [ft1 r]. rewrite IH. destruct (read_lines l ft1) as [ft2 rs].
  destruct (read_lines l' ft2) as [ft3 rs']. by destruct r.
Qed.

Lemma complete_app x y :
  complete (x +:+ y) = complete x ++ complete (sdrop (taken (complete x)) (x +:+ y)).
Proof.
  remember (slen x) as n eqn:En. revert x En; induction n as [n IH] using lt_wf_ind; intros x ->.
  rewrite (complete_cut x). destruct (cut NL x) as [[a b]|] eqn:E; [|done].
  apply cut_Some in E as [-> Hn]. rewrite str_app_assoc, str_app_cons.
  rewrite (complete_cut (a +:+ _)), cut_app by done. cbn [taken foldr]. fold (taken (complete b)).
  cbn [app]. f_equal. rewrite (IH (slen b)); [|rewrite slen_app, slen_cons; lia|done]. f_equal.
  f_equal. replace (slen a + 1 + taken (complete b))%nat with (slen a + (1 + taken (complete b)))%nat by lia.
  rewrite <- sdrop_add, sdrop_app. done.
Qed.
End Pump.

Lemma sdrop_app_le n s t : (n <= slen s)%nat -> sdrop n (s +:+ t) = sdrop n s +:+ t.
Proof.
  revert s; induction n as [|n IH]; intros s Hn; [done|].
  destruct s as [|c s]; [unfold slen in Hn; cbn in Hn; lia|]. rewrite str_app_cons, slen_cons in *. cbn. apply IH. lia.
Qed.

Lemma complete_rest s : NL ∉ bytes_of (sdrop (taken (complete s)) s).
Proof.
  remember (slen s) as n eqn:En. revert s En; induction n as [n IH] using lt_wf_ind; intros s ->.
  rewrite (complete_cut s). destruct (cut NL s) as [[a b]|] eqn:E; [|by apply cut_None].
  apply cut_Some in E as [-> Hn]. cbn [taken foldr]. fold (taken (complete b)).
  replace (slen a + 1 + taken (complete b))%nat with (slen a + (1 + taken (complete b)))%nat by lia.
  rewrite <- sdrop_add, sdrop_app. apply (IH (slen b)); [|done]. rewrite slen_app, slen_cons. lia.
Qed.

Lemma at_offset_grow data more ft :
  at_offset data ft -> Z.of_nat (slen (data +:+ more)) < 2 ^ 63 -> at_offset (data +:+ more) ft.
Proof. intros (Ho & Hp & _) Hm. split; [done|split; [|done]]. rewrite slen_app. lia. Qed.

(** Reading a file and then what it has grown to is reading the grown file. *)
Lemma reads_incremental data more ft :
  at_offset data ft -> Z.of_nat (slen (data +:+ more)) < 2 ^ 63 ->
  let '(ft1, rs1) := read_lines (complete (sdrop (ft_pos ft) data)) ft in
  let '(ft2, rs2) := read_lines (complete (sdrop (ft_pos ft1) (data +:+ more))) ft1 in
  at_offset data ft1 /\ (NL ∉ bytes_of (sdrop (ft_pos ft1) data)) /\
  read_lines (complete (sdrop (ft_pos ft) (data +:+ more))) ft = (ft2, rs1 ++ rs2).
Proof.
  intros Hat Hm. pose proof (pump_all_reads (fun _ (s : unit) => s) data ft tt Hat) as P.
  rewrite (sdrop_app_le (ft_pos ft)) by apply Hat. set (x := sdrop (ft_pos ft) data) in *.
  rewrite complete_app, read_lines_app. destruct (read_lines (complete x) ft) as [ft1 rs1].
  destruct P as (_ & Hat1 & Hp1).
  assert (Ex : sdrop (ft_pos ft1) data = sdrop (taken (complete x)) x) by (by rewrite Hp1, <- sdrop_add).
  rewrite (sdrop_app_le (ft_pos ft1)), Ex by apply Hat1. rewrite <- sdrop_app_le.
  - destruct (read_lines _ ft1) as [ft2 rs2]. split; [done|]. split; [apply complete_rest|done].
  - assert (slen x = slen data - ft_pos ft)%nat by apply slen_sdrop. destruct Hat1 as (_ & ? & _). lia.
Qed.

(** Tailing is incremental.  Pumping a file whose last line may be incomplete and
    pumping it again after it has grown sends the same records, in order, and leaves the
    same tail as pumping the grown file once; each pump reaches the end of the file and
    leaves the incomplete line to be read again. *)
Theorem pump_incremental {S} (send : LogRecord -> S -> S) data more ft s :
  at_offset data ft -> Z.of_nat (slen (data +:+ more)) < 2 ^ 63 ->
  let '(ft1, s1, eof) := pump_all None send data ft s in
  eof = true /\ at_offset data ft1 /\ (NL ∉ bytes_of (sdrop (ft_pos ft1) data)) /\
  pump_all None send (data +:+ more) ft1 s1 = pump_all None send (data +:+ more) ft s.
Proof.
  intros Hat Hm. pose proof (reads_incremental data more ft Hat Hm) as I.
  pose proof (pump_all_reads send data ft s Hat) as P1.
  pose proof (pump_all_reads send (data +:+ more) ft s (at_offset_grow _ _ _ Hat Hm)) as P.
  destruct (read_lines (complete (sdrop (ft_pos ft) data)) ft) as [ft1 rs1]. destruct P1 as (-> & Hat1 & _).
  pose proof (pump_all_reads send (data +:+ more) ft1 (send_all send rs1 s) (at_offset_grow _ _ _ Hat1 Hm)) as P2.
  destruct (read_lines _ ft1) as [ft2 rs2]. destruct I as (_ & Hn & E). rewrite E in P.
  split; [done|split; [done|split; [done|]]]. destruct P as (-> & _), P2 as (-> & _).
  unfold send_all. by rewrite foldl_app.
Qed.

(** ** Resuming from a checkpoint *)

(** Two tails that go on alike: the fields of a partial line only matter while there is
    one. *)
Definition alike (ft1 ft2 : fileTail) : Prop :=
  ft_pod ft1 = ft_pod ft2 /\ ft_src ft1 = ft_src ft2 /\ ft_offset ft1 = ft_offset ft2 /\
  ft_partial ft1 = ft_partial ft2 /\
  (ft_partial ft1 <> "" -> ft_pts ft1 = ft_pts ft2 /\ ft_pstream ft1 = ft_pstream ft2).

Lemma read_line_alike line ft1 ft2 :
  alike ft1 ft2 ->
  alike (fst (read_line line ft1)) (fst (read_line line ft2)) /\
  snd (read_line line ft1) = snd (read_line line ft2).
Proof.
  intros (Ep & Es & Eo & Ea & Eb). unfold read_line, consume. cbn.
  destruct (parseCRILine line) as [cl|]; cbn; [|by rewrite Eo].
  rewrite <- Ea. destruct (String.eqb_spec (ft_partial ft1) "") as [E|E].
  - destruct (cri_partial cl); cbn; unfold alike; cbn; rewrite ?Ep, ?Es, ?Eo; repeat split; try done; congruence.
  - destruct (Eb E) as [Et Est].
    destruct (cri_partial cl); cbn; unfold alike; cbn; rewrite ?Ep, ?Es, ?Eo, ?Et, ?Est; repeat split; done.
Qed.
Lemma read_lines_alike lines ft1 ft2 :
  alike ft1 ft2 -> snd (read_lines lines ft1) = snd (read_lines lines ft2).
Proof.
  revert ft1 ft2; induction lines as [|l lines IH]; intros ft1 ft2 Ha; [done|]. cbn.
  apply (read_line_alike l) in Ha as [Ha Er].
  destruct (read_line l ft1) as [ft1' r1], (read_line l ft2) as [ft2' r2]. cbn in *.
  specialize (IH _ _ Ha). destruct (read_lines lines ft1'), (read_lines lines ft2'). cbn in *. by subst.
Qed.

(** A record ends where its line ends, and leaves no partial line behind. *)
Lemma read_line_record line ft ft' r :
  read_line line ft = (ft', Some r) ->
  rec_Offset r = ft_offset ft' /\ ft_partial ft' = "" /\
  ft_pod ft' = ft_pod ft /\ ft_src ft' = ft_src ft /\ rec_Source r = ft_src ft.
Proof.
  unfold read_line, consume. destruct (parseCRILine line) as [cl|]; [|done].
  destruct (cri_partial cl); [done|]. cbn. destruct (String.eqb_spec (ft_partial ft) "");
    intros [= <- <-]; done.
Qed.
Lemma read_line_src line ft ft' r :
  read_line line ft = (ft', r) -> ft_pod ft' = ft_pod ft /\ ft_src ft' = ft_src ft.
Proof.
  unfold read_line, consume. destruct (parseCRILine line) as [cl|]; [|by intros [= <- <-]].
  destruct (cri_partial cl), (String.eqb _ _); by intros [= <- <-].
Qed.

(** The tail after the record [r] of the complete lines of [data]: it stands at the
    record's offset without a partial line, and what it goes on to read is the rest. *)
Lemma read_lines_record data ft r rs1 rs2 :
  at_offset data ft -> snd (read_lines (complete (sdrop (ft_pos ft) data)) ft) = rs1 ++ r :: rs2 ->
  exists ft1, at_offset data ft1 /\ ft_offset ft1 = rec_Offset r /\ ft_partial ft1 = "" /\
    ft_pod ft1 = ft_pod ft /\ ft_src ft1 = ft_src ft /\
    (ft_pos ft < ft_pos ft1)%nat /\
    snd (read_lines (complete (sdrop (ft_pos ft1) data)) ft1) = rs2.
Proof.
  remember (slen (sdrop (ft_pos ft) data)) as n eqn:En. revert ft rs1 En.
  induction n as [n IH] using lt_wf_ind. intros ft rs1 -> Hat E.
  rewrite complete_cut in E. destruct (cut NL _) as [[a b]|] eqn:Ec; [|by destruct rs1].
  apply cut_Some in Ec as [Ec _]. cbn [read_lines] in E. destruct (read_line a ft) as [ft1 q] eqn:Er.
  pose proof (read_line_at _ _ _ _ _ _ Hat Ec Er) as (Hat1 & Hp1 & Hb).
  pose proof (read_line_src _ _ _ _ Er) as [Hpod Hsrc].
  destruct (read_lines (complete b) ft1) as [ft2 rs] eqn:El. cbn [snd] in E.
  assert (Hrest : forall rs1', rs = rs1' ++ r :: rs2 -> exists ft1, at_offset data ft1 /\
    ft_offset ft1 = rec_Offset r /\ ft_partial ft1 = "" /\ ft_pod ft1 = ft_pod ft /\ ft_src ft1 = ft_src ft /\
    (ft_pos ft < ft_pos ft1)%nat /\ snd (read_lines (complete (sdrop (ft_pos ft1) data)) ft1) = rs2).
  { intros rs1' Ers. destruct (IH (slen b)) with (ft := ft1) (rs1 := rs1') as (ft3 & H1 & H2 & H3 & H4 & H5 & H6 & H7).
    - rewrite Ec, slen_app, slen_cons. lia.
    - by rewrite Hb.
    - done.
    - by rewrite Hb, El.
    - exists ft3. rewrite H4, H5. repeat split; try done; try apply H1. lia. }
  destruct q as [q|]; [|by apply Hrest in E]. destruct rs1 as [|q' rs1]; injection E as -> E.
  - apply read_line_record in Er as (Eo & Epa & _). exists ft1.
    split; [done|]. split; [done|]. split; [done|]. split; [done|]. split; [done|]. split; [lia|].
    by rewrite Hb, El.
  - by apply Hrest in E.
Qed.

(** What a fresh tail sends of a file, from an offset. *)
Definition records_from (pod : PodInfo) (src : Source) (path data : string) (offset : Z) : list LogRecord :=
  snd (read_lines (complete (sdrop (Z.to_nat offset) data)) (open_tail path pod src offset)).

Lemma open_tail_at path pod src data off :
  0 <= off -> (Z.to_nat off <= slen data)%nat -> Z.of_nat (slen data) < 2 ^ 63 ->
  at_offset data (open_tail path pod src off) /\ ft_pos (open_tail path pod src off) = Z.to_nat off.
Proof.
  intros H0 Hle Hd. unfold at_offset, open_tail; cbn. destruct (Z.ltb_spec 0 off); repeat split; lia.
Qed.

Lemma resume path pod src data off r rs1 rs2 :
  0 <= off -> (Z.to_nat off <= slen data)%nat -> Z.of_nat (slen data) < 2 ^ 63 ->
  records_from pod src path data off = rs1 ++ r :: rs2 ->
  off < rec_Offset r <= Z.of_nat (slen data) /\
  records_from pod src path data (rec_Offset r) = rs2.
Proof.
  intros H0 Hle Hd E. destruct (open_tail_at path pod src data off H0 Hle Hd) as [Hat Ep].
  unfold records_from in E. rewrite <- Ep in E.
  destruct (read_lines_record _ _ _ _ _ Hat E) as (ft1 & (Ho1 & Hp1 & _) & Eo & Epa & Epod & Esrc & Hlt & Er).
  rewrite Ep in Hlt. split; [lia|]. unfold records_from. rewrite <- Er, <- Eo, Ho1, Nat2Z.id.
  apply read_lines_alike. unfold alike, open_tail; cbn. rewrite Epod, Esrc, Epa. by repeat split.
Qed.

(** C22: a restart resumes exactly where the checkpoint says.  If the checkpoint is the
    offset of a record the tail sent, then a tail opened there sends exactly the records
    that came after it, whatever partial lines came before; offsets grow strictly and
    stay within the file. *)
Theorem resume_exact path pod src data off r rs1 rs2 :
  0 <= off -> (Z.to_nat off <= slen data)%nat -> Z.of_nat (slen data) < 2 ^ 63 ->
  records_from pod src path data off = rs1 ++ r :: rs2 ->
  off < rec_Offset r <= Z.of_nat (slen data) /\
  records_from pod src path data (rec_Offset r) = rs2.
Proof. apply resume. Qed.

(** ** Partial lines *)

Definition messages (cs : list criLine) : string := foldr (fun c s => cri_message c +:+ s) "" cs.

Lemma read_partials ls cs ft c0 pre :
  Forall2 (fun l c => parseCRILine l = Some c /\ cri_partial c = true) ls cs ->
  ft_partial ft = pre -> pre <> "" -> ft_pts ft = cri_ts c0 -> ft_pstream ft = cri_stream c0 ->
  exists ft', read_lines ls ft = (ft', []) /\ ft_partial ft' = pre +:+ messages cs /\
    ft_pts ft' = cri_ts c0 /\ ft_pstream ft' = cri_stream c0 /\
    ft_pod ft' = ft_pod ft /\ ft_src ft' = ft_src ft.
Proof.
  intros Hf. revert ft pre; induction Hf as [|l c ls cs [Hp Hc] Hf IH]; intros ft pre Ep Hne Et Es; cbn.
  { exists ft. by rewrite str_app_nil_r. }
  unfold read_line, consume. rewrite Hp, Hc. cbn. rewrite Ep.
  destruct (String.eqb_spec pre ""); [done|]. cbn.
  destruct (IH (with_partial (pre +:+ cri_message c) (ft_pts ft) (ft_pstream ft)
     (with_offset (int64 (ft_offset ft + Z.of_nat (slen l + 1))) (ft_pos ft + (slen l + 1)) ft))
     (pre +:+ cri_message c)) as (ft' & E & E1 & E2 & E3 & E4 & E5); try done.
  { destruct pre; [done|]. by rewrite str_app_cons. }
  rewrite E. exists ft'. by rewrite E1, str_app_assoc.
Qed.

(** Partial lines are joined.  Lines tagged P followed by a line tagged F yield one
    record: its message is the concatenation of theirs, its time and stream are the first
    line's, and its offset is the end of the last line. *)
Theorem partials_joined ls l cs c c0 ft :
  Forall2 (fun l c => parseCRILine l = Some c /\ cri_partial c = true) ls (c0 :: cs) ->
  parseCRILine l = Some c -> cri_partial c = false ->
  ft_partial ft = "" -> cri_message c0 <> "" ->
  exists ft', read_lines (ls ++ [l]) ft =
    (ft', [buildRecord (ft_src ft) (ft_pod ft)
             (mkCriLine (cri_ts c0) (cri_stream c0) false (messages (c0 :: cs ++ [c]))) (ft_offset ft')]).
Proof.
  intros Hf Hl Hc Ep Hne. destruct ls as [|l0 ls]; [by apply Forall2_nil_inv_l in Hf|].
  apply Forall2_cons in Hf as [[Hl0 Hc0] Hf]. cbn [app read_lines]. unfold read_line at 1, consume at 1.
  rewrite Hl0, Hc0. cbn [ft_partial with_offset]. rewrite Ep. cbn [String.eqb].
  set (ft1 := with_partial _ _ _ _).
  destruct (read_partials ls cs ft1 c0 (cri_message c0)) as (ft2 & E & E1 & E2 & E3 & E4 & E5); try done.
  rewrite read_lines_app, E. cbn [read_lines]. unfold read_line, consume. rewrite Hl, Hc.
  cbn [ft_partial with_offset]. rewrite E1. destruct (String.eqb_spec (cri_message c0 +:+ messages cs) "") as [E0|_].
  { exfalso. apply Hne. by destruct (cri_message c0). }
  cbn. rewrite E2, E3, E4, E5. eexists. do 3 f_equal. f_equal. rewrite str_app_assoc. f_equal.
  unfold messages. rewrite foldr_app. cbn. rewrite str_app_nil_r. clear.
  induction cs as [|c1 cs IH]; cbn; [by rewrite str_app_nil|]. by rewrite str_app_assoc, IH.
Qed.

(** ** Evaluation *)

Module Witness.
Definition T : string := "2026-05-30T12:00:00Z ".
Definition pod0 : PodInfo := mkPodInfo "ns" "web" "u1" "app".
Definition src0 : Source := mkSource "n" "/p" 1 2 3.
Definition ft0 : fileTail := open_tail "/p" pod0 src0 0.
Definition line1 : string := T +:+ "stdout F one".
Definition line2 : string := T +:+ "stdout P tw".
Definition line3 : string := T +:+ "stderr F o".
Definition nl : string := String NL "".
Definition data0 : string := line1 +:+ nl +:+ line2 +:+ nl +:+ line3 +:+ nl +:+ "2026".
Definition data1 : string := line1 +:+ nl +:+ "20".
Definition more1 : string := sdrop (slen data1) data0.

Example parse_path :
  parsePath "/var/log/pods/kube-system_web-1_ab_c/app/0.log" = Some (mkPodInfo "kube-system" "web-1" "ab_c" "app").
Proof. reflexivity. Qed.
Example body_object :
  bodyFor (mkCriLine 0 "stdout" false " {}x") = {["stdout" := MarshalString " {}x"]}.
Proof. reflexivity. Qed.

Lemma pump_incremental_witness :
  let '(ft1, s1, eof) := pump_all None cons data1 ft0 [] in
  eof = true /\ at_offset data1 ft1 /\ (NL ∉ bytes_of (sdrop (ft_pos ft1) data1)) /\
  pump_all None cons (data1 +:+ more1) ft1 s1 = pump_all None cons (data1 +:+ more1) ft0 [].
Proof.
  apply (pump_incremental cons data1 more1 ft0 []).
  - split; [done|split; [apply Nat.leb_le|]]; vm_compute; reflexivity.
  - vm_compute. reflexivity.
Defined.

Definition r1 : LogRecord :=
  buildRecord src0 pod0 (mkCriLine (Date 2026 5 30 12 0 0 0) "stdout" false "one") 34.
Definition r2 : LogRecord :=
  buildRecord src0 pod0 (mkCriLine (Date 2026 5 30 12 0 0 0) "stdout" false "two") 99.

Lemma resume_exact_witness :
  0 < rec_Offset r1 <= Z.of_nat (slen data0) /\ records_from pod0 src0 "/p" data0 (rec_Offset r1) = [r2].
Proof.
  apply (resume_exact "/p" pod0 src0 data0 0 r1 [] [r2]); [done|cbn; lia|vm_compute; reflexivity|].
  vm_compute. reflexivity.
Defined.

Lemma partials_joined_witness :
  exists ft', read_lines ([line2] ++ [line3]) ft0 =
    (ft', [buildRecord src0 pod0 (mkCriLine (Date 2026 5 30 12 0 0 0) "stdout" false "two") (ft_offset ft')]).
Proof.
  apply (partials_joined [line2] line3 [] (mkCriLine (Date 2026 5 30 12 0 0 0) "stderr" false "o")
    (mkCriLine (Date 2026 5 30 12 0 0 0) "stdout" true "tw") ft0); try reflexivity.
  - repeat constructor.
  - discriminate.
Defined.
End Witness.
