(* ===== verification/Discover.v ===== *)
(** internal/tailer/tailer.go: which files are tailed, and from where.  One scan of
    [discover], the wait for pod metadata, and the life of a tail. *)

From S2P Require Import Prelude GoStrings GoTime Model SegFormat Catalog StoreToy Checkpoint Enrich Tailer.
Local Open Scope string_scope.
Local Open Scope list_scope.
Local Open Scope Z_scope.

(** [Config] and its defaults; the root and the pattern only say what is globbed. *)
Record TailerConfig := mkTailerConfig {
  tc_Root : string; tc_Node : string; tc_Glob : string; tc_PollInterval : Duration;
  tc_ExcludeNamespaces : list string; tc_MetadataWait : Duration
}.
Definition tailer_defaults (c : TailerConfig) : TailerConfig :=
  mkTailerConfig (tc_Root c) (tc_Node c) (if String.eqb (tc_Glob c) "" then "*/*/*.log" else tc_Glob c)
    (if tc_PollInterval c <=? 0 then Second else tc_PollInterval c) (tc_ExcludeNamespaces c)
    (if tc_MetadataWait c <=? 0 then 30 * Second else tc_MetadataWait c).

(** [Tailer]: the active tails by source key; the enricher may be missing. *)
Record Tailer := mkTailer {
  ta_cfg : TailerConfig; ta_exclude : gset string; ta_active : gmap string fileTail
}.
(** [New] *)
Definition NewTailer (cfg : TailerConfig) : Tailer :=
  mkTailer (tailer_defaults cfg)
    (foldl (fun m ns => if String.eqb ns "" then m else {[ns]} ∪ m) ∅ (tc_ExcludeNamespaces cfg)) ∅.

(** What statx returns of a path: whether the birth time is among it, and its seconds and
    nanoseconds. *)
Record Statx := mkStatx { stx_BTIME : bool; stx_Sec : Z; stx_Nsec : Z }.
(** [statBirthNano] of what statx returned, if it succeeded. *)
Definition statBirthNano (stx : option Statx) : Z :=
  match stx with
  | None => 0
  | Some stx =>
      if negb (stx_BTIME stx) then 0 else int64 (int64 (stx_Sec stx * 10 ^ 9) + stx_Nsec stx)
  end.

(** What [os.Stat] says of a path, device and inode, and what statx does. *)
Record FileInfo := mkFileInfo { fi_dev : Z; fi_ino : Z; fi_statx : option Statx }.
(** [sourceFromStat] *)
Definition sourceFromStat (node path : string) (fi : FileInfo) : Source :=
  mkSource node path (fi_dev fi) (fi_ino fi) (statBirthNano (fi_statx fi)).

Section Discover.
Context {D : Type} `{Bolt D}.
(** The file system and the checkpoint during one scan. *)
Context (stat : string -> option FileInfo) (cp : D) (enr : option Enricher).

(** The tests of [discover] before it looks at the file. *)
Definition wanted (t : Tailer) (pod : PodInfo) : bool :=
  negb (bool_decide (pi_Namespace pod ∈ ta_exclude t)) &&
  match enr with Some e => ShouldIngest (pi_UID pod) e | None => true end.

(** One turn of [discover]'s loop: a new tail is added to the active ones. *)
Definition discover_path (t : Tailer) (path : string) : Tailer :=
  match parsePath path with
  | None => t
  | Some pod =>
      if negb (wanted t pod) then t else
      match stat path with
      | None => t
      | Some fi =>
          let src := sourceFromStat (tc_Node (ta_cfg t)) path fi in
          let key := Key src in
          match ta_active t !! key with
          | Some _ => t
          | None => mkTailer (ta_cfg t) (ta_exclude t)
                      (<[key := open_tail path pod src (Get key cp)]> (ta_active t))
          end
      end
  end.
(** [Tailer.discover] over the matches of the glob. *)
Definition discover (matches : list string) (t : Tailer) : Tailer := foldl discover_path t matches.

(** The file generations of a scan that are to be tailed, with their keys. *)
Definition tailable (t : Tailer) (path : string) (key : string) (ft : fileTail) : Prop :=
  exists pod fi, parsePath path = Some pod /\ wanted t pod = true /\ stat path = Some fi /\
    let src := sourceFromStat (tc_Node (ta_cfg t)) path fi in
    key = Key src /\ ft = open_tail path pod src (Get key cp).

Lemma discover_path_frame t path :
  ta_cfg (discover_path t path) = ta_cfg t /\ ta_exclude (discover_path t path) = ta_exclude t.
Proof.
  unfold discover_path. destruct (parsePath path); [|done]. destruct (negb _); [done|].
  destruct (stat path); [|done]. by destruct (ta_active t !! _).
Qed.

Lemma discover_path_active t path key ft :
  ta_active (discover_path t path) !! key = Some ft <->
  ta_active t !! key = Some ft \/ (ta_active t !! key = None /\ tailable t path key ft).
Proof.
  unfold discover_path, tailable. destruct (parsePath path) as [pod|]; cycle 1.
  { split; [by left|]. intros [?|(_ & ? & ? & ? & _)]; done. }
  destruct (wanted t pod) eqn:Ew; cbn [negb]; cycle 1.
  { split; [by left|]. intros [?|(_ & ? & ? & [= ->] & ? & _)]; congruence. }
  destruct (stat path) as [fi|]; cycle 1.
  { split; [by left|]. intros [?|(_ & ? & ? & _ & _ & ? & _)]; done. }
  set (src := sourceFromStat (tc_Node (ta_cfg t)) path fi).
  destruct (ta_active t !! Key src) as [ft0|] eqn:Ek; cbn.
  - split; [by left|]. intros [?|(Hn & ? & ? & [= ->] & _ & [= ->] & -> & _)]; [done|]. fold src in Hn. congruence.
  - rewrite lookup_insert_Some. split.
    + intros [[<- <-]|[_ ?]]; [right|by left]. split; [done|]. exists pod, fi. done.
    + intros [Ha|(Hn & ? & ? & [= ->] & _ & [= ->] & -> & ->)]; [|by left].
      right. split; [|done]. intros <-. congruence.
Qed.

(** A scan tails each wanted file generation once.  Tails that run go on unchanged; a
    new tail belongs to a matching path whose pod is neither in an excluded namespace nor
    opted out, stands at its checkpoint under the key of the file's device, inode and
    birth time; and after the scan every such path has an active tail. *)
Theorem discover_spec matches t :
  let t' := discover matches t in
  (forall key ft, ta_active t !! key = Some ft -> ta_active t' !! key = Some ft) /\
  (forall key ft, ta_active t' !! key = Some ft -> ta_active t !! key = Some ft \/
     exists path, path ∈ matches /\ tailable t path key ft) /\
  (forall path key ft, path ∈ matches -> tailable t path key ft -> is_Some (ta_active t' !! key)).
Proof.
  unfold discover. induction matches as [|p matches IH] using rev_ind; cbn.
  { split; [done|split; [by left|]]. intros path key ft Hp. by apply elem_of_nil in Hp. }
  rewrite foldl_app. cbn. destruct IH as (I1 & I2 & I3). set (t1 := foldl discover_path t matches) in *.
  assert (Ht : forall path key ft, tailable t1 path key ft <-> tailable t path key ft).
  { assert (F : ta_cfg t1 = ta_cfg t /\ ta_exclude t1 = ta_exclude t).
    { unfold t1. clear. induction matches as [|q l IH] using rev_ind; [done|]. rewrite foldl_app. cbn.
      destruct (discover_path_frame (foldl discover_path t l) q) as [-> ->]. done. }
    intros. unfold tailable, wanted. by destruct F as [-> ->]. }
  split; [|split].
  - intros key ft E. apply discover_path_active. left. auto.
  - intros key ft [E|[_ E]]%discover_path_active.
    + destruct (I2 _ _ E) as [?|(path & Hp & ?)]; [by left|]. right. exists path.
      split; [apply elem_of_app; by left|done].
    + right. exists p. split; [apply elem_of_app; right; by left|by apply Ht].
  - intros path key ft [Hp| ->%list_elem_of_singleton]%elem_of_app Htl.
    + destruct (I3 path key ft Hp Htl) as [ft1 E]. exists ft1. apply discover_path_active. by left.
    + destruct (ta_active t1 !! key) as [ft1|] eqn:E; [exists ft1|exists ft];
        apply discover_path_active; [by left|right]. split; [done|by apply Ht].
Qed.

End Discover.

(** ** Waiting for metadata *)

(** What [awaitMetadata] sees at each poll: the context's end, or whether the metadata is
    there, and the time. *)
Inductive observation := Cancelled | Polled (ready : bool) (now : Time).
(** [fileTail.awaitMetadata], called at the time [now]: what it returns, if the
    observations are enough for it to return. *)
Fixpoint await_loop (deadline : Time) (obs : list observation) : option bool :=
  match obs with
  | [] => None
  | Cancelled :: _ => Some false
  | Polled ready now :: obs =>
      if ready || After now deadline then Some true else await_loop deadline obs
  end.
Definition awaitMetadata (cfg : TailerConfig) (ready : bool) (now : Time) (obs : list observation) : option bool :=
  if ready then Some true else await_loop (Add now (tc_MetadataWait cfg)) obs.

(** The wait for metadata ends.  It returns false only when the context is cancelled;
    otherwise it returns at the first poll that finds the metadata or is later than the
    deadline, so a poll after the deadline always ends it. *)
Theorem await_bounded cfg now obs :
  (forall b, awaitMetadata cfg false now obs = Some b -> exists pre o post, obs = pre ++ o :: post /\
     Forall (fun o => exists t, o = Polled false t /\ t <= now + tc_MetadataWait cfg) pre /\
     (b = false <-> o = Cancelled)) /\
  ((exists o, o ∈ obs /\ match o with Cancelled => True | Polled r t => r = true \/ now + tc_MetadataWait cfg < t end) ->
   is_Some (awaitMetadata cfg false now obs)).
Proof.
  unfold awaitMetadata, Add. set (dl := now + tc_MetadataWait cfg).
  induction obs as [|o obs [I1 I2]]; cbn.
  { split; [done|]. intros (o & Ho & _). by apply elem_of_nil in Ho. }
  destruct o as [|ready t]; cbn.
  { split; [|eauto]. intros b [= <-]. exists [], Cancelled, obs. split; [done|]. split; [constructor|done]. }
  destruct ready; cbn; [|destruct (After t dl) eqn:Ea; times].
  - split; [|eauto]. intros b [= <-]. exists [], (Polled true t), obs. split; [done|]. split; [constructor|done].
  - split; [|eauto]. intros b [= <-]. exists [], (Polled false t), obs. split; [done|]. split; [constructor|done].
  - split.
    + intros b (pre & o & post & -> & Hpre & Hb)%I1. exists (Polled false t :: pre), o, post.
      split; [done|]. split; [|done]. constructor; [|done]. by exists t.
    + intros (o & [->|Ho]%elem_of_cons & Hx); [destruct Hx; [done|lia]|]. apply I2. eauto.
Qed.

(** ** The life of a tail *)

(** [Tailer.enrichAndSend]: the record goes to the sink whether or not it is known; an
    error of the sink drops it. *)
Definition enrichAndSend {S} (enr : option Enricher) (sink : LogRecord -> S -> S) (uid : string)
    (r : LogRecord) (s : S) : S :=
  sink (match enr with Some e => Enrich uid e r | None => r end) s.

(** What a tail meets in one turn of its loop: the number of lines after which the context
    is cancelled, if it is; what the file holds at the pump and at the final one; what the
    path is now; and what the enricher knows. *)
Record turn := mkTurn {
  tn_live : option nat; tn_data : string; tn_stat : option (Z * Z); tn_final : string;
  tn_enr : option Enricher
}.
(** The loop of [fileTail.run] over the turns it has; the result is whether it goes on. *)
Fixpoint tail_loop {S} (sink : LogRecord -> S -> S) (turns : list turn) (ft : fileTail) (s : S) :
    fileTail * S * bool :=
  match turns with
  | [] => (ft, s, true)
  | tn :: turns =>
      let '(ft, s, go) := poll (tn_live tn) (enrichAndSend (tn_enr tn) sink (pi_UID (ft_pod ft)))
                            (tn_data tn) (tn_stat tn) (tn_final tn) ft s in
      if go : bool then tail_loop sink turns ft s else (ft, s, false)
  end.

(** [fileTail.run]: whether the file can be opened and sought in, what the enricher knows
    at the start and after the wait, and what the wait sees. A wait that has not ended
    leaves the tail running. *)
Definition run_tail {S} (sink : LogRecord -> S -> S) (cfg : TailerConfig) (open_ok seek_ok : bool)
    (now : Time) (before after : option Enricher) (obs : list observation) (turns : list turn)
    (ft : fileTail) (s : S) : fileTail * S * bool :=
  if negb open_ok then (ft, s, false) else
  let ft := if (0 <? ft_offset ft) && negb seek_ok
            then open_tail (ft_path ft) (ft_pod ft) (ft_src ft) 0 else ft in
  let uid := pi_UID (ft_pod ft) in
  match (match before with
         | Some e => awaitMetadata cfg (Ready uid e) now obs
         | None => Some true
         end) with
  | None => (ft, s, true)
  | Some false => (ft, s, false)
  | Some true =>
      if (match after with Some e => negb (ShouldIngest uid e) | None => false end)
      then (ft, s, false) else tail_loop sink turns ft s
  end.

(** A record without what enrichment may set. *)
Definition core (r : LogRecord) : LogRecord :=
  mkRecord (rec_Source r) (rec_Offset r) (rec_Timestamp r) (rec_Namespace r) (rec_Pod r) (rec_Container r)
    "" "" (rec_Stream r) ∅ ∅ (rec_Message r) (rec_Body r).

Lemma core_Enrich uid e r : core (Enrich uid e r) = core r.
Proof. unfold Enrich. by destruct (en_byUID e !! uid). Qed.

(** A sink that keeps what it is sent. *)
Definition keep_record (r : LogRecord) (s : list LogRecord) : list LogRecord := s ++ [r].

Lemma send_all_core enr uid rs s :
  core <$> send_all (enrichAndSend enr keep_record uid) rs s = (core <$> s) ++ (core <$> rs).
Proof.
  revert s; induction rs as [|r rs IH]; intros s; cbn; [by rewrite app_nil_r|].
  unfold send_all in IH. rewrite IH. unfold enrichAndSend at 1, keep_record. rewrite fmap_app, <- app_assoc.
  f_equal. cbn. f_equal. destruct enr; [apply core_Enrich|done].
Qed.

(** The turns of a tail that is never cancelled, on a file that only grows until the path
    is replaced or removed; [final] is all that was ever written to it. *)
Inductive tailed (src : Source) : string -> list turn -> string -> Prop :=
| tailed_last data tn more1 more2 :
    tn_live tn = None -> tn_data tn = data +:+ more1 -> tn_final tn = tn_data tn +:+ more2 ->
    (forall ft, ft_src ft = src -> rotatedOrGone ft (tn_stat tn) = true) ->
    tailed src data [tn] (tn_final tn)
| tailed_more data tn more turns final :
    tn_live tn = None -> tn_data tn = data +:+ more ->
    (forall ft, ft_src ft = src -> rotatedOrGone ft (tn_stat tn) = false) ->
    tailed src (tn_data tn) turns final -> tailed src data (tn :: turns) final.

Lemma tailed_grows src data turns final : tailed src data turns final -> exists more, final = data +:+ more.
Proof.
  induction 1 as [data tn m1 m2 _ E1 E2 _|data tn m turns final _ E _ _ [m' IH]].
  - exists (m1 +:+ m2). by rewrite E2, E1, str_app_assoc.
  - exists (m +:+ m'). by rewrite IH, E, str_app_assoc.
Qed.

Lemma read_lines_src lines ft : ft_src (fst (read_lines lines ft)) = ft_src ft.
Proof.
  revert ft; induction lines as [|l lines IH]; intros ft; [done|]. cbn.
  destruct (read_line l ft) as [ft1 r] eqn:E. apply read_line_src in E as [_ <-].
  specialize (IH ft1). by destruct (read_lines lines ft1).
Qed.

(** A pump and what is read after it, of a file that has grown to [data] and then to
    [data ++ more]. *)
Lemma pump_then enr uid data more ft s :
  at_offset data ft -> Z.of_nat (slen (data +:+ more)) < 2 ^ 63 ->
  exists ft1 s1, pump_all None (enrichAndSend enr keep_record uid) data ft s = (ft1, s1, true) /\
    at_offset data ft1 /\ ft_src ft1 = ft_src ft /\
    (core <$> s1) ++ (core <$> snd (read_lines (complete (sdrop (ft_pos ft1) (data +:+ more))) ft1)) =
    (core <$> s) ++ (core <$> snd (read_lines (complete (sdrop (ft_pos ft) (data +:+ more))) ft)).
Proof.
  intros Hat Hm. pose proof (reads_incremental data more ft Hat Hm) as I.
  pose proof (pump_all_reads (enrichAndSend enr keep_record uid) data ft s Hat) as P.
  pose proof (read_lines_src (complete (sdrop (ft_pos ft) data)) ft) as Hs.
  destruct (read_lines _ ft) as [ft1 rs1]. destruct P as (-> & Hat1 & _). cbn in Hs.
  destruct (read_lines (complete (sdrop (ft_pos ft1) _)) ft1) as [ft2 rs2] eqn:E2. destruct I as (_ & _ & ->).
  do 2 eexists. split; [reflexivity|]. split; [done|]. split; [done|].
  rewrite send_all_core, E2. cbn. by rewrite fmap_app, <- app_assoc.
Qed.

Lemma tail_loop_reads src data turns final : tailed src data turns final -> forall ft s,
  ft_src ft = src -> at_offset data ft -> Z.of_nat (slen final) < 2 ^ 63 ->
  let '(_, s', go) := tail_loop keep_record turns ft s in
  go = false /\ core <$> s' = (core <$> s) ++ (core <$> snd (read_lines (complete (sdrop (ft_pos ft) final)) ft)).
Proof.
  induction 1 as [data tn m1 m2 El E1 E2 Er|data tn m turns final El E1 Er Ht IH]; intros ft s Hs Hat Hlen.
  - assert (Hl1 : Z.of_nat (slen (tn_data tn)) < 2 ^ 63) by (rewrite E2, slen_app in Hlen; lia).
    assert (Hat0 : at_offset (tn_data tn) ft) by (rewrite E1 in *; by apply at_offset_grow). rewrite E2 in Hlen.
    cbn [tail_loop]. unfold poll. rewrite El, E2.
    destruct (pump_then (tn_enr tn) (pi_UID (ft_pod ft)) _ m2 ft s Hat0 Hlen) as (ft1 & s1 & -> & Hat1 & Hs1 & E).
    cbn [negb]. rewrite Er by congruence.
    pose proof (pump_all_reads (enrichAndSend (tn_enr tn) keep_record (pi_UID (ft_pod ft))) _ ft1 s1
                  (at_offset_grow _ _ _ Hat1 Hlen)) as P.
    destruct (read_lines _ ft1) as [ft2 rs2]. destruct P as (-> & _ & _). split; [done|].
    by rewrite send_all_core.
  - destruct (tailed_grows _ _ _ _ Ht) as [m' Ef].
    assert (Hl1 : Z.of_nat (slen (tn_data tn)) < 2 ^ 63) by (rewrite Ef, slen_app in Hlen; lia).
    assert (Hat0 : at_offset (tn_data tn) ft) by (rewrite E1 in *; by apply at_offset_grow).
    cbn [tail_loop]. unfold poll. rewrite El.
    destruct (pump_then (tn_enr tn) (pi_UID (ft_pod ft)) _ m' ft s Hat0 ltac:(by rewrite <- Ef)) as (ft1 & s1 & -> & Hat1 & Hs1 & E).
    cbn [negb]. rewrite Er by congruence. specialize (IH ft1 s1 ltac:(congruence) Hat1 Hlen).
    destruct (tail_loop keep_record turns ft1 s1) as [[ft2 s2] go]. destruct IH as [-> ->].
    split; [done|]. by rewrite Ef.
Qed.

(** C13: a tail ships the whole file.  A tail opened at a checkpoint within the file, whose
    context is not cancelled, whose pod is ingested and whose file grows until the path is
    replaced or removed, stops, having sent exactly the records of the file's complete
    lines after the checkpoint, in order, up to the fields enrichment sets; what is written
    before the final pump is not lost to the rotation. *)
Theorem tail_ships_file cfg now before after obs path pod src off data turns final :
  0 <= off -> (Z.to_nat off <= slen data)%nat -> Z.of_nat (slen final) < 2 ^ 63 ->
  tailed src data turns final ->
  match before with Some e => awaitMetadata cfg (Ready (pi_UID pod) e) now obs | None => Some true end = Some true ->
  match after with Some e => ShouldIngest (pi_UID pod) e | None => true end = true ->
  let '(_, sent, running) := run_tail keep_record cfg true true now before after obs turns (open_tail path pod src off) [] in
  running = false /\ core <$> sent = core <$> records_from pod src path final off.
Proof.
  intros H0 Hoff Hlen Ht Hb Ha. unfold run_tail. cbn [negb]. rewrite andb_false_r. cbn [open_tail ft_pod].
  rewrite Hb. replace (match after with Some e => negb _ | None => false end) with false
    by (destruct after; [by rewrite Ha|done]).
  destruct (tailed_grows _ _ _ _ Ht) as [more Ef].
  assert (Hd : Z.of_nat (slen data) < 2 ^ 63) by (rewrite Ef, slen_app in Hlen; lia).
  destruct (open_tail_at path pod src data off H0 Hoff Hd) as [Hat Ep].
  pose proof (tail_loop_reads src data turns final Ht (open_tail path pod src off) [] eq_refl Hat Hlen) as L.
  destruct (tail_loop _ turns _ []) as [[ft s] go]. rewrite Ep in L. apply L.
Qed.

Module Witness.
Import Tailer.Witness.

(** The file of [Tailer.Witness] in two turns; then the path is gone. *)
Definition turn1 : turn := mkTurn None data1 (Some (1, 2)) "" None.
Definition turn2 : turn := mkTurn None data1 None data0 None.

Lemma tail_ships_file_witness :
  let '(_, sent, running) := run_tail keep_record (tailer_defaults (mkTailerConfig "/r" "n" "" 0 [] 0)) true true 0
      None None [] [turn1; turn2] (open_tail "/p" pod0 src0 0) [] in
  running = false /\ core <$> sent = core <$> records_from pod0 src0 "/p" data0 0.
Proof.
  apply (tail_ships_file (tailer_defaults (mkTailerConfig "/r" "n" "" 0 [] 0)) 0 None None [] "/p" pod0 src0 0 "" [turn1; turn2] data0);
    try done.
  apply (tailed_more src0 "" turn1 data1); [done|done| |].
  - intros ft E. unfold rotatedOrGone. by rewrite E.
  - apply (tailed_last src0 data1 turn2 "" more1); [done|done|done|done].
Defined.
End Witness.
