(* ===== verification/TailRun.v ===== *)
(** internal/tailer/tailer.go: the goroutine of a tail, [fileTail.run], one step at a time.
    A step is a system call, a question to the enricher, a look at the context or a wait;
    the record a tail is in [Enqueue] with is part of where it stands.  Run alone, with its
    calls answered in order, it does what [pump] and [poll] say. *)

From S2P Require Import Prelude GoStrings GoTime Model SegFormat SegWriter Enrich Tailer Discover.
Local Open Scope string_scope.
Local Open Scope list_scope.
Local Open Scope Z_scope.

(** Where it stands: before [os.Open], before the first [Ready], in [awaitMetadata] with
    the deadline, before [ShouldIngest], and in the loop before [ctx.Err], before
    [ReadString], in [Enqueue], before [os.Stat], before the wait; returned.  The flag says
    that the pump is the final one. *)
Inductive tail_pc :=
| StartPc | AwaitPc | WaitPc (deadline : Time) | FilterPc
| CtxPc (last : bool) | ReadPc (last : bool) | EnqueuePc (r : LogRecord) (last : bool)
| StatPc | SleepPc | EndPc.

(** What it meets: the outcomes of [os.Open] and of [Seek], the clock, the context's end or
    what [ctx.Err] says of it, the bytes the file holds, a read that fails, the end of
    [Enqueue], and what [os.Stat] finds. *)
Inductive tail_input :=
| Opened (ok seek_ok : bool) | Clock (now : Time) | Ended | CtxSays (done : bool)
| Holds (data : string) | ReadFails | Offered | Statted (stat : option (Z * Z)).

(** What [enrichAndSend] hands to the sink. *)
Definition enriched (enr : option Enricher) (uid : string) (r : LogRecord) : LogRecord :=
  match enr with Some e => Enrich uid e r | None => r end.

(** [reader.ReadString('\n')] in [pump] and what follows up to the send or the return. *)
Definition pump_read (enr : option Enricher) (data : string) (last : bool) (ft : fileTail) : tail_pc * fileTail :=
  let '(line, eof) := ReadString data (ft_pos ft) in
  let ft := with_offset (ft_offset ft) (ft_pos ft + slen line) ft in
  if (0 <? slen line)%nat && HasSuffix line (String NL "") then
    let ft := with_offset (int64 (ft_offset ft + Z.of_nat (slen line))) (ft_pos ft) ft in
    let '(ft, rec) := consume (TrimRight NL line) ft in
    (match rec with Some r => EnqueuePc (enriched enr (pi_UID (ft_pod ft)) r) last | None => CtxPc last end, ft)
  else
    let ft := if (0 <? slen line)%nat then with_offset (ft_offset ft) (Z.to_nat (ft_offset ft)) ft else ft in
    (if eof then if last then EndPc else StatPc else CtxPc last, ft).

(** [fileTail.run] with [awaitMetadata] and [pump]; [enr] is the enricher, if there is one,
    as it is at the step. *)
Definition tail_thread (cfg : TailerConfig) (enr : option Enricher) (i : tail_input) (pc : tail_pc)
    (ft : fileTail) : option (tail_pc * fileTail) :=
  let uid := pi_UID (ft_pod ft) in
  match pc, i with
  | StartPc, Opened ok seek_ok =>
      if negb ok then Some (EndPc, ft)
      else Some (AwaitPc, if (0 <? ft_offset ft) && negb seek_ok
                          then open_tail (ft_path ft) (ft_pod ft) (ft_src ft) 0 else ft)
  | AwaitPc, Clock now =>
      Some (match enr with
            | Some e => if Ready uid e then FilterPc else WaitPc (Add now (tc_MetadataWait cfg))
            | None => FilterPc
            end, ft)
  | WaitPc _, Ended => Some (EndPc, ft)
  | WaitPc deadline, Clock now =>
      Some (if match enr with Some e => Ready uid e | None => true end || After now deadline
            then FilterPc else WaitPc deadline, ft)
  | FilterPc, Clock _ =>
      Some (if match enr with Some e => ShouldIngest uid e | None => true end then CtxPc false else EndPc, ft)
  | CtxPc last, CtxSays done => Some (if done then EndPc else ReadPc last, ft)
  | ReadPc last, Holds data => Some (pump_read enr data last ft)
  | ReadPc _, ReadFails => Some (EndPc, ft)
  | EnqueuePc _ last, Offered => Some (CtxPc last, ft)
  | StatPc, Statted stat => Some (if rotatedOrGone ft stat then CtxPc true else SleepPc, ft)
  | SleepPc, Ended => Some (EndPc, ft)
  | SleepPc, Clock _ => Some (CtxPc false, ft)
  | _, _ => None
  end.

(** ** The thread alone *)

Section Alone.
Context (cfg : TailerConfig) (enr : option Enricher).

(** The thread given its inputs, with the records it sends. *)
Fixpoint tail_alone (ins : list tail_input) (pc : tail_pc) (ft : fileTail) : option (tail_pc * fileTail * list LogRecord) :=
  match ins with
  | [] => Some (pc, ft, [])
  | i :: ins =>
      '(pc', ft') ← tail_thread cfg enr i pc ft;
      '(pc'', ft'', sent) ← tail_alone ins pc' ft';
      Some (pc'', ft'', match pc with EnqueuePc r _ => r :: sent | _ => sent end)
  end.

Lemma tail_alone_app ins ins' pc ft pc1 ft1 sent1 : tail_alone ins pc ft = Some (pc1, ft1, sent1) ->
  tail_alone (ins ++ ins') pc ft =
    '(pc2, ft2, sent2) ← tail_alone ins' pc1 ft1; Some (pc2, ft2, sent1 ++ sent2).
Proof.
  revert pc ft sent1; induction ins as [|i ins IH]; intros pc ft sent1 E; cbn in E |- *.
  { injection E as <- <- <-. by destruct (tail_alone ins' pc ft) as [[[? ?] ?]|]. }
  destruct (tail_thread cfg enr i pc ft) as [[pc' ft']|]; [|done]. cbn in *.
  destruct (tail_alone ins pc' ft') as [[[pc'' ft''] sent]|] eqn:E'; [|done]. injection E as -> -> <-.
  rewrite (IH _ _ _ E'). destruct (tail_alone ins' pc1 ft1) as [[[? ?] ?]|]; [|done]. cbn. by destruct pc.
Qed.

Definition after_pump (last : bool) : tail_pc := if last then EndPc else StatPc.
Lemma after_pump_idle last : match after_pump last with EnqueuePc _ _ => False | _ => True end.
Proof. by destruct last. Qed.

Lemma consume_pod line ft : ft_pod (fst (consume line ft)) = ft_pod ft.
Proof. unfold consume. destruct (parseCRILine line) as [cl|]; [|done]. by destruct (cri_partial cl), (String.eqb _ _). Qed.

Lemma read_lines_pod lines ft : ft_pod (fst (read_lines lines ft)) = ft_pod ft.
Proof.
  revert ft; induction lines as [|l lines IH]; intros ft; [done|]. cbn.
  destruct (read_line l ft) as [ft1 r] eqn:E. apply read_line_src in E as [<- _].
  specialize (IH ft1). by destruct (read_lines lines ft1).
Qed.

(** A pump that reaches the end of the file. *)
Lemma pump_alone last data fuel ft s ft' s' :
  pump fuel None (enrichAndSend enr keep_record (pi_UID (ft_pod ft))) data ft s = (ft', s', true) ->
  exists ins sent, tail_alone ins (CtxPc last) ft = Some (after_pump last, ft', sent) /\ s' = s ++ sent.
Proof.
  revert ft s; induction fuel as [|fuel IH]; intros ft s; [done|]. cbn [pump].
  assert (S1 : forall ins pc1 ft1 sent, pump_read enr data last ft = (pc1, ft1) ->
    tail_alone ins pc1 ft1 = Some (after_pump last, ft', sent) ->
    tail_alone (CtxSays false :: Holds data :: ins) (CtxPc last) ft = Some (after_pump last, ft', sent)).
  { intros ins pc1 ft1 sent Er E. cbn. rewrite Er. cbn. by rewrite E. }
  revert S1. unfold pump_read. destruct (ReadString data (ft_pos ft)) as [line eof].
  set (ft1 := with_offset (ft_offset ft) (ft_pos ft + slen line) ft).
  destruct (_ && _).
  - set (ft2 := with_offset _ _ ft1). destruct (consume (TrimRight NL line) ft2) as [ft3 [r|]] eqn:Ec;
      pose proof (consume_pod (TrimRight NL line) ft2) as Ep; rewrite Ec in Ep; cbn in Ep;
      rewrite <- Ep; intros S1 (ins & sent & E & ->)%IH.
    + exists (CtxSays false :: Holds data :: Offered :: ins), (enriched enr (pi_UID (ft_pod ft3)) r :: sent).
      split; [|unfold enrichAndSend, keep_record, enriched; by rewrite <- app_assoc].
      eapply S1; [reflexivity|]. cbn. by rewrite E.
    + exists (CtxSays false :: Holds data :: ins), sent. split; [|done]. by eapply S1.
  - intros S1 [= <- <- ->]. exists [CtxSays false; Holds data], []. split; [|by rewrite app_nil_r].
    eapply S1; [reflexivity|done].
Qed.

(** Alone, the thread's turn of the loop is [poll]. *)
Lemma poll_thread data stat data' ft s ft' s' go :
  poll None (enrichAndSend enr keep_record (pi_UID (ft_pod ft))) data stat data' ft s = (ft', s', go) ->
  at_offset data ft -> (forall ft1, at_offset data ft1 -> at_offset data' ft1) ->
  exists ins sent, tail_alone ins (CtxPc false) ft = Some (if go then CtxPc false else EndPc, ft', sent) /\ s' = s ++ sent.
Proof.
  unfold poll. intros E Hat Hg. pose proof (pump_all_reads (enrichAndSend enr keep_record (pi_UID (ft_pod ft))) data ft s Hat) as P.
  pose proof (read_lines_pod (complete (sdrop (ft_pos ft) data)) ft) as Epod.
  destruct (read_lines _ ft) as [ft1 rs1]. cbn in Epod. destruct P as (Ep & Hat1%Hg & _). rewrite Ep in E.
  destruct (pump_alone false data _ ft s _ _ Ep) as (ins1 & sent1 & E1 & Es1). rewrite Es1 in E. cbn [negb] in E.
  destruct (rotatedOrGone ft1 stat) eqn:Er.
  - pose proof (pump_all_reads (enrichAndSend enr keep_record (pi_UID (ft_pod ft))) data' ft1 (s ++ sent1) Hat1) as P2.
    destruct (read_lines (complete (sdrop (ft_pos ft1) data')) ft1) as [ft2 rs2]. destruct P2 as (E2 & _). rewrite E2 in E. injection E as -> <- <-.
    rewrite <- Epod in E2 |- *. destruct (pump_alone true data' _ ft1 _ _ _ E2) as (ins2 & sent2 & E3 & ->).
    exists (ins1 ++ Statted stat :: ins2), (sent1 ++ sent2). rewrite (tail_alone_app _ _ _ _ _ _ _ E1). cbn.
    rewrite Er. cbn. rewrite E3. cbn. by rewrite app_assoc.
  - injection E as -> <- <-. exists (ins1 ++ [Statted stat; Clock 0]), sent1.
    rewrite (tail_alone_app _ _ _ _ _ _ _ E1). cbn. rewrite Er. cbn. by rewrite app_nil_r.
Qed.
End Alone.

(** ** A read of a file that grows *)

Lemma cut_stake c n p s a b : cut c (sdrop p (stake n s)) = Some (a, b) -> exists b', cut c (sdrop p s) = Some (a, b').
Proof.
  intros E. assert (Hp : (p <= slen (stake n s))%nat).
  { destruct (decide (p <= slen (stake n s))%nat) as [|Hn]; [done|].
    pose proof (slen_sdrop p (stake n s)) as El. apply cut_Some in E as [E _]. rewrite E, slen_app, slen_cons in El. lia. }
  apply cut_Some in E as [E Hc]. exists (b +:+ sdrop n s).
  assert (Es : sdrop p s = a +:+ String c (b +:+ sdrop n s)); [|rewrite Es; by apply cut_app].
  rewrite <- (stake_sdrop n s) at 1. by rewrite (sdrop_app_le _ _ _ Hp), E, str_app_assoc, str_app_cons.
Qed.

(** A read that finds a first part of [data], all that is ever written to the file: it
    takes the next line of [data], or leaves the tail as it was. *)
Lemma pump_read_takes enr data n last ft pc' ft' :
  at_offset data ft -> pump_read enr (stake n data) last ft = (pc', ft') ->
  (exists a b r, cut NL (sdrop (ft_pos ft) data) = Some (a, b) /\ read_line a ft = (ft', r) /\
     pc' = match r with Some r => EnqueuePc (enriched enr (pi_UID (ft_pod ft')) r) last | None => CtxPc last end) \/
  (ft' = ft /\ (pc' = after_pump last \/ pc' = CtxPc last)).
Proof.
  intros Hat. unfold pump_read, ReadString. destruct (cut NL (sdrop (ft_pos ft) (stake n data))) as [[a b]|] eqn:E.
  - destruct (cut_stake _ _ _ _ _ _ E) as [b' E']. apply cut_Some in E as [_ Hn].
    assert (Hl : slen (a +:+ String NL "") = (slen a + 1)%nat) by (by rewrite slen_app, slen_cons).
    rewrite Hl, HasSuffix_app. replace (0 <? slen a + 1)%nat with true by (symmetry; apply Nat.ltb_lt; lia).
    cbn [andb]. rewrite TrimRight_line by done. rewrite with_offset_twice. cbn [ft_offset ft_pos with_offset].
    change (consume a _) with (read_line a ft). destruct (read_line a ft) as [ft1 r] eqn:Er. intros [= <- <-]. left.
    exists a, b', r. split; [done|]. split; [done|]. by destruct r.
  - apply cut_None in E. set (rest := sdrop (ft_pos ft) (stake n data)) in *.
    assert (Hs : HasSuffix rest (String NL "") = false).
    { destruct (HasSuffix _ _) eqn:Es; [|done]. by apply HasSuffix_NL in Es. }
    rewrite Hs, andb_false_r. intros [= <- <-]. right. split; [|by left]. destruct Hat as (Ho & _).
    destruct (Nat.ltb_spec 0 (slen rest)) as [Hlt|Hge].
    + rewrite with_offset_twice. cbn [ft_offset with_offset]. rewrite Ho at 2. rewrite Nat2Z.id. apply with_offset_id.
    + replace (ft_pos ft + slen rest)%nat with (ft_pos ft) by lia. apply with_offset_id.
Qed.
