(* ===== verification/Server.v ===== *)
(** internal/ingest/server.go: one agent's stream, which delivers decoded records to a
    receiver and acknowledges the receiver's committed offsets of the sources seen. *)

From S2P Require Import Prelude GoStrings GoTime Model SegWriter SegToy Spool Client.
Local Open Scope string_scope.
Local Open Scope list_scope.
Local Open Scope Z_scope.

(** [Receiver]; the spool is one. *)
Class Receiver (R : Type) := {
  rcv_Accept : Time -> LogRecord -> R -> R;
  rcv_Committed : R -> gmap string Z
}.
#[export] Instance Spool_Receiver : Receiver Spool := {
  rcv_Accept now r sp := fst (Accept now r sp);
  rcv_Committed := Committed
}.

(** [buildAck]; the set of sources is ranged over in some order. *)
Definition buildAck (seen : gset string) (committed : gmap string Z) : commits :=
  omap (fun key => off ← committed !! key; Some (key, off)) (elements seen).

Section Server.
Context {R : Type} `{Receiver R, JsonCodec}.

(** The body of [Stream]'s loop over the records of a batch. *)
Definition serve_record (now : Time) (s : R * gset string) (raw : string) : R * gset string :=
  match UnmarshalRecord raw with
  | None => s
  | Some rec => (rcv_Accept now rec (fst s), {[Key (rec_Source rec)]} ∪ snd s)
  end.

(** One turn of [Stream]: a batch is delivered, and an ack built; an empty one is not
    sent. *)
Definition send_ack (ack : commits) : option commits :=
  match ack with [] => None | _ => Some ack end.
Definition Stream_batch (now : Time) (batch : list string) (s : R * gset string) :
    (R * gset string) * option commits :=
  let s := foldl (serve_record now) s batch in
  (s, send_ack (buildAck (snd s) (rcv_Committed (fst s)))).

(** A tick of the ack loop. *)
Definition Stream_tick (s : R * gset string) : option commits :=
  send_ack (buildAck (snd s) (rcv_Committed (fst s))).

End Server.

Lemma elem_of_buildAck seen committed key off :
  (key, off) ∈ buildAck seen committed <-> key ∈ seen /\ committed !! key = Some off.
Proof.
  unfold buildAck. rewrite list_elem_of_omap. split.
  - intros (k & Hk & E). destruct (committed !! k) eqn:El; [|done]. cbn in E. injection E as <- <-.
    by rewrite elem_of_elements in Hk.
  - intros [Hk E]. exists key. by rewrite elem_of_elements, E.
Qed.

Lemma buildAck_keys seen committed : NoDup (buildAck seen committed).*1.
Proof.
  unfold buildAck. pose proof (NoDup_elements seen) as Hn. induction Hn as [|k l Hk Hn IH]; cbn; [constructor|].
  destruct (committed !! k) as [off|]; cbn; [|done]. constructor; [|done].
  intros ((k' & off') & E & Hin)%list_elem_of_fmap. cbn in E. subst k'.
  apply list_elem_of_omap in Hin as (k' & Hk' & E). destruct (committed !! k'); [|done].
  cbn in E. by injection E as -> _.
Qed.

(** An envelope is acknowledged exactly when its source was seen on the stream and its
    offset is committed. *)
Definition released (seen : gset string) (committed : gmap string Z) (e : envelope) : bool :=
  bool_decide (ev_sourceKey e ∈ seen) &&
  match committed !! ev_sourceKey e with Some off => ev_offset e <=? off | None => false end.

Lemma acked_buildAck seen committed e : acked (buildAck seen committed) e = released seen committed e.
Proof.
  unfold acked, released. pose proof (buildAck_keys seen committed) as Hn.
  assert (L : forall k off, (list_to_map (reverse (buildAck seen committed)) : gmap string Z) !! k = Some off <->
            k ∈ seen /\ committed !! k = Some off).
  { intros k off. rewrite <- elem_of_buildAck, <- elem_of_list_to_map; [apply elem_of_reverse|].
    by rewrite reverse_Permutation. }
  specialize (L (ev_sourceKey e)). destruct (_ !! ev_sourceKey e) as [off|] eqn:E.
  - destruct (proj1 (L off) eq_refl) as [Hs ->]. by rewrite bool_decide_true.
  - destruct (committed !! ev_sourceKey e) as [off|]; [|by rewrite andb_false_r].
    rewrite bool_decide_false; [done|]. intros Hs. by pose proof (proj2 (L off) (conj Hs eq_refl)).
Qed.

(** C23: an ack releases exactly what is committed.  Applying an ack the server builds
    keeps, in order, the records of the window whose source was not seen or whose offset
    is above the source's committed offset, makes the held size exact, and reports
    exactly the committed offsets of the sources seen to the checkpoint. *)
Theorem ack_releases_committed seen committed c :
  let '(c', calls) := applyAck (buildAck seen committed) c in
  cl_unacked c' = List.filter (fun e => negb (released seen committed e)) (cl_unacked c) /\
  cl_heldByte c' = int64 (window_size (cl_unacked c')) /\
  (forall key off, (key, off) ∈ calls <-> key ∈ seen /\ committed !! key = Some off).
Proof.
  cbn. split; [|split; [apply held_of_sum|apply elem_of_buildAck]].
  apply List.filter_ext. intros e. by rewrite acked_buildAck.
Qed.
