(* ===== verification/Delivery.v ===== *)
(** The whole path of a record: tails, the client's window and checkpoint, connections,
    the server, the spool and its seals, acks; with lost connections, restarts of the
    agent and of the manager, and records dropped at the hard cap. *)

From S2P Require Import Prelude GoStrings GoTime Model SegFormat SegWriter SegLayout.
From S2P Require Import SegRefine SegReader JsonStruct RecordJson SegToy Merge Cache Blobs Catalog StoreToy Store.
From S2P Require Import StoreOk Spool SpoolSafe Client Checkpoint Tailer Server.
Local Open Scope string_scope.
Local Open Scope list_scope.
Local Open Scope Z_scope.

(** The place of the record an envelope holds. *)
Definition ev_place (e : envelope) : place := (ev_sourceKey e, ev_offset e).

(** ** Lists of places without gaps *)

Section Gapless.
(** Where the log files have records. *)
Context (logged : place -> Prop).

(** Each place of [l] comes after the lower places of its source, those of [base]
    excepted. *)
Definition gapless (base : place -> Prop) (l : list place) : Prop :=
  forall pre k o post, l = pre ++ (k, o) :: post ->
  forall o', logged (k, o') -> o' < o -> base (k, o') \/ (k, o') ∈ pre.

Lemma gapless_nil base : gapless base [].
Proof. intros [|] k o post E; done. Qed.
Lemma gapless_weaken (base base' : place -> Prop) l :
  (forall x, base x -> base' x) -> gapless base l -> gapless base' l.
Proof. intros Hb Hl pre k o post E o' Ho Hlt. destruct (Hl _ _ _ _ E o' Ho Hlt); auto. Qed.
Lemma gapless_prefix base l l' : gapless base (l ++ l') -> gapless base l.
Proof.
  intros Hl pre k o post -> o' Ho Hlt. apply (Hl pre k o (post ++ l')); [|done|done].
  by rewrite <- app_assoc.
Qed.
Lemma gapless_snoc base l k o :
  gapless base l -> (forall o', logged (k, o') -> o' < o -> base (k, o') \/ (k, o') ∈ l) ->
  gapless base (l ++ [(k, o)]).
Proof.
  intros Hl Hx pre k' o' post E. destruct post as [|y post] using rev_ind.
  - apply app_inj_tail in E as [-> [= -> ->]]. exact Hx.
  - clear IHpost. rewrite app_comm_cons, app_assoc in E. apply app_inj_tail in E as [-> _].
    by apply (Hl pre k' o' post).
Qed.
Lemma gapless_tail (base : place -> Prop) x l : base x -> gapless base (x :: l) -> gapless base l.
Proof.
  intros Hx Hl pre k o post -> o' Ho Hlt.
  destruct (Hl (x :: pre) k o post eq_refl o' Ho Hlt) as [?|[E|?]%elem_of_cons]; auto. left. by rewrite E.
Qed.
Lemma gapless_head base k o l o' : gapless base ((k, o) :: l) -> logged (k, o') -> o' < o -> base (k, o').
Proof. intros Hl Ho Hlt. destruct (Hl [] k o l eq_refl o' Ho Hlt) as [?|?%elem_of_nil]; done. Qed.

(** The same for lists whose elements have a place. *)
Lemma gapless_filter {A} (f : A -> place) (P : A -> bool) (base : place -> Prop) (l : list A) :
  gapless base (f <$> l) -> (forall x, x ∈ l -> P x = false -> base (f x)) ->
  gapless base (f <$> List.filter P l).
Proof.
  intros Hl Hb. induction l as [|x l IH] using rev_ind; [done|].
  rewrite List.filter_app, fmap_app. rewrite fmap_app in Hl.
  assert (IHl : gapless base (f <$> List.filter P l)).
  { apply IH; [by eapply gapless_prefix|]. intros y Hy. apply Hb. apply elem_of_app. by left. }
  cbn. destruct (P x) eqn:EP; cbn; [|by rewrite app_nil_r].
  destruct (f x) as [k o] eqn:Ef. apply gapless_snoc; [done|]. intros o' Ho Hlt.
  destruct (Hl (f <$> l) k o [] ltac:(by cbn; rewrite Ef) o' Ho Hlt) as [?|(y & Ey & Hy)%list_elem_of_fmap]; [by left|].
  destruct (P y) eqn:EPy.
  - right. apply list_elem_of_fmap. exists y. split; [done|]. apply list_elem_of_In, filter_In.
    by rewrite <- list_elem_of_In.
  - left. rewrite Ey. apply Hb; [|done]. apply elem_of_app. by left.
Qed.

(** The unsent part [u] of the window, appended to what is on the connection already. *)
Lemma gapless_flush (safe acc : place -> Prop) (pre : list envelope) (pipe : list place) :
  (forall x, safe x -> acc x) -> gapless safe (ev_place <$> pre) -> gapless acc pipe ->
  (forall e, e ∈ pre -> ev_sent e = true -> acc (ev_place e) \/ ev_place e ∈ pipe) ->
  gapless acc (pipe ++ (ev_place <$> unsent pre)).
Proof.
  intros Hsub Hpre Hpipe Hsent. induction pre as [|e pre IH] using rev_ind; [by rewrite app_nil_r|].
  rewrite fmap_app in Hpre. rewrite unsent_app, fmap_app, app_assoc.
  assert (IHp : gapless acc (pipe ++ (ev_place <$> unsent pre))).
  { apply IH; [by eapply gapless_prefix|]. intros e' He'. apply Hsent. apply elem_of_app. by left. }
  unfold unsent at 2. cbn. destruct (ev_sent e) eqn:Es; cbn; [by rewrite app_nil_r|].
  destruct (ev_place e) as [k o] eqn:Ee. apply gapless_snoc; [done|]. intros o' Ho Hlt.
  destruct (Hpre (ev_place <$> pre) k o [] ltac:(by cbn; rewrite Ee) o' Ho Hlt)
    as [?|(e' & Ee' & He')%list_elem_of_fmap]; [left; auto|].
  destruct (ev_sent e') eqn:Es'.
  - destruct (Hsent e') as [?|?]; [apply elem_of_app; by left|done|by left; rewrite Ee'|].
    right. apply elem_of_app. left. by rewrite Ee'.
  - right. apply elem_of_app. right. apply list_elem_of_fmap. exists e'. split; [done|].
    apply list_elem_of_In, filter_In. rewrite <- list_elem_of_In, Es'. done.
Qed.
End Gapless.

(** ** The system *)

(** What the server has yet to read of a connection, and the sources it has seen on it. *)
Record conn := mkConn { cn_pipe : list string; cn_seen : gset string }.

(** [y_live]: the first connection is the one the client sends on.  [y_lost] is a
    history: the places of records dropped at the hard cap or without a JSON form. *)
Record sys (D : Type) := mkSys {
  y_client : Client; y_cp : D; y_tails : gmap string Z;
  y_conns : list conn; y_live : bool; y_acks : list commits;
  y_world : world; y_lost : list place
}.
Arguments mkSys {D} _ _ _ _ _ _ _ _.
Arguments y_client {D} _.
Arguments y_cp {D} _.
Arguments y_tails {D} _.
Arguments y_conns {D} _.
Arguments y_live {D} _.
Arguments y_acks {D} _.
Arguments y_world {D} _.
Arguments y_lost {D} _.

(** Where records are. *)
Definition logged (written : LogRecord -> Prop) (x : place) : Prop := exists r, written r /\ place_of r = x.

Section System.
Context {D : Type} `{Bolt D, JsonCodec}.
(** The records of the log files, and the client's configuration. *)
Context (written : LogRecord -> Prop) (ccfg : ClientConfig).
Abbreviation logged := (logged written).
Context (logged_pos : forall k o, logged (k, o) -> 0 < o < 2 ^ 63).

(** The commit callback: [Checkpoint.Advance], whose errors are only logged. *)
Definition commit (calls : commits) (cp : D) : D :=
  foldl (fun cp kv => fst (Advance kv.1 kv.2 cp)) cp calls.

(** The next record of the tail of a file that stands at [p]. *)
Definition next_record (p : Z) (r : LogRecord) : Prop :=
  written r /\ p < rec_Offset r /\
  forall o, logged (key_of r, o) -> p < o -> rec_Offset r <= o.
Lemma written_logged r : written r -> logged (place_of r).
Proof. by exists r. Qed.

(** The JSON form of the record decodes to a record of the same place.  (Text that is not
    valid UTF-8 changes on the way; see [go_deliverable] for the records of which the place
    does not.) *)
Definition deliverable (r : LogRecord) : Prop :=
  forall raw, MarshalRecord r = Some raw ->
  exists r', UnmarshalRecord raw = Some r' /\ place_of r' = place_of r.

(** What the server does with the raw form of a record. *)
Definition serve (now : Time) (raw : string) (w : world) (seen : gset string) : world * gset string :=
  match UnmarshalRecord raw with
  | None => (w, seen)
  | Some r =>
      (mkWorld (fst (Accept now r (w_sp w))) (w_inflight w) (w_durable w)
         (match snd (Accept now r (w_sp w)) with
          | Some r => w_accepted w ++ [r] | None => w_accepted w end),
       {[key_of r]} ∪ seen)
  end.

(** When the connection after [cs1] breaks, the client may have another one. *)
Definition after_break (cs1 : list conn) (lv : bool) : bool := match cs1 with [] => false | _ => lv end.

(** An abstraction that serves safety only: it allows every step the program can make, for
    records that are deliverable, and more, such as a connection or a send after
    [Client.Run] has returned.  What the goroutines really do, and that it refines these
    steps, is in [Session] and [Whole]. *)
Inductive sys_step : sys D -> sys D -> Prop :=
(* a tail starts at the checkpoint, reads on, and ends *)
| sys_tail_start k c cp ts cs lv aks w lost :
    ts !! k = None ->
    sys_step (mkSys c cp ts cs lv aks w lost) (mkSys c cp (<[k := Get k cp]> ts) cs lv aks w lost)
| sys_tail_read p r c c' calls cp ts cs lv aks w lost :
    ts !! key_of r = Some p -> next_record p r -> deliverable r -> Enqueue r c = Enqueued c' calls ->
    sys_step (mkSys c cp ts cs lv aks w lost)
      (mkSys c' (commit calls cp) (<[key_of r := rec_Offset r]> ts) cs lv aks w (lost ++ calls))
| sys_tail_skip p r c cp ts cs lv aks w lost :
    ts !! key_of r = Some p -> next_record p r -> Enqueue r c = MarshalFailed ->
    sys_step (mkSys c cp ts cs lv aks w lost)
      (mkSys c cp (<[key_of r := rec_Offset r]> ts) cs lv aks w (lost ++ [place_of r]))
| sys_tail_canceled p r c cp ts cs lv aks w lost :
    ts !! key_of r = Some p -> next_record p r -> Enqueue r c = Canceled ->
    sys_step (mkSys c cp ts cs lv aks w lost)
      (mkSys c cp (<[key_of r := rec_Offset r]> ts) cs lv aks w lost)
| sys_tail_exit k c cp ts cs lv aks w lost :
    sys_step (mkSys c cp ts cs lv aks w lost) (mkSys c cp (delete k ts) cs lv aks w lost)
(* the client sends, connects and stops; a connection breaks, losing what is in transit *)
| sys_flush c c' batch cp ts cs lv aks w lost :
    flush_batch c = (c', batch) ->
    sys_step (mkSys c cp ts cs lv aks w lost)
      (mkSys c' cp ts (if lv : bool then match cs with
                                 | cn :: cs => mkConn (cn_pipe cn ++ batch) (cn_seen cn) :: cs
                                 | [] => [] end else cs) lv aks w lost)
| sys_connect c cp ts cs lv aks w lost :
    sys_step (mkSys c cp ts cs lv aks w lost)
      (mkSys (reconnect c) cp ts (mkConn [] ∅ :: cs) true aks w lost)
| sys_break c cp ts cs1 pipe gone seen cs2 lv aks w lost :
    sys_step (mkSys c cp ts (cs1 ++ mkConn (pipe ++ gone) seen :: cs2) lv aks w lost)
      (mkSys c cp ts (cs1 ++ mkConn pipe seen :: cs2) (after_break cs1 lv) aks w lost)
| sys_notified c cp ts cs lv aks w lost :
    sys_step (mkSys c cp ts cs lv aks w lost) (mkSys (take_notify c) cp ts cs lv aks w lost)
| sys_close c cp ts cs lv aks w lost :
    sys_step (mkSys c cp ts cs lv aks w lost) (mkSys (ClientClose c) cp ts cs lv aks w lost)
| sys_agent_restart c cp ts cs lv aks w lost :
    sys_step (mkSys c cp ts cs lv aks w lost) (mkSys (NewClient ccfg) cp ∅ cs false aks w lost)
(* the server reads a record, and acknowledges the sources it has marked as seen; an ack
   arrives *)
| sys_serve now c cp ts cs1 raw pipe seen seen' cs2 lv aks w w' lost :
    serve now raw w seen = (w', seen') ->
    sys_step (mkSys c cp ts (cs1 ++ mkConn (raw :: pipe) seen :: cs2) lv aks w lost)
      (mkSys c cp ts (cs1 ++ mkConn pipe seen' :: cs2) lv aks w' lost)
| sys_ack cn seen c cp ts cs lv aks w lost :
    cn ∈ cs -> seen ⊆ cn_seen cn ->
    sys_step (mkSys c cp ts cs lv aks w lost)
      (mkSys c cp ts cs lv (aks ++ [buildAck seen (Committed (w_sp w))]) w lost)
| sys_acked ack c cp ts cs lv aks w lost :
    ack ∈ aks ->
    sys_step (mkSys c cp ts cs lv aks w lost)
      (mkSys (fst (applyAck ack c)) (commit (snd (applyAck ack c)) cp) ts cs lv aks w lost)
(* the spool seals; the manager restarts over a recovered catalogue *)
| sys_seal c cp ts cs lv aks w w' lost :
    step false w w' -> w_accepted w' = w_accepted w ->
    sys_step (mkSys c cp ts cs lv aks w lost) (mkSys c cp ts cs lv aks w' lost)
| sys_manager_restart wm c cp ts cs lv aks w lost :
    recovered wm (w_durable w) ->
    sys_step (mkSys c cp ts cs lv aks w lost)
      (mkSys c cp ts [] false aks
         (mkWorld (NewSpool (sp_cfg (w_sp w)) wm) [] (w_durable w) (w_durable w)) lost).

(** Both sides start with nothing but an empty checkpoint. *)
Definition sys_start (cfg : SpoolConfig) (cp : D) : sys D :=
  mkSys (NewClient ccfg) cp ∅ [] false [] (start cfg) [].
Definition sys_reachable (cfg : SpoolConfig) (y : sys D) : Prop :=
  exists cp, (forall k, Get k cp = 0) /\ rtc sys_step (sys_start cfg cp) y.

(** ** The invariant *)

Definition among (x : place) (l : list LogRecord) : Prop := x ∈ place_of <$> l.
(** In a segment the object store holds, or given up; and accepted, or given up. *)
Definition safe (y : sys D) (x : place) : Prop := among x (w_durable (y_world y)) \/ x ∈ y_lost y.
Definition accepted (y : sys D) (x : place) : Prop := among x (w_accepted (y_world y)) \/ x ∈ y_lost y.

Definition raw_place (raw : string) : place :=
  match UnmarshalRecord raw with Some r => place_of r | None => ("", 0) end.
Definition raw_ok (raw : string) : Prop :=
  exists r, UnmarshalRecord raw = Some r /\ logged (place_of r).
Definition ev_ok (e : envelope) : Prop := raw_ok (ev_raw e) /\ raw_place (ev_raw e) = ev_place e.

Record sys_inv (y : sys D) : Prop := {
  (* the checkpoint, acks in flight and tails have only safe places below them *)
  si_cp k o : logged (k, o) -> o <= Get k (y_cp y) -> safe y (k, o);
  si_acks ack k off : ack ∈ y_acks y -> (k, off) ∈ ack ->
    0 <= off < 2 ^ 63 /\ forall o, logged (k, o) -> o <= off -> safe y (k, o);
  si_tails k p o : cl_closed (y_client y) = false -> y_tails y !! k = Some p ->
    logged (k, o) -> o <= p -> safe y (k, o) \/ (k, o) ∈ ev_place <$> cl_unacked (y_client y);
  (* the window and the connections have no gaps *)
  si_window : gapless logged (safe y) (ev_place <$> cl_unacked (y_client y));
  si_window_ok : Forall ev_ok (cl_unacked (y_client y));
  si_conns cn : cn ∈ y_conns y -> gapless logged (accepted y) (raw_place <$> cn_pipe cn);
  si_conns_ok cn : cn ∈ y_conns y -> Forall raw_ok (cn_pipe cn);
  (* what was sent on the live connection is accepted or in transit on it *)
  si_sent e : y_live y = true -> e ∈ cl_unacked (y_client y) -> ev_sent e = true ->
    exists cn cs, y_conns y = cn :: cs /\ (accepted y (ev_place e) \/ ev_place e ∈ raw_place <$> cn_pipe cn);
  (* accepted records come from the logs and have no gaps below them *)
  si_accepted r : r ∈ w_accepted (y_world y) -> logged (place_of r);
  si_closed r o : r ∈ w_accepted (y_world y) -> logged (key_of r, o) -> o < rec_Offset r ->
    accepted y (key_of r, o);
  si_world : inv (y_world y);
  si_live : y_live y = true -> y_conns y <> []
}.

Lemma among_elem r l : r ∈ l -> among (place_of r) l.
Proof. intros Hr. apply list_elem_of_fmap. by exists r. Qed.
Lemma among_app x l l' : among x (l ++ l') <-> among x l \/ among x l'.
Proof. unfold among. by rewrite fmap_app, elem_of_app. Qed.
Lemma among_inv k o l : among (k, o) l -> exists r, r ∈ l /\ key_of r = k /\ rec_Offset r = o.
Proof. intros (r & [= -> ->] & Hr)%list_elem_of_fmap. by exists r. Qed.

(** A source's durable records are downward closed, up to lost ones. *)
Lemma durable_closed y r o :
  sys_inv y -> r ∈ w_durable (y_world y) -> logged (key_of r, o) -> o <= rec_Offset r ->
  safe y (key_of r, o).
Proof.
  intros Hy Hr Ho Hle. pose proof (si_world y Hy) as Hw.
  assert (Hra : r ∈ w_accepted (y_world y)) by (apply (inv_kept _ Hw); by left).
  destruct (decide (o = rec_Offset r)) as [->|Hne]; [left; by apply among_elem|].
  destruct (si_closed y Hy r o Hra Ho) as [(r' & Hr' & Ek & Eo)%among_inv|]; [lia| |by right].
  left. rewrite <- Ek, <- Eo. apply among_elem. apply (inv_gapless _ Hw r' r); [done|done|done|lia].
Qed.

(** Nothing at or below a source's committed offset is unsafe. *)
Lemma committed_safe y k off o :
  sys_inv y -> Committed (w_sp (y_world y)) !! k = Some off -> logged (k, o) -> o <= off -> safe y (k, o).
Proof.
  intros Hy Hc Ho Hle. pose proof (logged_pos k o Ho). unfold Committed in Hc.
  destruct (inv_committed _ (si_world y Hy) k) as [E|(d & Hd & Ek & Eo)]; rewrite Hc in *; cbn in *; [lia|].
  subst k. apply durable_closed; [done|done|done|lia].
Qed.

Lemma Advance_cases key off (cp : D) k :
  0 <= off < 2 ^ 63 ->
  Get k (fst (Advance key off cp)) <= Get k cp \/ (k = key /\ Get k (fst (Advance key off cp)) <= Z.max (Get k cp) off).
Proof.
  intros Ho. destruct (snd (Advance key off cp)) eqn:E.
  - rewrite (Advance_get key off cp k) by (done || unfold in_int64; lia).
    destruct (decide (k = key)) as [->|]; [right; split; [done|lia]|left; lia].
  - rewrite Advance_failed by done. left. lia.
Qed.

(** Committing places that have only safe places below them keeps the checkpoint safe. *)
Lemma commit_safe (P : place -> Prop) calls cp :
  (forall k o, logged (k, o) -> o <= Get k cp -> P (k, o)) ->
  (forall k off, (k, off) ∈ calls -> 0 <= off < 2 ^ 63 /\ forall o, logged (k, o) -> o <= off -> P (k, o)) ->
  forall k o, logged (k, o) -> o <= Get k (commit calls cp) -> P (k, o).
Proof.
  revert cp; induction calls as [|[key off] calls IH]; intros cp Hcp Hcalls k o Ho Hle; [by apply Hcp|].
  cbn in Hle. apply (IH (fst (Advance key off cp))); [|by intros; apply Hcalls; right|done|done].
  clear k o Ho Hle. intros k o Ho Hle. destruct (Hcalls key off) as [Hr Hs]; [by left|].
  destruct (Advance_cases key off cp k Hr) as [H1|[-> H1]]; [apply Hcp; [done|lia]|].
  destruct (Z.le_gt_cases o (Get key cp)); [by apply Hcp|]. apply Hs; [done|lia].
Qed.

Lemma sys_inv_start cfg cp : (forall k, Get k cp = 0) -> sys_inv (sys_start cfg cp).
Proof.
  intros Hcp. split; cbn; try done; try (by intros ? ?%elem_of_nil); try (by intros ? ? ? ?%elem_of_nil);
    try (by intros ? ? ?%elem_of_nil); try (by apply gapless_nil); try (by apply inv_start).
  intros k o Ho Hle. rewrite Hcp in Hle. apply logged_pos in Ho. lia.
Qed.

Lemma envelope_ok r raw :
  deliverable r -> MarshalRecord r = Some raw -> logged (place_of r) -> ev_ok (envelope_of r raw).
Proof.
  intros Hr Em Hl. destruct (Hr raw Em) as (r' & Eu & Ep). split.
  - exists r'. by rewrite Ep.
  - unfold raw_place; cbn. by rewrite Eu, Ep.
Qed.
Lemma record_ok_deliverable r : record_ok r -> deliverable r.
Proof. intros Hr raw Em. exists r. split; [by apply Unmarshal_MarshalRecord|done]. Qed.

Lemma gapless_drop (base : place -> Prop) gone rest :
  (forall x, x ∈ gone -> base x) -> gapless logged base (gone ++ rest) -> gapless logged base rest.
Proof.
  intros Hb. induction gone as [|x gone IH]; [done|]. intros Hl. apply IH; [intros; apply Hb; by right|].
  eapply gapless_tail; [|exact Hl]. apply Hb. by left.
Qed.

(** Dropping the head of the window and appending the next record. *)
Lemma enqueue_inv p r c c' calls cp ts cs lv aks w lost :
  ts !! key_of r = Some p -> next_record p r -> deliverable r -> Enqueue r c = Enqueued c' calls ->
  sys_inv (mkSys c cp ts cs lv aks w lost) ->
  sys_inv (mkSys c' (commit calls cp) (<[key_of r := rec_Offset r]> ts) cs lv aks w (lost ++ calls)).
Proof.
  intros Ep (Hlog%written_logged & Hlt & Hnext) Hok E Hi.
  apply Enqueue_window in E as (raw & gone & rest & Em & Ec & Ec' & Eu & Eu' & ->).
  change (fun e : envelope => (ev_sourceKey e, ev_offset e)) with ev_place.
  set (y := mkSys c cp ts cs lv aks w lost) in *. set (y' := mkSys c' _ _ cs lv aks w _).
  assert (Hs : forall x, safe y x -> safe y' x) by (intros x [?|?]; [by left|right; apply elem_of_app; by left]).
  assert (Ha : forall x, accepted y x -> accepted y' x) by (intros x [?|?]; [by left|right; apply elem_of_app; by left]).
  assert (Hg : forall x, x ∈ ev_place <$> gone -> safe y' x) by (intros x Hx; right; apply elem_of_app; by right).
  destruct Hi as [Hcp Hacks Htails Hwin Hwok Hconns Hcok Hsent Hacc Hcl Hw Hlive]. cbn in *.
  rewrite Eu in *. rewrite fmap_app in Hwin.
  assert (Hwin' : gapless logged (safe y') ((ev_place <$> gone) ++ (ev_place <$> rest)))
    by (eapply gapless_weaken; [exact Hs|exact Hwin]).
  split; cbn.
  - apply (commit_safe (safe y')); [by intros; apply Hs, Hcp|]. intros k off Hin. split.
    + apply list_elem_of_fmap in Hin as (e & [= -> ->] & He). rewrite Forall_forall in Hwok.
      destruct (Hwok e) as [(r' & Er' & Hl') Epl]; [apply elem_of_app; by left|].
      unfold raw_place in Epl. rewrite Er' in Epl. unfold ev_place in Epl. rewrite Epl in Hl'.
      apply logged_pos in Hl'. lia.
    + intros o Ho Hle. apply list_elem_of_split in Hin as (l1 & l2 & El). rewrite El in Hwin'.
      destruct (decide (o = off)) as [->|Hne]; [apply Hg; rewrite El; set_solver|].
      rewrite <- app_assoc in Hwin'. destruct (Hwin' l1 k off _ eq_refl o Ho) as [?|?]; [lia|done|].
      apply Hg. rewrite El. apply elem_of_app. by left.
  - intros ack k off Hack Hin. destruct (Hacks ack k off Hack Hin) as [? Hx]. split; [done|]. auto.
  - intros k p' o _ Ek Ho Hle. rewrite Eu', fmap_app, elem_of_app.
    destruct (decide (k = key_of r)) as [->|Hne].
    + rewrite lookup_insert_eq in Ek. injection Ek as <-.
      destruct (decide (o = rec_Offset r)) as [->|Hno]; [right; right; by left|].
      assert (Hlep : o <= p) by (destruct (Z.le_gt_cases o p); [done|]; specialize (Hnext o Ho); lia).
      destruct (Htails _ p o Ec Ep Ho Hlep) as [?|Hin]; [left; auto|].
      rewrite fmap_app, elem_of_app in Hin. destruct Hin; [left; auto|right; by left].
    + rewrite lookup_insert_ne in Ek by done. destruct (Htails k p' o Ec Ek Ho Hle) as [?|Hin]; [left; auto|].
      rewrite fmap_app, elem_of_app in Hin. destruct Hin; [left; auto|right; by left].
  - rewrite Eu', fmap_app. apply gapless_snoc; [by eapply gapless_drop|]. intros o Ho Hlo.
    assert (Hlep : o <= p) by (destruct (Z.le_gt_cases o p); [done|]; specialize (Hnext o Ho); cbn in *; lia).
    destruct (Htails _ p o Ec Ep Ho Hlep) as [?|Hin]; [left; auto|].
    rewrite fmap_app, elem_of_app in Hin. destruct Hin; [left; auto|by right].
  - rewrite Eu'. apply Forall_app in Hwok as [_ Hwok]. apply Forall_app. split; [done|].
    constructor; [by apply envelope_ok|constructor].
  - intros cn Hcn. eapply gapless_weaken; [exact Ha|by apply Hconns].
  - done.
  - intros e Hlv He Hse. rewrite Eu' in He. apply elem_of_app in He as [He|He%list_elem_of_singleton]; [|by subst].
    destruct (Hsent e Hlv) as (cn & cs' & Ecs & [?|?]); [apply elem_of_app; by right|done| |]; exists cn, cs'; auto.
  - done.
  - intros r' o Hr' Ho Hlo. apply Ha. by apply Hcl.
  - done.
  - done.
Qed.

Lemma skip_inv p r c cp ts cs lv aks w lost x :
  ts !! key_of r = Some p -> next_record p r ->
  (x = [place_of r] \/ (x = [] /\ cl_closed c = true)) ->
  sys_inv (mkSys c cp ts cs lv aks w lost) ->
  sys_inv (mkSys c cp (<[key_of r := rec_Offset r]> ts) cs lv aks w (lost ++ x)).
Proof.
  intros Ep (Hlog%written_logged & Hlt & Hnext) Hx Hi. set (y := mkSys c cp ts cs lv aks w lost) in *.
  set (y' := mkSys c cp _ cs lv aks w _).
  assert (Hs : forall x, safe y x -> safe y' x) by (intros z [?|?]; [by left|right; apply elem_of_app; by left]).
  assert (Ha : forall x, accepted y x -> accepted y' x) by (intros z [?|?]; [by left|right; apply elem_of_app; by left]).
  destruct Hi as [Hcp Hacks Htails Hwin Hwok Hconns Hcok Hsent Hacc Hcl Hw Hlive]. cbn in *. split; cbn; try done.
  - intros k o Ho Hle. by apply Hs, Hcp.
  - intros ack k off Hack Hin. destruct (Hacks ack k off Hack Hin) as [? Hy]. split; [done|]. auto.
  - intros k p' o Hc Ek Ho Hle. destruct (decide (k = key_of r)) as [->|Hne]; cycle 1.
    { rewrite lookup_insert_ne in Ek by done. destruct (Htails k p' o Hc Ek Ho Hle); [left; auto|by right]. }
    rewrite lookup_insert_eq in Ek. injection Ek as <-. destruct Hx as [->|[_ ?]]; [|congruence].
    destruct (decide (o = rec_Offset r)) as [->|Hno]; [left; right; apply elem_of_app; right; by left|].
    destruct (Htails _ p o Hc Ep Ho); [|left; auto|by right].
    destruct (Z.le_gt_cases o p); [done|]. specialize (Hnext o Ho). lia.
  - by eapply gapless_weaken.
  - intros cn Hcn. eapply gapless_weaken; [exact Ha|by apply Hconns].
  - intros e Hlv He Hse. destruct (Hsent e Hlv He Hse) as (cn & cs' & Ecs & [?|?]); exists cn, cs'; auto.
  - intros r' o Hr' Ho Hlo. apply Ha. by apply Hcl.
Qed.

Lemma tails_inv c cp ts ts' cs lv aks w lost :
  (forall k p, ts' !! k = Some p -> ts !! k = Some p \/ p = Get k cp) ->
  sys_inv (mkSys c cp ts cs lv aks w lost) -> sys_inv (mkSys c cp ts' cs lv aks w lost).
Proof.
  intros Hts [Hcp Hacks Htails Hwin Hwok Hconns Hcok Hsent Hacc Hcl Hw Hlive]. split; cbn in *; try done.
  intros k p o Hc Ek Ho Hle. destruct (Hts k p Ek) as [?| ->]; [by eapply Htails|]. left. by apply Hcp.
Qed.

(** Changing only which envelopes are marked sent, and the connections. *)
Lemma resend_inv c l cp ts cs cs' lv lv' aks w lost :
  let y := mkSys c cp ts cs lv aks w lost in
  ev_place <$> l = ev_place <$> cl_unacked c -> Forall ev_ok l ->
  (forall cn, cn ∈ cs' -> gapless logged (accepted y) (raw_place <$> cn_pipe cn) /\ Forall raw_ok (cn_pipe cn)) ->
  (lv' = true -> cs' <> []) ->
  (forall e, lv' = true -> e ∈ l -> ev_sent e = true -> exists cn cs, cs' = cn :: cs /\
     (accepted y (ev_place e) \/ ev_place e ∈ raw_place <$> cn_pipe cn)) ->
  sys_inv y -> sys_inv (mkSys (with_unacked l c) cp ts cs' lv' aks w lost).
Proof.
  intros y El Hl Hcs Hne Hs [Hcp Hacks Htails Hwin Hwok Hconns Hcok Hsent Hacc Hcl Hw Hlive]. cbn in *.
  split; cbn; try done; rewrite ?El; try done.
  - intros cn Hcn. by apply Hcs.
  - intros cn Hcn. by apply Hcs.
Qed.

Lemma set_sent_places b (l : list envelope) : ev_place <$> (set_sent b <$> l) = ev_place <$> l.
Proof. rewrite <- list_fmap_compose. by apply list_fmap_ext. Qed.
Lemma set_sent_ok b l : Forall ev_ok l -> Forall ev_ok (set_sent b <$> l).
Proof. intros Hl. apply Forall_fmap. by eapply Forall_impl. Qed.
Lemma raw_places l : Forall ev_ok l -> raw_place <$> (ev_raw <$> l) = ev_place <$> l.
Proof. intros Hl. rewrite <- list_fmap_compose. induction Hl as [|e l [_ E] Hl IH]; cbn; [done|]. by rewrite E, IH. Qed.

Lemma flush_inv c c' batch cp ts cs lv aks w lost :
  flush_batch c = (c', batch) -> sys_inv (mkSys c cp ts cs lv aks w lost) ->
  sys_inv (mkSys c' cp ts (if lv : bool then match cs with
                            | cn :: cs => mkConn (cn_pipe cn ++ batch) (cn_seen cn) :: cs
                            | [] => [] end else cs) lv aks w lost).
Proof.
  intros E Hi. destruct (flush_batch_spec c) as (pre & post & Eu & Ef & _). rewrite Ef in E.
  injection E as <- <-. pose proof Hi as [_ _ _ Hwin Hwok Hconns Hcok Hsent _ _ _ Hlive]. cbn in *.
  rewrite Eu in Hwin, Hwok, Hsent. rewrite fmap_app in Hwin. apply Forall_app in Hwok as [Hpre Hpost].
  assert (Hun : Forall ev_ok (unsent pre)).
  { apply Forall_forall. intros e He. rewrite Forall_forall in Hpre. apply Hpre.
    apply list_elem_of_In in He. apply filter_In, proj1, list_elem_of_In in He. done. }
  apply resend_inv with (cs := cs) (lv := lv); [| | | | |done].
  - by rewrite Eu, !fmap_app, set_sent_places.
  - apply Forall_app. split; [by apply set_sent_ok|done].
  - destruct lv; [|by auto]. destruct cs as [|cn cs]; [by intros ? ?%elem_of_nil|].
    intros cn' [->|Hcn]%elem_of_cons; [|split; [apply Hconns|apply Hcok]; by right]. cbn. split.
    + rewrite fmap_app, raw_places by done. eapply gapless_flush; [|by eapply gapless_prefix|apply Hconns; by left|].
      * intros x [Hx|Hx]; [left|by right]. apply list_elem_of_fmap in Hx as (r & -> & Hr).
        apply among_elem. apply (inv_kept _ (si_world _ Hi)). by left.
      * intros e He Hse. destruct (Hsent e eq_refl) as (cn1 & cs1 & [= <- <-] & ?); [apply elem_of_app; by left|done|done].
    + apply Forall_app. split; [apply Hcok; by left|]. apply Forall_fmap. eapply Forall_impl; [exact Hun|]. by intros e [].
  - intros -> E. by destruct cs; [destruct (Hlive eq_refl)|].
  - intros e -> He Hse. destruct cs as [|cn cs].
    { by destruct (Hlive eq_refl). }
    eexists _, _. split; [done|]. cbn. rewrite fmap_app, elem_of_app, raw_places by done.
    apply elem_of_app in He as [(e0 & -> & He0)%list_elem_of_fmap|He].
    + destruct (ev_sent e0) eqn:E0.
      * destruct (Hsent e0 eq_refl) as (cn1 & cs1 & [= <- <-] & [?|?]); [apply elem_of_app; by left|done|by left|right; by left].
      * right. right. apply list_elem_of_fmap. exists e0. split; [done|]. apply list_elem_of_In, filter_In.
        rewrite <- list_elem_of_In, E0. done.
    + destruct (Hsent e eq_refl) as (cn1 & cs1 & [= <- <-] & [?|?]); [apply elem_of_app; by right|done|by left|right; by left].
Qed.

Lemma connect_inv c cp ts cs lv aks w lost :
  sys_inv (mkSys c cp ts cs lv aks w lost) ->
  sys_inv (mkSys (reconnect c) cp ts (mkConn [] ∅ :: cs) true aks w lost).
Proof.
  intros Hi. apply resend_inv with (cs := cs) (lv := lv); [| | | | |done].
  - by rewrite set_sent_places.
  - apply set_sent_ok, (si_window_ok _ Hi).
  - intros cn [->|Hcn]%elem_of_cons; [split; [apply gapless_nil|constructor]|].
    split; [by apply (si_conns _ Hi)|by apply (si_conns_ok _ Hi)].
  - done.
  - intros e _ (e0 & -> & _)%list_elem_of_fmap. done.
Qed.

Lemma break_inv c cp ts cs1 pipe gone seen cs2 lv aks w lost :
  sys_inv (mkSys c cp ts (cs1 ++ mkConn (pipe ++ gone) seen :: cs2) lv aks w lost) ->
  sys_inv (mkSys c cp ts (cs1 ++ mkConn pipe seen :: cs2) (after_break cs1 lv) aks w lost).
Proof.
  intros [Hcp Hacks Htails Hwin Hwok Hconns Hcok Hsent Hacc Hcl Hw Hlive]. split; cbn in *; try done.
  - intros cn [Hcn|[->|Hcn]%elem_of_cons]%elem_of_app; [apply Hconns; set_solver| |apply Hconns; set_solver].
    specialize (Hconns (mkConn (pipe ++ gone) seen)). cbn in Hconns. rewrite fmap_app in Hconns.
    eapply gapless_prefix, Hconns. set_solver.
  - intros cn [Hcn|[->|Hcn]%elem_of_cons]%elem_of_app; [apply Hcok; set_solver| |apply Hcok; set_solver].
    specialize (Hcok (mkConn (pipe ++ gone) seen)). cbn in Hcok. apply Forall_app in Hcok; [apply Hcok|set_solver].
  - intros e Hb. destruct cs1 as [|cn cs1]; [done|]. intros He Hse.
    destruct (Hsent e Hb He Hse) as (cn' & cs' & [= <- <-] & Hp). by exists cn, (cs1 ++ mkConn pipe seen :: cs2).
  - intros _. by destruct cs1.
Qed.

Lemma agent_restart_inv c cp ts cs lv aks w lost :
  sys_inv (mkSys c cp ts cs lv aks w lost) -> sys_inv (mkSys (NewClient ccfg) cp ∅ cs false aks w lost).
Proof.
  intros [Hcp Hacks Htails Hwin Hwok Hconns Hcok Hsent Hacc Hcl Hw Hlive]. split; cbn in *; try done.
  apply gapless_nil.
Qed.

(** An acknowledgement of committed offsets. *)
Lemma ack_inv seen c cp ts cs lv aks w lost :
  sys_inv (mkSys c cp ts cs lv aks w lost) ->
  sys_inv (mkSys c cp ts cs lv (aks ++ [buildAck seen (Committed (w_sp w))]) w lost).
Proof.
  intros Hi. pose proof (fun k off o => committed_safe _ k off o Hi) as Hsafe.
  pose proof Hi as [Hcp Hacks Htails Hwin Hwok Hconns Hcok Hsent Hacc Hcl Hw Hlive]. split; cbn in *; try done.
  intros ack k off [Hin| ->%list_elem_of_singleton]%elem_of_app Hko; [by eapply Hacks|].
  apply elem_of_buildAck in Hko as [_ Hc]. split; [|intros o; by apply (Hsafe _ off o)].
  unfold Committed in Hc. destruct (inv_committed _ Hw k) as [E|(d & Hd & Ek & Eo)]; rewrite Hc in *; cbn in *; [lia|].
  assert (Hdl : logged (place_of d)) by (apply Hacc, (inv_kept _ Hw); by left).
  apply logged_pos in Hdl. lia.
Qed.

Lemma acked_inv ack c cp ts cs lv aks w lost :
  ack ∈ aks -> sys_inv (mkSys c cp ts cs lv aks w lost) ->
  sys_inv (mkSys (fst (applyAck ack c)) (commit (snd (applyAck ack c)) cp) ts cs lv aks w lost).
Proof.
  intros Hack [Hcp Hacks Htails Hwin Hwok Hconns Hcok Hsent Hacc Hcl Hw Hlive].
  set (y := mkSys c cp ts cs lv aks w lost) in *. cbn in *.
  assert (Hkept : forall e, e ∈ cl_unacked c -> negb (acked ack e) = false -> safe y (ev_place e)).
  { intros e He Hd. apply negb_false_iff in Hd. unfold acked in Hd.
    destruct (_ !! ev_sourceKey e) as [off|] eqn:El; [|done]. apply Z.leb_le in Hd.
    apply elem_of_list_to_map_2 in El. rewrite elem_of_reverse in El. rewrite Forall_forall in Hwok.
    destruct (Hwok e He) as [(r & Er & Hl) Epl]. unfold raw_place in Epl. rewrite Er in Epl.
    rewrite Epl in Hl. by apply (Hacks ack _ _ Hack El). }
  assert (Hsub : forall e, e ∈ List.filter (fun e => negb (acked ack e)) (cl_unacked c) -> e ∈ cl_unacked c).
  { intros e He. apply list_elem_of_In in He. by apply filter_In, proj1, list_elem_of_In in He. }
  split; cbn; try done.
  - apply (commit_safe (safe y)); [done|]. intros k off Hin. by apply (Hacks ack).
  - intros k p o Hc Ek Ho Hle. destruct (Htails k p o Hc Ek Ho Hle) as [?|(e & Ee & He)%list_elem_of_fmap]; [by left|].
    destruct (negb (acked ack e)) eqn:Ea; [|left; rewrite Ee; by apply Hkept].
    right. apply list_elem_of_fmap. exists e. split; [done|]. by apply list_elem_of_In, filter_In; rewrite <- list_elem_of_In.
  - by apply gapless_filter.
  - apply Forall_forall. intros e He. rewrite Forall_forall in Hwok. auto.
  - intros e Hlv He Hse. by apply (Hsent e Hlv (Hsub e He)).
Qed.

(** A step of the spool that accepts nothing. *)
Lemma durable_grows w w' : step false w w' -> forall r, r ∈ w_durable w -> r ∈ w_durable w'.
Proof.
  intros [sp fl du ac now r0 Hr|sp fl du ac batch sp' _ _|sp fl1 batch fl2 du ac so _
         |sp fl1 batch fl2 du ac so now [] _|sp fl du ac wm _] r Hin; cbn in *; try done;
    apply elem_of_app; by left.
Qed.
Lemma among_mono l l' x : (forall r, r ∈ l -> r ∈ l') -> among x l -> among x l'.
Proof. intros Hs (r & -> & Hr)%list_elem_of_fmap. by apply among_elem, Hs. Qed.

Lemma seal_inv c cp ts cs lv aks w w' lost :
  step false w w' -> w_accepted w' = w_accepted w ->
  sys_inv (mkSys c cp ts cs lv aks w lost) -> sys_inv (mkSys c cp ts cs lv aks w' lost).
Proof.
  intros Hst Eacc Hi. set (y := mkSys c cp ts cs lv aks w lost) in *. set (y' := mkSys c cp ts cs lv aks w' lost).
  assert (Hs : forall x, safe y x -> safe y' x).
  { intros x [Hx|Hx]; [left|by right]. by eapply among_mono; [apply (durable_grows _ _ Hst)|]. }
  assert (Ha : forall x, accepted y' x <-> accepted y x) by (intros x; unfold accepted; cbn; by rewrite Eacc).
  destruct Hi as [Hcp Hacks Htails Hwin Hwok Hconns Hcok Hsent Hacc Hcl Hw Hlive]. cbn in *.
  split; cbn; try done; rewrite ?Eacc; try done.
  - intros k o Ho Hle. by apply Hs, Hcp.
  - intros ack k off Hack Hin. destruct (Hacks ack k off Hack Hin) as [? Hx]. split; [done|]. auto.
  - intros k p o Hc Ek Ho Hle. destruct (Htails k p o Hc Ek Ho Hle); [left; auto|by right].
  - by eapply gapless_weaken.
  - intros cn Hcn. eapply gapless_weaken; [intros x; apply Ha|by apply Hconns].
  - intros e Hlv He Hse. destruct (Hsent e Hlv He Hse) as (cn & cs' & Ecs & [?|?]); exists cn, cs'; rewrite Ha; auto.
  - intros r o Hr Ho Hlo. apply Ha. by apply Hcl.
  - by eapply world_step_inv.
Qed.

Lemma manager_restart_inv wm c cp ts cs lv aks w lost :
  recovered wm (w_durable w) -> sys_inv (mkSys c cp ts cs lv aks w lost) ->
  sys_inv (mkSys c cp ts [] false aks
    (mkWorld (NewSpool (sp_cfg (w_sp w)) wm) [] (w_durable w) (w_durable w)) lost).
Proof.
  intros Hwm Hi. pose proof (fun r o => durable_closed _ r o Hi) as Hdc.
  pose proof Hi as [Hcp Hacks Htails Hwin Hwok Hconns Hcok Hsent Hacc Hcl Hw Hlive]. cbn in *.
  split; cbn; try done.
  - by intros cn Hcn%elem_of_nil.
  - by intros cn Hcn%elem_of_nil.
  - intros r Hr. apply Hacc, (inv_kept _ Hw). by left.
  - intros r o Hr Ho Hlo. apply (Hdc r o Hr Ho). lia.
  - destruct w as [sp fl du ac]. by eapply restart_inv.
Qed.

(** A duplicate was accepted before. *)
Lemma duplicate_accepted y r :
  sys_inv y -> logged (place_of r) -> is_duplicate (w_sp (y_world y)) r = true -> accepted y (place_of r).
Proof.
  intros Hi Hl Hd. pose proof (logged_pos _ _ Hl). unfold is_duplicate in Hd.
  destruct (inv_attained _ (si_world y Hi) (key_of r)) as [E|(d & Hda & Ek & Eo)];
    destruct (sp_received (w_sp (y_world y)) !! key_of r) as [hw|]; try done; apply Z.leb_le in Hd; cbn in *; [lia|].
  destruct (decide (rec_Offset r = rec_Offset d)) as [E|Hne].
  - left. replace (place_of r) with (place_of d); [by apply among_elem|]. unfold place_of. by rewrite Ek, E.
  - unfold place_of. rewrite <- Ek. apply (si_closed y Hi d); [done|by rewrite Ek|lia].
Qed.

(** The server reads a record of a connection that has no gaps. *)
Lemma serve_inv now raw pipe seen seen' cs1 cs2 c cp ts lv aks w w' lost :
  serve now raw w seen = (w', seen') ->
  sys_inv (mkSys c cp ts (cs1 ++ mkConn (raw :: pipe) seen :: cs2) lv aks w lost) ->
  sys_inv (mkSys c cp ts (cs1 ++ mkConn pipe seen' :: cs2) lv aks w' lost).
Proof.
  intros E Hi. set (y := mkSys _ _ _ _ _ _ _ _) in Hi. set (y' := mkSys c cp ts (_ ++ mkConn pipe _ :: _) lv aks w' lost).
  assert (Hcn : mkConn (raw :: pipe) seen ∈ y_conns y) by (cbn; set_solver).
  pose proof (si_conns_ok y Hi _ Hcn) as Hok. cbn in Hok. apply Forall_cons in Hok as [(r & Er & Hl) Hok].
  pose proof (logged_pos _ _ Hl) as Hpos. pose proof (si_conns y Hi _ Hcn) as Hgap. cbn in Hgap.
  assert (Erp : raw_place raw = place_of r) by (unfold raw_place; by rewrite Er). rewrite Erp in Hgap.
  unfold serve in E. rewrite Er in E. injection E as <- <-.
  assert (Hr : accepted y' (place_of r)).
  { destruct (is_duplicate (w_sp w) r) eqn:Ed.
    - destruct (duplicate_accepted y r Hi Hl Ed) as [?|?]; [left|by right]. cbn. unfold Accept. by rewrite Ed.
    - left. cbn. unfold Accept. rewrite Ed. apply among_elem, elem_of_app. right. by left. }
  assert (Hnew : forall x, x ∈ w_accepted (y_world y') -> x ∈ w_accepted w \/ x = r).
  { intros x. cbn. unfold Accept. destruct (is_duplicate _ _); [by left|]. cbn.
    intros [?| ->%list_elem_of_singleton]%elem_of_app; [by left|by right]. }
  assert (Hold : forall x, x ∈ w_accepted w -> x ∈ w_accepted (y_world y')).
  { intros x Hx. cbn. unfold Accept. destruct (is_duplicate _ _); [done|]. cbn. apply elem_of_app. by left. }
  assert (Ha : forall x, accepted y x -> accepted y' x) by (intros x [?|?]; [left; by eapply among_mono|by right]).
  pose proof Hi as [Hcp Hacks Htails Hwin Hwok Hconns Hcok Hsent Hacc Hcl Hw Hlive].
  assert (Hcns : forall cn, cn ∈ y_conns y' -> cn ∈ y_conns y \/ cn_pipe cn = pipe).
  { intros cn [?|[->|?]%elem_of_cons]%elem_of_app; [left; cbn; set_solver|by right|left; cbn; set_solver]. }
  split.
  - exact Hcp.
  - exact Hacks.
  - exact Htails.
  - exact Hwin.
  - exact Hwok.
  - intros cn [Hc| ->]%Hcns; [eapply gapless_weaken; [exact Ha|by apply Hconns]|].
    eapply gapless_tail; [exact Hr|]. eapply gapless_weaken; [exact Ha|exact Hgap].
  - intros cn [Hc| ->]%Hcns; [by apply Hcok|done].
  - intros e Hlv He Hse. destruct (Hsent e Hlv He Hse) as (cn & cs & Ecs & Hin). cbn in Ecs |- *.
    destruct cs1 as [|cn1 cs1]; injection Ecs as <- <-; eexists _, _; (split; [done|]);
      (destruct Hin as [?|Hin]; [left; by apply Ha|]); [|by right].
    cbn in Hin. rewrite Erp in Hin. apply elem_of_cons in Hin as [->|?]; [by left|by right].
  - intros x [?| ->]%Hnew; [by apply Hacc|done].
  - intros x o [Hx| ->]%Hnew Ho Hlt; [by apply Ha, Hcl|]. apply Ha. by eapply gapless_head.
  - apply (world_step_inv w); [|exact Hw]. destruct w. apply step_accept. lia.
  - intros Hlv. cbn. by destruct cs1.
Qed.

Lemma sys_close_inv c cp ts cs lv aks w lost :
  sys_inv (mkSys c cp ts cs lv aks w lost) -> sys_inv (mkSys (ClientClose c) cp ts cs lv aks w lost).
Proof. intros [Hcp Hacks Htails Hwin Hwok Hconns Hcok Hsent Hacc Hcl Hw Hlive]. by split. Qed.
Lemma notified_inv c cp ts cs lv aks w lost :
  sys_inv (mkSys c cp ts cs lv aks w lost) -> sys_inv (mkSys (take_notify c) cp ts cs lv aks w lost).
Proof. intros [Hcp Hacks Htails Hwin Hwok Hconns Hcok Hsent Hacc Hcl Hw Hlive]. by split. Qed.
Lemma start_inv k c cp ts cs lv aks w lost :
  sys_inv (mkSys c cp ts cs lv aks w lost) -> sys_inv (mkSys c cp (<[k := Get k cp]> ts) cs lv aks w lost).
Proof.
  apply tails_inv. intros k' p. destruct (decide (k' = k)) as [->|Hne].
  - rewrite lookup_insert_eq. intros [= <-]. by right.
  - rewrite lookup_insert_ne by done. by left.
Qed.
Lemma exit_inv k c cp ts cs lv aks w lost :
  sys_inv (mkSys c cp ts cs lv aks w lost) -> sys_inv (mkSys c cp (delete k ts) cs lv aks w lost).
Proof. apply tails_inv. intros k' p. rewrite lookup_delete_Some. intros [_ ?]. by left. Qed.
Lemma canceled_inv p r c cp ts cs lv aks w lost :
  ts !! key_of r = Some p -> next_record p r -> Enqueue r c = Canceled ->
  sys_inv (mkSys c cp ts cs lv aks w lost) ->
  sys_inv (mkSys c cp (<[key_of r := rec_Offset r]> ts) cs lv aks w lost).
Proof.
  intros Ep Hn Hc%Enqueue_canceled Hi. rewrite <- (app_nil_r lost). eapply skip_inv; eauto.
Qed.

Lemma sys_step_inv y y' : sys_step y y' -> sys_inv y -> sys_inv y'.
Proof.
  intros [] Hi; eauto using start_inv, enqueue_inv, canceled_inv, exit_inv, flush_inv, connect_inv,
    break_inv, sys_close_inv, notified_inv, agent_restart_inv, ack_inv, acked_inv, seal_inv, manager_restart_inv, serve_inv.
  eapply skip_inv; eauto.
Qed.
Lemma sys_reachable_inv cfg y : sys_reachable cfg y -> sys_inv y.
Proof.
  intros (cp & Hcp & Hr). pose proof (sys_inv_start cfg cp Hcp) as H1. revert H1.
  induction Hr as [|y1 y2 y3 Hs _ IH]; [done|]. eauto using sys_step_inv.
Qed.

(** At-least-once delivery.  However tails, sends, lost connections, seals that
    succeed or fail, acks, and restarts of the agent and of the manager interleave, a
    record at or below its file's checkpoint, which the agent will not read again, is in a
    segment the object store holds, unless it was given up: dropped at the hard cap, or
    without a JSON form. *)
Theorem at_least_once cfg y k o :
  sys_reachable cfg y -> logged (k, o) -> o <= Get k (y_cp y) ->
  (exists r, r ∈ w_durable (y_world y) /\ key_of r = k /\ rec_Offset r = o) \/ (k, o) ∈ y_lost y.
Proof.
  intros Hi%sys_reachable_inv Ho Hle.
  destruct (si_cp y Hi k o Ho Hle) as [Hd|?]; [left; by apply among_inv|by right].
Qed.

(** A tail forgets nothing.  While the agent runs, each record a tail has read past is
    durable, given up, or still in the client's window. *)
Theorem tail_forgets_nothing cfg y k p o :
  sys_reachable cfg y -> cl_closed (y_client y) = false -> y_tails y !! k = Some p ->
  logged (k, o) -> o <= p ->
  (exists r, r ∈ w_durable (y_world y) /\ key_of r = k /\ rec_Offset r = o) \/ (k, o) ∈ y_lost y \/
  exists e, e ∈ cl_unacked (y_client y) /\ ev_sourceKey e = k /\ ev_offset e = o.
Proof.
  intros Hi%sys_reachable_inv Hc Ek Ho Hle.
  destruct (si_tails y Hi k p o Hc Ek Ho Hle) as [[Hd|?]|(e & [= -> ->] & He)%list_elem_of_fmap];
    [left; by apply among_inv|right; by left|right; right; by exists e].
Qed.

(** What [serve] does to the spool and to the sources seen is what the server does. *)
Lemma serve_record_serve now raw w seen :
  serve_record now (w_sp w, seen) raw = (w_sp (fst (serve now raw w seen)), snd (serve now raw w seen)).
Proof. unfold serve_record, serve. by destruct (UnmarshalRecord raw). Qed.

End System.

(** ** Files

    The records of log files as [Tailer] reads them are what [logged] stands for: a tail
    that stands at the offset of a record, or at the start, reads the next one. *)

Record log_file := mkLogFile { lf_pod : PodInfo; lf_src : Source; lf_path : string; lf_data : string }.
Definition file_records (f : log_file) (off : Z) : list LogRecord :=
  records_from (lf_pod f) (lf_src f) (lf_path f) (lf_data f) off.

Section Files.
Context (files : list log_file) (Hkeys : NoDup ((fun f => Key (lf_src f)) <$> files)).
Context (Hsize : Forall (fun f => Z.of_nat (slen (lf_data f)) < 2 ^ 63) files).

Definition file_logged (x : place) : Prop :=
  exists f r, f ∈ files /\ r ∈ file_records f 0 /\ place_of r = x.

Lemma read_lines_source lines ft r : r ∈ snd (read_lines lines ft) -> rec_Source r = ft_src ft.
Proof.
  revert ft; induction lines as [|l lines IH]; intros ft; cbn; [by intros ?%elem_of_nil|].
  destruct (read_line l ft) as [ft1 q] eqn:E. apply read_line_src in E as E1. destruct E1 as [_ <-].
  specialize (IH ft1). destruct (read_lines lines ft1) as [ft2 rs]. cbn in *. destruct q as [q|]; [|done].
  apply read_line_record in E as (_ & _ & _ & E1 & E2). intros [->|Hr]%elem_of_cons; [congruence|auto].
Qed.
Lemma file_records_source f off r : r ∈ file_records f off -> rec_Source r = lf_src f.
Proof. apply read_lines_source. Qed.
Lemma file_records_key f off r : r ∈ file_records f off -> key_of r = Key (lf_src f).
Proof. intros Hr%file_records_source. unfold key_of. by rewrite Hr. Qed.

Lemma file_place f r : r ∈ file_records f 0 -> place_of r = (Key (lf_src f), rec_Offset r).
Proof. intros Hr. exact (f_equal (fun k => (k, rec_Offset r)) (file_records_key f 0 r Hr)). Qed.

(** Reading on from a record, or from the start. *)
Definition stands (f : log_file) (p : Z) : Prop := p = 0 \/ exists r, r ∈ file_records f 0 /\ rec_Offset r = p.

Lemma file_resume f p rs1 r rs2 :
  f ∈ files -> stands f p -> file_records f p = rs1 ++ r :: rs2 ->
  p < rec_Offset r <= Z.of_nat (slen (lf_data f)) /\ file_records f (rec_Offset r) = rs2.
Proof.
  intros Hf Hp E. rewrite Forall_forall in Hsize. specialize (Hsize f Hf).
  assert (Hr : 0 <= p <= Z.of_nat (slen (lf_data f))).
  { destruct Hp as [->|(r0 & Hr0 & <-)]; [lia|]. apply list_elem_of_split in Hr0 as (a & b & E0).
    destruct (resume (lf_path f) (lf_pod f) (lf_src f) (lf_data f) 0 r0 a b) as [? _]; [lia|lia|done|exact E0|lia]. }
  apply (resume (lf_path f) (lf_pod f) (lf_src f) (lf_data f) p r rs1 rs2); [lia|lia|done|exact E].
Qed.
Lemma file_later f p r rs x :
  f ∈ files -> stands f p -> file_records f p = r :: rs -> x ∈ rs -> r ∈ file_records f 0 -> rec_Offset r < rec_Offset x.
Proof.
  intros Hf Hp E Hx Hr. destruct (file_resume f p [] r rs Hf Hp E) as [_ E1].
  apply list_elem_of_split in Hx as (a & b & ->).
  destruct (file_resume f (rec_Offset r) a x b Hf) as [? _]; [right; eauto|exact E1|lia].
Qed.

Lemma file_logged_pos k o : file_logged (k, o) -> 0 < o < 2 ^ 63.
Proof.
  intros (f & r & Hf & Hr & [= _ <-]). apply list_elem_of_split in Hr as (a & b & E).
  destruct (file_resume f 0 a r b Hf (or_introl eq_refl) E) as [? _].
  rewrite Forall_forall in Hsize. specialize (Hsize f Hf). lia.
Qed.

(** Every record of the file is at or below where the tail stands, or is still to be read. *)
Lemma file_split f p : f ∈ files -> stands f p ->
  forall x, x ∈ file_records f 0 -> rec_Offset x <= p \/ x ∈ file_records f p.
Proof.
  intros Hf [->|(r & Hr & <-)] x Hx; [by right|]. apply list_elem_of_split in Hr as (a & b & E).
  destruct (file_resume f 0 a r b Hf (or_introl eq_refl) E) as [_ ->]. rewrite E in Hx.
  apply elem_of_app in Hx as [Hx|[->|Hx]%elem_of_cons]; [|left; lia|by right]. left.
  apply list_elem_of_split in Hx as (a1 & a2 & ->). rewrite <- app_assoc in E.
  destruct (file_resume f 0 a1 x (a2 ++ r :: b) Hf (or_introl eq_refl) E) as [_ E1].
  destruct (file_resume f (rec_Offset x) a2 r b Hf) as [? _]; [right|done|lia].
  exists x. split; [|done]. rewrite E. apply elem_of_app. right. by left.
Qed.

(** A key names one generation. *)
Lemma file_inj f f' : f ∈ files -> f' ∈ files -> Key (lf_src f') = Key (lf_src f) -> f' = f.
Proof.
  intros Hf Hf' Ek. apply list_elem_of_lookup in Hf as [i Hi]. apply list_elem_of_lookup in Hf' as [j Hj].
  assert (i = j) as <-; [|congruence]. eapply (NoDup_lookup _ _ _ _ Hkeys); rewrite list_lookup_fmap;
    [by rewrite Hi|rewrite Hj; cbn; by f_equal].
Qed.
Lemma file_next f p r rs :
  f ∈ files -> stands f p -> file_records f p = r :: rs ->
  r ∈ file_records f 0 /\ p < rec_Offset r /\
  (forall o, file_logged (key_of r, o) -> p < o -> rec_Offset r <= o) /\
  stands f (rec_Offset r) /\ file_records f (rec_Offset r) = rs.
Proof.
  intros Hf Hp E. destruct (file_resume f p [] r rs Hf Hp E) as [Hlt Er].
  assert (Hr0 : r ∈ file_records f 0).
  { destruct Hp as [->|(r0 & Hr0 & <-)]; [rewrite E; by left|]. apply list_elem_of_split in Hr0 as (a & b & E0).
    destruct (file_resume f 0 a r0 b Hf (or_introl eq_refl) E0) as [_ E1]. rewrite E in E1. subst b.
    rewrite E0. apply elem_of_app. right. right. by left. }
  split; [done|]. split; [lia|]. split; [|split; [right; by exists r|done]].
  intros o (f' & x & Hf' & Hx & [= Ek <-]) Ho.
  assert (f' = f) as ->.
  { apply file_inj; [done|done|]. by rewrite <- (file_records_key _ _ _ Hx), Ek, (file_records_key _ _ _ Hr0). }
  destruct (file_split f p Hf Hp x Hx) as [?|Hin]; [lia|]. rewrite E in Hin.
  apply elem_of_cons in Hin as [->|Hin]; [lia|]. pose proof (file_later f p r rs x Hf Hp E Hin Hr0). lia.
Qed.

(** A place has one record. *)
Lemma file_unique f r r' : f ∈ files -> r ∈ file_records f 0 -> r' ∈ file_records f 0 -> rec_Offset r = rec_Offset r' -> r = r'.
Proof.
  intros Hf Hr Hr' Eo. apply list_elem_of_split in Hr as (a & b & E).
  assert (Hs : stands f (rec_Offset r)) by (right; exists r; split; [rewrite E; set_solver|done]).
  destruct (file_resume f 0 a r b Hf (or_introl eq_refl) E) as [_ Er]. rewrite E in Hr'.
  assert (Hb : forall x, x ∈ b -> rec_Offset r < rec_Offset x).
  { intros x (c & d & Ex)%list_elem_of_split. rewrite <- Er in Ex.
    destruct (file_resume f _ c x d Hf Hs Ex) as [? _]. lia. }
  apply elem_of_app in Hr' as [Hr'|[->|Hr']%elem_of_cons]; [|done|apply Hb in Hr'; lia].
  apply list_elem_of_split in Hr' as (c & d & ->). rewrite <- app_assoc in E. cbn in E.
  destruct (file_resume f 0 c r' (d ++ r :: b) Hf (or_introl eq_refl) E) as [_ Er'].
  destruct (file_resume f (rec_Offset r') d r b Hf) as [? _]; [right; exists r'; split; [rewrite E; set_solver|done]|done|lia].
Qed.

End Files.

(** ** The JSON of records

    With the encoder of the code, what a tail sends is deliverable when the node's name and
    the path of the log are valid UTF-8, as they are on a Kubernetes node, and its body
    still parses two objects deep. *)

Lemma carry_place r : sane_text (src_Node (rec_Source r)) -> sane_text (src_Path (rec_Source r)) ->
  place_of (carry_record r) = place_of r.
Proof.
  intros Hn Hp. unfold place_of, key_of, carry_record, carry_source. cbn. rewrite Hn, Hp. by destruct (rec_Source r).
Qed.
Lemma go_deliverable r : record_wf r -> sane_text (src_Node (rec_Source r)) ->
  sane_text (src_Path (rec_Source r)) -> @deliverable go_json r.
Proof.
  intros Hw Hn Hp raw Em. exists (carry_record r). split; [by apply record_carried|by apply carry_place].
Qed.

(** ** A record's journey *)

Module Witness.
Local Existing Instance go_json.
Local Existing Instance toy_bolt.
Import SegToy.Witness.

Definition r0 : LogRecord := rec 10 5 "a".
Definition k0 : string := key_of r0.
Definition written0 (r : LogRecord) : Prop := r = r0.
Definition ccfg0 : ClientConfig := mkClientConfig 0 0 0 0 0.
Definition scfg0 : SpoolConfig := mkConfig 0 0.
Lemma logged0_pos k o : logged written0 (k, o) -> 0 < o < 2 ^ 63.
Proof. by intros (r & -> & [= _ <-]). Qed.

Definition cp0 : Bucket := bucket [].
Definition c1 : Client :=
  match Enqueue r0 (NewClient ccfg0) with Enqueued c _ => c | _ => NewClient ccfg0 end.
Definition ts1 : gmap string Z := <[k0 := 10]> (<[k0 := Get k0 cp0]> ∅).
Definition c2 : Client := fst (flush_batch (reconnect c1)).
Definition raw2 : string := default "" (MarshalRecord r0).
Definition w3 : world :=
  mkWorld (fst (Accept 7 r0 (NewSpool scfg0 ∅))) [] [] [r0].
Definition sp4 : Spool :=
  match seal_begin (w_sp w3) with Some (_, sp) => sp | None => w_sp w3 end.
Definition w5 : world := mkWorld (seal_commit [r0] sp4) [] [r0] [r0].
Definition ack6 : commits := buildAck ({[k0]} ∪ ∅) (Committed (w_sp w5)).
Definition y7 : sys Bucket :=
  mkSys (fst (applyAck ack6 c2)) (commit (snd (applyAck ack6 c2)) cp0) ts1
    [mkConn [] ({[k0]} ∪ ∅)] true [ack6] w5 [].

Abbreviation stp := (sys_step written0 ccfg0).

(** The tail has read the record, which waits in the window. *)
Definition y1 : sys Bucket := mkSys c1 cp0 ts1 [] false [] (start scfg0) [].
Lemma reach1 : sys_reachable written0 ccfg0 scfg0 y1.
Proof.
  exists cp0. split; [done|].
  apply (rtc_r _ (mkSys (NewClient ccfg0) cp0 (<[k0 := Get k0 cp0]> ∅) [] false [] (start scfg0) [])).
  { apply rtc_once, sys_tail_start. done. }
  apply (sys_tail_read written0 ccfg0 (Get k0 cp0) r0 (NewClient ccfg0) c1 []).
  - apply lookup_insert_eq.
  - split; [done|split; [reflexivity|]]. by intros o (r & -> & [= <-]).
  - by apply record_ok_deliverable.
  - vm_compute. reflexivity.
Qed.

Lemma reach7 : sys_reachable written0 ccfg0 scfg0 y7.
Proof.
  destruct reach1 as (cp & Hcp & Hr). exists cp. split; [done|]. etrans; [exact Hr|]. clear cp Hcp Hr.
  apply (rtc_l _ _ _ _ (sys_connect written0 ccfg0 c1 cp0 ts1 [] false [] (start scfg0) [])).
  apply (rtc_l _ _ (mkSys c2 cp0 ts1 [mkConn [raw2] ∅] true [] (start scfg0) [])).
  { apply (sys_flush written0 ccfg0 (reconnect c1) c2 [raw2] cp0 ts1 [mkConn [] ∅] true [] (start scfg0) []).
    vm_compute. reflexivity. }
  apply (rtc_l _ _ (mkSys c2 cp0 ts1 [mkConn [] ({[k0]} ∪ ∅)] true [] w3 [])).
  { apply (sys_serve written0 ccfg0 7 c2 cp0 ts1 [] raw2 [] ∅ ({[k0]} ∪ ∅) [] true []
      (start scfg0) w3 []).
    unfold serve. rewrite (Unmarshal_MarshalRecord r0) by done. reflexivity. }
  eapply rtc_l.
  { apply (sys_seal written0 ccfg0 c2 cp0 ts1 [mkConn [] ({[k0]} ∪ ∅)] true [] w3 (mkWorld sp4 [[r0]] [] [r0]) []); [|done].
    apply (step_begin false (w_sp w3) [] [] [r0] [r0] sp4); [by right|reflexivity]. }
  eapply rtc_l.
  { apply (sys_seal written0 ccfg0 c2 cp0 ts1 [mkConn [] ({[k0]} ∪ ∅)] true [] _ w5 []); [|done].
    by apply (step_done false sp4 [] [r0] [] [] [r0] [r0]). }
  eapply rtc_l.
  { apply (sys_ack written0 ccfg0 (mkConn [] ({[k0]} ∪ ∅)) ({[k0]} ∪ ∅)); [by left|done]. }
  apply rtc_once, (sys_acked written0 ccfg0 ack6 c2 cp0 ts1 _ true [ack6] w5 []). by left.
Qed.

Lemma at_least_once_witness :
  (exists r, r ∈ [r0] /\ key_of r = k0 /\ rec_Offset r = 10) \/ (k0, 10) ∈ [].
Proof.
  apply (at_least_once written0 ccfg0 logged0_pos scfg0 y7 k0 10 reach7); [by exists r0|].
  apply Z.leb_le. vm_compute. reflexivity.
Defined.
Lemma tail_forgets_nothing_witness :
  (exists r, r ∈ w_durable (y_world y1) /\ key_of r = k0 /\ rec_Offset r = 10) \/
  (k0, 10) ∈ y_lost y1 \/
  exists e, e ∈ cl_unacked (y_client y1) /\ ev_sourceKey e = k0 /\ ev_offset e = 10.
Proof.
  apply (tail_forgets_nothing written0 ccfg0 logged0_pos scfg0 y1 k0 10 10 reach1).
  - vm_compute. reflexivity.
  - apply lookup_insert_eq.
  - by exists r0.
  - discriminate.
Defined.
(** Neither condition can be dropped.  A path that is not valid UTF-8 arrives as another
    path: the manager acknowledges a source the agent does not know. *)
Definition odd_path : LogRecord :=
  mkRecord (mkSource "n" (String (byte_of 255) "") 1 2 3) 10 5 "a" "web" "app" "n" "" "stdout" ∅ ∅ "m" ∅.
Definition arrives (r : LogRecord) : bool :=
  match MarshalRecord r with
  | Some raw => match UnmarshalRecord raw with Some r' => bool_decide (place_of r' = place_of r) | None => false end
  | None => true
  end.
Lemma deliverable_arrives r : deliverable r -> arrives r = true.
Proof.
  intros H. unfold arrives. destruct (MarshalRecord r) as [raw|] eqn:E; [|done].
  destruct (H raw E) as (r' & -> & Ep). by apply bool_decide_eq_true.
Qed.
Lemma odd_path_undeliverable : record_wf odd_path /\ ~ deliverable odd_path.
Proof.
  split; [apply (bool_decide_unpack _); vm_compute; exact I|].
  intros H%deliverable_arrives. vm_compute in H. discriminate H.
Qed.
(** A body nested so deep that it is JSON on its own but not inside the record: the agent
    sends it, and no manager can decode it. *)
Fixpoint nest (n : nat) (s : string) : string :=
  match n with O => s | S n => "[" +:+ nest n ("]" +:+ s) end.
Definition deep : LogRecord :=
  mkRecord (mkSource "n" "/p" 1 2 3) 10 5 "a" "web" "app" "n" "" "stdout" ∅ ∅ "m"
    (<["k" := nest (N.to_nat 9999) ""]> ∅).
Lemma deep_undeliverable : is_Some (MarshalRecord deep) /\ ~ deliverable deep.
Proof.
  split; [apply (bool_decide_unpack _); vm_compute; exact I|].
  intros H%deliverable_arrives. vm_compute in H. discriminate H.
Qed.
End Witness.
