(* ===== verification/Integrity.v ===== *)
(** What the system of Delivery holds comes from the log files: every line of JSON on its
    way is that of a record that was written, every accepted record is what such a line
    decodes to, and every checkpoint is at a record.  No code of its own. *)

From S2P Require Import Prelude GoStrings GoTime Model SegFormat SegWriter SegLayout.
From S2P Require Import SegRefine SegReader JsonStruct RecordJson SegToy Merge Cache Blobs Catalog StoreToy Store.
From S2P Require Import StoreOk Spool SpoolSafe Client Checkpoint Tailer Server Delivery.
Local Open Scope string_scope.
Local Open Scope list_scope.
Local Open Scope Z_scope.

Section Integrity.
Context {D : Type} `{Bolt D, JsonCodec}.
Context (written : LogRecord -> Prop) (ccfg : ClientConfig).
Abbreviation logged := (logged written).
Context (logged_pos : forall k o, logged (k, o) -> 0 < o < 2 ^ 63).

(** The JSON of a written record, and what such a line decodes to. *)
Definition genuine_raw (raw : string) : Prop := exists r, written r /\ MarshalRecord r = Some raw.
Definition genuine (r : LogRecord) : Prop := exists raw, genuine_raw raw /\ UnmarshalRecord raw = Some r.
(** Where a tail may start. *)
Definition at_record (k : string) (o : Z) : Prop := o = 0 \/ logged (k, o).

Record honest (y : sys D) : Prop := {
  ho_window e : e ∈ cl_unacked (y_client y) -> genuine_raw (ev_raw e) /\ logged (ev_place e);
  ho_pipes cn raw : cn ∈ y_conns y -> raw ∈ cn_pipe cn -> genuine_raw raw;
  ho_accepted r : r ∈ w_accepted (y_world y) -> genuine r;
  ho_cp k : at_record k (Get k (y_cp y));
  ho_acks ack k off : ack ∈ y_acks y -> (k, off) ∈ ack -> at_record k off
}.

Lemma commit_at_record calls (cp : D) :
  (forall k, at_record k (Get k cp)) ->
  (forall k off, (k, off) ∈ calls -> 0 <= off < 2 ^ 63 /\ at_record k off) ->
  forall k, at_record k (Get k (commit calls cp)).
Proof.
  revert cp; induction calls as [|[key off] calls IH]; intros cp Hcp Hc; [done|]. cbn.
  apply IH; [|intros k o Hin; apply Hc; by right]. intros k. destruct (Hc key off) as [Hr Ha]; [by left|].
  destruct (snd (Advance key off cp)) eqn:E; [|by rewrite Advance_failed].
  rewrite (Advance_get key off cp k) by (done || unfold in_int64; lia).
  destruct (decide (k = key)) as [->|]; [|done].
  destruct (Z.max_spec (Get key cp) off) as [[_ ->]|[_ ->]]; auto.
Qed.

Lemma honest_start cfg cp : (forall k, Get k cp = 0) -> honest (sys_start ccfg cfg cp).
Proof. intros Hcp. split; cbn; try (by intros ? ?%elem_of_nil); try (by intros ? ? ?%elem_of_nil);
  try (by intros ? ? ? ?%elem_of_nil). intros k. left. apply Hcp. Qed.

Lemma genuine_accept now r sp r' : snd (Accept now r sp) = Some r' -> r' = r.
Proof. unfold Accept. destruct (is_duplicate sp r); [done|]. by intros [= <-]. Qed.

Lemma honest_read p r c c' calls cp ts cs lv aks w lost :
  next_record written p r -> Enqueue r c = Enqueued c' calls ->
  honest (mkSys c cp ts cs lv aks w lost) ->
  honest (mkSys c' (commit calls cp) (<[key_of r := rec_Offset r]> ts) cs lv aks w (lost ++ calls)).
Proof.
  intros (Hw & _) E [Hwin Hp Ha Hcp Hk]. cbn in *.
  apply Enqueue_window in E as (raw & gone & rest & Em & _ & _ & Eu & Eu' & ->). rewrite Eu in Hwin.
  split; cbn; try done.
  - intros e. rewrite Eu'. intros [He| ->%list_elem_of_singleton]%elem_of_app; [apply Hwin; set_solver|].
    split; [by exists r|by apply written_logged].
  - apply commit_at_record; [done|]. intros k off (e & [= -> ->] & He)%list_elem_of_fmap.
    destruct (Hwin e) as [_ Hl]; [set_solver|]. split; [|by right]. apply logged_pos in Hl. lia.
Qed.

Lemma honest_flush c c' batch cp ts cs lv aks w lost :
  flush_batch c = (c', batch) -> honest (mkSys c cp ts cs lv aks w lost) ->
  honest (mkSys c' cp ts (if lv : bool then match cs with
                            | cn :: cs => mkConn (cn_pipe cn ++ batch) (cn_seen cn) :: cs
                            | [] => [] end else cs) lv aks w lost).
Proof.
  intros E [Hwin Hp Ha Hcp Hk]. destruct (flush_batch_spec c) as (pre & post & Eu & Ef & _). rewrite Ef in E.
  injection E as <- <-. cbn in *. rewrite Eu in Hwin. split; cbn; try done.
  - intros e [(e' & -> & He)%list_elem_of_fmap|He]%elem_of_app; [apply (Hwin e'); set_solver|apply Hwin; set_solver].
  - intros cn raw Hcn Hraw. destruct lv; [|by eapply Hp]. destruct cs as [|cn1 cs]; [by apply elem_of_nil in Hcn|].
    apply elem_of_cons in Hcn as [->|Hcn]; [|eapply Hp; [by right|done]]. cbn in Hraw.
    apply elem_of_app in Hraw as [Hraw|(e & -> & He)%list_elem_of_fmap]; [eapply Hp; [by left|done]|].
    apply Hwin. apply elem_of_app. left. apply list_elem_of_In in He. apply filter_In, proj1, list_elem_of_In in He. done.
Qed.

Lemma honest_serve now c cp ts cs1 raw pipe seen seen' cs2 lv aks w w' lost :
  serve now raw w seen = (w', seen') -> honest (mkSys c cp ts (cs1 ++ mkConn (raw :: pipe) seen :: cs2) lv aks w lost) ->
  honest (mkSys c cp ts (cs1 ++ mkConn pipe seen' :: cs2) lv aks w' lost).
Proof.
  intros E [Hwin Hp Ha Hcp Hk]. cbn in *.
  assert (Hg : genuine_raw raw) by (apply (Hp (mkConn (raw :: pipe) seen)); [set_solver|by left]).
  assert (Hp' : forall cn raw', cn ∈ cs1 ++ mkConn pipe seen' :: cs2 -> raw' ∈ cn_pipe cn -> genuine_raw raw').
  { intros cn raw' [Hcn|[->|Hcn]%elem_of_cons]%elem_of_app Hr; [|apply (Hp (mkConn (raw :: pipe) seen)); [set_solver|by right]|];
      (eapply Hp; [|exact Hr]; set_solver). }
  unfold serve in E. destruct (UnmarshalRecord raw) as [r|] eqn:Eu; injection E as <- <-; [|by split].
  split; cbn; try done. intros r' Hr'. destruct (snd (Accept now r (w_sp w))) as [x|] eqn:Ex; [|by apply Ha].
  apply genuine_accept in Ex as ->. apply elem_of_app in Hr' as [?| ->%list_elem_of_singleton]; [by apply Ha|]. by exists raw.
Qed.

(** Committed offsets are those of durable records. *)
Lemma committed_at_record y k off : sys_inv written y ->
  Committed (w_sp (y_world y)) !! k = Some off -> at_record k off.
Proof.
  intros Hy Hc. unfold Committed in Hc.
  destruct (inv_committed _ (si_world _ y Hy) k) as [E|(d & Hd & Ek & Eo)]; rewrite Hc in *; cbn in *; [by left|].
  right. assert (Hl : logged (place_of d)) by (apply (si_accepted _ y Hy), (inv_kept _ (si_world _ y Hy)); by left).
  unfold place_of in Hl. by rewrite Ek, Eo in Hl.
Qed.

Lemma honest_break c cp ts cs1 pipe gone seen cs2 lv lv' aks w lost :
  honest (mkSys c cp ts (cs1 ++ mkConn (pipe ++ gone) seen :: cs2) lv aks w lost) ->
  honest (mkSys c cp ts (cs1 ++ mkConn pipe seen :: cs2) lv' aks w lost).
Proof.
  intros [Hwin Hp Ha Hcp Hk]. split; try done. cbn in *. intros cn raw Hcn Hr.
  apply elem_of_app in Hcn as [Hcn|[->|Hcn]%elem_of_cons].
  - apply (Hp cn); [set_solver|done].
  - apply (Hp (mkConn (pipe ++ gone) seen)); [set_solver|]. apply elem_of_app. by left.
  - apply (Hp cn); [set_solver|done].
Qed.

Lemma honest_step y y' : sys_step written ccfg y y' -> sys_inv written y -> honest y -> honest y'.
Proof.
  intros Hs Hi Hh. revert Hi Hh. destruct Hs; intros Hi Hh; pose proof Hh as [Hwin Hp Ha Hcp Hk];
    eauto using honest_read, honest_flush, honest_serve, honest_break; try (by split); split; cbn in *; try done.
  - intros e (e' & -> & He)%list_elem_of_fmap. by apply (Hwin e').
  - intros cn raw [->|Hcn]%elem_of_cons Hr; [by apply elem_of_nil in Hr|by eapply Hp].
  - by intros e ?%elem_of_nil.
  - intros ack k off [Hin| ->%list_elem_of_singleton]%elem_of_app Hko; [by eapply Hk|].
    apply elem_of_buildAck in Hko as [_ Hc]. by apply (committed_at_record _ k off Hi).
  - intros e He. apply Hwin. apply list_elem_of_In in He. by apply filter_In, proj1, list_elem_of_In in He.
  - apply (commit_at_record ack cp Hcp). intros k off Hin. split; [|by eapply Hk].
    by apply (si_acks _ _ Hi ack k off).
  - intros r Hr. apply Ha. congruence.
  - by intros cn raw ?%elem_of_nil.
  - intros r Hr. apply Ha, (inv_kept _ (si_world _ _ Hi)). by left.
Qed.
Lemma reachable_honest cfg y : sys_reachable written ccfg cfg y -> honest y.
Proof.
  intros (cp & Hcp & Hr). pose proof (honest_start cfg cp Hcp) as Hh.
  pose proof (sys_inv_start written ccfg logged_pos cfg cp Hcp) as Hi. revert Hi Hh.
  induction Hr as [y|y1 y2 y3 Hs _ IH]; [done|]. intros Hi Hh.
  apply IH; [by eapply sys_step_inv|by eapply honest_step].
Qed.

End Integrity.
