(* ===== verification/Session.v ===== *)
(** internal/ingest/client.go and server.go: the goroutines of a connection.  The client's
    [Run] with its sessions, the reader of acks, the server's stream and its ack loop are
    threads that take one step at a time: a critical section, or a call whose outcome the
    environment decides.  They share the client's window, which the tails fill, the
    connections, and on the server's side the sources seen on a stream. *)

From S2P Require Import Prelude GoStrings GoTime Model SegFormat SegWriter RecordJson SegToy Merge.
From S2P Require Import Catalog StoreToy Spool SpoolSafe Client Checkpoint Tailer Server Delivery.
Local Open Scope string_scope.
Local Open Scope list_scope.
Local Open Scope Z_scope.

(** ** The client's goroutine: [Run], [session], [sessionConn] and [sendLoop] *)

(** Where it stands: before [ctx.Err], dialling, opening the stream, before marking the
    window unsent, before collecting a batch, sending one, in the [select], waiting for the
    backoff, returned. *)
Inductive run_pc :=
| RunTop | DialPc | OpenPc | ResetPc | CollectPc | SendPc (batch : list string) | SelectPc | BackoffPc | RunDone.

#[export] Instance run_pc_eq_dec : EqDecision run_pc.
Proof. solve_decision. Defined.

(** What happens to it: the outcome of [ctx.Err], of a call, the lock taken, or the case a
    [select] takes. *)
Inductive run_input :=
| CtxErr (done : bool) | CallDone (ok : bool) | Locked | Ticked | Notified | CtxDone.

(** [session] fails in every way it can end, so [Run] always waits for the backoff. *)
Definition run_thread (i : run_input) (pc : run_pc) (c : Client) : option (run_pc * Client) :=
  match pc, i with
  | RunTop, CtxErr done => Some (if done then RunDone else DialPc, c)
  | DialPc, CallDone ok => Some (if ok then OpenPc else BackoffPc, c)
  | OpenPc, CallDone ok => Some (if ok then ResetPc else BackoffPc, c)
  | ResetPc, Locked => Some (CollectPc, reconnect c)
  | CollectPc, Locked =>
      let '(c, batch) := flush_batch c in
      Some (match batch with [] => SelectPc | _ => SendPc batch end, c)
  | SendPc _, CallDone ok => Some (if ok then CollectPc else BackoffPc, c)
  | SelectPc, CtxDone => Some (BackoffPc, c)
  | SelectPc, Ticked => Some (CollectPc, c)
  | SelectPc, Notified => if cl_notify c then Some (CollectPc, take_notify c) else None
  | BackoffPc, CtxDone => Some (RunDone, c)
  | BackoffPc, Ticked => Some (RunTop, c)
  | _, _ => None
  end.

(** ** The server's goroutines: [Stream] and its ack loop *)

(** [Stream]: in [Recv], before a record of the batch or the ack after the last, before
    marking a source as seen, sending an ack, returned. *)
Inductive stream_pc :=
| RecvPc | EachPc (batch : list string) | MarkPc (key : string) (batch : list string)
| AckPc (ack : commits) | StreamDone.
Inductive stream_input := Received (batch : list string) | RecvFailed | StreamLocked | AckSent (ok : bool).

(** What a step of the server does beyond its own state: a record handed to
    [Receiver.Accept], or an ack sent. *)
Inductive stream_effect := Nothing | Accepts (r : LogRecord) | Sends (ack : commits).

(** The ack loop: waiting for a tick, sending an ack, returned. *)
Inductive ack_pc := TickPc | AckTickPc (ack : commits) | TickDone.
Inductive ack_input := AckTick | StreamEnds | TickSent (ok : bool).

Section Server.
Context `{JsonCodec}.

(** [Stream]; [committed] is the receiver's snapshot at the time of the step. *)
Definition stream_thread (committed : gmap string Z) (i : stream_input) (pc : stream_pc) (seen : gset string) :
    option (stream_pc * gset string * stream_effect) :=
  match pc, i with
  | RecvPc, Received batch => Some (EachPc batch, seen, Nothing)
  | RecvPc, RecvFailed => Some (StreamDone, seen, Nothing)
  | EachPc (raw :: batch), StreamLocked =>
      match UnmarshalRecord raw with
      | None => Some (EachPc batch, seen, Nothing)
      | Some rec => Some (MarkPc (Key (rec_Source rec)) batch, seen, Accepts rec)
      end
  | MarkPc key batch, StreamLocked => Some (EachPc batch, {[key]} ∪ seen, Nothing)
  | EachPc [], StreamLocked =>
      match buildAck seen committed with
      | [] => Some (RecvPc, seen, Nothing)
      | ack => Some (AckPc ack, seen, Nothing)
      end
  | AckPc ack, AckSent ok => Some (if ok then RecvPc else StreamDone, seen, if ok then Sends ack else Nothing)
  | _, _ => None
  end.

(** The ack loop of [Stream]. *)
Definition ack_thread (committed : gmap string Z) (i : ack_input) (pc : ack_pc) (seen : gset string) :
    option (ack_pc * stream_effect) :=
  match pc, i with
  | TickPc, AckTick =>
      match buildAck seen committed with
      | [] => Some (TickPc, Nothing)
      | ack => Some (AckTickPc ack, Nothing)
      end
  | TickPc, StreamEnds => Some (TickDone, Nothing)
  | AckTickPc ack, TickSent ok => Some (if ok then TickPc else TickDone, if ok then Sends ack else Nothing)
  | _, _ => None
  end.

End Server.

(** ** Threads that run alone *)

(** The client's thread given its inputs, with the batches it sends. *)
Fixpoint run_alone (ins : list run_input) (pc : run_pc) (c : Client) : option (run_pc * Client * list (list string)) :=
  match ins with
  | [] => Some (pc, c, [])
  | i :: ins =>
      '(pc', c') ← run_thread i pc c;
      '(pc'', c'', sent) ← run_alone ins pc' c';
      Some (pc'', c'', match pc, i with SendPc batch, CallDone true => batch :: sent | _, _ => sent end)
  end.
(** The inputs of a flush whose first sends succeed. *)
Definition flush_inputs (sent : list (list string)) (ok : bool) : list run_input :=
  List.concat ((fun _ => [Locked; CallDone true]) <$> sent) ++ Locked :: (if ok then [] else [CallDone false]).

(** C30: the client's thread sends what the reference cuts.  From the point where it
    collects, stepped without interference through the inputs of a run in which at most [n]
    sends succeed, it sends the first [n] of the batches the unsent raw records make when
    cut at the byte limit beforehand, marks their envelopes and those of the batch whose
    send fails, and ends in the select, or in the backoff if a send failed. *)
Theorem flush_thread n c :
  let '(c', sent, ok) := flush_ref n c in
  run_alone (flush_inputs sent ok) CollectPc c = Some (if ok then SelectPc else BackoffPc, c', sent).
Proof.
  revert c; induction n as [|n IH]; intros c; destruct (flush_batch c) as [c1 [|raw batch]] eqn:E.
  1, 3: destruct (flush_batch_spec c) as (pre & post & Ec & Ef & Hn); rewrite Ef in E; injection E as E1 Eb;
    apply fmap_nil_inv in Eb; rewrite flush_ref_nil by auto;
    cbn; rewrite Ef, Eb; cbn; by rewrite (unsent_none pre Eb), <- Ec; destruct c.
  - destruct (flush_ref_cons 0 c c1 raw batch E) as (-> & _). cbn. by rewrite E.
  - destruct (flush_ref_cons n c c1 raw batch E) as (_ & -> & _). specialize (IH c1).
    destruct (flush_ref n c1) as [[c' sent] ok]. unfold flush_inputs in *. cbn. rewrite E. cbn. by rewrite IH.
Qed.

(** The server's thread between receiving a batch and the ack, over a receiver that nobody
    else uses. *)
Section Alone.
Context {R : Type} `{Receiver R, JsonCodec} (now : Time).
Definition stream_alone (x : stream_pc * R * gset string) : stream_pc * R * gset string :=
  let '(pc, s, seen) := x in
  match stream_thread (rcv_Committed s) StreamLocked pc seen with
  | Some (pc', seen', eff) =>
      (pc', match eff with Accepts r => rcv_Accept now r s | _ => s end, seen')
  | None => x
  end.

Lemma stream_alone_records batch s seen : exists k,
  Nat.iter k stream_alone (EachPc batch, s, seen) =
    let '(s', seen') := foldl (serve_record now) (s, seen) batch in (EachPc [], s', seen').
Proof.
  revert s seen; induction batch as [|raw batch IH]; intros s seen; [by exists 0%nat|]. cbn [foldl].
  unfold serve_record at 2. cbn [fst snd]. destruct (UnmarshalRecord raw) as [r|] eqn:E.
  - destruct (IH (rcv_Accept now r s) ({[Key (rec_Source r)]} ∪ seen)) as (k & Ek).
    exists (k + 2)%nat. rewrite Nat.iter_add. cbn [Nat.iter]. unfold stream_alone at 2. cbn. by rewrite E.
  - destruct (IH s seen) as (k & Ek). exists (k + 1)%nat. rewrite Nat.iter_add. cbn [Nat.iter].
    unfold stream_alone at 2. cbn. by rewrite E.
Qed.
(** Alone, the thread does what [Stream_batch] says. *)
Lemma stream_thread_batch batch s seen : exists k,
  Nat.iter k stream_alone (EachPc batch, s, seen) =
    let '((s', seen'), out) := Stream_batch now batch (s, seen) in
    (match out with Some ack => AckPc ack | None => RecvPc end, s', seen').
Proof.
  destruct (stream_alone_records batch s seen) as (k & Ek). exists (1 + k)%nat. rewrite Nat.iter_add, Ek.
  unfold Stream_batch. destruct (foldl _ _ _) as [s' seen']. cbn. by destruct (buildAck _ _).
Qed.
Lemma ack_thread_tick s seen :
  ack_thread (rcv_Committed s) AckTick TickPc seen =
    Some (match Stream_tick (s, seen) with Some ack => AckTickPc ack | None => TickPc end, Nothing).
Proof. unfold Stream_tick. cbn. by destruct (buildAck _ _). Qed.
End Alone.

(** ** The agent, its connections and the server's streams *)

(** A connection: what is in transit to the server and to the agent, whether the agent has
    closed its end, whether the server receives nothing more, whether the reader of acks
    runs, whether the session's context is cancelled, and the server's threads. *)
Record link := mkLink {
  lk_up : list (list string); lk_down : list commits; lk_closed : bool; lk_broken : bool;
  lk_reader : bool; lk_cancelled : bool;
  lk_stream : stream_pc; lk_ack : ack_pc; lk_seen : gset string
}.
Definition new_link : link := mkLink [] [] false false true false RecvPc TickPc ∅.
Definition close_link (lk : link) : link :=
  mkLink (lk_up lk) (lk_down lk) true (lk_broken lk) (lk_reader lk) true (lk_stream lk) (lk_ack lk) (lk_seen lk).
Definition push_up (batch : list string) (lk : link) : link :=
  mkLink (if lk_broken lk then lk_up lk else lk_up lk ++ [batch]) (lk_down lk) (lk_closed lk) (lk_broken lk)
    (lk_reader lk) (lk_cancelled lk) (lk_stream lk) (lk_ack lk) (lk_seen lk).
(** The connection loses the ends of what is in transit. *)
Definition cut_link (up : list (list string)) (down : list commits) (lk : link) : link :=
  mkLink up down (lk_closed lk) true (lk_reader lk) (lk_cancelled lk) (lk_stream lk) (lk_ack lk) (lk_seen lk).
Definition with_down (down : list commits) (lk : link) : link :=
  mkLink (lk_up lk) down (lk_closed lk) (lk_broken lk) (lk_reader lk) (lk_cancelled lk)
    (lk_stream lk) (lk_ack lk) (lk_seen lk).
(** The reader of acks fails, and cancels the session. *)
Definition end_reader (lk : link) : link :=
  mkLink (lk_up lk) (lk_down lk) (lk_closed lk) (lk_broken lk) false true (lk_stream lk) (lk_ack lk) (lk_seen lk).
(** The agent's process ends; the server's does. *)
Definition agent_gone (lk : link) : link :=
  mkLink (lk_up lk) (lk_down lk) true (lk_broken lk) false true (lk_stream lk) (lk_ack lk) (lk_seen lk).
Definition server_gone (lk : link) : link :=
  mkLink [] (lk_down lk) (lk_closed lk) true (lk_reader lk) (lk_cancelled lk) StreamDone TickDone (lk_seen lk).

Definition sent_ack (eff : stream_effect) (down : list commits) : list commits :=
  match eff with Sends ack => down ++ [ack] | _ => down end.
(** The stream's thread has made a step; a stream that returns ends the connection. *)
Definition stream_moved (i : stream_input) (pc : stream_pc) (seen : gset string) (eff : stream_effect) (lk : link) : link :=
  mkLink (match pc with StreamDone => [] | _ => match i with Received _ => tail (lk_up lk) | _ => lk_up lk end end)
    (sent_ack eff (lk_down lk)) (lk_closed lk) (match pc with StreamDone => true | _ => lk_broken lk end)
    (lk_reader lk) (lk_cancelled lk) pc (lk_ack lk) seen.
Definition ack_moved (pc : ack_pc) (eff : stream_effect) (lk : link) : link :=
  mkLink (lk_up lk) (sent_ack eff (lk_down lk)) (lk_closed lk) (lk_broken lk) (lk_reader lk) (lk_cancelled lk)
    (lk_stream lk) pc (lk_seen lk).

(** The agent and its connections; a tail is of some type [T].  [n_ctx]: the agent was told
    to end.  The first connection is the latest. *)
Record net (D T : Type) := mkNet {
  n_client : Client; n_cp : D; n_tails : gmap string T; n_lost : list place;
  n_run : run_pc; n_ctx : bool; n_links : list link
}.
Arguments mkNet {D T} _ _ _ _ _ _ _.
Arguments n_client {D T} _.
Arguments n_cp {D T} _.
Arguments n_tails {D T} _.
Arguments n_lost {D T} _.
Arguments n_run {D T} _.
Arguments n_ctx {D T} _.
Arguments n_links {D T} _.

(** What a step of the client's thread does to the connections: a new one, a batch on the
    latest, its end at the end of a session. *)
Definition run_links (pc : run_pc) (i : run_input) (lks : list link) : list link :=
  match pc, i, lks with
  | OpenPc, CallDone true, _ => new_link :: lks
  | SendPc batch, CallDone true, lk :: lks => push_up batch lk :: lks
  | SendPc _, CallDone false, lk :: lks => close_link lk :: lks
  | SelectPc, CtxDone, lk :: lks => close_link lk :: lks
  | _, _, _ => lks
  end.
(** When an input can happen. *)
Definition run_enabled (pc : run_pc) (i : run_input) (ctx : bool) (lks : list link) : Prop :=
  match pc, i with
  | RunTop, CtxErr done => done = ctx
  | SelectPc, CtxDone => ctx = true \/ lk_cancelled <$> head lks = Some true
  | BackoffPc, CtxDone => ctx = true
  | _, _ => True
  end.
Definition stream_enabled (i : stream_input) (lk : link) : Prop :=
  match i with
  | Received batch => head (lk_up lk) = Some batch
  | RecvFailed => lk_up lk = [] /\ (lk_broken lk = true \/ lk_closed lk = true)
  | _ => True
  end.
Definition ack_enabled (i : ack_input) (lk : link) : Prop :=
  match i with StreamEnds => lk_broken lk = true \/ lk_closed lk = true | _ => True end.

(** [Tailer.Run] returns, and with it [main], once every tail has ended. *)
Definition tails_done {D T} (n : net D T) : Prop := n_ctx n = true /\ n_tails n = ∅.

(** ** Tails

    What the rest of the agent asks of its tails: how they move, using the window, the
    checkpoint and the places given up, and the record a tail is in [Enqueue] with. *)

Abbreviation shared D T := (Client * D * gmap string T * list place)%type.
Class Tails (D T : Type) := {
  tl_step : shared D T -> shared D T -> Prop;
  tl_offer : T -> option LogRecord
}.
(** They offer records of the log files, touch the window by [Enqueue] only, and a tail
    whose [Enqueue] has to wait stays where it is. *)
Class TailsLaws {D T : Type} `{JsonCodec, TL : !Tails D T} (written : LogRecord -> Prop)
    (tl_ok : gmap string T -> Prop) : Prop := {
  tl_ok_empty : tl_ok ∅;
  tl_step_ok c cp ts lost c' cp' ts' lost' : tl_step (c, cp, ts, lost) (c', cp', ts', lost') -> tl_ok ts ->
    tl_ok ts' /\ (c' = c \/ exists r calls, written r /\ Enqueue r c = Enqueued c' calls);
  tl_offer_written ts k x r : tl_ok ts -> ts !! k = Some x -> tl_offer x = Some r -> written r;
  tl_step_waits c cp ts lost c' cp' ts' lost' k x r :
    tl_step (c, cp, ts, lost) (c', cp', ts', lost') -> tl_ok ts ->
    ts !! k = Some x -> tl_offer x = Some r -> Enqueue r c = Waits -> ts' !! k = Some x
}.

(** Tails as places: one is at an offset, and may be in [Enqueue] with the next record. *)
Section Places.
Context {D : Type} `{Bolt D, JsonCodec} (written : LogRecord -> Prop).
Abbreviation tails := (gmap string (Z * option LogRecord)).

(** One starts at the checkpoint, reads its next record, gets it into the window or gives it
    up, and ends. *)
Inductive tail_step : shared D (Z * option LogRecord) -> shared D (Z * option LogRecord) -> Prop :=
| tail_start k c cp ts lost :
    ts !! k = None -> tail_step (c, cp, ts, lost) (c, cp, <[k := (Get k cp, None)]> ts, lost)
| tail_read p r c cp ts lost :
    ts !! key_of r = Some (p, None) -> next_record written p r ->
    tail_step (c, cp, ts, lost) (c, cp, <[key_of r := (p, Some r)]> ts, lost)
| tail_enqueued p r c c' calls cp ts lost :
    ts !! key_of r = Some (p, Some r) -> Enqueue r c = Enqueued c' calls ->
    tail_step (c, cp, ts, lost) (c', commit calls cp, <[key_of r := (rec_Offset r, None)]> ts, lost ++ calls)
| tail_no_json p r c cp ts lost :
    ts !! key_of r = Some (p, Some r) -> Enqueue r c = MarshalFailed ->
    tail_step (c, cp, ts, lost) (c, cp, <[key_of r := (rec_Offset r, None)]> ts, lost ++ [place_of r])
| tail_canceled p r c cp ts lost :
    ts !! key_of r = Some (p, Some r) -> Enqueue r c = Canceled ->
    tail_step (c, cp, ts, lost) (c, cp, <[key_of r := (rec_Offset r, None)]> ts, lost)
| tail_exit k p c cp ts lost :
    ts !! k = Some (p, None) -> tail_step (c, cp, ts, lost) (c, cp, delete k ts, lost).
#[export] Instance place_tails : Tails D (Z * option LogRecord) := { tl_step := tail_step; tl_offer := snd }.

Definition offered (ts : tails) : Prop :=
  map_Forall (fun k x => forall r, snd x = Some r -> written r /\ key_of r = k) ts.
#[export] Instance place_tails_laws : TailsLaws written offered.
Proof.
  split.
  - apply map_Forall_empty.
  - intros c cp ts lost c' cp' ts' lost' Ht Ho.
    assert (Hn : forall k p, offered (<[k := (p, None)]> ts)) by (intros k p; by apply map_Forall_insert_2).
    inversion Ht as [|p r ? ? ? ? Ek [Hr Hn']|p r ? ? calls ? ? ? Ek Ee| | |]; subst; split; auto.
    + apply map_Forall_insert_2; [|done]. by intros r' [= <-].
    + right. exists r, calls. split; [|done]. by apply (Ho _ _ Ek).
    + by apply map_Forall_delete.
  - intros ts k x r Ho Ek Er. by apply (Ho k x Ek).
  - intros c cp ts lost c' cp' ts' lost' k [p x] r Hs Ho Ht Er Hw. cbn in Er. subst x.
    assert (Hk : forall p' r' x, ts !! key_of r' = Some (p', Some r') -> Enqueue r' c <> Waits ->
      <[key_of r' := x]> ts !! k = Some (p, Some r)).
    { intros p' r' x Ek Hne. rewrite lookup_insert_ne; [done|]. intros <-. rewrite Ek in Ht. by simplify_eq. }
    inversion Hs as [? ? ? ? ? Ek|p' r' ? ? ? ? Ek|p' r' ? ? calls ? ? ? Ek Ee|p' r' ? ? ? ? Ek Ee|p' r' ? ? ? ? Ek Ee|? ? ? ? ? ? Ek];
      subst; try (eapply Hk; [done|congruence]).
    + rewrite lookup_insert_ne; [done|congruence].
    + rewrite lookup_insert_ne; [done|congruence].
    + rewrite lookup_delete_ne; [done|congruence].
Qed.
End Places.

(** ** The steps *)

Section Net.
Context {D T : Type} `{Bolt D, JsonCodec, TL : !Tails D T} (ccfg : ClientConfig).
Abbreviation offers := (list (Time * LogRecord)).

(** A connection: the server's threads, the end of the reader of acks, and its breaking.
    [committed] is what the spool has committed, and the list has the record handed to it. *)
Inductive link_step (committed : gmap string Z) : link -> offers -> link -> Prop :=
| link_stream now i pc' seen' eff lk :
    stream_thread committed i (lk_stream lk) (lk_seen lk) = Some (pc', seen', eff) -> stream_enabled i lk ->
    link_step committed lk (match eff with Accepts r => [(now, r)] | _ => [] end) (stream_moved i pc' seen' eff lk)
| link_ack i pc' eff lk :
    ack_thread committed i (lk_ack lk) (lk_seen lk) = Some (pc', eff) -> ack_enabled i lk ->
    link_step committed lk [] (ack_moved pc' eff lk)
| link_reader_ends lk :
    lk_reader lk = true -> lk_broken lk = true \/ lk_closed lk = true -> link_step committed lk [] (end_reader lk)
| link_cut up gone down gone' lk :
    lk_up lk = up ++ gone -> lk_down lk = down ++ gone' -> link_step committed lk [] (cut_link up down lk).

(** A step of any of these, of the client's thread, of a reader that applies an ack, or of
    the agent's process: it is told to end, closes its client, dies and starts again. *)
Inductive net_step (committed : gmap string Z) : net D T -> offers -> net D T -> Prop :=
| net_tail c cp ts lost c' cp' ts' lost' pc ctx lks :
    tl_step (c, cp, ts, lost) (c', cp', ts', lost') ->
    net_step committed (mkNet c cp ts lost pc ctx lks) [] (mkNet c' cp' ts' lost' pc ctx lks)
| net_run_step i pc' c' c cp ts lost pc ctx lks :
    run_thread i pc c = Some (pc', c') -> run_enabled pc i ctx lks ->
    net_step committed (mkNet c cp ts lost pc ctx lks) [] (mkNet c' cp ts lost pc' ctx (run_links pc i lks))
| net_acked ack down lks1 lk lks2 c cp ts lost pc ctx :
    lk_reader lk = true -> lk_down lk = ack :: down ->
    net_step committed (mkNet c cp ts lost pc ctx (lks1 ++ lk :: lks2)) []
      (mkNet (fst (applyAck ack c)) (commit (snd (applyAck ack c)) cp) ts lost pc ctx (lks1 ++ with_down down lk :: lks2))
| net_link new lk' lks1 lk lks2 c cp ts lost pc ctx :
    link_step committed lk new lk' ->
    net_step committed (mkNet c cp ts lost pc ctx (lks1 ++ lk :: lks2)) new
      (mkNet c cp ts lost pc ctx (lks1 ++ lk' :: lks2))
| net_cancel c cp ts lost pc ctx lks :
    net_step committed (mkNet c cp ts lost pc ctx lks) [] (mkNet c cp ts lost pc true lks)
| net_close c cp ts lost pc ctx lks :
    tails_done (mkNet c cp ts lost pc ctx lks) ->
    net_step committed (mkNet c cp ts lost pc ctx lks) [] (mkNet (ClientClose c) cp ts lost pc ctx lks)
| net_restart c cp ts lost pc ctx lks :
    net_step committed (mkNet c cp ts lost pc ctx lks) []
      (mkNet (NewClient ccfg) cp ∅ lost RunTop false (agent_gone <$> lks)).

(** The manager's process ends. *)
Definition manager_gone (n : net D T) : net D T :=
  mkNet (n_client n) (n_cp n) (n_tails n) (n_lost n) (n_run n) (n_ctx n) (server_gone <$> n_links n).
Definition net_start (cp : D) : net D T := mkNet (NewClient ccfg) cp ∅ [] RunTop false [].

(** Whatever the manager does meanwhile. *)
Definition net_move (n n' : net D T) : Prop :=
  (exists committed new, net_step committed n new n') \/ n' = manager_gone n.
Definition net_reachable (n : net D T) : Prop := exists cp, rtc net_move (net_start cp) n.

(** ** Signals are not lost *)

Lemma net_reachable_ind (P : net D T -> Prop) :
  (forall cp, P (net_start cp)) ->
  (forall committed n new n', P n -> net_step committed n new n' -> P n') -> (forall n, P n -> P (manager_gone n)) ->
  forall n, net_reachable n -> P n.
Proof.
  intros H1 H2 H3 n (cp & Hr). pose proof (H1 cp) as Hp. revert Hp.
  induction Hr as [|n1 n2 n3 [(committed & new & Hs)| ->] _ IH]; eauto.
Qed.

Lemma Enqueue_notifies r c c' calls : Enqueue r c = Enqueued c' calls -> cl_notify c' = true.
Proof.
  unfold Enqueue. destruct (MarshalRecord r); [|done]. destruct (_ && _).
  - destruct (_ <? _); [|done]. destruct (dropOldestLocked c). by intros [= <- _].
  - destruct (cl_closed c); [done|]. by intros [= <- _].
Qed.
Lemma unsent_filter f l : unsent l = [] -> unsent (List.filter f l) = [].
Proof.
  unfold unsent. induction l as [|e l IH]; [done|]. cbn. destruct (ev_sent e) eqn:Es; [|done]. cbn.
  intros Hl. destruct (f e); cbn; rewrite ?Es; cbn; by apply IH.
Qed.

(** The window has nothing unsent, or the signal is there. *)
Definition awake (c : Client) : Prop := unsent (cl_unacked c) = [] \/ cl_notify c = true.

Lemma run_thread_awake i pc c c' :
  run_thread i pc c = Some (SelectPc, c') -> awake c'.
Proof.
  intros E. destruct pc, i; cbn in E; try done; try (by destruct done); try (by destruct ok).
  - destruct (flush_batch_spec c) as (pre & post & Eu & Ef & Hn). rewrite Ef in E. left.
    destruct (unsent pre) as [|e b] eqn:Eb; [|done]. injection E as <-. cbn.
    specialize (Hn eq_refl). rewrite Eu, unsent_app, Eb in Hn. by rewrite unsent_app, unsent_set_sent.
  - by destruct (cl_notify c).
Qed.

Section Laws.
Context (written : LogRecord -> Prop) (tl_ok : gmap string T -> Prop) `{!TailsLaws written tl_ok}.

Lemma net_step_tails committed n new n' : tl_ok (n_tails n) -> net_step committed n new n' -> tl_ok (n_tails n').
Proof.
  intros Hk Hs. revert Hk. destruct Hs as [? ? ? ? ? ? ? ? ? ? ? Ht| | | | | |]; intros Hk; cbn in *; try done.
  - by destruct (tl_step_ok _ _ _ _ _ _ _ _ Ht Hk).
  - apply tl_ok_empty.
Qed.
Lemma net_step_awake committed n new n' : tl_ok (n_tails n) -> (n_run n = SelectPc -> awake (n_client n)) ->
  net_step committed n new n' -> n_run n' = SelectPc -> awake (n_client n').
Proof.
  intros Hk Ha Hs. revert Hk Ha. destruct Hs as [? ? ? ? ? ? ? ? ? ? ? Ht| | | | | |];
    intros Hk Ha Hs; cbn in *; auto; try done.
  - destruct (tl_step_ok _ _ _ _ _ _ _ _ Ht Hk) as [_ [->|(r & calls & _ & E)]]; [auto|].
    right. by eapply Enqueue_notifies.
  - subst pc'. by eapply run_thread_awake.
  - destruct (Ha Hs); [left; by apply unsent_filter|by right].
Qed.
Lemma reachable_tails n : net_reachable n -> tl_ok (n_tails n).
Proof.
  revert n. apply net_reachable_ind; [intros; apply tl_ok_empty|by intros; eapply net_step_tails|by intros []].
Qed.
Lemma reachable_awake n : net_reachable n -> n_run n = SelectPc -> awake (n_client n).
Proof.
  intros Hr. cut (tl_ok (n_tails n) /\ (n_run n = SelectPc -> awake (n_client n))); [by intros []|].
  pattern n. revert n Hr. apply net_reachable_ind; [split; [apply tl_ok_empty|done]| |by intros []].
  intros committed n new n' [Hk Ha] Hs. split; [by eapply net_step_tails|by eapply net_step_awake].
Qed.

(** C7: the sending thread misses no signal.  In every state the threads can reach, a
    client thread that waits in its [select] while the window holds records not sent on
    this connection has a signal that makes it send them: [notify] has one place and
    [wake] does not block, yet no interleaving of [Enqueue], [flush], acks and reconnects
    loses a wake-up. *)
Theorem no_lost_wakeup n :
  net_reachable n -> n_run n = SelectPc -> unsent (cl_unacked (n_client n)) <> [] ->
  run_thread Notified SelectPc (n_client n) = Some (CollectPc, take_notify (n_client n)).
Proof.
  intros Hr Hs Hu. destruct (reachable_awake n Hr Hs) as [?|E]; [done|]. cbn. by rewrite E.
Qed.

(** ** Shutdown with a full window

    [main] closes the client only after [Tailer.Run] has returned, which waits for tails
    that wait in [Enqueue]. *)

Section Shutdown.
Abbreviation room := (HardMaxBytes (client_defaults ccfg) - MaxHeldBytes (client_defaults ccfg)).
Context (Hcaps : caps_ok ccfg).
Context (Hsmall : forall r raw, written r -> MarshalRecord r = Some raw -> Z.of_nat (slen raw) <= room).

Record bounded (n : net D T) : Prop := {
  bo_window : window_ok ccfg (n_client n);
  bo_offers : tl_ok (n_tails n)
}.

Lemma run_thread_window i pc c pc' c' :
  run_thread i pc c = Some (pc', c') -> window_ok ccfg c -> window_ok ccfg c'.
Proof.
  intros E Hw. destruct pc, i; cbn in E; try (by simplify_eq).
  - simplify_eq. exact (client_step_ok ccfg c _ _ Hcaps (client_reconnect _ c) Hw).
  - pose proof (client_step_ok ccfg c _ _ Hcaps (client_flush _ c) Hw) as Hf.
    destruct (flush_batch c) as [c1 b]. by simplify_eq.
  - destruct (cl_notify c); [|done]. simplify_eq. by destruct Hw.
Qed.
Lemma enqueue_window r c c' calls : written r ->
  Enqueue r c = Enqueued c' calls -> window_ok ccfg c -> window_ok ccfg c'.
Proof.
  intros Hr E. apply (client_step_ok ccfg c c' calls Hcaps). apply (client_enqueue _ r); [|done].
  intros raw. by apply Hsmall.
Qed.
Lemma new_window_ok : window_ok ccfg (NewClient ccfg).
Proof.
  split; cbn [NewClient cl_cfg cl_unacked cl_heldByte cl_dropped]; try done.
  pose proof (soft_pos ccfg). change (window_size []) with 0. lia.
Qed.

Lemma tails_window c cp ts lost c' cp' ts' lost' : tl_step (c, cp, ts, lost) (c', cp', ts', lost') ->
  window_ok ccfg c -> tl_ok ts -> window_ok ccfg c' /\ tl_ok ts'.
Proof.
  intros Ht Hw Ho. destruct (tl_step_ok _ _ _ _ _ _ _ _ Ht Ho) as [Ho' [->|(r & calls & Hr & E)]]; [done|].
  split; [by eapply enqueue_window|done].
Qed.
Lemma bounded_step committed n new n' : bounded n -> net_step committed n new n' -> bounded n'.
Proof.
  intros Hb Hs. revert Hb. destruct Hs as [c cp ts lost c' cp' ts' lost' pc ctx lks Ht| | | | | |];
    intros [Hw Ho]; cbn in *; [by destruct (tails_window _ _ _ _ _ _ _ _ Ht Hw Ho)|..]; split; cbn; try done.
  - by eapply run_thread_window.
  - exact (client_step_ok ccfg c _ _ Hcaps (client_ack _ ack c) Hw).
  - exact (client_step_ok ccfg c _ _ Hcaps (client_close _ c) Hw).
  - apply new_window_ok.
  - apply tl_ok_empty.
Qed.
Lemma reachable_bounded n : net_reachable n -> bounded n.
Proof.
  revert n. apply net_reachable_ind; [|by intros; eapply bounded_step|by intros n []].
  intros cp. split; [apply new_window_ok|apply tl_ok_empty].
Qed.

(** A record that waits goes on waiting as the window fills. *)
Lemma waits_grow r c c' : written r -> window_ok ccfg c -> window_ok ccfg c' ->
  window_size (cl_unacked c) <= window_size (cl_unacked c') -> cl_closed c' = false ->
  Enqueue r c = Waits -> Enqueue r c' = Waits.
Proof.
  intros Hr [Ec Eh Hso _] [Ec' Eh' Hso' _] Hle Hcl. unfold Enqueue.
  destruct (MarshalRecord r) as [raw|] eqn:Em; [|done]. specialize (Hsmall r raw Hr Em).
  pose proof (window_size_pos (cl_unacked c)) as Hpos. unfold caps_ok in Hcaps.
  assert (Hsz : 0 <= size (envelope_of r raw) <= room)
    by (change (size (envelope_of r raw)) with (Z.of_nat (slen raw)); lia).
  pose proof (soft_pos ccfg) as Hsp.
  rewrite Ec, Ec', Eh, Eh', Hcl. set (e := envelope_of r raw) in *.
  replace (int64 (int64 (window_size (cl_unacked c)) + size e)) with (window_size (cl_unacked c) + size e) by width.
  replace (int64 (int64 (window_size (cl_unacked c')) + size e)) with (window_size (cl_unacked c') + size e) by width.
  destruct (Z.ltb_spec (MaxHeldBytes (client_defaults ccfg)) (window_size (cl_unacked c) + size e)) as [Hlt|_];
    cbn [andb negb]; [|by destruct (cl_closed c)].
  set (n' := window_size (cl_unacked c') + size e).
  destruct (Z.ltb_spec (MaxHeldBytes (client_defaults ccfg)) n'); [|lia]. cbn [andb].
  destruct (Z.ltb_spec (HardMaxBytes (client_defaults ccfg)) n'); [lia|done].
Qed.
Lemma enqueue_grows r c c' calls : written r -> window_ok ccfg c -> Enqueue r c = Enqueued c' calls ->
  window_size (cl_unacked c) <= window_size (cl_unacked c') /\ cl_closed c' = false.
Proof.
  intros Hr Hw E. pose proof (enqueue_window r c c' calls Hr E Hw) as Hw'.
  destruct (Enqueue_window r c c' calls E) as (raw & gone & rest & _ & _ & Ecl & Eu & Eu' & _). split; [|done].
  assert (Hg : gone = []).
  { destruct Hw as [_ _ _ Ed], Hw' as [_ _ _ Ed']. unfold Enqueue in E. destruct (MarshalRecord r); [|done].
    assert (Hpush : forall e, Enqueued (push e c) [] = Enqueued c' calls -> gone = []).
    { intros e [= Ep _]. apply (f_equal (length ∘ cl_unacked)) in Ep. cbn in Ep.
      rewrite Eu, Eu', !length_app in Ep. cbn in Ep. apply nil_length_inv. lia. }
    destruct (_ && _); [|by destruct (cl_closed c); eauto]. destruct (_ <? _); [|done].
    unfold dropOldestLocked in E. destruct (cl_unacked c); injection E as E1 E2; subst c'; [|by cbn in Ed'; rewrite Ed in Ed'].
    by destruct gone. }
  subst gone. rewrite Eu, Eu'. change ([] ++ rest) with rest. rewrite window_size_app.
  pose proof (window_size_pos [envelope_of r raw]). lia.
Qed.

(** The agent has been told to end, the client's threads have ended, and a tail waits. *)
Record hung (k : string) (x : T) (r : LogRecord) (n : net D T) : Prop := {
  hu_ctx : n_ctx n = true;
  hu_run : n_run n = RunDone;
  hu_readers : Forall (fun lk => lk_reader lk = false) (n_links n);
  hu_tail : n_tails n !! k = Some x;
  hu_offer : tl_offer x = Some r;
  hu_waits : Enqueue r (n_client n) = Waits
}.

Lemma link_step_reader committed lk new lk' : link_step committed lk new lk' ->
  lk_reader lk = false -> lk_reader lk' = false.
Proof. by intros []. Qed.
Lemma readers_middle lks1 lk lks2 :
  Forall (fun lk => lk_reader lk = false) (lks1 ++ lk :: lks2) <->
  Forall (fun lk => lk_reader lk = false) (lks1 ++ lks2) /\ lk_reader lk = false.
Proof. rewrite !Forall_app, Forall_cons. tauto. Qed.

Lemma hung_tail k x r c cp ts lost c' cp' ts' lost' : tl_step (c, cp, ts, lost) (c', cp', ts', lost') ->
  window_ok ccfg c -> tl_ok ts -> ts !! k = Some x -> tl_offer x = Some r -> Enqueue r c = Waits ->
  ts' !! k = Some x /\ Enqueue r c' = Waits.
Proof.
  intros Hs Hw Ho Ht Hx Hwt. split; [by eapply tl_step_waits|].
  pose proof (tl_offer_written _ _ _ _ Ho Ht Hx) as Hr.
  destruct (tl_step_ok _ _ _ _ _ _ _ _ Hs Ho) as [_ [->|(r' & calls & Hr' & E)]]; [done|].
  destruct (enqueue_grows r' c c' calls Hr' Hw E) as [Hg Hcl].
  eapply waits_grow; [exact Hr|exact Hw|exact (enqueue_window _ _ _ _ Hr' E Hw)|done|done|done].
Qed.

Lemma hung_step committed k x r n new n' : bounded n -> hung k x r n ->
  net_step committed n new n' -> n_ctx n' = true -> hung k x r n'.
Proof.
  intros Hb Hh Hs. revert Hb Hh. destruct Hs as [c cp ts lost c' cp' ts' lost' pc ctx lks Hs|? ? ? ? ? ? ? ? ? ? E|
    ? ? ? ? ? ? ? ? ? ? ? Hrd|? ? ? ? ? ? ? ? ? ? ? Hs| |? ? ? ? ? ? ? [_ Ed]|];
    intros [Hw Ho] [Hc Hr Hl Ht Hof Hwt] Hx; cbn in *; subst; try done.
  - destruct (hung_tail k x r _ _ _ _ _ _ _ _ Hs Hw Ho Ht Hof Hwt). by split.
  - apply readers_middle in Hl as [_ Hl]. congruence.
  - split; cbn; try done. apply readers_middle in Hl as [Hl Hlk]. apply readers_middle.
    split; [done|by eapply link_step_reader].
Qed.
Lemma hung_gone k x r n : hung k x r n -> hung k x r (manager_gone n).
Proof.
  intros [Hc Hr Hl Ht Hof Hwt]. split; cbn; try done. apply Forall_fmap. by eapply Forall_impl; [exact Hl|].
Qed.

(** C8: an agent told to end while backpressure holds a tail back never ends by itself.
    Once its client thread and its readers of acks have returned, as the same context makes
    them do, a tail waiting in [Enqueue] waits in every later state of the process: no ack
    comes any more, the call that would release it, [Client.Close], is deferred to the end
    of [main], and [main] waits in [Tailer.Run] for that tail. *)
Theorem shutdown_hangs k x r n n' :
  net_reachable n -> hung k x r n ->
  rtc (fun n n' => net_move n n' /\ n_ctx n' = true) n n' ->
  n_tails n' !! k = Some x /\ ~ tails_done n'.
Proof.
  intros Hr%reachable_bounded Hh Hs. cut (hung k x r n').
  { intros Hh'. split; [apply Hh'|]. intros [_ E]. pose proof (hu_tail _ _ _ _ Hh') as Ht. by rewrite E, lookup_empty in Ht. }
  revert Hr Hh. induction Hs as [|n1 n2 n3 [[(committed & new & Hs)| ->] Hc] _ IH]; intros Hb Hh; [done| |].
  - apply IH; [by eapply bounded_step|by eapply hung_step].
  - apply IH; [by destruct Hb|by apply hung_gone].
Qed.
End Shutdown.
End Laws.
End Net.

Module Witness.
Local Existing Instance go_json.
Local Existing Instance toy_bolt.
Import SegToy.Witness.

Definition r0 : LogRecord := rec 10 5 "a".
Definition r1 : LogRecord := rec 20 6 "a".
Definition k0 : string := key_of r0.
Definition written0 (r : LogRecord) : Prop := r = r0 \/ r = r1.
(** A window with room for one of them. *)
Definition ccfg0 : ClientConfig := mkClientConfig 300 600 0 0 0.
Definition cp0 : Bucket := bucket [].
Definition c1 : Client :=
  match Enqueue r0 (NewClient ccfg0) with Enqueued c _ => c | _ => NewClient ccfg0 end.
#[local] Instance tails0 : Tails Bucket (Z * option LogRecord) := place_tails written0.
Abbreviation net0 := (net Bucket (Z * option LogRecord)).

Lemma caps0 : caps_ok ccfg0.
Proof. by split. Qed.
Lemma small0 r raw : written0 r -> MarshalRecord r = Some raw ->
  Z.of_nat (slen raw) <= HardMaxBytes (client_defaults ccfg0) - MaxHeldBytes (client_defaults ccfg0).
Proof. intros [->| ->] [= <-]; apply Z.leb_le; vm_compute; reflexivity. Qed.

Lemma next0 : next_record written0 0 r0.
Proof.
  split; [by left|]. split; [done|].
  intros o (r & [->| ->] & [= <-]) _; vm_compute; discriminate.
Qed.
Lemma next1 : next_record written0 10 r1.
Proof.
  split; [by right|]. split; [done|].
  intros o (r & [->| ->] & [= <-]) Ho; [by vm_compute in Ho|vm_compute; discriminate].
Qed.

Lemma tailing {c cp ts lost c' cp' ts' lost'} : tail_step written0 (c, cp, ts, lost) (c', cp', ts', lost') ->
  forall pc ctx lks, net_move ccfg0 (mkNet (D:=Bucket) c cp ts lost pc ctx lks) (mkNet c' cp' ts' lost' pc ctx lks).
Proof. intros Ht pc ctx lks. left. exists ∅, []. by simple apply net_tail. Qed.

(** A tail reads the first record while the thread is at [pc]. *)
Definition at_ (pc : run_pc) (lks : list link) : net0 := mkNet (NewClient ccfg0) cp0 ∅ [] pc false lks.
Definition held (pc : run_pc) (lks : list link) : net0 :=
  mkNet c1 cp0 {[k0 := (10, None)]} [] pc false lks.
Lemma moves pc lks : rtc (net_move ccfg0) (at_ pc lks) (held pc lks).
Proof.
  set (ts0 := {[k0 := (0, None)]} : gmap string (Z * option LogRecord)).
  apply (rtc_l _ _ (mkNet (NewClient ccfg0) cp0 ts0 [] pc false lks)).
  { exact (tailing (tail_start written0 k0 _ cp0 ∅ [] eq_refl) pc false lks). }
  apply (rtc_l _ _ (mkNet (NewClient ccfg0) cp0 (<[k0 := (0, Some r0)]> ts0) [] pc false lks)).
  { simple refine (tailing (tail_read written0 0 r0 _ cp0 ts0 [] _ next0) pc false lks). apply lookup_insert_eq. }
  apply rtc_once.
  replace (held pc lks) with (mkNet c1 (commit [] cp0)
    (<[key_of r0 := (rec_Offset r0, None)]> (<[k0 := (0, Some r0)]> ts0)) ([] ++ []) pc false lks) by by f_equal.
  simple refine (tailing (tail_enqueued written0 0 r0 (NewClient ccfg0) c1 [] cp0 _ [] _ _) pc false lks);
    [apply lookup_insert_eq|vm_compute; reflexivity].
Qed.

Lemma selects : net_reachable ccfg0 (at_ SelectPc [new_link]).
Proof.
  exists cp0. change (net_start ccfg0 cp0) with (at_ RunTop []).
  assert (S1 : forall i pc pc' lks lks', run_thread i pc (NewClient ccfg0) = Some (pc', NewClient ccfg0) ->
    run_enabled pc i false lks -> run_links pc i lks = lks' ->
    net_move ccfg0 (at_ pc lks) (at_ pc' lks')).
  { intros i pc pc' lks lks' Hi He <-. left. exists ∅, []. by apply net_run_step. }
  eapply rtc_l; [apply (S1 (CtxErr false)); reflexivity|].
  eapply rtc_l; [apply (S1 (CallDone true)); reflexivity|].
  eapply rtc_l; [apply (S1 (CallDone true)); [reflexivity|exact I|reflexivity]|].
  eapply rtc_l; [apply (S1 Locked); [reflexivity|exact I|reflexivity]|].
  apply rtc_once, (S1 Locked); [reflexivity|exact I|reflexivity].
Qed.

Lemma no_lost_wakeup_witness :
  run_thread Notified SelectPc c1 = Some (CollectPc, take_notify c1).
Proof.
  apply (no_lost_wakeup ccfg0 written0 (offered written0) (held SelectPc [new_link])).
  - destruct selects as (cp & Hr). exists cp. etrans; [exact Hr|apply moves].
  - reflexivity.
  - vm_compute. discriminate.
Defined.

Definition stuck : net0 :=
  mkNet c1 cp0 (<[k0 := (10, Some r1)]> {[k0 := (10, None)]}) [] RunDone true [].
Lemma reach_stuck : net_reachable ccfg0 stuck.
Proof.
  exists cp0. etrans; [apply (moves RunTop [])|].
  apply (rtc_l _ _ (mkNet c1 cp0 (<[k0 := (10, Some r1)]> {[k0 := (10, None)]}) [] RunTop false [])).
  { simple refine (tailing (tail_read written0 10 r1 c1 cp0 _ [] _ next1) RunTop false []). apply lookup_insert_eq. }
  eapply rtc_l; [left; exists ∅, []; apply net_cancel|].
  apply rtc_once. left. exists ∅, [].
  by apply (net_run_step ccfg0 ∅ (CtxErr true)).
Qed.
Lemma shutdown_hangs_witness : n_tails stuck !! k0 = Some (10, Some r1) /\ ~ tails_done stuck.
Proof.
  apply (shutdown_hangs ccfg0 written0 (offered written0) caps0 small0 k0 (10, Some r1) r1 stuck stuck reach_stuck).
  - split; [reflexivity|reflexivity|constructor|apply lookup_insert_eq|reflexivity|vm_compute; reflexivity].
  - apply rtc_refl.
Defined.
End Witness.
