(* ===== verification/Http.v ===== *)
(** internal/manager/http.go: the query API.  A handler is a function of the request's
    parameters, of the time, and of what the store and the open buffer hold while it runs;
    what it answers is a value.  The response body is the list of records (or the fields
    of the JSON object) that is encoded to it; instants are printed in RFC 3339. *)

From S2P Require Import Prelude GoStrings GoTime Model Cache Blobs Catalog Store StoreOk Value Ast Lexer Parser Grammar.
From S2P Require Import SegFormat SegWriter SegLayout SegRefine SegReader RecordJson SegToy Merge Planner PlannerOk Spool SpoolSafe.
Local Open Scope string_scope.
Local Open Scope list_scope.
Local Open Scope Z_scope.

(** [parseTime]; [None] is [errBadTime]. *)
Definition parseTime (s : string) : option Time :=
  if String.eqb s "" then Some zeroTime else
  match ParseRFC3339Nano s with
  | Some t => Some t
  | None => Unix_sec <$> ParseInt s
  end.

(** ** The set of [handleFields] *)

(** [set.addAll] *)
Definition addAll (vs : list string) (s : gset string) : gset string :=
  foldl (fun s v => if String.eqb v "" then s else {[v]} ∪ s) s vs.
(** [set.sorted] *)
Definition set_sorted (s : gset string) : list string :=
  merge_sort (fun a b => String.leb a b) (elements s).

(** The object [handleFields] answers with. *)
Record Fields := mkFields {
  fd_envelope : list string; fd_labels : list string; fd_fields : list string;
  fd_namespaces : list string; fd_pods : list string; fd_nodes : list string;
  fd_containers : list string
}.
(** The object [handleHistogram] answers with. *)
Record Histogram := mkHistogram {
  hg_start : Time; hg_end : Time; hg_intervalMs : Z; hg_counts : list Z; hg_total : Z
}.

(** What a handler answers: 400 with the reason, 500, 200, or a panic, which the server
    recovers from by closing the connection. *)
Inductive bad_request := BadExpr (e : queryError) | BadStart | BadEnd.
Inductive reply (A E : Type) :=
| BadRequest (why : bad_request) | ServerError (e : E) | Reply (a : A) | HandlerPanic.
Arguments BadRequest {A E} why.
Arguments ServerError {A E} e.
Arguments Reply {A E} a.
Arguments HandlerPanic {A E}.

(** The client's connection: the records encoded to it, and how many more it takes before
    a write fails, if it ever does. *)
Record Conn := mkConn { cn_sent : list LogRecord; cn_room : option nat }.
(** The connection with [maxEmitted]. *)
Definition stream : Type := Conn * gmap string Z.

Section Http.
Context `{Regexp, UnicodeTables, Zstd, JsonCodec}.
(** The store, the open buffer's [Snapshot], the fuel of a query, and the query parameters
    ([Query().Get]: an absent one is empty). *)
Context {E : Type} (st : SegmentStore E) (open_snap : option (Time -> Time -> list LogRecord)).
Context (fuel : nat) (q : string -> string).

(** [Manager.handleFields] *)
Definition handleFields : reply Fields E :=
  match Overlapping st zeroTime zeroTime with
  | Err e => ServerError e
  | Ok segs =>
      let all (f : SegmentMeta -> list string) :=
        set_sorted (foldl (fun s m => addAll (f m) s) ∅ segs) in
      Reply (mkFields
        ["_namespace"; "_pod"; "_container"; "_node"; "_image"; "_stream"; "_ts"; "_message"]
        (all sm_LabelKeys) (all sm_FieldKeys) (all sm_Namespaces) (all sm_Pods) (all sm_Nodes)
        (all sm_Containers))
  end.

(** The function [handleHistogram] runs on each record: the index of its bucket, and the
    counts with the total. *)
Definition bucket_of (start : Time) (interval : Duration) (buckets : Z) (r : LogRecord) : Z :=
  let i := Z.quot (Sub (rec_Timestamp r) start) interval in
  let i := if i <? 0 then 0 else i in
  if buckets <=? i then buckets - 1 else i.
Definition count_record (start : Time) (interval : Duration) (buckets : Z) (r : LogRecord) :
    stM (list Z * Z) E unit := fun s =>
  ((alter (fun c => int64 (c + 1)) (Z.to_nat (bucket_of start interval buckets r)) s.1,
    int64 (s.2 + 1)), Ok tt).

(** The parameters of [handleHistogram] and the width of a bucket. *)
Definition histogram_range (now : Time) : Time * Time :=
  let start := default zeroTime (parseTime (q "start")) in
  let end_ := default zeroTime (parseTime (q "end")) in
  let end_ := if IsZero end_ then now else end_ in
  (if IsZero start then Add end_ (- (24 * Hour)) else start, end_).
Definition histogram_buckets : Z := let n := Atoi (q "buckets") in if n <=? 0 then 60 else n.
Definition histogram_interval (start end_ : Time) (buckets : Z) : Duration :=
  let span := Sub end_ start in
  let span := if span <=? 0 then Second else span in
  let interval := Z.quot span buckets in
  if interval <=? 0 then Millisecond else interval.

(** [Manager.handleHistogram] at the time [now], on a machine whose slices of int64 have at
    most [max_slice] elements. *)
Definition handleHistogram (max_slice : Z) (now : Time) : reply Histogram (query_error E) :=
  match Parse (q "expr") with
  | Err e => BadRequest (BadExpr e)
  | Ok node =>
      let '(start, end_) := histogram_range now in
      let buckets := histogram_buckets in
      let interval := histogram_interval start end_ buckets in
      if max_slice <? buckets then HandlerPanic else
      match Run fuel st open_snap (mkRequest (Some node) start end_ 0 false)
              (count_record start interval buckets) (replicate (Z.to_nat buckets) 0, 0) with
      | (_, Err e) => ServerError e
      | ((counts, total), Ok _) =>
          Reply (mkHistogram start end_ (Z.quot interval Millisecond) counts total)
      end
  end.

(** [handleQuery]'s [emit]: [write_error] is the error of a connection that takes no more
    and of a record that cannot be encoded. *)
Context (write_error : E).
Definition encode (r : LogRecord) (c : Conn) : option Conn :=
  match MarshalRecord r, cn_room c with
  | None, _ | _, Some O => None
  | Some _, Some (S n) => Some (mkConn (cn_sent c ++ [r]) (Some n))
  | Some _, None => Some (mkConn (cn_sent c ++ [r]) None)
  end.
Definition note_offset (r : LogRecord) (m : gmap string Z) : gmap string Z :=
  if default 0 (m !! key_of r) <? rec_Offset r then <[key_of r := rec_Offset r]> m else m.
Definition emit (r : LogRecord) : stM stream E unit := fun s =>
  match encode r s.1 with
  | None => (s, Err write_error)
  | Some c => ((c, note_offset r s.2), Ok tt)
  end.

(** The loop of [streamFollow] over the records received from the subscription, until its
    channel is closed or the request's context is done. *)
Definition already_emitted (r : LogRecord) (m : gmap string Z) : bool :=
  match m !! key_of r with Some off => rec_Offset r <=? off | None => false end.
Fixpoint follow_loop (start : Time) (live : list LogRecord) : stM stream E unit := fun s =>
  match live with
  | [] => (s, Ok tt)
  | r :: live =>
      if negb (IsZero start) && Before (rec_Timestamp r) start then follow_loop start live s
      else if already_emitted r s.2 then follow_loop start live s
      else match emit r s with
           | (s, Err e) => (s, Err e)
           | (s, Ok _) => follow_loop start live s
           end
  end.

(** [Manager.streamFollow]: [treg] is the time after the subscription was made. *)
Definition streamFollow (node : Node) (start treg : Time) (live : list LogRecord) :
    stM stream (query_error E) unit := fun s =>
  match Run fuel st open_snap (mkRequest (Some node) start treg 0 false) emit s with
  | (s, Err e) => (s, Err e)
  | (s, Ok _) =>
      match follow_loop start live s with
      | (s, Err e) => (s, Err (EmitError e))
      | (s, Ok _) => (s, Ok tt)
      end
  end.

(** [Manager.handleQuery] *)
Definition query_request (node : Node) (start end_ : Time) : Request :=
  mkRequest (Some node) start end_ (Atoi (q "limit")) (String.eqb (q "direction") "desc").
Definition handleQuery (c : Conn) (treg : Time) (live : list LogRecord) :
    reply (stream * result (query_error E) unit) E :=
  match Parse (q "expr") with
  | Err e => BadRequest (BadExpr e)
  | Ok node =>
      match parseTime (q "start"), parseTime (q "end") with
      | None, _ => BadRequest BadStart
      | _, None => BadRequest BadEnd
      | Some start, Some end_ =>
          if String.eqb (q "follow") "true" || String.eqb (q "follow") "1"
          then Reply (streamFollow node start treg live (c, ∅))
          else Reply (Run fuel st open_snap (query_request node start end_) emit (c, ∅))
      end
  end.

End Http.

(** ** Field suggestions *)

#[local] Instance string_leb_total : Total (fun a b : string => String.leb a b).
Proof. intros a b. destruct (String.leb_total a b) as [->| ->]; [by left|by right]. Qed.

Lemma elem_of_addAll v vs s : v ∈ addAll vs s <-> v ∈ s \/ (v ∈ vs /\ v <> "").
Proof.
  unfold addAll. revert s; induction vs as [|w vs IH]; intros s; cbn; [set_solver|].
  rewrite IH. destruct (String.eqb_spec w "") as [->|Hne]; [|set_solver].
  rewrite elem_of_cons. split; [tauto|]. intros [?|[[->|?] ?]]; [by left|done|by right].
Qed.
Lemma elem_of_addAlls {A} (f : A -> list string) l s v :
  v ∈ foldl (fun s a => addAll (f a) s) s l <-> v ∈ s \/ (v <> "" /\ exists a, a ∈ l /\ v ∈ f a).
Proof.
  revert s; induction l as [|a l IH]; intros s; cbn; [set_solver|]. rewrite IH, elem_of_addAll. set_solver.
Qed.

(** The suggestions drawn from one field of the summaries: ascending, without
    repetition, exactly the non-empty values. *)
Definition suggestions (segs : list SegmentMeta) (f : SegmentMeta -> list string) (l : list string) : Prop :=
  Sorted (fun a b => String.leb a b) l /\ NoDup l /\
  forall v, v ∈ l <-> v <> "" /\ exists m, m ∈ segs /\ v ∈ f m.

Lemma set_sorted_suggestions segs f : suggestions segs f (set_sorted (foldl (fun s m => addAll (f m) s) ∅ segs)).
Proof.
  unfold suggestions, set_sorted. split; [apply (Sorted_merge_sort _)|]. split.
  - rewrite merge_sort_Permutation. apply NoDup_elements.
  - intros v. rewrite merge_sort_Permutation, elem_of_elements, elem_of_addAlls. set_solver.
Qed.

(** The field suggestions are those of the whole catalogue: of each kind, the
    non-empty values of all catalogued segments, ascending and without repetition; a
    catalogue that cannot be read is a server error. *)
Theorem handleFields_spec {E} (st : SegmentStore E) :
  match Overlapping st zeroTime zeroTime, handleFields st with
  | Ok segs, Reply fd =>
      suggestions segs sm_Namespaces (fd_namespaces fd) /\ suggestions segs sm_Pods (fd_pods fd) /\
      suggestions segs sm_Nodes (fd_nodes fd) /\ suggestions segs sm_Containers (fd_containers fd) /\
      suggestions segs sm_LabelKeys (fd_labels fd) /\ suggestions segs sm_FieldKeys (fd_fields fd)
  | Err e, ServerError e' => e = e'
  | _, _ => False
  end.
Proof.
  unfold handleFields. destruct (Overlapping st zeroTime zeroTime) as [segs|e]; [|done].
  cbn. split_and!; apply set_sorted_suggestions.
Qed.

(** ** Histograms *)

(** The number of records of a list in a bucket. *)
Definition in_bucket (b : LogRecord -> Z) (i : Z) (l : list LogRecord) : Z :=
  Z.of_nat (length (List.filter (fun r => b r =? i) l)).

Lemma in_bucket_snoc b i l r : in_bucket b i (l ++ [r]) = in_bucket b i l + (if b r =? i then 1 else 0).
Proof. unfold in_bucket. rewrite List.filter_app, length_app. cbn. destruct (b r =? i); cbn; lia. Qed.
Lemma in_bucket_le b i l : 0 <= in_bucket b i l <= Z.of_nat (length l).
Proof. unfold in_bucket. pose proof (List.filter_length_le (fun r => b r =? i) l). lia. Qed.
Lemma in_bucket_perm b i l l' : l ≡ₚ l' -> in_bucket b i l = in_bucket b i l'.
Proof. intros Hp. unfold in_bucket. by rewrite (filter_perm _ _ _ Hp). Qed.

Lemma in_bucket_sum b n l :
  Forall (fun r => 0 <= b r < Z.of_nat n) l ->
  foldr Z.add 0 ((fun i => in_bucket b (Z.of_nat i) l) <$> seq 0 n) = Z.of_nat (length l).
Proof.
  assert (Hsum : forall (f g : nat -> Z) k, foldr Z.add 0 ((fun i => f i + g i) <$> k) =
    foldr Z.add 0 (f <$> k) + foldr Z.add 0 (g <$> k)).
  { intros f g k. induction k as [|i k IH]; cbn; [done|]. rewrite IH. lia. }
  assert (Hone : forall z k s, foldr Z.add 0 ((fun i => if z =? Z.of_nat i then 1 else 0) <$> seq s k) =
    if decide (Z.of_nat s <= z < Z.of_nat (s + k)) then 1 else 0).
  { intros z k. induction k as [|k IH]; intros s; cbn; [by rewrite decide_False by lia|].
    rewrite IH. destruct (Z.eqb_spec z (Z.of_nat s)); repeat case_decide; lia. }
  induction l as [|r l IH] using rev_ind; intros Hl.
  { cbn. induction (seq 0 n) as [|i k IH]; cbn; [done|]. rewrite IH. done. }
  apply Forall_app in Hl as [Hl [Hr _]%Forall_cons]. rewrite length_app. cbn.
  rewrite (list_fmap_ext _ (fun i => in_bucket b (Z.of_nat i) l + (if b r =? Z.of_nat i then 1 else 0)))
    by (intros; apply in_bucket_snoc).
  rewrite Hsum, IH, Hone, decide_True by (done || lia). lia.
Qed.

Lemma histogram_buckets_pos q : 0 < histogram_buckets q.
Proof. unfold histogram_buckets. cbn. destruct (Z.leb_spec (Atoi (q "buckets")) 0); lia. Qed.
Lemma histogram_interval_pos start end_ n : 0 < histogram_interval start end_ n.
Proof. unfold histogram_interval. cbn. destruct (Z.leb_spec (Z.quot (if Sub end_ start <=? 0 then Second else Sub end_ start) n) 0);
  [done|lia]. Qed.

Section Histogram.
Context (start : Time) (interval : Duration) (n : Z) (Hi : 0 < interval) (Hn : 0 < n).
Abbreviation b := (bucket_of start interval n).

Lemma bucket_range r : 0 <= b r < n.
Proof.
  unfold bucket_of. generalize (Z.quot (Sub (rec_Timestamp r) start) interval). intros i. cbn.
  destruct (Z.ltb_spec i 0); [destruct (Z.leb_spec n 0)|destruct (Z.leb_spec n i)]; lia.
Qed.

(** A record at or after the start, less than 292 years after it, is in the bucket of its
    interval, the last of which takes what is left of the range. *)
Lemma bucket_interval r :
  start <= rec_Timestamp r < start + 2 ^ 63 ->
  start + b r * interval <= rec_Timestamp r /\
  (b r = n - 1 \/ rec_Timestamp r < start + (b r + 1) * interval).
Proof.
  intros Hr. unfold bucket_of. replace (Sub (rec_Timestamp r) start) with (rec_Timestamp r - start) by (unfold Sub; lia).
  set (d := rec_Timestamp r - start). assert (Hd : 0 <= d) by lia. rewrite Z.quot_div_nonneg by lia.
  pose proof (Z.div_mod d interval ltac:(lia)). pose proof (Z.mod_pos_bound d interval Hi).
  pose proof (Z.div_pos d interval Hd Hi). destruct (Z.ltb_spec (d / interval) 0); [lia|].
  destruct (Z.leb_spec n (d / interval)).
  - split; [|by left]. assert ((n - 1) * interval <= d / interval * interval) by (apply Z.mul_le_mono_nonneg_r; lia). lia.
  - split; [|right]; nia.
Qed.

Lemma count_loop {E} l :
  Z.of_nat (length l) < 2 ^ 63 ->
  for_st (count_record (E := E) start interval n) l (replicate (Z.to_nat n) 0, 0) =
  (((fun i => in_bucket b (Z.of_nat i) l) <$> seq 0 (Z.to_nat n), Z.of_nat (length l)), Ok tt).
Proof.
  induction l as [|r l IH] using rev_ind; intros Hl.
  - cbn. unfold mret, stM_ret. do 3 f_equal. apply list_eq. intros i. rewrite list_lookup_fmap.
    destruct (decide (i < Z.to_nat n)%nat).
    + by rewrite lookup_replicate_2, lookup_seq_lt by done.
    + rewrite (lookup_ge_None_2 (replicate _ _)), (lookup_ge_None_2 (seq _ _)); [done|..]; rewrite ?length_seq, ?length_replicate; lia.
  - rewrite length_app in Hl |- *. cbn in Hl. cbn [length].
    rewrite (for_st_app _ _ _ _ _ (IH ltac:(lia))). cbn [for_st].
    erewrite bind_step by reflexivity. unfold mret, stM_ret. cbn [fst snd]. do 2 f_equal. 2: { rewrite int64_id; unfold in_int64; lia. }
    apply list_eq. intros i. rewrite list_lookup_fmap. pose proof (bucket_range r) as Hb.
    destruct (decide (i < Z.to_nat n)%nat) as [L|L]; cycle 1.
    { rewrite (lookup_ge_None_2 (seq _ _)), lookup_ge_None_2; [done|rewrite length_alter, length_fmap|]; rewrite length_seq; lia. }
    rewrite lookup_seq_lt by done. cbn. rewrite in_bucket_snoc.
    destruct (Z.eqb_spec (b r) (Z.of_nat i)) as [Eb|Hne].
    + rewrite Eb, Nat2Z.id, list_lookup_alter_eq, list_lookup_fmap, lookup_seq_lt by done. cbn. f_equal.
      pose proof (in_bucket_le b (Z.of_nat i) l). apply int64_id. unfold in_int64. lia.
    + rewrite list_lookup_alter_ne by lia. rewrite list_lookup_fmap, lookup_seq_lt by done. cbn. f_equal. lia.
Qed.
End Histogram.

(** ** Queries of a manager *)

Section Queries.
Context `{Regexp, UnicodeTables, Zstd, JsonCodec, SortSlice}.
(** A catalogue whose segments hold [content], the spool, and enough fuel for all that is
    stored. *)
Context {E : Type} (st : SegmentStore E) (all : list SegmentMeta).
Context (content : SegmentMeta -> list (list LogRecord)) (Hst : catalog_holds st all content).
Context (sp : Spool) (fuel : nat).
Definition stored : list LogRecord := List.concat (recs_of content <$> all) ++ sp_buf sp.
Context (Hfuel : (length stored < fuel)%nat).
Definition snap : option (Time -> Time -> list LogRecord) := Some (fun s e => SpoolSnapshot s e sp).

(** What [Run_spec] says of the manager's executor. *)
Lemma run_manager rq node :
  rq_Expr rq = Some node -> node_ok node = true ->
  exists out, sorted (rq_Desc rq) out /\ out ≡ₚ List.filter (keep rq node) stored /\
    forall S (f : LogRecord -> stM S E unit) s,
      Run fuel st snap rq f s = emitted (for_st f (limited (rq_Limit rq) 0 out) s) tt.
Proof.
  intros He Hn. pose proof (Run_spec st all content snap rq fuel) as R. rewrite He in R. cbn in R.
  destruct R as (out & Hs & Hp & HR); [done|done|apply sort_slice_sorted| |].
  - pose proof (length_concat_filter (recs_of content) (fun m => SegmentOverlaps m (rq_Start rq) (rq_End rq)) all).
    unfold stored in Hfuel. rewrite length_app in *. rewrite snapshot_perm.
    pose proof (List.filter_length_le (fun r => in_window (rq_Start rq) (rq_End rq) (rec_Timestamp r)) (sp_buf sp)). lia.
  - exists out. split; [done|]. split; [|done]. rewrite Hp. unfold stored. rewrite !List.filter_app.
    apply Permutation_app_head. rewrite (filter_perm _ _ _ (snapshot_perm _ _ _)).
    rewrite filter_filter; [done|]. unfold keep. by intros r [? _]%andb_true_iff.
Qed.

(** C25: a histogram counts every matching record once.  For a well-formed expression and
    a number of buckets the machine can allocate, the answer's buckets add up to its
    total, which is the number of records of the range, sealed or open, that satisfy the
    expression; each bucket counts the records whose time falls in its interval, the last
    one also those in the remainder of the range. *)
Theorem histogram_counts q max_slice now node :
  let '(start, end_) := histogram_range q now in
  let n := histogram_buckets q in
  let interval := histogram_interval start end_ n in
  let bucket := bucket_of start interval n in
  let found := List.filter (keep (mkRequest (Some node) start end_ 0 false) node) stored in
  Parse (q "expr") = Ok node -> n <= max_slice -> Z.of_nat (length stored) < 2 ^ 63 ->
  exists h, handleHistogram st snap fuel q max_slice now = Reply h /\
    hg_total h = Z.of_nat (length found) /\ foldr Z.add 0 (hg_counts h) = hg_total h /\
    Z.of_nat (length (hg_counts h)) = n /\
    (forall i, 0 <= i < n -> hg_counts h !! Z.to_nat i = Some (in_bucket bucket i found)) /\
    (forall r, start <= rec_Timestamp r < start + 2 ^ 63 -> 0 <= bucket r < n /\
       start + bucket r * interval <= rec_Timestamp r /\
       (bucket r = n - 1 \/ rec_Timestamp r < start + (bucket r + 1) * interval)).
Proof.
  destruct (histogram_range q now) as [start end_] eqn:Eg. cbn zeta. intros Hp Hmax Hlen.
  set (rq := mkRequest _ _ _ _ _). set (n := histogram_buckets q) in *. set (interval := histogram_interval start end_ n).
  destruct (run_manager rq node eq_refl (Parse_node_ok _ _ Hp)) as (out & _ & Hout & HR). cbn in HR.
  pose proof (histogram_buckets_pos q : 0 < n) as Hn. pose proof (histogram_interval_pos start end_ n : 0 < interval) as Hi.
  assert (Hl : Z.of_nat (length out) < 2 ^ 63).
  { rewrite Hout. pose proof (List.filter_length_le (keep rq node) stored). lia. }
  unfold handleHistogram. rewrite Hp, Eg. fold n interval rq. destruct (Z.ltb_spec max_slice n); [lia|].
  rewrite HR, count_loop by done. cbn [emitted]. eexists. split; [reflexivity|].
  cbn [hg_total hg_counts]. rewrite <- Hout. split; [done|]. split; [|split; [|split]].
  - apply in_bucket_sum, Forall_true. intros r. rewrite Z2Nat.id by lia. by apply bucket_range.
  - rewrite length_fmap, length_seq. lia.
  - intros i Hlt. rewrite list_lookup_fmap, lookup_seq_lt by lia. cbn. rewrite Z2Nat.id by lia.
    f_equal. by apply in_bucket_perm.
  - intros r Hr. split; [by apply bucket_range|by apply bucket_interval].
Qed.

(** ** Streaming *)

Definition encodable (r : LogRecord) : Prop := is_Some (MarshalRecord r).
Definition noted (l : list LogRecord) : gmap string Z := foldl (fun m r => note_offset r m) ∅ l.
(** What of a list a connection takes. *)
Definition taken_by (room : option nat) (l : list LogRecord) : list LogRecord :=
  match room with None => l | Some k => take k l end.

Lemma emit_one werr r sent room m :
  encodable r ->
  emit (E := E) werr r (mkConn sent room, m) =
    match room with
    | Some O => ((mkConn sent room, m), Err werr)
    | _ => ((mkConn (sent ++ [r]) (pred <$> room), note_offset r m), Ok tt)
    end.
Proof. intros [raw Hr]. unfold emit, encode. cbn. rewrite Hr. by destruct room as [[|k]|]. Qed.

Lemma emit_all werr l sent room m :
  Forall encodable l ->
  exists room', for_st (emit (E := E) werr) l (mkConn sent room, m) =
    ((mkConn (sent ++ taken_by room l) room', foldl (fun m r => note_offset r m) m (taken_by room l)),
     if bool_decide (taken_by room l = l) then Ok tt else Err werr) /\
    (room = None -> room' = None).
Proof.
  revert sent room m; induction l as [|r l IH]; intros sent room m Hl.
  { exists room. destruct room as [k|]; cbn; rewrite ?take_nil, app_nil_r; by rewrite bool_decide_true. }
  apply Forall_cons in Hl as [Hr Hl]. cbn [for_st]. unfold mbind, stM_bind. rewrite (emit_one werr r) by done.
  destruct room as [[|k]|]; cbn [fmap option_fmap option_map pred].
  - exists (Some O). cbn. by rewrite app_nil_r.
  - destruct (IH (sent ++ [r]) (Some k) (note_offset r m) Hl) as (room' & -> & _). exists room'.
    cbn. rewrite <- app_assoc. split; [|done]. f_equal.
    destruct (decide (take k l = l)) as [Et|Hne]; [rewrite !bool_decide_true; congruence|].
    rewrite !bool_decide_false; congruence.
  - destruct (IH (sent ++ [r]) None (note_offset r m) Hl) as (room' & -> & Hroom). exists room'.
    cbn. rewrite <- app_assoc. split; [|done]. f_equal. by rewrite !bool_decide_true.
Qed.

Lemma handleQuery_streams werr q room treg live node start end_ :
  Parse (q "expr") = Ok node -> parseTime (q "start") = Some start -> parseTime (q "end") = Some end_ ->
  String.eqb (q "follow") "true" || String.eqb (q "follow") "1" = false -> Forall encodable stored ->
  let rq := query_request q node start end_ in
  exists out c m res, handleQuery st snap fuel q werr (mkConn [] room) treg live = Reply ((c, m), res) /\
    sorted (rq_Desc rq) out /\ out ≡ₚ List.filter (keep rq node) stored /\
    cn_sent c = taken_by room (limited (rq_Limit rq) 0 out) /\
    (res = Ok tt <-> taken_by room (limited (rq_Limit rq) 0 out) = limited (rq_Limit rq) 0 out).
Proof.
  intros Hp Hs He Hf Henc rq. unfold handleQuery. rewrite Hp, Hs, He, Hf. fold rq.
  destruct (run_manager rq node eq_refl (Parse_node_ok _ _ Hp)) as (out & Hso & Hout & HR).
  assert (Hl : Forall encodable (limited (rq_Limit rq) 0 out)).
  { rewrite Forall_forall in Henc |- *. intros r Hr. apply Henc. eapply elem_of_filter_b. rewrite <- Hout.
    unfold limited in Hr. destruct (0 <? rq_Limit rq); [|exact Hr].
    rewrite <- (take_drop (Z.to_nat (rq_Limit rq - 0)) out). apply elem_of_app. by left. }
  destruct (emit_all werr _ [] room ∅ Hl) as (room' & Ee & _). rewrite HR, Ee.
  set (ans := limited (rq_Limit rq) 0 out) in *. unfold emitted.
  destruct (bool_decide_reflect (taken_by room ans = ans)); (do 4 eexists; split; [reflexivity|]);
    (split; [done|]); (split; [done|]); (split; [done|]); naive_solver.
Qed.

(** A query streams its answer.  The response holds exactly the first records, as many
    as the connection takes, of the answer: the records of the range that satisfy the
    expression, sealed or open, each as often as stored, in the requested direction, cut
    after a positive limit; it ends with an error if and only if the connection fails
    before the end. *)
Theorem query_streams werr q room treg live node start end_ :
  Parse (q "expr") = Ok node -> parseTime (q "start") = Some start -> parseTime (q "end") = Some end_ ->
  String.eqb (q "follow") "true" || String.eqb (q "follow") "1" = false -> Forall encodable stored ->
  let rq := query_request q node start end_ in
  exists out c m res, handleQuery st snap fuel q werr (mkConn [] room) treg live = Reply ((c, m), res) /\
    sorted (rq_Desc rq) out /\ out ≡ₚ List.filter (keep rq node) stored /\
    cn_sent c = taken_by room (limited (rq_Limit rq) 0 out) /\
    (res = Ok tt <-> taken_by room (limited (rq_Limit rq) 0 out) = limited (rq_Limit rq) 0 out).
Proof. apply handleQuery_streams. Qed.

(** ** Following *)

Definition from (start : Time) (r : LogRecord) : bool :=
  negb (negb (IsZero start) && Before (rec_Timestamp r) start).

Lemma noted_raise l : noted l = max_offsets l.
Proof. done. Qed.

Lemma already_emitted_noted r l :
  Forall (fun x => 0 < rec_Offset x) l -> 0 < rec_Offset r ->
  already_emitted r (noted l) = true <-> exists x, x ∈ l /\ key_of x = key_of r /\ rec_Offset r <= rec_Offset x.
Proof.
  intros Hl Hr. rewrite noted_raise. unfold already_emitted.
  destruct (raise_list_spec ((fun r => (key_of r, rec_Offset r)) <$> l) ∅ (key_of r)) as (_ & Hub & _).
  rewrite <- max_offsets_list in Hub. split.
  - destruct (max_offsets l !! key_of r) as [v|] eqn:E0; [|done]. intros Hle%Z.leb_le.
    destruct (max_offsets_attained _ _ _ E0) as (x & Hx & Hk & <-). by exists x.
  - intros (x & Hx & Hk & Hle). specialize (Hub (rec_Offset x)).
    destruct (max_offsets l !! key_of r) as [v|]; cbn in Hub.
    + apply Z.leb_le. etrans; [exact Hle|]. apply Hub. apply list_elem_of_fmap. exists x. by rewrite Hk.
    + assert (rec_Offset x <= 0); [|lia]. apply Hub. apply list_elem_of_fmap. exists x. by rewrite Hk.
Qed.

Lemma follow_loop_sent werr start live s :
  Forall encodable live -> Forall (fun r => 0 < rec_Offset r) (s ++ live) -> StronglySorted newer live ->
  exists new, follow_loop (E := E) werr start live (mkConn s None, noted s) =
      ((mkConn (s ++ new) None, noted (s ++ new)), Ok tt) /\
    (forall r, r ∈ new <-> r ∈ live /\ from start r = true /\
       ~ exists x, x ∈ s /\ key_of x = key_of r /\ rec_Offset r <= rec_Offset x) /\
    StronglySorted newer new.
Proof.
  revert s; induction live as [|r live IH]; intros s Henc Hpos Hs.
  { exists []. rewrite app_nil_r. split; [done|]. split; [|constructor]. intros r. rewrite elem_of_nil. tauto. }
  apply Forall_cons in Henc as [Hr Henc]. apply StronglySorted_cons in Hs as [Hhd Hs].
  apply Forall_app in Hpos as [Hps [Hpr Hpl]%Forall_cons]. cbn [follow_loop snd].
  assert (Hskip : from start r = false \/ already_emitted r (noted s) = true ->
    exists new, follow_loop (E := E) werr start live (mkConn s None, noted s) = ((mkConn (s ++ new) None, noted (s ++ new)), Ok tt) /\
    (forall r', r' ∈ new <-> r' ∈ r :: live /\ from start r' = true /\
       ~ exists x, x ∈ s /\ key_of x = key_of r' /\ rec_Offset r' <= rec_Offset x) /\ StronglySorted newer new).
  { intros Hno. destruct (IH s Henc) as (new & En & Hn & Hsn); [by apply Forall_app|done|]. exists new.
    split; [done|]. split; [|done]. intros r'. rewrite Hn, elem_of_cons.
    split; [tauto|]. intros ([->|Hin] & Hf & Hx); [|tauto]. exfalso. destruct Hno as [Hno|Hno]; [congruence|].
    by apply Hx, (already_emitted_noted r s). }
  destruct (negb (IsZero start) && Before (rec_Timestamp r) start) eqn:Ef.
  { apply Hskip. left. unfold from. by rewrite Ef. }
  destruct (already_emitted r (noted s)) eqn:Ea; [apply Hskip; by right|].
  rewrite emit_one by done. cbn [fmap option_fmap option_map].
  assert (En : note_offset r (noted s) = noted (s ++ [r])) by (unfold noted; by rewrite foldl_app). rewrite En.
  destruct (IH (s ++ [r]) Henc) as (new & -> & Hn & Hsn); [by rewrite !Forall_app, Forall_singleton|done|].
  exists (r :: new). rewrite <- !app_assoc. split; [done|]. split.
  - intros r'. rewrite !elem_of_cons, Hn. split.
    + intros [->|(Hin & Hf & Hx)].
      * split; [by left|]. split; [unfold from; by rewrite Ef|]. intros Hx.
        apply (already_emitted_noted r s) in Hx; [congruence|done|done].
      * split; [by right|]. split; [done|]. intros (x & Hxs & Hx'). apply Hx. exists x. split; [apply elem_of_app; by left|done].
    + intros ([->|Hin] & Hf & Hx); [by left|]. right. split; [done|]. split; [done|].
      intros (x & [Hxs|Hxs%list_elem_of_singleton]%elem_of_app & Hk & Hle); [apply Hx; by exists x|]. subst x.
      rewrite Forall_forall in Hhd. specialize (Hhd r' Hin Hk). lia.
  - apply StronglySorted_cons. split; [|done]. rewrite Forall_forall in Hhd |- *. intros r' Hin. apply Hhd. by apply Hn.
Qed.

(** The records accepted, in that order, of which the store and the spool hold the first
    [m]; the times of a source do not decrease.  Of what a subscription receives, [Manager]
    shows the last two facts. *)
Definition no_older (r1 r2 : LogRecord) : Prop := key_of r1 = key_of r2 -> rec_Timestamp r1 <= rec_Timestamp r2.
Record follow_history (log : list LogRecord) (m : nat) (node : Node) (live : list LogRecord) : Prop := {
  fh_newer : StronglySorted newer log;
  fh_times : StronglySorted no_older log;
  fh_positive : Forall (fun r => 0 < rec_Offset r) log;
  fh_encodable : Forall encodable log;
  fh_stored : stored ≡ₚ take m log;
  fh_live : StronglySorted newer live;
  fh_from r : r ∈ live -> r ∈ log /\ sat node r = true
}.

Lemma sorted_related {A} (R : A -> A -> Prop) l x y :
  StronglySorted R l -> x ∈ l -> y ∈ l -> x = y \/ R x y \/ R y x.
Proof.
  induction l as [|z l IH]; [by intros _ ?%elem_of_nil|]. intros [Hz Hs]%StronglySorted_cons.
  rewrite Forall_forall in Hz. rewrite !elem_of_cons. intros [->|Hx] [->|Hy]; auto.
Qed.
Lemma sorted_pair (R1 R2 : LogRecord -> LogRecord -> Prop) l :
  StronglySorted R1 l -> StronglySorted R2 l -> StronglySorted (fun x y => R1 x y /\ R2 x y) l.
Proof.
  induction 1 as [|x l _ IH Hx]; intros Hq; [constructor|]. apply StronglySorted_cons in Hq as [Hxq Hq].
  apply StronglySorted_cons. split; [|auto]. rewrite Forall_forall in *. auto.
Qed.

(** A received record that the history made look like a duplicate is in the history. *)
Lemma skipped_in_history log m node live start treg r x :
  follow_history log m node live -> r ∈ live -> from start r = true ->
  x ∈ List.filter (keep (mkRequest (Some node) start treg 0 false) node) stored ->
  key_of x = key_of r -> rec_Offset r <= rec_Offset x ->
  r ∈ List.filter (keep (mkRequest (Some node) start treg 0 false) node) stored.
Proof.
  intros F Hr Hf [Hkx Hx]%elem_of_filter_b Hk Hle. destruct (fh_from _ _ _ _ F r Hr) as [Hrl Hsat].
  pose proof (sorted_pair _ _ _ (fh_newer _ _ _ _ F) (fh_times _ _ _ _ F)) as Ho.
  rewrite (fh_stored _ _ _ _ F : stored ≡ₚ _) in *. rewrite <- (take_drop m log) in Ho, Hrl.
  assert (Hrt : r ∈ take m log).
  { apply elem_of_app in Hrl as [?|Hd]; [done|]. exfalso.
    destruct (StronglySorted_app_1_elem_of _ _ _ _ _ Ho Hx Hd) as [Hn _]. specialize (Hn Hk). lia. }
  apply elem_of_filter_b. split; [|done]. unfold keep in *. cbn [rq_Start rq_End] in *.
  apply andb_true_iff in Hkx as [Hw _]. rewrite Hsat, andb_true_r. unfold in_window in *.
  assert (Hts : rec_Timestamp r <= rec_Timestamp x).
  { apply StronglySorted_app_1_l in Ho.
    destruct (sorted_related _ _ _ _ Ho Hrt Hx) as [->|[[_ Hrx]|[Hxr _]]]; [lia|by apply Hrx|specialize (Hxr Hk); lia]. }
  unfold from in Hf. rewrite negb_andb, negb_involutive in Hf. rewrite Hf. cbn.
  apply andb_true_iff in Hw as [_ Hw]. destruct (IsZero treg); [done|]. cbn in *. unfold After in *.
  apply negb_true_iff, Z.ltb_ge in Hw. apply negb_true_iff, Z.ltb_ge. lia.
Qed.

(** C10: following is gapless and without repetition.  If offsets are positive, the times
    of a source do not decrease, no batch is being sealed when the history is read, and
    neither reading the store nor writing to the connection fails, the response is the
    history in order of time followed by live records, no two of the same place; a record
    is in it exactly when it satisfies the expression, is not older than the start, and was
    stored and not later than the subscription, or received from it.  So a matching record
    is delivered whichever side of the switch from history to feed it was accepted on. *)
Theorem follow_gapless werr node start treg live log m :
  node_ok node = true -> follow_history log m node live ->
  exists hist new offsets,
    streamFollow st snap fuel werr node start treg live (mkConn [] None, ∅) =
      ((mkConn (hist ++ new) None, offsets), Ok tt) /\
    sorted false hist /\ NoDup (place_of <$> hist ++ new) /\
    (forall r, r ∈ hist ++ new <->
       sat node r = true /\ from start r = true /\
       ((r ∈ take m log /\ in_window start treg (rec_Timestamp r) = true) \/ r ∈ live)).
Proof.
  intros Hn F. set (rq := mkRequest (Some node) start treg 0 false).
  destruct (run_manager rq node eq_refl Hn) as (hist & Hsort & Hhist & HR). cbn in HR.
  pose proof (fun r x => skipped_in_history log m node live start treg r x F) as Hskip. fold rq in Hskip.
  pose proof (fh_stored _ _ _ _ F) as Hst'. pose proof (fh_from _ _ _ _ F) as Hlive.
  assert (Hmem : forall r, r ∈ hist <-> keep rq node r = true /\ r ∈ take m log)
    by (intros r; by rewrite Hhist, elem_of_filter_b, Hst').
  assert (Hall : forall (P : LogRecord -> Prop), Forall P log -> Forall P hist /\ Forall P live).
  { intros P HP. rewrite !Forall_forall in *. split; intros r Hr; apply HP; [|by apply Hlive].
    apply Hmem in Hr as [_ Hr]. rewrite <- (take_drop m log). apply elem_of_app. by left. }
  destruct (Hall _ (fh_positive _ _ _ _ F)) as [Hp1 Hp2]. destruct (Hall _ (fh_encodable _ _ _ _ F)) as [He1 He2].
  unfold streamFollow. fold rq. rewrite HR. unfold limited. cbn [rq_Limit rq Z.ltb Z.compare].
  destruct (emit_all werr hist [] None ∅ He1) as (room' & -> & ->); [|done]. cbn [taken_by app].
  rewrite bool_decide_true by done. cbn [emitted].
  destruct (follow_loop_sent werr start live hist He2) as (new & El & Hnew & Hns);
    [by apply Forall_app|apply (fh_live _ _ _ _ F)|].
  unfold noted at 1 in El. rewrite El. exists hist, new, (noted (hist ++ new)). split; [done|]. split; [done|]. split.
  - rewrite fmap_app. apply NoDup_app. split; [|split; [|by apply newer_places]].
    + rewrite Hhist, (filter_perm _ _ _ Hst'). apply newer_places, newer_filter.
      pose proof (fh_newer _ _ _ _ F) as Ho. rewrite <- (take_drop m log) in Ho. by apply StronglySorted_app_1_l in Ho.
    + intros pl (x & -> & Hx)%list_elem_of_fmap (y & [= Ek Eo] & Hy)%list_elem_of_fmap.
      apply Hnew in Hy as (_ & _ & Hno). apply Hno. exists x. rewrite Eo. by split; [|split; [|lia]].
  - intros r. rewrite elem_of_app, Hnew.
    assert (Hh : r ∈ hist <-> in_window start treg (rec_Timestamp r) = true /\ sat node r = true /\ r ∈ take m log)
      by (rewrite Hmem; unfold keep; cbn [rq rq_Start rq_End]; rewrite andb_true_iff; tauto).
    assert (Hwf : in_window start treg (rec_Timestamp r) = true -> from start r = true)
      by (unfold in_window, from; rewrite negb_andb, negb_involutive; by intros [? _]%andb_true_iff).
    split; [intros [?|(Hr & ? & ?)]; [tauto|destruct (Hlive r Hr); tauto]|].
    intros (Hs & Hf & [?|Hr]); [tauto|]. destruct (decide (r ∈ hist)) as [?|Hno]; [by left|]. right.
    split; [done|]. split; [done|]. intros (x & Hx & Hk & Hle). apply Hno. rewrite Hhist in Hx |- *. by eapply Hskip.
Qed.

End Queries.

(** ** The limits of following *)

Module Witness.
Import SegToy.Witness PlannerOk.Witness.
Local Existing Instance toy_zstd.
Local Existing Instance go_json.
Local Existing Instance literal_regexp.
Local Existing Instance latin1_tables.
Local Existing Instance Spool.Witness.stable_sort.

(** One segment with two records, one record in the open buffer, and one accepted after
    the history was read. *)
Definition sp0 : Spool := fst (Accept 8 (rec 30 8 "c") (NewSpool (mkConfig 0 0) ∅)).
Definition log0 : list LogRecord := rs ++ [rec 30 8 "c"; rec 40 9 "d"].
Definition live0 : list LogRecord := [rec 30 8 "c"; rec 40 9 "d"].
Definition all0 : list SegmentMeta := sealed_meta <$> [file].
Definition stored0 : list LogRecord := stored all0 (written_content [file]) sp0.

Lemma holds0 : catalog_holds (written_store [file]) all0 (written_content [file]).
Proof. apply written_holds; [apply NoDup_singleton|apply file_ok]. Qed.
Lemma stored_log : stored0 = take 3 log0.
Proof. vm_compute. reflexivity. Qed.
Lemma log_encodable : Forall encodable log0.
Proof. repeat constructor; vm_compute; eauto. Qed.

Definition no_params : string -> string := fun _ => "".

Lemma histogram_counts_witness :
  exists h, handleHistogram (written_store [file]) (snap sp0) 4 no_params 100 10 = Reply h /\
    hg_total h = 3 /\ foldr Z.add 0 (hg_counts h) = 3.
Proof.
  destruct (histogram_counts (written_store [file]) all0 (written_content [file]) holds0 sp0 4
    ltac:(fold stored0; rewrite stored_log; vm_compute; lia) no_params 100 10 matchAll)
    as (h & Eh & Ht & Hs & _).
  - reflexivity.
  - vm_compute. discriminate.
  - fold stored0. rewrite stored_log. reflexivity.
  - exists h. split; [exact Eh|]. rewrite Hs, Ht. fold stored0. rewrite stored_log. split; vm_compute; reflexivity.
Defined.

Lemma query_streams_witness :
  exists c m res, handleQuery (written_store [file]) (snap sp0) 4 no_params ErrWrite (mkConn [] (Some 2%nat)) 0 [] = Reply ((c, m), res) /\
    length (cn_sent c) = 2%nat /\ res <> Ok tt.
Proof.
  destruct (query_streams (written_store [file]) all0 (written_content [file]) holds0 sp0 4
    ltac:(fold stored0; rewrite stored_log; vm_compute; lia) ErrWrite no_params (Some 2%nat) 0 [] matchAll zeroTime zeroTime)
    as (out & c & m & res & Eq & _ & Hp & Hc & Hr); try reflexivity.
  - fold stored0. rewrite stored_log. apply Forall_take, log_encodable.
  - exists c, m, res. split; [exact Eq|]. fold stored0 in Hp. rewrite stored_log in Hp.
    apply Permutation_length in Hp. change (length out = 3%nat) in Hp.
    change (limited (rq_Limit (query_request no_params matchAll zeroTime zeroTime)) 0 out) with out in *.
    cbn [taken_by] in *. split; [rewrite Hc, length_take; lia|]. intros E. apply Hr in E.
    apply (f_equal length) in E. rewrite length_take in E. lia.
Defined.

Lemma history0 : follow_history all0 (written_content [file]) sp0 log0 3 matchAll live0.
Proof.
  split.
  - repeat constructor; unfold newer; cbn; lia.
  - repeat constructor; unfold no_older; cbn; lia.
  - repeat constructor; cbn; lia.
  - apply log_encodable.
  - fold stored0. by rewrite stored_log.
  - repeat constructor; unfold newer; cbn; lia.
  - intros r Hr. split; [|reflexivity]. unfold log0. apply elem_of_app. right. exact Hr.
Qed.

Lemma follow_gapless_witness :
  exists sent offsets,
    streamFollow (written_store [file]) (snap sp0) 4 ErrWrite matchAll zeroTime 8 live0 (mkConn [] None, ∅) =
      ((mkConn sent None, offsets), Ok tt) /\
    NoDup (place_of <$> sent) /\ rec 10 5 "a" ∈ sent /\ rec 30 8 "c" ∈ sent /\ rec 40 9 "d" ∈ sent.
Proof.
  destruct (follow_gapless (written_store [file]) all0 (written_content [file]) holds0 sp0 4
    ltac:(fold stored0; rewrite stored_log; vm_compute; lia) ErrWrite matchAll zeroTime 8 live0 log0 3
    eq_refl history0) as (hist & new & offsets & E & _ & Hn & Hin).
  exists (hist ++ new), offsets. split; [exact E|]. split; [exact Hn|].
  split_and!; apply Hin; (split; [reflexivity|split; [reflexivity|]]).
  - left. split; [by left|reflexivity].
  - right. by left.
  - right. right. by left.
Defined.

(** A store without segments, and two records of a source whose clock was set back. *)
Definition empty_store : SegmentStore seg_error :=
  {| Overlapping _ _ := Ok []; OpenReader _ := Err ErrReadAt |}.
Definition sp2 : Spool := accept_all [(1, rec 10 100 "a"); (2, rec 20 5 "b")] (NewSpool (mkConfig 0 0) ∅).

(** Following can skip a record.  When the times of a source decrease, a live record
    later than the subscription's time is passed over for good if the history holds a
    record of its source with a greater offset, although it matches, was accepted after
    the subscription and was never sent. *)
Theorem follow_skips :
  exists live r sent offsets,
    sp_buf sp2 = live /\ r ∈ live /\ sat matchAll r = true /\
    streamFollow empty_store (snap sp2) 4 ErrWrite matchAll zeroTime 50 live (mkConn [] None, ∅) =
      ((mkConn sent None, offsets), Ok tt) /\ r ∉ sent.
Proof.
  exists [rec 10 100 "a"; rec 20 5 "b"], (rec 10 100 "a"), [rec 20 5 "b"], (noted [rec 20 5 "b"]).
  split; [reflexivity|]. split; [by left|]. split; [reflexivity|]. split; [vm_compute; reflexivity|].
  by intros [= ?]%list_elem_of_singleton.
Qed.

End Witness.

(** A batch being sealed is in no answer.  While a seal uploads its batch, an accepted
    record of it is neither in a segment nor in the open buffer's snapshot, so a query of
    any range misses it, and so does the history of a follower that subscribed after it
    was accepted. *)
Theorem sealing_hides `{SortSlice} :
  exists cfg w r, reachable false cfg w /\ r ∈ w_accepted w /\ r ∉ w_durable w /\
    forall start end_, r ∉ SpoolSnapshot start end_ (w_sp w).
Proof.
  exists SpoolSafe.Witness.cfg, (mkWorld SpoolSafe.Witness.sp2 [[SpoolSafe.Witness.rec 10]] [] [SpoolSafe.Witness.rec 10]),
    (SpoolSafe.Witness.rec 10).
  split; [apply SpoolSafe.Witness.begin1|]. split; [by left|]. split; [by apply not_elem_of_nil|].
  intros start end_ Hin. rewrite snapshot_perm in Hin. by apply elem_of_nil in Hin.
Qed.
