(* ===== verification/Manager.v ===== *)
(** internal/manager/manager.go: the manager's life.  The seal loop and the shutdown act on
    the spool and the store; what the spool accepts is published to the hub, whose
    subscribers are the followers of [Http].  The store's and the spool's methods are those
    of [Store] and [Spool]; serving connections is left to [Server]. *)

From S2P Require Import Prelude GoStrings GoTime Model Value Ast Hub.
From S2P Require Import SegFormat SegWriter SegLayout SegRefine SegReader RecordJson SegToy Merge Cache Blobs Catalog MetaJson StoreToy.
From S2P Require Import Store StoreOk Spool SpoolSafe.
Local Open Scope string_scope.
Local Open Scope list_scope.
Local Open Scope Z_scope.

Section Manager.
Context `{SortSlice, Regexp}.
Context {B D : Type} `{Blobs B, Bolt D, MetaCodec, Zstd, JsonCodec}.

(** [Manager]; its executor reads the store, and the spool through [SpoolSnapshot]. *)
Record Manager := mkManager {
  m_Store : Store B D; m_Spool : Spool; m_Hub : Hub.Hub; m_snapEvery : Duration
}.

(** [New], with [NewSpool]'s directory and its reading of the watermarks. *)
Definition NewManager (mkdir_ok : bool) (cfg : SpoolConfig) : stM (Store B D) store_error Manager :=
  if negb mkdir_ok then fail_st FSError else
  watermarks ← SourceWatermarks;
  st ← get_st;
  mret (mkManager st (NewSpool cfg watermarks) (Hub.NewHub 4096) Minute).

Definition with_parts (s : Spool * Store B D) (m : Manager) : Manager :=
  mkManager (snd s) (fst s) (m_Hub m) (m_snapEvery m).

(** What one call of [Spool.Seal] meets: the disk, the time, the segment's creation time,
    its ID and scratch file, and the records offered while it runs. *)
Record seal_env := mkSealEnv {
  se_disk : Disk; se_now : Time; se_created : Z; se_id : string; se_tmp : string;
  se_arrivals : list (Time * LogRecord)
}.
Definition seal_call (e : seal_env) (m : Manager) : Manager * result store_error nat :=
  let '(s, r) := SpoolSeal (se_disk e) (se_now e) (se_created e) (se_id e) (se_tmp e) (se_arrivals e)
                   (m_Spool m, m_Store m) in (with_parts s m, r).
Definition snapshot_call (id : string) (m : Manager) : Manager * result store_error unit :=
  let '(st, r) := Snapshot id (m_Store m) in (with_parts (m_Spool m, st) m, r).

(** [Manager.RunSealLoop] between its start and the end of its context, interleaved with
    the records the ingest server offers; errors are logged. *)
Inductive event :=
| Arrive (now : Time) (r : LogRecord)
| CheckTick (e : seal_env)
| SnapTick (id : string).
Definition on_event (m : Manager) (ev : event) : Manager :=
  match ev with
  | Arrive now r => with_parts (fst (Accept now r (m_Spool m)), m_Store m) m
  | CheckTick e => if shouldSeal (se_now e) (m_Spool m) then fst (seal_call e m) else m
  | SnapTick id => fst (snapshot_call id m)
  end.
Definition RunSealLoop (evs : list event) (m : Manager) : Manager := foldl on_event m evs.

(** [Manager.Shutdown]; the result is that of its seal, which is logged. *)
Definition Shutdown (e : seal_env) (id : string) (m : Manager) : Manager * result store_error nat :=
  let '(m, r) := seal_call e m in (fst (snapshot_call id m), r).

Lemma shutdown_spool e id m : m_Spool (fst (Shutdown e id m)) = m_Spool (fst (seal_call e m)) /\
  snd (Shutdown e id m) = snd (seal_call e m).
Proof.
  unfold Shutdown. destruct (seal_call e m) as [m1 r]. cbn. unfold snapshot_call.
  by destruct (Snapshot id (m_Store m1)) as [st r'].
Qed.
(** A seal that succeeds while nothing arrives empties the buffer. *)
Lemma seal_call_empties e m n : se_arrivals e = [] -> snd (seal_call e m) = Ok n ->
  n = length (sp_buf (m_Spool m)) /\ sp_buf (m_Spool (fst (seal_call e m))) = [].
Proof.
  intros Ha. unfold seal_call, SpoolSeal. rewrite Ha. destruct (seal_begin (m_Spool m)) as [[batch sp]|] eqn:Eb; unfold seal_begin in Eb;
    destruct (Nat.eqb_spec (length (sp_buf (m_Spool m))) 0) as [E0|_]; try done.
  - injection Eb as <- <-. destruct (seal_batch _ _ _ _ _ _) as [st [meta|err]]; [|done]. by intros [= <-].
  - intros [= <-]. split; [done|]. by apply nil_length_inv.
Qed.

End Manager.

(** ** What followers see of the accepted records

    [Accept] publishes a record after it has released the spool's mutex, so publications
    of different connections may be overtaken by one another; a source sends over one
    connection at a time, so those of one source are not. *)

Section Streams.
Context `{Regexp}.












End Streams.

(** ** Concrete runs *)

Module Witness.
Import SegToy.Witness.
Local Existing Instance toy_zstd.
Local Existing Instance go_json.
Local Existing Instance toy_bolt.
Local Existing Instance go_meta.
Local Existing Instance literal_regexp.
Local Existing Instance Spool.Witness.stable_sort.





End Witness.
