(* ===== verification/Durable.v ===== *)
(** cmd/manager/main.go, from the store to the manager, and the whole life of a deployment:
    the seal loop, snapshots, queries, shutdowns, crashes at any point of a seal, the loss
    of the node's disk, and starts that recover from the object store.  Every run refines
    the abstract steps of SpoolSafe, with the durable records being those the object store
    really holds: in files that open and read back, beside their sidecars. *)

From S2P Require Import Prelude GoStrings GoTime JsonText JsonStruct Model Value Ast SegFormat SegWriter.
From S2P Require Import RecordJson SegLayout SegRefine SegReader SegToy SegTorn Cache Blobs Catalog MetaJson.
From S2P Require Import SegGo StoreToy Store StoreOk Recovery Coherent Hub Spool SpoolSafe Manager.
Local Open Scope string_scope.
Local Open Scope list_scope.
Local Open Scope Z_scope.

Local Existing Instance go_json.
Local Existing Instance go_meta.

(** ** Sealed files *)

(** What the ingest server hands the spool: a record decoded from an agent's line, with a
    positive offset, within the limits of the segment format. *)
Definition wire_ok (r : LogRecord) : Prop := 0 < rec_Offset r /\ received r /\ fits_line r.

Section Files.
Context `{SortSlice, Zstd} (mid : string) (Hmid : sane_text mid).

(** A sealed batch. *)
Record sealed_file := mkSealed { sf_id : string; sf_created : Z; sf_batch : list LogRecord }.
Definition sf_groups (f : sealed_file) : list (list LogRecord) := groups (sort_slice (sf_batch f)).
Definition file_segment (f : sealed_file) : segment :=
  new_segment mid (sf_id f) (meta_for (sf_created f) (sf_groups f)) (layout (sf_created f) (sf_groups f)).

Record file_ok (f : sealed_file) : Prop := {
  fo_id : id_ok (sf_id f) /\ sane_text (sf_id f);
  fo_wire : Forall wire_ok (sf_batch f);
  fo_fits : fits (sf_created f) (sort_slice (sf_batch f))
}.

Lemma file_received f : file_ok f -> Forall received (sort_slice (sf_batch f)).
Proof.
  intros [_ Hw _]. rewrite sort_slice_perm. eapply Forall_impl; [exact Hw|]. by intros r (_ & ? & _).
Qed.
Lemma file_sealable f : file_ok f -> sealable (sf_created f) (sf_groups f).
Proof. intros Hf. apply received_sealable; [by apply file_received|apply Hf]. Qed.

Lemma sane_pad w z : sane_text (pad_int w z).
Proof.
  assert (Hz : forall n, sane_text (zeros n)) by (induction n; [done|by apply sane_cons]).
  unfold pad_int. destruct (_ <? _); [apply sane_app; [done|]|];
    (apply sane_app; [apply Hz|apply sane_int]).
Qed.
Lemma sane_segKeyFor m : sane_text (sm_ID m) -> sane_text (segKeyFor mid m).
Proof.
  intros Hid. unfold segKeyFor, segPrefix, segBase. destruct (civil _) as [[y mo] d].
  repeat first [apply sane_app | exact Hmid | exact Hid | apply sane_pad | apply sane_int | done].
Qed.

Lemma file_meta_ok f lp : file_ok f -> sane_text lp ->
  go_meta_ok (set_LocalPath lp (sg_meta (file_segment f))).
Proof.
  intros Hf Hlp. apply received_meta_ok; [by apply file_received|apply Hf|apply Hf| |done].
  apply sane_segKeyFor. apply Hf.
Qed.
Lemma file_named f : file_ok f -> named mid (file_segment f).
Proof.
  intros Hf. split; [done|apply Hf| |done|].
  - split; [apply Hf|]. apply sane_segKeyFor. apply Hf.
  - by apply (file_meta_ok f "").
Qed.

(** A sealed file opens and reads back as its batch. *)
Definition reads_as (body : string) (rs : list LogRecord) : Prop :=
  exists rd, Open body (Z.of_nat (slen body)) = Ok rd /\ read_all rd [] = (rs, Ok tt).
Lemma file_reads f : file_ok f -> reads_as (sg_body (file_segment f)) (sort_slice (sf_batch f)).
Proof.
  intros Hf%file_sealable. eexists. split; [by apply Open_layout|by apply read_all_layout].
Qed.
Lemma reads_as_fun body rs rs' : reads_as body rs -> reads_as body rs' -> rs = rs'.
Proof. intros (rd & Ho & Hr) (rd' & Ho' & Hr'). congruence. Qed.

(** The source offsets of its metadata are the highest offsets of its records. *)
Lemma file_offset_covers f r : file_ok f -> r ∈ sf_batch f ->
  exists off, sm_SourceOffsets (sg_meta (file_segment f)) !! key_of r = Some off /\ rec_Offset r <= off.
Proof.
  intros Hf Hr. pose proof (fo_wire f Hf) as Hw. rewrite Forall_forall in Hw. destruct (Hw r Hr) as [Hp _].
  cbn. unfold sf_groups. rewrite (proj1 (groups_spec _)).
  set (rs := sort_slice (sf_batch f)). pose proof (d_offset _ _ (accum_describes rs) (key_of r)) as Hd.
  assert (Ht : rec_Offset r <= top_offset (key_of r) rs).
  { assert (Hin : r ∈ rs) by (unfold rs; by rewrite sort_slice_perm). clear -Hin. unfold top_offset.
    induction rs as [|x rs IH]; [by apply elem_of_nil in Hin|]. rewrite filter_cons.
    apply elem_of_cons in Hin as [<-|Hin].
    - rewrite decide_True by done. cbn. lia.
    - specialize (IH Hin). destruct (decide _); cbn; lia. }
  destruct (ac_srcOffset (accum rs) !! key_of r) as [off|]; cbn in Hd; [|lia]. exists off. split; [done|lia].
Qed.
Lemma file_offset_attained f k off :
  sm_SourceOffsets (sg_meta (file_segment f)) !! k = Some off ->
  exists r, r ∈ sf_batch f /\ key_of r = k /\ rec_Offset r = off.
Proof.
  cbn. unfold sf_groups. rewrite (proj1 (groups_spec _)). intros E.
  refine (accum_offsets (fun k off => exists r, r ∈ sf_batch f /\ key_of r = k /\ rec_Offset r = off)
    (sort_slice (sf_batch f)) _ k off E).
  apply Forall_forall. intros r Hr. exists r. by rewrite sort_slice_perm in Hr.
Qed.
End Files.

(** ** Deployments *)

Section Durable.
Context `{SortSlice, Regexp, Zstd}.
Context {B D : Type} `{BlobsLaws B, Bolt D}.
Context (mid base : string) (cap : Z) (cfg : SpoolConfig) (Hmid : sane_text mid).
Abbreviation Mgr := (Manager (B:=B) (D:=D)).

(** The start of cmd/manager's [main] over what the node's disk holds: the store is opened,
    recovers, and the manager is made with its watermarks; any error ends the process. *)
Definition boot (mkdir_ok : bool) (blobs : B) (db : D) (fs : gmap string string) :
    Store B D * result store_error Mgr :=
  (Recover ;; NewManager mkdir_ok cfg) (OpenStore mid base cap blobs db fs).

(** A process starts over the object store that [st] left, with its catalogue or none, as
    often as it takes. *)
Inductive starts : Store B D -> Mgr -> Prop :=
| starts_ok st mk db fs st' m :
    db = s_cat st \/ kv_scan db = [] ->
    boot mk (s_blobs st) db fs = (st', Ok m) -> starts st m
| starts_again st mk db fs st' e m :
    db = s_cat st \/ kv_scan db = [] ->
    boot mk (s_blobs st) db fs = (st', Err e) -> starts st' m -> starts st m.

(** What a call of [Seal] is given: an id not used before, in the object store or for a
    file of the cache; the scratch file's name; names that are valid UTF-8; records from
    the wire; and a batch within the limits of the format. *)
Definition seal_paths (e : seal_env) (m : Mgr) : list string :=
  [se_tmp e; pathFor (s_cache (m_Store m)) (se_id e)].
Definition seal_file (e : seal_env) (m : Mgr) : sealed_file :=
  mkSealed (se_id e) (se_created e) (sp_buf (m_Spool m)).
Record seal_fits (e : seal_env) (m : Mgr) : Prop := {
  sf_fresh : fresh_id mid (se_id e) (contents (s_blobs (m_Store m)));
  sf_unused : s_fs (m_Store m) !! pathFor (s_cache (m_Store m)) (se_id e) = None;
  sf_scratch : exists work, se_tmp e = work +:+ "/" +:+ se_id e +:+ ".seg.tmp";
  sf_names : id_ok (se_id e) /\ sane_text (se_id e) /\ Forall sane_text (seal_paths e m);
  sf_arrivals : Forall (fun a => wire_ok a.2) (se_arrivals e);
  sf_room : sp_buf (m_Spool m) <> [] -> fits (se_created e) (sort_slice (sp_buf (m_Spool m)))
}.
Definition event_fits (ev : event) (m : Mgr) : Prop :=
  match ev with
  | Arrive _ r => wire_ok r
  | CheckTick e => seal_fits e m
  | SnapTick _ => True
  end.

(** Snapshots of the catalogue, reads of catalogued segments, and other managers' writes to
    the object store. *)
Inductive quiet_step : Mgr -> Mgr -> Prop :=
| quiet_snapshot id m : quiet_step m (fst (snapshot_call id m))
| quiet_read ms sm st' r m :
    cat_all (s_cat (m_Store m)) = Ok ms -> sm ∈ ms -> StoreReader sm (m_Store m) = (st', r) -> quiet_step m (with_parts (m_Spool m, st') m)
| quiet_foreign b' m :
    (forall k, HasPrefix k (segPrefix mid) = true \/ HasPrefix k (snapPrefix mid) = true ->
       contents b' !! k = contents (s_blobs (m_Store m)) !! k) ->
    quiet_step m (with_parts (m_Spool m, mkStore (s_ManagerID (m_Store m)) b' (s_cat (m_Store m))
      (s_cache (m_Store m)) (s_fs (m_Store m))) m).
(** The running manager: the seal loop and what arrives, a shutdown, and quiet steps.  A
    call of [Seal], with the records that arrive while it runs, is one step; [dies] and
    [observed] below are the states inside it. *)
Inductive run_step : Mgr -> Mgr -> Prop :=
| run_event ev m : event_fits ev m -> run_step m (on_event m ev)
| run_shutdown e id m : seal_fits e m -> run_step m (fst (Shutdown e id m))
| run_quiet m m' : quiet_step m m' -> run_step m m'.

(** Where a process may die: between two calls, or in the middle of a seal. *)
Inductive dies (m : Mgr) : Store B D -> Prop :=
| dies_idle : dies m (m_Store m)
| dies_sealing e st' stored listed :
    seal_fits e m -> sp_buf (m_Spool m) <> [] ->
    seal_effect (seal_paths e m) (m_Store m) st' (file_segment mid (seal_file e m)) stored listed ->
    dies m st'.
(** What others find of a running manager: it between two calls, or in the middle of a seal,
    when the batch has left the buffer, some of the records that arrive are in it, and the
    seal is at any point of its uploads.  The list is the batch until it is catalogued. *)
Inductive observed (m : Mgr) : list LogRecord -> Mgr -> Prop :=
| observed_idle : observed m [] m
| observed_sealing e batch sp arrived st' stored is_listed :
    seal_fits e m -> seal_begin (m_Spool m) = Some (batch, sp) -> arrived `prefix_of` se_arrivals e ->
    seal_effect (seal_paths e m) (m_Store m) st' (file_segment mid (seal_file e m)) stored is_listed ->
    observed m (if is_listed then [] else batch) (with_parts (accept_all arrived sp, st') m).
Definition restart (m m' : Mgr) : Prop := exists st, dies m st /\ starts st m'.
Definition life (m m' : Mgr) : Prop := run_step m m' \/ restart m m'.

(** A deployment begins over an object store without objects of this manager. *)
Definition begins (m : Mgr) : Prop := exists st,
  s_ManagerID st = mid /\ kv_scan (s_cat st) = [] /\
  (forall k, HasPrefix k (segPrefix mid) = true \/ HasPrefix k (snapPrefix mid) = true ->
    contents (s_blobs st) !! k = None) /\
  starts st m.
Definition deployed (m : Mgr) : Prop := exists m0, begins m0 /\ rtc life m0 m.

(** ** The simulation *)

Abbreviation segs_of := (fmap (file_segment mid)) (only parsing).
Definition records_of (files : list sealed_file) : list LogRecord := List.concat (sf_batch <$> files).

(** The capacity of the cache. *)
Definition maxBytes : Z := if cap <=? 0 then 2 ^ 31 else cap.

Record sim (m : Mgr) (files : list sealed_file) (ac : list LogRecord) : Prop := {
  si_holds : holds mid (m_Store m) (segs_of files);
  si_cache : coherent maxBytes (m_Store m) (segs_of files);
  si_files : Forall file_ok files;
  si_buf : Forall wire_ok (sp_buf (m_Spool m));
  si_cfg : sp_cfg (m_Spool m) = defaults cfg;
  si_steps : SpoolSafe.reachable false cfg (mkWorld (m_Spool m) [] (records_of files) ac);
  si_visible r : r ∈ ac -> r ∈ sp_buf (m_Spool m) \/
    exists f, f ∈ files /\ r ∈ sf_batch f /\ listed (m_Store m) (file_segment mid f)
}.

Lemma records_of_app files files' : records_of (files ++ files') = records_of files ++ records_of files'.
Proof. unfold records_of. by rewrite fmap_app, List.concat_app. Qed.
Lemma records_of_one f : records_of [f] = sf_batch f.
Proof. unfold records_of. cbn. apply app_nil_r. Qed.
Lemma elem_of_records r files : r ∈ records_of files <-> exists f, f ∈ files /\ r ∈ sf_batch f.
Proof.
  induction files as [|f files IH].
  - split; [by intros ?%elem_of_nil|intros (f & Hf & _); by apply elem_of_nil in Hf].
  - change (f :: files) with ([f] ++ files). rewrite records_of_app, records_of_one, elem_of_app, IH. split.
    + intros [Hr|(g & Hg & Hr)]; [exists f; split; [by left|done]|exists g; split; [by right|done]].
    + intros (g & [->|Hg]%elem_of_cons & Hr); [by left|right; eauto].
Qed.
Lemma defaults_idem c : defaults (defaults c) = defaults c.
Proof.
  assert (E : forall d x, 0 < d -> (if (if x <=? 0 then d else x) <=? 0 then d else if x <=? 0 then d else x)
    = if x <=? 0 then d else x).
  { intros d x Hd. destruct (Z.leb_spec x 0) as [L|L]; by rewrite (proj2 (Z.leb_gt _ _)) by done. }
  unfold defaults. cbn [MaxSegBytes MaxSegAge]. by rewrite !E by reflexivity.
Qed.
Lemma accept_cfg now r sp : sp_cfg (fst (Accept now r sp)) = sp_cfg sp.
Proof. unfold Accept. by destruct (is_duplicate sp r). Qed.
Lemma accept_all_cfg l sp : sp_cfg (accept_all l sp) = sp_cfg sp.
Proof.
  unfold accept_all. revert sp; induction l as [|a l IH]; intros sp; cbn; [done|]. by rewrite IH, accept_cfg.
Qed.
Lemma SpoolSeal_cfg disk now created id tmp arrivals sp sp' (st st' : Store B D) r :
  SpoolSeal disk now created id tmp arrivals (sp, st) = ((sp', st'), r) -> sp_cfg sp' = sp_cfg sp.
Proof.
  unfold SpoolSeal, seal_begin. destruct (_ =? 0)%nat; [intros [= <- _ _]; apply accept_all_cfg|].
  destruct (seal_batch _ _ _ _ _ _) as [st1 [m|e]]; intros [= <- _ _]; apply (accept_all_cfg arrivals (mkSpool _ _ _ _ _ _)).
Qed.

(** ** Seals *)

Lemma seal_batch_effect disk f tmp (st st' : Store B D) r :
  file_ok f -> s_ManagerID st = mid ->
  seal_batch disk (sf_created f) (sf_id f) tmp (sf_batch f) st = (st', r) ->
  exists stored, seal_effect [tmp; pathFor (s_cache st) (sf_id f)] st st' (file_segment mid f) stored (is_ok r).
Proof.
  intros Hf Hm E. unfold seal_batch in E. pose proof (file_sealable f Hf) as Hse.
  destruct (write_batch disk _ _) as [[data m0]|e] eqn:Ew;
    [|injection E as <- <-; exists false; apply effect_body; [done|done|by left]].
  apply write_batch_layout in Ew as [-> ->];
    [|by eapply sealable_marshals|pose proof (ft_count _ _ (fo_fits _ Hf)); lia].
  fold (sf_groups f) in E. set (st1 := fst (put_file tmp _ st)) in E.
  destruct (Seal (dk_rename disk) tmp (sf_id f) _ st1) as [st2 r2] eqn:Es.
  apply (Seal_effect _ _ _ _ _ _ (layout (sf_created f) (sf_groups f))) in Es as [stored Es];
    [|unfold st1, put_file, modify_st; cbn; apply lookup_insert_eq].
  replace (s_ManagerID st1) with mid in Es by by rewrite <- Hm.
  exists stored. destruct r2; injection E as <- <-; (eapply effect_change; [..|exact Es]); done.
Qed.

Lemma seal_file_ok e (m : Mgr) : Forall wire_ok (sp_buf (m_Spool m)) -> seal_fits e m ->
  sp_buf (m_Spool m) <> [] -> file_ok (seal_file e m).
Proof. intros Hb [_ _ _ (Hid & Hs & _) _ Hr] Hne. split; [done|done|by apply Hr]. Qed.

Lemma paths_ok e (m : Mgr) : seal_fits e m -> file_ok (seal_file e m) ->
  Forall (fun p => go_meta_ok (set_LocalPath p (sg_meta (file_segment mid (seal_file e m))))) (seal_paths e m).
Proof.
  intros Hs Hf. eapply Forall_impl; [apply (sf_names _ _ Hs)|]. intros p Hp. by apply file_meta_ok.
Qed.

(** The files after a seal that stored its batch, or did not. *)
Definition then_file (stored : bool) (f : sealed_file) : list sealed_file := if stored then [f] else [].

Lemma effect_sim e (m : Mgr) st' stored is_listed files :
  holds mid (m_Store m) (segs_of files) -> seal_fits e m -> file_ok (seal_file e m) ->
  seal_effect (seal_paths e m) (m_Store m) st' (file_segment mid (seal_file e m)) stored is_listed ->
  holds mid st' (segs_of (files ++ then_file stored (seal_file e m))) /\
  (is_listed = true -> stored = true /\ listed st' (file_segment mid (seal_file e m))) /\
  (forall f, f ∈ files -> listed (m_Store m) (file_segment mid f) -> listed st' (file_segment mid f)).
Proof.
  intros Hh Hs Hf E. pose proof (file_named mid Hmid _ Hf) as Hn. pose proof (paths_ok e m Hs Hf) as Hp.
  pose proof (sf_fresh _ _ Hs) as Hfr. split_and!.
  - pose proof (effect_holds mid _ _ _ _ _ _ _ Hh Hn Hfr Hp E) as Hh'. rewrite fmap_app.
    destruct stored; cbn in *; [done|by rewrite app_nil_r].
  - intros ->. split; [by inversion E|]. by eapply effect_lists.
  - intros f Hfin. eapply effect_keeps_listed; [exact Hh|exact Hn|exact Hfr|exact Hp|exact E|].
    by apply list_elem_of_fmap_2.
Qed.

(** What a seal does to the cache and the files. *)
Lemma seal_moves disk e (m : Mgr) st r : seal_fits e m -> file_ok (seal_file e m) ->
  seal_batch disk (se_created e) (se_id e) (se_tmp e) (sp_buf (m_Spool m)) (m_Store m) = (st, r) ->
  moves (se_id e) (sg_body (file_segment mid (seal_file e m))) [se_tmp e] (m_Store m) st /\
  forall id', pathFor (s_cache (m_Store m)) id' ∉ [se_tmp e].
Proof.
  intros Hs Hf E. set (new := file_segment mid (seal_file e m)).
  pose proof (sf_unused _ _ Hs) as Hun.
  assert (Hcl : clean (se_id e) (sg_body new) (m_Store m)) by (intros d Hd; by rewrite Hun in Hd).
  destruct (sf_scratch _ _ Hs) as [work Ht].
  assert (Htmp : forall id', pathFor (s_cache (m_Store m)) id' ∉ [se_tmp e]).
  { intros id' E'%list_elem_of_singleton. rewrite Ht in E'. revert E'.
    replace (work +:+ "/" +:+ se_id e +:+ ".seg.tmp") with ((work +:+ "/" +:+ se_id e +:+ ".seg") +:+ ".tmp")
      by by rewrite !str_app_assoc. apply pathFor_not_tmp. }
  split; [|done].
  apply (seal_batch_moves _ _ _ _ _ _ _ _ (sg_body new)) in E; [exact E| |exact Hcl|].
  - intros data m0 Ew. apply write_batch_layout in Ew as [-> _]; [done|..].
    + eapply sealable_marshals. apply (file_sealable _ Hf).
    + pose proof (ft_count _ _ (fo_fits _ Hf)) as Hn. cbn in Hn. lia.
  - intros E'. apply (Htmp (se_id e)). rewrite E'. by left.
Qed.
Lemma seal_id_new e (m : Mgr) files sg : holds mid (m_Store m) (segs_of files) -> seal_fits e m ->
  file_ok (seal_file e m) -> sg ∈ segs_of files -> sg_id sg <> se_id e.
Proof.
  intros Hh Hs Hf Hsg.
  apply (fresh_key mid _ _ (file_segment mid (seal_file e m)) sg (ho_objects _ _ _ Hh)); [by apply file_named|apply Hs|done].
Qed.
(** A seal keeps the cache coherent. *)
Lemma seal_coherent disk e (m : Mgr) st r (stored : bool) files :
  holds mid (m_Store m) (segs_of files) -> coherent maxBytes (m_Store m) (segs_of files) ->
  seal_fits e m -> file_ok (seal_file e m) ->
  seal_batch disk (se_created e) (se_id e) (se_tmp e) (sp_buf (m_Spool m)) (m_Store m) = (st, r) ->
  coherent maxBytes st (segs_of (files ++ then_file stored (seal_file e m))).
Proof.
  intros Hh Hco Hs Hf E. destruct (seal_moves _ _ _ _ _ Hs Hf E) as [M Htmp].
  eapply coherent_moves; [exact Hco|exact M|exact Htmp|]. intros sg Hsg. rewrite fmap_app in Hsg.
  apply elem_of_app in Hsg as [Hsg|Hsg].
  - left. split; [done|]. by eapply seal_id_new.
  - right. destruct stored; [|by apply elem_of_nil in Hsg]. apply list_elem_of_singleton in Hsg as ->.
    split; [done|]. split; [done|]. right. intros d Hd. by rewrite (sf_unused _ _ Hs) in Hd.
Qed.

Lemma sort_slice_nil : sort_slice [] = [].
Proof. apply Permutation_nil_r, sort_slice_perm. Qed.

(** The buffer after a seal of [batch] during which [new] was accepted. *)
Definition after_seal {A} (r : result store_error A) (batch new : list LogRecord) : list LogRecord :=
  match r with Ok _ => new | Err _ => sort_slice batch ++ new end.

Lemma seal_run e (m : Mgr) sp st r files ac : sim m files ac -> seal_fits e m ->
  SpoolSeal (se_disk e) (se_now e) (se_created e) (se_id e) (se_tmp e) (se_arrivals e)
    (m_Spool m, m_Store m) = ((sp, st), r) ->
  exists new, Forall wire_ok new /\ sp_buf sp = after_seal r (sp_buf (m_Spool m)) new /\
    sp_cfg sp = defaults cfg /\
    forall stored : bool, (is_ok r = true -> sp_buf (m_Spool m) = [] \/ stored = true) ->
      SpoolSafe.reachable false cfg
        (mkWorld sp [] (records_of files ++ if stored then sp_buf (m_Spool m) else []) (ac ++ new)).
Proof.
  intros [Hh Hco Hf Hb Hc Hr Hv] Hs E.
  assert (Hpos : Forall (fun a => 0 < rec_Offset a.2) (se_arrivals e)).
  { eapply Forall_impl; [apply (sf_arrivals _ _ Hs)|]. by intros a [? _]. }
  destruct (SpoolSeal_run _ _ _ _ _ _ _ _ _ _ _ (records_of files) ac Hpos E) as (new & Hnew & Hrun).
  exists new. split.
  { apply Forall_forall. intros x Hx%Hnew. apply list_elem_of_fmap in Hx as (a & -> & Ha).
    pose proof (sf_arrivals _ _ Hs) as Hw. rewrite Forall_forall in Hw. by apply Hw. }
  split; [destruct r; apply Hrun|]. split; [rewrite <- Hc; by eapply SpoolSeal_cfg|].
  intros stored Hst. unfold SpoolSafe.reachable in *. etrans; [exact Hr|]. destruct r as [n|err].
  - destruct Hrun as (_ & _ & Hrun). destruct (Hst eq_refl) as [E0| ->]; [|exact Hrun].
    rewrite E0 in *. by destruct stored.
  - destruct Hrun as [_ Hrun]. specialize (Hrun stored). destruct stored; [done|by rewrite app_nil_r].
Qed.

Lemma after_seal_wire {A} (r : result store_error A) batch new :
  Forall wire_ok batch -> Forall wire_ok new -> Forall wire_ok (after_seal r batch new).
Proof.
  intros Hb Hn. destruct r; [done|]. apply Forall_app. split; [|done]. by rewrite sort_slice_perm.
Qed.

(** What was accepted stays visible across a seal: in the buffer, or in a listed file. *)
Lemma after_seal_visible {A} (r : result store_error A) batch new x (P : Prop) :
  (x ∈ batch -> is_ok r = true -> P) -> x ∈ batch \/ x ∈ new -> x ∈ after_seal r batch new \/ P.
Proof.
  intros HP [Hx|Hx]; destruct r; cbn in *; rewrite ?elem_of_app, ?sort_slice_perm; auto.
Qed.

Lemma seal_call_sim e (m : Mgr) files ac : sim m files ac -> seal_fits e m ->
  exists files' new (stored : bool), sim (fst (seal_call e m)) (files ++ files') (ac ++ new) /\
    records_of files' = (if stored then sp_buf (m_Spool m) else []) /\
    (is_ok (snd (seal_call e m)) = true -> sp_buf (m_Spool m) = [] \/ stored = true) /\
    sp_buf (m_Spool (fst (seal_call e m))) = after_seal (snd (seal_call e m)) (sp_buf (m_Spool m)) new.
Proof.
  intros Hsim Hs. unfold seal_call. destruct (SpoolSeal _ _ _ _ _ _ _) as [[sp st] r] eqn:E.
  destruct (seal_run e m sp st r files ac Hsim Hs E) as (new & Hwn & Hbuf & Hcfg & Hrun).
  destruct Hsim as [Hh Hco Hf Hb Hc Hr Hv]. cbn [fst snd with_parts].
  destruct (SpoolSeal_store _ _ _ _ _ _ _ _ _ _ _ E) as [[E0 ->]|(Hne & r1 & Eb & Er)].
  - exists [], new, false. rewrite app_nil_r. split; [|by auto].
    split; cbn [m_Spool m_Store with_parts fst snd]; [done|done|done|rewrite Hbuf; by apply after_seal_wire|done| |].
    + specialize (Hrun false (fun _ => or_introl E0)). by rewrite app_nil_r in Hrun.
    + intros x Hx. rewrite Hbuf. apply elem_of_app in Hx as [Hx|Hx].
      * destruct (Hv x Hx) as [Hx'|?]; [|by right]. rewrite E0 in Hx'. by apply elem_of_nil in Hx'.
      * apply after_seal_visible; [|by right]. rewrite E0. by intros ?%elem_of_nil.
  - pose proof (seal_file_ok e m Hb Hs Hne) as Hfo.
    destruct (seal_batch_effect _ (seal_file e m) _ _ _ _ Hfo (ho_mid _ _ _ Hh) Eb) as [stored Ef].
    destruct (effect_sim e m st stored _ files Hh Hs Hfo Ef) as (Hh' & Hl & Hk). rewrite Er in Hl.
    exists (then_file stored (seal_file e m)), new, stored. split; [|split; [|split; [|done]]];
      [|by destruct stored; [apply records_of_one|]|intros Hok; right; by apply Hl].
    pose proof (seal_coherent _ e m st r1 stored files Hh Hco Hs Hfo Eb) as Hco'.
    split; cbn [m_Spool m_Store with_parts fst snd]; [done|exact Hco'| |rewrite Hbuf; by apply after_seal_wire|done| |].
    + apply Forall_app. split; [done|]. destruct stored; [by constructor|done].
    + rewrite records_of_app. specialize (Hrun stored (fun H' => or_intror (proj1 (Hl H')))).
      destruct stored; cbn [then_file]; [by rewrite records_of_one|done].
    + intros x Hx. rewrite Hbuf. apply elem_of_app in Hx as [Hx|Hx].
      * destruct (Hv x Hx) as [Hx'|(f & Hfin & Hxf & Hlf)]; cycle 1.
        { right. exists f. split; [apply elem_of_app; by left|]. split; [done|by apply Hk]. }
        apply after_seal_visible; [|by left]. intros _ Hok. destruct (Hl Hok) as [-> Hlf].
        exists (seal_file e m). split; [apply elem_of_app; right; by left|done].
      * apply after_seal_visible; [|by right]. intros Hx' Hok. destruct (Hl Hok) as [-> Hlf].
        exists (seal_file e m). split; [apply elem_of_app; right; by left|done].
Qed.

(** ** Every step of a run *)

Lemma sim_store (m : Mgr) st files ac : sim m files ac -> holds mid st (segs_of files) ->
  coherent maxBytes st (segs_of files) -> s_cat st = s_cat (m_Store m) -> sim (with_parts (m_Spool m, st) m) files ac.
Proof.
  intros [Hh Hco Hf Hb Hc Hr Hv] Hst Hco' E. split; [done|done|done|done|done|done|].
  intros r Hr'. destruct (Hv r Hr') as [?|(f & Hfin & Hrf & ms & sm & Ha & Hl)]; [by left|].
  right. exists f. split; [done|]. split; [done|]. exists ms, sm. split; [|done]. cbn. by rewrite E.
Qed.

Lemma snapshot_sim id (m : Mgr) files ac : sim m files ac -> sim (fst (snapshot_call id m)) files ac.
Proof.
  intros Hsim. unfold snapshot_call. destruct (Snapshot id (m_Store m)) as [st r] eqn:E. cbn [fst].
  apply sim_store; [done| | |by eapply Snapshot_cat].
  - by eapply (Snapshot_safe mid); [apply (si_holds _ _ _ Hsim)|exact E].
  - apply Snapshot_cache in E as [E1 E2]. by apply (coherent_same _ (m_Store m)); [apply (si_cache _ _ _ Hsim)|..].
Qed.

Lemma accept_sim now r (m : Mgr) files ac : sim m files ac -> wire_ok r ->
  exists new, sp_buf (fst (Accept now r (m_Spool m))) = sp_buf (m_Spool m) ++ new /\
    sim (with_parts (fst (Accept now r (m_Spool m)), m_Store m) m) files (ac ++ new).
Proof.
  intros [Hh Hco Hf Hb Hc Hr Hv] Hw.
  pose proof (step_accept false (m_Spool m) [] (records_of files) ac now r (proj1 Hw)) as Hs.
  assert (Hst : exists new, sp_buf (fst (Accept now r (m_Spool m))) = sp_buf (m_Spool m) ++ new /\
    Forall wire_ok new /\ SpoolSafe.reachable false cfg
      (mkWorld (fst (Accept now r (m_Spool m))) [] (records_of files) (ac ++ new))).
  { unfold SpoolSafe.reachable in *. unfold Accept in *. destruct (is_duplicate (m_Spool m) r).
    - exists []. rewrite !app_nil_r. split; [done|]. split; [done|]. by eapply rtc_r.
    - exists [r]. split; [done|]. split; [by constructor|]. by eapply rtc_r. }
  destruct Hst as (new & Hbuf & Hwn & Hst). exists new. split; [exact Hbuf|].
  split; cbn [m_Spool m_Store with_parts fst snd]; [done|done|done| |by rewrite accept_cfg|done|].
  - rewrite Hbuf. by apply Forall_app.
  - intros x. rewrite Hbuf, !elem_of_app. intros [Hx|Hx]; [|tauto]. destruct (Hv x Hx); tauto.
Qed.

(** The segment of a catalogued entry. *)
Lemma listed_file st files ms sm : holds mid st (segs_of files) -> cat_all (s_cat st) = Ok ms -> sm ∈ ms ->
  exists f, f ∈ files /\ set_LocalPath "" sm = sg_meta (file_segment mid f) /\
    sm_ID sm = sg_id (file_segment mid f) /\ sm_S3Key sm = sg_key (file_segment mid f) /\
    contents (s_blobs st) !! sg_key (file_segment mid f) = Some (sg_body (file_segment mid f)).
Proof.
  intros Hh Ha Hm. destruct (catalogued_of mid st _ ms sm Hh Ha Hm) as (sg & Hsg & Em).
  pose proof (ob_body _ _ _ (ho_objects _ _ _ Hh) _ Hsg) as Hb.
  apply list_elem_of_fmap in Hsg as (f & -> & Hf). exists f.
  split; [done|]. split; [done|]. split; [by unfold sg_id; rewrite <- Em|]. split; [by unfold sg_key; rewrite <- Em|done].
Qed.
(** Reading the segment of a file. *)
Lemma segment_read_sim sm (m : Mgr) st' r files ac f : sim m files ac -> f ∈ files ->
  sm_ID sm = sg_id (file_segment mid f) -> sm_S3Key sm = sg_key (file_segment mid f) ->
  StoreReader sm (m_Store m) = (st', r) -> sim (with_parts (m_Spool m, st') m) files ac.
Proof.
  intros Hsim Hf Ei Ek E. pose proof (si_holds _ _ _ Hsim) as Hh. apply sim_store; [done| | |].
  - eapply (quiet_holds mid); [apply StoreReader_quiet|exact E|done].
  - eapply coherent_read; [apply (si_cache _ _ _ Hsim)|by apply list_elem_of_fmap_2|done|done| | |exact E].
    + apply (ob_body _ _ _ (ho_objects _ _ _ Hh)). by apply list_elem_of_fmap_2.
    + intros sg Hsg. apply (objects_same mid _ _ _ _ (ho_objects _ _ _ Hh) Hsg). by apply list_elem_of_fmap_2.
  - by destruct (StoreReader_quiet _ _ _ _ E) as (_ & ? & _).
Qed.

Lemma quiet_sim (m m' : Mgr) files ac : sim m files ac -> quiet_step m m' ->
  m_Spool m' = m_Spool m /\ sim m' files ac.
Proof.
  intros Hsim Hq. revert Hsim. destruct Hq as [id m1|ms sm st' r m1 Ha Hm E|b' m1 Hb]; intros Hsim.
  - split; [|by apply snapshot_sim]. unfold snapshot_call. by destruct (Snapshot _ _).
  - split; [done|]. destruct (listed_file _ _ _ _ (si_holds _ _ _ Hsim) Ha Hm) as (f & Hf & _ & Ei & Ek & _).
    by eapply segment_read_sim.
  - split; [done|]. apply sim_store; [done| |by apply (coherent_same _ (m_Store m1)); [apply (si_cache _ _ _ Hsim)|..]|done].
    destruct (si_holds _ _ _ Hsim) as [Hm Ho Hc].
    split; [done| |done]. by eapply objects_foreign.
Qed.

Lemma run_step_sim (m m' : Mgr) files ac : sim m files ac -> run_step m m' ->
  exists files' new, sim m' (files ++ files') (ac ++ new).
Proof.
  assert (Same : forall m', sim m' files ac -> exists files' new, sim m' (files ++ files') (ac ++ new)).
  { intros x Hx. exists [], []. by rewrite !app_nil_r. }
  intros Hsim Hst. revert Hsim. destruct Hst as [ev m1 Hev|e id m1 Hs|m1 m2 Hq]; intros Hsim.
  - destruct ev as [now r|e|id]; cbn in *.
    + destruct (accept_sim now r m1 files ac Hsim Hev) as (new & _ & Hn). exists [], new. by rewrite app_nil_r.
    + destruct (shouldSeal _ _); [|by apply Same].
      destruct (seal_call_sim e m1 files ac Hsim Hev) as (files' & new & _ & Hn & _). by exists files', new.
    + by apply Same, snapshot_sim.
  - destruct (seal_call_sim e m1 files ac Hsim Hs) as (files' & new & _ & Hn & _). exists files', new.
    unfold Shutdown. destruct (seal_call e m1) as [m2 r]. by apply snapshot_sim.
  - apply Same. by eapply quiet_sim.
Qed.

Lemma run_sim (m m' : Mgr) files ac : sim m files ac -> rtc run_step m m' ->
  exists files' new, sim m' (files ++ files') (ac ++ new).
Proof.
  intros Hsim Hr. revert files ac Hsim. induction Hr as [m|m m1 m' Hs _ IH]; intros files ac Hsim.
  - exists [], []. by rewrite !app_nil_r.
  - destruct (run_step_sim _ _ _ _ Hsim Hs) as (f1 & n1 & S1). destruct (IH _ _ S1) as (f2 & n2 & S2).
    exists (f1 ++ f2), (n1 ++ n2). by rewrite !app_assoc.
Qed.

(** ** A downloaded file stays what it is *)

(** The path [p] of the segment of [f] has the segment's body, or nothing. *)
Definition has_body (p : string) (f : sealed_file) (st : Store B D) : Prop :=
  pathFor (s_cache st) (sf_id f) = p /\ clean (sf_id f) (sg_body (file_segment mid f)) st.

Lemma moves_has_body id body tmp (st st' : Store B D) p f : moves id body tmp st st' ->
  (forall id', pathFor (s_cache st) id' ∉ tmp) -> (sf_id f = id -> sg_body (file_segment mid f) = body) ->
  has_body p f st -> has_body p f st'.
Proof.
  intros M Ht He [Hp Hc]. split; [by rewrite (moves_path _ _ _ _ _ _ M)|by eapply moves_keep].
Qed.
Lemma same_has_body (st st' : Store B D) p f : s_cache st' = s_cache st -> s_fs st' = s_fs st ->
  has_body p f st -> has_body p f st'.
Proof. intros E1 E2. unfold has_body, clean. by rewrite E1, E2. Qed.

Lemma seal_call_has_body e (m : Mgr) files ac p f : sim m files ac -> seal_fits e m -> f ∈ files ->
  has_body p f (m_Store m) -> has_body p f (m_Store (fst (seal_call e m))).
Proof.
  intros Hsim Hs Hf Hi. unfold seal_call. destruct (SpoolSeal _ _ _ _ _ _ _) as [[sp st] r] eqn:E.
  destruct (SpoolSeal_store _ _ _ _ _ _ _ _ _ _ _ E) as [[_ ->]|(Hne & r1 & Eb & _)]; [exact Hi|]. cbn.
  pose proof (seal_file_ok e m (si_buf _ _ _ Hsim) Hs Hne) as Hfo.
  destruct (seal_moves _ _ _ _ _ Hs Hfo Eb) as [M Ht]. eapply moves_has_body; [exact M|exact Ht| |exact Hi].
  intros Ei. exfalso. eapply (seal_id_new e m files (file_segment mid f));
    [apply (si_holds _ _ _ Hsim)|done|done|by apply list_elem_of_fmap_2|exact Ei].
Qed.
Lemma snapshot_has_body id (m : Mgr) p f : has_body p f (m_Store m) -> has_body p f (m_Store (fst (snapshot_call id m))).
Proof.
  unfold snapshot_call. destruct (Snapshot id (m_Store m)) as [st r] eqn:E.
  apply Snapshot_cache in E as [E1 E2]. by apply same_has_body.
Qed.
Lemma read_has_body sm (m : Mgr) st' r files ac p f f' : sim m files ac -> f ∈ files -> f' ∈ files ->
  sm_ID sm = sg_id (file_segment mid f') -> sm_S3Key sm = sg_key (file_segment mid f') ->
  StoreReader sm (m_Store m) = (st', r) -> has_body p f (m_Store m) -> has_body p f st'.
Proof.
  intros Hsim Hf Hf' Ei Ek E. pose proof (ho_objects _ _ _ (si_holds _ _ _ Hsim)) as Ho.
  assert (Hb : contents (s_blobs (m_Store m)) !! sm_S3Key sm = Some (sg_body (file_segment mid f')))
    by (rewrite Ek; apply (ob_body _ _ _ Ho); by apply list_elem_of_fmap_2).
  pose proof (StoreReader_moves _ _ _ _ _ (co_inv _ _ _ (si_cache _ _ _ Hsim)) Hb E) as M.
  eapply moves_has_body; [exact M|intros id' ?%elem_of_nil; done|]. rewrite Ei. intros Es. f_equal.
  eapply (objects_same mid _ _ _ _ Ho); [by apply list_elem_of_fmap_2..|exact Es].
Qed.
Lemma run_step_has_body (m m' : Mgr) files ac p f : sim m files ac -> f ∈ files -> run_step m m' ->
  has_body p f (m_Store m) -> has_body p f (m_Store m').
Proof.
  intros Hsim Hf Hs. revert Hsim. destruct Hs as [[now r|e|id] m Hev|e id m Hev|m m' Hq]; cbn; intros Hsim Hi.
  - done.
  - destruct (shouldSeal _ _); [by eapply seal_call_has_body|done].
  - by apply snapshot_has_body.
  - pose proof (seal_call_has_body e m files ac p f Hsim Hev Hf Hi) as Hi'. unfold Shutdown.
    destruct (seal_call e m) as [m1 r]. by apply snapshot_has_body.
  - revert Hsim Hi. destruct Hq as [id m1|ms sm st' r m1 Ha Hm E|b' m1 Hb]; intros Hsim Hi.
    + by apply snapshot_has_body.
    + destruct (listed_file _ _ _ _ (si_holds _ _ _ Hsim) Ha Hm) as (f' & Hf' & _ & Ei & Ek & _). by eapply read_has_body.
    + exact (same_has_body (m_Store m1) (m_Store (with_parts (m_Spool m1, mkStore _ b' _ _ _) m1)) p f eq_refl eq_refl Hi).
Qed.
Lemma run_has_body (m m' : Mgr) files ac p f : sim m files ac -> f ∈ files -> rtc run_step m m' ->
  has_body p f (m_Store m) -> has_body p f (m_Store m').
Proof.
  intros Hsim Hf Hr. revert files ac Hsim Hf. induction Hr as [m|m m1 m' Hs _ IH]; intros files ac Hsim Hf Hi; [done|].
  destruct (run_step_sim _ _ _ _ Hsim Hs) as (f1 & n1 & S1).
  eapply (IH _ _ S1); [apply elem_of_app; by left|exact (run_step_has_body m m1 files ac p f Hsim Hf Hs Hi)].
Qed.

(** ** Starts and restarts *)

Lemma boot_holds mk st db fs st' r segs :
  holds mid st segs -> db = s_cat st \/ kv_scan db = [] -> boot mk (s_blobs st) db fs = (st', r) ->
  holds mid st' segs /\ forall m, r = Ok m -> exists wm,
    m_Store m = st' /\ m_Spool m = NewSpool cfg wm /\ (forall sg, sg ∈ segs -> listed st' sg) /\
    SourceWatermarks st' = (st', Ok wm).
Proof.
  intros Hh Hdb E. unfold boot in E.
  assert (Hopen : holds mid (OpenStore mid base cap (s_blobs st) db fs) segs).
  { destruct Hh as [Hm Ho Hc]. split; cbn; [done|done|]. destruct Hdb as [->|Ek]; [done|].
    exists []. split; [unfold cat_rep; rewrite Ek|]; constructor. }
  unfold mbind at 1, stM_bind in E. destruct (Recover _) as [st1 [[]|e]] eqn:Er;
    [|injection E as <- <-; split; [by eapply Recover_safe|done]].
  destruct (Recover_lists mid _ _ _ Hopen Er) as [Hh1 Hl]. unfold NewManager in E.
  destruct mk; cbn [negb] in E; [|injection E as <- <-; by split].
  unfold mbind, stM_bind in E. destruct (SourceWatermarks st1) as [st2 [wm|e]] eqn:Ew.
  - destruct (SourceWatermarks_spec mid _ _ _ _ Hh1 Hl Ew) as (-> & _). injection E as <- <-.
    split; [done|]. intros m [= <-]. exists wm. by repeat split.
  - unfold SourceWatermarks, read_cat, on_cat, mbind, stM_bind in Ew.
    destruct (ho_cat _ _ _ Hh1) as (ms & Hr & _). by rewrite (cat_all_rep _ _ Hr) in Ew.
Qed.

Lemma files_recovered st st' wm files : Forall file_ok files ->
  holds mid st (segs_of files) -> (forall sg, sg ∈ segs_of files -> listed st sg) ->
  SourceWatermarks st = (st', Ok wm) -> recovered wm (records_of files).
Proof.
  intros Hf Hh Hl Ew. destruct (SourceWatermarks_spec mid _ _ _ _ Hh Hl Ew) as (_ & Hge & Hat).
  rewrite Forall_forall in Hf. split.
  - intros r (f & Hfin & Hr)%elem_of_records.
    destruct (file_offset_covers mid f r (Hf _ Hfin) Hr) as (off & Eo & Ho).
    specialize (Hge (file_segment mid f) (key_of r) off). rewrite Eo in Hge.
    etrans; [exact Ho|]. apply Hge; [by apply list_elem_of_fmap_2|done].
  - intros k. destruct (Hat k) as [?|(sg & Hsg & Eo)]; [by left|]. right.
    apply list_elem_of_fmap in Hsg as (f & -> & Hfin).
    apply (file_offset_attained mid) in Eo as (r & Hr & Ek & Eo). exists r.
    split; [apply elem_of_records; by exists f|done].
Qed.

Lemma starts_recovers st (m : Mgr) files : Forall file_ok files -> holds mid st (segs_of files) -> starts st m ->
  exists wm, recovered wm (records_of files) /\ m_Spool m = NewSpool cfg wm /\
    holds mid (m_Store m) (segs_of files) /\
    forall f, f ∈ files -> listed (m_Store m) (file_segment mid f).
Proof.
  intros Hf Hh Hs. induction Hs as [st mk db fs st' m Hdb E|st mk db fs st' e m Hdb E _ IH].
  - destruct (boot_holds _ _ _ _ _ _ _ Hh Hdb E) as [Hh' Hm].
    destruct (Hm m eq_refl) as (wm & <- & Esp & Hl & Ew). exists wm. split_and!; [|done|done|].
    + by eapply files_recovered.
    + intros f Hfin. apply Hl. by apply list_elem_of_fmap_2.
  - apply IH. by apply (boot_holds _ _ _ _ _ _ _ Hh Hdb E).
Qed.

(** A started manager's cache is empty. *)
Lemma boot_cache mk blobs db fs st' (m : Mgr) segs : boot mk blobs db fs = (st', Ok m) -> coherent maxBytes (m_Store m) segs.
Proof.
  intros E. pose proof (coherent_opened mid base cap blobs db fs segs) as Hco. fold maxBytes in Hco. unfold boot in E.
  unfold mbind at 1, stM_bind in E. destruct (Recover _) as [st1 [[]|e]] eqn:Er; [|done].
  apply Recover_cache in Er as [E1 E2]. eapply coherent_same; [exact Hco|..].
  all: unfold NewManager in E; destruct mk; cbn [negb] in E; [|done]; unfold mbind, stM_bind in E.
  all: destruct (SourceWatermarks st1) as [st2 [wm|e]] eqn:Ew; [|done]; injection E as _ <-; cbn [m_Store].
  all: assert (Hk : cacheless (B:=B) (D:=D) SourceWatermarks)
    by (apply cacheless_bind; [apply cacheless_cat|intros a; apply cacheless_ret]).
  all: apply Hk in Ew as [E3 E4]; congruence.
Qed.
Lemma starts_cache st (m : Mgr) segs : starts st m -> coherent maxBytes (m_Store m) segs.
Proof. induction 1 as [st mk db fs st' m _ E|]; [by eapply boot_cache|done]. Qed.

Lemma NewSpool_defaults wm : NewSpool (defaults cfg) wm = NewSpool cfg wm.
Proof. unfold NewSpool. by rewrite defaults_idem. Qed.

(** What a dying process leaves: its files, and the batch it was sealing or not. *)
Lemma dies_store (m : Mgr) st files ac : sim m files ac -> dies m st ->
  exists files' (stored : bool), holds mid st (segs_of (files ++ files')) /\ Forall file_ok (files ++ files') /\
    records_of files' = if stored then sp_buf (m_Spool m) else [].
Proof.
  intros [Hh Hco Hf Hb Hc Hr Hv] Hd. destruct Hd as [|e st' stored lst Hs Hne Ef].
  { exists [], false. by rewrite app_nil_r. }
  pose proof (seal_file_ok e m Hb Hs Hne) as Hfo.
  destruct (effect_sim e m st' stored lst files Hh Hs Hfo Ef) as (Hh' & _ & _).
  exists (then_file stored (seal_file e m)), stored. split; [done|].
  destruct stored; cbn [then_file]; [|by rewrite app_nil_r].
  split; [apply Forall_app; split; [done|by constructor]|apply records_of_one].
Qed.

(** A seal begun and lost, as abstract steps. *)
Lemma lost_batch sp du ac (stored : bool) : exists sp', sp_cfg sp' = sp_cfg sp /\
  rtc (step false) (mkWorld sp [] du ac) (mkWorld sp' [] (du ++ if stored then sp_buf sp else []) ac).
Proof.
  destruct (seal_begin sp) as [[batch sp1]|] eqn:Eb; unfold seal_begin in Eb;
    destruct (Nat.eqb_spec (length (sp_buf sp)) 0) as [E0|E0]; try done.
  - assert (E1 : batch = sp_buf sp /\ sp_cfg sp1 = sp_cfg sp) by by injection Eb as <- <-.
    destruct E1 as [-> Ec]. exists (requeue 0 (sp_buf sp) sp1). split; [done|]. eapply rtc_l; [|apply rtc_once].
    + apply (step_begin false sp [] du ac (sp_buf sp) sp1); [by right|]. unfold seal_begin.
      by rewrite (proj2 (Nat.eqb_neq _ _) E0).
    + pose proof (step_failed false sp1 [] (sp_buf sp) [] du ac (sp_buf sp) 0 stored (reflexivity _)) as S1.
      destruct stored; [done|by rewrite app_nil_r].
  - apply nil_length_inv in E0. exists sp. rewrite E0. split; [done|].
    destruct stored; rewrite app_nil_r; apply rtc_refl.
Qed.

Lemma restart_store (m m' : Mgr) files ac : sim m files ac -> restart m m' ->
  exists files' (stored : bool) wm, records_of files' = (if stored then sp_buf (m_Spool m) else []) /\
    recovered wm (records_of (files ++ files')) /\ m_Spool m' = NewSpool (sp_cfg (m_Spool m)) wm /\
    sim m' (files ++ files') (records_of (files ++ files')).
Proof.
  intros Hsim (st & Hd & Hs). destruct (dies_store _ _ _ _ Hsim Hd) as (files' & stored & Hh & Hf & Ef).
  destruct (starts_recovers _ _ _ Hf Hh Hs) as (wm & Hwm & Esp & Hh' & Hl).
  exists files', stored, wm. rewrite (si_cfg _ _ _ Hsim), NewSpool_defaults.
  split; [done|]. split; [done|]. split; [done|].
  split; [done|by eapply starts_cache|done|by rewrite Esp|by rewrite Esp| |].
  - destruct (lost_batch (m_Spool m) (records_of files) ac stored) as (sp & Hc & Hst).
    rewrite <- Ef, <- records_of_app in Hst. unfold SpoolSafe.reachable in *.
    eapply rtc_r; [etrans; [apply (si_steps _ _ _ Hsim)|exact Hst]|].
    rewrite Esp, <- NewSpool_defaults, <- (si_cfg _ _ _ Hsim), <- Hc. by apply step_restart.
  - intros r (f & Hfin & Hrf)%elem_of_records. right. exists f. split; [done|]. split; [done|by apply Hl].
Qed.

Lemma begins_sim (m : Mgr) : begins m -> sim m [] [].
Proof.
  intros (st & Hm & Hk & Hc & Hs).
  destruct (starts_recovers st m []) as (wm & Hwm & Esp & Hh' & Hl);
    [constructor|by apply holds_nothing|done|].
  split; [done|by eapply starts_cache|constructor|by rewrite Esp|by rewrite Esp| |by intros r ?%elem_of_nil].
  unfold SpoolSafe.reachable. apply rtc_once. rewrite Esp, <- NewSpool_defaults.
  apply (step_restart false (NewSpool cfg ∅) [] [] [] wm Hwm).
Qed.

Lemma life_sim (m m' : Mgr) files ac : sim m files ac -> rtc life m m' ->
  exists files' ac', sim m' (files ++ files') ac'.
Proof.
  intros Hsim Hr. revert files ac Hsim. induction Hr as [m|m m1 m' Hs _ IH]; intros files ac Hsim.
  - exists [], ac. by rewrite app_nil_r.
  - assert (S1 : exists f1 a1, sim m1 (files ++ f1) a1).
    { destruct Hs as [Hs|Hs].
      - destruct (run_step_sim _ _ _ _ Hsim Hs) as (f1 & n1 & S1). by exists f1, (ac ++ n1).
      - destruct (restart_store _ _ _ _ Hsim Hs) as (f1 & _ & _ & _ & _ & _ & S1).
        by exists f1, (records_of (files ++ f1)). }
    destruct S1 as (f1 & a1 & S1). destruct (IH _ _ S1) as (f2 & a2 & S2).
    exists (f1 ++ f2), a2. by rewrite app_assoc.
Qed.
Lemma deployed_sim (m : Mgr) : deployed m -> exists files ac, sim m files ac.
Proof.
  intros (m0 & Hb%begins_sim & Hr). destruct (life_sim _ _ _ _ Hb Hr) as (files & ac & Hs). by exists files, ac.
Qed.

(** ** What the object store promises *)

(** A record in the object store: in a file that opens and reads back, with its sidecar
    beside it, where [Recover] looks for sidecars. *)
Definition stored_in (st : Store B D) (r : LogRecord) : Prop := exists key body rs,
  contents (s_blobs st) !! key = Some body /\ reads_as body rs /\ r ∈ rs /\
  is_Some (contents (s_blobs st) !! (key +:+ metaSuffix)) /\
  HasPrefix (key +:+ metaSuffix) (segPrefix mid) = true.
(** A record queries can find: in the file of a segment the catalogue lists. *)
Definition queryable (st : Store B D) (r : LogRecord) : Prop := exists ms sm body rs,
  cat_all (s_cat st) = Ok ms /\ sm ∈ ms /\ contents (s_blobs st) !! sm_S3Key sm = Some body /\
  reads_as body rs /\ r ∈ rs.

Lemma stored_records st files r : holds mid st (segs_of files) -> Forall file_ok files ->
  stored_in st r <-> r ∈ records_of files.
Proof.
  intros [_ Ho _] Hf. rewrite Forall_forall in Hf. rewrite elem_of_records. split.
  - intros (key & body & rs & Hb & Hrs & Hr & Hm & Hp).
    destruct (ob_only _ _ _ Ho key Hm Hp) as (sg & Hsg & ->). rewrite (ob_body _ _ _ Ho sg Hsg) in Hb.
    apply list_elem_of_fmap in Hsg as (f & -> & Hfin). injection Hb as <-. exists f. split; [done|].
    rewrite (reads_as_fun _ _ _ Hrs (file_reads mid f (Hf _ Hfin))) in Hr. by rewrite sort_slice_perm in Hr.
  - intros (f & Hfin & Hr). assert (Hsg : file_segment mid f ∈ segs_of files) by by apply list_elem_of_fmap_2.
    exists (sg_key (file_segment mid f)), (sg_body (file_segment mid f)), (sort_slice (sf_batch f)).
    split; [by apply (ob_body _ _ _ Ho)|]. split; [by apply file_reads, Hf|].
    split; [by rewrite sort_slice_perm|]. split.
    + destruct (ob_sidecar _ _ _ Ho _ Hsg) as (sc & _ & ->). by eexists.
    + apply HasPrefix_app_r, named_prefix. by apply (objects_named _ _ _ _ Ho).
Qed.

Lemma listed_queryable st files f r : holds mid st (segs_of files) -> Forall file_ok files ->
  f ∈ files -> r ∈ sf_batch f -> listed st (file_segment mid f) -> queryable st r.
Proof.
  intros [_ Ho _] Hf Hfin Hr (ms & sm & Ha & Hm & Em). rewrite Forall_forall in Hf.
  exists ms, sm, (sg_body (file_segment mid f)), (sort_slice (sf_batch f)). split; [done|]. split; [done|].
  split; [|split; [by apply file_reads, Hf|by rewrite sort_slice_perm]].
  replace (sm_S3Key sm) with (sg_key (file_segment mid f)) by (unfold sg_key; by rewrite <- Em).
  apply (ob_body _ _ _ Ho). by apply list_elem_of_fmap_2.
Qed.

Lemma sim_inv (m : Mgr) files ac : sim m files ac -> inv (mkWorld (m_Spool m) [] (records_of files) ac).
Proof. intros Hs. by apply world_inv with cfg, si_steps. Qed.
Lemma sim_accepted (m : Mgr) files ac r : sim m files ac ->
  r ∈ sp_buf (m_Spool m) \/ r ∈ records_of files -> r ∈ ac.
Proof. intros Hi%sim_inv Hr. apply (inv_kept _ Hi r). cbn in *. tauto. Qed.

(** What the manager holds, it shows: in the buffer or in a catalogued file. *)
Lemma sim_held (m : Mgr) files ac r : sim m files ac -> stored_in (m_Store m) r \/ r ∈ sp_buf (m_Spool m) ->
  r ∈ sp_buf (m_Spool m) \/ exists f, f ∈ files /\ r ∈ sf_batch f /\ listed (m_Store m) (file_segment mid f).
Proof.
  intros Hs Hr. apply (si_visible _ _ _ Hs), (sim_accepted _ _ _ _ Hs).
  destruct Hr as [Hr|?]; [right|by left]. by apply (stored_records _ _ _ (si_holds _ _ _ Hs) (si_files _ _ _ Hs)).
Qed.

(** C4: an acknowledgement is kept for ever.  Take any deployment over a fresh prefix of
    the object store, and a record in its manager's buffer.  If, while that manager runs,
    the committed offset of its source, which the server acknowledges and the agent then
    forgets the record by, reaches the record, then from then on, through any seals,
    snapshots, queries, crashes in the middle of a seal, losses of the node's disk and
    failed and successful starts, the object store holds a file that opens and whose
    blocks read back to records with this one among them, beside the sidecar by which
    every recovery finds it. *)
Theorem acked_forever (m0 m1 m2 : Mgr) r :
  deployed m0 -> r ∈ sp_buf (m_Spool m0) -> rtc run_step m0 m1 ->
  rec_Offset r <= default 0 (Committed (m_Spool m1) !! key_of r) ->
  rtc life m1 m2 -> stored_in (m_Store m2) r.
Proof.
  intros (files & ac & S0)%deployed_sim Hr Hrun Hle Hlife.
  destruct (run_sim _ _ _ _ S0 Hrun) as (f1 & new & S1).
  assert (Hd : r ∈ records_of (files ++ f1)).
  { apply (committed_durable _ r (sim_inv _ _ _ S1)); [|done]. cbn. apply elem_of_app. left.
    apply (sim_accepted _ _ _ _ S0). by left. }
  destruct (life_sim _ _ _ _ S1 Hlife) as (f2 & ac2 & [Hh _ Hf _ _ _ _]).
  apply (stored_records _ _ _ Hh Hf). rewrite records_of_app. apply elem_of_app. by left.
Qed.

(** C27: an accepted record does not get lost while the manager runs.  Whatever is accepted,
    sealed, snapshot or read, and whether seals succeed or fail, at every moment it is in
    the open buffer, or in the file of a segment the catalogue lists, or in the batch that
    a seal has taken out of the buffer and not catalogued yet.  Only in the last case, so
    never between two calls, are queries unable to find it. *)
Theorem accepted_visible (m0 m1 m : Mgr) sealing r :
  deployed m0 -> r ∈ sp_buf (m_Spool m0) -> rtc run_step m0 m1 -> observed m1 sealing m ->
  r ∈ sp_buf (m_Spool m) \/ queryable (m_Store m) r \/ r ∈ sealing.
Proof.
  intros (files & ac & S0)%deployed_sim Hr Hrun Hobs.
  destruct (run_sim _ _ _ _ S0 Hrun) as (f1 & new & S1).
  assert (Hv : r ∈ sp_buf (m_Spool m1) \/ exists f, f ∈ files ++ f1 /\ r ∈ sf_batch f /\ listed (m_Store m1) (file_segment mid f)).
  { apply (si_visible _ _ _ S1), elem_of_app. left. apply (sim_accepted _ _ _ _ S0). by left. }
  destruct S1 as [Hh _ Hf Hb _ _ _]. destruct Hobs as [|e batch sp arrived st' stored is_listed Hs Eb _ Ef].
  { destruct Hv as [?|(f & Hfin & Hrf & Hl)]; [by left|right; left; by eapply listed_queryable]. }
  assert (Hbatch : batch = sp_buf (m_Spool m1) /\ batch <> []).
  { unfold seal_begin in Eb. destruct (Nat.eqb_spec (length (sp_buf (m_Spool m1))) 0) as [|E0]; [done|].
    injection Eb as <- _. split; [done|]. intros E. by rewrite E in E0. }
  destruct Hbatch as [-> Hne]. pose proof (seal_file_ok e m1 Hb Hs Hne) as Hfo.
  destruct (effect_sim e m1 st' stored is_listed _ Hh Hs Hfo Ef) as (Hh' & Hl' & Hk).
  assert (Hf' : Forall file_ok ((files ++ f1) ++ then_file stored (seal_file e m1)))
    by (apply Forall_app; split; [done|destruct stored; [by constructor|done]]).
  cbn [m_Spool m_Store with_parts fst snd]. destruct Hv as [Hv|(f & Hfin & Hrf & Hl)].
  - destruct is_listed; [|by right; right]. destruct (Hl' eq_refl) as [-> Hlf]. right. left.
    eapply (listed_queryable _ _ (seal_file e m1)); [exact Hh'|exact Hf'|apply elem_of_app; right; by left|exact Hv|exact Hlf].
  - right. left. eapply (listed_queryable _ _ f); [exact Hh'|exact Hf'|apply elem_of_app; by left|exact Hrf|by apply Hk].
Qed.

(** C12: [Spool.Seal] refines the abstract steps, over the object store as it is.  In any
    deployment, whatever the disk, the object store and the catalogue answer and whatever
    is accepted meanwhile, a call of [Seal] that starts where the durable records are those
    the object store holds in readable files beside their sidecars, is an execution of the
    steps that ends where they are again.  With success the whole batch is in the object
    store, its size is returned and the buffer holds what has arrived; with an error the
    batch is back in the buffer, in front, and the object store holds all of it or nothing
    more than before. *)
Theorem SpoolSeal_refines e (m m' : Mgr) r du ac :
  deployed m -> seal_fits e m -> seal_call e m = (m', r) ->
  (forall x, x ∈ du <-> stored_in (m_Store m) x) ->
  exists du' new,
    rtc (step false) (mkWorld (m_Spool m) [] du ac) (mkWorld (m_Spool m') [] du' (ac ++ new)) /\
    (forall x, x ∈ du' <-> stored_in (m_Store m') x) /\ new ⊆ (se_arrivals e).*2 /\
    match r with
    | Ok n => n = length (sp_buf (m_Spool m)) /\ sp_buf (m_Spool m') = new /\
        forall x, x ∈ sp_buf (m_Spool m) -> stored_in (m_Store m') x
    | Err _ => sp_buf (m_Spool m') = sort_slice (sp_buf (m_Spool m)) ++ new /\
        (du' = du \/ du' = du ++ sp_buf (m_Spool m))
    end.
Proof.
  intros (files & ac0 & S0)%deployed_sim Hs E Hdu.
  destruct (seal_call_sim e m files ac0 S0 Hs) as (files' & new0 & stored & S1 & Ef & Hok & _).
  rewrite E in S1, Hok. cbn [fst snd] in S1, Hok.
  assert (Hpos : Forall (fun a => 0 < rec_Offset a.2) (se_arrivals e)).
  { eapply Forall_impl; [apply (sf_arrivals _ _ Hs)|]. by intros a [? _]. }
  unfold seal_call in E. destruct (SpoolSeal _ _ _ _ _ _ _) as [[sp st] r1] eqn:Es. injection E as <- ->.
  destruct (SpoolSeal_run _ _ _ _ _ _ _ _ _ _ _ du ac Hpos Es) as (new & Hnew & Hrun).
  cbn [m_Spool m_Store with_parts fst snd] in *.
  set (du' := du ++ if stored then sp_buf (m_Spool m) else []).
  assert (Hdu' : forall x, x ∈ du' <-> stored_in st x).
  { intros x. rewrite (stored_records _ _ _ (si_holds _ _ _ S1) (si_files _ _ _ S1)).
    cbn [m_Store with_parts snd]. unfold du'. rewrite records_of_app, Ef, !elem_of_app, Hdu.
    by rewrite (stored_records _ _ _ (si_holds _ _ _ S0) (si_files _ _ _ S0)). }
  exists du', new. destruct r as [n|err].
  - destruct Hrun as (En & Hbuf & Hst).
    assert (Ed : du' = du ++ sp_buf (m_Spool m))
      by (unfold du'; destruct (Hok eq_refl) as [E0| ->]; [rewrite E0; by destruct stored|done]).
    split; [by rewrite Ed|]. split; [exact Hdu'|]. split; [done|]. split; [done|]. split; [done|].
    intros x Hx. apply Hdu'. rewrite Ed. apply elem_of_app. by right.
  - destruct Hrun as [Hbuf Hst]. specialize (Hst stored). unfold du'.
    split; [destruct stored; [exact Hst|by rewrite app_nil_r]|]. split; [exact Hdu'|]. split; [done|]. split; [done|].
    destruct stored; [by right|left; apply app_nil_r].
Qed.

(** C17: a clean shutdown leaves nothing to redeliver.  Take any deployment and a record in
    its manager's buffer or in the object store.  If, after any run of that manager, the
    seal of its shutdown succeeds while nothing arrives, the buffer is empty afterwards,
    the object store holds the record in a readable file beside its sidecar, the catalogue
    lists it, and it is at or below its source's committed offset, which the server
    acknowledges: agents hold nothing back for it. *)
Theorem shutdown_clean (m m1 : Mgr) e id n r :
  deployed m -> r ∈ sp_buf (m_Spool m) \/ stored_in (m_Store m) r -> rtc run_step m m1 ->
  seal_fits e m1 -> se_arrivals e = [] -> snd (Shutdown e id m1) = Ok n ->
  let m2 := fst (Shutdown e id m1) in
  n = length (sp_buf (m_Spool m1)) /\ sp_buf (m_Spool m2) = [] /\
  stored_in (m_Store m2) r /\ queryable (m_Store m2) r /\
  rec_Offset r <= default 0 (Committed (m_Spool m2) !! key_of r).
Proof.
  intros (files & ac & S0)%deployed_sim Hr Hrun Hs Ha En m2. destruct (shutdown_spool e id m1) as [Esp Er].
  rewrite Er in En. destruct (seal_call_empties e m1 n Ha En) as [Elen Ebuf]. rewrite <- Esp in Ebuf. fold m2 in Ebuf.
  split; [done|]. split; [done|].
  assert (Hac : r ∈ ac).
  { apply (sim_accepted _ _ _ _ S0). destruct Hr as [?|Hr]; [by left|right].
    by apply (stored_records _ _ _ (si_holds _ _ _ S0) (si_files _ _ _ S0)). }
  destruct (run_sim _ _ _ _ S0 (rtc_r _ _ _ Hrun (run_shutdown e id m1 Hs))) as (f1 & new & S2). fold m2 in S2.
  assert (Hac2 : r ∈ ac ++ new) by (apply elem_of_app; by left).
  pose proof (sim_inv _ _ _ S2) as Hi. split; [|split].
  - apply (stored_records _ _ _ (si_holds _ _ _ S2) (si_files _ _ _ S2)).
    apply (inv_kept _ Hi r) in Hac2. cbn in Hac2. rewrite Ebuf, !elem_of_nil in Hac2. tauto.
  - destruct (si_visible _ _ _ S2 r Hac2) as [Hb|(f & Hfin & Hrf & Hl)]; [rewrite Ebuf in Hb; by apply elem_of_nil in Hb|].
    by eapply listed_queryable; [apply (si_holds _ _ _ S2)|apply (si_files _ _ _ S2)|..].
  - pose proof (inv_released _ Hi r Hac2) as Hrel. cbn in Hrel. rewrite Ebuf, !elem_of_nil in Hrel. tauto.
Qed.

(** The seal loop, as long as every event fits the manager it finds, is a run. *)
Fixpoint events_fit (evs : list event) (m : Mgr) : Prop :=
  match evs with [] => True | ev :: evs => event_fits ev m /\ events_fit evs (on_event m ev) end.
Lemma RunSealLoop_run evs (m : Mgr) : events_fit evs m -> rtc run_step m (RunSealLoop evs m).
Proof.
  revert m; induction evs as [|ev evs IH]; intros m; [constructor|]. intros [Hev Hevs].
  eapply rtc_l; [by apply run_event|]. by apply IH.
Qed.

(** C5: a restart forgets exactly what is not in the object store.  Whenever the process
    dies, in the middle of a seal too, and whatever of the node's disk is left, the manager
    that starts next drops a record the old one had accepted, when it is sent again, if and
    only if the object store holds it, and queries of the new manager then find it. *)
Theorem restart_exact (m m' : Mgr) r :
  deployed m -> r ∈ sp_buf (m_Spool m) \/ stored_in (m_Store m) r -> restart m m' ->
  (is_duplicate (m_Spool m') r = true <-> stored_in (m_Store m') r) /\
  (stored_in (m_Store m') r -> queryable (m_Store m') r).
Proof.
  intros (files & ac & S0)%deployed_sim Hr Hrestart.
  assert (Hac : r ∈ ac).
  { apply (sim_accepted _ _ _ _ S0). destruct Hr as [?|Hr]; [by left|right].
    by apply (stored_records _ _ _ (si_holds _ _ _ S0) (si_files _ _ _ S0)). }
  destruct (restart_store _ _ _ _ S0 Hrestart) as (f1 & stored & wm & Ef & Hwm & Esp & [Hh _ Hf _ _ _ Hv]).
  rewrite (stored_records _ _ _ Hh Hf). split.
  - destruct (lost_batch (m_Spool m) (records_of files) ac stored) as (sp & Hc & Hst).
    rewrite <- Ef, <- records_of_app in Hst. rewrite Esp, <- Hc.
    apply (redelivered (mkWorld sp [] (records_of (files ++ f1)) ac) wm r); [|done|done].
    apply world_inv with cfg. unfold SpoolSafe.reachable. etrans; [apply (si_steps _ _ _ S0)|exact Hst].
  - intros Hd. destruct (Hv r Hd) as [Hb|(f & Hfin & Hrf & Hl)]; [|by eapply listed_queryable].
    rewrite Esp in Hb. by apply elem_of_nil in Hb.
Qed.

End Durable.

(** ** A deployment that loses its disk *)

Module Witness.
Local Existing Instance toy_zstd.
Local Existing Instance toy_bolt.
Local Existing Instance literal_regexp.
Local Existing Instance Spool.Witness.stable_sort.
Local Existing Instance MemBlobs_laws.

Definition cfg0 : SpoolConfig := mkConfig 0 0.
Definition r0 : LogRecord := SegToy.Witness.rec 10 5 "a".
Definition none : Manager := mkManager Spool.Witness.st0 (NewSpool cfg0 ∅) (Hub.NewHub 0) 0.
Definition booted (blobs : gmap string string) :=
  boot "m" "base" 1000 cfg0 true blobs (bucket []) ∅.
Definition manager_of (x : Store (gmap string string) Bucket * result store_error Manager) : Manager :=
  match snd x with Ok m => m | Err _ => none end.
Lemma booted_ok x : is_ok (snd x) = true -> x = (fst x, Ok (manager_of x)).
Proof. destruct x as [st [m|e]]; done. Qed.

(** A manager starts, accepts a record, seals it at a shutdown, and starts again with an
    empty disk. *)
Definition m0 : Manager := manager_of (booted ∅).
Definition m1 : Manager := on_event m0 (Arrive 1 r0).
Definition env0 : seal_env := mkSealEnv Spool.Witness.disk0 3 9 "A1" "w/A1.seg.tmp" [].
Definition m2 : Manager := fst (Shutdown env0 "S1" m1).
Definition m3 : Manager := manager_of (booted (s_blobs (m_Store m2))).

Lemma sane_m : sane_text "m".
Proof. reflexivity. Qed.
Lemma r0_wire : wire_ok r0.
Proof.
  split; [reflexivity|]. split; [|apply (bool_decide_unpack _); vm_compute; exact I].
  exists r0, (default "" (GoMarshalRecord r0)).
  split; [apply (bool_decide_unpack _); vm_compute; exact I|]. split; vm_compute; reflexivity.
Qed.
Lemma no_disk (st : Store (gmap string string) Bucket) : bucket [] = s_cat st \/ kv_scan (bucket []) = [].
Proof. right. reflexivity. Qed.
Lemma begins0 : begins "m" "base" 1000 cfg0 m0.
Proof.
  exists Spool.Witness.st0. split; [reflexivity|]. split; [reflexivity|]. split; [reflexivity|].
  eapply (starts_ok "m" "base" 1000 cfg0 _ true (bucket []) ∅ _ _ (no_disk _)).
  apply booted_ok. vm_compute. reflexivity.
Qed.
Lemma arrives : run_step "m" m0 m1.
Proof. apply (run_event "m" (Arrive 1 r0) m0 r0_wire). Qed.
Lemma deployed1 : deployed "m" "base" 1000 cfg0 m1.
Proof. exists m0. split; [apply begins0|]. apply rtc_once. left. apply arrives. Qed.
Lemma buf1 : r0 ∈ sp_buf (m_Spool m1).
Proof. replace (sp_buf (m_Spool m1)) with [r0] by (vm_compute; reflexivity). by left. Qed.
Lemma fits1 : seal_fits "m" env0 m1.
Proof.
  split.
  - replace (contents (s_blobs (m_Store m1))) with (∅ : gmap string string) by (vm_compute; reflexivity).
    intros k [v Hk]. by rewrite lookup_empty in Hk.
  - vm_compute. reflexivity.
  - by exists "w".
  - split; [apply (bool_decide_unpack _); vm_compute; exact I|].
    split; [reflexivity|apply (bool_decide_unpack _); vm_compute; exact I].
  - constructor.
  - intros _. replace (sort_slice (sp_buf (m_Spool m1))) with [r0] by (vm_compute; reflexivity).
    split; [done|apply (bool_decide_unpack _); vm_compute; exact I|vm_compute; reflexivity..].
Qed.
Lemma seals : run_step "m" m1 m2.
Proof. apply run_shutdown, fits1. Qed.
Lemma restarts : restart "m" "base" 1000 cfg0 m2 m3.
Proof.
  exists (m_Store m2). split; [apply dies_idle|].
  eapply (starts_ok "m" "base" 1000 cfg0 _ true (bucket []) ∅ _ _ (no_disk _)).
  apply booted_ok. vm_compute. reflexivity.
Qed.

Lemma acked_forever_witness : stored_in "m" (m_Store m3) r0.
Proof.
  apply (acked_forever "m" "base" 1000 cfg0 sane_m m1 m2 m3 r0 deployed1 buf1).
  - apply rtc_once, seals.
  - vm_compute. discriminate.
  - apply rtc_once. right. apply restarts.
Defined.
Lemma accepted_visible_witness : r0 ∈ sp_buf (m_Spool m2) \/ queryable (m_Store m2) r0 \/ r0 ∈ @nil LogRecord.
Proof.
  apply (accepted_visible "m" "base" 1000 cfg0 sane_m m1 m2 m2 [] r0 deployed1 buf1).
  - apply rtc_once, seals.
  - apply observed_idle.
Defined.
(** The seal loop accepts the record. *)
Lemma looped : rtc (run_step "m") m0 (RunSealLoop [Arrive 1 r0; SnapTick "S0"] m0).
Proof. apply RunSealLoop_run. split; [apply r0_wire|]. by split. Qed.
Lemma shutdown_clean_witness :
  stored_in "m" (m_Store (fst (Shutdown env0 "S1" m1))) r0 /\ queryable (m_Store (fst (Shutdown env0 "S1" m1))) r0 /\
  sp_buf (m_Spool (fst (Shutdown env0 "S1" m1))) = [].
Proof.
  assert (E : is_ok (snd (Shutdown env0 "S1" m1)) = true) by (vm_compute; reflexivity).
  destruct (snd (Shutdown env0 "S1" m1)) as [n|err] eqn:Es; [|discriminate E].
  destruct (shutdown_clean "m" "base" 1000 cfg0 sane_m m1 m1 env0 "S1" n r0 deployed1 (or_introl buf1) (rtc_refl _ _) fits1 eq_refl Es)
    as (_ & Hb & Hst & Hq & _).
  split; [exact Hst|]. split; [exact Hq|exact Hb].
Defined.
(** The disk has room for 50 bytes. *)
Definition env1 : seal_env := mkSealEnv (mkDisk true (Some 50%nat) true true) 3 9 "A1" "w/A1.seg.tmp" [].
Lemma nothing1 x : x ∈ @nil LogRecord <-> stored_in "m" (m_Store m1) x.
Proof.
  split; [by intros ?%elem_of_nil|]. intros (key & body & rs & Hb & _).
  replace (contents (s_blobs (m_Store m1))) with (∅ : gmap string string) in Hb by (vm_compute; reflexivity).
  by rewrite lookup_empty in Hb.
Qed.
Lemma SpoolSeal_refines_witness :
  is_ok (snd (seal_call env1 m1)) = false /\
  (exists du' new, rtc (step false) (mkWorld (m_Spool m1) [] [] [r0])
     (mkWorld (m_Spool (fst (seal_call env1 m1))) [] du' ([r0] ++ new))) /\
  exists n, snd (seal_call env0 m1) = Ok n /\ stored_in "m" (m_Store (fst (seal_call env0 m1))) r0.
Proof.
  split; [vm_compute; reflexivity|]. split.
  - destruct (SpoolSeal_refines "m" "base" 1000 cfg0 sane_m env1 m1 (fst (seal_call env1 m1)) (snd (seal_call env1 m1)) [] [r0]
      deployed1) as (du' & new & Hs & _).
    + destruct fits1. by split.
    + apply surjective_pairing.
    + apply nothing1.
    + exists du', new. exact Hs.
  - assert (E : is_ok (snd (seal_call env0 m1)) = true) by (vm_compute; reflexivity).
    pose proof (SpoolSeal_refines "m" "base" 1000 cfg0 sane_m env0 m1 (fst (seal_call env0 m1)) (snd (seal_call env0 m1)) [] [r0]
      deployed1 fits1 (surjective_pairing _) nothing1) as (du' & new & _ & _ & _ & Hr).
    destruct (snd (seal_call env0 m1)) as [n|err]; [|discriminate E].
    exists n. split; [reflexivity|]. apply Hr, buf1.
Defined.
Lemma deployed2 : deployed "m" "base" 1000 cfg0 m2.
Proof. exists m0. split; [apply begins0|]. eapply rtc_r; [apply rtc_once; left; apply arrives|left; apply seals]. Qed.
Definition file0 : sealed_file := seal_file env0 m1.
Lemma file0_ok : file_ok file0.
Proof.
  apply seal_file_ok with "m"; [|apply fits1|].
  - replace (sp_buf (m_Spool m1)) with [r0] by (vm_compute; reflexivity). constructor; [apply r0_wire|constructor].
  - intros E. pose proof buf1 as Hb. rewrite E in Hb. by apply elem_of_nil in Hb.
Qed.
Lemma stored2 : stored_in "m" (m_Store m2) r0.
Proof.
  exists (sg_key (file_segment "m" file0)), (sg_body (file_segment "m" file0)), (sort_slice (sf_batch file0)).
  split; [vm_compute; reflexivity|]. split; [|split; [|split]].
  - apply file_reads, file0_ok.
  - replace (sort_slice (sf_batch file0)) with [r0] by (vm_compute; reflexivity). by left.
  - apply (bool_decide_unpack _). vm_compute. exact I.
  - vm_compute. reflexivity.
Qed.

Lemma restart_exact_witness :
  (is_duplicate (m_Spool m3) r0 = true <-> stored_in "m" (m_Store m3) r0) /\
  (stored_in "m" (m_Store m3) r0 -> queryable (m_Store m3) r0) /\ is_duplicate (m_Spool m3) r0 = true.
Proof.
  destruct (restart_exact "m" "base" 1000 cfg0 sane_m m2 m3 r0 deployed2 (or_intror stored2) restarts) as [Hd Hq].
  split; [exact Hd|]. split; [exact Hq|]. vm_compute. reflexivity.
Defined.
End Witness.
