(* ===== verification/EndToEnd.v ===== *)
(** Agents' files and the object store: the system of Delivery with the manager's own code
    in place of its abstract steps.  The manager's handlers, its crashes and its starts are
    those of Durable; while a seal is in progress tails read, batches are sent and served,
    and acks come and go.  No code of its own. *)

From S2P Require Import Prelude GoStrings GoTime JsonText JsonStruct Model Value Ast SegFormat SegWriter.
From S2P Require Import RecordJson SegLayout SegRefine SegReader SegToy Merge Cache Blobs Catalog MetaJson.
From S2P Require Import SegGo StoreToy Store StoreOk Recovery Spool SpoolSafe Client Checkpoint Tailer Server.
From S2P Require Import Delivery Manager Durable.
Local Open Scope string_scope.
Local Open Scope list_scope.
Local Open Scope Z_scope.

Local Existing Instance go_json.
Local Existing Instance go_meta.

(** The system without the manager: a client, its checkpoint and tails, connections, and
    acks on their way. *)
Record agent (C : Type) := mkAgent {
  a_client : Client; a_cp : C; a_tails : gmap string Z;
  a_conns : list conn; a_live : bool; a_acks : list commits; a_lost : list place
}.
Arguments mkAgent {C} _ _ _ _ _ _ _.
Arguments a_client {C} _.
Arguments a_cp {C} _.
Arguments a_tails {C} _.
Arguments a_conns {C} _.
Arguments a_live {C} _.
Arguments a_acks {C} _.
Arguments a_lost {C} _.
Definition with_conns {C} (cs : list conn) (lv : bool) (a : agent C) : agent C :=
  mkAgent (a_client a) (a_cp a) (a_tails a) cs lv (a_acks a) (a_lost a).
(** With a manager in a state of SpoolSafe, a state of Delivery. *)
Definition view {C} (a : agent C) (w : world) : sys C :=
  mkSys (a_client a) (a_cp a) (a_tails a) (a_conns a) (a_live a) (a_acks a) w (a_lost a).

Section EndToEnd.
Context {C : Type} `{!Bolt C} (written : LogRecord -> Prop) (ccfg : ClientConfig).
Abbreviation logged := (logged written).
Context (logged_pos : forall k o, logged (k, o) -> 0 < o < 2 ^ 63).
Context `{SortSlice, Regexp, Zstd} {B D : Type} `{BlobsLaws B, !Bolt D}.
Context (mid base : string) (cap : Z) (cfg : SpoolConfig) (Hmid : sane_text mid).
Abbreviation Mgr := (Manager (B:=B) (D:=D)).

(** A step of the agent's side or of a connection that leaves the manager alone: whatever
    the histories, it is a step of Delivery. *)
Definition agent_step (sp : Spool) (a a' : agent C) : Prop := forall fl du ac,
  sys_step (D:=C) written ccfg (view a (mkWorld sp fl du ac)) (view a' (mkWorld sp fl du ac)).

(** The server reads one record of a connection: a malformed one is skipped, another one is
    offered to the spool. *)
Inductive read_step : agent C -> list (Time * LogRecord) -> agent C -> Prop :=
| read_skip a cs1 raw pipe seen cs2 :
    a_conns a = cs1 ++ mkConn (raw :: pipe) seen :: cs2 -> UnmarshalRecord raw = None ->
    read_step a [] (with_conns (cs1 ++ mkConn pipe seen :: cs2) (a_live a) a)
| read_record a cs1 raw pipe seen cs2 now r :
    a_conns a = cs1 ++ mkConn (raw :: pipe) seen :: cs2 -> UnmarshalRecord raw = Some r -> wire_ok r ->
    read_step a [(now, r)] (with_conns (cs1 ++ mkConn pipe ({[key_of r]} ∪ seen) :: cs2) (a_live a) a).

(** What goes on while a seal is in progress that began with the spool [sp]; the records
    offered to the spool are listed. *)
Inductive mid_step (sp : Spool) : agent C * list (Time * LogRecord) -> agent C * list (Time * LogRecord) -> Prop :=
| mid_agent arr a a' : agent_step (accept_all arr sp) a a' -> mid_step sp (a, arr) (a', arr)
| mid_read arr a new a' : read_step a new a' -> mid_step sp (a, arr) (a', arr ++ new).
Definition taken (sp : Spool) : Spool :=
  match seal_begin sp with Some (_, sp') => sp' | None => sp end.
Definition during (m : Mgr) (a a' : agent C) (arr : list (Time * LogRecord)) : Prop :=
  rtc (mid_step (taken (m_Spool m))) (a, []) (a', arr).

Definition offer (new : list (Time * LogRecord)) (m : Mgr) : Mgr :=
  foldl (fun m x => on_event m (Arrive x.1 x.2)) m new.

Inductive e2e_step : agent C * Mgr -> agent C * Mgr -> Prop :=
| e2e_agent a a' m : agent_step (m_Spool m) a a' -> e2e_step (a, m) (a', m)
| e2e_read a new a' m : read_step a new a' -> e2e_step (a, m) (a', offer new m)
| e2e_seal e a a' m :
    during m a a' (se_arrivals e) -> seal_fits mid e m -> e2e_step (a, m) (a', fst (seal_call e m))
| e2e_quiet a m m' : quiet_step mid m m' -> e2e_step (a, m) (a, m')
| e2e_restart a a' arr m m' :
    during m a a' arr -> restart mid base cap cfg m m' ->
    e2e_step (a, m) (with_conns [] false a', m').

(** An agent with an empty checkpoint and a manager without objects begin. *)
Definition e2e_begins (x : agent C * Mgr) : Prop := exists cp : C,
  (forall k, Get k cp = 0) /\ begins mid base cap cfg (snd x) /\
  fst x = mkAgent (NewClient ccfg) cp ∅ [] false [] [].
Definition e2e_reachable (x : agent C * Mgr) : Prop := exists x0, e2e_begins x0 /\ rtc e2e_step x0 x.

(** ** The simulation *)

Abbreviation steps := (rtc (sys_step (D:=C) written ccfg)).
Definition tied (x : agent C * Mgr) : Prop := exists files ac,
  sim mid cap cfg (snd x) files ac /\
  sys_reachable (D:=C) written ccfg cfg (view (fst x) (mkWorld (m_Spool (snd x)) [] (records_of files) ac)).

Lemma reachable_steps (y y' : sys C) : sys_reachable (D:=C) written ccfg cfg y -> steps y y' -> sys_reachable (D:=C) written ccfg cfg y'.
Proof. intros (cp & Hcp & Hr) Hs. exists cp. split; [done|]. by etrans. Qed.

Lemma accept_all_snoc arr x sp : accept_all (arr ++ [x]) sp = fst (Accept x.1 x.2 (accept_all arr sp)).
Proof. unfold accept_all. by rewrite foldl_app. Qed.

(** Reading a record is a step of Delivery. *)
Lemma read_steps a new a' sp fl du ac : read_step a new a' ->
  exists added, sp_buf (accept_all new sp) = sp_buf sp ++ added /\
    steps (view a (mkWorld sp fl du ac)) (view a' (mkWorld (accept_all new sp) fl du (ac ++ added))).
Proof.
  intros [a1 cs1 raw pipe seen cs2 Ec Eu|a1 cs1 raw pipe seen cs2 now r Ec Eu Hw].
  - exists []. rewrite !app_nil_r. split; [done|]. apply rtc_once. unfold view. rewrite Ec.
    apply (sys_serve written ccfg 0 _ _ _ cs1 raw pipe seen seen cs2). unfold serve. by rewrite Eu.
  - cbn. assert (Ha : exists added, snd (Accept now r sp) = head added /\ (length added <= 1)%nat /\
      sp_buf (fst (Accept now r sp)) = sp_buf sp ++ added).
    { unfold Accept. destruct (is_duplicate sp r); [exists []; rewrite app_nil_r|exists [r]]; (split; [done|split; [cbn; lia|done]]). }
    destruct Ha as (added & Eh & El & Eb). exists added. split; [exact Eb|].
    apply rtc_once. unfold view. rewrite Ec.
    apply (sys_serve written ccfg now _ _ _ cs1 raw pipe seen ({[key_of r]} ∪ seen) cs2).
    unfold serve. rewrite Eu. cbn. rewrite Eh. destruct added as [|x [|]]; cbn in *; [by rewrite app_nil_r|done|lia].
Qed.

Lemma accept_all_app arr new sp : accept_all (arr ++ new) sp = accept_all new (accept_all arr sp).
Proof. unfold accept_all. by rewrite foldl_app. Qed.

(** What goes on during a seal, as steps of Delivery. *)
Lemma mid_steps sp x x' fl du ac : rtc (mid_step sp) x x' ->
  exists added, sp_buf (accept_all (snd x') sp) = sp_buf (accept_all (snd x) sp) ++ added /\
    steps (view (fst x) (mkWorld (accept_all (snd x) sp) fl du ac))
      (view (fst x') (mkWorld (accept_all (snd x') sp) fl du (ac ++ added))).
Proof.
  intros Hr. revert ac. induction Hr as [x|x x1 x' Hs _ IH]; intros ac.
  { exists []. rewrite !app_nil_r. split; [done|apply rtc_refl]. }
  assert (S1 : exists added, sp_buf (accept_all (snd x1) sp) = sp_buf (accept_all (snd x) sp) ++ added /\
    steps (view (fst x) (mkWorld (accept_all (snd x) sp) fl du ac))
      (view (fst x1) (mkWorld (accept_all (snd x1) sp) fl du (ac ++ added)))).
  { destruct Hs as [arr a a' Ha|arr a new a' Ha]; cbn [fst snd].
    - exists []. rewrite !app_nil_r. split; [done|]. apply rtc_once, Ha.
    - rewrite accept_all_app. by apply read_steps. }
  destruct S1 as (add1 & B1 & S1). destruct (IH (ac ++ add1)) as (add2 & B2 & S2).
  exists (add1 ++ add2). rewrite B2, B1, app_assoc. split; [done|]. rewrite app_assoc. by etrans.
Qed.

(** The spool after a seal. *)
Lemma seal_call_spool e (m : Mgr) :
  m_Spool (fst (seal_call e m)) =
    match seal_begin (m_Spool m), snd (seal_call e m) with
    | None, _ => accept_all (se_arrivals e) (m_Spool m)
    | Some (batch, sp), Ok _ => seal_commit (sort_slice batch) (accept_all (se_arrivals e) sp)
    | Some (batch, sp), Err _ => requeue (se_now e) (sort_slice batch) (accept_all (se_arrivals e) sp)
    end.
Proof.
  unfold seal_call, SpoolSeal. destruct (seal_begin (m_Spool m)) as [[batch sp]|]; [|done].
  by destruct (seal_batch _ _ _ _ _ _) as [st [sm|err]].
Qed.
Lemma seal_none sp : seal_begin sp = None -> sp_buf sp = [].
Proof.
  unfold seal_begin. destruct (Nat.eqb_spec (length (sp_buf sp)) 0) as [E|]; [|done].
  intros _. by apply nil_length_inv.
Qed.
Lemma seal_some sp batch sp1 : seal_begin sp = Some (batch, sp1) ->
  batch = sp_buf sp /\ sp_buf sp <> [] /\ sp_buf sp1 = [] /\ sp_cfg sp1 = sp_cfg sp.
Proof.
  unfold seal_begin. destruct (Nat.eqb_spec (length (sp_buf sp)) 0) as [|E]; [done|].
  intros [= <- <-]. split; [done|]. split; [by intros E1; rewrite E1 in E|done].
Qed.

Lemma taken_steps (sp : Spool) (a : agent C) du ac :
  steps (view a (mkWorld sp [] du ac))
    (view a (mkWorld (taken sp) (match seal_begin sp with Some (b, _) => [b] | None => [] end) du ac)).
Proof.
  unfold taken. destruct (seal_begin sp) as [[batch sp1]|] eqn:E; [|apply rtc_refl]. apply rtc_once.
  apply sys_seal; [|done]. by apply (step_begin false sp [] du ac batch sp1); [right|].
Qed.

Lemma call_steps e (m : Mgr) a a' du ac new (stored : bool) :
  during m a a' (se_arrivals e) ->
  sp_buf (m_Spool (fst (seal_call e m))) = after_seal (snd (seal_call e m)) (sp_buf (m_Spool m)) new ->
  (is_ok (snd (seal_call e m)) = true -> sp_buf (m_Spool m) = [] \/ stored = true) ->
  steps (view a (mkWorld (m_Spool m) [] du ac))
    (view a' (mkWorld (m_Spool (fst (seal_call e m))) []
      (du ++ if stored then sp_buf (m_Spool m) else []) (ac ++ new))).
Proof.
  intros Hd Hbuf Hok. rewrite seal_call_spool in *. set (sp := m_Spool m) in *.
  destruct (mid_steps _ _ _ (match seal_begin sp with Some (b, _) => [b] | None => [] end) du ac Hd)
    as (added & Hb & Hs). cbn [fst snd] in Hb, Hs.
  etrans; [apply taken_steps|]. unfold taken in Hb, Hs. fold sp in Hb, Hs.
  destruct (seal_begin sp) as [[batch sp1]|] eqn:Eb.
  - destruct (seal_some _ _ _ Eb) as (-> & Hne & E1 & _). change (accept_all [] sp1) with sp1 in Hb.
    rewrite E1 in Hb. cbn [app] in Hb.
    etrans; [unfold taken; rewrite Eb; exact Hs|]. apply rtc_once.
    destruct (snd (seal_call e m)) as [n|err]; cbn in Hbuf.
    + rewrite Hb in Hbuf. subst added. destruct (Hok eq_refl) as [?| ->]; [done|].
      apply sys_seal; [|done]. apply (step_done false _ [] (sp_buf sp) []), sort_slice_perm.
    + rewrite Hb in Hbuf. apply app_inv_head in Hbuf. subst added.
      apply sys_seal; [|done].
      pose proof (step_failed false (accept_all (se_arrivals e) sp1) [] (sp_buf sp) [] du (ac ++ new)
        (sort_slice (sp_buf sp)) (se_now e) stored (sort_slice_perm _)) as S1.
      destruct stored; [exact S1|by rewrite app_nil_r].
  - apply seal_none in Eb as E0. rewrite E0 in *. unfold taken. rewrite Eb.
    assert (Hn : added = new).
    { change (accept_all [] sp) with sp in Hb. rewrite E0 in Hb. cbn [app] in Hb. rewrite Hb in Hbuf.
      destruct (snd (seal_call e m)); cbn in Hbuf; [done|by rewrite sort_slice_nil in Hbuf]. }
    subst added. replace (if stored then [] else []) with (@nil LogRecord) by by destruct stored.
    by rewrite app_nil_r.
Qed.

(** A process that dies, in the middle of a seal or not, and the next start. *)
Lemma restart_steps (m m' : Mgr) a a' arr du ac (stored : bool) wm :
  during m a a' arr -> m_Spool m' = NewSpool (sp_cfg (m_Spool m)) wm ->
  recovered wm (du ++ if stored then sp_buf (m_Spool m) else []) ->
  steps (view a (mkWorld (m_Spool m) [] du ac))
    (view (with_conns [] false a') (mkWorld (m_Spool m') [] (du ++ if stored then sp_buf (m_Spool m) else [])
      (du ++ if stored then sp_buf (m_Spool m) else []))).
Proof.
  intros Hd Esp Hwm. set (sp := m_Spool m) in *. set (du' := du ++ if stored then sp_buf sp else []) in *.
  destruct (mid_steps _ _ _ (match seal_begin sp with Some (b, _) => [b] | None => [] end) du ac Hd)
    as (added & _ & Hs). cbn [fst snd] in Hs. fold sp in Hs. change (accept_all [] (taken sp)) with (taken sp) in Hs.
  assert (Hend : exists sp2, sp_cfg sp2 = sp_cfg sp /\
    steps (view a (mkWorld sp [] du ac)) (view a' (mkWorld sp2 [] du' (ac ++ added)))).
  { pose proof (taken_steps sp a du ac) as Ht. unfold taken in *. destruct (seal_begin sp) as [[batch sp1]|] eqn:Eb.
    - destruct (seal_some _ _ _ Eb) as (-> & _ & _ & Ec).
      exists (requeue 0 (sp_buf sp) (accept_all arr sp1)). split; [cbn; by rewrite accept_all_cfg|].
      etrans; [exact Ht|]. etrans; [exact Hs|]. apply rtc_once, sys_seal; [|done].
      pose proof (step_failed false (accept_all arr sp1) [] (sp_buf sp) [] du (ac ++ added)
        (sp_buf sp) 0 stored (reflexivity _)) as S1.
      unfold du'. destruct stored; [exact S1|by rewrite app_nil_r].
    - exists (accept_all arr sp). split; [by rewrite accept_all_cfg|]. unfold du'.
      rewrite (seal_none _ Eb). replace (if stored then [] else []) with (@nil LogRecord) by by destruct stored.
      rewrite app_nil_r. by etrans. }
  destruct Hend as (sp2 & Ec & Hend). eapply rtc_r; [exact Hend|]. rewrite Esp, <- Ec.
  apply (sys_manager_restart written ccfg wm _ _ _ _ _ _ (mkWorld sp2 [] du' (ac ++ added)) _ Hwm).
Qed.

Lemma offer_sim a new a' (m : Mgr) files ac : read_step a new a' -> sim mid cap cfg m files ac ->
  m_Spool (offer new m) = accept_all new (m_Spool m) /\
  exists added, sp_buf (m_Spool (offer new m)) = sp_buf (m_Spool m) ++ added /\
    sim mid cap cfg (offer new m) files (ac ++ added).
Proof.
  intros Hr Hsim. destruct Hr as [a1 cs1 raw pipe seen cs2 Ec Eu|a1 cs1 raw pipe seen cs2 now r Ec Eu Hw].
  - split; [done|]. exists []. by rewrite !app_nil_r.
  - split; [done|]. destruct (accept_sim mid cap cfg now r m files ac Hsim Hw) as (added & Hb & Hs).
    exists added. split; [exact Hb|exact Hs].
Qed.

Lemma tied_step x x' : tied x -> e2e_step x x' -> tied x'.
Proof.
  intros (files & ac & Hsim & Hreach) Hs. revert Hsim Hreach.
  destruct Hs as [a a' m Ha|a new a' m Ha|e a a' m Hd Hs|a m m' Hq|a a' arr m m' Hd Hre];
    cbn [fst snd]; intros Hsim Hreach.
  - exists files, ac. split; [done|]. eapply reachable_steps; [exact Hreach|]. apply rtc_once, Ha.
  - destruct (offer_sim _ _ _ _ _ _ Ha Hsim) as (Esp & added & Hb & Hsim').
    exists files, (ac ++ added). split; [done|]. eapply reachable_steps; [exact Hreach|].
    destruct (read_steps _ _ _ (m_Spool m) [] (records_of files) ac Ha) as (added' & Hb' & Hst).
    cbn [fst snd]. rewrite Esp in *. rewrite Hb in Hb'. apply app_inv_head in Hb'. by subst.
  - destruct (seal_call_sim mid cap cfg Hmid e m files ac Hsim Hs) as (files' & new & stored & Hsim' & Ef & Hok & Hbuf).
    exists (files ++ files'), (ac ++ new). split; [done|]. eapply reachable_steps; [exact Hreach|].
    rewrite records_of_app, Ef. by apply call_steps.
  - destruct (quiet_sim mid cap cfg m m' files ac Hsim Hq) as [Esp Hsim'].
    exists files, ac. cbn [fst snd]. by rewrite Esp.
  - destruct (restart_store mid base cap cfg Hmid m m' files ac Hsim Hre)
      as (files' & stored & wm & Ef & Hwm & Esp & Hsim').
    exists (files ++ files'), (records_of (files ++ files')). split; [done|].
    eapply reachable_steps; [exact Hreach|]. rewrite records_of_app, Ef in *. by eapply restart_steps.
Qed.

Lemma tied_begins x : e2e_begins x -> tied x.
Proof.
  destruct x as [a m]. unfold e2e_begins, tied. cbn [fst snd].
  intros (cp & Hcp & Hb & ->).
  pose proof (begins_sim mid base cap cfg m Hb) as Hsim. exists [], []. split; [done|].
  exists cp. split; [done|]. destruct Hb as (st & Hm & Hk & Hc & Hs).
  destruct (starts_recovers mid base cap cfg st m [] (Forall_nil_2 _)) as (wm & Hwm & Esp & _ & _);
    [by apply holds_nothing|done|].
  apply rtc_once. cbn [snd]. rewrite Esp, <- NewSpool_defaults.
  apply (sys_manager_restart written ccfg wm _ _ _ [] false [] (start cfg) [] Hwm).
Qed.
Lemma e2e_tied x : e2e_reachable x -> tied x.
Proof.
  intros (x0 & Hb%tied_begins & Hr). revert Hb. induction Hr as [x|x x1 x' Hs _ IH]; [done|].
  intros Ht. apply IH. by eapply tied_step.
Qed.

(** What the checkpoint has passed is in the object store.  Agents tail files, batches
    and acks cross connections that break, both sides restart, the node of the manager
    loses its disk, seals fail at any point: at every moment, each record of a log file at
    or below its file's checkpoint, which no tail will ever read again, is in a file of the
    object store that opens and reads back, beside its sidecar, or was given up, at the
    hard cap of the agent's window or for having no JSON form. *)
Lemma e2e_checkpointed a m k o :
  e2e_reachable (a, m) -> logged (k, o) -> o <= Get k (a_cp a) ->
  (exists r, place_of r = (k, o) /\ stored_in mid (m_Store m) r) \/ (k, o) ∈ a_lost a.
Proof.
  intros (files & ac & Hsim & Hreach)%e2e_tied Hl Hle.
  apply (sys_reachable_inv written ccfg logged_pos) in Hreach.
  destruct (si_cp _ _ Hreach k o Hl Hle) as [(r & Er & Hr)%list_elem_of_fmap|?]; [left|by right].
  exists r. split; [done|]. by apply (stored_records mid _ _ _ (si_holds _ _ _ _ _ _ Hsim) (si_files _ _ _ _ _ _ Hsim)).
Qed.

(** The same for an agent that runs on: a record at or below its tail's place is stored, in
    the window to be sent, or given up. *)
Lemma e2e_tailed a m k p o :
  e2e_reachable (a, m) -> cl_closed (a_client a) = false -> a_tails a !! k = Some p ->
  logged (k, o) -> o <= p ->
  (exists r, place_of r = (k, o) /\ stored_in mid (m_Store m) r) \/
  (k, o) ∈ ev_place <$> cl_unacked (a_client a) \/ (k, o) ∈ a_lost a.
Proof.
  intros (files & ac & Hsim & Hreach)%e2e_tied Hc Hp Hl Hle.
  apply (sys_reachable_inv written ccfg logged_pos) in Hreach.
  destruct (si_tails _ _ Hreach k p o Hc Hp Hl Hle) as [[(r & Er & Hr)%list_elem_of_fmap|?]|?];
    [left|by right; right|by right; left].
  exists r. split; [done|]. by apply (stored_records mid _ _ _ (si_holds _ _ _ _ _ _ Hsim) (si_files _ _ _ _ _ _ Hsim)).
Qed.

End EndToEnd.

(** A record of a file tailed, sent, sealed and acknowledged. *)
Module Witness.
Local Existing Instance toy_zstd.
Local Existing Instance toy_bolt.
Local Existing Instance literal_regexp.
Local Existing Instance Spool.Witness.stable_sort.
Local Existing Instance MemBlobs_laws.
Import Delivery.Witness Durable.Witness.

Abbreviation r0 := Durable.Witness.r0.
Abbreviation Mgr0 := (Manager (B:=gmap string string) (D:=Bucket)).
Abbreviation e2e := (e2e_step written0 ccfg0 "m" "base" 1000 cfg0).
Definition a0 : agent Bucket := mkAgent (NewClient ccfg0) cp0 ∅ [] false [] [].
Definition tailed : agent Bucket := mkAgent c1 cp0 ts1 [] false [] [].
Definition sent : agent Bucket := mkAgent c2 cp0 ts1 [mkConn [raw2] ∅] true [] [].
Definition read : agent Bucket := mkAgent c2 cp0 ts1 [mkConn [] ({[k0]} ∪ ∅)] true [] [].
Definition sealed : Manager := fst (seal_call env0 m1).
Definition ack (m : Mgr0) : commits := buildAck ({[k0]} ∪ ∅) (Committed (m_Spool m)).
Definition acking (k : commits) : agent Bucket := mkAgent c2 cp0 ts1 [mkConn [] ({[k0]} ∪ ∅)] true [k] [].
Definition acked_by (k : commits) : agent Bucket :=
  mkAgent (fst (applyAck k c2)) (commit (snd (applyAck k c2)) cp0) ts1 [mkConn [] ({[k0]} ∪ ∅)] true [k] [].
Definition acked : agent Bucket := acked_by (ack sealed).

Lemma tails (m : Mgr0) : rtc e2e (a0, m) (tailed, m).
Proof.
  apply (rtc_l _ _ (mkAgent (NewClient ccfg0) cp0 (<[k0 := Get k0 cp0]> ∅) [] false [] [], m)).
  { simple apply e2e_agent. intros fl du ac. by apply (sys_tail_start written0 ccfg0 k0). }
  apply rtc_once. simple apply e2e_agent. intros fl du ac.
  apply (sys_tail_read written0 ccfg0 (Get k0 cp0) r0 (NewClient ccfg0) c1 []).
  - apply lookup_insert_eq.
  - split; [done|split; [reflexivity|]]. by intros o (r & -> & [= <-]).
  - by apply record_ok_deliverable.
  - vm_compute. reflexivity.
Qed.
Lemma sends (m : Mgr0) : rtc e2e (tailed, m) (sent, m).
Proof.
  apply (rtc_l _ _ (mkAgent (reconnect c1) cp0 ts1 [mkConn [] ∅] true [] [], m)).
  { simple apply e2e_agent. intros fl du ac. apply (sys_connect written0 ccfg0). }
  apply rtc_once. simple apply e2e_agent. intros fl du ac.
  apply (sys_flush written0 ccfg0 (reconnect c1) c2 [raw2] cp0 ts1 [mkConn [] ∅] true).
  vm_compute. reflexivity.
Qed.
Lemma serves : e2e (sent, m0) (read, m1).
Proof.
  apply (e2e_read written0 ccfg0 "m" "base" 1000 cfg0 sent [(1, r0)] read m0).
  apply (read_record sent [] raw2 [] ∅ [] 1 r0); [done| |apply r0_wire].
  unfold raw2. by rewrite (Unmarshal_MarshalRecord r0).
Qed.
Lemma seals_record : e2e (read, m1) (read, sealed).
Proof. apply (e2e_seal written0 ccfg0 "m" "base" 1000 cfg0 env0 read read m1); [apply rtc_refl|apply fits1]. Qed.
Lemma acks (m : Mgr0) : rtc e2e (read, m) (acked_by (ack m), m).
Proof.
  apply (rtc_l _ _ (acking (ack m), m)).
  - simple apply e2e_agent. intros fl du ac. unfold acking, ack.
    pose proof (sys_ack written0 ccfg0 (mkConn [] ({[k0]} ∪ ∅)) ({[k0]} ∪ ∅) c2 cp0 ts1 [mkConn [] ({[k0]} ∪ ∅)] true []
      (mkWorld (m_Spool m) fl du ac) []) as S1. cbn [cn_seen app w_sp] in S1. apply S1; [by left|done].
  - apply rtc_once. simple apply e2e_agent. intros fl du ac. generalize (ack m). intros k.
    apply (sys_acked written0 ccfg0 k c2 cp0 ts1 [mkConn [] ({[k0]} ∪ ∅)] true [k]). by left.
Qed.
Lemma reach_tailed : e2e_reachable written0 ccfg0 "m" "base" 1000 cfg0 (tailed, m0).
Proof.
  exists (a0, m0). split; [|apply tails]. exists cp0. split; [done|]. split; [apply begins0|done].
Qed.
Lemma reach_acked : e2e_reachable written0 ccfg0 "m" "base" 1000 cfg0 (acked, sealed).
Proof.
  destruct reach_tailed as (x0 & Hb & Hr). exists x0. split; [done|].
  etrans; [exact Hr|]. etrans; [apply sends|]. eapply rtc_l; [apply serves|].
  eapply rtc_l; [apply seals_record|apply acks].
Qed.

Lemma e2e_checkpointed_example :
  Get k0 (a_cp acked) = 10 /\
  ((exists r, place_of r = (k0, 10) /\ stored_in "m" (m_Store sealed) r) \/ (k0, 10) ∈ a_lost acked).
Proof.
  split; [vm_compute; reflexivity|].
  apply (e2e_checkpointed written0 ccfg0 logged0_pos "m" "base" 1000 cfg0 sane_m acked sealed k0 10 reach_acked).
  - by exists r0.
  - apply Z.leb_le. vm_compute. reflexivity.
Defined.
Lemma e2e_tailed_example :
  (exists r, place_of r = (k0, 10) /\ stored_in "m" (m_Store m0) r) \/
  (k0, 10) ∈ ev_place <$> cl_unacked (a_client tailed) \/ (k0, 10) ∈ a_lost tailed.
Proof.
  apply (e2e_tailed written0 ccfg0 logged0_pos "m" "base" 1000 cfg0 sane_m tailed m0 k0 10 10 reach_tailed).
  - vm_compute. reflexivity.
  - apply lookup_insert_eq.
  - by exists r0.
  - discriminate.
Defined.
End Witness.
