(* ===== verification/Whole.v ===== *)
(** The whole program: the threads of Session for the agents' side, the connections and the
    server's streams, and the manager's own code of Durable, with everything that can fail
    in between.  Every run refines the system of EndToEnd.  No code of its own. *)

From S2P Require Import Prelude GoStrings GoTime JsonText JsonStruct Model Value Ast SegFormat SegWriter.
From S2P Require Import RecordJson SegLayout SegRefine SegReader SegToy Merge Cache Blobs Catalog MetaJson.
From S2P Require Import SegGo StoreToy Store StoreOk Recovery Spool SpoolSafe Client Checkpoint Tailer Server.
From S2P Require Import Delivery Integrity Session Manager Durable EndToEnd.
Local Open Scope string_scope.
Local Open Scope list_scope.
Local Open Scope Z_scope.

Local Existing Instance go_json.
Local Existing Instance go_meta.

(** ** The whole system *)

Section Steps.
Context {C T : Type} `{!Bolt C, TL : !Tails C T} (ccfg : ClientConfig).
Context `{SortSlice, Regexp, Zstd} {B D : Type} `{BlobsLaws B, !Bolt D}.
Context (mid base : string) (cap : Z) (cfg : SpoolConfig).
Abbreviation Mgr := (Manager (B:=B) (D:=D)).
Abbreviation offers := (list (Time * LogRecord)).
Abbreviation received_ok := (Forall (fun x : Time * LogRecord => wire_ok (snd x))).

(** The threads go on while a seal that began with the spool [sp] is in progress. *)
Definition threads_step (sp : Spool) (x x' : net C T * offers) : Prop := exists new,
  snd x' = snd x ++ new /\ received_ok new /\
  net_step ccfg (Committed (accept_all (snd x) sp)) (fst x) new (fst x').
Definition meanwhile (m : Mgr) (n n' : net C T) (arr : offers) : Prop :=
  rtc (threads_step (taken (m_Spool m))) (n, []) (n', arr).

(** A step of a thread, a seal, another handler of the manager, or the end of its process,
    in a seal or between two calls, with the next start. *)
Inductive whole_step : net C T * Mgr -> net C T * Mgr -> Prop :=
| whole_net n new n' m :
    net_step ccfg (Committed (m_Spool m)) n new n' -> received_ok new -> whole_step (n, m) (n', offer new m)
| whole_seal e n n' m :
    meanwhile m n n' (se_arrivals e) -> seal_fits mid e m -> whole_step (n, m) (n', fst (seal_call e m))
| whole_quiet n m m' : quiet_step mid m m' -> whole_step (n, m) (n, m')
| whole_restart n n' arr m m' :
    meanwhile m n n' arr -> restart mid base cap cfg m m' -> whole_step (n, m) (manager_gone n', m').

Definition whole_begins (x : net C T * Mgr) : Prop := exists cp : C,
  (forall k, Get k cp = 0) /\ begins mid base cap cfg (snd x) /\ fst x = net_start ccfg cp.
Definition whole_reachable (x : net C T * Mgr) : Prop := exists x0, whole_begins x0 /\ rtc whole_step x0 x.

(** A seal that is in progress has changed nothing that the threads see. *)
Lemma accept_all_committed arr sp : Committed (accept_all arr sp) = Committed sp.
Proof.
  unfold accept_all. revert sp; induction arr as [|x arr IH]; intros sp; cbn; [done|]. rewrite IH.
  unfold Accept. by destruct (is_duplicate sp (snd x)).
Qed.
Lemma taken_committed sp : Committed (taken sp) = Committed sp.
Proof. unfold taken, seal_begin. by destruct (_ =? 0)%nat. Qed.
Lemma offer_spool new (m : Mgr) : m_Spool (offer new m) = accept_all new (m_Spool m).
Proof. unfold offer, accept_all. revert m; induction new as [|x new IH]; intros m; cbn; [done|]. by rewrite IH. Qed.
Lemma offer_app arr new (m : Mgr) : offer (arr ++ new) m = offer new (offer arr m).
Proof. unfold offer. apply foldl_app. Qed.

Lemma thread_whole m x x' : threads_step (taken (m_Spool m)) x x' ->
  whole_step (fst x, offer (snd x) m) (fst x', offer (snd x') m).
Proof.
  intros (new & -> & Hw & Hs). rewrite offer_app. apply whole_net; [|done].
  by rewrite offer_spool, accept_all_committed, <- (taken_committed (m_Spool m)), <- (accept_all_committed (snd x)).
Qed.
Lemma meanwhile_reachable n m n' arr : whole_reachable (n, m) -> meanwhile m n n' arr -> whole_reachable (n', offer arr m).
Proof.
  intros (x0 & Hb & Hr) Hm. exists x0. split; [done|]. etrans; [exact Hr|]. unfold meanwhile in Hm.
  change (n, m) with (fst (n, [] : offers), offer (snd (n, [] : offers)) m).
  change (n', offer arr m) with (fst (n', arr), offer (snd (n', arr)) m).
  induction Hm as [x|x x1 x' Hs _ IH]; [apply rtc_refl|]. eapply rtc_l; [by apply thread_whole|].
  apply IH.
Qed.
End Steps.

(** ** Links and connections *)

(** What the server has yet to read of a link, and the sources it sees with the record in
    hand. *)
Definition rest_of (pc : stream_pc) : list string :=
  match pc with EachPc batch | MarkPc _ batch => batch | _ => [] end.
Definition pipe_of (lk : link) : list string := rest_of (lk_stream lk) ++ List.concat (lk_up lk).
Definition marks_of (lk : link) : gset string :=
  match lk_stream lk with MarkPc key _ => {[key]} | _ => ∅ end ∪ lk_seen lk.

(** A link shows as a connection; [extra] is the batch the client is about to send on it. *)
Definition shows (extra : list string) (lk : link) (cn : conn) : Prop :=
  cn_pipe cn = pipe_of lk ++ extra /\ marks_of lk ⊆ cn_seen cn.
(** A link on which nothing was sent, or whose server has gone, need not show. *)
Definition absent (lk : link) : Prop :=
  lk_up lk = [] /\
  match lk_stream lk with
  | RecvPc => lk_seen lk = ∅
  | StreamDone => lk_seen lk = ∅ \/ lk_ack lk = TickDone
  | _ => False
  end.

(** The links and the connections; the flag says that the first one takes what the client
    sends. *)
Inductive matched : bool -> list string -> list link -> list conn -> Prop :=
| matched_nil x : matched false x [] []
| matched_live x lk lks cn cs : shows x lk cn -> matched false [] lks cs -> matched true x (lk :: lks) (cn :: cs)
| matched_conn x lk lks cn cs : shows [] lk cn -> matched false [] lks cs -> matched false x (lk :: lks) (cn :: cs)
| matched_absent x lk lks cs : absent lk -> matched false [] lks cs -> matched false x (lk :: lks) cs.

Lemma matched_any x x' lks cs : matched false x lks cs -> matched false x' lks cs.
Proof. inversion 1; subst; by constructor. Qed.

Definition extra_of (lv : bool) (lks1 : list link) (x : list string) : list string :=
  match lks1 with [] => if lv then x else [] | _ => [] end.

Lemma matched_false_middle x lks1 lk lks2 cs : matched false x (lks1 ++ lk :: lks2) cs ->
  (absent lk /\ forall lk', absent lk' -> matched false x (lks1 ++ lk' :: lks2) cs) \/
  exists cs1 cn cs2, cs = cs1 ++ cn :: cs2 /\ shows [] lk cn /\
    forall lk' cn', shows [] lk' cn' -> matched false x (lks1 ++ lk' :: lks2) (cs1 ++ cn' :: cs2).
Proof.
  revert x cs; induction lks1 as [|l lks1 IH]; intros x cs Hm; cbn in Hm |- *.
  - inversion Hm as [| |? ? ? cn cs' Hs Hr|? ? ? ? Ha Hr]; subst.
    + right. exists [], cn, cs'. split; [done|]. split; [done|]. intros lk' cn' Hs'. by constructor.
    + left. split; [done|]. intros lk' Ha'. by constructor.
  - inversion Hm as [| |? ? ? cn cs' Hs Hr|? ? ? ? Ha Hr]; subst; destruct (IH _ _ Hr) as [[H1 H2]|(cs1 & cn1 & cs2 & -> & H1 & H2)].
    + left. split; [done|]. intros lk' Ha'. constructor; auto.
    + right. exists (cn :: cs1), cn1, cs2. split; [done|]. split; [done|]. intros lk' cn' Hs'. constructor; auto.
    + left. split; [done|]. intros lk' Ha'. apply matched_absent; auto.
    + right. exists cs1, cn1, cs2. split; [done|]. split; [done|]. intros lk' cn' Hs'. apply matched_absent; auto.
Qed.

(** A link in the middle, and what may take its place. *)
Lemma matched_middle lv x lks1 lk lks2 cs : matched lv x (lks1 ++ lk :: lks2) cs ->
  (absent lk /\ (lv = true -> lks1 <> []) /\ forall lk', absent lk' -> matched lv x (lks1 ++ lk' :: lks2) cs) \/
  exists cs1 cn cs2, cs = cs1 ++ cn :: cs2 /\ (lv = true -> lks1 = [] <-> cs1 = []) /\ shows (extra_of lv lks1 x) lk cn /\
    forall lv' lk' cn', lv' = lv \/ (lks1 = [] /\ lv' = false) -> shows (extra_of lv' lks1 x) lk' cn' ->
      matched lv' x (lks1 ++ lk' :: lks2) (cs1 ++ cn' :: cs2).
Proof.
  intros Hm. destruct lv.
  - destruct lks1 as [|l lks1]; cbn in Hm; inversion Hm as [|? ? ? cn cs' Hs Hr| |]; subst.
    + right. exists [], cn, cs'. split; [done|]. split; [done|]. split; [done|].
      intros [] lk' cn' _ Hs'; by constructor.
    + destruct (matched_false_middle _ _ _ _ _ Hr) as [[H1 H2]|(cs1 & cn1 & cs2 & -> & H1 & H2)].
      * left. split; [done|]. split; [done|]. intros lk' Ha. constructor; auto.
      * right. exists (cn :: cs1), cn1, cs2. split; [done|]. split; [done|]. split; [done|].
        intros lv' lk' cn' [->|[? _]] Hs'; [|done]. constructor; auto.
  - destruct (matched_false_middle _ _ _ _ _ Hm) as [[H1 H2]|(cs1 & cn1 & cs2 & -> & H1 & H2)].
    + left. split; [done|]. split; [done|]. auto.
    + right. exists cs1, cn1, cs2. split; [done|]. split; [done|]. split; [by destruct lks1|].
      intros lv' lk' cn' Hlv Hs'. assert (lv' = false) as -> by (destruct Hlv as [->|[_ ->]]; done).
      apply H2. by destruct lks1.
Qed.
Lemma matched_map (f : link -> link) x lks cs :
  (forall lk, absent lk -> absent (f lk)) -> (forall lk cn, shows [] lk cn -> shows [] (f lk) cn) ->
  matched false x lks cs -> matched false [] (f <$> lks) cs.
Proof.
  intros Ha Hs. revert x cs; induction lks as [|lk lks IH]; intros x cs Hm; cbn;
    inversion Hm as [| |? ? ? cn cs' Hs' Hr|? ? ? ? Ha' Hr]; subst; [constructor|..].
  - apply matched_conn; eauto.
  - apply matched_absent; eauto.
Qed.

(** ** The state of the client's thread *)

Definition in_session (pc : run_pc) : bool :=
  match pc with CollectPc | SendPc _ | SelectPc => true | _ => false end.
Definition live (pc : run_pc) (lks : list link) : bool :=
  in_session pc && match lks with lk :: _ => negb (lk_broken lk) | [] => false end.
Definition pending (pc : run_pc) : list string := match pc with SendPc batch => batch | _ => [] end.
Definition fresh (lk : link) : Prop := absent lk /\ lk_seen lk = ∅.

(** Until the window is marked unsent, the new link does not show. *)
Definition linked (pc : run_pc) (lks : list link) (cs : list conn) (lv : bool) : Prop :=
  lv = live pc lks /\
  match pc with
  | ResetPc => exists lk lks', lks = lk :: lks' /\ fresh lk /\ matched false [] lks' cs
  | _ => matched lv (pending pc) lks cs
  end.

Definition broken_mono (lk lk' : link) : Prop := lk_broken lk = true -> lk_broken lk' = true.

Lemma linked_matched pc lks cs lv : pc <> ResetPc ->
  linked pc lks cs lv <-> lv = live pc lks /\ matched lv (pending pc) lks cs.
Proof. by destruct pc. Qed.
Lemma live_middle pc lks1 lk lk' lks2 lv : lv = live pc (lks1 ++ lk :: lks2) -> (lv = true -> lks1 <> []) ->
  broken_mono lk lk' -> lv = live pc (lks1 ++ lk' :: lks2).
Proof.
  intros -> Hl Hb. destruct lks1; [|done]. unfold live in *. cbn in *. destruct (in_session pc); [|done].
  cbn in *. destruct (lk_broken lk) eqn:E; [by rewrite Hb|by destruct (Hl eq_refl)].
Qed.
Lemma live_reset lks : live ResetPc lks = false.
Proof. done. Qed.

Lemma linked_middle pc lks1 lk lks2 cs lv : linked pc (lks1 ++ lk :: lks2) cs lv ->
  (absent lk /\ forall lk', absent lk' -> (fresh lk -> fresh lk') -> broken_mono lk lk' ->
     linked pc (lks1 ++ lk' :: lks2) cs lv) \/
  exists cs1 cn cs2, cs = cs1 ++ cn :: cs2 /\ (lv = true -> lks1 = [] <-> cs1 = []) /\
    shows (extra_of lv lks1 (pending pc)) lk cn /\
    forall lk' cn', broken_mono lk lk' ->
      shows (extra_of (live pc (lks1 ++ lk' :: lks2)) lks1 (pending pc)) lk' cn' ->
      linked pc (lks1 ++ lk' :: lks2) (cs1 ++ cn' :: cs2) (live pc (lks1 ++ lk' :: lks2)).
Proof.
  destruct (decide (pc = ResetPc)) as [->|Hpc].
  - intros (-> & l & lks & E & Hf & Hm). destruct lks1 as [|l1 lks1]; injection E as <- <-.
    + left. split; [apply Hf|]. intros lk' _ Hf' _. split; [done|]. exists lk', lks2. auto.
    + destruct (matched_false_middle _ _ _ _ _ Hm) as [[H1 H2]|(cs1 & cn & cs2 & -> & H1 & H2)].
      * left. split; [done|]. intros lk' Ha _ _. split; [done|]. exists l1, (lks1 ++ lk' :: lks2). auto.
      * right. exists cs1, cn, cs2. split; [done|]. split; [done|]. split; [done|].
        intros lk' cn' _ Hs. split; [done|]. exists l1, (lks1 ++ lk' :: lks2). auto.
  - intros [Elv Hm]%linked_matched; [|done].
    destruct (matched_middle _ _ _ _ _ _ Hm) as [(H1 & H2 & H3)|(cs1 & cn & cs2 & -> & H1 & H2 & H3)].
    + left. split; [done|]. intros lk' Ha _ Hb. apply linked_matched; [done|]. split; [by eapply live_middle|auto].
    + right. exists cs1, cn, cs2. split; [done|]. split; [done|]. split; [done|]. intros lk' cn' Hb Hs.
      apply linked_matched; [done|]. split; [done|]. apply H3; [|done]. rewrite Elv.
      destruct lks1; [|by left]. unfold live. cbn. destruct (in_session pc); [|by left]. cbn.
      destruct (lk_broken lk') eqn:E'; [by right|]. destruct (lk_broken lk) eqn:E; [by rewrite (Hb E) in E'|by left].
Qed.

(** ** The simulation *)

Section Whole.
Context {C : Type} `{!Bolt C} (written : LogRecord -> Prop) (ccfg : ClientConfig).
Context (Hdel : forall r, written r -> deliverable r).
Abbreviation logged := (logged written).
Abbreviation astep := (agent_step (C:=C) written ccfg).
Abbreviation offers := (list (Time * LogRecord)).

(** A step of the threads is some steps of the agent's side, or the reading of a record. *)
Definition moved (sp : Spool) (a : agent C) (new : offers) (a' : agent C) : Prop :=
  (new = [] /\ rtc (astep sp) a a') \/ read_step a new a'.

(** An ack the server has built and the agent not yet applied. *)
Definition ack_in (ack : commits) (lk : link) : Prop :=
  ack ∈ lk_down lk \/ lk_stream lk = AckPc ack \/ lk_ack lk = AckTickPc ack.
Definition acks_in (lks : list link) (aks : list commits) : Prop :=
  forall lk ack, lk ∈ lks -> ack_in ack lk -> ack ∈ aks.
Definition offers_ok (ts : gmap string (Z * option LogRecord)) : Prop :=
  map_Forall (fun k x => forall r, snd x = Some r ->
    key_of r = k /\ next_record written (fst x) r) ts.

Abbreviation pnet := (net C (Z * option LogRecord)).
#[local] Instance tails_at : Tails C (Z * option LogRecord) := place_tails written.

Definition related (n : pnet) (a : agent C) : Prop := exists cs lv aks,
  a = mkAgent (n_client n) (n_cp n) (fst <$> n_tails n) cs lv aks (n_lost n) /\
  linked (n_run n) (n_links n) cs lv /\ acks_in (n_links n) aks /\ offers_ok (n_tails n).

Lemma acks_in_middle lks1 lk lk' lks2 aks aks' :
  acks_in (lks1 ++ lk :: lks2) aks -> (forall ack, ack ∈ aks -> ack ∈ aks') ->
  (forall ack, ack_in ack lk' -> ack_in ack lk \/ ack ∈ aks') -> acks_in (lks1 ++ lk' :: lks2) aks'.
Proof.
  intros Ha Hs Hl l ack [Hin|[->|Hin]%elem_of_cons]%elem_of_app Hk.
  - apply Hs, (Ha l); [set_solver|done].
  - destruct (Hl ack Hk) as [Hk'|?]; [|done]. apply Hs, (Ha lk); [set_solver|done].
  - apply Hs, (Ha l); [set_solver|done].
Qed.

(** What a link keeps when a thread moves on it. *)
Record link_keeps (lk lk' : link) : Prop := {
  lk_mono : broken_mono lk lk';
  lk_absent : absent lk -> absent lk';
  lk_fresh : lk_seen lk = ∅ -> absent lk -> lk_seen lk' = ∅;
  lk_marks : marks_of lk' ⊆ marks_of lk
}.

Lemma after_break_live pc lks1 lk lk' lks2 cs1 lv :
  lv = live pc (lks1 ++ lk :: lks2) -> (lv = true -> lks1 = [] <-> cs1 = []) -> lk_broken lk' = true ->
  after_break cs1 lv = live pc (lks1 ++ lk' :: lks2).
Proof.
  intros Elv Hc Hb. destruct lks1 as [|l lks1].
  - unfold live. cbn. rewrite Hb, andb_false_r. destruct cs1; [done|]. cbn. destruct lv; [|done].
    discriminate (proj1 (Hc eq_refl) eq_refl).
  - change (live pc ((l :: lks1) ++ lk' :: lks2)) with (live pc ((l :: lks1) ++ lk :: lks2)). rewrite <- Elv.
    destruct cs1; [|done]. cbn. destruct lv; [|done]. discriminate (proj2 (Hc eq_refl) eq_refl).
Qed.
Lemma extra_broken pc lks1 lk lks2 x : lk_broken lk = true -> extra_of (live pc (lks1 ++ lk :: lks2)) lks1 x = [].
Proof. destruct lks1; [|done]. unfold live. cbn. intros ->. by rewrite andb_false_r. Qed.
Lemma live_unbroken pc lks1 lk lk' lks2 : lk_broken lk = lk_broken lk' ->
  live pc (lks1 ++ lk :: lks2) = live pc (lks1 ++ lk' :: lks2).
Proof. intros E. unfold live. destruct lks1; cbn; [by rewrite E|done]. Qed.

(** A link that loses part of what it carries is a connection that breaks. *)
Lemma link_sim sp pc lks1 lk lk' lks2 cs lv aks c cp ts lost gone :
  linked pc (lks1 ++ lk :: lks2) cs lv -> link_keeps lk lk' ->
  pipe_of lk = pipe_of lk' ++ gone -> (lk_broken lk' = false -> gone = []) ->
  exists cs' lv', linked pc (lks1 ++ lk' :: lks2) cs' lv' /\
    rtc (astep sp) (mkAgent c cp ts cs lv aks lost) (mkAgent c cp ts cs' lv' aks lost).
Proof.
  intros Hl [Hb Ha Hf Hm] Ep Hg. pose proof (proj1 Hl) as Elv.
  destruct (linked_middle _ _ _ _ _ _ Hl) as [(H1 & H2)|(cs1 & [pipe seen] & cs2 & -> & Hc & [Es Hs] & H2)].
  { exists cs, lv. split; [|apply rtc_refl]. apply H2; [auto| |done]. intros [? ?]. split; auto. }
  cbn [cn_pipe cn_seen] in Es, Hs. subst pipe. destruct (lk_broken lk') eqn:Eb.
  - exists (cs1 ++ mkConn (pipe_of lk') seen :: cs2), (live pc (lks1 ++ lk' :: lks2)). split.
    + apply H2; [done|]. split; cbn; [by rewrite extra_broken, app_nil_r|set_solver].
    + apply rtc_once. intros fl du ac. rewrite <- (after_break_live pc lks1 lk lk' lks2 cs1 lv Elv Hc Eb).
      rewrite Ep, <- app_assoc. apply sys_break.
  - rewrite (Hg eq_refl), app_nil_r in Ep. exists (cs1 ++ mkConn (pipe_of lk ++ extra_of lv lks1 (pending pc)) seen :: cs2), lv.
    split; [|apply rtc_refl]. assert (Eb' : lk_broken lk = lk_broken lk').
    { rewrite Eb. destruct (lk_broken lk) eqn:E; [|done]. by rewrite (Hb E) in Eb. }
    rewrite Elv, (live_unbroken pc lks1 lk lk' lks2 Eb'). apply H2; [done|]. split; cbn; [by rewrite Ep|set_solver].
Qed.

(** An ack is built from the sources marked as seen. *)
Lemma ack_sim sp pc lks1 lk lks2 cs lv aks c cp ts lost :
  linked pc (lks1 ++ lk :: lks2) cs lv -> ~ absent lk ->
  astep sp (mkAgent c cp ts cs lv aks lost)
    (mkAgent c cp ts cs lv (aks ++ [buildAck (lk_seen lk) (Committed sp)]) lost).
Proof.
  intros Hl Hn. destruct (linked_middle _ _ _ _ _ _ Hl) as [(H1 & _)|(cs1 & cn & cs2 & -> & _ & [_ Hs] & _)]; [done|].
  intros fl du ac. apply (sys_ack written ccfg cn (lk_seen lk) c cp ts _ lv aks (mkWorld sp fl du ac)); [set_solver|].
  unfold marks_of in Hs. set_solver.
Qed.

(** ** The client's thread *)

Lemma linked_idle pc lks cs x : in_session pc = false -> pc <> ResetPc -> matched false x lks cs -> linked pc lks cs false.
Proof.
  intros Hp Hr Hm. apply linked_matched; [done|]. split; [unfold live; by rewrite Hp|by eapply matched_any].
Qed.
Lemma linked_idle_inv pc lks cs lv : in_session pc = false -> pc <> ResetPc -> linked pc lks cs lv ->
  lv = false /\ matched false [] lks cs.
Proof.
  intros Hp Hr [-> Hm]%linked_matched; [|done]. unfold live in *. rewrite Hp in *. split; [done|by eapply matched_any].
Qed.
Lemma shows_close extra lk cn : shows extra lk cn -> shows extra (close_link lk) cn.
Proof. done. Qed.

(** The session ends, with a batch or without one that was not sent. *)
Lemma close_sim sp pc lks cs lv aks c cp ts lost :
  in_session pc = true -> linked pc lks cs lv ->
  exists cs', linked BackoffPc (match lks with lk :: lks => close_link lk :: lks | [] => [] end) cs' false /\
    rtc (astep sp) (mkAgent c cp ts cs lv aks lost) (mkAgent c cp ts cs' false aks lost).
Proof.
  intros Hp [Elv Hm]%linked_matched; [|by intros ->]. destruct lv.
  - inversion Hm as [|? lk lks' [pipe seen] cs' [Es Hs] Hr| |]; subst. cbn in Es, Hs. subst pipe.
    exists (mkConn (pipe_of lk) seen :: cs'). split.
    + eapply linked_idle; [done|done|]. apply (matched_conn []); [|done]. split; cbn; [by rewrite app_nil_r|done].
    + apply rtc_once. intros fl du ac. apply (sys_break written ccfg c cp ts [] (pipe_of lk) (pending pc) seen cs' true).
  - exists cs. split; [|apply rtc_refl]. eapply linked_idle; [done|done|].
    inversion Hm as [| |? lk lks' cn cs' Hs Hr|? lk lks' ? Ha Hr]; subst; [constructor|..].
    + by apply (matched_conn []).
    + by apply (matched_absent []).
Qed.

Lemma flush_sim sp c c' batch lks cs lv aks cp ts lost :
  flush_batch c = (c', batch) -> linked CollectPc lks cs lv -> forall pc', in_session pc' = true -> pending pc' = batch ->
  exists cs', linked pc' lks cs' lv /\
    rtc (astep sp) (mkAgent c cp ts cs lv aks lost) (mkAgent c' cp ts cs' lv aks lost).
Proof.
  intros Ef [Elv Hm]%linked_matched pc' Hp Eb; [|done].
  assert (El : live pc' lks = live CollectPc lks) by (unfold live; by rewrite Hp).
  eexists. split; cycle 1.
  - apply rtc_once. intros fl du ac. apply (sys_flush written ccfg c c' batch cp ts cs lv aks _ lost Ef).
  - apply linked_matched; [by intros ->|]. split; [by rewrite El|]. destruct lv.
    + inversion Hm as [|? lk lks' [pipe seen] cs' [Es Hs] Hr| |]; subst. constructor; [|done].
      cbn in *. split; cbn; [|done]. by rewrite Es, app_nil_r.
    + by eapply matched_any.
Qed.

Lemma connect_sim sp c lks cs lv aks cp ts lost : linked ResetPc lks cs lv ->
  exists cs' lv', linked CollectPc lks cs' lv' /\
    rtc (astep sp) (mkAgent c cp ts cs lv aks lost) (mkAgent (reconnect c) cp ts cs' lv' aks lost).
Proof.
  intros (-> & lk & lks' & -> & [[Eu Ha] Es] & Hm). exists (mkConn [] ∅ :: cs), (live CollectPc (lk :: lks')).
  assert (Hshow : shows [] lk (mkConn [] ∅)).
  { split; cbn; unfold pipe_of, marks_of; rewrite ?Eu, ?Es; by destruct (lk_stream lk). }
  assert (S1 : astep sp (mkAgent c cp ts cs (live ResetPc (lk :: lks')) aks lost)
    (mkAgent (reconnect c) cp ts (mkConn [] ∅ :: cs) true aks lost)).
  { intros fl du ac. apply (sys_connect written ccfg). }
  unfold live at 1 3. cbn. destruct (lk_broken lk) eqn:Eb; cbn.
  - split; [apply linked_matched; [done|]; split; [unfold live; cbn; by rewrite Eb|by constructor]|].
    eapply rtc_l; [exact S1|]. apply rtc_once. intros fl du ac.
    apply (sys_break written ccfg (reconnect c) cp ts [] [] [] ∅ cs true).
  - split; [apply linked_matched; [done|]; split; [unfold live; cbn; by rewrite Eb|by constructor]|].
    apply rtc_once, S1.
Qed.

Lemma push_sim batch lks cs lv : linked (SendPc batch) lks cs lv ->
  linked CollectPc (match lks with lk :: lks => push_up batch lk :: lks | [] => [] end) cs lv.
Proof.
  intros [Elv Hm]%linked_matched; [|done]. apply linked_matched; [done|]. destruct lv.
  - inversion Hm as [|? lk lks' cn cs' [Es Hs] Hr| |]; subst. unfold live in *. cbn in *.
    destruct (lk_broken lk) eqn:Eb; [done|]. unfold push_up. rewrite Eb. cbn. split; [done|]. constructor; [|done].
    split; [|exact Hs]. rewrite Es. unfold pipe_of. cbn. by rewrite concat_app, app_nil_r, <- app_assoc; cbn; rewrite app_nil_r.
  - inversion Hm as [| |? lk lks' cn cs' Hs Hr|? lk lks' ? Ha Hr]; subst; [split; [done|constructor]|..];
      unfold live in *; cbn in *; destruct (lk_broken lk) eqn:Eb; try done; unfold push_up; rewrite Eb; cbn;
      (split; [done|]); [by apply matched_conn|by apply matched_absent].
Qed.

Lemma thread_sim sp i pc pc' c c' lks cs lv aks cp ts lost :
  run_thread i pc c = Some (pc', c') -> linked pc lks cs lv ->
  exists cs' lv', linked pc' (run_links pc i lks) cs' lv' /\
    rtc (astep sp) (mkAgent c cp ts cs lv aks lost) (mkAgent c' cp ts cs' lv' aks lost).
Proof.
  intros E Hl.
  assert (Hidle : in_session pc = false -> pc <> ResetPc -> in_session pc' = false -> pc' <> ResetPc -> c' = c ->
    run_links pc i lks = lks -> exists cs' lv', linked pc' (run_links pc i lks) cs' lv' /\
    rtc (astep sp) (mkAgent c cp ts cs lv aks lost) (mkAgent c' cp ts cs' lv' aks lost)).
  { intros H1 H2 H3 H4 -> ->. destruct (linked_idle_inv _ _ _ _ H1 H2 Hl) as [-> Hm].
    exists cs, false. split; [by eapply linked_idle|apply rtc_refl]. }
  destruct pc, i; cbn [run_thread] in E; try done; try (injection E as <- <-).
  - apply Hidle; by destruct done.
  - apply Hidle; by destruct ok.
  - destruct ok; [|by apply Hidle]. destruct (linked_idle_inv OpenPc lks cs lv eq_refl ltac:(done) Hl) as [-> Hm].
    exists cs, false. split; [|apply rtc_refl]. split; [done|]. exists new_link, lks. by repeat split.
  - by apply connect_sim.
  - destruct (flush_batch c) as [c1 batch] eqn:Ef.
    destruct (flush_sim sp c c1 batch lks cs lv aks cp ts lost Ef Hl pc') as (cs' & H1 & H2);
      [by destruct batch; injection E as <- _|by destruct batch; injection E as <- _|].
    exists cs', lv. split; [done|]. by destruct batch; injection E as <- <-.
  - destruct ok; cbn [run_links].
    + exists cs, lv. split; [|apply rtc_refl]. by apply push_sim in Hl; destruct lks.
    + destruct (close_sim sp (SendPc batch) lks cs lv aks c cp ts lost eq_refl Hl) as (cs' & H1 & H2).
      exists cs', false. split; [by destruct lks|done].
  - exists cs, lv. split; [done|apply rtc_refl].
  - destruct (cl_notify c); [|done]. injection E as <- <-. exists cs, lv. split; [done|].
    apply rtc_once. intros fl du ac. apply (sys_notified written ccfg).
  - destruct (close_sim sp SelectPc lks cs lv aks c cp ts lost eq_refl Hl) as (cs' & H1 & H2).
    exists cs', false. split; [by destruct lks|done].
  - by apply Hidle.
  - by apply Hidle.
Qed.

Lemma run_links_acks pc i lks aks : acks_in lks aks -> acks_in (run_links pc i lks) aks.
Proof.
  intros Ha. assert (Hd : forall lk lk' lks', lks = lk :: lks' -> (forall ack, ack_in ack lk' -> ack_in ack lk) ->
    acks_in (lk' :: lks') aks).
  { intros lk lk' lks' -> Hk. apply (acks_in_middle [] lk lk' lks' aks aks); [done|done|]. intros ack Hin. left. auto. }
  destruct pc; try done; destruct i as [|[]| | | |]; try done; cbn; try (destruct lks as [|lk lks]; [done|]).
  - intros lk ack [->|Hin]%elem_of_cons Hk; [|by eapply Ha]. by destruct Hk as [?%elem_of_nil|[?|?]].
  - by eapply Hd.
  - by eapply Hd.
  - by eapply Hd.
Qed.

(** ** The server's threads *)

Lemma link_steps sp pc lks1 lk lk' lks2 cs lv aks aks1 c cp ts lost gone :
  linked pc (lks1 ++ lk :: lks2) cs lv -> acks_in (lks1 ++ lk :: lks2) aks ->
  link_keeps lk lk' -> pipe_of lk = pipe_of lk' ++ gone -> (lk_broken lk' = false -> gone = []) ->
  rtc (astep sp) (mkAgent c cp ts cs lv aks lost) (mkAgent c cp ts cs lv aks1 lost) ->
  (forall ack, ack ∈ aks -> ack ∈ aks1) -> (forall ack, ack_in ack lk' -> ack_in ack lk \/ ack ∈ aks1) ->
  exists cs' lv' aks', linked pc (lks1 ++ lk' :: lks2) cs' lv' /\ acks_in (lks1 ++ lk' :: lks2) aks' /\
    rtc (astep sp) (mkAgent c cp ts cs lv aks lost) (mkAgent c cp ts cs' lv' aks' lost).
Proof.
  intros Hl Ha Hk Ep Hg H1 H2 H3.
  destruct (link_sim sp _ _ _ _ _ _ _ aks1 c cp ts lost gone Hl Hk Ep Hg) as (cs' & lv' & Hl' & Hs).
  exists cs', lv', aks1. split; [done|]. split; [by eapply acks_in_middle|by etrans].
Qed.

Lemma link_moved sp pc lks1 lk lk' lks2 cs lv aks aks1 c cp ts lost gone :
  linked pc (lks1 ++ lk :: lks2) cs lv -> acks_in (lks1 ++ lk :: lks2) aks ->
  link_keeps lk lk' -> pipe_of lk = pipe_of lk' ++ gone -> (lk_broken lk' = false -> gone = []) ->
  rtc (astep sp) (mkAgent c cp ts cs lv aks lost) (mkAgent c cp ts cs lv aks1 lost) ->
  (forall ack, ack ∈ aks -> ack ∈ aks1) -> (forall ack, ack_in ack lk' -> ack_in ack lk \/ ack ∈ aks1) ->
  exists cs' lv' aks', linked pc (lks1 ++ lk' :: lks2) cs' lv' /\ acks_in (lks1 ++ lk' :: lks2) aks' /\
    moved sp (mkAgent c cp ts cs lv aks lost) [] (mkAgent c cp ts cs' lv' aks' lost).
Proof.
  intros. edestruct link_steps as (cs' & lv' & aks' & Hl' & Ha' & Hs); [eassumption..|].
  exists cs', lv', aks'. split; [done|]. split; [done|]. by left.
Qed.

(** The server takes a record of the batch. *)
Lemma read_sim sp pc lks1 lk lks2 cs lv aks c cp ts lost raw batch now pc' eff :
  linked pc (lks1 ++ lk :: lks2) cs lv -> acks_in (lks1 ++ lk :: lks2) aks -> lk_stream lk = EachPc (raw :: batch) ->
  match UnmarshalRecord raw with
  | None => pc' = EachPc batch /\ eff = Nothing
  | Some r => pc' = MarkPc (key_of r) batch /\ eff = Accepts r /\ wire_ok r
  end ->
  exists cs' lv' aks', linked pc (lks1 ++ stream_moved StreamLocked pc' (lk_seen lk) eff lk :: lks2) cs' lv' /\
    acks_in (lks1 ++ stream_moved StreamLocked pc' (lk_seen lk) eff lk :: lks2) aks' /\
    moved sp (mkAgent c cp ts cs lv aks lost) (match eff with Accepts r => [(now, r)] | _ => [] end)
      (mkAgent c cp ts cs' lv' aks' lost).
Proof.
  intros Hl Ha Es Hr. set (lk' := stream_moved _ _ _ _ _).
  assert (Hk : lk_broken lk = lk_broken lk') by (destruct (UnmarshalRecord raw); destruct_and?; by subst).
  destruct (linked_middle _ _ _ _ _ _ Hl) as [([_ Hab] & _)|(cs1 & [pipe seen] & cs2 & -> & Hc & [Ep Hs] & H2)];
    [by rewrite Es in Hab|]. cbn [cn_pipe cn_seen] in Ep, Hs.
  set (x := extra_of lv lks1 (pending pc)) in *. unfold pipe_of in Ep. rewrite Es in Ep. cbn [rest_of app] in Ep. subst pipe.
  set (seen' := match UnmarshalRecord raw with Some r => {[key_of r]} ∪ seen | None => seen end).
  exists (cs1 ++ mkConn ((batch ++ List.concat (lk_up lk)) ++ x) seen' :: cs2), lv, aks. split; [|split].
  - rewrite (proj1 Hl), (live_unbroken pc lks1 lk lk' lks2 Hk). apply H2; [by intros E; rewrite <- Hk|].
    rewrite <- (live_unbroken pc lks1 lk lk' lks2 Hk), <- (proj1 Hl). fold x.
    unfold marks_of in Hs. unfold shows, seen', pipe_of, marks_of, lk'.
    destruct (UnmarshalRecord raw); destruct_and?; subst pc' eff; cbn; (split; [done|set_solver]).
  - eapply acks_in_middle; [exact Ha|done|]. intros ack [Hd|[Hd|Hd]]; [|destruct (UnmarshalRecord raw); destruct_and?; by subst|].
    + left. left. destruct (UnmarshalRecord raw); destruct_and?; by subst.
    + left. by right; right.
  - right. unfold seen'. set (rest := (batch ++ List.concat (lk_up lk)) ++ x).
    set (a := mkAgent c cp ts (cs1 ++ mkConn (raw :: rest) seen :: cs2) lv aks lost).
    destruct (UnmarshalRecord raw) as [r|] eqn:Eu.
    + destruct Hr as (-> & -> & Hw). by apply (read_record a cs1 raw rest seen cs2 now r).
    + destruct Hr as [-> ->]. by apply (read_skip a cs1 raw rest seen cs2).
Qed.

Lemma keeps_up lk lk' : lk_broken lk' = lk_broken lk -> lk_up lk' = lk_up lk -> lk_stream lk' = lk_stream lk ->
  lk_seen lk' = lk_seen lk -> (lk_ack lk = TickDone -> lk_ack lk' = TickDone) -> link_keeps lk lk' /\ pipe_of lk = pipe_of lk'.
Proof.
  intros E1 E2 E3 E4 E5. unfold pipe_of. rewrite E2, E3. split; [|done]. split.
  - intros Hb. by rewrite E1.
  - intros [Hu Hs]. split; [by rewrite E2|]. rewrite E3, E4. destruct (lk_stream lk); try done. destruct Hs; auto.
  - by rewrite E4.
  - unfold marks_of. by rewrite E3, E4.
Qed.

Lemma moved_mono i pc seen eff lk : broken_mono lk (stream_moved i pc seen eff lk).
Proof. unfold broken_mono. cbn. by destruct pc. Qed.
Lemma keeps_busy i pc seen eff lk : ~ absent lk -> marks_of (stream_moved i pc seen eff lk) ⊆ marks_of lk ->
  link_keeps lk (stream_moved i pc seen eff lk).
Proof. intros Hn Hm. split; [apply moved_mono|done|done|done]. Qed.

Lemma stream_sim sp i pc pc' seen' eff lks1 lk lks2 cs lv aks c cp ts lost now :
  stream_thread (Committed sp) i (lk_stream lk) (lk_seen lk) = Some (pc', seen', eff) -> stream_enabled i lk ->
  Forall (fun x => wire_ok (snd x)) (match eff with Accepts r => [(now, r)] | _ => [] end) ->
  linked pc (lks1 ++ lk :: lks2) cs lv -> acks_in (lks1 ++ lk :: lks2) aks ->
  exists cs' lv' aks', linked pc (lks1 ++ stream_moved i pc' seen' eff lk :: lks2) cs' lv' /\
    acks_in (lks1 ++ stream_moved i pc' seen' eff lk :: lks2) aks' /\
    moved sp (mkAgent c cp ts cs lv aks lost) (match eff with Accepts r => [(now, r)] | _ => [] end)
      (mkAgent c cp ts cs' lv' aks' lost).
Proof.
  intros E He Hw Hl Ha.
  assert (Hnot : (match lk_stream lk with EachPc _ | MarkPc _ _ | AckPc _ => True | _ => False end) -> ~ absent lk).
  { intros Hs [_ Hab]. by destruct (lk_stream lk). }
  destruct (lk_stream lk) as [|[|raw batch]|key batch|ack|] eqn:Es, i as [b| | |ok]; cbn [stream_thread] in E; try done.
  - injection E as <- <- <-. cbn in He. destruct (lk_up lk) as [|b' up] eqn:Eu; [done|]. injection He as ->.
    eapply link_moved with (gone := []); [exact Hl|exact Ha| | |done|apply rtc_refl|done|].
    + split; [apply moved_mono|intros [Hu _]; congruence|intros _ [Hu _]; congruence|].
      unfold marks_of. cbn. by rewrite Es.
    + unfold pipe_of. cbn. rewrite Es, Eu. cbn. by rewrite app_nil_r.
    + intros a [Hd|[?|Hd]]; [left; by left|done|left; by right; right].
  - injection E as <- <- <-. destruct He as [Eu _].
    eapply link_moved with (gone := []); [exact Hl|exact Ha| | |done|apply rtc_refl|done|].
    + split; [done| |done|]; [|unfold marks_of; cbn; by rewrite Es].
      intros [_ Hab]. rewrite Es in Hab. split; [done|]. by left.
    + unfold pipe_of. cbn. by rewrite Es, Eu.
    + intros a [Hd|[?|Hd]]; [left; by left|done|left; by right; right].
  - assert (Hk : forall pc1, (pc1 = RecvPc \/ exists a, pc1 = AckPc a) ->
      link_keeps lk (stream_moved StreamLocked pc1 (lk_seen lk) Nothing lk) /\
      pipe_of lk = pipe_of (stream_moved StreamLocked pc1 (lk_seen lk) Nothing lk) ++ []).
    { intros pc1 Hp. split; [apply keeps_busy; [auto|]|]; unfold marks_of, pipe_of; cbn; rewrite Es, ?app_nil_r;
        by destruct Hp as [->|[a ->]]. }
    pose proof (ack_sim sp pc lks1 lk lks2 cs lv aks c cp ts lost Hl (Hnot I)) as S1.
    destruct (buildAck (lk_seen lk) (Committed sp)) as [|kv l] eqn:Eb; injection E as <- <- <-.
    + destruct (Hk RecvPc) as [Hk1 Hk2]; [by left|].
      eapply link_moved; [exact Hl|exact Ha|exact Hk1|exact Hk2|done|apply rtc_refl|done|].
      intros a [Hd|[?|Hd]]; [left; by left|done|left; by right; right].
    + destruct (Hk (AckPc (kv :: l))) as [Hk1 Hk2]; [by right; eexists|].
      eapply link_moved; [exact Hl|exact Ha|exact Hk1|exact Hk2|done|apply rtc_once, S1|set_solver|].
      intros a [Hd|[[= <-]|Hd]]; [left; by left|right; set_solver|left; by right; right].
  - assert (seen' = lk_seen lk) as -> by (destruct (UnmarshalRecord raw); by injection E).
    apply (read_sim sp pc lks1 lk lks2 cs lv aks c cp ts lost raw batch now); [done..|].
    destruct (UnmarshalRecord raw); injection E as <- <-; [|done]. by apply Forall_cons in Hw as [? _].
  - injection E as <- <- <-.
    eapply link_moved with (gone := []); [exact Hl|exact Ha| | |done|apply rtc_refl|done|].
    + apply keeps_busy; [auto|]. unfold marks_of. cbn. rewrite Es. set_solver.
    + unfold pipe_of. cbn. by rewrite Es, app_nil_r.
    + intros a [Hd|[?|Hd]]; [left; by left|done|left; by right; right].
  - injection E as <- <- <-. destruct ok.
    + eapply link_moved with (gone := []); [exact Hl|exact Ha| | |done|apply rtc_refl|done|].
      * apply keeps_busy; [auto|]. unfold marks_of. cbn. by rewrite Es.
      * unfold pipe_of. cbn. by rewrite Es, app_nil_r.
      * intros a [Hd|[?|Hd]]; [|done|left; by right; right]. cbn in Hd.
        apply elem_of_app in Hd as [Hd| ->%list_elem_of_singleton]; left; [by left|by right; left].
    + eapply link_moved with (gone := pipe_of lk); [exact Hl|exact Ha| |done|done|apply rtc_refl|done|].
      * apply keeps_busy; [auto|]. unfold marks_of. cbn. by rewrite Es.
      * intros a [Hd|[?|Hd]]; [left; by left|done|left; by right; right].
Qed.

Lemma acks_sim sp i pc pc' eff lks1 lk lks2 cs lv aks c cp ts lost :
  ack_thread (Committed sp) i (lk_ack lk) (lk_seen lk) = Some (pc', eff) ->
  linked pc (lks1 ++ lk :: lks2) cs lv -> acks_in (lks1 ++ lk :: lks2) aks ->
  exists cs' lv' aks', linked pc (lks1 ++ ack_moved pc' eff lk :: lks2) cs' lv' /\
    acks_in (lks1 ++ ack_moved pc' eff lk :: lks2) aks' /\
    moved sp (mkAgent c cp ts cs lv aks lost) [] (mkAgent c cp ts cs' lv' aks' lost).
Proof.
  intros E Hl Ha.
  destruct (keeps_up lk (ack_moved pc' eff lk)) as [Hk Ep]; [done..| |].
  { intros Et. rewrite Et in E. by destruct i. }
  rewrite <- (app_nil_r (pipe_of (ack_moved pc' eff lk))) in Ep.
  destruct (lk_ack lk) as [|ack|] eqn:Ek, i as [| |ok]; cbn [ack_thread] in E; try done.
  - destruct (buildAck (lk_seen lk) (Committed sp)) as [|kv l] eqn:Eb; injection E as <- <-.
    + eapply link_moved; [exact Hl|exact Ha|exact Hk|exact Ep|done|apply rtc_refl|done|].
      intros a [Hd|[Hd|?]]; [left; by left|left; by right; left|done].
    + assert (Hn : ~ absent lk).
      { intros [_ Hab]. assert (Es : lk_seen lk <> ∅) by (intros Es; by rewrite Es in Eb).
        destruct (lk_stream lk); try done. destruct Hab; congruence. }
      pose proof (ack_sim sp pc lks1 lk lks2 cs lv aks c cp ts lost Hl Hn) as S1. rewrite Eb in S1.
      eapply link_moved; [exact Hl|exact Ha|exact Hk|exact Ep|done|apply rtc_once, S1|set_solver|].
      intros a [Hd|[Hd|[= <-]]]; [left; by left|left; by right; left|right; set_solver].
  - injection E as <- <-. eapply link_moved; [exact Hl|exact Ha|exact Hk|exact Ep|done|apply rtc_refl|done|].
    intros a [Hd|[Hd|?]]; [left; by left|left; by right; left|done].
  - injection E as <- <-. eapply link_moved; [exact Hl|exact Ha|exact Hk|exact Ep|done|apply rtc_refl|done|].
    intros a [Hd|[Hd|Hd]]; [|left; by right; left|cbn in Hd; by destruct ok]. left. destruct ok; [|by left].
    cbn in Hd. apply elem_of_app in Hd as [Hd| ->%list_elem_of_singleton]; [by left|by right; right].
Qed.

(** ** One step of the threads *)

Lemma tails_insert (ts : gmap string (Z * option LogRecord)) k p x y : ts !! k = Some (p, y) ->
  fst <$> <[k := (p, x)]> ts = fst <$> ts.
Proof. intros E. rewrite fmap_insert, insert_id; [done|]. by rewrite lookup_fmap, E. Qed.
Lemma tail_at (ts : gmap string (Z * option LogRecord)) k p x :
  ts !! k = Some (p, x) -> (fst <$> ts) !! k = Some p.
Proof. intros E. by rewrite lookup_fmap, E. Qed.

(** The agent's process ends, whatever it was doing. *)
Lemma gone_sim sp pc lks cs lv aks c cp ts lost : linked pc lks cs lv -> acks_in lks aks ->
  exists cs', linked RunTop (agent_gone <$> lks) cs' false /\ acks_in (agent_gone <$> lks) aks /\
    rtc (astep sp) (mkAgent c cp ts cs lv aks lost) (mkAgent (NewClient ccfg) cp ∅ cs' false aks lost).
Proof.
  intros Hl Ha.
  assert (Hm : exists cs', matched false [] lks cs' /\
    rtc (astep sp) (mkAgent c cp ts cs lv aks lost) (mkAgent c cp ts cs' false aks lost)).
  { destruct (decide (pc = ResetPc)) as [->|Hpc].
    - destruct Hl as (-> & lk & lks' & -> & [Hab _] & Hm). exists cs. split; [by apply matched_absent|apply rtc_refl].
    - apply linked_matched in Hl as [Elv Hm]; [|done]. destruct lv.
      + inversion Hm as [|? lk lks' [pipe seen] cs' [Es Hs] Hr| |]; subst. cbn in Es, Hs. subst pipe.
        exists (mkConn (pipe_of lk) seen :: cs'). split.
        * apply matched_conn; [|done]. split; cbn; [by rewrite app_nil_r|done].
        * apply rtc_once. intros fl du ac. apply (sys_break written ccfg c cp ts [] (pipe_of lk) (pending pc) seen cs' true).
      + exists cs. split; [by eapply matched_any|apply rtc_refl]. }
  destruct Hm as (cs' & Hm & Hs). exists cs'. split; [|split].
  - eapply linked_idle; [done|done|]. by eapply (matched_map agent_gone).
  - intros lk ack (lk' & -> & Hin)%list_elem_of_fmap Hk. by apply (Ha lk').
  - etrans; [exact Hs|]. apply rtc_once. intros fl du ac. apply (sys_agent_restart written ccfg).
Qed.

Lemma tail_sim sp c cp ts lost c' cp' ts' lost' cs lv aks :
  tail_step written (c, cp, ts, lost) (c', cp', ts', lost') -> offers_ok ts -> offers_ok ts' /\
  rtc (astep sp) (mkAgent c cp (fst <$> ts) cs lv aks lost) (mkAgent c' cp' (fst <$> ts') cs lv aks lost').
Proof.
  intros Ht Ho.
  assert (Hn : forall k p, offers_ok (<[k := (p, None)]> ts)) by (intros k p; by apply map_Forall_insert_2).
  inversion Ht as [k ? ? ? ? Ek|p r ? ? ? ? Ek Hn'|p r ? ? calls ? ? ? Ek Ee|p r ? ? ? ? Ek Ee|p r ? ? ? ? Ek Ee|k p ? ? ? ? Ek];
    subst; try (destruct (Ho _ _ Ek r eq_refl) as (_ & Hn')); (split; [auto|]).
  - apply rtc_once. intros fl du ac. rewrite fmap_insert. apply sys_tail_start. by rewrite lookup_fmap, Ek.
  - apply map_Forall_insert_2; [|done]. by intros r' [= <-].
  - rewrite (tails_insert _ _ _ _ _ Ek). apply rtc_refl.
  - apply rtc_once. intros fl du ac. rewrite fmap_insert. eapply sys_tail_read; [by eapply tail_at|exact Hn'|apply Hdel, Hn'|done].
  - apply rtc_once. intros fl du ac. rewrite fmap_insert. eapply sys_tail_skip; [by eapply tail_at|exact Hn'|done].
  - apply rtc_once. intros fl du ac. rewrite fmap_insert. eapply sys_tail_canceled; [by eapply tail_at|exact Hn'|done].
  - by apply map_Forall_delete.
  - apply rtc_once. intros fl du ac. rewrite fmap_delete. apply sys_tail_exit.
Qed.

Lemma link_step_sim sp pc lks1 lk new lk' lks2 cs lv aks c cp ts lost :
  link_step (Committed sp) lk new lk' -> Forall (fun x => wire_ok (snd x)) new ->
  linked pc (lks1 ++ lk :: lks2) cs lv -> acks_in (lks1 ++ lk :: lks2) aks ->
  exists cs' lv' aks', linked pc (lks1 ++ lk' :: lks2) cs' lv' /\ acks_in (lks1 ++ lk' :: lks2) aks' /\
    moved sp (mkAgent c cp ts cs lv aks lost) new (mkAgent c cp ts cs' lv' aks' lost).
Proof.
  intros Hs Hw Hl Ha. revert Hw Hl Ha.
  destruct Hs as [now i pc' seen' eff lk Et He|i pc' eff lk Et He|lk Hr Hb|up gone down gone' lk Eu Ed]; intros Hw Hl Ha.
  - by eapply stream_sim.
  - by eapply acks_sim.
  - destruct (keeps_up lk (end_reader lk)) as [Hk Ep]; [done..|]. rewrite <- (app_nil_r (pipe_of (end_reader _))) in Ep.
    eapply link_moved; [exact Hl|exact Ha|exact Hk|exact Ep|done|apply rtc_refl|done|by left].
  - eapply link_moved with (gone := List.concat gone); [exact Hl|exact Ha| | |done|apply rtc_refl|done|].
    + split; [done| |done|done]. intros [Hu Hab]. split; [|done]. cbn. rewrite Eu in Hu. by apply app_nil in Hu as [-> _].
    + unfold pipe_of. cbn. by rewrite Eu, concat_app, app_assoc.
    + intros a [Hd|[Hd|Hd]]; left; [|by right; left|by right; right]. left. rewrite Ed. set_solver.
Qed.

Lemma reader_sim sp pc lks1 lk lks2 cs lv aks c cp ts lost ack down :
  lk_down lk = ack :: down -> linked pc (lks1 ++ lk :: lks2) cs lv -> acks_in (lks1 ++ lk :: lks2) aks ->
  exists cs' lv' aks', linked pc (lks1 ++ with_down down lk :: lks2) cs' lv' /\
    acks_in (lks1 ++ with_down down lk :: lks2) aks' /\
    rtc (astep sp) (mkAgent c cp ts cs lv aks lost)
      (mkAgent (fst (applyAck ack c)) (commit (snd (applyAck ack c)) cp) ts cs' lv' aks' lost).
Proof.
  intros Ed Hl Ha. destruct (keeps_up lk (with_down down lk)) as [Hk Ep]; [done..|].
  rewrite <- (app_nil_r (pipe_of (with_down _ _))) in Ep.
  set (cp' := commit _ cp). set (c' := fst (applyAck ack c)).
  destruct (link_steps sp pc lks1 lk _ lks2 cs lv aks aks c' cp' ts lost [] Hl Ha Hk Ep)
    as (cs' & lv' & aks' & Hl' & Ha' & Hmv); [done|apply rtc_refl|done|..].
  { intros a [Hd|[Hd|Hd]]; left; [|by right; left|by right; right]. left. rewrite Ed. by right. }
  exists cs', lv', aks'. split; [done|]. split; [done|].
  eapply rtc_l; [|exact Hmv]. intros fl du ac. apply sys_acked.
  apply (Ha lk); [set_solver|]. left. rewrite Ed. by left.
Qed.

Lemma net_sim sp n new n' a : net_step ccfg (Committed sp) n new n' ->
  Forall (fun x => wire_ok (snd x)) new -> related n a -> exists a', related n' a' /\ moved sp a new a'.
Proof.
  intros Hs Hw (cs & lv & aks & -> & Hl & Ha & Ho). revert Hw Hl Ha Ho.
  destruct Hs as [c cp ts lost c' cp' ts' lost' pc ctx lks Ht|i pc' c' c cp ts lost pc ctx lks Er He
    |ack down lks1 lk lks2 c cp ts lost pc ctx Erd Ed|new lk' lks1 lk lks2 c cp ts lost pc ctx Hs
    |c cp ts lost pc ctx lks|c cp ts lost pc ctx lks Ht|c cp ts lost pc ctx lks];
    intros Hw Hl Ha Ho; cbn [n_client n_cp n_tails n_lost n_run n_ctx n_links] in *.
  - destruct (tail_sim sp _ _ _ _ _ _ _ _ cs lv aks Ht Ho) as [Ho' Hst].
    eexists. split; [|left; split; [done|exact Hst]]. exists cs, lv, aks. cbn. eauto.
  - destruct (thread_sim sp i pc pc' c c' lks cs lv aks cp (fst <$> ts) lost Er Hl) as (cs' & lv' & Hl' & Hst).
    eexists. split; [|left; split; [done|exact Hst]]. exists cs', lv', aks. cbn. eauto using run_links_acks.
  - destruct (reader_sim sp pc lks1 lk lks2 cs lv aks c cp (fst <$> ts) lost ack down Ed Hl Ha)
      as (cs' & lv' & aks' & Hl' & Ha' & Hst).
    eexists. split; [|left; split; [done|exact Hst]]. exists cs', lv', aks'. cbn. eauto.
  - destruct (link_step_sim sp pc lks1 lk new lk' lks2 cs lv aks c cp (fst <$> ts) lost Hs Hw Hl Ha)
      as (cs' & lv' & aks' & Hl' & Ha' & Hmv). eexists. split; [|exact Hmv]. exists cs', lv', aks'. cbn. eauto.
  - eexists. split; [|left; split; [done|apply rtc_refl]]. exists cs, lv, aks. cbn. eauto.
  - exists (mkAgent (ClientClose c) cp (fst <$> ts) cs lv aks lost). split; [exists cs, lv, aks; cbn; eauto|].
    left. split; [done|]. apply rtc_once. intros fl du ac. apply sys_close.
  - destruct (gone_sim sp pc lks cs lv aks c cp (fst <$> ts) lost Hl Ha) as (cs' & Hl' & Ha' & Hst).
    exists (mkAgent (NewClient ccfg) cp ∅ cs' false aks lost). split; [|by left].
    exists cs', false, aks. cbn. rewrite fmap_empty. split; [done|]. split; [done|]. split; [done|apply map_Forall_empty].
Qed.

(** The manager's process ends: its streams and what was in transit to them are gone. *)
Lemma manager_gone_sim n a : related n a -> related (manager_gone n) (with_conns [] false a).
Proof.
  intros (cs & lv & aks & -> & Hl & Ha & Ho). exists [], false, aks.
  assert (Hab : forall lk, absent (server_gone lk)) by (intros lk; split; [done|by right]).
  assert (Hm : forall lks, matched false [] (server_gone <$> lks) []).
  { induction lks as [|lk lks IH]; [constructor|]. by apply matched_absent. }
  split; [done|]. split; [|split; [|done]].
  - destruct n as [c cp ts lost pc ctx lks]. cbn in *. destruct (decide (pc = ResetPc)) as [->|Hpc].
    + destruct Hl as (_ & lk & lks' & -> & [_ Es] & _). split; [done|].
      exists (server_gone lk), (server_gone <$> lks'). split; [done|]. split; [split; [apply Hab|done]|apply Hm].
    + apply linked_matched; [done|]. split; [|by eapply matched_any].
      unfold live. destruct lks; cbn; [by rewrite andb_false_r|]. by rewrite andb_false_r.
  - intros lk ack (lk' & -> & Hin)%list_elem_of_fmap Hd. apply (Ha lk'); [done|]. destruct Hd as [?|[?|?]]; [by left|done|done].
Qed.

(** ** Every run is one of the end-to-end system *)

Context `{SortSlice, Regexp, Zstd} {B D : Type} `{BlobsLaws B, !Bolt D}.
Context (mid base : string) (cap : Z) (cfg : SpoolConfig) (Hmid : sane_text mid).
Context (Hpos : forall r, written r -> 0 < rec_Offset r < 2 ^ 63).
Abbreviation Mgr := (Manager (B:=B) (D:=D)).
Abbreviation received_ok := (Forall (fun x : Time * LogRecord => wire_ok (snd x))).

Abbreviation steps := (whole_step (TL:=tails_at) ccfg mid base cap cfg).
Abbreviation reachable := (whole_reachable (TL:=tails_at) ccfg mid base cap cfg).
Abbreviation e2e := (e2e_step written ccfg mid base cap cfg).

Lemma moved_e2e a new a' (m : Mgr) : moved (m_Spool m) a new a' -> rtc e2e (a, m) (a', offer new m).
Proof.
  intros [[-> Hs]|Hr]; [|by apply rtc_once, e2e_read].
  change (offer [] m) with m. induction Hs as [|a1 a2 a3 Hs _ IH]; [apply rtc_refl|].
  eapply rtc_l; [apply e2e_agent, Hs|exact IH].
Qed.
Lemma moved_mid sp arr a new a' : moved (accept_all arr sp) a new a' ->
  rtc (mid_step written ccfg sp) (a, arr) (a', arr ++ new).
Proof.
  intros [[-> Hs]|Hr]; [|by apply rtc_once, mid_read].
  rewrite app_nil_r. induction Hs as [|a1 a2 a3 Hs _ IH]; [apply rtc_refl|].
  eapply rtc_l; [apply mid_agent, Hs|exact IH].
Qed.
Lemma meanwhile_during (m : Mgr) n n' arr a : meanwhile ccfg m n n' arr -> related n a ->
  exists a', related n' a' /\ during written ccfg m a a' arr.
Proof.
  unfold meanwhile, during. generalize (taken (m_Spool m)) as sp. intros sp Hs.
  cut (forall x x', rtc (threads_step ccfg sp) x x' -> forall a, related (fst x) a ->
    exists a', related (fst x') a' /\ rtc (mid_step written ccfg sp) (a, snd x) (a', snd x')).
  { intros Hc. apply (Hc _ _ Hs). }
  clear -Hdel. intros x x' Hs. induction Hs as [x|x x1 x' (new & Ea & Hw & Hs) _ IH]; intros a Hr; [eauto using rtc_refl|].
  destruct (net_sim _ _ _ _ a Hs Hw Hr) as (a1 & Hr1 & Hm). destruct (IH a1 Hr1) as (a' & Hr' & Hm').
  exists a'. split; [done|]. apply moved_mid in Hm. rewrite <- Ea in Hm. by etrans.
Qed.

(** Every step of the whole is some steps of the end-to-end system. *)
Lemma whole_sim x x' a : steps x x' -> related (fst x) a ->
  exists a', related (fst x') a' /\ rtc e2e (a, snd x) (a', snd x').
Proof.
  intros Hs. destruct Hs as [n new n' m Hs Hw|e n n' m Hd Hf|n m m' Hq|n n' arr m m' Hd Hre]; cbn; intros Hr.
  - destruct (net_sim _ _ _ _ a Hs Hw Hr) as (a' & Hr' & Hm). exists a'. split; [done|by apply moved_e2e].
  - destruct (meanwhile_during m n n' _ a Hd Hr) as (a' & Hr' & Hd'). exists a'. split; [done|]. by apply rtc_once, e2e_seal.
  - exists a. split; [done|]. by apply rtc_once, e2e_quiet.
  - destruct (meanwhile_during m n n' _ a Hd Hr) as (a' & Hr' & Hd'). exists (with_conns [] false a').
    split; [by apply manager_gone_sim|]. apply rtc_once. by eapply e2e_restart.
Qed.
Lemma whole_related x : reachable x ->
  exists a, related (fst x) a /\ e2e_reachable written ccfg mid base cap cfg (a, snd x).
Proof.
  intros ([n0 m0] & (cp & Hcp & Hb & En) & Hr). cbn in Hb, En. subst n0.
  set (a0 := mkAgent (NewClient ccfg) cp ∅ [] false [] []).
  assert (R0 : related (net_start ccfg cp) a0).
  { exists [], false, []. split; [done|]. split; [by split; [|constructor]|]. split; [by intros ? ? ?%elem_of_nil|].
    apply map_Forall_empty. }
  assert (Hc : forall x x', rtc steps x x' -> forall a, related (fst x) a ->
    exists a', related (fst x') a' /\ rtc e2e (a, snd x) (a', snd x')).
  { clear -Hdel. intros x x' Hs. induction Hs as [x|x x1 x' Hs _ IH]; intros a Hr; [eauto using rtc_refl|].
    destruct (whole_sim _ _ a Hs Hr) as (a1 & Hr1 & S1). destruct (IH a1 Hr1) as (a' & Hr' & S2).
    exists a'. split; [done|]. by etrans. }
  destruct (Hc _ _ Hr a0 R0) as (a & Ha & Hs). exists a. split; [done|].
  exists (a0, m0). split; [|exact Hs]. exists cp. auto.
Qed.

Lemma whole_places k o : logged (k, o) -> 0 < o < 2 ^ 63.
Proof. intros (r & Hr & [= _ <-]). by apply Hpos. Qed.

(** What the checkpoint has passed is in the object store, or given up. *)
Lemma whole_checkpointed n m k o :
  reachable (n, m) -> logged (k, o) -> o <= Get k (n_cp n) ->
  (exists r, place_of r = (k, o) /\ stored_in mid (m_Store m) r) \/ (k, o) ∈ n_lost n.
Proof.
  intros (a & (cs & lv & aks & -> & _) & Hr)%whole_related Hl Hle.
  exact (e2e_checkpointed written ccfg whole_places mid base cap cfg Hmid _ m k o Hr Hl Hle).
Qed.

(** A record at or below the place of its tail is stored, in the window, or given up. *)
Lemma whole_tailed n m k p x o :
  reachable (n, m) -> cl_closed (n_client n) = false -> n_tails n !! k = Some (p, x) ->
  logged (k, o) -> o <= p ->
  (exists r, place_of r = (k, o) /\ stored_in mid (m_Store m) r) \/
  (k, o) ∈ ev_place <$> cl_unacked (n_client n) \/ (k, o) ∈ n_lost n.
Proof.
  intros (a & (cs & lv & aks & -> & _) & Hr)%whole_related Hc Hp Hl Hle.
  refine (e2e_tailed written ccfg whole_places mid base cap cfg Hmid _ m k p o Hr Hc _ Hl Hle).
  by eapply tail_at.
Qed.

(** The manager is as its own runs leave it. *)
Lemma whole_manager n m : reachable (n, m) -> exists files ac, sim mid cap cfg m files ac.
Proof.
  intros (a & _ & Hr)%whole_related. destruct (e2e_tied written ccfg mid base cap cfg Hmid _ Hr) as (files & ac & Hsim & _).
  by exists files, ac.
Qed.

(** What the manager holds is genuine, and a checkpoint is at the start or at a record. *)
Lemma whole_honest n m : reachable (n, m) ->
  (forall r, stored_in mid (m_Store m) r \/ r ∈ sp_buf (m_Spool m) -> genuine written r) /\
  (forall k, at_record written k (Get k (n_cp n))).
Proof.
  intros Hw. destruct (whole_related _ Hw) as (a & (cs & lv & aks & -> & _) & Hr).
  destruct (e2e_tied written ccfg mid base cap cfg Hmid _ Hr) as (files & ac & Hsim & Hreach).
  pose proof (reachable_honest written ccfg whole_places _ _ Hreach) as Hh.
  apply (sys_reachable_inv written ccfg whole_places) in Hreach. split; [|apply (ho_cp _ _ Hh)].
  intros r Hr'. apply (ho_accepted _ _ Hh). cbn. apply (inv_kept _ (Delivery.si_world _ _ Hreach)). cbn.
  destruct Hr' as [Hs|Hb]; [left|right; by right].
  by apply (stored_records mid _ _ _ (si_holds _ _ _ _ _ _ Hsim) (si_files _ _ _ _ _ _ Hsim)).
Qed.

(** Every record the manager holds is a written one as one passage through JSON leaves it. *)
Lemma whole_written n m r :
  (forall r, written r -> record_wf r) -> reachable (n, m) ->
  stored_in mid (m_Store m) r \/ r ∈ sp_buf (m_Spool m) ->
  exists r0, written r0 /\ r = carry_record r0.
Proof.
  intros Hwf Hw Hs. destruct (whole_honest n m Hw) as [Hg _].
  destruct (Hg r Hs) as (raw & (r0 & Hr0 & Em) & Eu). exists r0. split; [done|].
  change (GoUnmarshalRecord raw = Some r) in Eu. rewrite (record_carried r0 raw (Hwf r0 Hr0) Em) in Eu.
  by injection Eu.
Qed.

Lemma meanwhile_moves (m : Mgr) (n n' : pnet) arr : meanwhile ccfg m n n' arr -> rtc (net_move ccfg) n n'.
Proof.
  intros Hs. unfold meanwhile in Hs. revert Hs. generalize (taken (m_Spool m)) as sp. intros sp Hs.
  change n with (fst (n, [] : offers)). change n' with (fst (n', arr)).
  induction Hs as [y|y y1 y2 (new & _ & _ & Hs) _ IH]; [apply rtc_refl|]. eapply rtc_l; [|exact IH]. left. eauto.
Qed.
Lemma whole_net_reachable x : reachable x -> net_reachable ccfg (fst x).
Proof.
  intros (x0 & (cp & _ & _ & E) & Hr). exists cp. rewrite <- E. clear E.
  induction Hr as [y|y y1 y2 Hs _ IH]; [apply rtc_refl|]. etrans; [|exact IH].
  destruct Hs; cbn; [apply rtc_once; left; eauto|by eapply meanwhile_moves|apply rtc_refl|].
  eapply rtc_r; [by eapply meanwhile_moves|by right].
Qed.

(** When the client's thread rests on a connection that is not broken, each record of the
    window is with the manager or in transit on that connection. *)
Lemma whole_at_rest n m lk lks e :
  reachable (n, m) -> n_run n = SelectPc -> cl_notify (n_client n) = false ->
  n_links n = lk :: lks -> lk_broken lk = false -> e ∈ cl_unacked (n_client n) ->
  (exists r, place_of r = ev_place e /\ (stored_in mid (m_Store m) r \/ r ∈ sp_buf (m_Spool m))) \/
  ev_place e ∈ n_lost n \/ ev_place e ∈ raw_place <$> pipe_of lk.
Proof.
  intros Hw Hs Hn El Hb He. pose proof (whole_net_reachable _ Hw) as Hnet. cbn in Hnet.
  assert (Hse : ev_sent e = true).
  { destruct (reachable_awake ccfg written (offered written) n Hnet Hs) as [Hu|?]; [|congruence].
    destruct (ev_sent e) eqn:Es; [done|]. exfalso. apply (not_elem_of_nil e). rewrite <- Hu.
    apply list_elem_of_In, filter_In. by rewrite <- list_elem_of_In, Es. }
  destruct (whole_related _ Hw) as (a & (cs & lv & aks & -> & Hl & _) & Hr). cbn in Hl.
  destruct (e2e_tied written ccfg mid base cap cfg Hmid _ Hr) as (files & ac & Hsim & Hreach).
  apply (sys_reachable_inv written ccfg whole_places) in Hreach.
  rewrite Hs, El in Hl. destruct Hl as [Elv Hm]. unfold live in Elv. cbn in Elv. rewrite Hb in Elv. subst lv.
  destruct (si_sent _ _ Hreach e eq_refl He Hse) as (cn & cs' & Ecs & Hp). cbn in Ecs. subst cs.
  inversion Hm as [|? ? ? ? ? [Ep _] _| |]; subst. rewrite app_nil_r in Ep. rewrite Ep in Hp.
  destruct Hp as [[(r & Er & Hra)%list_elem_of_fmap|?]|?]; [left|right; by left|right; by right].
  exists r. split; [done|]. cbn in Hra. apply (inv_kept _ (Delivery.si_world _ _ Hreach)) in Hra. cbn in Hra.
  destruct Hra as [Hd|[?%elem_of_nil|Hbuf]]; [left|done|by right].
  by apply (stored_records mid _ _ _ (si_holds _ _ _ _ _ _ Hsim) (si_files _ _ _ _ _ _ Hsim)).
Qed.
End Whole.
