(* ===== verification/Logs.v ===== *)
(** The whole program from the bytes of the log files: tails take the steps of TailRun on
    files that grow while they are read, in the place of the tails of Whole that stand at a
    record.  Every run shows as a run of Whole.  No code of its own. *)

From S2P Require Import Prelude GoStrings GoTime JsonText JsonStruct Model Value Ast SegFormat SegWriter.
From S2P Require Import RecordJson SegLayout SegRefine SegReader SegToy Merge Cache Blobs Catalog MetaJson.
From S2P Require Import SegGo StoreToy Store StoreOk Recovery Spool SpoolSafe Client Checkpoint Enrich Tailer Discover.
From S2P Require Import TailRun Server Delivery Integrity Session Manager Durable EndToEnd Whole.
Local Open Scope string_scope.
Local Open Scope list_scope.
Local Open Scope Z_scope.

Local Existing Instance go_json.
Local Existing Instance go_meta.

(** ** Systems that differ in their tails *)

Definition with_tails {D T1 T2} (ts : gmap string T2) (n : net D T1) : net D T2 :=
  mkNet (n_client n) (n_cp n) ts (n_lost n) (n_run n) (n_ctx n) (n_links n).

Section Refines.
Context {C T1 T2 : Type} `{!Bolt C, TL1 : !Tails C T1, TL2 : !Tails C T2} (ccfg : ClientConfig).
Context `{SortSlice, Regexp, Zstd} {B D : Type} `{BlobsLaws B, !Bolt D}.
Context (mid base : string) (cap : Z) (cfg : SpoolConfig).
Abbreviation Mgr := (Manager (B:=B) (D:=D)).
Abbreviation offers := (list (Time * LogRecord)).
Abbreviation reachable1 := (whole_reachable (TL:=TL1) (B:=B) (D:=D) ccfg mid base cap cfg).
Abbreviation reachable2 := (whole_reachable (TL:=TL2) (B:=B) (D:=D) ccfg mid base cap cfg).

(** Tails of the first kind show as tails of the second, as long as the checkpoint is one
    that the second system can have. *)
Context (R : gmap string T1 -> gmap string T2 -> Prop) (good : C -> Prop).
Context (R_empty : R ∅ ∅) (R_done : forall ts, R ∅ ts -> ts = ∅).
Context (R_step : forall c cp ts1 lost c' cp' ts1' lost' ts2,
  tl_step (Tails:=TL1) (c, cp, ts1, lost) (c', cp', ts1', lost') -> good cp -> R ts1 ts2 ->
  exists ts2', R ts1' ts2' /\ rtc (tl_step (Tails:=TL2)) (c, cp, ts2, lost) (c', cp', ts2', lost')).
Context (good_reachable : forall n (m : Mgr), reachable2 (n, m) -> good (n_cp n)).

Lemma tails_moved committed c cp ts lost c' cp' ts' lost' pc ctx lks :
  rtc (tl_step (Tails:=TL2)) (c, cp, ts, lost) (c', cp', ts', lost') ->
  rtc (fun n n' => net_step (TL:=TL2) ccfg committed n [] n') (mkNet c cp ts lost pc ctx lks) (mkNet c' cp' ts' lost' pc ctx lks).
Proof.
  intros Hs.
  set (P := fun x : shared C T2 => let '(c, cp, ts, lost) := x in mkNet c cp ts lost pc ctx lks).
  apply (rtc_congruence P (fun n n' => net_step (TL:=TL2) ccfg committed n [] n')) in Hs; [exact Hs|].
  intros [[[? ?] ?] ?] [[[? ?] ?] ?] S1. exact (net_tail (TL:=TL2) ccfg committed _ _ _ _ _ _ _ _ pc ctx lks S1).
Qed.

Lemma net_refines committed n new n' ts : net_step (TL:=TL1) ccfg committed n new n' -> good (n_cp n) -> R (n_tails n) ts ->
  exists ts', R (n_tails n') ts' /\
    ((new = [] /\ rtc (fun n n' => net_step (TL:=TL2) ccfg committed n [] n') (with_tails ts n) (with_tails ts' n')) \/
     net_step (TL:=TL2) ccfg committed (with_tails ts n) new (with_tails ts' n')).
Proof.
  intros Hs. destruct Hs as [c cp ts1 lost c' cp' ts1' lost' pc ctx lks Ht| | | | |c cp ts1 lost pc ctx lks [Hx Hd]|];
    cbn; intros Hg HR.
  - destruct (R_step _ _ _ _ _ _ _ _ ts Ht Hg HR) as (ts' & HR' & Hs). exists ts'. split; [done|]. left. split; [done|].
    by apply tails_moved.
  - exists ts. split; [done|]. right. by apply (net_run_step (TL:=TL2)).
  - exists ts. split; [done|]. right. by apply (net_acked (TL:=TL2)).
  - exists ts. split; [done|]. right. by apply (net_link (TL:=TL2)).
  - exists ts. split; [done|]. right. apply (net_cancel (TL:=TL2)).
  - cbn in Hx, Hd. exists ts. split; [done|]. right. apply (net_close (TL:=TL2)). split; [done|]. cbn. apply R_done. by rewrite <- Hd.
  - exists ∅. split; [done|]. right. apply (net_restart (TL:=TL2)).
Qed.

Lemma meanwhile_refines (m : Mgr) n n' arr ts : meanwhile (TL:=TL1) ccfg m n n' arr ->
  reachable2 (with_tails ts n, m) -> R (n_tails n) ts ->
  exists ts', R (n_tails n') ts' /\ meanwhile (TL:=TL2) ccfg m (with_tails ts n) (with_tails ts' n') arr.
Proof.
  intros Hm Hr HR. unfold meanwhile in Hm.
  refine (rtc_ind_r (fun x => exists ts', R (n_tails (fst x)) ts' /\
    meanwhile (TL:=TL2) ccfg m (with_tails ts n) (with_tails ts' (fst x)) (snd x)) (n, []) _ _ (n', arr) Hm); clear Hm.
  { exists ts. split; [done|apply rtc_refl]. }
  intros [n1 arr1] [n2 arr2] _ (new & Ea & Hw & Hs) (ts1 & HR1 & Hm1).
  unfold meanwhile in Hm1 |- *.
  cbn in *. subst arr2.
  assert (Hg : good (n_cp n1)).
  { change (n_cp n1) with (n_cp (with_tails ts1 n1)). eapply good_reachable, meanwhile_reachable; [exact Hr|]. exact Hm1. }
  destruct (net_refines _ _ _ _ _ Hs Hg HR1) as (ts2 & HR2 & [[-> Hs2]|Hs2]); exists ts2; (split; [done|]).
  - etrans; [exact Hm1|]. rewrite app_nil_r.
    apply (rtc_congruence (fun n => (n, arr1)) (threads_step (TL:=TL2) ccfg (taken (m_Spool m)))) in Hs2; [exact Hs2|].
    intros x y S1. exists []. by rewrite app_nil_r.
  - eapply rtc_r; [exact Hm1|]. by exists new.
Qed.

Lemma whole_step_refines x x' ts : whole_step (TL:=TL1) (B:=B) (D:=D) ccfg mid base cap cfg x x' ->
  reachable2 (with_tails ts (fst x), snd x) -> R (n_tails (fst x)) ts ->
  exists ts', R (n_tails (fst x')) ts' /\
    rtc (whole_step (TL:=TL2) ccfg mid base cap cfg) (with_tails ts (fst x), snd x) (with_tails ts' (fst x'), snd x').
Proof.
  intros Hs. destruct Hs as [n new n' m Hs Hw|e n n' m Hm Hf|n m m' Hq|n n' arr m m' Hm Hre]; cbn; intros Hr HR.
  - pose proof (good_reachable _ _ Hr) as Hg. cbn in Hg.
    destruct (net_refines _ _ _ _ _ Hs Hg HR) as (ts' & HR' & [[-> Hs2]|Hs2]); exists ts'; (split; [done|]).
    + apply (rtc_congruence (fun n => (n, m)) (whole_step (TL:=TL2) ccfg mid base cap cfg)) in Hs2; [exact Hs2|].
      intros y z S1. by apply (whole_net (TL:=TL2) ccfg mid base cap cfg y []).
    + by apply rtc_once, (whole_net (TL:=TL2)).
  - destruct (meanwhile_refines _ _ _ _ _ Hm Hr HR) as (ts' & HR' & Hm'). exists ts'. split; [done|].
    by apply rtc_once, (whole_seal (TL:=TL2)).
  - exists ts. split; [done|]. by apply rtc_once, (whole_quiet (TL:=TL2)).
  - destruct (meanwhile_refines _ _ _ _ _ Hm Hr HR) as (ts' & HR' & Hm'). exists ts'. split; [done|].
    apply rtc_once. exact (whole_restart (TL:=TL2) ccfg mid base cap cfg _ _ arr m m' Hm' Hre).
Qed.

(** Every run with tails of the first kind shows as one with tails of the second. *)
Lemma whole_refines x : reachable1 x ->
  exists ts, R (n_tails (fst x)) ts /\ reachable2 (with_tails ts (fst x), snd x).
Proof.
  intros ([n0 m0] & (cp & Hcp & Hb & En) & Hr). cbn in Hb, En. subst n0.
  refine (rtc_ind_r (fun x => exists ts, R (n_tails (fst x)) ts /\ reachable2 (with_tails ts (fst x), snd x))
    (net_start ccfg cp, m0) _ _ x Hr); clear Hr x.
  { exists ∅. split; [done|]. exists (net_start ccfg cp, m0). split; [|apply rtc_refl]. by exists cp. }
  intros x1 x2 _ Hs (ts & HR & Hr2).
  destruct (whole_step_refines _ _ _ Hs Hr2 HR) as (ts' & HR' & Hs'). exists ts'. split; [done|].
  destruct Hr2 as (x0 & Hb0 & Hr0). exists x0. split; [done|]. by etrans.
Qed.
End Refines.

(** ** Tails on the bytes of their files *)

(** A tail: the file generation it has open, where it stands, its fields. *)
Record byte_tail := mkByteTail { bt_file : log_file; bt_pc : tail_pc; bt_ft : fileTail }.

(** What the system answers: the generation found by [discover] is opened, a seek inside it
    does not fail, and a read finds a first part of all that is ever written to it. *)
Definition answers (f : log_file) (i : tail_input) : Prop :=
  match i with
  | Opened ok seek_ok => seek_ok = true
  | Holds data => exists n, data = stake n (lf_data f)
  | Offered => False
  | _ => True
  end.
Definition file_key (f : log_file) : string := Key (lf_src f).
(** The tail [discover] starts. *)
Definition started (f : log_file) (off : Z) : byte_tail :=
  mkByteTail f StartPc (open_tail (lf_path f) (lf_pod f) (lf_src f) off).

Section Bytes.
Context {C : Type} `{!Bolt C} (files : list log_file) (seen : option Enricher -> Prop) (tcfg : TailerConfig).
Abbreviation byte_tails := (gmap string byte_tail).

(** The enricher is one of those seen when the tail takes its step. *)
Inductive byte_step : shared C byte_tail -> shared C byte_tail -> Prop :=
| byte_start f c cp ts lost :
    f ∈ files -> ts !! file_key f = None ->
    byte_step (c, cp, ts, lost) (c, cp, <[file_key f := started f (Get (file_key f) cp)]> ts, lost)
| byte_run k f pc ft i enr pc' ft' c cp ts lost :
    ts !! k = Some (mkByteTail f pc ft) -> seen enr -> answers f i -> tail_thread tcfg enr i pc ft = Some (pc', ft') ->
    byte_step (c, cp, ts, lost) (c, cp, <[k := mkByteTail f pc' ft']> ts, lost)
| byte_enqueued k f r last ft c c' calls cp ts lost :
    ts !! k = Some (mkByteTail f (EnqueuePc r last) ft) -> Enqueue r c = Enqueued c' calls ->
    byte_step (c, cp, ts, lost) (c', commit calls cp, <[k := mkByteTail f (CtxPc last) ft]> ts, lost ++ calls)
| byte_no_json k f r last ft c cp ts lost :
    ts !! k = Some (mkByteTail f (EnqueuePc r last) ft) -> Enqueue r c = MarshalFailed ->
    byte_step (c, cp, ts, lost) (c, cp, <[k := mkByteTail f (CtxPc last) ft]> ts, lost ++ [place_of r])
| byte_canceled k f r last ft c cp ts lost :
    ts !! k = Some (mkByteTail f (EnqueuePc r last) ft) -> Enqueue r c = Canceled ->
    byte_step (c, cp, ts, lost) (c, cp, <[k := mkByteTail f (CtxPc last) ft]> ts, lost)
| byte_exit k f ft c cp ts lost :
    ts !! k = Some (mkByteTail f EndPc ft) -> byte_step (c, cp, ts, lost) (c, cp, delete k ts, lost).
#[export] Instance byte_tails_of : Tails C byte_tail := {
  tl_step := byte_step;
  tl_offer x := match bt_pc x with EnqueuePc r _ => Some r | _ => None end
}.

(** The records of the files, with what enrichment made of them. *)
Definition file_written (r : LogRecord) : Prop := exists f r0 enr,
  f ∈ files /\ r0 ∈ file_records f 0 /\ seen enr /\ r = enriched enr (pi_UID (lf_pod f)) r0.

Lemma enriched_place enr uid r : key_of (enriched enr uid r) = key_of r /\ rec_Offset (enriched enr uid r) = rec_Offset r.
Proof. destruct enr as [e|]; [|done]. cbn. unfold Enrich, key_of. by destruct (en_byUID e !! uid). Qed.
Lemma enriched_place_of enr uid r : place_of (enriched enr uid r) = place_of r.
Proof. destruct (enriched_place enr uid r) as [E1 E2]. exact (f_equal2 pair E1 E2). Qed.

Context (Hkeys : NoDup (file_key <$> files)) (Hseen : exists enr, seen enr).
Context (Hsize : Forall (fun f => Z.of_nat (slen (lf_data f)) < 2 ^ 63) files).

Lemma file_written_logged x : logged file_written x <-> file_logged files x.
Proof.
  split.
  - intros (r & (f & r0 & enr & Hf & Hr0 & _ & ->) & <-). exists f, r0. split; [done|]. split; [done|].
    by rewrite enriched_place_of.
  - intros (f & r0 & Hf & Hr0 & <-). destruct Hseen as [enr He]. exists (enriched enr (pi_UID (lf_pod f)) r0).
    split; [by exists f, r0, enr|apply enriched_place_of].
Qed.

(** ** Where a tail stands *)

(** What a tail has still to read. *)
Definition rest_of (f : log_file) (ft : fileTail) : list LogRecord :=
  snd (read_lines (complete (sdrop (ft_pos ft) (lf_data f))) ft).
(** A tail as a place: that of the last record it sent, or where it started. *)
Record at_place (k : string) (x : byte_tail) (y : Z * option LogRecord) : Prop := {
  ap_file : bt_file x ∈ files;
  ap_key : k = file_key (bt_file x);
  ap_stands : stands (bt_file x) (fst y);
  ap_offset : at_offset (lf_data (bt_file x)) (bt_ft x);
  ap_src : ft_src (bt_ft x) = lf_src (bt_file x);
  ap_pod : ft_pod (bt_ft x) = lf_pod (bt_file x);
  ap_rest : let f := bt_file x in
    match bt_pc x with
    | EnqueuePc r _ => exists r0 enr, snd y = Some r /\ seen enr /\ r = enriched enr (pi_UID (lf_pod f)) r0 /\
        file_records f (fst y) = r0 :: rest_of f (bt_ft x)
    | _ => snd y = None /\ file_records f (fst y) = rest_of f (bt_ft x)
    end
}.
Definition at_places (ts1 : byte_tails) (ts2 : gmap string (Z * option LogRecord)) : Prop :=
  forall k, option_Forall2 (at_place k) (ts1 !! k) (ts2 !! k).

Lemma at_places_lookup ts1 ts2 k x : at_places ts1 ts2 -> ts1 !! k = Some x -> exists y, ts2 !! k = Some y /\ at_place k x y.
Proof. intros HR E. specialize (HR k). rewrite E in HR. inversion HR; subst. eauto. Qed.
Lemma at_places_insert ts1 ts2 k x y : at_places ts1 ts2 -> at_place k x y -> at_places (<[k := x]> ts1) (<[k := y]> ts2).
Proof.
  intros HR Hp j. destruct (decide (j = k)) as [->|Hj]; [rewrite !lookup_insert_eq; by constructor|].
  rewrite !lookup_insert_ne by done. apply HR.
Qed.
(** A step that the places do not see. *)
Lemma at_places_still ts1 ts2 k x y : at_places ts1 ts2 -> ts2 !! k = Some y -> at_place k x y -> at_places (<[k := x]> ts1) ts2.
Proof. intros HR E Hp. rewrite <- (insert_id ts2 k y E). by apply at_places_insert. Qed.
Lemma at_places_delete ts1 ts2 k : at_places ts1 ts2 -> at_places (delete k ts1) (delete k ts2).
Proof.
  intros HR j. destruct (decide (j = k)) as [->|Hj]; [rewrite !lookup_delete_eq; by constructor|].
  rewrite !lookup_delete_ne by done. apply HR.
Qed.
Lemma at_places_empty ts2 : at_places ∅ ts2 -> ts2 = ∅.
Proof. intros HR. apply map_empty. intros k. specialize (HR k). rewrite lookup_empty in HR. by inversion HR. Qed.

(** Where a tail starts. *)
Lemma file_range f p : f ∈ files -> stands f p -> 0 <= p /\ (Z.to_nat p <= slen (lf_data f))%nat.
Proof.
  intros Hf [->|(r & Hr & <-)]; [lia|]. apply list_elem_of_split in Hr as (a & b & E).
  destruct (file_resume files Hsize f 0 a r b Hf (or_introl eq_refl) E) as [? _]. lia.
Qed.
Lemma at_place_start f p : f ∈ files -> stands f p -> at_place (file_key f) (started f p) (p, None).
Proof.
  intros Hf Hp. destruct (file_range f p Hf Hp) as [H0 Hle]. rewrite Forall_forall in Hsize.
  destruct (open_tail_at (lf_path f) (lf_pod f) (lf_src f) (lf_data f) p H0 Hle (Hsize f Hf)) as [Hat Ep].
  split; try done. cbn. split; [done|]. unfold file_records, records_from, rest_of. by rewrite Ep.
Qed.

(** What is still to be read lies ahead. *)
Lemma rest_ahead f ft r : at_offset (lf_data f) ft -> r ∈ rest_of f ft -> ft_offset ft < rec_Offset r.
Proof.
  intros Hat Hr. apply list_elem_of_split in Hr as (rs1 & rs2 & E).
  destruct (read_lines_record _ _ _ _ _ Hat E) as (ft1 & (Eo1 & _) & Eo & _ & _ & _ & Hlt & _).
  destruct Hat as (Eo2 & _). lia.
Qed.
(** What reading a line leaves to be read. *)
Lemma rest_line f ft a b ft' q : at_offset (lf_data f) ft -> cut NL (sdrop (ft_pos ft) (lf_data f)) = Some (a, b) ->
  read_line a ft = (ft', q) ->
  at_offset (lf_data f) ft' /\ ft_src ft' = ft_src ft /\ ft_pod ft' = ft_pod ft /\
  rest_of f ft = match q with Some r => r :: rest_of f ft' | None => rest_of f ft' end.
Proof.
  intros Hat Ec Er. pose proof (cut_Some _ _ _ _ Ec) as [E _].
  destruct (read_line_at _ _ _ _ _ _ Hat E Er) as (Hat' & Hp & Eb). destruct (read_line_src _ _ _ _ Er) as [Epod Esrc].
  split_and!; try done. unfold rest_of. rewrite (complete_cut (sdrop (ft_pos ft) _)), Ec. cbn [read_lines]. rewrite Er, Eb.
  destruct (read_lines (complete b) ft') as [ft2 rs]. by destruct q.
Qed.

(** What a tail that stands at a record, or at the start, offers next. *)
Lemma next_written f p r0 rs enr : f ∈ files -> stands f p -> seen enr -> file_records f p = r0 :: rs ->
  let r := enriched enr (pi_UID (lf_pod f)) r0 in
  key_of r = file_key f /\ next_record file_written p r /\
  stands f (rec_Offset r) /\ file_records f (rec_Offset r) = rs.
Proof.
  intros Hf Hp He E r. destruct (file_next files Hkeys Hsize f p r0 rs Hf Hp E) as (Hr0 & Hlt & Hn & Hs & Er).
  destruct (enriched_place enr (pi_UID (lf_pod f)) r0) as [Ek Eo]. fold r in Ek, Eo. rewrite Eo.
  pose proof (file_records_key f 0 r0 Hr0) as Ek0. split; [by rewrite Ek|]. split; [|done]. split; [|split; [by rewrite Eo|]].
  - by exists f, r0, enr.
  - intros o Hl%file_written_logged Ho. rewrite Eo. apply Hn; [by rewrite <- Ek|done].
Qed.

Lemma thread_place k f pc ft y i enr pc' ft' : at_place k (mkByteTail f pc ft) y ->
  seen enr -> answers f i -> tail_thread tcfg enr i pc ft = Some (pc', ft') ->
  at_place k (mkByteTail f pc' ft') y \/
  exists r last, pc' = EnqueuePc r last /\ y = (fst y, None) /\ key_of r = k /\ next_record file_written (fst y) r /\
    at_place k (mkByteTail f pc' ft') (fst y, Some r).
Proof.
  intros [Hf Ek Hst Hat Esrc Epod Hrest] Hse Ha E. cbn [bt_file bt_pc bt_ft] in *.
  assert (Hstill : forall pc1, (match pc with EnqueuePc _ _ => False | _ => True end) ->
    (match pc1 with EnqueuePc _ _ => False | _ => True end) -> at_place k (mkByteTail f pc1 ft) y).
  { intros pc1 H1 H2. split; try done. cbn. destruct pc; try done; by destruct pc1. }
  destruct pc, i as [ok sk| | |b|data| | |st]; cbn -[pump_read] in E; try discriminate E.
  - left. cbn in Ha. subst sk. rewrite andb_false_r in E. by destruct ok; injection E as <- <-; apply Hstill.
  - left. injection E as <- <-. apply Hstill; [done|]. destruct enr as [e|]; [by destruct (Ready _ e)|done].
  - left. injection E as <- <-. apply Hstill; [done|]. by destruct (_ || _).
  - left. injection E as <- <-. by apply Hstill.
  - left. injection E as <- <-. apply Hstill; [done|]. by destruct (match enr with Some e => _ | None => _ end).
  - left. injection E as <- <-. apply Hstill; [done|]. by destruct b.
  - destruct Ha as [n ->]. injection E as E. cbn in Hrest. destruct Hrest as [Ey Hrest].
    destruct (pump_read_takes _ _ _ _ _ _ _ Hat E) as [(a & b & q & Ec & Er & ->)|(-> & Hpc)].
    + destruct (rest_line f ft a b ft' q Hat Ec Er) as (Hat' & Es & Ep & Hr). rewrite Hr in Hrest. rewrite Ep, Epod.
      destruct q as [r0|]; [right|left; split; cbn; congruence || done].
      destruct (next_written f _ r0 _ enr Hf Hst Hse Hrest) as (Hk & Hn & _).
      eexists _, _. split; [reflexivity|]. split; [by rewrite <- Ey, <- surjective_pairing|]. split; [by rewrite Hk|].
      split; [exact Hn|]. split; cbn; try congruence || done. by exists r0, enr.
    + left. apply Hstill; [done|]. by destruct Hpc as [->| ->]; [apply after_pump_idle|].
  - left. injection E as <- <-. by apply Hstill.
  - by destruct Ha.
  - left. injection E as <- <-. apply Hstill; [done|]. by destruct (rotatedOrGone ft st).
  - left. injection E as <- <-. by apply Hstill.
  - left. injection E as <- <-. by apply Hstill.
Qed.

(** A step on the bytes is a step of the places, or none. *)
Lemma byte_places c cp ts1 lost c' cp' ts1' lost' ts2 : byte_step (c, cp, ts1, lost) (c', cp', ts1', lost') ->
  (forall k, at_record file_written k (Get k cp)) -> at_places ts1 ts2 ->
  exists ts2', at_places ts1' ts2' /\ rtc (tail_step file_written) (c, cp, ts2, lost) (c', cp', ts2', lost').
Proof.
  intros Hs Hg HR.
  assert (Hsent : forall k f r last ft c'' cp'' lost'', ts1 !! k = Some (mkByteTail f (EnqueuePc r last) ft) ->
    (forall p, ts2 !! key_of r = Some (p, Some r) ->
       tail_step file_written (c, cp, ts2, lost) (c'', cp'', <[key_of r := (rec_Offset r, None)]> ts2, lost'')) ->
    exists ts2', at_places (<[k := mkByteTail f (CtxPc last) ft]> ts1) ts2' /\
      rtc (tail_step file_written) (c, cp, ts2, lost) (c'', cp'', ts2', lost'')).
  { intros k f r last ft c'' cp'' lost'' Ek Hst. destruct (at_places_lookup _ _ _ _ HR Ek) as ([p o] & Ey & Hp).
    pose proof Hp as [Hf -> Hp1 Hat Esrc Epod (r0 & enr & Eo & He & Er & Hrest)]. cbn in *. subst o.
    destruct (next_written f p r0 _ enr Hf Hp1 He Hrest) as (Hk & _ & Hp2 & Hr2). rewrite <- Er in Hk, Hp2, Hr2.
    rewrite <- Hk in *. exists (<[key_of r := (rec_Offset r, None)]> ts2). split; [|by apply rtc_once, Hst with p].
    apply at_places_insert; [done|]. by split. }
  inversion Hs as [f ? ? ? ? Hf En|k f pc ft i enr pc' ft' ? ? ? ? Ek He Ha Et|k f r last ft ? ? calls ? ? ? Ek Ee|
    k f r last ft ? ? ? ? Ek Ee|k f r last ft ? ? ? ? Ek Ee|k f ft ? ? ? ? Ek]; subst.
  - assert (Hp : stands f (Get (file_key f) cp')).
    { destruct (Hg (file_key f)) as [->|(f' & r & Hf' & Hr & [= Ek Eo])%file_written_logged]; [by left|]. right.
      exists r. split; [|done]. rewrite <- (file_inj files Hkeys f f' Hf Hf'); [done|].
      by rewrite <- (file_records_key _ _ _ Hr). }
    exists (<[file_key f := (Get (file_key f) cp', None)]> ts2). split; [by apply at_places_insert, at_place_start|].
    apply rtc_once, tail_start. specialize (HR (file_key f)). rewrite En in HR. by inversion HR.
  - destruct (at_places_lookup _ _ _ _ HR Ek) as (y & Ey & Hp).
    destruct (thread_place _ _ _ _ _ _ _ _ _ Hp He Ha Et) as [Hp'|(r & last & -> & Eo & Hk & Hn & Hp')].
    + exists ts2. split; [by eapply at_places_still|apply rtc_refl].
    + exists (<[k := (fst y, Some r)]> ts2). split; [by apply at_places_insert|]. rewrite <- Hk in *.
      apply rtc_once. apply tail_read; [by rewrite Ey, Eo|done].
  - eapply Hsent; [exact Ek|]. intros p Ep. by eapply tail_enqueued.
  - eapply Hsent; [exact Ek|]. intros p Ep. by eapply tail_no_json.
  - eapply Hsent; [exact Ek|]. intros p Ep. by eapply tail_canceled.
  - destruct (at_places_lookup _ _ _ _ HR Ek) as ([p o] & Ey & Hp). destruct Hp as [_ _ _ _ _ _ [Eo _]]. cbn in Eo. subst o.
    exists (delete k ts2). split; [by apply at_places_delete|]. by eapply rtc_once, tail_exit.
Qed.
End Bytes.

(** ** Discovery *)

Section Discovery.
Context {C : Type} `{!Bolt C} (files : list log_file) (seen : option Enricher -> Prop) (tcfg : TailerConfig).
(** What [stat] finds at a path are generations of the system's log files. *)
Definition finds (node : string) (stat : string -> option FileInfo) : Prop := forall path pod fi,
  parsePath path = Some pod -> stat path = Some fi -> exists f, f ∈ files /\
    lf_path f = path /\ lf_pod f = pod /\ lf_src f = sourceFromStat node path fi.

(** One scan of [discover] starts tails, and does nothing else. *)
Lemma discover_starts stat enr matches t c (cp : C) ts lost :
  finds (tc_Node (ta_cfg t)) stat -> ta_active t = bt_ft <$> ts ->
  exists ts', ta_active (discover stat cp enr matches t) = bt_ft <$> ts' /\
    rtc (byte_step files seen tcfg) (c, cp, ts, lost) (c, cp, ts', lost).
Proof.
  intros Hf. revert t ts Hf; induction matches as [|path matches IH]; intros t ts Hf E; [exists ts; eauto using rtc_refl|].
  cbn. destruct (discover_path_frame stat cp enr t path) as [Ec _].
  assert (S1 : exists ts1, ta_active (discover_path stat cp enr t path) = bt_ft <$> ts1 /\
    rtc (byte_step files seen tcfg) (c, cp, ts, lost) (c, cp, ts1, lost)).
  { unfold discover_path. destruct (parsePath path) as [pod|] eqn:Ep; [|by exists ts; eauto using rtc_refl].
    destruct (negb _); [by exists ts; eauto using rtc_refl|].
    destruct (stat path) as [fi|] eqn:Es; [|by exists ts; eauto using rtc_refl]. cbv zeta.
    destruct (Hf path pod fi Ep Es) as (f & Hin & <- & <- & <-).
    destruct (ta_active t !! Key (lf_src f)) eqn:Ea; [by exists ts; eauto using rtc_refl|].
    exists (<[file_key f := started f (Get (file_key f) cp)]> ts). split; [cbn; by rewrite fmap_insert, E|].
    apply rtc_once, byte_start; [done|]. rewrite E, lookup_fmap in Ea. by apply fmap_None in Ea. }
  destruct S1 as (ts1 & E1 & Hs1). destruct (IH (discover_path stat cp enr t path) ts1) as (ts2 & E2 & Hs2); [by rewrite Ec|done|].
  exists ts2. split; [exact E2|by etrans].
Qed.
End Discovery.

(** ** From the bytes to the object store *)

Section System.
Context {C : Type} `{!Bolt C} (files : list log_file) (seen : option Enricher -> Prop) (tcfg : TailerConfig).
Context (ccfg : ClientConfig) `{SortSlice, Regexp, Zstd} {B D : Type} `{BlobsLaws B, !Bolt D}.
Context (mid base : string) (cap : Z) (cfg : SpoolConfig) (Hmid : sane_text mid).
Abbreviation Mgr := (Manager (B:=B) (D:=D)).
#[local] Instance bytes : Tails C byte_tail := byte_tails_of files seen tcfg.

(** The generations are distinct, their sizes are those of files, the node's name and the
    paths are valid UTF-8, and the bodies of the records still parse two objects deep. *)
Context (Hkeys : NoDup (file_key <$> files)) (Hseen : exists enr, seen enr).
Context (Hsize : Forall (fun f => Z.of_nat (slen (lf_data f)) < 2 ^ 63) files).
Context (Hsane : Forall (fun f => sane_text (src_Node (lf_src f)) /\ sane_text (src_Path (lf_src f))) files).
Context (Hwf : Forall (fun f => Forall record_wf (file_records f 0)) files).

Abbreviation written := (file_written files seen).
(** The log files are on nodes; the agent's checkpoint is empty at first, and so is the
    object store. *)
Definition logs_reachable (x : net C byte_tail * Mgr) : Prop := whole_reachable ccfg mid base cap cfg x.

Lemma enriched_wf enr uid r : record_wf r -> record_wf (enriched enr uid r).
Proof. destruct enr as [e|]; [|done]. cbn. unfold Enrich. by destruct (en_byUID e !! uid). Qed.
Lemma enriched_source enr uid r : rec_Source (enriched enr uid r) = rec_Source r.
Proof. destruct enr as [e|]; [|done]. cbn. unfold Enrich. by destruct (en_byUID e !! uid). Qed.
Lemma written_wf r : written r -> record_wf r.
Proof.
  intros (f & r0 & enr & Hf & Hr & _ & ->). apply enriched_wf. rewrite Forall_forall in Hwf.
  specialize (Hwf f Hf). rewrite Forall_forall in Hwf. by apply Hwf.
Qed.
Lemma written_sane r : written r -> sane_text (src_Node (rec_Source r)) /\ sane_text (src_Path (rec_Source r)).
Proof.
  intros (f & r0 & enr & Hf & Hr & _ & ->). rewrite enriched_source, (file_records_source _ _ _ Hr).
  rewrite Forall_forall in Hsane. by apply Hsane.
Qed.
Lemma written_deliverable r : written r -> deliverable r.
Proof. intros Hr. destruct (written_sane r Hr) as [Hn Hp]. apply go_deliverable; [by apply written_wf|done..]. Qed.
Lemma written_pos r : written r -> 0 < rec_Offset r < 2 ^ 63.
Proof.
  intros (f & r0 & enr & Hf & Hr & _ & ->). destruct (enriched_place enr (pi_UID (lf_pod f)) r0) as [_ ->].
  apply (file_logged_pos files Hsize (Key (lf_src f))). exists f, r0. split; [done|]. split; [done|].
  exact (f_equal (fun s => (Key s, rec_Offset r0)) (file_records_source _ _ _ Hr)).
Qed.

(** Every run on the bytes shows as a run of the places. *)
Lemma logs_places n m : logs_reachable (n, m) -> exists ts,
  at_places files seen (n_tails n) ts /\
  whole_reachable (TL:=place_tails written) ccfg mid base cap cfg (with_tails ts n, m).
Proof.
  intros Hr.
  refine (whole_refines (TL1:=bytes) (TL2:=place_tails written) ccfg mid base cap cfg (at_places files seen)
    (fun cp => forall k, at_record written k (Get k cp)) _ _ _ _ _ Hr).
  - intros k. rewrite !lookup_empty. constructor.
  - apply at_places_empty.
  - intros c cp ts1 lost c' cp' ts1' lost' ts2 Hs Hg HR.
    exact (byte_places files seen tcfg Hkeys Hseen Hsize _ _ _ _ _ _ _ _ _ Hs Hg HR).
  - intros n1 m1 Hr1. by apply (whole_honest written ccfg written_deliverable mid base cap cfg Hmid written_pos n1 m1).
Qed.

Lemma logs_manager n m : logs_reachable (n, m) -> exists sealed ac, sim mid cap cfg m sealed ac.
Proof.
  intros (ts & _ & Hr)%logs_places.
  exact (whole_manager written ccfg written_deliverable mid base cap cfg Hmid _ _ Hr).
Qed.

(** What the object store has of a record of a file. *)
Definition kept (m : Mgr) (f : log_file) (r : LogRecord) : Prop := exists enr,
  seen enr /\ stored_in mid (m_Store m) (carry_record (enriched enr (pi_UID (lf_pod f)) r)).

Lemma place_kept n m f r : logs_reachable (n, m) -> f ∈ files -> r ∈ file_records f 0 ->
  (exists r', place_of r' = place_of r /\ stored_in mid (m_Store m) r') -> kept m f r.
Proof.
  intros (ts & _ & Hr)%logs_places Hf Hin (r' & Ep & Hs).
  destruct (whole_written written ccfg written_deliverable mid base cap cfg Hmid written_pos _ _ r' written_wf Hr (or_introl Hs))
    as (r1 & Hw & ->). destruct (written_sane r1 Hw) as [Hn Hp]. rewrite (carry_place r1 Hn Hp) in Ep.
  destruct Hw as (f' & r0 & enr & Hf' & Hr0 & He & ->). rewrite enriched_place_of in Ep.
  assert (f' = f) as ->.
  { apply (file_inj files Hkeys f f' Hf Hf'). rewrite <- (file_records_key _ _ _ Hr0), <- (file_records_key _ _ _ Hin).
    exact (f_equal fst Ep). }
  rewrite (file_unique files Hkeys Hsize f r0 r Hf Hr0 Hin (f_equal snd Ep)) in Hs. by exists enr.
Qed.

Lemma checkpointed_kept n m f r :
  logs_reachable (n, m) -> f ∈ files -> r ∈ file_records f 0 -> rec_Offset r <= Get (file_key f) (n_cp n) ->
  kept m f r \/ place_of r ∈ n_lost n.
Proof.
  intros Hr Hf Hin Hle. destruct (logs_places n m Hr) as (ts & _ & Hp).
  assert (El : logged written (file_key f, rec_Offset r)).
  { apply file_written_logged; [done|]. exists f, r. split; [done|]. split; [done|]. by apply file_place. }
  destruct (whole_checkpointed written ccfg written_deliverable mid base cap cfg Hmid written_pos _ _ _ _ Hp El Hle)
    as [(r' & Ep & Hs)|Hl].
  - left. eapply place_kept; [done..|]. exists r'. split; [|done]. by rewrite Ep, (file_place _ _ Hin).
  - right. by rewrite (file_place _ _ Hin).
Qed.

(** C1: what the checkpoint has passed is in the object store, word for word.  Tails read
    files that grow, line by line, joining partial lines, waiting for metadata, following
    rotations; the client's thread, readers of acks, the server's streams and ack loops take
    their steps in any order; connections break and lose what is in transit; the agent is
    told to end, dies and starts again; the manager runs its own handlers, its seals fail at
    any point, its process dies in them or between them, its node loses its disk, and it
    starts again.  At every moment, each record of a log file that ends at or below its
    file's checkpoint, which no tail will ever read again, is in a file of the object store
    that opens and reads back, beside its sidecar, with the fields the file's bytes and the
    enricher give it; or it was given up, at the hard cap of the agent's window or for
    having no JSON form. *)
Theorem checkpointed_is_stored n m f r :
  logs_reachable (n, m) -> f ∈ files -> r ∈ file_records f 0 -> rec_Offset r <= Get (file_key f) (n_cp n) ->
  kept m f r \/ place_of r ∈ n_lost n.
Proof. apply checkpointed_kept. Qed.

(** A tail as a place, with the record it is in [Enqueue] with. *)
Lemma tail_place n m k x : logs_reachable (n, m) -> n_tails n !! k = Some x -> exists ts p o,
  at_place files seen k x (p, o) /\ ts !! k = Some (p, o) /\
  whole_reachable (TL:=place_tails written) ccfg mid base cap cfg (with_tails ts n, m).
Proof.
  intros (ts & HR & Hr)%logs_places Ek. destruct (at_places_lookup files seen _ _ _ _ HR Ek) as ([p o] & Ey & Hp).
  by exists ts, p, o.
Qed.

(** C18: an agent that runs on forgets nothing it has read.  Each record of a file that
    ends at or below the offset its tail has reached is stored word for word, in the window
    to be sent, or given up, or it is the one its tail is in [Enqueue] with. *)
Theorem read_is_stored_or_held n m k f pc ft r :
  logs_reachable (n, m) -> cl_closed (n_client n) = false -> n_tails n !! k = Some (mkByteTail f pc ft) ->
  r ∈ file_records f 0 -> rec_Offset r <= ft_offset ft ->
  kept m f r \/ place_of r ∈ ev_place <$> cl_unacked (n_client n) \/ place_of r ∈ n_lost n \/
  exists enr last, pc = EnqueuePc (enriched enr (pi_UID (lf_pod f)) r) last.
Proof.
  intros Hr Hc Ek Hin Hle. destruct (tail_place n m k _ Hr Ek) as (ts & p & o & Hp & Ey & Hw).
  destruct Hp as [Hf -> Hst Hat _ _ Hrest]. cbn [bt_file bt_pc bt_ft fst snd] in *.
  assert (Hahead : r ∉ rest_of f ft) by (intros Hr'; pose proof (rest_ahead f ft r Hat Hr'); lia).
  assert (Hcase : rec_Offset r <= p \/ exists enr last, pc = EnqueuePc (enriched enr (pi_UID (lf_pod f)) r) last).
  { destruct (file_split files Hsize f p Hf Hst r Hin) as [?|Hr']; [by left|].
    destruct pc as [| | | | | |r1 last| | |]; try (destruct Hrest as [_ Hrest]; by rewrite Hrest in Hr').
    destruct Hrest as (r0 & enr & _ & _ & -> & Hrest). rewrite Hrest in Hr'.
    apply elem_of_cons in Hr' as [->|Hr']; [right; eauto|done]. }
  destruct Hcase as [Hle'|?]; [|auto].
  assert (El : logged written (file_key f, rec_Offset r)).
  { apply file_written_logged; [done|]. exists f, r. split; [done|]. split; [done|]. by apply file_place. }
  destruct (whole_tailed written ccfg written_deliverable mid base cap cfg Hmid written_pos _ _ _ _ _ _ Hw Hc Ey El Hle')
    as [(r' & Ep & Hs)|Hl]; rewrite (file_place _ _ Hin); [left|cbn in Hl; tauto].
  eapply place_kept; [done..|]. exists r'. split; [|done]. by rewrite Ep, (file_place _ _ Hin).
Qed.

(** C3: nothing is invented or garbled.  Every record in a readable file of the object
    store, and every record of the spool's buffer, is a record that the bytes of a log file
    spell, with what the enricher added, as one passage through JSON leaves it: texts made
    valid UTF-8 and bodies compacted. *)
Theorem stored_is_written n m r :
  logs_reachable (n, m) -> stored_in mid (m_Store m) r \/ r ∈ sp_buf (m_Spool m) ->
  exists f r0 enr, f ∈ files /\ r0 ∈ file_records f 0 /\ seen enr /\
    r = carry_record (enriched enr (pi_UID (lf_pod f)) r0).
Proof.
  intros (ts & _ & Hw)%logs_places Hs.
  destruct (whole_written written ccfg written_deliverable mid base cap cfg Hmid written_pos _ _ r written_wf Hw Hs)
    as (r1 & (f & r0 & enr & Hf & Hr0 & He & ->) & ->). by exists f, r0, enr.
Qed.

(** C6: when the sender rests, the manager has everything or it is on its way.  If the
    client's thread waits without a signal on a connection that is not broken, each record
    of the window is in the object store or in the spool's buffer, or is in transit on
    that connection, the given up ones excepted. *)
Theorem at_rest_all_sent n m lk lks e :
  logs_reachable (n, m) -> n_run n = SelectPc -> cl_notify (n_client n) = false ->
  n_links n = lk :: lks -> lk_broken lk = false -> e ∈ cl_unacked (n_client n) ->
  (exists r, place_of r = ev_place e /\ (stored_in mid (m_Store m) r \/ r ∈ sp_buf (m_Spool m))) \/
  ev_place e ∈ n_lost n \/ ev_place e ∈ raw_place <$> pipe_of lk.
Proof.
  intros (ts & _ & Hw)%logs_places.
  exact (whole_at_rest written ccfg written_deliverable mid base cap cfg Hmid written_pos (with_tails ts n) m lk lks e Hw).
Qed.
End System.

(** The first line of a file tailed, sent, received, sealed and acknowledged. *)
Module Witness.
Local Existing Instance toy_zstd.
Local Existing Instance toy_bolt.
Local Existing Instance literal_regexp.
Local Existing Instance Spool.Witness.stable_sort.
Local Existing Instance MemBlobs_laws.
Import Durable.Witness.
Abbreviation r1 := Tailer.Witness.r1.
Abbreviation Mgr0 := (Manager (B:=gmap string string) (D:=Bucket)).

Definition f0 : log_file := mkLogFile Tailer.Witness.pod0 Tailer.Witness.src0 "/p" Tailer.Witness.data0.
Definition files0 : list log_file := [f0].
Definition seen0 (enr : option Enricher) : Prop := enr = None.
Definition tcfg0 : TailerConfig := tailer_defaults (mkTailerConfig "/r" "n" "" 0 [] 0).
Definition ccfg0 : ClientConfig := mkClientConfig 0 0 0 0 0.
#[local] Instance tails0 : Tails Bucket byte_tail := byte_tails_of files0 seen0 tcfg0.
Abbreviation net0 := (net Bucket byte_tail).
Abbreviation step0 := (whole_step (B:=gmap string string) (D:=Bucket) ccfg0 "m" "base" 1000 cfg0).
Abbreviation reachable0 := (logs_reachable (C:=Bucket) (D:=Bucket) files0 seen0 tcfg0 ccfg0 "m" "base" 1000 cfg0).

Lemma keys0 : NoDup (file_key <$> files0).
Proof. apply NoDup_singleton. Qed.
Lemma seen_ok : exists enr, seen0 enr.
Proof. by exists None. Qed.
Lemma sizes0 : Forall (fun f => Z.of_nat (slen (lf_data f)) < 2 ^ 63) files0.
Proof. constructor; [vm_compute; reflexivity|constructor]. Qed.
Lemma sane0 : Forall (fun f => sane_text (src_Node (lf_src f)) /\ sane_text (src_Path (lf_src f))) files0.
Proof. by constructor. Qed.
Lemma records0 : file_records f0 0 = [r1; Tailer.Witness.r2].
Proof. vm_compute. reflexivity. Qed.
Lemma record0 : r1 ∈ file_records f0 0.
Proof. rewrite records0. by left. Qed.
Lemma wf0 : Forall (fun f => Forall record_wf (file_records f 0)) files0.
Proof.
  constructor; [|constructor]. rewrite records0.
  repeat constructor; apply (bool_decide_unpack _); vm_compute; exact I.
Qed.
Lemma r1_ok : go_record_ok r1.
Proof. apply (bool_decide_unpack _). vm_compute. exact I. Qed.

(** The tail reads the line and gets it into the window. *)
Definition k0 : string := file_key f0.
Definition cp0 : Bucket := bucket [].
Definition c1 : Client :=
  match Enqueue r1 (NewClient ccfg0) with Enqueued c _ => c | _ => NewClient ccfg0 end.
Definition ft1 : fileTail := open_tail "/p" Tailer.Witness.pod0 Tailer.Witness.src0 0.
Definition ft2 : fileTail := snd (pump_read None Tailer.Witness.data0 false ft1).
Definition tail1 (pc : tail_pc) : gmap string byte_tail := {[k0 := mkByteTail f0 pc ft1]}.
Definition ts1 : gmap string byte_tail := {[k0 := mkByteTail f0 (CtxPc false) ft2]}.
Definition at_ (c : Client) (pc : run_pc) (lks : list link) : net0 := mkNet c cp0 ts1 [] pc false lks.

Lemma tails_r1 (m : Mgr0) : rtc step0 (net_start ccfg0 cp0, m) (at_ c1 RunTop [], m).
Proof.
  assert (S1 : forall c ts c' ts', byte_step files0 seen0 tcfg0 (c, cp0, ts, []) (c', cp0, ts', []) ->
    step0 (mkNet c cp0 ts [] RunTop false [], m) (mkNet c' cp0 ts' [] RunTop false [], m)).
  { intros. apply (whole_net ccfg0 "m" "base" 1000 cfg0 _ []); [by simple apply net_tail|constructor]. }
  assert (S2 : forall i pc ft pc' ft', answers f0 i -> tail_thread tcfg0 None i pc ft = Some (pc', ft') ->
    step0 (mkNet (NewClient ccfg0) cp0 {[k0 := mkByteTail f0 pc ft]} [] RunTop false [], m)
      (mkNet (NewClient ccfg0) cp0 {[k0 := mkByteTail f0 pc' ft']} [] RunTop false [], m)).
  { intros i pc ft pc' ft' Ha E. apply S1. rewrite <- (insert_singleton_eq k0 (mkByteTail f0 pc' ft') (mkByteTail f0 pc ft)).
    by apply (byte_run files0 seen0 tcfg0 k0 f0 pc ft i None); [apply lookup_singleton_eq|..]. }
  eapply rtc_l.
  { apply (S1 _ ∅ (NewClient ccfg0) (tail1 StartPc)). exact (byte_start files0 seen0 tcfg0 f0 _ cp0 ∅ [] ltac:(by left) eq_refl). }
  eapply rtc_l; [apply (S2 (Opened true true) StartPc ft1 AwaitPc ft1); done|].
  eapply rtc_l; [apply (S2 (Clock 0) AwaitPc ft1 FilterPc ft1); done|].
  eapply rtc_l; [apply (S2 (Clock 0) FilterPc ft1 (CtxPc false) ft1); done|].
  eapply rtc_l; [apply (S2 (CtxSays false) (CtxPc false) ft1 (ReadPc false) ft1); done|].
  eapply rtc_l.
  { apply (S2 (Holds Tailer.Witness.data0) (ReadPc false) ft1 (EnqueuePc r1 false) ft2); [|vm_compute; reflexivity].
    exists (slen Tailer.Witness.data0). vm_compute. reflexivity. }
  apply rtc_once. apply S1. unfold ts1. rewrite <- (insert_singleton_eq k0 (mkByteTail f0 (CtxPc false) ft2) (mkByteTail f0 (EnqueuePc r1 false) ft2)).
  apply (byte_enqueued files0 seen0 tcfg0 k0 f0 r1 false ft2 _ c1 []); [apply lookup_singleton_eq|vm_compute; reflexivity].
Qed.

(** The client's thread sends the record and comes to rest. *)
Definition raw2 : string := default "" (MarshalRecord r1).
Definition c2 : Client := fst (flush_batch (reconnect c1)).
Definition c3 : Client := take_notify c2.
Definition up : link := push_up [raw2] new_link.
Lemma connects (m : Mgr0) : rtc step0 (at_ c1 RunTop [], m) (at_ c3 SelectPc [up], m).
Proof.
  assert (S1 : forall i c c' pc pc' lks lks', run_thread i pc c = Some (pc', c') -> run_enabled pc i false lks ->
    run_links pc i lks = lks' -> step0 (at_ c pc lks, m) (at_ c' pc' lks', m)).
  { intros i c c' pc pc' lks lks' Er He <-.
    apply (whole_net ccfg0 "m" "base" 1000 cfg0 _ []); [by apply net_run_step|constructor]. }
  eapply rtc_l; [apply (S1 (CtxErr false) c1 c1 RunTop DialPc [] []); reflexivity|].
  eapply rtc_l; [apply (S1 (CallDone true) c1 c1 DialPc OpenPc [] []); done|].
  eapply rtc_l; [apply (S1 (CallDone true) c1 c1 OpenPc ResetPc [] [new_link]); done|].
  eapply rtc_l; [apply (S1 Locked c1 (reconnect c1) ResetPc CollectPc [new_link] [new_link]); done|].
  eapply rtc_l; [apply (S1 Locked (reconnect c1) c2 CollectPc (SendPc [raw2]) [new_link] [new_link]);
    [vm_compute; reflexivity|done..]|].
  eapply rtc_l; [apply (S1 (CallDone true) c2 c2 (SendPc [raw2]) CollectPc [new_link] [up]); done|].
  eapply rtc_l; [apply (S1 Locked c2 c2 CollectPc SelectPc [up] [up]); [vm_compute; reflexivity|done..]|].
  eapply rtc_l; [apply (S1 Notified c2 c3 SelectPc CollectPc [up] [up]); [vm_compute; reflexivity|done..]|].
  apply rtc_once, (S1 Locked c3 c3 CollectPc SelectPc [up] [up]); [vm_compute; reflexivity|done..].
Qed.

(** The server reads it; the manager seals it; the ack goes back. *)
Definition m1 : Mgr0 := on_event m0 (Arrive 1 r1).
Lemma r1_wire : wire_ok r1.
Proof.
  split; [reflexivity|]. split; [|apply (bool_decide_unpack _); vm_compute; exact I].
  exists r1, (default "" (GoMarshalRecord r1)).
  split; [apply (bool_decide_unpack _); vm_compute; exact I|]. split; vm_compute; reflexivity.
Qed.
Lemma fits_r1 : seal_fits "m" env0 m1.
Proof.
  split.
  - replace (contents (s_blobs (m_Store m1))) with (∅ : gmap string string) by (vm_compute; reflexivity).
    intros k [v Hk]. by rewrite lookup_empty in Hk.
  - vm_compute. reflexivity.
  - by exists "w".
  - split; [apply (bool_decide_unpack _); vm_compute; exact I|].
    split; [reflexivity|apply (bool_decide_unpack _); vm_compute; exact I].
  - constructor.
  - intros _. replace (sort_slice (sp_buf (m_Spool m1))) with [r1] by (vm_compute; reflexivity).
    split; [done|apply (bool_decide_unpack _); vm_compute; exact I|vm_compute; reflexivity..].
Qed.
Definition reading (pc : stream_pc) (seen : gset string) (down : list commits) : link :=
  mkLink [] down false false true false pc TickPc seen.
Definition sealed : Mgr0 := fst (seal_call env0 m1).
Definition ack (m : Mgr0) : commits := buildAck ({[k0]} ∪ ∅) (Committed (m_Spool m)).
Definition acked_by (k : commits) : net0 :=
  mkNet (fst (applyAck k c3)) (commit (snd (applyAck k c3)) cp0) ts1 [] SelectPc false
    [reading RecvPc ({[k0]} ∪ ∅) []].

Lemma streams now i lk pc' seen' eff (m m' : Mgr0) new lk' :
  stream_thread (Committed (m_Spool m)) i (lk_stream lk) (lk_seen lk) = Some (pc', seen', eff) -> stream_enabled i lk ->
  new = match eff with Accepts r => [(now, r)] | _ => [] end -> Forall (fun x => wire_ok (snd x)) new ->
  stream_moved i pc' seen' eff lk = lk' -> offer new m = m' ->
  step0 (at_ c3 SelectPc [lk], m) (at_ c3 SelectPc [lk'], m').
Proof.
  intros Es He En Hw <- <-. apply (whole_net ccfg0 "m" "base" 1000 cfg0 _ new); [|done]. subst new.
  apply (net_link ccfg0 _ _ _ [] lk []). by apply link_stream.
Qed.
Lemma receives : rtc step0 (at_ c3 SelectPc [up], m0) (at_ c3 SelectPc [reading (EachPc []) ({[k0]} ∪ ∅) []], m1).
Proof.
  eapply rtc_l; [apply (streams 1 (Received [raw2]) up (EachPc [raw2]) ∅ Nothing m0 m0 [] (reading (EachPc [raw2]) ∅ []));
    [done..|constructor|done|done]|].
  eapply rtc_l.
  { apply (streams 1 StreamLocked (reading (EachPc [raw2]) ∅ []) (MarkPc (key_of r1) []) ∅ (Accepts r1) m0 m1 [(1, r1)]
      (reading (MarkPc (key_of r1) []) ∅ [])); [|done|done| |done|done].
    - cbn [stream_thread lk_stream reading]. unfold raw2. by rewrite (Unmarshal_MarshalRecord r1) by first [apply r1_ok|vm_compute; reflexivity].
    - constructor; [apply r1_wire|constructor]. }
  apply rtc_once. by apply (streams 1 StreamLocked (reading (MarkPc (key_of r1) []) ∅ []) (EachPc []) ({[key_of r1]} ∪ ∅)
    Nothing m1 m1 []).
Qed.
Lemma answers (m : Mgr0) : ack m <> [] ->
  rtc step0 (at_ c3 SelectPc [reading (EachPc []) ({[k0]} ∪ ∅) []], m) (acked_by (ack m), m).
Proof.
  intros Hne. eapply rtc_l.
  { apply (streams 1 StreamLocked _ (AckPc (ack m)) ({[k0]} ∪ ∅) Nothing m m []
      (reading (AckPc (ack m)) ({[k0]} ∪ ∅) [])); [|done|done|constructor|done|done].
    cbn [stream_thread lk_stream lk_seen reading]. fold (ack m). by destruct (ack m). }
  eapply rtc_l.
  { apply (streams 1 (AckSent true) _ RecvPc ({[k0]} ∪ ∅) (Sends (ack m)) m m []
      (reading RecvPc ({[k0]} ∪ ∅) [ack m])); [done..|constructor|done|done]. }
  generalize (ack m). intros k. apply rtc_once.
  apply (whole_net ccfg0 "m" "base" 1000 cfg0 _ []); [|constructor].
  exact (net_acked ccfg0 (Committed (m_Spool m)) k [] [] (reading RecvPc ({[k0]} ∪ ∅) [k]) []
    c3 cp0 ts1 [] SelectPc false eq_refl eq_refl).
Qed.


Lemma begins_whole : whole_begins (C:=Bucket) (T:=byte_tail) ccfg0 "m" "base" 1000 cfg0 (net_start ccfg0 cp0, m0).
Proof. exists cp0. split; [done|]. split; [apply begins0|done]. Qed.
Lemma reach_rest : reachable0 (at_ c3 SelectPc [up], m0).
Proof. exists (net_start ccfg0 cp0, m0). split; [apply begins_whole|]. etrans; [apply tails_r1|apply connects]. Qed.
Lemma reach_received : reachable0 (at_ c3 SelectPc [reading (EachPc []) ({[k0]} ∪ ∅) []], m1).
Proof. destruct reach_rest as (x0 & Hb & Hr). exists x0. split; [done|]. etrans; [exact Hr|apply receives]. Qed.
Lemma reach_sealed : reachable0 (acked_by (ack sealed), sealed).
Proof.
  destruct reach_received as (x0 & Hb & Hr). exists x0. split; [done|].
  etrans; [exact Hr|]. eapply rtc_l; [|apply answers; vm_compute; discriminate].
  apply (whole_seal ccfg0 "m" "base" 1000 cfg0 env0); [apply rtc_refl|apply fits_r1].
Qed.

Abbreviation kept0 := (kept (B:=gmap string string) (D:=Bucket) seen0 "m").
Lemma checkpointed_is_stored_witness :
  Get k0 (n_cp (acked_by (ack sealed))) = 34 /\
  (kept0 sealed f0 r1 \/ place_of r1 ∈ n_lost (acked_by (ack sealed))).
Proof.
  split; [vm_compute; reflexivity|].
  apply (checkpointed_is_stored files0 seen0 tcfg0 ccfg0 "m" "base" 1000 cfg0 sane_m keys0 seen_ok sizes0 sane0 wf0
    _ _ f0 r1 reach_sealed ltac:(by left) record0).
  apply Z.leb_le. vm_compute. reflexivity.
Defined.
Lemma read_is_stored_or_held_witness :
  kept0 m0 f0 r1 \/ place_of r1 ∈ ev_place <$> cl_unacked c3 \/ place_of r1 ∈ ([] : list place) \/
  exists enr last, CtxPc false = EnqueuePc (enriched enr (pi_UID (lf_pod f0)) r1) last.
Proof.
  apply (read_is_stored_or_held files0 seen0 tcfg0 ccfg0 "m" "base" 1000 cfg0 sane_m keys0 seen_ok sizes0 sane0 wf0
    _ _ k0 f0 (CtxPc false) ft2 r1 reach_rest).
  - vm_compute. reflexivity.
  - apply lookup_singleton_eq.
  - apply record0.
  - apply Z.leb_le. vm_compute. reflexivity.
Defined.
Lemma buf_r1 : r1 ∈ sp_buf (m_Spool m1).
Proof. replace (sp_buf (m_Spool m1)) with [r1] by (vm_compute; reflexivity). by left. Qed.
Lemma stored_is_written_witness : exists f r0 enr, f ∈ files0 /\ r0 ∈ file_records f 0 /\ seen0 enr /\
  r1 = carry_record (enriched enr (pi_UID (lf_pod f)) r0).
Proof.
  apply (stored_is_written files0 seen0 tcfg0 ccfg0 "m" "base" 1000 cfg0 sane_m keys0 seen_ok sizes0 sane0 wf0 _ m1 r1 reach_received).
  right. apply buf_r1.
Defined.
Definition e0 : envelope := mkEnvelope k0 34 raw2 true.
Lemma at_rest_all_sent_witness :
  (exists r, place_of r = ev_place e0 /\ (stored_in "m" (m_Store m0) r \/ r ∈ sp_buf (m_Spool m0))) \/
  ev_place e0 ∈ ([] : list place) \/ ev_place e0 ∈ raw_place <$> pipe_of up.
Proof.
  apply (at_rest_all_sent files0 seen0 tcfg0 ccfg0 "m" "base" 1000 cfg0 sane_m keys0 seen_ok sizes0 sane0 wf0 _ _ up [] e0 reach_rest).
  - reflexivity.
  - reflexivity.
  - reflexivity.
  - reflexivity.
  - change (e0 ∈ cl_unacked c3). replace (cl_unacked c3) with [e0] by (vm_compute; reflexivity). by left.
Defined.
End Witness.
