(* ===== verification/Found.v ===== *)
(** Queries of a deployed manager: the executor over the manager's own store, its cache and
    the object store's errors included, while the manager goes on; and what becomes of a
    line of a log file that the agent's checkpoint has passed.  No code of its own. *)

From S2P Require Import Prelude GoStrings GoTime JsonText JsonStruct Model Value Ast Lexer Parser Grammar SegFormat SegWriter.
From S2P Require Import RecordJson SegLayout SegRefine SegReader SegToy Merge Prune Planner PlannerOk Cache Blobs Catalog MetaJson.
From S2P Require Import SegGo StoreToy Store StoreOk Recovery Coherent Spool SpoolSafe Client Checkpoint Enrich Tailer Discover.
From S2P Require Import TailRun Server Delivery Integrity Session Http Manager Durable EndToEnd Whole Logs.
Local Open Scope string_scope.
Local Open Scope list_scope.
Local Open Scope Z_scope.

Local Existing Instance go_json.
Local Existing Instance go_meta.

(** ** The executor's store *)

Section Found.
Context `{SortSlice, Regexp, UnicodeTables, Zstd} {B D : Type} `{BlobsLaws B, Bolt D}.
Context (mid base : string) (cap : Z) (cfg : SpoolConfig) (Hmid : sane_text mid).
Abbreviation Mgr := (Manager (B:=B) (D:=D)).
Abbreviation segs_of := (fmap (file_segment mid)) (only parsing).

(** What a query sees of a running manager: it lists the catalogue in [m]; for a segment it
    needs, it calls [ensureLocal] in some later state [m1] and opens the file in a still
    later one, [m2]; and it takes the snapshot of the spool in [m']. *)
Definition localised (sm : SegmentMeta) (m : Mgr) : Mgr :=
  with_parts (m_Spool m, fst (ensureLocal sm (m_Store m))) m.
Record serves (m m' : Mgr) (st : SegmentStore store_error) : Prop := {
  sv_run : rtc (run_step mid) m m';
  sv_list s e : Planner.Overlapping st s e = snd (Store.Overlapping s e (m_Store m));
  sv_open ms sm : cat_all (s_cat (m_Store m)) = Ok ms -> sm ∈ ms -> exists m1 m2,
    rtc (run_step mid) m m1 /\ rtc (run_step mid) (localised sm m1) m2 /\ rtc (run_step mid) m2 m' /\
    OpenReader st sm = match snd (ensureLocal sm (m_Store m1)) with
                       | Ok path => snd (open_file path (m_Store m2))
                       | Err e => Err e
                       end
}.
(** The same when nothing comes between [ensureLocal] and the open, and the object store
    answers. *)
Record serves_well (m m' : Mgr) (st : SegmentStore store_error) : Prop := {
  sw_run : rtc (run_step mid) m m';
  sw_list s e : Planner.Overlapping st s e = snd (Store.Overlapping s e (m_Store m));
  sw_open ms sm : cat_all (s_cat (m_Store m)) = Ok ms -> sm ∈ ms -> exists m1,
    rtc (run_step mid) m m1 /\ rtc (run_step mid) (localised sm m1) m' /\
    blobs_answer (s_blobs (m_Store m1)) /\ OpenReader st sm = snd (StoreReader sm (m_Store m1))
}.
Lemma well_serves m m' st : serves_well m m' st -> serves m m' st.
Proof.
  intros [Hr Hl Ho]. split; [done|done|]. intros ms sm Ha Hm. destruct (Ho ms sm Ha Hm) as (m1 & R1 & R2 & _ & E).
  exists m1, (localised sm m1). split; [done|]. split; [apply rtc_refl|]. split; [done|].
  rewrite E, StoreReader_split. unfold localised. cbn [snd m_Store with_parts fst]. done.
Qed.

(** No catalogued segment is larger than the cache. *)
Definition all_fit (m : Mgr) : Prop := maxBytes cap < 2 ^ 63 /\
  forall ms sm, cat_all (s_cat (m_Store m)) = Ok ms -> sm ∈ ms -> sm_SizeBytes sm <= maxBytes cap.

(** The file of a catalogued segment, by its id, and what it holds. *)
Definition file_of (files : list sealed_file) (sm : SegmentMeta) : option sealed_file :=
  List.find (fun f => String.eqb (sf_id f) (sm_ID sm)) files.
Definition content_of (files : list sealed_file) (sm : SegmentMeta) : list (list LogRecord) :=
  match file_of files sm with Some f => sf_groups f | None => [] end.

Lemma listed_found st files ms sm : holds mid st (segs_of files) -> Forall file_ok files ->
  cat_all (s_cat st) = Ok ms -> sm ∈ ms ->
  exists f, file_of files sm = Some f /\ f ∈ files /\ file_ok f /\
    set_LocalPath "" sm = sg_meta (file_segment mid f).
Proof.
  intros Hh Hf Ha Hm. destruct (listed_file mid st files ms sm Hh Ha Hm) as (f & Hin & Em & Ei & _).
  destruct (file_of files sm) as [f'|] eqn:E.
  - unfold file_of in E. apply find_some in E as [Hin'%list_elem_of_In Ef%String.eqb_eq].
    exists f'. split; [done|]. split; [done|]. rewrite Forall_forall in Hf. split; [by apply Hf|]. rewrite Em. f_equal.
    eapply (objects_same mid); [apply (ho_objects _ _ _ Hh)|by apply list_elem_of_fmap_2..|].
    rewrite <- Ei. symmetry. exact Ef.
  - exfalso. unfold file_of in E. pose proof (find_none _ _ E f) as Hne. cbn in Hne.
    rewrite Ei in Hne. apply String.eqb_neq in Hne; [by apply Hne|by apply list_elem_of_In].
Qed.

Lemma file_size f : file_ok f ->
  sm_SizeBytes (sg_meta (file_segment mid f)) = Z.of_nat (slen (sg_body (file_segment mid f))).
Proof.
  intros Hf%file_sealable. cbn [sg_meta file_segment new_segment set_key sm_SizeBytes meta_for sg_body].
  apply int64_id. pose proof (se_size _ _ Hf). unfold in_int64. width.
Qed.

Lemma listed_size sm f : file_ok f -> set_LocalPath "" sm = sg_meta (file_segment mid f) ->
  sm_SizeBytes sm = Z.of_nat (slen (sg_body (file_segment mid f))).
Proof. intros Hok Em. rewrite <- (file_size f Hok), <- Em. done. Qed.

(** The reader of a file. *)
Definition reader_for (f : sealed_file) : Reader := reader_of (sf_created f) (sf_groups f).
Lemma opened_file f : file_ok f -> opened (sg_body (file_segment mid f)) = Ok (reader_for f).
Proof. intros Hf. unfold opened. cbn [sg_body file_segment new_segment]. by rewrite Open_layout by by apply file_sealable. Qed.

(** In any later state, [Reader] of a segment catalogued in [m] opens its file ... *)
Lemma later_reader (m m1 : Mgr) files ac f sm : sim mid cap cfg m files ac -> rtc (run_step mid) m m1 ->
  f ∈ files -> file_ok f -> set_LocalPath "" sm = sg_meta (file_segment mid f) ->
  maxBytes cap < 2 ^ 63 -> sm_SizeBytes sm <= maxBytes cap -> blobs_answer (s_blobs (m_Store m1)) ->
  snd (StoreReader sm (m_Store m1)) = Ok (reader_for f).
Proof.
  intros Hs Hrun Hin Hok Em Hcap Hfit Hup.
  destruct (run_sim mid cap cfg Hmid _ _ _ _ Hs Hrun) as (f1 & new & Hs1).
  assert (Hsg : file_segment mid f ∈ segs_of (files ++ f1)) by (apply list_elem_of_fmap_2, elem_of_app; by left).
  rewrite (listed_size sm f Hok Em) in Hfit. rewrite <- (opened_file f Hok).
  apply (StoreReader_opens (maxBytes cap) sm (m_Store m1) (segs_of (files ++ f1))).
  - apply (si_cache _ _ _ _ _ _ Hs1).
  - done.
  - unfold sg_id. by rewrite <- Em.
  - unfold sg_key. by rewrite <- Em.
  - by apply (ob_body _ _ _ (ho_objects _ _ _ (si_holds _ _ _ _ _ _ Hs1))).
  - done.
  - lia.
Qed.

(** ... and when [ensureLocal] and the open are apart, it opens it or fails. *)
Lemma later_open (m m1 m2 : Mgr) files ac f sm path rd : sim mid cap cfg m files ac ->
  rtc (run_step mid) m m1 -> rtc (run_step mid) (localised sm m1) m2 ->
  f ∈ files -> file_ok f -> set_LocalPath "" sm = sg_meta (file_segment mid f) ->
  snd (ensureLocal sm (m_Store m1)) = Ok path -> snd (open_file path (m_Store m2)) = Ok rd -> rd = reader_for f.
Proof.
  intros Hs R1 R2 Hin Hok Em El Eo.
  assert (Ei : sm_ID sm = sg_id (file_segment mid f)) by (unfold sg_id; by rewrite <- Em).
  assert (Ek : sm_S3Key sm = sg_key (file_segment mid f)) by (unfold sg_key; by rewrite <- Em).
  destruct (run_sim mid cap cfg Hmid _ _ _ _ Hs R1) as (f1 & new & Hs1).
  assert (Hin1 : f ∈ files ++ f1) by (apply elem_of_app; by left).
  assert (Hsg : file_segment mid f ∈ segs_of (files ++ f1)) by by apply list_elem_of_fmap_2.
  assert (Hb : contents (s_blobs (m_Store m1)) !! sm_S3Key sm = Some (sg_body (file_segment mid f)))
    by (rewrite Ek; by apply (ob_body _ _ _ (ho_objects _ _ _ (si_holds _ _ _ _ _ _ Hs1)))).
  pose proof (si_cache _ _ _ _ _ _ Hs1) as Hco. destruct (ensureLocal sm (m_Store m1)) as [st1 r1] eqn:E1. cbn in El. subst r1.
  destruct (ensureLocal_moves sm _ _ _ _ (co_inv _ _ _ Hco) Hb E1) as [M Hp].
  destruct (Hp path eq_refl) as [-> Hcl].
  { rewrite Ei. by apply (co_body _ _ _ Hco). }
  assert (Hs2 : sim mid cap cfg (localised sm m1) (files ++ f1) (ac ++ new)).
  { unfold localised. eapply (segment_read_sim mid cap cfg sm m1 _ _ _ _ f Hs1 Hin1 Ei Ek). rewrite StoreReader_split, E1. done. }
  assert (Hint : has_body mid (pathFor (s_cache (m_Store m1)) (sm_ID sm)) f (m_Store (localised sm m1))).
  { unfold localised. rewrite E1. cbn [m_Store with_parts fst snd]. rewrite Ei in *. split; [by apply (moves_path _ _ _ _ _ _ M)|exact Hcl]. }
  apply (run_has_body mid cap cfg Hmid _ _ _ _ _ _ Hs2 Hin1 R2) in Hint as [Hp2 Hcl2].
  rewrite open_file_spec in Eo. cbn [snd] in Eo. rewrite <- Hp2 in Eo.
  destruct (s_fs (m_Store m2) !! _) as [d|] eqn:Ed; [|done]. apply Hcl2 in Ed as ->.
  rewrite (opened_file f Hok) in Eo. by injection Eo.
Qed.

(** The store a query would see if every [Reader] succeeded. *)
Definition ideal (m : Mgr) (files : list sealed_file) : SegmentStore store_error := {|
  Planner.Overlapping s e := snd (Store.Overlapping s e (m_Store m));
  OpenReader sm := match file_of files sm with Some f => Ok (reader_for f) | None => Err FSError end
|}.

Lemma listed_overlapping (m : Mgr) files ac ms s e : sim mid cap cfg m files ac -> cat_all (s_cat (m_Store m)) = Ok ms ->
  snd (Store.Overlapping s e (m_Store m)) = Ok (List.filter (fun sm => SegmentOverlaps sm s e) ms).
Proof.
  intros Hs Ha. destruct (ho_cat _ _ _ (si_holds _ _ _ _ _ _ Hs)) as (ms' & Hr & _).
  rewrite (cat_all_rep _ _ Hr) in Ha. injection Ha as ->.
  unfold Store.Overlapping, read_cat, on_cat, cat_overlapping. cbn [snd]. by rewrite (overlapping_scan_rep _ _ _ _ Hr).
Qed.
Lemma ideal_holds (m : Mgr) files ac ms : sim mid cap cfg m files ac -> cat_all (s_cat (m_Store m)) = Ok ms ->
  catalog_holds (ideal m files) ms (content_of files).
Proof.
  intros Hs Ha.
  pose proof (fun sm => listed_found _ _ _ sm (si_holds _ _ _ _ _ _ Hs) (si_files _ _ _ _ _ _ Hs) Ha) as Hfile.
  split.
  - intros s e. by apply (listed_overlapping m files ac).
  - intros sm Hm. destruct (Hfile sm Hm) as (f & Ef & _ & Hok & _). exists (reader_for f). unfold ideal, content_of. cbn.
    rewrite Ef. split; [done|]. exact (reader_of_holds _ _ (file_sealable f Hok)).
  - intros sm Hm. destruct (Hfile sm Hm) as (f & Ef & _). unfold content_of. rewrite Ef.
    unfold sf_groups. rewrite (proj1 (groups_spec _)). apply sort_slice_sorted.
  - intros sm r Hm. destruct (Hfile sm Hm) as (f & Ef & _ & _ & Em). unfold content_of. rewrite Ef.
    intros Hr. destruct (meta_for_covers (sf_created f) _ _ Hr) as [Hc Hb].
    assert (Es : forall A (g : SegmentMeta -> A), (forall x, g (set_LocalPath "" x) = g x) ->
      (forall i k x, g (set_key i k x) = g x) -> g sm = g (meta_for (sf_created f) (sf_groups f))).
    { intros A g H1' H2'. rewrite <- (H1' sm), Em. cbn [sg_meta file_segment new_segment]. by rewrite H2'. }
    unfold summary_covers in *. rewrite !(Es _ sm_Namespaces), !(Es _ sm_Pods), !(Es _ sm_Nodes), !(Es _ sm_Containers),
      !(Es _ sm_MinTS), !(Es _ sm_MaxTS) by done. done.
Qed.

(** A query fails in a [Reader], or it is the query over the ideal store. *)
Lemma serves_ideal (m m' : Mgr) files ac ms st fuel open_snap rq {S} (emit : LogRecord -> stM S store_error unit) s :
  sim mid cap cfg m files ac -> serves m m' st -> cat_all (s_cat (m_Store m)) = Ok ms ->
  Run fuel st open_snap rq emit s = Run fuel (ideal m files) open_snap rq emit s \/
  exists e, Run fuel st open_snap rq emit s = (s, Err (StoreError e)).
Proof.
  intros Hs [_ Hl Ho] Ha. apply Run_reopened; [by rewrite Hl|]. intros segs sm rd El Hm Er.
  rewrite Hl, (listed_overlapping m files ac ms _ _ Hs Ha) in El. injection El as <-.
  apply elem_of_filter_b in Hm as [_ Hm].
  destruct (listed_found _ _ _ _ (si_holds _ _ _ _ _ _ Hs) (si_files _ _ _ _ _ _ Hs) Ha Hm) as (f & Ef & Hin & Hok & Em).
  destruct (Ho ms sm Ha Hm) as (m1 & m2 & R1 & R2 & _ & E). rewrite E in Er. cbn. rewrite Ef. f_equal. symmetry.
  destruct (snd (ensureLocal sm (m_Store m1))) as [path|e] eqn:E1; [|done].
  by apply (later_open m m1 m2 files ac f sm path rd).
Qed.
Lemma well_ideal (m m' : Mgr) files ac ms st fuel open_snap rq {S} (emit : LogRecord -> stM S store_error unit) s :
  sim mid cap cfg m files ac -> serves_well m m' st -> all_fit m -> cat_all (s_cat (m_Store m)) = Ok ms ->
  Run fuel st open_snap rq emit s = Run fuel (ideal m files) open_snap rq emit s.
Proof.
  intros Hs [_ Hl Ho] [Hcap Hfit] Ha.
  apply Run_same; [by rewrite Hl|]. intros segs sm El Hm.
  rewrite Hl, (listed_overlapping m files ac ms _ _ Hs Ha) in El. injection El as <-.
  apply elem_of_filter_b in Hm as [_ Hm].
  destruct (listed_found _ _ _ _ (si_holds _ _ _ _ _ _ Hs) (si_files _ _ _ _ _ _ Hs) Ha Hm) as (f & Ef & Hin & Hok & Em).
  cbn. rewrite Ef. destruct (Ho ms sm Ha Hm) as (m1 & R1 & _ & Hup & ->).
  apply (later_reader m m1 files ac f sm); try done. by apply (Hfit ms).
Qed.

(** ** Queries over HTTP *)

(** A request that asks for a query and does not follow. *)
Record plain_query (q : string -> string) (node : Node) (start end_ : Time) : Prop := {
  pq_expr : Parse (q "expr") = Ok node;
  pq_start : parseTime (q "start") = Some start;
  pq_end : parseTime (q "end") = Some end_;
  pq_plain : String.eqb (q "follow") "true" || String.eqb (q "follow") "1" = false
}.

Lemma wire_encodable rs : Forall wire_ok rs -> Forall encodable rs.
Proof. intros Hw. eapply Forall_impl; [exact Hw|]. intros r (_ & [_ Hm]%received_ok & _). exact Hm. Qed.

Lemma recs_of_listed (m : Mgr) files ac ms sm : sim mid cap cfg m files ac ->
  cat_all (s_cat (m_Store m)) = Ok ms -> sm ∈ ms ->
  exists f, f ∈ files /\ set_LocalPath "" sm = sg_meta (file_segment mid f) /\
    recs_of (content_of files) sm = sort_slice (sf_batch f).
Proof.
  intros Hs Ha Hm.
  destruct (listed_found _ _ _ _ (si_holds _ _ _ _ _ _ Hs) (si_files _ _ _ _ _ _ Hs) Ha Hm) as (f & Ef & Hin & _ & Em).
  exists f. split; [done|]. split; [done|]. unfold recs_of, content_of. rewrite Ef. unfold sf_groups. apply groups_spec.
Qed.

Section Answers.
Context (q : string -> string) (node : Node) (start end_ : Time) (werr : store_error) (room : option nat).
Context (treg : Time) (live : list LogRecord) (Hq : plain_query q node start end_).
Abbreviation rq := (query_request q node start end_).
Abbreviation answer st m' fuel := (handleQuery st (snap (m_Spool m')) fuel q werr (mkConn [] room) treg live).

(** The reply of a query over [held]: the records selected, in order, cut after the limit,
    as far as the connection takes them. *)
Definition answers_exactly (held : list LogRecord) (rep : reply (stream * result (query_error store_error) unit) store_error) : Prop :=
  exists out c offs res, rep = Reply ((c, offs), res) /\
    sorted (rq_Desc rq) out /\ out ≡ₚ List.filter (keep rq node) held /\
    cn_sent c = taken_by room (limited (rq_Limit rq) 0 out) /\
    (res = Ok tt <-> taken_by room (limited (rq_Limit rq) 0 out) = limited (rq_Limit rq) 0 out).

Lemma plain_answer st (m' : Mgr) fuel : answer st m' fuel =
  Reply (Run fuel st (snap (m_Spool m')) rq (emit werr) (mkConn [] room, ∅)).
Proof. destruct Hq as [Q1 Q2 Q3 Q4]. unfold handleQuery. by rewrite Q1, Q2, Q3, Q4. Qed.

Lemma ideal_answer (m m' : Mgr) files ac ms fuel :
  sim mid cap cfg m files ac -> rtc (run_step mid) m m' -> cat_all (s_cat (m_Store m)) = Ok ms ->
  let held := List.concat (recs_of (content_of files) <$> ms) ++ sp_buf (m_Spool m') in
  (length held < fuel)%nat -> answers_exactly held (answer (ideal m files) m' fuel).
Proof.
  intros Hs Hrun Ha held Hfuel. destruct Hq as [Q1 Q2 Q3 Q4].
  destruct (run_sim mid cap cfg Hmid _ _ _ _ Hs Hrun) as (f1 & new & Hs').
  refine (handleQuery_streams (ideal m files) ms (content_of files) (ideal_holds m files ac ms Hs Ha) (m_Spool m') fuel
    Hfuel werr q room treg live node start end_ Q1 Q2 Q3 Q4 _).
  apply Forall_app. split; [|apply wire_encodable, (si_buf _ _ _ _ _ _ Hs')].
  apply Forall_concat, Forall_fmap, Forall_forall. intros sm Hm. cbn.
  destruct (recs_of_listed m files ac ms sm Hs Ha Hm) as (f & Hin & _ & ->).
  apply wire_encodable. rewrite sort_slice_perm. pose proof (si_files _ _ _ _ _ _ Hs) as Hf.
  rewrite Forall_forall in Hf. apply (Hf f Hin).
Qed.

(** C24: a deployed manager's answers are exact or refused.  Take any deployment, and a
    query that lists the catalogue in one state, makes each segment it needs local in a
    later one, opens its file in a still later one and takes the snapshot of the open
    buffer in the last, while records arrive, batches are sealed, other queries download
    segments and evict them, and the object store fails as it likes.  Either the query
    ends with an error of the store before it has sent anything; or the response is made of
    exactly the records of the segments catalogued at first, as their files in the object
    store read back, and of those in the buffer at last, that are in the range and satisfy
    the expression: sorted, cut after the limit, and as far as the connection takes them. *)
Theorem deployed_query (m m' : Mgr) st : deployed mid base cap cfg m -> serves m m' st ->
  exists ms (recs : SegmentMeta -> list LogRecord), cat_all (s_cat (m_Store m)) = Ok ms /\
    (forall sm, sm ∈ ms -> exists body,
       contents (s_blobs (m_Store m)) !! sm_S3Key sm = Some body /\ reads_as body (recs sm)) /\
    let held := List.concat (recs <$> ms) ++ sp_buf (m_Spool m') in
    forall fuel, (length held < fuel)%nat ->
      (exists e, answer st m' fuel = Reply ((mkConn [] room, ∅), Err (StoreError e))) \/
      answers_exactly held (answer st m' fuel).
Proof.
  intros Hd Hsv. destruct (deployed_sim mid base cap cfg Hmid m Hd) as (files & ac & Hs).
  destruct (ho_cat _ _ _ (si_holds _ _ _ _ _ _ Hs)) as (ms & Hr & _). pose proof (cat_all_rep _ _ Hr) as Ha.
  exists ms, (recs_of (content_of files)). split; [done|]. split.
  - intros sm Hm. destruct (recs_of_listed m files ac ms sm Hs Ha Hm) as (f & Hin & Em & ->).
    exists (sg_body (file_segment mid f)). split.
    + replace (sm_S3Key sm) with (sg_key (file_segment mid f)) by (unfold sg_key; by rewrite <- Em).
      apply (ob_body _ _ _ (ho_objects _ _ _ (si_holds _ _ _ _ _ _ Hs))). by apply list_elem_of_fmap_2.
    + apply file_reads. pose proof (si_files _ _ _ _ _ _ Hs) as Hf. rewrite Forall_forall in Hf. by apply Hf.
  - intros held fuel Hfuel. pose proof (ideal_answer m m' files ac ms fuel Hs (sv_run _ _ _ Hsv) Ha Hfuel) as Hex.
    rewrite plain_answer in Hex |- *.
    destruct (serves_ideal m m' files ac ms st fuel (snap (m_Spool m')) rq (emit werr) (mkConn [] room, ∅) Hs Hsv Ha)
      as [->|[e ->]]; [by right|left; by exists e].
Qed.
End Answers.

(** ** While no batch is sealed *)

Inductive calm_step : Mgr -> Mgr -> Prop :=
| calm_arrive now r m : wire_ok r -> calm_step m (on_event m (Arrive now r))
| calm_quiet m m' : quiet_step mid m m' -> calm_step m m'.

Lemma calm_buf (m m' : Mgr) : rtc calm_step m m' -> forall r, r ∈ sp_buf (m_Spool m) -> r ∈ sp_buf (m_Spool m').
Proof.
  induction 1 as [m|m m1 m' Hs _ IH]; [done|]. intros r Hr. apply IH.
  destruct Hs as [now x m Hx|m m1 Hq]; cbn.
  - unfold Accept. destruct (is_duplicate _ _); [done|]. cbn. apply elem_of_app. by left.
  - destruct Hq as [id m|ms sm st' res m _ _ _|b m _]; cbn; [|done|done].
    unfold snapshot_call. by destruct (Snapshot _ _).
Qed.

Lemma same_batch (m : Mgr) files ac f f' : sim mid cap cfg m files ac -> f ∈ files -> f' ∈ files ->
  sg_meta (file_segment mid f) = sg_meta (file_segment mid f') -> sort_slice (sf_batch f) = sort_slice (sf_batch f').
Proof.
  intros Hs Hf Hf' E. pose proof (si_files _ _ _ _ _ _ Hs) as Hok. rewrite Forall_forall in Hok.
  assert (Es : file_segment mid f = file_segment mid f').
  { eapply (objects_same mid); [apply (ho_objects _ _ _ (si_holds _ _ _ _ _ _ Hs))|by apply list_elem_of_fmap_2..|].
    unfold sg_id. by rewrite E. }
  eapply reads_as_fun; [apply (file_reads mid), Hok, Hf|]. rewrite Es. apply file_reads, Hok, Hf'.
Qed.

(** What the object store has, a query finds. *)
Lemma stored_found (m m' : Mgr) files ac st q node start end_ werr treg live r :
  sim mid cap cfg m files ac -> stored_in mid (m_Store m) r \/ r ∈ sp_buf (m_Spool m) ->
  rtc calm_step m m' -> serves_well m m' st -> all_fit m ->
  plain_query q node start end_ -> Atoi (q "limit") <= 0 ->
  keep (query_request q node start end_) node r = true ->
  exists k, forall fuel, (k <= fuel)%nat -> exists c offs,
    handleQuery st (snap (m_Spool m')) fuel q werr (mkConn [] None) treg live = Reply ((c, offs), Ok tt) /\ r ∈ cn_sent c.
Proof.
  intros Hs Hr Hcalm Hsv Hfit Hq Hlim Hk.
  destruct (ho_cat _ _ _ (si_holds _ _ _ _ _ _ Hs)) as (ms & Hrep & _). pose proof (cat_all_rep _ _ Hrep) as Ha.
  set (held := List.concat (recs_of (content_of files) <$> ms) ++ sp_buf (m_Spool m')).
  assert (Hin : r ∈ held).
  { apply elem_of_app. destruct (sim_held mid cap cfg m files ac r Hs Hr) as [Hb|(f & Hf & Hrf & ms' & sm & Ha' & Hm & Em)];
      [right; by eapply calm_buf|left]. rewrite Ha in Ha'. injection Ha' as <-.
    apply list_elem_of_In, in_concat. exists (recs_of (content_of files) sm).
    split; [by apply list_elem_of_In, list_elem_of_fmap_2|]. apply list_elem_of_In.
    destruct (recs_of_listed m files ac ms sm Hs Ha Hm) as (f' & Hf' & Em' & ->).
    rewrite (same_batch m files ac f' f Hs Hf' Hf) by by rewrite <- Em', Em. by rewrite sort_slice_perm. }
  exists (S (length held)). intros fuel Hfuel.
  destruct (ideal_answer q node start end_ werr None treg live Hq m m' files ac ms fuel Hs (sw_run _ _ _ Hsv) Ha Hfuel)
    as (out & c & offs & res & E & _ & Hp & Hc & Hres).
  rewrite (plain_answer q node start end_ werr None treg live Hq) in E |- *.
  rewrite (well_ideal m m' files ac ms) by done. cbn [taken_by] in *. exists c, offs. rewrite E.
  rewrite (proj2 Hres eq_refl). split; [done|]. rewrite Hc.
  unfold limited. rewrite (proj2 (Z.ltb_ge 0 _)) by exact Hlim. rewrite Hp. by apply elem_of_filter_b.
Qed.
End Found.

(** ** From the bytes to the answer *)

Section Lines.
Context {C : Type} `{!Bolt C} (files : list log_file) (seen : option Enricher -> Prop) (tcfg : TailerConfig).
Context (ccfg : ClientConfig) `{SortSlice, Regexp, UnicodeTables, Zstd} {B D : Type} `{BlobsLaws B, !Bolt D}.
Context (mid base : string) (cap : Z) (cfg : SpoolConfig) (Hmid : sane_text mid).
Abbreviation Mgr := (Manager (B:=B) (D:=D)).
Context (Hkeys : NoDup (file_key <$> files)) (Hseen : exists enr, seen enr).
Context (Hsize : Forall (fun f => Z.of_nat (slen (lf_data f)) < 2 ^ 63) files).
Context (Hsane : Forall (fun f => sane_text (src_Node (lf_src f)) /\ sane_text (src_Path (lf_src f))) files).
Context (Hwf : Forall (fun f => Forall record_wf (file_records f 0)) files).

(** C2: while no batch is sealed, a line the agent has done with is found.  In any run of the whole program, from
    the bytes of the log files on, take a record of a file that ends at or below the file's
    checkpoint, which is when the agent forgets it.  It was given up, at the hard cap of
    the window or for having no JSON form; or a query over HTTP of the manager whose
    range and expression select it streams it, with the fields the file's bytes and the
    enricher give it, and ends without an error, provided that the query has no limit and
    does not follow, its connection holds, no batch is sealed during it, no catalogued
    segment is larger than the cache, the object store answers, and nothing comes between
    the download of a segment and the opening of its file.  Meanwhile records may arrive,
    segments be read and evicted and the catalogue be snapshot. *)
Theorem checkpointed_is_found (n : net C byte_tail) (m m' : Mgr) f r st q node start end_ werr treg live :
  logs_reachable files seen tcfg ccfg mid base cap cfg (n, m) ->
  f ∈ files -> r ∈ file_records f 0 -> rec_Offset r <= Get (file_key f) (n_cp n) ->
  rtc (calm_step mid) m m' -> serves_well mid m m' st -> all_fit cap m ->
  plain_query q node start end_ -> Atoi (q "limit") <= 0 ->
  place_of r ∈ n_lost n \/ exists enr, seen enr /\
    let r' := carry_record (enriched enr (pi_UID (lf_pod f)) r) in
    keep (query_request q node start end_) node r' = true ->
    exists k, forall fuel, (k <= fuel)%nat -> exists c offs,
      handleQuery st (snap (m_Spool m')) fuel q werr (mkConn [] None) treg live = Reply ((c, offs), Ok tt) /\
      r' ∈ cn_sent c.
Proof.
  intros Hr Hf Hin Hle Hcalm Hsv Hfit Hq Hlim.
  destruct (logs_manager files seen tcfg ccfg mid base cap cfg Hmid Hkeys Hseen Hsize Hsane Hwf n m Hr) as (sealed & ac & Hs).
  destruct (checkpointed_kept files seen tcfg ccfg mid base cap cfg Hmid Hkeys Hseen Hsize Hsane Hwf n m f r Hr Hf Hin Hle)
    as [(enr & He & Hst)|Hl]; [right|by left].
  exists enr. split; [done|]. intros r' Hk.
  exact (stored_found mid cap cfg Hmid m m' sealed ac st q node start end_ werr treg live r' Hs (or_introl Hst) Hcalm Hsv Hfit Hq Hlim Hk).
Qed.
End Lines.

(** ** A query of the sealed line *)

Module Witness.
Local Existing Instance toy_zstd.
Local Existing Instance toy_bolt.
Local Existing Instance literal_regexp.
Local Existing Instance latin1_tables.
Local Existing Instance Spool.Witness.stable_sort.
Local Existing Instance MemBlobs_laws.
Import Durable.Witness.
Abbreviation Mgr0 := (Manager (B:=gmap string string) (D:=Bucket)).

(** Every segment is read in [m]. *)
Definition store_of (m : Mgr0) : SegmentStore store_error := {|
  Planner.Overlapping s e := snd (Store.Overlapping s e (m_Store m));
  OpenReader sm := snd (StoreReader sm (m_Store m))
|}.
Lemma mem_answers (b : gmap string string) : blobs_answer b.
Proof. intros k v E. exists b. cbn in *. unfold mem_Get. by rewrite E. Qed.
Lemma one_serves (m : Mgr0) sm : cat_all (s_cat (m_Store m)) = Ok [sm] ->
  serves_well "m" m (localised sm m) (store_of m).
Proof.
  intros Ea. assert (R1 : rtc (run_step "m") m (localised sm m)).
  { apply rtc_once, run_quiet. unfold localised. apply (quiet_read "m" [sm] sm _ (snd (StoreReader sm (m_Store m)))); [done|by left|].
    by rewrite StoreReader_split. }
  split; [done|done|]. intros ms sm' Ea' Hm. rewrite Ea in Ea'. injection Ea' as <-. apply list_elem_of_singleton in Hm as ->.
  exists m. split; [apply rtc_refl|]. split; [apply rtc_refl|]. split; [apply mem_answers|done].
Qed.
Lemma one_fits (m : Mgr0) sm : cat_all (s_cat (m_Store m)) = Ok [sm] -> sm_SizeBytes sm <= 1000 -> all_fit 1000 m.
Proof.
  intros Ea Hs. split; [done|]. intros ms sm' Ea' Hm. rewrite Ea in Ea'. injection Ea' as <-.
  by apply list_elem_of_singleton in Hm as ->.
Qed.
Definition listed_in (m : Mgr0) : SegmentMeta := match cat_all (s_cat (m_Store m)) with Ok (sm :: _) => sm | _ => meta_for 0 [] end.
Lemma listed2 : cat_all (s_cat (m_Store m2)) = Ok [listed_in m2].
Proof. vm_compute. reflexivity. Qed.

Lemma plain0 : plain_query Http.Witness.no_params matchAll zeroTime zeroTime.
Proof. by split; vm_compute. Qed.
Abbreviation done2 := (localised (listed_in m2) m2).
Lemma deployed_query_witness :
  exists c offs, handleQuery (store_of m2) (snap (m_Spool done2)) 9 Http.Witness.no_params FSError (mkConn [] None) 0 [] =
    Reply ((c, offs), Ok tt) /\ length (cn_sent c) = 1%nat.
Proof.
  destruct (deployed_query "m" "base" 1000 cfg0 sane_m Http.Witness.no_params matchAll zeroTime zeroTime FSError None 0 []
    plain0 m2 done2 (store_of m2) deployed2) as (ms & recs & Ea & Hrecs & Hq); [apply well_serves, one_serves, listed2|].
  rewrite listed2 in Ea. injection Ea as <-.
  assert (Hl : length (List.concat (recs <$> [listed_in m2]) ++ sp_buf (m_Spool done2)) = 1%nat).
  { destruct (Hrecs (listed_in m2) ltac:(by left)) as (body & Hb & Hr).
    assert (Eb : contents (s_blobs (m_Store m2)) !! sm_S3Key (listed_in m2) = Some (sg_body (file_segment "m" file0)))
      by (vm_compute; reflexivity).
    rewrite Eb in Hb. injection Hb as <-. cbn [fmap list_fmap List.concat]. rewrite app_nil_r, length_app.
    rewrite (reads_as_fun _ _ _ Hr (file_reads "m" file0 file0_ok)). vm_compute. reflexivity. }
  destruct (Hq 9%nat ltac:(rewrite Hl; lia)) as [[e E]|(out & c & offs & res & E & _ & Hp & Hc & Hres)].
  { vm_compute in E. discriminate E. }
  cbn [taken_by] in *. exists c, offs. rewrite E, (proj2 Hres eq_refl). split; [done|]. rewrite Hc.
  change (limited _ 0 out) with out. rewrite Hp. rewrite <- Hl.
  assert (Ea' : forall l, List.filter (keep (query_request Http.Witness.no_params matchAll zeroTime zeroTime) matchAll) l = l)
    by (intros l; induction l as [|r l IH]; [done|]; cbn; by f_equal). by rewrite Ea'.
Defined.

Abbreviation r1 := Tailer.Witness.r1.
Abbreviation sealed := Logs.Witness.sealed.
Lemma listed_sealed : cat_all (s_cat (m_Store sealed)) = Ok [listed_in sealed].
Proof. vm_compute. reflexivity. Qed.
Abbreviation done_sealed := (localised (listed_in sealed) sealed).
Lemma calm_sealed : rtc (calm_step "m") sealed done_sealed.
Proof.
  apply rtc_once, calm_quiet. unfold localised.
  apply (quiet_read "m" [listed_in sealed] (listed_in sealed) _ (snd (StoreReader (listed_in sealed) (m_Store sealed)))); [apply listed_sealed|by left|].
  by rewrite StoreReader_split.
Qed.
Lemma checkpointed_is_found_witness :
  exists k, forall fuel, (k <= fuel)%nat -> exists c offs,
    handleQuery (store_of sealed) (snap (m_Spool done_sealed)) fuel Http.Witness.no_params FSError (mkConn [] None) 0 [] =
      Reply ((c, offs), Ok tt) /\ carry_record r1 ∈ cn_sent c.
Proof.
  destruct (checkpointed_is_found Logs.Witness.files0 Logs.Witness.seen0 Logs.Witness.tcfg0 Logs.Witness.ccfg0
    "m" "base" 1000 cfg0 sane_m Logs.Witness.keys0 Logs.Witness.seen_ok Logs.Witness.sizes0 Logs.Witness.sane0 Logs.Witness.wf0
    _ sealed done_sealed Logs.Witness.f0 r1 (store_of sealed) Http.Witness.no_params matchAll zeroTime zeroTime FSError 0 []
    Logs.Witness.reach_sealed) as [Hl|(enr & -> & Hk)].
  - by left.
  - apply Logs.Witness.record0.
  - apply Z.leb_le. vm_compute. reflexivity.
  - apply calm_sealed.
  - apply one_serves, listed_sealed.
  - apply (one_fits _ _ listed_sealed). apply Z.leb_le. vm_compute. reflexivity.
  - apply plain0.
  - vm_compute. discriminate.
  - by apply not_elem_of_nil in Hl.
  - apply Hk. reflexivity.
Defined.

(** A seal can hide records from a query that overlaps it.  The executor lists the
    catalogue before it takes the snapshot of the open buffer, so the records of a seal
    that begins and ends in between are in neither: a record the manager shows before the
    query and after it is missing from the answer, which ends without an error. *)
Theorem seal_during_query_hides : exists (m m' : Mgr0) st r,
  deployed "m" "base" 1000 cfg0 m /\ r ∈ sp_buf (m_Spool m) /\ run_step "m" m m' /\ queryable (m_Store m') r /\
  serves "m" m m' st /\
  forall fuel, handleQuery st (snap (m_Spool m')) (S fuel) Http.Witness.no_params FSError (mkConn [] None) 0 [] =
    Reply ((mkConn [] None, ∅), Ok tt).
Proof.
  exists m1, m2, (store_of m1), r0. split; [apply deployed1|]. split; [apply buf1|]. split; [apply seals|].
  split; [|split].
  - exists [listed_in m2], (listed_in m2), (sg_body (file_segment "m" file0)), (sort_slice (sf_batch file0)).
    split; [vm_compute; reflexivity|]. split; [by left|].
    split; [vm_compute; reflexivity|]. split; [apply file_reads, file0_ok|].
    replace (sort_slice (sf_batch file0)) with [r0] by (vm_compute; reflexivity). by left.
  - split; [apply rtc_once, seals|done|]. intros ms sm Ea Hm. vm_compute in Ea. injection Ea as <-. by apply elem_of_nil in Hm.
  - intros fuel. vm_compute. reflexivity.
Qed.
End Witness.
