(* ===== verification/Cmd.v ===== *)
(** cmd/agent/main.go, cmd/manager/main.go and internal/buildinfo/buildinfo.go: what the
    commands compute from the environment and the build information.  The rest of the two
    [main] functions parses flags and starts the components of the other files. *)

From S2P Require Import Prelude GoStrings GoTime GoDuration Model SegFormat Catalog StoreToy S3 Spool Client.
From S2P Require Import Checkpoint Enrich Tailer Discover.
From Stdlib Require Import Ascii.
Local Open Scope string_scope.
Local Open Scope list_scope.
Local Open Scope Z_scope.

(** [env], [envInt64] and [envDuration], over [os.Getenv]. *)
Definition env (Getenv : string -> string) (k def : string) : string :=
  if String.eqb (Getenv k) "" then def else Getenv k.
Definition envInt64 (Getenv : string -> string) (k : string) (def : Z) : Z :=
  if String.eqb (Getenv k) "" then def else default def (ParseInt (Getenv k)).

Definition envDuration (Getenv : string -> string) (k : string) (def : Duration) : Duration :=
  if String.eqb (Getenv k) "" then def else default def (ParseDuration (Getenv k)).

(** [splitCSV] *)
Definition splitCSV (s : string) : list string :=
  foldl (fun out p => let p := TrimSpace p in if String.eqb p "" then out else out ++ [p]) [] (Split "," s).

(** The namespaces the agent's [main] excludes. *)
Definition agent_exclude (excludeNS ownNS : string) : list string :=
  let exclude := splitCSV excludeNS in
  if String.eqb ownNS "" then exclude else exclude ++ [ownNS].

(** ** The flags: their defaults, and the configurations [main] derives from them *)

Record AgentFlags := mkAgentFlags {
  af_managerAddr : string; af_logRoot : string; af_checkpoint : string; af_nodeName : string;
  af_maxHeld : Z; af_enrichK8s : bool; af_excludeNS : string; af_ownNS : string;
  af_excludeAnno : string; af_metaWait : Duration
}.
Definition agent_flags (Getenv : string -> string) : AgentFlags :=
  mkAgentFlags (env Getenv "SL_MANAGER_ADDR" "simplelog-manager:9000")
    (env Getenv "SL_LOG_ROOT" "/var/log/pods")
    (env Getenv "SL_CHECKPOINT" "/var/lib/simplelog/checkpoint.db")
    (env Getenv "NODE_NAME" "")
    (envInt64 Getenv "SL_MAX_HELD_BYTES" (64 * 2 ^ 20))
    (negb (String.eqb (Getenv "SL_ENRICH") "false"))
    (env Getenv "SL_EXCLUDE_NAMESPACES" "")
    (env Getenv "POD_NAMESPACE" "")
    (env Getenv "SL_EXCLUDE_ANNOTATION" "simplelog.io/ingest")
    (envDuration Getenv "SL_METADATA_WAIT" (30 * Second)).
(** The client's and the tailer's configurations; [main] stops without a node name. *)
Definition agent_client (f : AgentFlags) : ClientConfig := mkClientConfig (af_maxHeld f) 0 0 0 0.
Definition agent_tailer (f : AgentFlags) : option TailerConfig :=
  if String.eqb (af_nodeName f) "" then None else
  Some (mkTailerConfig (af_logRoot f) (af_nodeName f) "" 0
          (agent_exclude (af_excludeNS f) (af_ownNS f)) (af_metaWait f)).

Record ManagerFlags := mkManagerFlags {
  mf_ingestAddr : string; mf_httpAddr : string; mf_baseDir : string; mf_managerID : string;
  mf_segBytes : Z; mf_segAge : Duration; mf_cacheBytes : Z;
  mf_s3Bucket : string; mf_s3Domain : string; mf_s3Region : string; mf_s3Proto : string; mf_s3Path : bool
}.
Definition manager_flags (Getenv : string -> string) : ManagerFlags :=
  mkManagerFlags (env Getenv "SL_INGEST_ADDR" ":9000") (env Getenv "SL_HTTP_ADDR" ":8080")
    (env Getenv "SL_BASE_DIR" "/data") (env Getenv "SL_MANAGER_ID" "mgr1")
    (envInt64 Getenv "SL_SEG_BYTES" (64 * 2 ^ 20)) (envDuration Getenv "SL_SEG_AGE" (5 * Minute))
    (envInt64 Getenv "SL_CACHE_BYTES" (2 * 2 ^ 30))
    (env Getenv "SL_S3_BUCKET" "") (env Getenv "SL_S3_DOMAIN" "s3.amazonaws.com")
    (env Getenv "SL_S3_REGION" "us-east-1") (env Getenv "SL_S3_PROTOCOL" "https")
    (String.eqb (Getenv "SL_S3_PATH_STYLE") "true").
(** The object store's and the spool's configurations; [main] stops without a bucket. *)
Definition manager_s3 (Getenv : string -> string) (f : ManagerFlags) : option S3Config :=
  if String.eqb (mf_s3Bucket f) "" then None else
  Some (mkS3Config (Getenv "SL_S3_ACCESS_KEY") (Getenv "SL_S3_SECRET_KEY") (mf_s3Region f) (mf_s3Bucket f)
          (mf_s3Domain f) (mf_s3Proto f) (mf_s3Path f)).
Definition manager_spool (f : ManagerFlags) : SpoolConfig := mkConfig (mf_segBytes f) (mf_segAge f).

Example manager_env :
  let f := manager_flags (fun k => if String.eqb k "SL_SEG_AGE" then "90s" else if String.eqb k "SL_SEG_BYTES" then "x" else "") in
  manager_spool f = mkConfig 67108864 90000000000 /\ manager_s3 (fun _ => "") f = None.
Proof. vm_compute. done. Qed.

(** ** buildinfo *)

Record BuildInfo := mkBuildInfo { bi_Version : string; bi_Commit : string; bi_Date : string }.
(** [init], over the settings the build recorded, if it did. *)
Definition buildinfo_init (settings : option (list (string * string))) (b : BuildInfo) : BuildInfo :=
  foldl (fun b s =>
    if String.eqb s.1 "vcs.revision" then
      if String.eqb (bi_Commit b) "" then mkBuildInfo (bi_Version b) s.2 (bi_Date b) else b
    else if String.eqb s.1 "vcs.time" then
      if String.eqb (bi_Date b) "" then mkBuildInfo (bi_Version b) (bi_Commit b) s.2 else b
    else b) b (default [] settings).
(** [String] *)
Definition buildinfo_String (b : BuildInfo) : string :=
  let commit := if (12 <? slen (bi_Commit b))%nat then stake 12 (bi_Commit b) else bi_Commit b in
  if negb (String.eqb commit "") && negb (String.eqb (bi_Date b) "")
  then bi_Version b +:+ " (commit " +:+ commit +:+ ", built " +:+ bi_Date b +:+ ")"
  else if negb (String.eqb commit "") then bi_Version b +:+ " (commit " +:+ commit +:+ ")"
  else bi_Version b.

Example buildinfo_full :
  buildinfo_String (buildinfo_init (Some [("vcs.time", "T"); ("vcs.revision", "abcdef0123456789")]) (mkBuildInfo "dev" "" ""))
  = "dev (commit abcdef012345, built T)".
Proof. reflexivity. Qed.
Example splitCSV_blanks : splitCSV " a,, b ,c" = ["a"; "b"; "c"].
Proof. reflexivity. Qed.

(** ** What the agent never tails *)

Section Agent.
Context {D : Type} `{Bolt D}.

(** The tailer's life: scans, and tails that end. *)
Inductive tailer_step : Tailer -> Tailer -> Prop :=
| tailer_scan stat cp enr matches t : tailer_step t (discover stat cp enr matches t)
| tailer_end key t :
    tailer_step t (mkTailer (ta_cfg t) (ta_exclude t) (delete key (ta_active t))).

Lemma elem_of_exclude ns l : ns ∈ ta_exclude (NewTailer l) <-> ns <> "" /\ ns ∈ tc_ExcludeNamespaces l.
Proof.
  unfold NewTailer; cbn. assert (G : forall k s, ns ∈ foldl (fun m ns => if String.eqb ns "" then m else {[ns]} ∪ m) (s : gset string) k
    <-> ns ∈ s \/ (ns <> "" /\ ns ∈ k)).
  { induction k as [|x k IH]; intros s; cbn; [set_solver|]. rewrite IH.
    destruct (String.eqb_spec x "") as [->|Hne]; [|set_solver]. rewrite elem_of_cons. naive_solver. }
  rewrite G. set_solver.
Qed.

Definition excludes (t : Tailer) (ex : gset string) : Prop :=
  ta_exclude t = ex /\ map_Forall (fun key ft => pi_Namespace (ft_pod ft) ∉ ex /\ key = Key (ft_src ft)) (ta_active t).

Lemma scan_excludes stat cp enr matches t ex : excludes t ex -> excludes (discover stat cp enr matches t) ex.
Proof.
  unfold discover. revert t; induction matches as [|p matches IH]; intros t Ht; [done|]. cbn. apply IH.
  destruct Ht as [He Ha]. split; [by rewrite (proj2 (discover_path_frame _ _ _ _ _))|].
  intros key ft [E|[_ (pod & fi & _ & Hw & _ & -> & ->)]]%discover_path_active; [by apply Ha|]. cbn.
  split; [|done]. unfold wanted in Hw. apply andb_true_iff in Hw as [Hw _].
  apply negb_true_iff, bool_decide_eq_false in Hw. by rewrite <- He.
Qed.
Lemma tailer_excludes t t' ex : rtc tailer_step t t' -> excludes t ex -> excludes t' ex.
Proof.
  induction 1 as [|t1 t2 t3 [stat cp enr matches t|key t] _ IH]; [done|..]; intros Ht; apply IH.
  - by apply scan_excludes.
  - destruct Ht as [He Ha]. split; [done|]. intros key' ft' E. cbn in E.
    apply lookup_delete_Some in E as [_ E]. by apply Ha.
Qed.

(** C33: the agent never tails its own logs.  Whatever files there are, however often the
    tailer scans and tails end, no active tail belongs to the agent's own namespace or to
    one the operator listed, so its logs cannot feed back into it; and each tail is under
    the key of its file generation. *)
Theorem own_logs_never_tailed f cfg t key ft :
  agent_tailer f = Some cfg -> rtc tailer_step (NewTailer cfg) t -> ta_active t !! key = Some ft ->
  (af_ownNS f <> "" -> pi_Namespace (ft_pod ft) <> af_ownNS f) /\
  pi_Namespace (ft_pod ft) ∉ splitCSV (af_excludeNS f) /\ key = Key (ft_src ft).
Proof.
  unfold agent_tailer. destruct (String.eqb (af_nodeName f) ""); [done|]. intros [= Ec] Hr Ea.
  assert (Ex : tc_ExcludeNamespaces cfg = agent_exclude (af_excludeNS f) (af_ownNS f)) by by rewrite <- Ec.
  clear Ec. revert Ex. generalize (af_ownNS f) (af_excludeNS f). intros ownNS excludeNS Ec. assert (H0 : excludes (NewTailer cfg) (ta_exclude (NewTailer cfg)))
    by (split; [done|]; intros k ft' E; cbn in E; by rewrite lookup_empty in E).
  destruct (tailer_excludes _ _ _ Hr H0) as [_ Hall]. destruct (Hall key ft Ea) as [Hns ->].
  rewrite elem_of_exclude, Ec in Hns. unfold agent_exclude in Hns.
  assert (Hcsv : "" ∉ splitCSV excludeNS).
  { unfold splitCSV. generalize (Split "," excludeNS) as l. intros l.
    assert (G : forall k out, "" ∉ out -> "" ∉ foldl (fun out p => let p := TrimSpace p in
      if String.eqb p "" then out else out ++ [p]) (out : list string) k); [|apply G; by apply not_elem_of_nil].
    induction k as [|p k IH]; intros out Ho; [done|]. cbn. apply IH.
    destruct (String.eqb_spec (TrimSpace p) "") as [?|Hne]; [done|]. rewrite elem_of_app, list_elem_of_singleton. naive_solver. }
  split; [|split; [|done]].
  - intros Hne E. apply Hns. rewrite E. split; [done|]. destruct (String.eqb_spec ownNS "") as [?|_]; [done|].
    apply elem_of_app. right. by left.
  - intros Hin. apply Hns. split; [intros E; by rewrite E in Hin|].
    destruct (String.eqb ownNS ""); [done|]. apply elem_of_app. by left.
Qed.

End Agent.

Module Witness.
Local Existing Instance toy_bolt.

Definition paths : list string := ["/var/log/pods/web_api_u1/app/0.log"; "/var/log/pods/sl_mgr_u2/c/0.log"].
Definition flags0 : AgentFlags :=
  agent_flags (fun k => if String.eqb k "NODE_NAME" then "n" else if String.eqb k "POD_NAMESPACE" then "sl"
                        else if String.eqb k "SL_EXCLUDE_NAMESPACES" then "kube-system, dev" else "").
Definition cfg0 : TailerConfig := default (mkTailerConfig "" "" "" 0 [] 0) (agent_tailer flags0).
Definition scanned : Tailer :=
  discover (fun _ => Some (mkFileInfo 1 2 (Some (mkStatx true 0 3)))) (bucket []) None paths (NewTailer cfg0).

Definition key0 : string := Key (mkSource "n" "/var/log/pods/web_api_u1/app/0.log" 1 2 3).
Definition ft0 : fileTail := default (open_tail "" (mkPodInfo "" "" "" "") (mkSource "" "" 0 0 0) 0) (ta_active scanned !! key0).

Lemma own_logs_never_tailed_witness :
  ta_active scanned !! key0 = Some ft0 /\ pi_Namespace (ft_pod ft0) <> "sl".
Proof.
  assert (E : ta_active scanned !! key0 = Some ft0) by (vm_compute; reflexivity).
  split; [exact E|].
  apply (own_logs_never_tailed flags0 cfg0 scanned key0 ft0);
    [reflexivity|apply rtc_once, tailer_scan|exact E|discriminate].
Defined.
End Witness.
